(* ===== verification/_CoqProject ===== *)
-Q . S2P
Prelude.v
Position.v
BTree.v
RangeSet.v
Cursor.v
CursorRead.v
MemoryStore.v
LedgerInfo.v
MetadataCodec.v
Bytes.v
Text.v
EntryLog.v
Keys.v
RocksLedger.v
RocksStore.v
WriteQueue.v
MessageMap.v
Redelivery.v
StickyKey.v
Consumer.v
ReadPosition.v
StorageService.v
Dispatch.v
SharedDispatcher.v
SharedDelivery.v
DispatchTrigger.v
KeyShared.v
KeyDelivery.v
SingleActive.v
FailoverDelivery.v
Subscription.v
DurableCursor.v
SubscriptionDelivery.v
Commands.v
Codec.v
StableSort.v
NonPersistent.v
PublishRate.v
Effects.v
TopicSubscription.v
SharedStore.v
Topic.v
BrokerService.v
Connection.v
System.v
FlowControl.v
Trace.v
Registry.v
Conservation.v
Handshake.v
ConnectionLimiter.v
Config.v
Server.v
MetadataStore.v
MetadataRestart.v
Restart.v
