(* ===== verification/Prelude.v ===== *)
(** * A verification library for the pulsar-lite broker

    pulsar-lite is a message broker written in Rust that speaks the protocol of
    Apache Pulsar.  Producers publish messages to topics; a topic keeps them in a
    managed ledger, in memory or on disk; consumers share subscriptions, whose
    cursors record what has been acknowledged; a dispatcher per subscription
    decides which consumer gets which message.  This library translates those
    parts into executable definitions and proves what makes them correct.  Paths
    below are relative to [src/rust]; [broker] is [src/rust/src/broker].

    ** Files

    Foundations.
    - [Prelude]: machine integers, the [result] type, tactics and the hint
      databases of the library; lemmas on lists and options.
    - [Position] ([storage/managed-ledger/src/position.rs]), [BTree], [Bytes],
      [Text]: positions and message ids, ordered sets, fixed-width integers in
      bytes, and the string functions of the standard library the code uses.

    Storage.
    - [RangeSet], [Cursor], [CursorRead] (same names in
      [storage/managed-ledger/src]): the set of acknowledged positions as
      coalesced ranges, the cursor of a shared subscription, reads from a position.
    - [MemoryStore] ([memory.rs]): the in-memory store.
    - [LedgerInfo], [MetadataCodec] ([storage/managed-ledger-rocksdb/src/metadata.rs],
      [cursor.rs]): segments of a ledger, the durable cursor, and their records on
      disk.
    - [EntryLog] ([entrylog.rs]), [Keys] ([keys.rs],
      [storage/metadata/src/model.rs]), [RocksLedger] ([ledger.rs]), [RocksStore]
      ([store.rs], [factory.rs]), [WriteQueue] ([write_queue.rs]): the durable store,
      from the log files up to the thread that appends for all topics.
    - [StorageService] ([storage/core/src/backend.rs], [service.rs]): the choice
      between the two stores.

    Dispatching ([broker/dispatcher], [broker/service]).
    - [MessageMap], [Redelivery], [StickyKey], [Consumer]: maps ordered by message
      id, the redelivery queue, keys and their hashes, one consumer with its permits
      and unacknowledged messages.
    - [ReadPosition]: the search for the next message to deliver, and the interface
      [SubscriptionStore] with the law [presents]: what dispatchers rely on of a
      store.  The dispatchers are verified against it; [StorageService] proves it
      for both stores.
    - [Dispatch], [SharedDispatcher], [SharedDelivery], [DispatchTrigger]: the
      shared dispatcher, and the two atomic flags that merge concurrent triggers.
    - [KeyShared], [KeyDelivery]: the key-shared dispatcher.
    - [SingleActive], [FailoverDelivery]: the exclusive and failover dispatchers.
    - [Subscription] ([broker/dispatcher/enums.rs], [traits.rs],
      [service/persistent/persistent_subscription.rs],
      [service/topic/subscription.rs]): a persistent subscription over any store,
      with the class [Dispatcher] for the Rust trait of that name.
    - [DurableCursor], [SubscriptionDelivery]: what a subscription relies on of its
      cursor, proved for both stores, and the composition of everything above.
    - [StableSort], [NonPersistent] ([broker/non_persistent]): the dispatchers of
      non-persistent topics, which send a message at once or drop it.

    Topics, connections and the broker.
    - [Commands], [Codec] ([proto/src]): the commands of the wire protocol and the
      framing of a byte stream.
    - [Effects]: the state and error monad of the handlers, with [keeps], the
      relation between the states before and after a handler.
    - [TopicSubscription] ([service/topic/subscription.rs]): a subscription as topics
      and connections see it, over its persistent or non-persistent runtime.
    - [PublishRate], [Topic] ([service/topic/topic.rs], [service/producer.rs]): the
      publish rate limit, publications, and the worker that fans non-persistent
      messages out.
    - [BrokerService] ([broker_service.rs], [service/topic/partitioned_topic.rs]):
      topics and subscriptions live in heaps, to which the registry, producers,
      connections and spawned tasks hold references.
    - [Connection] ([service/server_cnx.rs], [broker/handler]): the state of a
      connection, one handler per command, the turns of its loop ([run_turn]) and its
      end ([finish_run], [cleanup]).
    - [System]: the step relation [sys_step] of the whole broker: turns of
      connections, spawned tasks, fan-out workers and rounds of the write queue in
      any order.  [perform] is the same as a function, for examples.
    - [FlowControl]: the publications in flight, over [System].
    - [Trace]: every step of [System] is a sequence of events on the broker, so that
      an invariant is proved event by event; [Registry] does so for the names of
      topics and subscriptions.
    - [SharedStore], [Conservation]: one RocksDB store under all topics and
      subscriptions of the broker.  [store_ok] is what it holds, [harmless] a change
      that touches no other subscription; [broker_ok] is the invariant of the broker
      on it, kept by every event of [Trace].
    - [Handshake]: what a connection can do before its handshake.
    - [ConnectionLimiter] ([connection_limiter.rs]): how many connections there are.
    - [Config] ([config.rs]): the settings; [Server] ([main.rs], [handle_connection] of
      [server_cnx.rs]): the accept loop around [System].
    - [MetadataStore] ([storage/metadata/src], [storage/resources/src]): tenants,
      namespaces, topics and subscriptions, and the document they are saved in;
      [MetadataRestart]: the store and its file over any operations and failures;
      [Restart] ([main.rs]): the broker and its metadata over any number of starts.

    ** What the theorems show

    - A persistent subscription of any type loses no message, whatever its
      consumers do and whatever is published ([subscription_keeps_messages]); the
      theorems on the dispatchers underneath it say the same of their passes, and
      that the passes end.
    - The whole broker on a RocksDB store loses no message, however its connections,
      tasks and writer interleave ([broker_keeps_messages]).  The clients it is proved
      for have topic names of three parts, because with more a cursor can share its
      key with another topic's ledger; no failover subscriptions, because a consumer
      that lost the active role takes its messages along when it leaves; and they
      acknowledge message by message, do not start at a message id, and neither seek nor
      unsubscribe, so that no request discards messages.  Priority levels and partition
      indices are not negative.  Writes of the log fail as a whole, because a torn write
      makes later entries unreadable, and the 64-bit ids and sizes must not overflow.
    - What is delivered, and in which order: a pass delivers everything there are
      permits for, an exclusive consumer gets the messages in order, messages of one
      key stay in order, one consumer owns a key.
    - The durable store refines an append-only log per topic, also after a restart;
      every queued write is completed once and in order; what is read back is what
      was written; cursors record exactly the set of acknowledged messages.
    - No two records share a key in the database, but for a cursor and the ledger of a
      topic whose name has a slash ([database_keys_injective]); what a read of the log
      returns is what the file holds; a stream of frames is decoded however it is cut
      into chunks.
    - Every non-persistent message is sent to a consumer or counted as dropped, and
      batching in the fan-out worker does not change who gets what.
    - A topic never accepts more than twice its rate in a second, and the
      publications a connection has in flight are exactly those it counts, within
      its limits, whatever the rest of the broker does ([flow_control]).
    - A name stands for one topic and one subscription, for every client and for
      good ([one_topic_per_name]); partitions are found by their names.
    - A connection does nothing to the broker before its handshake, and there are
      never more connections than the limits allow.  The server with its accept loop
      refines [System], so that what holds of its reachable states holds of the server
      ([server_refines_system]).
    - The metadata file always loads and is a complete snapshot ([metadata_restart]);
      a broker that is started again partitions its topics as before
      ([restart_keeps_partitions]).
    - Some theorems state where the code does something else than its comments or
      its callers assume: lost triggers, a redelivered message that sticks, leaked
      permits, and others.  They are listed as findings beside the library.

    ** Modelling choices

    Integers are [Z] with their wrap-around written out where the code can reach
    it.  Maps are [gmap]s; ordered maps and sets are sorted.  Fallible code returns
    [result]; the ledger code threads the database through a small state and error
    monad.  Loops that are not structural take fuel, and the theorems prove that the
    fuel they are given suffices: one more than the number of messages in the store
    for a dispatch pass, twice that for the key-shared dispatcher, the length of the
    queue for the write queue.  Concurrency is explicit where it matters: the flags
    of the shared dispatcher are a step relation over any number of threads, the
    answers of a connection and the outcomes of disk writes are inputs.  An
    operation on a subscription runs under its lock and is one step; in [System] a
    handler is one step, for which the clock stands still, and a handler that waits for
    completions takes its step when they have come.  Single reads and writes of the
    database succeed; its batch writes and the writes of the log may fail.  Formats
    defined by other libraries (protobuf, bincode, JSON, TOML) are classes with round-trip laws,
    instantiated by a concrete codec for the examples; the witnesses of the theorems
    use it.

    ** Not modelled

    Metrics, logging, the parsing of the command line and the Python package that
    finds and starts the broker: they do input and output and do not decide what the
    broker does with a message.  RocksDB, the file system and the network are
    represented by what they store and answer.  Wake-ups of waiting tasks and thread
    shutdown are not represented.  The channel from the consumers to their connection
    is represented by its two ends: a consumer's send takes an answer from an input,
    and what the connection finds in the channel is an input of its turn.  The statistics of producers and the properties of
    subscriptions do not influence the rest and are left out. *)

From Stdlib Require Export ZArith Lia Sorting.Sorted.
From stdpp Require Export strings gmap fin_maps.
From stdpp Require Export prelude.

#[global] Open Scope Z_scope.

(** ** Machine integers

    Rust integers are kept as [Z].  [u64_ok], [i32_ok], ... state that a value
    is representable; [wrap_u64] and friends are the two's complement wrap that
    release-mode arithmetic performs. *)

Definition U64_MAX : Z := 18446744073709551615.
Definition U32_MAX : Z := 4294967295.
Definition I32_MAX : Z := 2147483647.
Definition I32_MIN : Z := -2147483648.
Definition I64_MAX : Z := 9223372036854775807.

Definition u64_ok (n : Z) : Prop := 0 <= n <= U64_MAX.
Definition u32_ok (n : Z) : Prop := 0 <= n <= U32_MAX.
Definition i32_ok (n : Z) : Prop := I32_MIN <= n <= I32_MAX.
Definition byte_ok (b : Z) : Prop := 0 <= b < 256.

Definition wrap_u64 (n : Z) : Z := n mod 18446744073709551616.
Definition wrap_u32 (n : Z) : Z := n mod 4294967296.

(** Reinterpretation of a 64-bit pattern as a signed integer ([as i64]). *)
Definition u64_as_i64 (n : Z) : Z :=
  if n <=? I64_MAX then n else n - 18446744073709551616.

Definition u64_checked_add (a b : Z) : option Z :=
  if a + b <=? U64_MAX then Some (a + b) else None.

(** Saturating subtraction of unsigned integers. *)
Definition sat_sub (a b : Z) : Z := Z.max 0 (a - b).

(** ** Fallible code *)

Inductive result (E A : Type) : Type :=
| Ok (a : A)
| Err (e : E).
Arguments Ok {E A} _.
Arguments Err {E A} _.

Definition result_bind {E A B} (r : result E A) (f : A -> result E B) : result E B :=
  match r with
  | Ok a => f a
  | Err e => Err e
  end.

Declare Scope result_scope.
Delimit Scope result_scope with result.
Notation "'let?' x := r 'in' k" :=
  (result_bind r (fun x => k))
    (at level 10, x pattern, r at level 200, k at level 200)
    : result_scope.

Definition ok_or {E A} (o : option A) (e : E) : result E A :=
  match o with
  | Some a => Ok a
  | None => Err e
  end.

(** ** Tactics *)

(** Unfold the machine-integer vocabulary and call [lia]. *)
Ltac mlia :=
  unfold u64_ok, u32_ok, i32_ok, byte_ok, sat_sub,
    U64_MAX, U32_MAX, I32_MAX, I32_MIN, I64_MAX in *; lia.

(** Case analysis on the test of the first [if] on a boolean, with the boolean
    comparisons turned into propositions. *)
Ltac case_bool :=
  match goal with
  | |- context [if ?b then _ else _] =>
      lazymatch type of b with bool => destruct b eqn:? end
  | H : context [if ?b then _ else _] |- _ =>
      lazymatch type of b with bool => destruct b eqn:? end
  end.

(** Decide a goal built from boolean comparisons by case analysis on them. *)
Ltac zbool :=
  repeat match goal with
  | |- context [?a <=? ?b] => destruct (Z.leb_spec a b)
  | |- context [?a <? ?b] => destruct (Z.ltb_spec a b)
  | |- context [?a =? ?b] => destruct (Z.eqb_spec a b)
  end; cbn [negb andb orb]; first [done | exfalso; mlia | mlia].

(** Destruct the scrutinee of a [match] in the goal, remembering its value. *)
Ltac case_match_goal :=
  match goal with
  | |- context [match ?x with _ => _ end] => destruct x eqn:?
  end.

Create HintDb pulsar.
Create Rewrite HintDb pulsar_rw.

(** ** Generic lemmas *)

Lemma wrap_u64_id (n : Z) : u64_ok n -> wrap_u64 n = n.
Proof. intros; unfold wrap_u64; apply Z.mod_small; mlia. Qed.

Lemma wrap_u64_ok (n : Z) : u64_ok (wrap_u64 n).
Proof.
  unfold wrap_u64, u64_ok, U64_MAX.
  pose proof (Z.mod_pos_bound n 18446744073709551616); lia.
Qed.

Lemma u64_as_i64_nonneg (n : Z) :
  u64_ok n -> 0 <= u64_as_i64 n <-> n <= I64_MAX.
Proof. unfold u64_as_i64; intros; case_bool; mlia. Qed.

#[export] Hint Resolve wrap_u64_ok : pulsar.
#[export] Hint Rewrite wrap_u64_id using (mlia || assumption) : pulsar_rw.

Lemma list_filter_id {A} (P : A -> Prop) `{forall x, Decision (P x)} (l : list A) :
  (forall x, x ∈ l -> P x) -> filter P l = l.
Proof.
  induction l as [|x l IH]; intros HP; [done |].
  rewrite filter_cons_True by (apply HP; set_solver).
  f_equal; apply IH; set_solver.
Qed.

Lemma list_filter_ext {A} (P Q : A -> Prop) `{forall x, Decision (P x)} `{forall x, Decision (Q x)}
    (l : list A) :
  (forall x, x ∈ l -> P x <-> Q x) -> filter P l = filter Q l.
Proof.
  induction l as [|x l IH]; intros HPQ; [done |]; rewrite !filter_cons.
  rewrite IH by (intros y Hy; apply HPQ; by right).
  specialize (HPQ x ltac:(by left)); destruct (decide (P x)), (decide (Q x)); tauto.
Qed.

Lemma filter_no_longer {A} (P Q : A -> Prop) `{forall x, Decision (P x)} `{forall x, Decision (Q x)}
    (l : list A) :
  (forall x, x ∈ l -> P x -> Q x) -> (length (filter P l) <= length (filter Q l))%nat.
Proof.
  induction l as [|x l IH]; intros HPQ; [done |]; rewrite !filter_cons.
  specialize (IH ltac:(intros y Hy; apply HPQ; by right)).
  specialize (HPQ x ltac:(by left)).
  destruct (decide (P x)), (decide (Q x)); cbn [length]; solve [lia | tauto].
Qed.

Lemma filter_shorter {A} (P Q : A -> Prop) `{forall x, Decision (P x)} `{forall x, Decision (Q x)}
    (l : list A) (y : A) :
  (forall x, x ∈ l -> P x -> Q x) -> y ∈ l -> Q y -> ~ P y ->
  (length (filter P l) < length (filter Q l))%nat.
Proof.
  induction l as [|x l IH]; intros HPQ Hy HQ HP; [by apply elem_of_nil in Hy |].
  rewrite !filter_cons.
  assert (forall z, z ∈ l -> P z -> Q z) as Hl by (intros z Hz; apply HPQ; by right).
  pose proof (HPQ x ltac:(by left)) as Hx; pose proof (filter_no_longer P Q l Hl).
  apply elem_of_cons in Hy as [->|Hy].
  - rewrite decide_False, decide_True by done; cbn; lia.
  - specialize (IH Hl Hy HQ HP).
    destruct (decide (P x)), (decide (Q x)); cbn [length]; solve [lia | tauto].
Qed.

Lemma list_fmap_filter_ext {A B} (f : A -> B) (P : A -> Prop) (Q : B -> Prop)
    `{forall x, Decision (P x)} `{forall x, Decision (Q x)} (l : list A) :
  (forall x, x ∈ l -> P x <-> Q (f x)) -> f <$> filter P l = filter Q (f <$> l).
Proof.
  induction l as [|x l IH]; intros HPQ; [done |].
  change (f <$> x :: l) with (f x :: (f <$> l)); rewrite !filter_cons.
  rewrite <- IH by (intros y Hy; apply HPQ; by right).
  specialize (HPQ x ltac:(by left)); destruct (decide (P x)), (decide (Q (f x))); tauto.
Qed.

Lemma StronglySorted_filter {A} (R : A -> A -> Prop) (P : A -> Prop) `{forall x, Decision (P x)}
    (l : list A) :
  StronglySorted R l -> StronglySorted R (filter P l).
Proof.
  induction 1 as [|x l Hl IH Hx]; [constructor |].
  rewrite filter_cons; destruct (decide (P x)); [|done]; constructor; [done |].
  rewrite Forall_forall in Hx |- *; intros y [_ Hy]%list_elem_of_filter; auto.
Qed.

Lemma StronglySorted_impl {A} (R R' : A -> A -> Prop) (l : list A) :
  (forall x y, x ∈ l -> y ∈ l -> R x y -> R' x y) -> StronglySorted R l -> StronglySorted R' l.
Proof.
  intros HR; induction 1 as [|x l Hl IH Hx]; constructor.
  - apply IH; intros y z Hy Hz; apply HR; by right.
  - rewrite Forall_forall in Hx; apply Forall_forall; intros y Hy.
    apply HR; [by left | by right | by apply Hx].
Qed.

Lemma StronglySorted_insert {A} (R : A -> A -> Prop) (l k : list A) (x : A) :
  StronglySorted R (l ++ k) -> (forall y, y ∈ l -> R y x) -> (forall y, y ∈ k -> R x y) ->
  StronglySorted R (l ++ x :: k).
Proof.
  induction l as [|z l IH]; cbn; intros Hs Hl Hk.
  - constructor; [done |]; by apply Forall_forall.
  - apply StronglySorted_inv in Hs as [Hs Hz]; constructor.
    + apply IH; [done | | done]; intros y Hy; apply Hl; by right.
    + rewrite Forall_app in Hz |- *; destruct Hz; split; [done |].
      constructor; [apply Hl; by left | done].
Qed.

Lemma StronglySorted_remove {A} (R : A -> A -> Prop) (l k : list A) (x : A) :
  StronglySorted R (l ++ x :: k) -> StronglySorted R (l ++ k).
Proof.
  induction l as [|z l IH]; cbn; intros Hs; apply StronglySorted_inv in Hs as [Hs Hz]; [done |].
  constructor; [by apply IH |]; rewrite Forall_app, Forall_cons in Hz; apply Forall_app; tauto.
Qed.

Lemma find_sorted {A} (R : A -> A -> Prop) (f : A -> bool) (l : list A) :
  StronglySorted R l ->
  match List.find f l with
  | Some x => x ∈ l /\ f x = true /\ forall y, y ∈ l -> f y = true -> y = x \/ R x y
  | None => forall y, y ∈ l -> f y = false
  end.
Proof.
  induction l as [|a l IH]; intros Hs; cbn; [set_solver |].
  apply StronglySorted_inv in Hs as [Hs Ha]; specialize (IH Hs).
  rewrite Forall_forall in Ha; destruct (f a) eqn:E.
  - split_and!; [set_solver | done |]. intros y [->|Hy]%elem_of_cons; auto.
  - destruct (List.find f l) as [x|].
    + destruct IH as (? & ? & IH); split_and!; [set_solver | done |].
      intros y [->|Hy]%elem_of_cons; [congruence | auto].
    + intros y [->|Hy]%elem_of_cons; auto.
Qed.
