(* ===== verification/Position.v ===== *)
(** * Positions of the managed ledger

    [storage/managed-ledger/src/position.rs]: the position inside the
    append-only log, the public message id, the stored message and the
    non-persistent entry with its release marker. *)

From S2P Require Import Prelude.

Record ManagedLedgerPosition := mkPos {
  ledger_id : Z;
  entry_id : Z;
  partition : Z;
}.

Record MessageId := mkMsgId {
  ledger : Z;
  entry : Z;
  msg_partition : Z;
}.

#[global] Instance position_eq_dec : EqDecision ManagedLedgerPosition.
Proof. solve_decision. Defined.

#[global] Instance message_id_eq_dec : EqDecision MessageId.
Proof. solve_decision. Defined.

#[global] Instance message_id_countable : Countable MessageId.
Proof.
  apply (inj_countable' (fun m => (ledger m, entry m, msg_partition m))
           (fun '(l, e, p) => mkMsgId l e p)).
  by intros [].
Defined.

Definition position_of_message_id (m : MessageId) : ManagedLedgerPosition :=
  mkPos (ledger m) (entry m) (msg_partition m).

Definition message_id_of_position (p : ManagedLedgerPosition) : MessageId :=
  mkMsgId (ledger_id p) (entry_id p) (partition p).

(** The derived [Ord]: lexicographic on the fields in declaration order. *)
Definition position_cmp (a b : ManagedLedgerPosition) : comparison :=
  match ledger_id a ?= ledger_id b with
  | Eq =>
      match entry_id a ?= entry_id b with
      | Eq => partition a ?= partition b
      | c => c
      end
  | c => c
  end.

(** The fields fit their Rust types. *)
Definition position_ok (p : ManagedLedgerPosition) : Prop :=
  u64_ok (ledger_id p) /\ u64_ok (entry_id p) /\ i32_ok (partition p).

Definition message_id_ok (m : MessageId) : Prop :=
  u64_ok (ledger m) /\ u64_ok (entry m) /\ i32_ok (msg_partition m).

Record StoredMessage := mkStored {
  message_id : MessageId;
  metadata : list Z;
  payload : list Z;
}.

Definition stored_from_payload (m : MessageId) (data : list Z) : StoredMessage :=
  mkStored m [] data.

(** The non-persistent entry.  [released] is the shared atomic marker of one
    instance; a retained duplicate gets a marker of its own. *)
Record NonPersistentEntry := mkNPEntry {
  np_position : ManagedLedgerPosition;
  np_metadata : list Z;
  np_payload : list Z;
  np_released : bool;
}.

Definition np_create (l e p : Z) (meta data : list Z) : NonPersistentEntry :=
  mkNPEntry (mkPos l e p) meta data false.

Definition retained_duplicate (n : NonPersistentEntry) : NonPersistentEntry :=
  np_create (ledger_id (np_position n)) (entry_id (np_position n))
    (partition (np_position n)) (np_metadata n) (np_payload n).

(** [release] returns whether this call is the one that released the entry. *)
Definition release (n : NonPersistentEntry) : bool * NonPersistentEntry :=
  (negb (np_released n),
   mkNPEntry (np_position n) (np_metadata n) (np_payload n) true).

Lemma position_message_id_roundtrip (p : ManagedLedgerPosition) :
  position_of_message_id (message_id_of_position p) = p.
Proof. by destruct p. Qed.

Lemma message_id_position_roundtrip (m : MessageId) :
  message_id_of_position (position_of_message_id m) = m.
Proof. by destruct m. Qed.

#[export] Hint Rewrite position_message_id_roundtrip message_id_position_roundtrip
  : pulsar_rw.

(** ** The order as an order of integers *)

Definition position_rank (p : ManagedLedgerPosition) : Z :=
  (ledger_id p * 18446744073709551616 + entry_id p) * 4294967296
    + (partition p + 2147483648).

Lemma position_cmp_rank (a b : ManagedLedgerPosition) :
  position_ok a -> position_ok b ->
  position_cmp a b = (position_rank a ?= position_rank b).
Proof.
  unfold position_ok, position_cmp, position_rank; intros Ha Hb.
  destruct (Z.compare_spec (ledger_id a) (ledger_id b)) as [Hl|Hl|Hl];
    [destruct (Z.compare_spec (entry_id a) (entry_id b)) as [He|He|He];
     [destruct (Z.compare_spec (partition a) (partition b)) as [Hp|Hp|Hp]| |]| |];
    symmetry; rewrite ?Z.compare_eq_iff, ?Z.compare_lt_iff, ?Z.compare_gt_iff; mlia.
Qed.

Lemma position_rank_inj (a b : ManagedLedgerPosition) :
  position_ok a -> position_ok b -> position_rank a = position_rank b -> a = b.
Proof.
  destruct a as [l e p], b as [l' e' p'].
  unfold position_ok, position_rank; cbn; intros Ha Hb H.
  assert (l = l' /\ e = e' /\ p = p') as (-> & -> & ->); [mlia | done].
Qed.
