(* ===== verification/BTree.v ===== *)
(** * Ordered sets and maps

    Rust's [BTreeSet] and [BTreeMap], as far as the broker uses them: strictly
    sorted lists.  A key type comes with its Rust comparison ([key_cmp]) and,
    for the proofs, with an order-preserving rank in [Z] on the values that fit
    their machine types, so that [lia] decides order goals. *)

From S2P Require Import Prelude.

Class Cmp (K : Type) := key_cmp : K -> K -> comparison.

Class Rank (K : Type) := {
  key_rank : K -> Z;
  key_ok : K -> Prop;
}.

Class OrdKeyLaws (K : Type) `{Cmp K, Rank K} : Prop := {
  key_cmp_rank (x y : K) :
    key_ok x -> key_ok y -> key_cmp x y = (key_rank x ?= key_rank y);
  key_rank_inj (x y : K) :
    key_ok x -> key_ok y -> key_rank x = key_rank y -> x = y;
}.

Definition key_ltb `{Cmp K} (x y : K) : bool :=
  match key_cmp x y with Lt => true | _ => false end.
Definition key_leb `{Cmp K} (x y : K) : bool :=
  match key_cmp x y with Gt => false | _ => true end.
Definition key_eqb `{Cmp K} (x y : K) : bool :=
  match key_cmp x y with Eq => true | _ => false end.

Section comparisons.
Context `{OrdKeyLaws K}.

Lemma key_ltb_rank (x y : K) :
  key_ok x -> key_ok y -> key_ltb x y = (key_rank x <? key_rank y).
Proof. intros; unfold key_ltb, Z.ltb; by rewrite key_cmp_rank. Qed.

Lemma key_leb_rank (x y : K) :
  key_ok x -> key_ok y -> key_leb x y = (key_rank x <=? key_rank y).
Proof. intros; unfold key_leb, Z.leb; by rewrite key_cmp_rank. Qed.

Lemma key_eqb_rank (x y : K) :
  key_ok x -> key_ok y -> key_eqb x y = (key_rank x =? key_rank y).
Proof.
  intros; unfold key_eqb; rewrite key_cmp_rank by done.
  by rewrite Z.eqb_compare.
Qed.

Lemma key_eqb_eq (x y : K) : key_ok x -> key_ok y -> key_eqb x y = true <-> x = y.
Proof.
  intros; rewrite key_eqb_rank by done; rewrite Z.eqb_eq; split.
  - by apply key_rank_inj.
  - by intros ->.
Qed.
End comparisons.

(** Tuples compare lexicographically. *)
#[global] Instance pair_cmp `{Cmp A, Cmp B} : Cmp (A * B) :=
  fun x y =>
    match key_cmp x.1 y.1 with
    | Eq => key_cmp x.2 y.2
    | c => c
    end.

(** [u64] keys. *)
#[global] Instance u64_cmp : Cmp Z := Z.compare.
#[global] Instance u64_rank : Rank Z := {| key_rank := fun n => n; key_ok := u64_ok |}.
#[global] Instance u64_key_laws : OrdKeyLaws Z.
Proof. by split. Qed.

(** ** [BTreeSet] *)

Section btree_set.
Context `{Cmp K}.

(** [set.range(..=k).next_back()] *)
Fixpoint last_le (k : K) (l : list K) : option K :=
  match l with
  | [] => None
  | x :: l' =>
      if key_leb x k
      then match last_le k l' with Some y => Some y | None => Some x end
      else None
  end.

(** [set.range(k..).next()] *)
Fixpoint first_ge (k : K) (l : list K) : option K :=
  match l with
  | [] => None
  | x :: l' => if key_ltb x k then first_ge k l' else Some x
  end.

(** [set.insert(k)] *)
Fixpoint set_insert (k : K) (l : list K) : list K :=
  match l with
  | [] => [k]
  | x :: l' =>
      match key_cmp k x with
      | Lt => k :: l
      | Eq => l
      | Gt => x :: set_insert k l'
      end
  end.

(** [set.remove(&k)] *)
Fixpoint set_remove (k : K) (l : list K) : list K :=
  match l with
  | [] => []
  | x :: l' => if key_eqb k x then l' else x :: set_remove k l'
  end.
End btree_set.

(** ** [BTreeMap] *)

Section btree_map.
Context `{Cmp K} {V : Type}.

Fixpoint map_get (k : K) (m : list (K * V)) : option V :=
  match m with
  | [] => None
  | (x, v) :: m' => if key_eqb k x then Some v else map_get k m'
  end.

Fixpoint map_put (k : K) (v : V) (m : list (K * V)) : list (K * V) :=
  match m with
  | [] => [(k, v)]
  | (x, w) :: m' =>
      match key_cmp k x with
      | Lt => (k, v) :: m
      | Eq => (x, v) :: m'
      | Gt => (x, w) :: map_put k v m'
      end
  end.

Fixpoint map_del (k : K) (m : list (K * V)) : list (K * V) :=
  match m with
  | [] => []
  | (x, w) :: m' => if key_eqb k x then m' else (x, w) :: map_del k m'
  end.
End btree_map.

Section btree_map_laws.
Context `{OrdKeyLaws K} {V : Type}.
Implicit Types (k j : K) (m : list (K * V)).

Definition map_wf m : Prop :=
  Forall key_ok (m.*1) /\ StronglySorted (fun x y => key_rank x < key_rank y) (m.*1).

Lemma map_wf_nil : map_wf [].
Proof. split; constructor. Qed.

Lemma map_wf_cons k v m :
  map_wf ((k, v) :: m) <->
  key_ok k /\ Forall (fun x => key_rank k < key_rank x) (m.*1) /\ map_wf m.
Proof.
  unfold map_wf; cbn; rewrite Forall_cons; split.
  - intros [[? ?] Hs]; apply StronglySorted_inv in Hs as [? ?]; tauto.
  - intros (? & ? & ? & ?); repeat split; auto; by constructor.
Qed.

Lemma map_wf_cons_notin k v m w : map_wf ((k, v) :: m) -> (k, w) ∉ m.
Proof.
  intros (_ & Hlt & _)%map_wf_cons Hin; rewrite Forall_forall in Hlt.
  specialize (Hlt k (list_elem_of_fmap_2 fst _ _ Hin)); cbn in Hlt; lia.
Qed.

Lemma map_get_Some_elem k v m :
  map_wf m -> key_ok k -> map_get k m = Some v <-> (k, v) ∈ m.
Proof.
  induction m as [|[x w] m IH]; intros Hwf Hk; cbn.
  - rewrite elem_of_nil; done.
  - pose proof (map_wf_cons_notin x w m v Hwf) as Hnin.
    apply map_wf_cons in Hwf as (Hx & Hlt & Hwf).
    rewrite elem_of_cons; destruct (key_eqb k x) eqn:E.
    + apply key_eqb_eq in E as ->; naive_solver.
    + assert (k <> x) by (intros ->; rewrite (proj2 (key_eqb_eq x x Hx Hx)) in E; done).
      rewrite IH by done; naive_solver.
Qed.

Lemma map_get_None_elem k m :
  map_wf m -> key_ok k -> map_get k m = None <-> k ∉ m.*1.
Proof.
  intros Hwf Hk; rewrite list_elem_of_fmap; split.
  - intros Hn ([x v] & -> & Hin); cbn in *.
    apply map_get_Some_elem in Hin; auto; congruence.
  - intros Hn; destruct (map_get k m) as [v|] eqn:E; auto.
    apply map_get_Some_elem in E; auto; contradict Hn; by exists (k, v).
Qed.

Lemma map_put_elem_fst k v m x : x ∈ (map_put k v m).*1 -> x = k \/ x ∈ m.*1.
Proof.
  induction m as [|[y w] m IH]; cbn; [set_solver |].
  destruct (key_cmp k y); cbn; set_solver.
Qed.

Lemma map_del_elem_fst k m x : x ∈ (map_del k m).*1 -> x ∈ m.*1.
Proof.
  induction m as [|[y w] m IH]; cbn; [done |].
  destruct (key_eqb k y); cbn; set_solver.
Qed.

Lemma map_put_wf k v m : map_wf m -> key_ok k -> map_wf (map_put k v m).
Proof.
  induction m as [|[x w] m IH]; intros Hwf Hk; cbn.
  - apply map_wf_cons; split_and!; [done | constructor | done].
  - pose proof Hwf as (Hx & Hlt & Hm)%map_wf_cons.
    rewrite key_cmp_rank by done.
    destruct (Z.compare_spec (key_rank k) (key_rank x)) as [E|E|E];
      apply map_wf_cons; split_and!; auto.
    + cbn; constructor; [done |]. eapply Forall_impl; [exact Hlt |]; cbn; lia.
    + apply Forall_forall; intros y [->|Hy]%map_put_elem_fst; [lia |].
      by eapply Forall_forall in Hlt.
Qed.

Lemma map_del_wf k m : map_wf m -> map_wf (map_del k m).
Proof.
  induction m as [|[x w] m IH]; intros Hwf; cbn; [done |].
  pose proof Hwf as (Hx & Hlt & Hm)%map_wf_cons.
  destruct (key_eqb k x); [done |].
  apply map_wf_cons; split_and!; auto.
  apply Forall_forall; intros y Hy%map_del_elem_fst.
  by eapply Forall_forall in Hlt.
Qed.

Lemma map_put_fresh k v m :
  map_wf m -> key_ok k -> map_get k m = None -> map_put k v m ≡ₚ (k, v) :: m.
Proof.
  induction m as [|[x w] m IH]; intros Hwf Hk; cbn; [done |].
  pose proof Hwf as (Hx & Hlt & Hm)%map_wf_cons; unfold key_eqb.
  destruct (key_cmp k x); intros Hg; [done | done |].
  rewrite IH by done; constructor.
Qed.

Lemma map_del_present k v m :
  map_wf m -> key_ok k -> map_get k m = Some v -> m ≡ₚ (k, v) :: map_del k m.
Proof.
  induction m as [|[x w] m IH]; intros Hwf Hk; cbn; [done |].
  pose proof Hwf as (Hx & Hlt & Hm)%map_wf_cons.
  destruct (key_eqb k x) eqn:E; intros Hg.
  - apply key_eqb_eq in E as ->; auto; by simplify_eq.
  - rewrite (IH Hm Hk Hg) at 1; constructor.
Qed.

Lemma map_put_present k v m w :
  map_wf m -> key_ok k -> map_get k m = Some w ->
  map_put k v m ≡ₚ (k, v) :: map_del k m.
Proof.
  induction m as [|[x u] m IH]; intros Hwf Hk; cbn; [done |].
  pose proof Hwf as (Hx & Hlt & Hm)%map_wf_cons.
  destruct (key_eqb k x) eqn:E; unfold key_eqb in E;
    destruct (key_cmp k x) eqn:C; try done; intros Hg.
  - assert (k = x) as ->; [|done].
    apply key_eqb_eq; auto; unfold key_eqb; by rewrite C.
  - apply map_get_Some_elem in Hg; auto.
    eapply Forall_forall in Hlt; [|apply (list_elem_of_fmap_2 fst _ _ Hg)].
    rewrite key_cmp_rank, Z.compare_lt_iff in C by done; cbn in *; lia.
  - rewrite IH by done; constructor.
Qed.

Lemma map_get_perm k m m' :
  map_wf m -> map_wf m' -> key_ok k -> m ≡ₚ m' -> map_get k m = map_get k m'.
Proof.
  intros Hm Hm' Hk Hp; apply option_eq; intros v.
  rewrite !map_get_Some_elem by done; by rewrite Hp.
Qed.

Lemma map_get_put_eq k v m : map_wf m -> key_ok k -> map_get k (map_put k v m) = Some v.
Proof.
  intros Hm Hk; apply map_get_Some_elem; auto using map_put_wf.
  destruct (map_get k m) eqn:E.
  - rewrite (map_put_present _ _ _ _ Hm Hk E); set_solver.
  - rewrite (map_put_fresh _ _ _ Hm Hk E); set_solver.
Qed.

Lemma map_get_del_eq k m : map_wf m -> key_ok k -> map_get k (map_del k m) = None.
Proof.
  induction m as [|[x w] m IH]; intros Hwf Hk; cbn; [done |].
  pose proof Hwf as (Hx & Hlt & Hm)%map_wf_cons.
  destruct (key_eqb k x) eqn:E; cbn; rewrite ?E; [|by apply IH].
  apply key_eqb_eq in E as ->; auto.
  apply map_get_None_elem; auto; intros Hin.
  eapply Forall_forall in Hlt; [|done]; cbn in Hlt; lia.
Qed.

Lemma map_get_del_ne k j m :
  map_wf m -> key_ok k -> key_ok j -> k <> j -> map_get j (map_del k m) = map_get j m.
Proof.
  intros Hm Hk Hj Hne; destruct (map_get k m) as [w|] eqn:E.
  - apply option_eq; intros v; rewrite !map_get_Some_elem by auto using map_del_wf.
    rewrite (map_del_present _ _ _ Hm Hk E) at 2; set_solver.
  - f_equal; clear Hm; induction m as [|[x u] m IH]; cbn in *; [done |].
    destruct (key_eqb k x); [done |]; by rewrite IH.
Qed.

Lemma map_get_put_ne k j v m :
  map_wf m -> key_ok k -> key_ok j -> k <> j -> map_get j (map_put k v m) = map_get j m.
Proof.
  intros Hm Hk Hj Hne; apply option_eq; intros u.
  rewrite !map_get_Some_elem by auto using map_put_wf.
  destruct (map_get k m) as [w|] eqn:E.
  - rewrite (map_put_present _ _ _ _ Hm Hk E), elem_of_cons.
    rewrite <- !map_get_Some_elem by auto using map_del_wf.
    rewrite map_get_del_ne by done; naive_solver.
  - rewrite (map_put_fresh _ _ _ Hm Hk E); set_solver.
Qed.
End btree_map_laws.

#[export] Hint Resolve map_wf_nil map_put_wf map_del_wf : pulsar.
