(* ===== verification/RangeSet.v ===== *)
(** * Sets of positions as coalesced ranges

    [storage/managed-ledger/src/range_set.rs].  A range set is the sorted list
    of the inclusive ranges the Rust [BTreeSet<(K, K)>] holds.  The theorems
    relate it to the set of positions it denotes. *)

From S2P Require Import Prelude Position BTree.

(** The [Succ] trait. *)
Class Succ (K : Type) := succ : K -> option K.

#[global] Instance succ_u64 : Succ Z := fun n => u64_checked_add n 1.

#[global] Instance succ_position : Succ ManagedLedgerPosition :=
  fun p =>
    match u64_checked_add (entry_id p) 1 with
    | Some e => Some (mkPos (ledger_id p) e (partition p))
    | None => None
    end.

Section range_set.
Context `{Cmp K, Succ K, EqDecision K}.
Implicit Types (rs : list (K * K)) (pos start stop : K).

Definition contains rs pos : bool :=
  match last_le (pos, pos) rs with
  | Some (s, e) =>
      if key_leb s pos && key_leb pos e then true
      else match first_ge (pos, pos) rs with
           | Some (s, _) => key_eqb s pos
           | None => false
           end
  | None =>
      match first_ge (pos, pos) rs with
      | Some (s, _) => key_eqb s pos
      | None => false
      end
  end.

(** The range the merge loop of [insert_range] absorbs next, if any. *)
Definition merge_candidate rs start stop : option (K * K) :=
  let limit := match succ stop with Some l => l | None => stop end in
  match first_ge (start, start) rs with
  | Some (s, e) => if key_leb s limit then Some (s, e) else None
  | None => None
  end.

(** The merge loop; every iteration removes one stored range, so the number of
    stored ranges is enough fuel (see [merge_loop_spec]). *)
Fixpoint merge_loop (fuel : nat) rs start stop : list (K * K) * K * K :=
  match fuel with
  | O => (rs, start, stop)
  | S fuel =>
      match merge_candidate rs start stop with
      | None => (rs, start, stop)
      | Some (s, e) =>
          merge_loop fuel (set_remove (s, e) rs)
            (if key_ltb s start then s else start)
            (if key_ltb stop e then e else stop)
      end
  end.

Definition insert_range rs start stop : list (K * K) :=
  if key_ltb stop start then rs
  else
    let '(rs, start, stop) := merge_loop (length rs) rs start stop in
    match last_le (start, start) rs with
    | Some (s, e) =>
        if decide (succ e = Some start)
        then set_insert (s, stop) (set_remove (s, e) rs)
        else set_insert (start, stop) rs
    | None => set_insert (start, stop) rs
    end.

Definition insert_pos rs pos : list (K * K) :=
  if contains rs pos then rs else insert_range rs pos pos.

Definition take_covering rs pos : option K * list (K * K) :=
  let exactly_at :=
    match first_ge (pos, pos) rs with
    | Some (s, e) =>
        if key_eqb s pos then (Some e, set_remove (s, e) rs) else (None, rs)
    | None => (None, rs)
    end in
  match last_le (pos, pos) rs with
  | Some (s, e) =>
      if key_leb s pos then (Some e, set_remove (s, e) rs) else exactly_at
  | None => exactly_at
  end.
End range_set.

(** ** Meaning and well-formedness *)

Class SuccLaws (K : Type) `{OrdKeyLaws K, Succ K} : Prop :=
  succ_rank (x y : K) :
    key_ok x -> succ x = Some y -> key_ok y /\ key_rank y = key_rank x + 1.

#[global] Instance succ_u64_laws : SuccLaws Z.
Proof.
  intros x y Hx; unfold succ, succ_u64, u64_checked_add; cbn in *.
  case_bool; intros; simplify_eq; mlia.
Qed.

Section range_set_laws.
Context `{SuccLaws K, EqDecision K}.
Implicit Types (rs : list (K * K)) (p q s e : K).

(** [p] is one of the positions the ranges cover. *)
Definition covered rs p : Prop :=
  exists s e, (s, e) ∈ rs /\ key_rank s <= key_rank p <= key_rank e.

(** [x] lies before [y] and is not adjacent to it. *)
Definition range_before (x y : K * K) : Prop :=
  key_rank x.2 < key_rank y.1 /\ succ x.2 <> Some y.1.

Definition range_ok (x : K * K) : Prop :=
  key_ok x.1 /\ key_ok x.2 /\ key_rank x.1 <= key_rank x.2.

(** Sorted, disjoint, non-adjacent ranges. *)
Definition rs_wf rs : Prop := Forall range_ok rs /\ StronglySorted range_before rs.

Lemma pair_cmp_rank (x y : K * K) :
  range_ok x -> range_ok y ->
  key_cmp x y =
    match key_rank x.1 ?= key_rank y.1 with
    | Eq => key_rank x.2 ?= key_rank y.2
    | c => c
    end.
Proof.
  intros (? & ? & _) (? & ? & _); unfold key_cmp, pair_cmp.
  by rewrite !key_cmp_rank.
Qed.

Lemma pair_leb_iff (x y : K * K) :
  range_ok x -> range_ok y ->
  key_leb x y = true <->
  key_rank x.1 < key_rank y.1 \/
  (key_rank x.1 = key_rank y.1 /\ key_rank x.2 <= key_rank y.2).
Proof.
  intros Hx Hy; unfold key_leb; rewrite pair_cmp_rank by done.
  destruct (Z.compare_spec (key_rank x.1) (key_rank y.1));
    [destruct (Z.compare_spec (key_rank x.2) (key_rank y.2))| |]; split; (done || lia).
Qed.

Lemma pair_ltb_iff (x y : K * K) :
  range_ok x -> range_ok y ->
  key_ltb x y = true <->
  key_rank x.1 < key_rank y.1 \/
  (key_rank x.1 = key_rank y.1 /\ key_rank x.2 < key_rank y.2).
Proof.
  intros Hx Hy; unfold key_ltb; rewrite pair_cmp_rank by done.
  destruct (Z.compare_spec (key_rank x.1) (key_rank y.1));
    [destruct (Z.compare_spec (key_rank x.2) (key_rank y.2))| |]; split; (done || lia).
Qed.

Lemma pair_eqb_iff (x y : K * K) :
  range_ok x -> range_ok y -> key_eqb x y = true <-> x = y.
Proof.
  intros Hx Hy; unfold key_eqb; rewrite pair_cmp_rank by done.
  destruct x as [a b], y as [c d]; destruct Hx as (? & ? & ?), Hy as (? & ? & ?); cbn in *.
  destruct (Z.compare_spec (key_rank a) (key_rank c));
    [destruct (Z.compare_spec (key_rank b) (key_rank d))| |]; split; try done;
    try (intros; simplify_eq; lia).
  intros _; f_equal; by apply key_rank_inj.
Qed.

(** *** Consequences of well-formedness *)

Lemma rs_wf_nil : rs_wf [].
Proof. split; constructor. Qed.

Lemma rs_wf_cons x rs :
  rs_wf (x :: rs) <-> range_ok x /\ Forall (range_before x) rs /\ rs_wf rs.
Proof.
  unfold rs_wf; rewrite Forall_cons; split.
  - intros [[? ?] [? ?]%StronglySorted_inv]; tauto.
  - intros (? & ? & ? & ?); split; [by split | by constructor].
Qed.

Lemma rs_wf_ok rs x : rs_wf rs -> x ∈ rs -> range_ok x.
Proof. intros [Hok _]; by apply Forall_forall. Qed.

Lemma rs_wf_ordered rs x y :
  rs_wf rs -> x ∈ rs -> y ∈ rs -> x = y \/ range_before x y \/ range_before y x.
Proof.
  induction rs as [|z rs IH]; [set_solver |].
  intros (Hz & Hlt & Hwf)%rs_wf_cons; rewrite Forall_forall in Hlt.
  rewrite !elem_of_cons; intros [->|Hx] [->|Hy]; auto.
Qed.

Lemma range_before_trans x y z :
  range_ok x -> range_ok y -> range_ok z ->
  range_before x y -> range_before y z -> range_before x z.
Proof.
  intros (_ & Hx & _) (_ & _ & Hy) _ [Hxy _] [Hyz _]; split; [lia |].
  intros Hs; apply succ_rank in Hs as [_ Hs]; [lia | done].
Qed.

Lemma last_le_wf rs p :
  rs_wf rs -> key_ok p ->
  match last_le (p, p) rs with
  | Some (s, e) =>
      (s, e) ∈ rs /\ key_rank s <= key_rank p /\
      (key_rank s = key_rank p -> key_rank e = key_rank p) /\
      forall x, x ∈ rs ->
        x = (s, e) \/ range_before x (s, e) \/ key_rank p < key_rank x.1 \/
        (key_rank x.1 = key_rank p /\ key_rank p < key_rank x.2)
  | None =>
      forall x, x ∈ rs ->
        key_rank p < key_rank x.1 \/
        (key_rank x.1 = key_rank p /\ key_rank p < key_rank x.2)
  end.
Proof.
  intros Hwf Hp; assert (range_ok (p, p)) as Hpp by (split_and!; cbn; auto; lia).
  induction rs as [|y rs IH]; [set_solver |].
  apply rs_wf_cons in Hwf as (Hy & Hlt & Hwf); specialize (IH Hwf).
  rewrite Forall_forall in Hlt.
  cbn [last_le]; pose proof (pair_leb_iff y (p, p) Hy Hpp) as Hb; cbn in Hb.
  destruct Hy as (? & ? & ?); destruct (key_leb y (p, p)).
  - destruct Hb as [Hb _]; specialize (Hb eq_refl).
    destruct (last_le (p, p) rs) as [[s e]|].
    + destruct IH as (Hin & ? & ? & Hall); split_and!; [set_solver | done | done |].
      intros x [->|Hx]%elem_of_cons; [|by auto]. right; left; by apply Hlt.
    + destruct y as [s e]; cbn in *; split_and!; [set_solver | lia | lia |].
      intros x [->|Hx]%elem_of_cons; [by left |]. right; right; by auto.
  - assert (~ (key_rank y.1 < key_rank p \/
              (key_rank y.1 = key_rank p /\ key_rank y.2 <= key_rank p))) as Hn
      by (intros Hc; by apply Hb in Hc).
    intros x [->|Hx]%elem_of_cons; [lia |].
    destruct (Hlt x Hx) as [? _]; pose proof (rs_wf_ok rs x Hwf Hx) as (? & ? & ?); lia.
Qed.

Lemma first_ge_wf rs p :
  rs_wf rs -> key_ok p ->
  match first_ge (p, p) rs with
  | Some (s, e) =>
      (s, e) ∈ rs /\ key_rank p <= key_rank s /\
      forall x, x ∈ rs ->
        x = (s, e) \/ range_before (s, e) x \/ key_rank x.1 < key_rank p
  | None => forall x, x ∈ rs -> key_rank x.1 < key_rank p
  end.
Proof.
  intros Hwf Hp; assert (range_ok (p, p)) as Hpp by (split_and!; cbn; auto; lia).
  induction rs as [|y rs IH]; [set_solver |].
  apply rs_wf_cons in Hwf as (Hy & Hlt & Hwf); specialize (IH Hwf).
  rewrite Forall_forall in Hlt.
  cbn [first_ge]; pose proof (pair_ltb_iff y (p, p) Hy Hpp) as Hb; cbn in Hb.
  destruct Hy as (? & ? & ?); destruct (key_ltb y (p, p)).
  - destruct Hb as [Hb _]; specialize (Hb eq_refl).
    destruct (first_ge (p, p) rs) as [[s e]|].
    + destruct IH as (Hin & ? & Hall); split_and!; [set_solver | done |].
      intros x [->|Hx]%elem_of_cons; [lia | by auto].
    + intros x [->|Hx]%elem_of_cons; [lia | by auto].
  - assert (~ (key_rank y.1 < key_rank p \/
              (key_rank y.1 = key_rank p /\ key_rank y.2 < key_rank p))) as Hn
      by (intros Hc; by apply Hb in Hc).
    destruct y as [s e]; cbn in *; split_and!; [set_solver | lia |].
    intros x [->|Hx]%elem_of_cons; [by left |]. right; left; by apply Hlt.
Qed.

Lemma set_remove_wf rs x : rs_wf rs -> rs_wf (set_remove x rs).
Proof.
  assert (forall l y, y ∈ set_remove x l -> y ∈ l) as Hsub.
  { induction l as [|z l IH]; cbn; intros y; [done |].
    destruct (key_eqb x z); set_solver. }
  induction rs as [|y rs IH]; intros Hwf; cbn; [done |].
  pose proof Hwf as (Hy & Hlt & Hrs)%rs_wf_cons.
  destruct (key_eqb x y); [done |]. apply rs_wf_cons; split_and!; auto.
  apply Forall_forall; intros z Hz%Hsub; by eapply Forall_forall in Hlt.
Qed.

Lemma elem_of_set_remove rs x y :
  rs_wf rs -> range_ok x -> y ∈ set_remove x rs <-> y ∈ rs /\ y <> x.
Proof.
  intros Hwf Hx; induction rs as [|z rs IH]; cbn; [set_solver |].
  apply rs_wf_cons in Hwf as (Hz & Hlt & Hwf); specialize (IH Hwf).
  pose proof (pair_eqb_iff x z Hx Hz) as Hb; rewrite Forall_forall in Hlt.
  assert (z ∉ rs) by (intros [? _]%Hlt; destruct Hz as (_ & _ & ?); lia).
  destruct (key_eqb x z).
  - destruct Hb as [Hb _]; rewrite (Hb eq_refl) in *; set_solver.
  - assert (x <> z) by (by intros Hc%Hb).
    rewrite !elem_of_cons, IH; naive_solver.
Qed.

Lemma covered_remove rs s e p :
  rs_wf rs -> (s, e) ∈ rs ->
  covered rs p <->
  covered (set_remove (s, e) rs) p \/ key_rank s <= key_rank p <= key_rank e.
Proof.
  intros Hwf Hin; pose proof (rs_wf_ok _ _ Hwf Hin) as Hok; unfold covered.
  setoid_rewrite elem_of_set_remove; [|done..].
  split; [|naive_solver]. intros (s' & e' & ? & ?).
  destruct (decide ((s', e') = (s, e))); simplify_eq; eauto 10.
Qed.

Lemma length_set_remove rs x :
  rs_wf rs -> x ∈ rs -> length rs = S (length (set_remove x rs)).
Proof.
  intros Hwf Hx; pose proof (rs_wf_ok _ _ Hwf Hx) as Hok.
  induction rs as [|z rs IH]; cbn; [set_solver |].
  apply rs_wf_cons in Hwf as (Hz & Hlt & Hwf).
  pose proof (pair_eqb_iff x z Hok Hz) as Hb.
  destruct (key_eqb x z); [done |]; cbn; f_equal.
  apply IH; auto; apply elem_of_cons in Hx as [Hc|?]; [|done].
  by apply Hb in Hc.
Qed.

(** A range separated from all stored ones is inserted in its place. *)
Lemma set_insert_wf rs x :
  rs_wf rs -> range_ok x ->
  (forall y, y ∈ rs -> range_before y x \/ range_before x y) ->
  rs_wf (set_insert x rs) /\ (forall y, y ∈ set_insert x rs <-> y = x \/ y ∈ rs).
Proof.
  intros Hwf Hx Hsep; induction rs as [|z rs IH]; cbn.
  - split; [|set_solver]. apply rs_wf_cons; split_and!; [done | constructor | apply rs_wf_nil].
  - pose proof Hwf as (Hz & Hlt & Hrs)%rs_wf_cons.
    destruct IH as [IHwf IHin]; [done | set_solver |].
    rewrite pair_cmp_rank by done; pose proof Hx as (? & ? & ?); pose proof Hz as (? & ? & ?).
    assert (range_before z x \/ range_before x z) as [Hb|Hb] by (apply Hsep; set_solver).
    + destruct Hb as [? ?]; replace (_ ?= _) with Gt by (symmetry; apply Z.compare_gt_iff; lia).
      split; [|intros y; rewrite !elem_of_cons, IHin; naive_solver].
      apply rs_wf_cons; split_and!; auto. apply Forall_forall.
      intros y [->|Hy]%IHin; [by split | by eapply Forall_forall in Hlt].
    + pose proof Hb as [? ?]; replace (_ ?= _) with Lt by (symmetry; apply Z.compare_lt_iff; lia).
      split; [|set_solver]. apply rs_wf_cons; split_and!; auto.
      constructor; [done |]. apply Forall_forall; intros y Hy.
      pose proof (rs_wf_ok _ _ Hrs Hy) as Hyok.
      eapply Forall_forall in Hlt; [|done].
      by apply (range_before_trans x z y).
Qed.

(** *** Lookup *)

Lemma contains_covered rs p :
  rs_wf rs -> key_ok p -> contains rs p = true <-> covered rs p.
Proof.
  intros Hwf Hp; unfold contains, covered.
  pose proof (last_le_wf rs p Hwf Hp) as HL.
  pose proof (first_ge_wf rs p Hwf Hp) as HF.
  assert (match first_ge (p, p) rs with
          | Some (s, _) => key_eqb s p | None => false end = true <->
          exists e, (p, e) ∈ rs) as HF'.
  { destruct (first_ge (p, p) rs) as [[s e]|].
    - destruct HF as (Hin & ? & Hall); pose proof (rs_wf_ok _ _ Hwf Hin) as (? & ? & ?).
      cbn in *; rewrite key_eqb_eq by done; split; [intros ->; eauto |].
      intros [e' He']; destruct (Hall _ He') as [?|[[? ?]|?]]; cbn in *; [congruence | lia | lia].
    - split; [done |]. intros [e He]; specialize (HF _ He); cbn in HF; lia. }
  assert (covered_at : forall e, (p, e) ∈ rs -> covered rs p).
  { intros e He; exists p, e; split; [done |].
    pose proof (rs_wf_ok _ _ Hwf He) as (? & ? & ?); cbn in *; lia. }
  destruct (last_le (p, p) rs) as [[s e]|].
  - destruct HL as (Hin & ? & ? & Hall); pose proof (rs_wf_ok _ _ Hwf Hin) as (? & ? & ?).
    cbn in *; rewrite !key_leb_rank by done.
    destruct ((key_rank s <=? key_rank p) && (key_rank p <=? key_rank e)) eqn:E.
    + split; [|done]. intros _; exists s, e; split; [done | lia].
    + rewrite HF'; split; [intros [? ?]; by eapply covered_at |].
      intros (s' & e' & Hin' & ?); pose proof (rs_wf_ok _ _ Hwf Hin') as (? & ? & ?).
      destruct (Hall _ Hin') as [?|[[? ?]|[?|?]]]; cbn in *; simplify_eq; try lia.
      exists e'; replace p with s'; [done |]. apply key_rank_inj; auto; lia.
  - rewrite HF'; split; [intros [? ?]; by eapply covered_at |].
    intros (s' & e' & Hin' & ?); pose proof (rs_wf_ok _ _ Hwf Hin') as (? & ? & ?).
    specialize (HL _ Hin'); cbn in *.
    exists e'; replace p with s'; [done |]. apply key_rank_inj; auto; lia.
Qed.

(** *** Insertion *)

(** No stored range that starts before [p] reaches [p]. *)
Definition clear_before rs p : Prop :=
  forall x, x ∈ rs -> key_rank x.1 < key_rank p -> key_rank x.2 < key_rank p.

Definition merge_limit (stop : K) : K :=
  match succ stop with Some l => l | None => stop end.

Lemma merge_limit_rank stop :
  key_ok stop ->
  key_ok (merge_limit stop) /\
  key_rank stop <= key_rank (merge_limit stop) <= key_rank stop + 1.
Proof.
  intros Hs; unfold merge_limit; destruct (succ stop) as [l|] eqn:E.
  - apply succ_rank in E as [? ?]; auto; split; [done | lia].
  - split; [done | lia].
Qed.

Lemma merge_candidate_spec rs start stop :
  rs_wf rs -> key_ok start -> key_ok stop ->
  match merge_candidate rs start stop with
  | Some (s, e) =>
      (s, e) ∈ rs /\ key_rank start <= key_rank s <= key_rank (merge_limit stop)
  | None =>
      forall x, x ∈ rs ->
        key_rank x.1 < key_rank start \/ key_rank (merge_limit stop) < key_rank x.1
  end.
Proof.
  intros Hwf Hs He; unfold merge_candidate; fold (merge_limit stop).
  pose proof (first_ge_wf rs start Hwf Hs) as HF.
  destruct (merge_limit_rank stop He) as [Hl ?].
  destruct (first_ge (start, start) rs) as [[s e]|]; [|auto].
  destruct HF as (Hin & ? & Hall); pose proof (rs_wf_ok _ _ Hwf Hin) as (? & ? & ?); cbn in *.
  rewrite key_leb_rank by done; destruct (Z.leb_spec (key_rank s) (key_rank (merge_limit stop)));
    [by auto |].
  intros x Hx; destruct (Hall x Hx) as [->|[[? _]|?]]; cbn in *; lia.
Qed.

(** The merge loop absorbs exactly the ranges that touch the growing one, and
    [length rs] iterations suffice. *)
Lemma merge_loop_spec fuel rs start stop rs' start' stop' :
  (length rs <= fuel)%nat -> rs_wf rs -> key_ok start -> key_ok stop ->
  key_rank start <= key_rank stop ->
  merge_loop fuel rs start stop = (rs', start', stop') ->
  rs_wf rs' /\ (forall x, x ∈ rs' -> x ∈ rs) /\ start' = start /\ key_ok stop' /\
  key_rank stop <= key_rank stop' /\
  (forall x, x ∈ rs' ->
     key_rank x.1 < key_rank start \/ key_rank (merge_limit stop') < key_rank x.1) /\
  (forall p, covered rs' p \/ key_rank start <= key_rank p <= key_rank stop' <->
             covered rs p \/ key_rank start <= key_rank p <= key_rank stop).
Proof.
  revert rs start stop; induction fuel as [|fuel IH]; intros rs start stop Hf Hwf Hs He Hle.
  - destruct rs; [|cbn in Hf; lia]. intros; simplify_eq/=.
    split_and!; try done; set_solver.
  - cbn [merge_loop]; pose proof (merge_candidate_spec rs start stop Hwf Hs He) as HC.
    destruct (merge_candidate rs start stop) as [[s e]|].
    + destruct HC as [Hin HC]; pose proof (rs_wf_ok _ _ Hwf Hin) as Hok.
      pose proof Hok as (Hks & Hke & Hse); cbn in *.
      pose proof (length_set_remove _ _ Hwf Hin) as Hlen.
      destruct (merge_limit_rank stop He) as [_ Hlim].
      rewrite !key_ltb_rank by done.
      replace (key_rank s <? key_rank start) with false by lia.
      intros Hrun; apply IH in Hrun; auto using set_remove_wf; [|lia | by case_bool | case_bool; lia].
      destruct Hrun as (? & Hsub & ? & ? & Hge & ? & Hcov); split_and!; auto.
      * intros x [? _]%Hsub%elem_of_set_remove; auto.
      * destruct (key_rank stop <? key_rank e) eqn:E; lia.
      * intros p; rewrite Hcov, (covered_remove rs s e p) by done; case_bool; intuition lia.
    + intros; simplify_eq; split_and!; auto; try done; lia.
Qed.

Lemma insert_separated rs s e :
  rs_wf rs -> range_ok (s, e) ->
  (forall y, y ∈ rs -> range_before y (s, e) \/ range_before (s, e) y) ->
  rs_wf (set_insert (s, e) rs) /\
  (forall p, covered (set_insert (s, e) rs) p <->
             covered rs p \/ key_rank s <= key_rank p <= key_rank e).
Proof.
  intros Hwf Hok Hsep; destruct (set_insert_wf rs (s, e)) as [? Hin]; auto.
  split; [done |]. unfold covered; setoid_rewrite Hin; naive_solver.
Qed.

(** A range that starts past the merge limit of [stop] is separated from any
    range that ends at [stop]. *)
Lemma range_before_limit start stop x :
  key_ok stop -> key_rank (merge_limit stop) < key_rank x.1 -> range_before (start, stop) x.
Proof.
  intros Hs Hl; destruct (merge_limit_rank stop Hs) as [_ ?]; split; cbn; [lia |].
  unfold merge_limit in Hl; intros E; rewrite E in Hl; lia.
Qed.

(** [insert_range] adds exactly the positions of the new range and keeps the
    representation canonical, provided no stored range that starts before the
    new one reaches into it. *)
Lemma insert_range_correct rs start stop :
  rs_wf rs -> key_ok start -> key_ok stop -> key_rank start <= key_rank stop ->
  clear_before rs start ->
  rs_wf (insert_range rs start stop) /\
  (forall p, covered (insert_range rs start stop) p <->
             covered rs p \/ key_rank start <= key_rank p <= key_rank stop).
Proof.
  intros Hwf Hs He Hle Hclear; unfold insert_range.
  rewrite key_ltb_rank by done; replace (_ <? _) with false by lia.
  destruct (merge_loop (length rs) rs start stop) as [[rs' start'] stop'] eqn:Hloop.
  apply merge_loop_spec in Hloop; auto.
  destruct Hloop as (Hwf' & Hsub & -> & He' & Hge & Hexit & Hcov).
  assert (clear_before rs' start) as Hclear' by (intros x ? ?; auto).
  pose proof (last_le_wf rs' start Hwf' Hs) as HL.
  setoid_rewrite <- Hcov; clear Hcov Hsub.
  assert (forall x s, x ∈ rs' -> key_rank start <= key_rank x.1 -> range_before (s, stop') x)
    as Hright.
  { intros x s Hx ?; destruct (Hexit x Hx); [lia | by apply range_before_limit]. }
  destruct (last_le (start, start) rs') as [[s e]|]; [case_decide as Hadj|].
  - destruct HL as (Hin & ? & ? & Hall).
    pose proof (rs_wf_ok _ _ Hwf' Hin) as (Hks & Hke & ?); cbn in *.
    apply succ_rank in Hadj as [_ Hadj]; [|done].
    destruct (insert_separated (set_remove (s, e) rs') s stop') as [? Hcov];
      [by apply set_remove_wf | split_and!; cbn; auto; lia | |].
    { intros y [Hy Hne]%elem_of_set_remove; [|done|by split_and!].
      destruct (rs_wf_ordered rs' y (s, e)) as [?|[?|[? ?]]]; auto; [done |].
      right; apply Hright; cbn in *; auto; lia. }
    split; [done |]. intros p; rewrite Hcov, (covered_remove rs' s e p) by done; intuition lia.
  - destruct HL as (Hin & ? & ? & Hall).
    pose proof (rs_wf_ok _ _ Hwf' Hin) as (Hks & Hke & ?); cbn in *.
    assert (key_rank s < key_rank start)
      by (destruct (Hexit _ Hin), (merge_limit_rank stop' He'); cbn in *; lia).
    apply insert_separated; [done | split_and!; cbn; auto; lia |].
    intros y Hy; destruct (decide (key_rank y.1 < key_rank start)) as [Hlt|];
      [left | right; apply Hright; auto; lia].
    pose proof (Hclear' y Hy Hlt); pose proof (rs_wf_ok _ _ Hwf' Hy) as (? & ? & ?).
    split; [done |]; cbn; destruct (Hall y Hy) as [->|[[? _]|?]]; [done | | lia].
    intros E%succ_rank; [cbn in *; lia | done].
  - apply insert_separated; [done | split_and!; cbn; auto; lia |].
    intros y Hy; right; specialize (HL y Hy); apply Hright; auto; lia.
Qed.

Lemma insert_pos_correct rs p :
  rs_wf rs -> key_ok p ->
  rs_wf (insert_pos rs p) /\
  (forall q, key_ok q -> covered (insert_pos rs p) q <-> q = p \/ covered rs q).
Proof.
  intros Hwf Hp; unfold insert_pos.
  pose proof (contains_covered rs p Hwf Hp) as Hc.
  assert (forall q, key_ok q -> key_rank p <= key_rank q <= key_rank p <-> q = p) as Hpoint.
  { intros q Hq; split; [|intros ->; lia]. intros; apply key_rank_inj; auto; lia. }
  destruct (contains rs p).
  - split; [done |]. intros q Hq; split; [tauto |]. intros [->|?]; tauto.
  - destruct (insert_range_correct rs p p) as [? Hcov]; auto; [lia | |].
    + intros [s e] Hin ?; cbn in *; apply Z.nle_gt; intros ?.
      enough (false = true) by done; apply Hc; exists s, e; split; [done | lia].
    + split; [done |]. intros q Hq; rewrite Hcov, Hpoint by done; tauto.
Qed.

(** *** Rebuilding a set from its ranges in order *)

Lemma set_insert_append rs x :
  rs_wf rs -> range_ok x -> (forall y, y ∈ rs -> range_before y x) -> set_insert x rs = rs ++ [x].
Proof.
  intros Hwf Hx; induction rs as [|y rs IH]; intros Hb; [done |].
  apply rs_wf_cons in Hwf as (Hy & _ & Hwf).
  destruct (Hb y ltac:(set_solver)) as [? _]; pose proof Hx as (_ & _ & ?).
  pose proof Hy as (_ & _ & ?); cbn; rewrite pair_cmp_rank by done.
  replace (_ ?= _) with Gt by (symmetry; apply Z.compare_gt_iff; lia).
  f_equal; apply IH; set_solver.
Qed.

Lemma insert_range_append rs s e :
  rs_wf rs -> range_ok (s, e) -> (forall x, x ∈ rs -> range_before x (s, e)) ->
  insert_range rs s e = rs ++ [(s, e)].
Proof.
  intros Hwf Hok Hb; pose proof Hok as (Hs & He & Hle); cbn in *; unfold insert_range.
  rewrite key_ltb_rank by done; replace (_ <? _) with false by lia.
  assert (merge_loop (length rs) rs s e = (rs, s, e)) as ->.
  { destruct (length rs); cbn; [done |].
    pose proof (merge_candidate_spec rs s e Hwf Hs He) as HC.
    destruct (merge_candidate rs s e) as [[a b]|]; [|done].
    destruct HC as [Hin ?]; pose proof (rs_wf_ok _ _ Hwf Hin) as (_ & _ & ?).
    destruct (Hb _ Hin) as [? _]; cbn in *; lia. }
  pose proof (last_le_wf rs s Hwf Hs) as HL.
  destruct (last_le (s, s) rs) as [[a b]|]; [|by apply set_insert_append].
  destruct HL as (Hin & _); destruct (Hb _ Hin) as [_ Hn]; cbn in Hn.
  rewrite decide_False by done; by apply set_insert_append.
Qed.

Lemma rs_wf_app_inv rs rs' :
  rs_wf (rs ++ rs') -> rs_wf rs /\ rs_wf rs' /\
  (forall x y, x ∈ rs -> y ∈ rs' -> range_before x y).
Proof.
  induction rs as [|x rs IH]; cbn; [intros; split_and!; auto using rs_wf_nil; set_solver |].
  rewrite !rs_wf_cons, Forall_app; intros (? & [? Hx] & (? & ? & Hall)%IH); split_and!; auto.
  intros a b [->|Ha]%elem_of_cons Hb; [by eapply Forall_forall in Hx | auto].
Qed.

Lemma insert_ranges_rebuild rs :
  rs_wf rs -> foldl (fun acc x => insert_range acc x.1 x.2) [] rs = rs.
Proof.
  assert (forall done todo, rs_wf (done ++ todo) ->
    foldl (fun acc x => insert_range acc x.1 x.2) done todo = done ++ todo) as H'.
  { intros done todo; revert done; induction todo as [|[s e] todo IH]; intros done Hwf; cbn.
    - by rewrite app_nil_r.
    - pose proof Hwf as (Hd & Ht & Hb)%rs_wf_app_inv.
      pose proof Ht as (Hok & _)%rs_wf_cons.
      rewrite insert_range_append; auto; [|intros x Hx; apply Hb; set_solver].
      rewrite IH; rewrite <- app_assoc; done. }
  intros Hwf; by apply (H' []).
Qed.

(** *** Removal of a covering range *)

(** When no stored range lies entirely below [p], [take_covering] removes and
    returns the range that covers [p], and fails exactly when there is none. *)
Lemma take_covering_correct rs p :
  rs_wf rs -> key_ok p -> (forall x, x ∈ rs -> key_rank p <= key_rank x.2) ->
  match take_covering rs p with
  | (Some e, rs') =>
      exists s, (s, e) ∈ rs /\ key_rank s <= key_rank p <= key_rank e /\
                rs' = set_remove (s, e) rs
  | (None, rs') => rs' = rs /\ ~ covered rs p
  end.
Proof.
  intros Hwf Hp Hbelow; unfold take_covering.
  pose proof (last_le_wf rs p Hwf Hp) as HL.
  pose proof (first_ge_wf rs p Hwf Hp) as HF.
  destruct (last_le (p, p) rs) as [[s e]|].
  - destruct HL as (Hin & ? & _); pose proof (rs_wf_ok _ _ Hwf Hin) as (? & ? & ?).
    pose proof (Hbelow _ Hin); cbn in *; rewrite key_leb_rank by done.
    replace (_ <=? _) with true by lia; eauto.
  - destruct (first_ge (p, p) rs) as [[s e]|].
    + destruct HF as (Hin & ? & Hall); pose proof (rs_wf_ok _ _ Hwf Hin) as (? & ? & ?).
      cbn in *; rewrite key_eqb_rank by done; destruct (Z.eqb_spec (key_rank s) (key_rank p)).
      * exists s; split_and!; auto; lia.
      * split; [done |]. intros (s' & e' & Hin' & ?).
        destruct (Hall _ Hin') as [?|[[? _]|?]]; specialize (HL _ Hin'); cbn in *;
          simplify_eq; lia.
    + split; [done |]. intros (s' & e' & Hin' & ?).
      specialize (HL _ Hin'); specialize (HF _ Hin'); cbn in *; lia.
Qed.
End range_set_laws.

(** Well-formedness of a concrete list of ranges. *)
Ltac rs_wf_concrete := split; repeat constructor; done.

#[export] Hint Resolve rs_wf_nil set_remove_wf : pulsar.

(** ** Sets of [u64] entries are canonical *)

Section u64_ranges.
Implicit Types (rs : list (Z * Z)) (p : Z).

Lemma covered_cons_u64 s e rs p :
  covered ((s, e) :: rs) p <-> s <= p <= e \/ covered rs p.
Proof. unfold covered; cbn; setoid_rewrite elem_of_cons; naive_solver. Qed.

Lemma rs_wf_cons_u64 s e rs :
  rs_wf ((s, e) :: rs) ->
  0 <= s /\ s <= e <= U64_MAX /\ rs_wf rs /\ (forall p, p <= e + 1 -> e < U64_MAX -> ~ covered rs p)
  /\ (forall p, p <= e -> ~ covered rs p).
Proof.
  intros ((Hs & He & Hle) & Hlt & Hwf)%rs_wf_cons; cbn in *.
  split_and!; auto; [mlia | mlia | |];
    intros p Hp; [intros Hmax|]; intros (s' & e' & Hin & ?);
    (eapply Forall_forall in Hlt; [|done]); destruct Hlt as [Hb Hn]; cbn in *; [|lia].
  apply Hn; unfold succ, succ_u64, u64_checked_add.
  case_bool; [f_equal; lia | mlia].
Qed.

Lemma rs_canonical rs1 rs2 :
  rs_wf rs1 -> rs_wf rs2 -> (forall p, u64_ok p -> covered rs1 p <-> covered rs2 p) ->
  rs1 = rs2.
Proof.
  revert rs2; induction rs1 as [|[s1 e1] rs1 IH]; intros [|[s2 e2] rs2] H1 H2 Heq; auto.
  - apply rs_wf_cons_u64 in H2 as (? & ? & _).
    destruct (proj2 (Heq s2 ltac:(mlia))) as (? & ? & ?%elem_of_nil & _);
      [apply covered_cons_u64; lia | done].
  - apply rs_wf_cons_u64 in H1 as (? & ? & _).
    destruct (proj1 (Heq s1 ltac:(mlia))) as (? & ? & ?%elem_of_nil & _);
      [apply covered_cons_u64; lia | done].
  - apply rs_wf_cons_u64 in H1 as (? & ? & Hwf1 & Hgap1 & Hlow1).
    apply rs_wf_cons_u64 in H2 as (? & ? & Hwf2 & Hgap2 & Hlow2).
    setoid_rewrite covered_cons_u64 in Heq.
    assert (s1 = s2) as ->.
    { destruct (Z.lt_trichotomy s1 s2) as [?|[?|?]]; auto.
      - destruct (proj1 (Heq s1 ltac:(mlia))) as [?|Hc]; [lia | lia |].
        apply Hlow2 in Hc; [done | lia].
      - destruct (proj2 (Heq s2 ltac:(mlia))) as [?|Hc]; [lia | lia |].
        apply Hlow1 in Hc; [done | lia]. }
    assert (e1 = e2) as ->.
    { destruct (Z.lt_trichotomy e1 e2) as [?|[?|?]]; auto.
      - destruct (proj2 (Heq (e1 + 1) ltac:(mlia))) as [?|Hc]; [lia | lia |].
        apply Hgap1 in Hc; [done | lia | lia].
      - destruct (proj1 (Heq (e2 + 1) ltac:(mlia))) as [?|Hc]; [lia | lia |].
        apply Hgap2 in Hc; [done | lia | lia]. }
    f_equal; apply IH; auto; intros p Hp; specialize (Heq p Hp).
    specialize (Hlow1 p); specialize (Hlow2 p).
    destruct (decide (p <= e2)); [tauto |]. intuition lia.
Qed.
End u64_ranges.

Lemma foldl_insert_correct (ps : list Z) rs :
  rs_wf rs -> Forall u64_ok ps ->
  rs_wf (foldl insert_pos rs ps) /\
  (forall q, u64_ok q -> covered (foldl insert_pos rs ps) q <-> q ∈ ps \/ covered rs q).
Proof.
  revert rs; induction ps as [|p ps IH]; intros rs Hwf Hps; cbn.
  - split; [done |]. set_solver.
  - apply Forall_cons in Hps as [Hp Hps].
    destruct (insert_pos_correct rs p Hwf Hp) as [Hwf' Hcov].
    destruct (IH _ Hwf' Hps) as [? Hcov']; split; [done |].
    intros q Hq; rewrite Hcov', Hcov by done; set_solver.
Qed.

Lemma covered_nil (q : Z) : ~ covered [] q.
Proof. intros (? & ? & ?%elem_of_nil & _); done. Qed.

(** ** Properties *)

(** C23: after any sequence of single-position insertions a [RangeSet<u64>] holds
    sorted, disjoint, non-adjacent ranges, and [contains] answers exactly
    whether the position was inserted. *)
Theorem range_set_refines_set (ps : list Z) (q : Z) :
  Forall u64_ok ps -> u64_ok q ->
  rs_wf (foldl insert_pos [] ps) /\
  (contains (foldl insert_pos [] ps) q = true <-> q ∈ ps).
Proof.
  intros Hps Hq; destruct (foldl_insert_correct ps [] rs_wf_nil Hps) as [Hwf Hcov].
  split; [done |]. rewrite contains_covered, Hcov by done.
  pose proof (covered_nil q); tauto.
Qed.

Lemma range_set_refines_set_witness :
  rs_wf (foldl insert_pos [] [7; 3; 5; 4]) /\
  (contains (foldl insert_pos [] [7; 3; 5; 4]) 4 = true <-> 4 ∈ [7; 3; 5; 4]).
Proof. apply range_set_refines_set; [repeat constructor; done | done]. Defined.

(** the stored ranges depend only on the set of inserted positions: two
    insertion orders of the same positions give the same [BTreeSet]. *)
Theorem range_set_order_irrelevant (ps1 ps2 : list Z) :
  Forall u64_ok ps1 -> Forall u64_ok ps2 -> (forall q, q ∈ ps1 <-> q ∈ ps2) ->
  foldl insert_pos [] ps1 = foldl insert_pos [] ps2.
Proof.
  intros H1 H2 Heq.
  destruct (foldl_insert_correct ps1 [] rs_wf_nil H1) as [Hwf1 Hcov1].
  destruct (foldl_insert_correct ps2 [] rs_wf_nil H2) as [Hwf2 Hcov2].
  apply rs_canonical; auto; intros p Hp; by rewrite Hcov1, Hcov2, Heq.
Qed.

Lemma range_set_order_irrelevant_witness :
  foldl insert_pos [] [7; 3; 5; 4] = foldl insert_pos [] [5; 4; 7; 3; 7].
Proof.
  apply range_set_order_irrelevant; [repeat constructor; done .. |].
  intros q; rewrite !elem_of_cons, elem_of_nil; tauto.
Defined.

(** [insert_range] adds exactly the positions of the inclusive range to the
    set and keeps the ranges sorted, disjoint and non-adjacent, whenever no
    stored range that starts before the new one reaches into it. *)
Theorem insert_range_union (rs : list (Z * Z)) (start stop p : Z) :
  rs_wf rs -> 0 <= start <= stop -> stop <= U64_MAX -> u64_ok p ->
  clear_before rs start ->
  rs_wf (insert_range rs start stop) /\
  (contains (insert_range rs start stop) p = true <->
   contains rs p = true \/ start <= p <= stop).
Proof.
  intros Hwf Hs He Hp Hclear.
  destruct (insert_range_correct rs start stop) as [Hwf' Hcov]; cbn; auto; try mlia.
  split; [done |]. rewrite !contains_covered by done; apply Hcov.
Qed.

Lemma insert_range_union_witness :
  rs_wf (insert_range [(2, 3); (9, 9)] 4 10) /\
  (contains (insert_range [(2, 3); (9, 9)] 4 10) 10 = true <->
   contains [(2, 3); (9, 9)] 10 = true \/ 4 <= 10 <= 10).
Proof.
  apply insert_range_union; try mlia.
  - rs_wf_concrete.
  - intros x Hx; rewrite !elem_of_cons, elem_of_nil in Hx.
    destruct Hx as [->|[->|[]]]; cbn; lia.
Defined.

(** without that proviso [insert_range] is wrong, against its comment
    ("merging every stored range that intersects"): a stored range that starts
    earlier and overlaps is not merged, and positions it covered are lost. *)
Theorem insert_range_overlap_loses_positions :
  exists (rs : list (Z * Z)) (start stop p : Z),
    rs_wf rs /\ start <= stop /\ contains rs p = true /\
    contains (insert_range rs start stop) p = false /\
    insert_range rs start stop = [(1, 10); (3, 5)].
Proof.
  exists [(1, 10)], 3, 5, 7; split; [rs_wf_concrete | split_and!; by vm_compute].
Qed.

(** when no stored range lies entirely below [p], [take_covering] removes
    and returns the end of the range that covers [p], and leaves the set alone
    exactly when [p] is not covered. *)
Theorem take_covering_contract (rs : list (Z * Z)) (p : Z) :
  rs_wf rs -> u64_ok p -> (forall x, x ∈ rs -> p <= x.2) ->
  match take_covering rs p with
  | (Some e, rs') => exists s, (s, e) ∈ rs /\ s <= p <= e /\ rs' = set_remove (s, e) rs
  | (None, rs') => rs' = rs /\ contains rs p = false
  end.
Proof.
  intros Hwf Hp Hb; pose proof (take_covering_correct rs p Hwf Hp Hb) as Ht.
  destruct (take_covering rs p) as [[e|] rs']; [done |].
  destruct Ht as [-> Hn]; split; [done |].
  apply not_true_is_false; by rewrite contains_covered.
Qed.

Lemma take_covering_contract_witness :
  match take_covering [(5, 9); (12, 12)] 5 with
  | (Some e, rs') => exists s, (s, e) ∈ [(5, 9); (12, 12)] /\ s <= 5 <= e /\
                               rs' = set_remove (s, e) [(5, 9); (12, 12)]
  | (None, rs') => rs' = [(5, 9); (12, 12)] /\ contains [(5, 9); (12, 12)] 5 = false
  end.
Proof.
  apply take_covering_contract; [rs_wf_concrete | done |].
  intros x Hx; rewrite !elem_of_cons, elem_of_nil in Hx.
  destruct Hx as [->|[->|[]]]; cbn; lia.
Defined.

(** in general [take_covering] does not do what its comment says: with a
    stored range below the position it removes that range and returns its end,
    although another range covers the position or none does. *)
Theorem take_covering_takes_stale_range :
  exists (rs : list (Z * Z)) (p e : Z),
    rs_wf rs /\ contains rs p = true /\ (take_covering rs p).1 = Some e /\ e < p /\
    (take_covering [(1, 2)] p).1 = Some e.
Proof.
  exists [(1, 2); (5, 9)], 5, 2; split; [rs_wf_concrete | split_and!; by vm_compute].
Qed.
