(* ===== verification/Cursor.v ===== *)
(** * The shared-subscription cursor

    [storage/managed-ledger/src/cursor.rs]: the mark-delete frontier, the
    out-of-order acknowledgements past it, and the acknowledgement step. *)

From S2P Require Import Prelude Position BTree RangeSet.

Record SubscriptionCursor := mkCursor {
  mark_delete : option Z;
  acked_holes : list (Z * Z);
}.

Definition default_cursor : SubscriptionCursor := mkCursor None [].

Definition is_message_acknowledged (c : option SubscriptionCursor) (n : Z) : bool :=
  match c with
  | Some c =>
      match mark_delete c with Some m => n <=? m | None => false end
      || contains (acked_holes c) n
  | None => false
  end.

Definition next_expected (c : SubscriptionCursor) : Z :=
  match mark_delete c with Some m => wrap_u64 (m + 1) | None => 0 end.

(** The loop of [advance_mark_delete]; each turn removes one stored range. *)
Fixpoint advance_loop (fuel : nat) (c : SubscriptionCursor) : SubscriptionCursor :=
  match fuel with
  | O => c
  | S fuel =>
      match take_covering (acked_holes c) (next_expected c) with
      | (Some e, holes) => advance_loop fuel (mkCursor (Some e) holes)
      | (None, holes) => mkCursor (mark_delete c) holes
      end
  end.

Definition advance_mark_delete (c : SubscriptionCursor) : SubscriptionCursor :=
  advance_loop (length (acked_holes c)) c.

Definition ack_shared (c : SubscriptionCursor) (n : Z)
  : SubscriptionCursor * (option Z * nat) :=
  if is_message_acknowledged (Some c) n
  then (c, (mark_delete c, length (acked_holes c)))
  else
    let c :=
      match mark_delete c with
      | None =>
          if n =? 0
          then advance_mark_delete (mkCursor (Some 0) (acked_holes c))
          else mkCursor None (insert_pos (acked_holes c) n)
      | Some m =>
          if n =? wrap_u64 (m + 1)
          then advance_mark_delete (mkCursor (Some n) (acked_holes c))
          else if wrap_u64 (m + 1) <? n
               then mkCursor (Some m) (insert_pos (acked_holes c) n)
               else c
      end in
    (c, (mark_delete c, length (acked_holes c))).

(** ** The invariant and the set of acknowledged entries *)

(** The first entry past the frontier; [-1] stands for an unset frontier. *)
Definition frontier (c : SubscriptionCursor) : Z :=
  match mark_delete c with Some m => m | None => -1 end.

Definition acked (c : SubscriptionCursor) (q : Z) : Prop :=
  q <= frontier c \/ covered (acked_holes c) q.

(** All entries below [u64::MAX]; no stored range at or below [frontier + d]. *)
Record holes_above (c : SubscriptionCursor) (d : Z) : Prop := {
  ha_wf : rs_wf (acked_holes c);
  ha_mark : mark_delete c <> None -> 0 <= frontier c;
  ha_frontier : -1 <= frontier c < U64_MAX;
  ha_above : forall x, x ∈ acked_holes c -> frontier c + d < x.1 /\ x.2 < U64_MAX;
}.

Definition cursor_wf (c : SubscriptionCursor) : Prop := holes_above c 1.

Lemma default_cursor_wf : cursor_wf default_cursor.
Proof. split; cbn; [apply rs_wf_nil | done | mlia | set_solver]. Qed.

Lemma is_message_acknowledged_acked c q :
  cursor_wf c -> u64_ok q -> is_message_acknowledged (Some c) q = true <-> acked c q.
Proof.
  intros [Hwf _ _ _] Hq; unfold acked, frontier; cbn; rewrite orb_true_iff.
  rewrite contains_covered by done; destruct (mark_delete c); [|intuition (done || mlia)].
  by rewrite Z.leb_le.
Qed.

Lemma next_expected_frontier c :
  -1 <= frontier c < U64_MAX -> next_expected c = frontier c + 1.
Proof.
  unfold next_expected, frontier; destruct (mark_delete c); intros; [|done].
  apply wrap_u64_id; mlia.
Qed.

(** Advancing keeps the set of acknowledged entries and restores the
    invariant; [length holes] turns are enough. *)
Lemma advance_loop_spec fuel c :
  (length (acked_holes c) <= fuel)%nat -> holes_above c 0 ->
  cursor_wf (advance_loop fuel c) /\
  (forall q, acked (advance_loop fuel c) q <-> acked c q) /\
  frontier c <= frontier (advance_loop fuel c).
Proof.
  revert c; induction fuel as [|fuel IH]; intros c Hf [Hwf Hm Hr Hb].
  - destruct c as [m [|]]; cbn in *; [|lia]. split_and!; [split; set_solver | done | lia].
  - cbn [advance_loop]; rewrite next_expected_frontier by done.
    assert (forall x, x ∈ acked_holes c -> frontier c + 1 <= x.1 <= x.2) as Hlow.
    { intros x Hx; pose proof (rs_wf_ok _ _ Hwf Hx) as (_ & _ & ?).
      specialize (Hb x Hx); cbn in *; lia. }
    assert (key_ok (frontier c + 1)) as Hn by (cbn; mlia).
    pose proof (take_covering_correct (acked_holes c) (frontier c + 1) Hwf Hn
                  ltac:(intros x Hx; specialize (Hlow x Hx); cbn; lia)) as Ht; clear Hn.
    destruct (take_covering (acked_holes c) (frontier c + 1)) as [[e|] holes]; cbn in Ht.
    + destruct Ht as (s & Hin & Hse & ->).
      pose proof (rs_wf_ok _ _ Hwf Hin) as Hok; pose proof (Hb _ Hin); cbn in *.
      destruct (IH (mkCursor (Some e) (set_remove (s, e) (acked_holes c)))) as (? & Hacked & ?).
      { pose proof (length_set_remove _ _ Hwf Hin); cbn; lia. }
      { split; cbn; [by apply set_remove_wf | lia | lia |].
        intros x [Hx Hne]%elem_of_set_remove; auto; split; [|apply Hb; done].
        specialize (Hlow x Hx).
        destruct (rs_wf_ordered _ x (s, e) Hwf Hx Hin) as [?|[[? ?]|[? ?]]];
          [done | cbn in *; lia ..]. }
      split_and!; [done | | cbn in *; lia].
      intros q; rewrite Hacked; unfold acked; cbn.
      rewrite (covered_remove _ _ _ _ Hwf Hin); cbn; intuition lia.
    + destruct Ht as [-> Hn].
      replace (mkCursor (mark_delete c) (acked_holes c)) with c by by destruct c.
      split_and!; [|done | lia]. split; auto.
      intros [s e] Hx; split; [|by apply (Hb _ Hx)]; specialize (Hlow _ Hx); cbn in *.
      apply Z.nle_gt; intros ?; apply Hn; exists s, e; cbn; split; [done | lia].
Qed.

Lemma advance_mark_delete_spec c :
  holes_above c 0 ->
  cursor_wf (advance_mark_delete c) /\
  (forall q, acked (advance_mark_delete c) q <-> acked c q) /\
  frontier c <= frontier (advance_mark_delete c).
Proof. by apply advance_loop_spec. Qed.

(** Storing an acknowledgement past the next expected entry. *)
Lemma insert_hole_spec c n :
  cursor_wf c -> frontier c + 1 < n < U64_MAX ->
  cursor_wf (mkCursor (mark_delete c) (insert_pos (acked_holes c) n)) /\
  (forall q, u64_ok q ->
     acked (mkCursor (mark_delete c) (insert_pos (acked_holes c) n)) q <-> q = n \/ acked c q).
Proof.
  intros [Hwf Hm Hr Hb] Hn.
  destruct (insert_pos_correct (acked_holes c) n Hwf) as [Hwf' Hcov]; [cbn; mlia |].
  split; [split; auto; intros x Hx |].
  - pose proof (rs_wf_ok _ _ Hwf' Hx) as (Hs & He & Hle); cbn in *.
    assert (forall q, u64_ok q -> x.1 <= q <= x.2 -> frontier c + 1 < q < U64_MAX) as Hall.
    { intros q Hq Hqx.
      destruct (proj1 (Hcov q Hq)) as [->|(s & e & Hin & ?)]; [|lia|].
      - destruct x; cbn in *; eexists _, _; split; [done | cbn; lia].
      - specialize (Hb _ Hin); cbn in *; lia. }
    change (frontier (mkCursor (mark_delete c) _)) with (frontier c).
    split; apply Hall; auto; lia.
  - intros q Hq; unfold acked; cbn; rewrite Hcov by done.
    change (frontier (mkCursor (mark_delete c) _)) with (frontier c); tauto.
Qed.

Lemma ack_shared_spec c n :
  cursor_wf c -> 0 <= n < U64_MAX ->
  cursor_wf (ack_shared c n).1 /\
  (forall q, u64_ok q -> acked (ack_shared c n).1 q <-> q = n \/ acked c q) /\
  frontier c <= frontier (ack_shared c n).1.
Proof.
  intros Hwf Hn; unfold ack_shared.
  pose proof (is_message_acknowledged_acked c n Hwf ltac:(mlia)) as Hack.
  destruct (is_message_acknowledged (Some c) n); cbn [fst].
  { split_and!; [done | | lia]. intros q Hq; split; [tauto |]. intros [->|?]; tauto. }
  assert (~ acked c n) as Hnew by (by intros ?%Hack); clear Hack.
  pose proof Hwf as [Hrs Hm Hr Hb].
  destruct c as [m holes].
  assert (next_adv : forall m', frontier (mkCursor m holes) + 1 = n -> m' = n ->
    cursor_wf (advance_mark_delete (mkCursor (Some m') holes)) /\
    (forall q, u64_ok q -> acked (advance_mark_delete (mkCursor (Some m') holes)) q <->
               q = n \/ acked (mkCursor m holes) q) /\
    frontier (mkCursor m holes) <= frontier (advance_mark_delete (mkCursor (Some m') holes))).
  { intros m' Hm' ->.
    destruct (advance_mark_delete_spec (mkCursor (Some n) holes)) as (? & Hacked & ?).
    - split; cbn in *; auto; try lia. intros x Hx; specialize (Hb x Hx); lia.
    - split_and!; [done | | cbn in *; lia].
      intros q Hq; rewrite Hacked; unfold acked; cbn in *; intuition lia. }
  destruct m as [m|]; cbn -[advance_mark_delete acked] in *.
  - rewrite wrap_u64_id by (cbn in Hr; mlia).
    destruct (Z.eqb_spec n (m + 1)); [by apply next_adv |].
    destruct (Z.ltb_spec (m + 1) n).
    + destruct (insert_hole_spec (mkCursor (Some m) holes) n) as [? Hacked]; [done | cbn; lia |].
      split_and!; [done | exact Hacked | cbn; lia].
    + exfalso; apply Hnew; left; cbn; lia.
  - destruct (Z.eqb_spec n 0) as [->|]; [by apply next_adv |].
    destruct (insert_hole_spec (mkCursor None holes) n) as [? Hacked]; [done | cbn; lia |].
    split_and!; [done | exact Hacked | cbn; lia].
Qed.

Lemma cursor_canonical c1 c2 :
  cursor_wf c1 -> cursor_wf c2 -> (forall q, u64_ok q -> acked c1 q <-> acked c2 q) ->
  c1 = c2.
Proof.
  intros Hc1 Hc2 Heq.
  assert (forall c, cursor_wf c -> ~ acked c (frontier c + 1)) as Hfirst.
  { intros c [_ _ _ Hb] [?|(s & e & Hin & ?)]; [lia |]. specialize (Hb _ Hin); cbn in *; lia. }
  pose proof Hc1 as [Hwf1 Hm1 Hr1 Hb1]; pose proof Hc2 as [Hwf2 Hm2 Hr2 Hb2].
  assert (frontier c1 = frontier c2) as Hf.
  { destruct (Z.lt_trichotomy (frontier c1) (frontier c2)) as [?|[?|?]]; auto.
    - exfalso; apply (Hfirst c1); auto; apply Heq; [mlia | left; lia].
    - exfalso; apply (Hfirst c2); auto; apply Heq; [mlia | left; lia]. }
  assert (acked_holes c1 = acked_holes c2) as Hh.
  { apply rs_canonical; auto; intros p Hp; specialize (Heq p Hp); unfold acked in Heq.
    assert (forall c, cursor_wf c -> covered (acked_holes c) p -> frontier c < p) as Habove.
    { intros c [_ _ _ Hb] (s & e & Hin & ?); specialize (Hb _ Hin); cbn in *; lia. }
    pose proof (Habove c1 Hc1); pose proof (Habove c2 Hc2); rewrite Hf in *; intuition lia. }
  destruct c1 as [[m1|] h1], c2 as [[m2|] h2]; cbn in *; subst; auto;
    exfalso; [apply Hm1 | apply Hm2]; done.
Qed.

Definition ack_all (c : SubscriptionCursor) (ns : list Z) : SubscriptionCursor :=
  foldl (fun c n => (ack_shared c n).1) c ns.

Lemma ack_all_spec c ns :
  cursor_wf c -> Forall (fun n => 0 <= n < U64_MAX) ns ->
  cursor_wf (ack_all c ns) /\
  (forall q, u64_ok q -> acked (ack_all c ns) q <-> q ∈ ns \/ acked c q).
Proof.
  revert c; induction ns as [|n ns IH]; intros c Hwf Hns; cbn.
  - split; [done |]. set_solver.
  - apply Forall_cons in Hns as [Hn Hns].
    destruct (ack_shared_spec c n Hwf Hn) as (Hwf' & Hacked & _).
    destruct (IH _ Hwf' Hns) as [? Hacked']; split; [done |].
    intros q Hq; unfold ack_all in Hacked' |- *; cbn.
    rewrite Hacked', Hacked by done; set_solver.
Qed.

Lemma acked_default q : u64_ok q -> ~ acked default_cursor q.
Proof. intros Hq [?|Hc]; [cbn in *; mlia | by apply covered_nil in Hc]. Qed.

#[export] Hint Resolve default_cursor_wf : pulsar.

(** ** Properties *)

(** one shared acknowledgement preserves the cursor's invariant (disjoint,
    non-adjacent holes strictly past the frontier), marks exactly the given
    entry in addition to those already acknowledged, never moves the
    mark-delete frontier back, and reports the new frontier and the number of
    stored ranges. *)
Theorem ack_shared_step (c : SubscriptionCursor) (n q : Z) :
  cursor_wf c -> 0 <= n < U64_MAX -> u64_ok q ->
  cursor_wf (ack_shared c n).1 /\
  (is_message_acknowledged (Some (ack_shared c n).1) q = true <->
   q = n \/ is_message_acknowledged (Some c) q = true) /\
  frontier c <= frontier (ack_shared c n).1 /\
  (ack_shared c n).2 =
    (mark_delete (ack_shared c n).1, length (acked_holes (ack_shared c n).1)).
Proof.
  intros Hwf Hn Hq; destruct (ack_shared_spec c n Hwf Hn) as (Hwf' & Hacked & Hmono).
  rewrite !is_message_acknowledged_acked by done; split_and!; auto.
  unfold ack_shared; by case_bool.
Qed.

Lemma ack_shared_step_witness :
  cursor_wf (ack_shared (mkCursor (Some 2) [(4, 6)]) 3).1 /\
  (is_message_acknowledged (Some (ack_shared (mkCursor (Some 2) [(4, 6)]) 3).1) 6 = true <->
   6 = 3 \/ is_message_acknowledged (Some (mkCursor (Some 2) [(4, 6)])) 6 = true) /\
  2 <= frontier (ack_shared (mkCursor (Some 2) [(4, 6)]) 3).1 /\
  (ack_shared (mkCursor (Some 2) [(4, 6)]) 3).2 = (Some 6, 0%nat).
Proof.
  apply (ack_shared_step (mkCursor (Some 2) [(4, 6)]) 3 6); [|mlia|mlia].
  split; cbn; [rs_wf_concrete | lia | mlia |].
  intros x Hx; apply list_elem_of_singleton in Hx as ->; cbn; mlia.
Defined.

(** C22: starting from a fresh cursor, after acknowledging any list of entries
    in any order an entry is reported acknowledged exactly when it is in the
    list, and the mark-delete frontier is the end of the longest acknowledged
    prefix: everything up to it is in the list and the next entry is not. *)
Theorem ack_all_refines_set (ns : list Z) (q : Z) :
  Forall (fun n => 0 <= n < U64_MAX) ns -> u64_ok q ->
  (is_message_acknowledged (Some (ack_all default_cursor ns)) q = true <-> q ∈ ns) /\
  (0 <= q <= frontier (ack_all default_cursor ns) -> q ∈ ns) /\
  frontier (ack_all default_cursor ns) + 1 ∉ ns.
Proof.
  intros Hns Hq; destruct (ack_all_spec _ ns default_cursor_wf Hns) as [Hwf Hacked].
  assert (forall p, u64_ok p -> acked (ack_all default_cursor ns) p <-> p ∈ ns) as Hin.
  { intros p Hp; rewrite Hacked by done; pose proof (acked_default p Hp); tauto. }
  rewrite is_message_acknowledged_acked by done; destruct Hwf as [_ _ ? Habove].
  split_and!; [by apply Hin | |].
  - intros ?; apply Hin; [mlia | left; lia].
  - rewrite <- Hin by mlia. intros [?|(s & e & Hse & ?)]; [lia |].
    specialize (Habove _ Hse); cbn in *; lia.
Qed.

Lemma ack_all_refines_set_witness :
  (is_message_acknowledged (Some (ack_all default_cursor [3; 0; 1; 5])) 3 = true <->
   3 ∈ [3; 0; 1; 5]) /\
  (0 <= 3 <= frontier (ack_all default_cursor [3; 0; 1; 5]) -> 3 ∈ [3; 0; 1; 5]) /\
  frontier (ack_all default_cursor [3; 0; 1; 5]) + 1 ∉ [3; 0; 1; 5].
Proof.
  apply ack_all_refines_set; [repeat (apply Forall_cons; split; [mlia|]); constructor | mlia].
Defined.

(** the state of a shared cursor depends only on the set of acknowledged
    entries, not on the order or repetition of the acknowledgements. *)
Theorem ack_order_irrelevant (ns1 ns2 : list Z) :
  Forall (fun n => 0 <= n < U64_MAX) ns1 -> Forall (fun n => 0 <= n < U64_MAX) ns2 ->
  (forall q, q ∈ ns1 <-> q ∈ ns2) ->
  ack_all default_cursor ns1 = ack_all default_cursor ns2.
Proof.
  intros H1 H2 Heq.
  destruct (ack_all_spec _ ns1 default_cursor_wf H1) as [Hwf1 Ha1].
  destruct (ack_all_spec _ ns2 default_cursor_wf H2) as [Hwf2 Ha2].
  apply cursor_canonical; auto; intros q Hq; by rewrite Ha1, Ha2, Heq.
Qed.

Lemma ack_order_irrelevant_witness :
  ack_all default_cursor [3; 0; 1; 5] = ack_all default_cursor [5; 1; 3; 0; 3].
Proof.
  apply ack_order_irrelevant;
    [repeat (apply Forall_cons; split; [mlia|]); constructor .. |].
  intros q; rewrite !elem_of_cons, elem_of_nil; tauto.
Defined.
