(* ===== verification/CursorRead.v ===== *)
(** * Reading a list of messages from a position

    [storage/managed-ledger/src/cursor_read.rs] and [cursor_init.rs]. *)

From S2P Require Import Prelude Position.

Inductive InitialPosition := Latest | Earliest.

Record CursorInitOptions := mkCursorInit {
  initial_position : InitialPosition;
  start_message_id : option MessageId;
}.

Record CursorOpenResult := mkCursorOpen {
  created : bool;
  first_unacked : option ManagedLedgerPosition;
}.

#[global] Instance initial_position_eq_dec : EqDecision InitialPosition.
Proof. solve_decision. Defined.

Definition cursor_subscription_key (topic subscription : string) : string :=
  (topic +:+ ":" +:+ subscription)%string.

(** A stored message: its id and its payload. *)
Abbreviation message := (MessageId * list Z)%type.

Definition position_at_or_after (candidate start : ManagedLedgerPosition) : bool :=
  match ledger_id candidate ?= ledger_id start with
  | Lt => false
  | Gt => true
  | Eq => entry_id start <=? entry_id candidate
  end.

Fixpoint first_unacked_from_messages (messages : list message)
    (is_acknowledged : MessageId -> bool) : option ManagedLedgerPosition :=
  match messages with
  | [] => None
  | (id, _) :: messages =>
      if negb (is_acknowledged id) then Some (position_of_message_id id)
      else first_unacked_from_messages messages is_acknowledged
  end.

(** The loop of [read_from_messages] with the vector it fills. *)
Fixpoint read_from_loop (messages : list message) (from : ManagedLedgerPosition)
    (limit : nat) (out : list message) : list message :=
  match messages with
  | [] => out
  | (id, data) :: messages =>
      if negb (position_at_or_after (position_of_message_id id) from)
      then read_from_loop messages from limit out
      else
        let out := out ++ [(id, data)] in
        if (limit <=? length out)%nat then out
        else read_from_loop messages from limit out
  end.

Definition read_from_messages (messages : list message) (from : ManagedLedgerPosition)
    (limit : nat) : list message :=
  read_from_loop messages from limit [].

Definition last_position_from_messages (messages : list message)
  : option ManagedLedgerPosition :=
  match last messages with
  | Some (id, _) => Some (position_of_message_id id)
  | None => None
  end.

Definition next_position_single_ledger (current : ManagedLedgerPosition)
  : option ManagedLedgerPosition :=
  Some (mkPos (ledger_id current) (wrap_u64 (entry_id current + 1)) (partition current)).

(** ** Lemmas *)

Definition at_or_after (from : ManagedLedgerPosition) (m : message) : bool :=
  position_at_or_after (position_of_message_id m.1) from.

Lemma read_from_loop_spec messages from limit out :
  (length out < limit)%nat \/ out = [] ->
  read_from_loop messages from limit out =
  out ++ take (Nat.max 1 limit - length out) (filter (fun m => at_or_after from m = true) messages).
Proof.
  revert out; induction messages as [|[id data] ms IH]; intros out Hout; cbn [read_from_loop].
  - by rewrite filter_nil, take_nil, app_nil_r.
  - change (position_at_or_after (position_of_message_id id) from)
      with (at_or_after from (id, data)).
    destruct (at_or_after from (id, data)) eqn:E; cbn [negb].
    + rewrite filter_cons_True by done.
      rewrite length_app; cbn [length].
      destruct (Nat.leb_spec limit (length out + 1)) as [?|?].
      * replace (Nat.max 1 limit - length out)%nat with 1%nat
          by (destruct Hout as [?| ->]; cbn in *; lia); done.
      * rewrite IH by (left; rewrite length_app; cbn; lia).
        rewrite length_app; cbn [length]; rewrite <- app_assoc; f_equal.
        replace (Nat.max 1 limit - length out)%nat
          with (S (Nat.max 1 limit - (length out + 1)))%nat by lia; done.
    + rewrite filter_cons_False by congruence; by apply IH.
Qed.

(** A read returns, in order, the messages at or after the start, at most
    [limit] of them, except that a limit of zero still returns one. *)
Lemma read_from_messages_spec messages from limit :
  read_from_messages messages from limit =
  take (Nat.max 1 limit) (filter (fun m => at_or_after from m = true) messages).
Proof.
  unfold read_from_messages; rewrite read_from_loop_spec by auto.
  cbn; f_equal; lia.
Qed.

Lemma first_unacked_spec messages is_acked p :
  first_unacked_from_messages messages is_acked = Some p <->
  exists i id data, messages !! i = Some (id, data) /\ p = position_of_message_id id /\
    is_acked id = false /\
    forall j m, (j < i)%nat -> messages !! j = Some m -> is_acked m.1 = true.
Proof.
  induction messages as [|[id data] ms IH]; cbn.
  - split; [done |]. intros (i & ? & ? & H & _); by rewrite lookup_nil in H.
  - destruct (is_acked id) eqn:E; cbn; [rewrite IH|]; split.
    + intros (i & id' & data' & Hi & -> & Hn & Hall).
      exists (S i), id', data'; split_and!; auto; intros [|j] m Hj Hm; cbn in *;
        [by simplify_eq | apply (Hall j m); auto; lia].
    + intros ([|i] & id' & data' & Hi & -> & Hn & Hall); cbn in *; [congruence |].
      exists i, id', data'; split_and!; auto; intros j m Hj Hm.
      apply (Hall (S j) m); cbn; auto; lia.
    + intros [= <-]; exists 0%nat, id, data; split_and!; auto; lia.
    + intros ([|i] & id' & data' & Hi & -> & Hn & Hall); cbn in *; [congruence |].
      specialize (Hall 0%nat (id, data) ltac:(lia) eq_refl); cbn in *; congruence.
Qed.

Lemma first_unacked_none messages is_acked :
  first_unacked_from_messages messages is_acked = None <->
  forall m, m ∈ messages -> is_acked m.1 = true.
Proof.
  induction messages as [|[id data] ms IH]; cbn; [set_solver |].
  destruct (is_acked id) eqn:E; cbn; [rewrite IH|]; split; try done.
  - intros Hall m [->|Hm]%elem_of_cons; auto.
  - intros Hall m Hm; apply Hall; set_solver.
  - intros Hall; specialize (Hall (id, data) ltac:(set_solver)); cbn in *; congruence.
Qed.
