(* ===== verification/MemoryStore.v ===== *)
(** * The in-memory managed-ledger store

    [storage/managed-ledger/src/memory.rs]: one append-only ledger per topic,
    exclusive cursors (a plain [u64], [u64::MAX] for none), shared cursors and
    the metadata side table.  Every method of the trait returns [Ok], so the
    model returns the value itself. *)

From S2P Require Import Prelude Position BTree RangeSet Cursor CursorRead.

Record InMemoryManagedLedger := mkMemLedger {
  ml_name : string;
  ml_ledger_id : Z;
  ml_entries : list message;
}.

Record InMemoryManagedLedgerFactory := mkMemFactory {
  ledgers : gmap string InMemoryManagedLedger;
  next_ledger_id : Z;
}.

Record InMemoryManagedLedgerStorage := mkMemStore {
  factory : InMemoryManagedLedgerFactory;
  cursors : gmap string Z;
  subscription_cursors : gmap string SubscriptionCursor;
  entry_metadata : gmap MessageId (list Z);
}.

Definition mem_new : InMemoryManagedLedgerStorage :=
  mkMemStore (mkMemFactory ∅ 0) ∅ ∅ ∅.

(** ** The ledger and its factory *)

Definition ensure_ledger (f : InMemoryManagedLedgerFactory) (name : string)
  : InMemoryManagedLedger * InMemoryManagedLedgerFactory :=
  match ledgers f !! name with
  | Some l => (l, f)
  | None =>
      let l := mkMemLedger name (next_ledger_id f) [] in
      (l, mkMemFactory (<[name := l]> (ledgers f)) (wrap_u64 (next_ledger_id f + 1)))
  end.

Definition add_entry_in_place (l : InMemoryManagedLedger) (part : Z) (data : list Z)
  : MessageId * InMemoryManagedLedger :=
  let id := mkMsgId (ml_ledger_id l) (Z.of_nat (length (ml_entries l))) part in
  (id, mkMemLedger (ml_name l) (ml_ledger_id l) (ml_entries l ++ [(id, data)])).

Definition append_entry (f : InMemoryManagedLedgerFactory) (topic : string)
    (part : Z) (data : list Z) : MessageId * InMemoryManagedLedgerFactory :=
  let '(l, f) := ensure_ledger f topic in
  let '(id, l) := add_entry_in_place l part data in
  (id, mkMemFactory (<[topic := l]> (ledgers f)) (next_ledger_id f)).

Definition factory_messages (f : InMemoryManagedLedgerFactory) (topic : string)
  : option (list message) :=
  ml_entries <$> ledgers f !! topic.

Definition factory_get_message_by_id (f : InMemoryManagedLedgerFactory)
    (topic : string) (id : MessageId) : option message :=
  match factory_messages f topic with
  | None => None
  | Some messages =>
      let by_scan := find (fun m : message => bool_decide (m.1 = id)) messages in
      match messages !! Z.to_nat (entry id) with
      | Some (stored, data) => if bool_decide (stored = id) then Some (stored, data) else by_scan
      | None => by_scan
      end
  end.

(** ** Helpers of the storage *)

Definition cursor_exists (st : InMemoryManagedLedgerStorage) (key : string) : bool :=
  bool_decide (is_Some (cursors st !! key))
  || bool_decide (is_Some (subscription_cursors st !! key)).

Definition mem_messages (st : InMemoryManagedLedgerStorage) (topic : string)
  : list message :=
  default [] (factory_messages (factory st) topic).

Definition stored_message (st : InMemoryManagedLedgerStorage) (m : message)
  : StoredMessage :=
  mkStored m.1 (default [] (entry_metadata st !! m.1)) m.2.

Definition is_acknowledged_inner (st : InMemoryManagedLedgerStorage)
    (topic sub : string) (id : MessageId) : bool :=
  let key := cursor_subscription_key topic sub in
  match subscription_cursors st !! key with
  | Some shared => is_message_acknowledged (Some shared) (entry id)
  | None =>
      let mark := default U64_MAX (cursors st !! key) in
      negb (mark =? U64_MAX) && (entry id <=? mark)
  end.

Definition set_cursor (st : InMemoryManagedLedgerStorage) (key : string) (mark : Z) :=
  mkMemStore (factory st) (<[key := mark]> (cursors st)) (subscription_cursors st)
    (entry_metadata st).

Definition ensure_exclusive_cursor (st : InMemoryManagedLedgerStorage) (key : string) :=
  match cursors st !! key with
  | Some _ => st
  | None => set_cursor st key U64_MAX
  end.

Definition apply_latest_exclusive (st : InMemoryManagedLedgerStorage)
    (key topic : string) :=
  match last_position_from_messages (mem_messages st topic) with
  | Some p => set_cursor st key (entry_id p)
  | None => ensure_exclusive_cursor st key
  end.

Definition apply_start_message_id_exclusive (st : InMemoryManagedLedgerStorage)
    (key : string) (start : MessageId) :=
  if 0 <? entry start then set_cursor st key (entry start - 1)
  else ensure_exclusive_cursor st key.

(** ** The [ManagedLedgerStorage] methods *)

Definition mem_create_topic (st : InMemoryManagedLedgerStorage) (name : string) :=
  mkMemStore (ensure_ledger (factory st) name).2 (cursors st) (subscription_cursors st)
    (entry_metadata st).

Definition mem_append_message (st : InMemoryManagedLedgerStorage) (topic : string)
    (part : Z) (data : list Z) : MessageId * InMemoryManagedLedgerStorage :=
  let '(id, f) := append_entry (factory st) topic part data in
  (id, mkMemStore f (cursors st) (subscription_cursors st) (entry_metadata st)).

Definition mem_append_message_with_metadata (st : InMemoryManagedLedgerStorage)
    (topic : string) (part : Z) (meta data : list Z)
  : MessageId * InMemoryManagedLedgerStorage :=
  let '(id, f) := append_entry (factory st) topic part data in
  (id, mkMemStore f (cursors st) (subscription_cursors st)
         (match meta with
          | [] => entry_metadata st
          | _ => <[id := meta]> (entry_metadata st)
          end)).

Definition mem_first_unacked_position (st : InMemoryManagedLedgerStorage)
    (topic sub : string) : option ManagedLedgerPosition :=
  first_unacked_from_messages (mem_messages st topic) (is_acknowledged_inner st topic sub).

Definition mem_initialize_or_open_cursor (st : InMemoryManagedLedgerStorage)
    (topic sub : string) (options : CursorInitOptions)
  : CursorOpenResult * InMemoryManagedLedgerStorage :=
  let key := cursor_subscription_key topic sub in
  if cursor_exists st key
  then (mkCursorOpen false (mem_first_unacked_position st topic sub), st)
  else
    let st :=
      match start_message_id options with
      | Some start => apply_start_message_id_exclusive st key start
      | None =>
          if decide (initial_position options = Latest)
          then apply_latest_exclusive st key topic
          else ensure_exclusive_cursor st key
      end in
    (mkCursorOpen true (mem_first_unacked_position st topic sub), st).

Definition mem_delete_cursor (st : InMemoryManagedLedgerStorage) (topic sub : string) :=
  let key := cursor_subscription_key topic sub in
  mkMemStore (factory st) (delete key (cursors st)) (delete key (subscription_cursors st))
    (entry_metadata st).

(** The positions [take_while(|position| position < &target)] yields. *)
Fixpoint positions_before (messages : list message) (target : ManagedLedgerPosition)
  : list ManagedLedgerPosition :=
  match messages with
  | [] => []
  | (id, _) :: messages =>
      match position_cmp (position_of_message_id id) target with
      | Lt => position_of_message_id id :: positions_before messages target
      | _ => []
      end
  end.

Definition mem_seek_cursor (st : InMemoryManagedLedgerStorage) (topic sub : string)
    (id : MessageId) (shared : bool) :=
  let key := cursor_subscription_key topic sub in
  let previous := last (positions_before (mem_messages st topic) (position_of_message_id id)) in
  if shared
  then mkMemStore (factory st) (delete key (cursors st))
         (<[key := mkCursor (entry_id <$> previous) []]> (subscription_cursors st))
         (entry_metadata st)
  else mkMemStore (factory st)
         (<[key := match previous with Some p => entry_id p | None => U64_MAX end]> (cursors st))
         (delete key (subscription_cursors st)) (entry_metadata st).

Definition mem_read_from (st : InMemoryManagedLedgerStorage) (topic : string)
    (from : ManagedLedgerPosition) (limit : nat) : list message :=
  read_from_messages (mem_messages st topic) from limit.

Definition mem_read_entries_from (st : InMemoryManagedLedgerStorage) (topic : string)
    (from : ManagedLedgerPosition) (limit : nat) : list StoredMessage :=
  stored_message st <$> mem_read_from st topic from limit.

Definition mem_get_last_position (st : InMemoryManagedLedgerStorage) (topic : string) :=
  last_position_from_messages (mem_messages st topic).

Definition mem_get_next_position (current : ManagedLedgerPosition) :=
  next_position_single_ledger current.

Definition mem_ack_message (st : InMemoryManagedLedgerStorage) (topic sub : string)
    (id : MessageId) :=
  set_cursor st (cursor_subscription_key topic sub) (entry id).

Definition mem_ack_message_shared (st : InMemoryManagedLedgerStorage)
    (topic sub : string) (id : MessageId) :=
  let key := cursor_subscription_key topic sub in
  let c := default default_cursor (subscription_cursors st !! key) in
  mkMemStore (factory st) (cursors st)
    (<[key := (ack_shared c (entry id)).1]> (subscription_cursors st))
    (entry_metadata st).

Definition mem_get_message_by_id (st : InMemoryManagedLedgerStorage) (topic : string)
    (id : MessageId) : option message :=
  factory_get_message_by_id (factory st) topic id.

Definition mem_get_message_entry_by_id (st : InMemoryManagedLedgerStorage)
    (topic : string) (id : MessageId) : option StoredMessage :=
  stored_message st <$> mem_get_message_by_id st topic id.

Definition mem_get_message_entries (st : InMemoryManagedLedgerStorage) (topic : string) :=
  stored_message st <$> mem_messages st topic.

Definition mem_is_acknowledged_shared (st : InMemoryManagedLedgerStorage)
    (topic sub : string) (id : MessageId) : bool :=
  is_message_acknowledged (subscription_cursors st !! cursor_subscription_key topic sub)
    (entry id).

Definition mem_get_mark_delete_position (st : InMemoryManagedLedgerStorage)
    (topic sub : string) : option Z :=
  match subscription_cursors st !! cursor_subscription_key topic sub with
  | Some c => mark_delete c
  | None => None
  end.

Definition mem_backlog_entries (st : InMemoryManagedLedgerStorage) (topic sub : string)
  : option Z :=
  let key := cursor_subscription_key topic sub in
  let total := Z.of_nat (length (mem_messages st topic)) in
  match subscription_cursors st !! key with
  | Some c =>
      Some (sat_sub total (match mark_delete c with Some m => wrap_u64 (m + 1) | None => 0 end))
  | None =>
      match cursors st !! key with
      | Some mark =>
          if negb (mark =? U64_MAX) then Some (sat_sub total (mark + 1)) else Some total
      | None => Some total
      end
  end.

Definition mem_stored_bytes (st : InMemoryManagedLedgerStorage) (topic : string) : Z :=
  foldr (fun m n =>
           Z.of_nat (match entry_metadata st !! m.1 with Some v => length v | None => 0 end)
           + Z.of_nat (length m.2) + n) 0 (mem_messages st topic).

(** ** Invariant *)

Definition ledger_wf (l : InMemoryManagedLedger) : Prop :=
  forall i m, ml_entries l !! i = Some m ->
    ledger m.1 = ml_ledger_id l /\ entry m.1 = Z.of_nat i.

(** Topics own disjoint ledger ids below [next_ledger_id], the [i]-th message
    of a ledger has entry id [i], metadata is kept only for stored messages and
    every shared cursor is well formed. *)
Record store_wf (st : InMemoryManagedLedgerStorage) : Prop := {
  sw_next : 0 <= next_ledger_id (factory st);
  sw_ledger : forall t l, ledgers (factory st) !! t = Some l ->
    ledger_wf l /\ 0 <= ml_ledger_id l < next_ledger_id (factory st);
  sw_distinct : forall t1 t2 l1 l2,
    ledgers (factory st) !! t1 = Some l1 -> ledgers (factory st) !! t2 = Some l2 ->
    ml_ledger_id l1 = ml_ledger_id l2 -> t1 = t2;
  sw_meta : forall id v, entry_metadata st !! id = Some v ->
    exists t l d, ledgers (factory st) !! t = Some l /\ (id, d) ∈ ml_entries l;
  sw_cursor : forall k c, subscription_cursors st !! k = Some c -> cursor_wf c;
}.

Lemma mem_new_wf : store_wf mem_new.
Proof. split; cbn; [lia | set_solver ..]. Qed.

Lemma ledger_wf_app l part data :
  ledger_wf l -> ledger_wf (add_entry_in_place l part data).2.
Proof.
  intros Hwf i m; cbn; intros [Hi|[? Hi]]%lookup_app_Some; [by apply Hwf |].
  apply list_lookup_singleton_Some in Hi as [? <-]; cbn; split; [done | f_equal; lia].
Qed.

Lemma ledger_lookup_id l id d :
  ledger_wf l -> (id, d) ∈ ml_entries l -> ml_entries l !! Z.to_nat (entry id) = Some (id, d).
Proof.
  intros Hwf (i & Hi)%list_elem_of_lookup; destruct (Hwf _ _ Hi) as [_ He]; cbn in He.
  rewrite He, Nat2Z.id; done.
Qed.

Lemma factory_get_spec f topic l id m :
  ledgers f !! topic = Some l -> ledger_wf l ->
  factory_get_message_by_id f topic id = Some m <-> m.1 = id /\ m ∈ ml_entries l.
Proof.
  intros Hl Hwf; unfold factory_get_message_by_id, factory_messages; rewrite Hl; cbn.
  assert (find (fun m : message => bool_decide (m.1 = id)) (ml_entries l) = Some m ->
          m.1 = id /\ m ∈ ml_entries l) as Hfind.
  { intros [Hin Hb]%find_some; apply bool_decide_eq_true in Hb; split; [done |].
    by apply list_elem_of_In. }
  destruct (ml_entries l !! Z.to_nat (entry id)) as [[sid data]|] eqn:E;
    [case_bool_decide as Hs|]; split; auto.
  - intros [= <-]; split; [done | by eapply list_elem_of_lookup_2].
  - destruct m as [id' d]; cbn; intros [-> Hin]; subst.
    apply ledger_lookup_id in Hin; auto; congruence.
  - destruct m as [id' d]; cbn; intros [-> Hin].
    apply ledger_lookup_id in Hin; auto; congruence.
  - destruct m as [id' d]; cbn; intros [-> Hin].
    apply ledger_lookup_id in Hin; auto; congruence.
Qed.

(** The ledger an operation on [topic] works with. *)
Lemma ensure_ledger_spec f topic l f' :
  ensure_ledger f topic = (l, f') ->
  ledgers f' = <[topic := l]> (ledgers f) /\
  (ledgers f !! topic = Some l /\ f' = f \/
   ledgers f !! topic = None /\ l = mkMemLedger topic (next_ledger_id f) [] /\
   next_ledger_id f' = wrap_u64 (next_ledger_id f + 1)).
Proof.
  unfold ensure_ledger; destruct (ledgers f !! topic) eqn:E; intros [= <- <-]; cbn.
  - split; [by rewrite insert_id | by left].
  - split; [done | by right].
Qed.

Lemma append_entry_spec st topic part data id f' :
  store_wf st -> next_ledger_id (factory st) < U64_MAX ->
  append_entry (factory st) topic part data = (id, f') ->
  exists l,
    ledgers f' = <[topic := l]> (ledgers (factory st)) /\ ledger_wf l /\
    ml_entries l = mem_messages st topic ++ [(id, data)] /\
    id = mkMsgId (ml_ledger_id l) (Z.of_nat (length (mem_messages st topic))) part /\
    0 <= ml_ledger_id l < next_ledger_id f' /\
    next_ledger_id (factory st) <= next_ledger_id f' /\
    (forall t l', ledgers (factory st) !! t = Some l' ->
       ml_ledger_id l' = ml_ledger_id l -> t = topic).
Proof.
  intros Hst Hmax; unfold append_entry.
  destruct (ensure_ledger (factory st) topic) as [l f] eqn:E; cbn; intros [= <- <-].
  apply ensure_ledger_spec in E as [Hl [[Hin ->]|(Hnone & -> & Hnext)]]; cbn.
  - destruct (sw_ledger _ Hst _ _ Hin) as [Hwf Hid].
    exists (add_entry_in_place l part data).2.
    unfold mem_messages, factory_messages; rewrite Hin; cbn; split_and!; try done; try lia.
    + by apply ledger_wf_app.
    + intros t l' Hl' ?; by eapply (sw_distinct _ Hst).
  - pose proof (sw_next _ Hst) as H0; rewrite wrap_u64_id in Hnext by mlia.
    exists (add_entry_in_place (mkMemLedger topic (next_ledger_id (factory st)) []) part data).2.
    unfold mem_messages, factory_messages; rewrite Hnone; cbn; split_and!; try done; try lia.
    + by rewrite Hl, insert_insert_eq.
    + apply (ledger_wf_app (mkMemLedger topic (next_ledger_id (factory st)) [])).
      intros i m Hm; cbn in Hm; by rewrite lookup_nil in Hm.
    + intros t l' Hl' Heq; destruct (sw_ledger _ Hst _ _ Hl'); lia.
Qed.

(** The id of an appended message was not in use in any topic. *)
Lemma append_entry_fresh st topic part data id f' t d :
  store_wf st -> next_ledger_id (factory st) < U64_MAX ->
  append_entry (factory st) topic part data = (id, f') -> (id, d) ∉ mem_messages st t.
Proof.
  intros Hst Hmax Happ Hin.
  destruct (append_entry_spec _ _ _ _ _ _ Hst Hmax Happ)
    as (l & _ & _ & _ & Hid & _ & _ & Hdist).
  unfold mem_messages, factory_messages in Hin.
  destruct (ledgers (factory st) !! t) as [l'|] eqn:Hl'; cbn in Hin; [|set_solver].
  destruct (sw_ledger _ Hst _ _ Hl') as [Hwf' _].
  pose proof (ledger_lookup_id _ _ _ Hwf' Hin) as Hi.
  destruct (Hwf' _ _ Hi) as [Hled _]; cbn in Hled.
  assert (t = topic) as -> by (eapply Hdist; [done | by rewrite <- Hled, Hid]).
  apply lookup_lt_Some in Hi; rewrite Hid in Hi; cbn in Hi.
  unfold mem_messages, factory_messages in Hi; rewrite Hl' in Hi; cbn in Hi; lia.
Qed.

Lemma append_entry_no_metadata st topic part data id f' :
  store_wf st -> next_ledger_id (factory st) < U64_MAX ->
  append_entry (factory st) topic part data = (id, f') -> entry_metadata st !! id = None.
Proof.
  intros Hst Hmax Happ.
  destruct (entry_metadata st !! id) as [v|] eqn:Hm; [exfalso | done].
  destruct (sw_meta _ Hst _ _ Hm) as (t & l' & d & Hl' & Hin).
  apply (append_entry_fresh _ _ _ _ _ _ t d Hst Hmax Happ).
  unfold mem_messages, factory_messages; by rewrite Hl'.
Qed.

(** Appending preserves the invariant, whatever metadata goes with it. *)
Lemma append_store_wf st topic part data id f' meta' :
  store_wf st -> next_ledger_id (factory st) < U64_MAX ->
  append_entry (factory st) topic part data = (id, f') ->
  meta' = entry_metadata st \/ (exists v, meta' = <[id := v]> (entry_metadata st)) ->
  store_wf (mkMemStore f' (cursors st) (subscription_cursors st) meta').
Proof.
  intros Hst Hmax Happ Hmeta.
  destruct (append_entry_spec _ _ _ _ _ _ Hst Hmax Happ)
    as (l & Hl & Hwf & Hents & Hid & Hlid & Hnext & Hdist).
  pose proof (sw_next _ Hst).
  split; cbn; rewrite ?Hl; [lia | | | | apply (sw_cursor _ Hst)].
  - intros t l'; rewrite lookup_insert; case_decide; [intros; by simplify_eq |].
    intros Hl'; destruct (sw_ledger _ Hst _ _ Hl') as [? ?]; split; [done | lia].
  - intros t1 t2 l1 l2; rewrite !lookup_insert; repeat case_decide; intros; simplify_eq; auto.
    + symmetry; by eapply Hdist.
    + by eapply Hdist.
    + by eapply (sw_distinct _ Hst).
  - intros id' v Hv.
    assert (id' = id \/ entry_metadata st !! id' = Some v) as [->|Hold].
    { destruct Hmeta as [->|[w ->]]; [by right |].
      rewrite lookup_insert in Hv; case_decide; auto. }
    + exists topic, l, data; rewrite lookup_insert_eq, Hents; set_solver.
    + destruct (sw_meta _ Hst _ _ Hold) as (t & l' & d & Hl' & Hin).
      destruct (decide (t = topic)) as [->|].
      * exists topic, l, d; rewrite lookup_insert_eq, Hents; split; [done |].
        unfold mem_messages, factory_messages; rewrite Hl'; cbn; set_solver.
      * exists t, l', d; by rewrite lookup_insert_ne.
Qed.

Lemma mem_messages_append st topic part meta data id st' :
  store_wf st -> next_ledger_id (factory st) < U64_MAX ->
  mem_append_message_with_metadata st topic part meta data = (id, st') ->
  store_wf st' /\ mem_messages st' topic = mem_messages st topic ++ [(id, data)] /\
  entry id = Z.of_nat (length (mem_messages st topic)) /\
  (forall t, t <> topic -> mem_messages st' t = mem_messages st t) /\
  entry_metadata st' !! id = match meta with [] => None | _ => Some meta end /\
  (forall id', id' <> id -> entry_metadata st' !! id' = entry_metadata st !! id').
Proof.
  intros Hst Hmax; unfold mem_append_message_with_metadata.
  destruct (append_entry (factory st) topic part data) as [i f'] eqn:Happ; intros [= -> <-].
  pose proof (append_entry_no_metadata _ _ _ _ _ _ Hst Hmax Happ) as Hfresh.
  destruct (append_entry_spec _ _ _ _ _ _ Hst Hmax Happ)
    as (l & Hl & _ & Hents & Hid & _).
  split_and!; cbn.
  - eapply append_store_wf; eauto. destruct meta; eauto.
  - unfold mem_messages at 1, factory_messages; cbn; by rewrite Hl, lookup_insert_eq.
  - by rewrite Hid.
  - intros t Ht; unfold mem_messages, factory_messages; cbn; by rewrite Hl, lookup_insert_ne.
  - destruct meta; [done | apply lookup_insert_eq].
  - intros id' Hne; destruct meta; [done | by apply lookup_insert_ne].
Qed.

Lemma mem_get_entry_spec st topic id r :
  store_wf st ->
  mem_get_message_entry_by_id st topic id = Some r <->
  exists d, (id, d) ∈ mem_messages st topic /\ r = stored_message st (id, d).
Proof.
  intros Hst; unfold mem_get_message_entry_by_id, mem_get_message_by_id, mem_messages.
  rewrite fmap_Some; unfold factory_messages.
  destruct (ledgers (factory st) !! topic) as [l|] eqn:Hl; cbn.
  - destruct (sw_ledger _ Hst _ _ Hl) as [Hwf _].
    setoid_rewrite (factory_get_spec _ _ _ _ _ Hl Hwf).
    split; [intros ([id' d] & [Heq ?] & ->); cbn in Heq; subst; eauto | intros (d & ? & ->); exists (id, d); auto].
  - unfold factory_get_message_by_id, factory_messages; rewrite Hl; cbn; set_solver.
Qed.

(** The messages of one topic: one ledger, entry ids are the indices. *)
Definition messages_indexed (messages : list message) : Prop :=
  exists lid, forall i m, messages !! i = Some m -> ledger m.1 = lid /\ entry m.1 = Z.of_nat i.

Lemma mem_messages_indexed st topic : store_wf st -> messages_indexed (mem_messages st topic).
Proof.
  intros Hst; unfold mem_messages, factory_messages.
  destruct (ledgers (factory st) !! topic) as [l|] eqn:Hl; cbn.
  - destruct (sw_ledger _ Hst _ _ Hl) as [Hwf _]; by exists (ml_ledger_id l).
  - exists 0; intros i m Hm; by rewrite lookup_nil in Hm.
Qed.

Lemma messages_indexed_tail_from k lid (messages : list message) :
  (forall i m, messages !! i = Some m -> ledger m.1 = lid /\ entry m.1 = Z.of_nat (k + i)) ->
  forall i id d, messages !! i = Some (id, d) ->
  positions_before messages (position_of_message_id id) =
    (fun m : message => position_of_message_id m.1) <$> take i messages.
Proof.
  revert k; induction messages as [|[id0 d0] ms IH]; intros k Hwf i id d Hi;
    [by rewrite lookup_nil in Hi |].
  destruct (Hwf _ _ Hi) as [Hl He], (Hwf 0%nat _ eq_refl) as [Hl0 He0]; cbn in *.
  unfold position_cmp; cbn; rewrite Hl, Hl0, He, He0, Z.compare_refl.
  destruct i as [|i]; cbn in *; simplify_eq.
  - rewrite !Z.compare_refl; done.
  - replace (_ ?= _) with Lt by (symmetry; apply Z.compare_lt_iff; lia).
    cbn; f_equal; apply (IH (S k)) with (d := d); auto.
    intros j m Hj; destruct (Hwf (S j) m Hj); split; [done | lia].
Qed.

Lemma positions_before_take (messages : list message) i id d :
  messages_indexed messages -> messages !! i = Some (id, d) ->
  positions_before messages (position_of_message_id id) =
    (fun m : message => position_of_message_id m.1) <$> take i messages.
Proof. intros [lid Hwf] Hi; by apply (messages_indexed_tail_from 0 lid _ Hwf i id d). Qed.

(** The entry id [take_while(..).last()] finds when seeking to message [i]. *)
Lemma seek_previous (messages : list message) i id d :
  messages_indexed messages -> messages !! i = Some (id, d) ->
  entry_id <$> last (positions_before messages (position_of_message_id id)) =
  match i with O => None | S j => Some (Z.of_nat j) end.
Proof.
  intros Hwf Hi; rewrite (positions_before_take _ _ _ _ Hwf Hi), fmap_last.
  destruct i as [|j]; [done |].
  destruct (lookup_lt_is_Some_2 messages j) as [[id' d'] Hj];
    [apply lookup_lt_Some in Hi; lia |].
  rewrite (take_S_r _ _ _ Hj), last_snoc; cbn.
  destruct Hwf as [lid Hwf]; destruct (Hwf _ _ Hj) as [_ He]; cbn in He; by rewrite He.
Qed.

(** When exactly the entries below [i] are acknowledged, message [i] is first. *)
Lemma first_unacked_at (messages : list message) is_acked i id d :
  messages_indexed messages -> messages !! i = Some (id, d) ->
  (forall m, m ∈ messages -> is_acked m.1 = (entry m.1 <? Z.of_nat i)) ->
  first_unacked_from_messages messages is_acked = Some (position_of_message_id id).
Proof.
  intros [lid Hwf] Hi Hack; apply first_unacked_spec.
  exists i, id, d; split_and!; auto.
  - pose proof (Hack (id, d) ltac:(by eapply list_elem_of_lookup_2)) as Ha; cbn in Ha.
    destruct (Hwf _ _ Hi) as [_ He]; cbn in *; rewrite Ha; lia.
  - intros j m Hj Hm; rewrite Hack by by eapply list_elem_of_lookup_2.
    destruct (Hwf _ _ Hm) as [_ He]; lia.
Qed.

Lemma drop_at_or_after lid k (messages : list message) i from :
  (forall j m, messages !! j = Some m -> ledger m.1 = lid /\ entry m.1 = Z.of_nat (k + j)) ->
  ledger_id from = lid -> entry_id from = Z.of_nat (k + i) ->
  filter (fun m => at_or_after from m = true) messages = drop i messages.
Proof.
  revert k i; induction messages as [|m ms IH]; intros k i Hwf Hl He; [by destruct i |].
  destruct (Hwf 0%nat _ eq_refl) as [Hl0 He0].
  assert (at_or_after from m = (Z.of_nat (k + i) <=? Z.of_nat k)) as Hm.
  { unfold at_or_after, position_at_or_after; cbn.
    by rewrite Hl0, Hl, Z.compare_refl, He, He0, Nat.add_0_r. }
  assert (forall j m', ms !! j = Some m' -> ledger m'.1 = lid /\ entry m'.1 = Z.of_nat (S k + j))
    as Hwf'.
  { intros j m' Hj; destruct (Hwf (S j) m' Hj); split; [done | lia]. }
  destruct i as [|i].
  - rewrite filter_cons_True by (cbv beta; rewrite Hm; apply Z.leb_le; lia); cbn; f_equal.
    apply list_filter_id. intros m' Hm'; apply list_elem_of_lookup in Hm' as [j Hj].
    destruct (Hwf' _ _ Hj) as [Hlj Hej]; unfold at_or_after, position_at_or_after; cbn.
    rewrite Hlj, Hl, Z.compare_refl, He, Hej; apply Z.leb_le; lia.
  - rewrite filter_cons_False by (cbv beta; rewrite Hm, Z.leb_le; lia); cbn; apply (IH (S k)); auto; lia.
Qed.

(** What a seek to the [i]-th message leaves acknowledged. *)
Lemma seek_is_acknowledged st topic sub shared i id d id' :
  store_wf st -> mem_messages st topic !! i = Some (id, d) -> Z.of_nat i <= U64_MAX ->
  0 <= entry id' ->
  is_acknowledged_inner (mem_seek_cursor st topic sub id shared) topic sub id' =
  (entry id' <? Z.of_nat i).
Proof.
  intros Hst Hi Hmax Hid'.
  pose proof (seek_previous _ _ _ _ (mem_messages_indexed st topic Hst) Hi) as Hprev.
  unfold mem_seek_cursor, is_acknowledged_inner; destruct shared; cbn.
  - rewrite lookup_insert_eq; cbn; rewrite Hprev, orb_false_r.
    destruct i as [|j]; zbool.
  - rewrite lookup_delete_eq, lookup_insert_eq; cbn.
    destruct (last _) as [p|]; destruct i as [|j]; simplify_eq/=; [|zbool].
    rewrite Hprev; zbool.
Qed.

Lemma cursor_exists_false st key :
  cursor_exists st key = false ->
  cursors st !! key = None /\ subscription_cursors st !! key = None.
Proof.
  intros [Hc Hs]%orb_false_elim; apply bool_decide_eq_false in Hc, Hs.
  by rewrite !eq_None_not_Some.
Qed.

Lemma set_cursor_wf st key mark : store_wf st -> store_wf (set_cursor st key mark).
Proof. intros []; by split. Qed.

Lemma apply_latest_mark st key topic :
  store_wf st -> cursors st !! key = None ->
  apply_latest_exclusive st key topic =
  set_cursor st key (match length (mem_messages st topic) with
                     | O => U64_MAX | S n => Z.of_nat n end).
Proof.
  intros Hst Hc; unfold apply_latest_exclusive, last_position_from_messages,
    ensure_exclusive_cursor; rewrite Hc.
  destruct (mem_messages_indexed st topic Hst) as [lid Hidx].
  rewrite last_lookup; destruct (mem_messages st topic) as [|m ms] eqn:E; [done |].
  rewrite <- E in *; cbn [length pred].
  destruct (lookup_lt_is_Some_2 (mem_messages st topic) (length ms)) as [[id d] Hi];
    [rewrite E; cbn; lia |].
  replace (pred (length (mem_messages st topic))) with (length ms) by (rewrite E; done).
  rewrite Hi; destruct (Hidx _ _ Hi) as [_ He]; cbn in *; rewrite He, E; done.
Qed.

Lemma is_acknowledged_exclusive st st' topic sub id key mark :
  cursors st' = cursors (set_cursor st key mark) ->
  subscription_cursors st' = subscription_cursors (set_cursor st key mark) ->
  key = cursor_subscription_key topic sub ->
  subscription_cursors st !! key = None ->
  is_acknowledged_inner st' topic sub id = negb (mark =? U64_MAX) && (entry id <=? mark).
Proof.
  intros Hc Hs -> Hn; unfold is_acknowledged_inner; rewrite Hc, Hs; cbn.
  by rewrite Hn, lookup_insert_eq.
Qed.

(** ** Properties *)

(** appending a message gives it the next entry id of its topic, stores it
    at the end of that topic's log and nowhere else, makes it readable with
    exactly the given metadata and payload, leaves every earlier message
    readable unchanged, and preserves the store's invariant. *)
Theorem mem_append_roundtrip (st : InMemoryManagedLedgerStorage) (topic : string)
    (part : Z) (meta data : list Z) :
  store_wf st -> next_ledger_id (factory st) < U64_MAX ->
  let '(id, st') := mem_append_message_with_metadata st topic part meta data in
  store_wf st' /\
  entry id = Z.of_nat (length (mem_messages st topic)) /\
  mem_messages st' topic = mem_messages st topic ++ [(id, data)] /\
  (forall t, t <> topic -> mem_messages st' t = mem_messages st t) /\
  mem_get_message_entry_by_id st' topic id = Some (mkStored id meta data) /\
  (forall t id' r, mem_get_message_entry_by_id st t id' = Some r ->
     mem_get_message_entry_by_id st' t id' = Some r).
Proof.
  intros Hst Hmax.
  destruct (mem_append_message_with_metadata st topic part meta data) as [id st'] eqn:E.
  destruct (mem_messages_append _ _ _ _ _ _ _ Hst Hmax E)
    as (Hst' & Hmsgs & Hentry & Hother & Hmeta & Hkeep); split_and!; auto.
  - apply mem_get_entry_spec; auto; exists data; split; [rewrite Hmsgs; set_solver |].
    unfold stored_message; cbn; rewrite Hmeta; by destruct meta.
  - intros t id' r; rewrite !mem_get_entry_spec by done; intros (d & Hin & ->).
    exists d; split.
    { destruct (decide (t = topic)) as [->|]; [rewrite Hmsgs; set_solver | by rewrite Hother]. }
    unfold stored_message; cbn; rewrite Hkeep; [done |]; intros ->.
    unfold mem_append_message_with_metadata in E.
    destruct (append_entry (factory st) topic part data) as [id0 f'] eqn:Happ; simplify_eq.
    by apply (append_entry_fresh _ _ _ _ _ _ t d Hst Hmax Happ).
Qed.

Definition example_store : InMemoryManagedLedgerStorage :=
  foldl (fun st d => (mem_append_message_with_metadata st "persistent://t/n/a" (-1) [d] [d; d]).2)
    mem_new [1; 2; 3; 4; 5].

Lemma example_store_wf : store_wf example_store.
Proof.
  unfold example_store; cbn [foldl].
  assert (forall st d, store_wf st /\ next_ledger_id (factory st) <= 1 ->
    let st' := (mem_append_message_with_metadata st "persistent://t/n/a" (-1) [d] [d; d]).2 in
    next_ledger_id (factory st') <= 1 -> store_wf st' /\ next_ledger_id (factory st') <= 1) as H.
  { intros st d [Hst Hn]; cbn zeta.
    destruct (mem_append_message_with_metadata st _ _ _ _) as [id st'] eqn:E; cbn.
    intros; split; [|done].
    by eapply (mem_messages_append _ _ _ _ _ _ _ Hst ltac:(mlia) E). }
  do 5 (apply H; [|by vm_compute]); split; [apply mem_new_wf | by vm_compute].
Qed.

Lemma mem_append_roundtrip_witness :
  store_wf example_store /\
  let '(id, st') := mem_append_message_with_metadata example_store "persistent://t/n/b" 0 [] [9] in
  store_wf st' /\ entry id = 0 /\
  mem_messages st' "persistent://t/n/b" = mem_messages example_store "persistent://t/n/b" ++ [(id, [9])] /\
  (forall t, t <> "persistent://t/n/b"%string -> mem_messages st' t = mem_messages example_store t) /\
  mem_get_message_entry_by_id st' "persistent://t/n/b" id = Some (mkStored id [] [9]) /\
  (forall t id' r, mem_get_message_entry_by_id example_store t id' = Some r ->
     mem_get_message_entry_by_id st' t id' = Some r).
Proof.
  split; [apply example_store_wf |].
  apply (mem_append_roundtrip example_store "persistent://t/n/b" 0 [] [9] example_store_wf).
  by vm_compute.
Defined.

(** After a seek to a stored message (shared or exclusive) that message is
    the first unacknowledged one: delivery resumes exactly there. *)
Theorem mem_seek_resumes_at (st : InMemoryManagedLedgerStorage) (topic sub : string)
    (shared : bool) (i : nat) (id : MessageId) (d : list Z) :
  store_wf st -> Z.of_nat (length (mem_messages st topic)) <= U64_MAX ->
  mem_messages st topic !! i = Some (id, d) ->
  mem_first_unacked_position (mem_seek_cursor st topic sub id shared) topic sub =
  Some (position_of_message_id id).
Proof.
  intros Hst Hmax Hi; pose proof (lookup_lt_Some _ _ _ Hi).
  assert (mem_messages (mem_seek_cursor st topic sub id shared) topic = mem_messages st topic)
    as Hm by (unfold mem_seek_cursor; by destruct shared).
  pose proof (mem_messages_indexed st topic Hst) as Hidx.
  unfold mem_first_unacked_position; rewrite Hm.
  apply (first_unacked_at _ _ i id d Hidx Hi); intros m Hin.
  apply (seek_is_acknowledged st topic sub shared i id d); auto; [lia |].
  apply list_elem_of_lookup in Hin as [j Hj]; destruct Hidx as [lid Hidx].
  destruct (Hidx _ _ Hj) as [_ ->]; lia.
Qed.

Lemma mem_seek_resumes_at_witness :
  mem_first_unacked_position
    (mem_seek_cursor example_store "persistent://t/n/a" "s" (mkMsgId 0 3 (-1)) true)
    "persistent://t/n/a" "s" = Some (mkPos 0 3 (-1)).
Proof.
  apply (mem_seek_resumes_at example_store "persistent://t/n/a" "s" true 3
           (mkMsgId 0 3 (-1)) [4; 4] example_store_wf); by vm_compute.
Defined.

(** opening a new subscription at the latest position acknowledges every
    stored message and nothing that is appended afterwards: the next message
    is the first unacknowledged one. *)
Theorem mem_latest_subscription_sees_next (st : InMemoryManagedLedgerStorage)
    (topic sub : string) (part : Z) (meta data : list Z) :
  store_wf st -> next_ledger_id (factory st) < U64_MAX ->
  Z.of_nat (length (mem_messages st topic)) <= U64_MAX ->
  cursor_exists st (cursor_subscription_key topic sub) = false ->
  let '(r, st1) := mem_initialize_or_open_cursor st topic sub (mkCursorInit Latest None) in
  let '(id, st2) := mem_append_message_with_metadata st1 topic part meta data in
  r = mkCursorOpen true None /\
  mem_first_unacked_position st2 topic sub = Some (position_of_message_id id).
Proof.
  intros Hst Hmax Hlen Hnew; unfold mem_initialize_or_open_cursor; rewrite Hnew.
  cbn [start_message_id initial_position]; rewrite decide_True by done.
  destruct (cursor_exists_false _ _ Hnew) as [Hc Hs].
  rewrite apply_latest_mark by done.
  set (st1 := set_cursor st _ _).
  assert (store_wf st1) as Hst1 by by apply set_cursor_wf.
  destruct (mem_append_message_with_metadata st1 topic part meta data) as [id st2] eqn:E.
  destruct (mem_messages_append _ _ _ _ _ _ _ Hst1 Hmax E) as (Hst2 & Hmsgs & Hentry & _).
  assert (forall st' id', cursors st' = cursors st1 ->
    subscription_cursors st' = subscription_cursors st1 -> 0 <= entry id' ->
    is_acknowledged_inner st' topic sub id' =
    (entry id' <? Z.of_nat (length (mem_messages st topic)))) as Hack.
  { intros st' id' Hc' Hs' ?; rewrite (is_acknowledged_exclusive _ _ _ _ _ _ _ Hc' Hs' eq_refl Hs).
    destruct (length (mem_messages st topic)); zbool. }
  split.
  - f_equal; apply first_unacked_none; intros m Hm.
    destruct (mem_messages_indexed st1 topic Hst1) as [lid Hidx].
    apply list_elem_of_lookup in Hm as [j Hj]; destruct (Hidx _ _ Hj) as [_ He].
    apply lookup_lt_Some in Hj; change (mem_messages st1 topic) with (mem_messages st topic) in Hj.
    rewrite Hack by (done || lia); apply Z.ltb_lt; lia.
  - unfold mem_first_unacked_position; rewrite Hmsgs.
    apply (first_unacked_at _ _ (length (mem_messages st topic)) id data).
    + rewrite <- Hmsgs; by apply mem_messages_indexed.
    + by rewrite lookup_app_r, Nat.sub_diag by done.
    + intros m Hm; destruct (mem_messages_indexed st2 topic Hst2) as [lid Hidx].
      rewrite <- Hmsgs in Hm; apply list_elem_of_lookup in Hm as [j Hj].
      destruct (Hidx _ _ Hj) as [_ He]; apply Hack; [| |lia];
        unfold mem_append_message_with_metadata in E;
        destruct (append_entry _ _ _ _); by simplify_eq.
Qed.

Lemma mem_latest_subscription_sees_next_witness :
  let '(r, st1) := mem_initialize_or_open_cursor example_store "persistent://t/n/a" "s"
                     (mkCursorInit Latest None) in
  let '(id, st2) := mem_append_message_with_metadata st1 "persistent://t/n/a" (-1) [] [7] in
  r = mkCursorOpen true None /\
  mem_first_unacked_position st2 "persistent://t/n/a" "s" = Some (position_of_message_id id).
Proof.
  apply (mem_latest_subscription_sees_next example_store "persistent://t/n/a" "s" (-1) [] [7]
           example_store_wf); by vm_compute.
Defined.

(** a read from a stored message returns that message and its successors
    in order with their metadata, [limit] of them at most (one for a limit of
    zero). *)
Theorem mem_read_entries_window (st : InMemoryManagedLedgerStorage) (topic : string)
    (i limit : nat) (id : MessageId) (d : list Z) :
  store_wf st -> mem_messages st topic !! i = Some (id, d) ->
  mem_read_entries_from st topic (position_of_message_id id) limit =
  stored_message st <$> take (Nat.max 1 limit) (drop i (mem_messages st topic)).
Proof.
  intros Hst Hi; unfold mem_read_entries_from, mem_read_from.
  destruct (mem_messages_indexed st topic Hst) as [lid Hidx].
  destruct (Hidx _ _ Hi) as [Hl He]; rewrite read_from_messages_spec.
  by rewrite (drop_at_or_after lid 0 _ i (position_of_message_id id) Hidx Hl He).
Qed.

Lemma mem_read_entries_window_witness :
  mem_read_entries_from example_store "persistent://t/n/a" (mkPos 0 1 (-1)) 2 =
  stored_message example_store <$>
    take 2 (drop 1 (mem_messages example_store "persistent://t/n/a")).
Proof.
  apply (mem_read_entries_window example_store "persistent://t/n/a" 1 2
           (mkMsgId 0 1 (-1)) [2; 2] example_store_wf); by vm_compute.
Defined.

(** shared acknowledgements do not start from the position the
    subscription was opened at.  A subscription opened at the latest position
    of a non-empty topic has every stored message acknowledged; acknowledging
    the next message through the shared path replaces that by a fresh cursor,
    and the old messages become unacknowledged again. *)
Theorem mem_shared_ack_forgets_initial_position :
  exists (st : InMemoryManagedLedgerStorage) (topic sub : string) (old id : MessageId),
    store_wf st /\
    let st1 := (mem_initialize_or_open_cursor st topic sub (mkCursorInit Latest None)).2 in
    is_acknowledged_inner st1 topic sub old = true /\
    let st2 := (mem_append_message_with_metadata st1 topic (-1) [] [9]).2 in
    is_acknowledged_inner st2 topic sub old = true /\
    is_acknowledged_inner (mem_ack_message_shared st2 topic sub id) topic sub old = false /\
    mem_first_unacked_position (mem_ack_message_shared st2 topic sub id) topic sub =
      Some (position_of_message_id old).
Proof.
  exists example_store, "persistent://t/n/a"%string, "s"%string, (mkMsgId 0 0 (-1)),
    (mkMsgId 0 5 (-1)).
  split; [apply example_store_wf | by vm_compute].
Qed.
