(* ===== verification/LedgerInfo.v ===== *)
(** * Ledger metadata and the durable cursor

    [storage/managed-ledger-rocksdb/src/metadata.rs] (ledger and cursor
    metadata) and [cursor.rs] (positions across ledgers, acknowledgements of
    the durable cursor). *)

From S2P Require Import Prelude Position BTree RangeSet.

Record StoredLedgerInfo := mkLedgerInfo {
  li_ledger_id : Z;
  li_entries : Z;
  li_size : Z;
  li_timestamp : Z;
  li_is_offloaded : bool;
  li_offloaded_context_uuid : option string;
}.

Definition ledger_info_new (id : Z) : StoredLedgerInfo :=
  mkLedgerInfo id 0 0 0 false None.

Record StoredManagedLedgerInfo := mkInfo { info_ledgers : list StoredLedgerInfo }.

Definition managed_info_new (id : Z) : StoredManagedLedgerInfo :=
  mkInfo [ledger_info_new id].

(** [current_ledger_mut] is the last ledger; updating it is [update_last]. *)
Fixpoint update_last {A} (f : A -> A) (l : list A) : list A :=
  match l with
  | [] => []
  | [x] => [f x]
  | x :: l => x :: update_last f l
  end.

Definition ensure_initialized (i : StoredManagedLedgerInfo) (id : Z) :=
  match info_ledgers i with
  | [] => mkInfo [ledger_info_new id]
  | _ => i
  end.

(** Panics ([None]) when no ledger is initialised, as [expect] does. *)
Definition current_ledger_is_full (i : StoredManagedLedgerInfo) (max_entries : Z)
  : option bool :=
  (fun l => max_entries <=? li_entries l) <$> last (info_ledgers i).

Definition set_timestamp (now : Z) (l : StoredLedgerInfo) :=
  mkLedgerInfo (li_ledger_id l) (li_entries l) (li_size l) now
    (li_is_offloaded l) (li_offloaded_context_uuid l).

(** [now] is the current time in milliseconds. *)
Definition roll_over_current_ledger (i : StoredManagedLedgerInfo) (next_id now : Z) :=
  mkInfo (update_last (set_timestamp now) (info_ledgers i) ++ [ledger_info_new next_id]).

(** ** Cursor state *)

Record ManagedCursorState := mkCursorState {
  cs_mark_delete : option ManagedLedgerPosition;
  individually_deleted_entries : list (ManagedLedgerPosition * ManagedLedgerPosition);
}.

Definition default_cursor_state : ManagedCursorState := mkCursorState None [].

#[global] Instance position_cmp_inst : Cmp ManagedLedgerPosition := position_cmp.

Definition cursor_position (p : ManagedLedgerPosition) : ManagedLedgerPosition :=
  mkPos (ledger_id p) (entry_id p) (-1).

(** The [ManagedCursor] operations, without the write to the database. *)
Definition cursor_mark_delete (s : ManagedCursorState) (p : ManagedLedgerPosition) :=
  mkCursorState (Some (cursor_position p)) (individually_deleted_entries s).

Definition cursor_delete_individual (s : ManagedCursorState) (p : ManagedLedgerPosition) :=
  mkCursorState (cs_mark_delete s)
    (insert_pos (individually_deleted_entries s) (cursor_position p)).

Definition reset_cursor (s : ManagedCursorState) (p : option ManagedLedgerPosition) :=
  mkCursorState (cursor_position <$> p) [].

Definition is_managed_position_acknowledged (s : ManagedCursorState)
    (p : ManagedLedgerPosition) : bool :=
  let p := cursor_position p in
  match cs_mark_delete s with Some m => key_leb p m | None => false end
  || contains (individually_deleted_entries s) p.

Definition first_position (i : StoredManagedLedgerInfo) (part : Z)
  : option ManagedLedgerPosition :=
  (fun l => mkPos (li_ledger_id l) 0 part) <$>
    List.find (fun l => 0 <? li_entries l) (info_ledgers i).

Definition next_position (p : ManagedLedgerPosition) (i : StoredManagedLedgerInfo)
  : option ManagedLedgerPosition :=
  match List.find (fun l => li_ledger_id l =? ledger_id p) (info_ledgers i) with
  | None => None
  | Some current =>
      if wrap_u64 (entry_id p + 1) <? li_entries current
      then Some (mkPos (ledger_id p) (wrap_u64 (entry_id p + 1)) (partition p))
      else
        (fun l => mkPos (li_ledger_id l) 0 (partition p)) <$>
          List.find (fun l => (ledger_id p <? li_ledger_id l) && (0 <? li_entries l))
            (info_ledgers i)
  end.

(** The loop that advances the frontier; each turn consumes one range. *)
Fixpoint managed_advance_loop (fuel : nat) (s : ManagedCursorState)
    (i : StoredManagedLedgerInfo) : ManagedCursorState :=
  match fuel with
  | O => s
  | S fuel =>
      match cs_mark_delete s with
      | None => s
      | Some mark =>
          match next_position mark i with
          | None => s
          | Some next =>
              match take_covering (individually_deleted_entries s) next with
              | (Some e, holes) =>
                  managed_advance_loop fuel
                    (cursor_mark_delete (mkCursorState (cs_mark_delete s) holes) e) i
              | (None, holes) => mkCursorState (cs_mark_delete s) holes
              end
          end
      end
  end.

Definition ack_managed_cursor_shared (s : ManagedCursorState) (p : ManagedLedgerPosition)
    (i : StoredManagedLedgerInfo) : ManagedCursorState :=
  let p := cursor_position p in
  if is_managed_position_acknowledged s p then s
  else
    let s :=
      match cs_mark_delete s with
      | None =>
          if decide (Some p = first_position i (partition p))
          then cursor_mark_delete s p
          else cursor_delete_individual s p
      | Some mark =>
          if decide (Some p = next_position mark i) then cursor_mark_delete s p
          else if key_ltb mark p then cursor_delete_individual s p
          else s
      end in
    managed_advance_loop (length (individually_deleted_entries s)) s i.

(** ** Order of the positions a managed ledger holds *)

Definition cursor_key_rank (p : ManagedLedgerPosition) : Z :=
  ledger_id p * 18446744073709551616 + entry_id p.

(** Cursor positions all carry partition [-1]; [Succ] is then the successor of
    the rank. *)
Definition cursor_key_ok (p : ManagedLedgerPosition) : Prop :=
  u64_ok (ledger_id p) /\ u64_ok (entry_id p) /\ partition p = -1.

#[global] Instance cursor_pos_rank : Rank ManagedLedgerPosition :=
  {| key_rank := cursor_key_rank; key_ok := cursor_key_ok |}.

#[global] Instance cursor_pos_laws : OrdKeyLaws ManagedLedgerPosition.
Proof.
  split; intros [l e p] [l' e' p'] (? & ? & Hp) (? & ? & Hp'); cbn in *; subst.
  - unfold key_cmp, position_cmp_inst, position_cmp, cursor_key_rank; cbn.
    destruct (Z.compare_spec l l') as [->|?|?];
      [destruct (Z.compare_spec e e') as [->|?|?]; [rewrite !Z.compare_refl; done | |]| |];
      symmetry; rewrite ?Z.compare_lt_iff, ?Z.compare_gt_iff; mlia.
  - unfold cursor_key_rank; cbn; intros ?.
    assert (l = l' /\ e = e') as [-> ->]; [mlia | done].
Qed.

#[global] Instance cursor_pos_succ : SuccLaws ManagedLedgerPosition.
Proof.
  intros [l e p] q (? & ? & ?); unfold succ, succ_position, u64_checked_add; cbn in *.
  case_bool; intros [= <-]; cbn; unfold cursor_key_ok, cursor_key_rank; cbn; mlia.
Qed.

Definition info_wf (i : StoredManagedLedgerInfo) : Prop :=
  StronglySorted (fun a b => li_ledger_id a < li_ledger_id b) (info_ledgers i) /\
  Forall (fun l => u64_ok (li_ledger_id l) /\ u64_ok (li_entries l)) (info_ledgers i).

(** The positions that hold an entry. *)
Definition visible (i : StoredManagedLedgerInfo) (p : ManagedLedgerPosition) : Prop :=
  exists l, l ∈ info_ledgers i /\ li_ledger_id l = ledger_id p /\
            0 <= entry_id p < li_entries l.

Lemma info_ledger_inj i l l' :
  info_wf i -> l ∈ info_ledgers i -> l' ∈ info_ledgers i ->
  li_ledger_id l = li_ledger_id l' -> l = l'.
Proof.
  intros [Hs _]; induction (info_ledgers i) as [|a ls IH]; [set_solver |].
  apply StronglySorted_inv in Hs as [Hs Ha]; rewrite Forall_forall in Ha.
  rewrite !elem_of_cons; intros [->|Hl] [->|Hl'] ?; auto.
  - specialize (Ha _ Hl'); lia.
  - specialize (Ha _ Hl); lia.
Qed.

Lemma visible_ok i p : info_wf i -> visible i p -> u64_ok (ledger_id p) /\ u64_ok (entry_id p).
Proof.
  intros [_ Hok] (l & Hl & Hid & He); eapply Forall_forall in Hok; [|done].
  rewrite <- Hid; mlia.
Qed.

Lemma visible_key_ok i p : info_wf i -> visible i p -> partition p = -1 -> key_ok p.
Proof. intros Hi Hv ?; destruct (visible_ok i p Hi Hv); by split_and!. Qed.

(** The least position that holds an entry. *)
Lemma first_position_spec i part :
  info_wf i ->
  match first_position i part with
  | Some q => visible i q /\ partition q = part /\
      forall r, visible i r -> cursor_key_rank q <= cursor_key_rank r
  | None => forall r, ~ visible i r
  end.
Proof.
  intros [Hs Hok]; unfold first_position.
  pose proof (find_sorted _ (fun l => 0 <? li_entries l) _ Hs) as HF; cbn in HF.
  destruct (List.find _ _) as [l|]; cbn.
  - destruct HF as (Hl & Hpos & Hmin); split_and!; [exists l; split_and!; cbn; auto; lia | done |].
    intros r (l' & Hl' & Hid & He); unfold cursor_key_rank; cbn.
    rewrite Forall_forall in Hok; pose proof (Hok _ Hl); pose proof (Hok _ Hl').
    destruct (Hmin l' Hl' ltac:(apply Z.ltb_lt; lia)) as [->|?]; mlia.
  - intros r (l & Hl & _ & He); specialize (HF l Hl); lia.
Qed.

(** The least position that holds an entry past [p]. *)
Lemma next_position_spec i p :
  info_wf i -> u64_ok (entry_id p) -> entry_id p < U64_MAX ->
  (exists l, l ∈ info_ledgers i /\ li_ledger_id l = ledger_id p) ->
  match next_position p i with
  | Some q => visible i q /\ partition q = partition p /\
      cursor_key_rank p < cursor_key_rank q /\
      forall r, visible i r -> cursor_key_rank p < cursor_key_rank r ->
                cursor_key_rank q <= cursor_key_rank r
  | None => forall r, visible i r -> cursor_key_rank r <= cursor_key_rank p
  end.
Proof.
  intros Hi Hp Hmax (l & Hl & Hid); pose proof Hi as [Hs Hok]; unfold next_position.
  rewrite Forall_forall in Hok; pose proof (Hok _ Hl) as [? ?].
  assert (forall r l', l' ∈ info_ledgers i -> li_ledger_id l' = ledger_id r ->
    li_ledger_id l' = li_ledger_id l -> l' = l) as Hinj.
  { intros r l' Hl' _ ?; by apply (info_ledger_inj i). }
  rewrite wrap_u64_id by mlia.
  pose proof (find_sorted _ (fun x => li_ledger_id x =? ledger_id p) _ Hs) as HF; cbn in HF.
  destruct (List.find _ _) as [c|]; [|specialize (HF l Hl); lia].
  destruct HF as (Hc & Hcid & _); replace c with l in * by (apply (info_ledger_inj i); auto; lia).
  clear Hc Hcid; destruct (Z.ltb_spec (entry_id p + 1) (li_entries l)) as [Hlt|Hge].
  - split_and!; cbn; [exists l; split_and!; cbn; auto; mlia | done | unfold cursor_key_rank; cbn; lia |].
    unfold cursor_key_rank; cbn; lia.
  - pose proof (find_sorted _ (fun x => (ledger_id p <? li_ledger_id x) && (0 <? li_entries x)) _ Hs)
      as HN; cbn in HN.
    destruct (List.find (fun x => (ledger_id p <? _) && _) _) as [n|]; cbn.
    + destruct HN as (Hn & Hnb & Hmin); pose proof (Hok _ Hn).
      split_and!; [exists n; split_and!; cbn; auto; lia | done | unfold cursor_key_rank; cbn; mlia |].
      intros r (l' & Hl' & Hid' & He') Hr; pose proof (Hok _ Hl').
      destruct (decide (li_ledger_id l' = li_ledger_id l)) as [E|E].
      { apply (Hinj r) in E; auto; subst l'; unfold cursor_key_rank in *; cbn in *; mlia. }
      assert (ledger_id p < li_ledger_id l') by (unfold cursor_key_rank in *; mlia).
      destruct (Hmin l' Hl') as [->|?]; [apply andb_true_intro; lia | |];
        unfold cursor_key_rank in *; cbn in *; mlia.
    + intros r (l' & Hl' & Hid' & He'); specialize (HN l' Hl'); pose proof (Hok _ Hl').
      destruct (decide (li_ledger_id l' = li_ledger_id l)) as [E|E].
      { apply (Hinj r) in E; auto; subst l'; unfold cursor_key_rank in *; cbn in *; mlia. }
      unfold cursor_key_rank in *; mlia.
Qed.

(** ** Acknowledgements of the durable cursor *)

(** The position the frontier waits for. *)
Definition expected_position (i : StoredManagedLedgerInfo) (s : ManagedCursorState) :=
  match cs_mark_delete s with
  | Some m => next_position m i
  | None => first_position i (-1)
  end.

Definition mark_rank (s : ManagedCursorState) : Z :=
  match cs_mark_delete s with Some m => cursor_key_rank m | None => -1 end.

Definition managed_acked (s : ManagedCursorState) (p : ManagedLedgerPosition) : Prop :=
  cursor_key_rank p <= mark_rank s \/ covered (individually_deleted_entries s) p.

(** The stored ranges hold entries of one ledger each and lie past the frontier. *)
Record managed_holes (i : StoredManagedLedgerInfo) (s : ManagedCursorState) : Prop := {
  mh_wf : rs_wf (individually_deleted_entries s);
  mh_mark : forall m, cs_mark_delete s = Some m -> visible i m /\ partition m = -1;
  mh_ranges : forall x, x ∈ individually_deleted_entries s ->
    visible i x.2 /\ ledger_id x.1 = ledger_id x.2 /\ mark_rank s < cursor_key_rank x.1;
}.

(** In addition no stored range starts at the expected position. *)
Definition managed_cursor_wf (i : StoredManagedLedgerInfo) (s : ManagedCursorState) : Prop :=
  managed_holes i s /\
  forall q x, expected_position i s = Some q -> x ∈ individually_deleted_entries s ->
    cursor_key_rank q < cursor_key_rank x.1.

Lemma default_cursor_state_wf i : managed_cursor_wf i default_cursor_state.
Proof. split; [split; cbn; [apply rs_wf_nil | done | set_solver] | set_solver]. Qed.

Lemma visible_nonneg i p : info_wf i -> visible i p -> 0 <= cursor_key_rank p.
Proof. intros Hi Hv; destruct (visible_ok i p Hi Hv); unfold cursor_key_rank; mlia. Qed.

Lemma visible_below_max i p : info_wf i -> visible i p -> entry_id p < U64_MAX.
Proof. intros [_ Hok] (l & Hl & _ & He); eapply Forall_forall in Hok; [|done]; mlia. Qed.

Lemma range_start_visible i (x : ManagedLedgerPosition * ManagedLedgerPosition) :
  range_ok x -> visible i x.2 -> ledger_id x.1 = ledger_id x.2 -> visible i x.1.
Proof.
  intros (Hx1 & Hx2 & Hle) (l & Hl & Hid & He) Hsame; exists l; split_and!; auto; [congruence | |];
    destruct Hx1 as (? & ? & _); cbn in Hle; unfold cursor_key_rank in Hle; mlia.
Qed.

(** The expected position: the least entry past the frontier. *)
Lemma expected_position_spec i s :
  info_wf i -> managed_holes i s ->
  match expected_position i s with
  | Some q => visible i q /\ partition q = -1 /\ mark_rank s < cursor_key_rank q /\
      forall r, visible i r -> mark_rank s < cursor_key_rank r ->
                cursor_key_rank q <= cursor_key_rank r
  | None => forall r, visible i r -> cursor_key_rank r <= mark_rank s
  end.
Proof.
  intros Hi [_ Hm _]; unfold expected_position, mark_rank.
  destruct (cs_mark_delete s) as [m|].
  - destruct (Hm m eq_refl) as [Hv Hpart]; destruct (visible_ok i m Hi Hv).
    pose proof (visible_below_max i m Hi Hv).
    pose proof (next_position_spec i m Hi) as HN.
    destruct (next_position m i) as [q|]; [rewrite <- Hpart|];
      apply HN; auto; destruct Hv as (l & ? & ? & _); eauto.
  - pose proof (first_position_spec i (-1) Hi) as HF.
    destruct (first_position i (-1)) as [q|].
    + destruct HF as (Hq & Hp & Hmin); pose proof (visible_nonneg i q Hi Hq).
      split_and!; auto; lia.
    + intros r Hr; by apply HF in Hr.
Qed.

(** One turn of the advance loop: taking the range that starts at the expected
    position keeps the acknowledged entries. *)
Lemma managed_take_step i s q a e :
  info_wf i -> managed_holes i s -> expected_position i s = Some q ->
  (a, e) ∈ individually_deleted_entries s -> cursor_key_rank a <= cursor_key_rank q <= cursor_key_rank e ->
  let s' := cursor_mark_delete
              (mkCursorState (cs_mark_delete s)
                 (set_remove (a, e) (individually_deleted_entries s))) e in
  managed_holes i s' /\ mark_rank s <= mark_rank s' /\
  (forall r, visible i r -> managed_acked s' r <-> managed_acked s r).
Proof.
  intros Hi Hs Hq Hin Hae; pose proof (expected_position_spec i s Hi Hs) as HE; rewrite Hq in HE.
  destruct HE as (Hqv & _ & Hlt & Hmin), Hs as [Hwf Hm Hr].
  pose proof (rs_wf_ok _ _ Hwf Hin) as Hok; pose proof Hok as (Hka & Hke & _).
  destruct (Hr _ Hin) as (Hev & Hsame & Hme); cbn in *.
  assert (cursor_position e = e) as He by (destruct e, Hke as (_ & _ & ?); cbn in *; by subst).
  assert (cursor_key_rank q <= cursor_key_rank a).
  { apply Hmin; [|done]. apply (range_start_visible i (a, e)); auto. }
  unfold cursor_mark_delete; cbn; rewrite He; split_and!.
  - split; cbn; [by apply set_remove_wf | |].
    + intros m [= <-]; split; [done | apply Hke].
    + intros x [Hx Hne]%elem_of_set_remove; auto; destruct (Hr x Hx) as (? & ? & ?).
      split_and!; auto; cbn.
      destruct (rs_wf_ordered _ x (a, e) Hwf Hx Hin) as [?|[[Hb _]|[Hb _]]]; [done | | done].
      pose proof (rs_wf_ok _ _ Hwf Hx) as Hxok; pose proof Hxok as (_ & _ & Hle).
      assert (cursor_key_rank q <= cursor_key_rank x.1)
        by (apply Hmin; [by apply (range_start_visible i x) | done]).
      cbn in *; lia.
  - change (mark_rank (mkCursorState (Some e) _)) with (cursor_key_rank e); lia.
  - intros r Hrv; unfold managed_acked.
    change (mark_rank (mkCursorState (Some e) _)) with (cursor_key_rank e); cbn.
    rewrite (covered_remove _ _ _ _ Hwf Hin); cbn.
    pose proof (Hmin r Hrv); intuition lia.
Qed.

Lemma managed_advance_loop_spec fuel i s :
  (length (individually_deleted_entries s) <= fuel)%nat -> info_wf i -> managed_holes i s ->
  cs_mark_delete s <> None ->
  managed_cursor_wf i (managed_advance_loop fuel s i) /\
  mark_rank s <= mark_rank (managed_advance_loop fuel s i) /\
  (forall r, visible i r -> managed_acked (managed_advance_loop fuel s i) r <-> managed_acked s r).
Proof.
  revert s; induction fuel as [|fuel IH]; intros s Hf Hi Hs Hm.
  - destruct s as [m [|]]; cbn in *; [|lia].
    split_and!; [split; [done | set_solver] | lia | done].
  - cbn [managed_advance_loop]; pose proof (expected_position_spec i s Hi Hs) as HE.
    unfold expected_position in HE; destruct (cs_mark_delete s) as [m|] eqn:Em; [|done].
    assert (forall x, x ∈ individually_deleted_entries s -> visible i x.1) as Hxv.
    { intros x Hx; destruct (mh_ranges _ _ Hs x Hx) as (? & ? & _).
      apply range_start_visible; auto. by apply (rs_wf_ok _ _ (mh_wf _ _ Hs)). }
    destruct (next_position m i) as [q|] eqn:Eq.
    + destruct HE as (Hqv & Hqp & Hlt & Hmin).
      pose proof (take_covering_correct (individually_deleted_entries s) q (mh_wf _ _ Hs)
                    (visible_key_ok i q Hi Hqv Hqp)) as Ht.
      assert (forall x, x ∈ individually_deleted_entries s -> cursor_key_rank q <= cursor_key_rank x.1)
        as Hqx by (intros x Hx; apply Hmin; [by apply Hxv | apply (mh_ranges _ _ Hs x Hx)]).
      destruct (take_covering _ q) as [[e|] holes].
      * destruct Ht as (a & Hin & Hae & ->).
        { intros x Hx; pose proof (rs_wf_ok _ _ (mh_wf _ _ Hs) Hx) as (_ & _ & ?).
          specialize (Hqx x Hx); cbn in *; lia. }
        rewrite <- Em in *.
        destruct (managed_take_step i s q a e Hi Hs) as (Hs' & Hmono & Hack); auto.
        { unfold expected_position; by rewrite Em. }
        pose proof (length_set_remove _ _ (mh_wf _ _ Hs) Hin).
        match type of Hs' with managed_holes _ ?s' => destruct (IH s') as (? & ? & Hack') end;
          [cbn; lia | done | done | done |].
        split_and!; [done | lia |]. intros r Hr; rewrite Hack', Hack by done; done.
      * destruct Ht as [-> Hn].
        { intros x Hx; pose proof (rs_wf_ok _ _ (mh_wf _ _ Hs) Hx) as (_ & _ & ?).
          specialize (Hqx x Hx); cbn in *; lia. }
        replace (mkCursorState (Some m) (individually_deleted_entries s)) with s
          by (destruct s; cbn in *; by subst).
        split_and!; [split; [done |] | lia | done].
        intros q' [a e] Hq' Hx; unfold expected_position in Hq'; rewrite Em in Hq'; simplify_eq.
        specialize (Hqx _ Hx); apply Z.nle_gt; intros ?; apply Hn; exists a, e; split; [done |].
        pose proof (rs_wf_ok _ _ (mh_wf _ _ Hs) Hx) as (_ & _ & ?); cbn in *; lia.
    + split_and!; [split; [done |] | lia | done].
      intros q' x Hq'; unfold expected_position in Hq'; rewrite Em in Hq'; congruence.
Qed.

(** Every position a stored range covers holds an entry past the frontier. *)
Lemma covered_visible i s p :
  info_wf i -> managed_holes i s -> key_ok p ->
  covered (individually_deleted_entries s) p -> visible i p /\ mark_rank s < cursor_key_rank p.
Proof.
  intros Hi [Hwf _ Hr] (? & Hpe & _) (a & e & Hin & Hae).
  destruct (Hr _ Hin) as ((l & Hl & Hid & He) & Hsame & Hlt); cbn in *.
  pose proof (rs_wf_ok _ _ Hwf Hin) as ((? & ? & _) & (? & ? & _) & _); cbn in *.
  unfold cursor_key_rank in *; split; [|mlia].
  assert (ledger_id p = ledger_id e) by mlia.
  exists l; split_and!; auto; [congruence | mlia ..].
Qed.

(** Recording an entry that is neither acknowledged nor the expected one. *)
Lemma managed_insert_spec i s p :
  info_wf i -> managed_cursor_wf i s -> visible i p -> partition p = -1 ->
  ~ managed_acked s p -> expected_position i s <> Some p ->
  let s' := cursor_delete_individual s p in
  managed_cursor_wf i s' /\
  (forall r, visible i r -> partition r = -1 -> managed_acked s' r <-> r = p \/ managed_acked s r).
Proof.
  intros Hi [Hs Hexp] Hv Hp Hn Hne; pose proof (visible_key_ok i p Hi Hv Hp) as Hk.
  assert (cursor_position p = p) as Hcp by (destruct p; cbn in *; by subst).
  unfold cursor_delete_individual; rewrite Hcp; cbn.
  destruct (insert_pos_correct _ p (mh_wf _ _ Hs) Hk) as [Hwf' Hcov].
  assert (mark_rank s < cursor_key_rank p) as Hmp
    by (apply Z.nle_gt; intros ?; apply Hn; by left).
  assert (forall q, key_ok q -> covered (insert_pos (individually_deleted_entries s) p) q ->
    visible i q /\ mark_rank s < cursor_key_rank q) as Hcv.
  { intros q Hq [->|Hc]%Hcov; auto. by apply (covered_visible i s). }
  assert (forall x, x ∈ insert_pos (individually_deleted_entries s) p ->
    key_ok x.1 /\ covered (insert_pos (individually_deleted_entries s) p) x.1) as Hstart.
  { intros [a e] Hx; pose proof (rs_wf_ok _ _ Hwf' Hx) as (? & ? & ?); split; [done |].
    exists a, e; split; [done | cbn in *; lia]. }
  split; [split; [split|]|]; cbn.
  - done.
  - apply (mh_mark _ _ Hs).
  - intros [a e] Hx; pose proof (rs_wf_ok _ _ Hwf' Hx) as ((Hal & Hae & Hap) & (Hel & Hee & Hep) & Hle).
    cbn in *; assert (visible i e) as Hev.
    { apply Hcv; [done |]. exists a, e; split; [done | cbn; lia]. }
    destruct (Hstart _ Hx) as [Ha Hca]; destruct (Hcv _ Ha Hca) as [_ Hma].
    split_and!; [done | | done].
    destruct (decide (ledger_id a = ledger_id e)) as [|Hd]; [done | exfalso].
    destruct (Hcv (mkPos (ledger_id a) U64_MAX (-1))) as [Hbad _].
    { split_and!; cbn; [mlia ..]. }
    { exists a, e; split; [done |]. cbn; unfold cursor_key_rank in *; cbn; mlia. }
    apply visible_below_max in Hbad; [|done]; cbn in Hbad; lia.
  - intros q x Hq Hx; change (expected_position i (mkCursorState _ _))
      with (expected_position i s) in Hq.
    destruct (Hstart _ Hx) as [Ha [Hxp|(b & e & Hb & Hbe)]%Hcov]; [| |done].
    + pose proof (expected_position_spec i s Hi Hs) as HE; rewrite Hq in HE.
      destruct HE as (Hqv & Hqp & _ & Hmin); rewrite Hxp; specialize (Hmin p Hv Hmp).
      destruct (decide (cursor_key_rank q = cursor_key_rank p)) as [E|]; [|lia].
      assert (q = p) by (apply key_rank_inj; auto; by apply (visible_key_ok i)); congruence.
    + specialize (Hexp q _ Hq Hb); cbn in *; lia.
  - intros r Hr Hrp; unfold managed_acked; cbn.
    rewrite Hcov by by apply (visible_key_ok i).
    change (mark_rank (mkCursorState (cs_mark_delete s) _)) with (mark_rank s); tauto.
Qed.

(** Acknowledging the expected entry moves the frontier onto it. *)
Lemma managed_mark_spec i s p :
  info_wf i -> managed_cursor_wf i s -> visible i p -> partition p = -1 ->
  expected_position i s = Some p ->
  let s' := cursor_mark_delete s p in
  managed_holes i s' /\ mark_rank s <= mark_rank s' /\
  (forall r, visible i r -> partition r = -1 -> managed_acked s' r <-> r = p \/ managed_acked s r).
Proof.
  intros Hi [Hs Hexp] Hv Hp He; pose proof (expected_position_spec i s Hi Hs) as HE.
  rewrite He in HE; destruct HE as (_ & _ & Hlt & Hmin).
  assert (cursor_position p = p) as Hcp by (destruct p; cbn in *; by subst).
  unfold cursor_mark_delete; rewrite Hcp; cbn; split_and!.
  - split; cbn; [apply (mh_wf _ _ Hs) | by intros m [= <-] |].
    intros x Hx; destruct (mh_ranges _ _ Hs x Hx) as (? & ? & _); split_and!; auto.
  - change (mark_rank (mkCursorState (Some p) _)) with (cursor_key_rank p); lia.
  - intros r Hr Hrp; unfold managed_acked; cbn.
    change (mark_rank (mkCursorState (Some p) _)) with (cursor_key_rank p).
    specialize (Hmin r Hr); split; [|intros [->|?]; intuition lia].
    intros [?|?]; [|tauto]. destruct (decide (cursor_key_rank r <= mark_rank s)); [tauto | left].
    apply key_rank_inj; [by apply (visible_key_ok i) .. | cbn; lia].
Qed.

Lemma managed_acknowledged_acked i s p :
  info_wf i -> managed_cursor_wf i s -> visible i p -> partition p = -1 ->
  is_managed_position_acknowledged s p = true <-> managed_acked s p.
Proof.
  intros Hi [Hs _] Hv Hp; pose proof (visible_key_ok i p Hi Hv Hp) as Hk.
  assert (cursor_position p = p) as Hcp by (destruct p; cbn in *; by subst).
  unfold is_managed_position_acknowledged, managed_acked, mark_rank; rewrite Hcp, orb_true_iff.
  rewrite contains_covered by (done || apply (mh_wf _ _ Hs)).
  pose proof (mh_mark _ _ Hs) as Hm; pose proof (visible_nonneg i p Hi Hv).
  destruct (cs_mark_delete s) as [m|]; [|intuition (done || lia)].
  destruct (Hm m eq_refl); rewrite key_leb_rank by (done || by apply (visible_key_ok i)); cbn.
  by rewrite Z.leb_le.
Qed.

Lemma managed_advance_unset fuel i s :
  cs_mark_delete s = None -> managed_advance_loop fuel s i = s.
Proof. destruct fuel; cbn; [done |]. by intros ->. Qed.

Lemma ack_managed_spec i s p :
  info_wf i -> managed_cursor_wf i s -> visible i p -> partition p = -1 ->
  managed_cursor_wf i (ack_managed_cursor_shared s p i) /\
  mark_rank s <= mark_rank (ack_managed_cursor_shared s p i) /\
  (forall r, visible i r -> partition r = -1 ->
     managed_acked (ack_managed_cursor_shared s p i) r <-> r = p \/ managed_acked s r).
Proof.
  intros Hi Hs Hv Hp; pose proof (managed_acknowledged_acked i s p Hi Hs Hv Hp) as Hack.
  assert (cursor_position p = p) as Hcp by (destruct p; cbn in *; by subst).
  unfold ack_managed_cursor_shared; rewrite Hcp.
  destruct (is_managed_position_acknowledged s p).
  { split_and!; [done | lia |]. intros r Hr Hrp; split; [tauto |]. intros [->|?]; tauto. }
  assert (~ managed_acked s p) as Hn by by intros ?%Hack.
  assert (forall s', managed_holes i s' -> cs_mark_delete s' <> None -> mark_rank s <= mark_rank s' ->
    (forall r, visible i r -> partition r = -1 -> managed_acked s' r <-> r = p \/ managed_acked s r) ->
    managed_cursor_wf i (managed_advance_loop (length (individually_deleted_entries s')) s' i) /\
    mark_rank s <= mark_rank (managed_advance_loop (length (individually_deleted_entries s')) s' i) /\
    (forall r, visible i r -> partition r = -1 ->
       managed_acked (managed_advance_loop (length (individually_deleted_entries s')) s' i) r <->
       r = p \/ managed_acked s r)) as Hadv.
  { intros s' Hs' Hm' Hle Ha.
    destruct (managed_advance_loop_spec _ i s' (le_n _) Hi Hs' Hm') as (? & ? & Hb).
    split_and!; [done | lia |]. intros r Hr Hrp; by rewrite Hb, Ha. }
  assert (Some p = expected_position i s \/ expected_position i s <> Some p) as Hcase
    by (destruct (decide (Some p = expected_position i s)); auto).
  assert (Hmark := managed_mark_spec i s p Hi Hs Hv Hp).
  assert (Hins := fun E => managed_insert_spec i s p Hi Hs Hv Hp Hn E).
  unfold expected_position in Hcase, Hmark, Hins; pose proof (mh_mark _ _ (proj1 Hs)) as Hm.
  destruct (cs_mark_delete s) as [m|] eqn:Em.
  - destruct (Hm m eq_refl) as [Hmv Hmp].
    assert (key_ltb m p = true) as Hlt.
    { rewrite key_ltb_rank by by apply (visible_key_ok i). apply Z.ltb_lt, Z.nle_gt; intros ?.
      apply Hn; left; unfold mark_rank; rewrite Em; done. }
    case_decide as Hd; [|rewrite Hlt].
    + destruct Hmark as (? & ? & ?); auto; by apply Hadv.
    + destruct Hins as ([? ?] & ?); [congruence |]; apply Hadv; auto.
      * unfold cursor_delete_individual; cbn; by rewrite Em.
      * unfold cursor_delete_individual, mark_rank; cbn; lia.
  - rewrite Hp; case_decide as Hd.
    + destruct Hmark as (? & ? & ?); auto; by apply Hadv.
    + destruct Hins as (? & ?); [congruence |]; rewrite managed_advance_unset by done.
      split_and!; auto; unfold cursor_delete_individual, mark_rank; cbn; lia.
Qed.

(** ** Properties *)

Definition example_info : StoredManagedLedgerInfo :=
  mkInfo [mkLedgerInfo 0 3 30 5 false None; mkLedgerInfo 2 0 0 0 false None;
          mkLedgerInfo 5 4 40 0 false None].

Lemma example_info_wf : info_wf example_info.
Proof. split; repeat constructor; done. Qed.

Lemma example_visible l e :
  (l = 0 /\ 0 <= e < 3 \/ l = 5 /\ 0 <= e < 4) -> visible example_info (mkPos l e (-1)).
Proof.
  intros [[-> ?]|[-> ?]];
    [exists (mkLedgerInfo 0 3 30 5 false None) | exists (mkLedgerInfo 5 4 40 0 false None)];
    (split; [cbn; set_solver | cbn; lia]).
Qed.

(** across ledgers, [next_position] of a stored position is the least
    position past it that holds an entry (closed and empty ledgers skipped),
    and [None] exactly when there is none. *)
Theorem next_position_least (i : StoredManagedLedgerInfo) (p : ManagedLedgerPosition) :
  info_wf i -> visible i p ->
  match next_position p i with
  | Some q => visible i q /\ partition q = partition p /\
      cursor_key_rank p < cursor_key_rank q /\
      forall r, visible i r -> cursor_key_rank p < cursor_key_rank r ->
                cursor_key_rank q <= cursor_key_rank r
  | None => forall r, visible i r -> cursor_key_rank r <= cursor_key_rank p
  end.
Proof.
  intros Hi Hv; destruct (visible_ok i p Hi Hv); pose proof (visible_below_max i p Hi Hv).
  apply next_position_spec; auto; destruct Hv as (l & ? & ? & _); eauto.
Qed.

Lemma next_position_least_witness :
  next_position (mkPos 0 2 (-1)) example_info = Some (mkPos 5 0 (-1)) /\
  match next_position (mkPos 0 2 (-1)) example_info with
  | Some q => visible example_info q /\ partition q = -1 /\
      cursor_key_rank (mkPos 0 2 (-1)) < cursor_key_rank q /\
      forall r, visible example_info r -> cursor_key_rank (mkPos 0 2 (-1)) < cursor_key_rank r ->
                cursor_key_rank q <= cursor_key_rank r
  | None => forall r, visible example_info r -> cursor_key_rank r <= cursor_key_rank (mkPos 0 2 (-1))
  end.
Proof.
  split; [by vm_compute |].
  apply (next_position_least example_info (mkPos 0 2 (-1)) example_info_wf).
  apply example_visible; lia.
Defined.

(** C37: a shared acknowledgement of a stored entry preserves the durable
    cursor's invariant (disjoint ranges inside single ledgers, strictly past
    the next expected entry), acknowledges exactly that entry in addition, and
    never moves the frontier back, also across ledger rollovers. *)
Theorem ack_managed_cursor_step (i : StoredManagedLedgerInfo) (s : ManagedCursorState)
    (p r : ManagedLedgerPosition) :
  info_wf i -> managed_cursor_wf i s ->
  visible i p -> partition p = -1 -> visible i r -> partition r = -1 ->
  managed_cursor_wf i (ack_managed_cursor_shared s p i) /\
  mark_rank s <= mark_rank (ack_managed_cursor_shared s p i) /\
  (is_managed_position_acknowledged (ack_managed_cursor_shared s p i) r = true <->
   r = p \/ is_managed_position_acknowledged s r = true).
Proof.
  intros Hi Hs Hp Hpp Hr Hrp; destruct (ack_managed_spec i s p Hi Hs Hp Hpp) as (Hs' & ? & Hack).
  rewrite !(managed_acknowledged_acked i) by done; auto.
Qed.

Lemma ack_managed_cursor_step_witness :
  let s := mkCursorState (Some (mkPos 0 1 (-1))) [(mkPos 5 0 (-1), mkPos 5 1 (-1))] in
  managed_cursor_wf example_info (ack_managed_cursor_shared s (mkPos 0 2 (-1)) example_info) /\
  mark_rank s <= mark_rank (ack_managed_cursor_shared s (mkPos 0 2 (-1)) example_info) /\
  (is_managed_position_acknowledged
     (ack_managed_cursor_shared s (mkPos 0 2 (-1)) example_info) (mkPos 5 1 (-1)) = true <->
   mkPos 5 1 (-1) = mkPos 0 2 (-1) \/ is_managed_position_acknowledged s (mkPos 5 1 (-1)) = true).
Proof.
  apply ack_managed_cursor_step; auto using example_info_wf; try (apply example_visible; lia).
  split; [split|].
  - split; repeat constructor; done.
  - intros m [= <-]; split; [apply example_visible; lia | done].
  - intros x ->%list_elem_of_singleton; cbn; split_and!; [apply example_visible; lia | done | done].
  - intros q x Hq ->%list_elem_of_singleton; vm_compute in Hq; injection Hq as <-; done.
Defined.

(** mixing cumulative and individual acknowledgements moves the durable
    frontier back.  A range acknowledged individually and then passed by a
    cumulative acknowledgement stays stored; the next shared acknowledgement
    takes that stale range for the expected one and resets the frontier to its
    end, so acknowledged entries are unacknowledged again. *)
Theorem ack_after_cumulative_regresses :
  exists (i : StoredManagedLedgerInfo) (s : ManagedCursorState) (p r : ManagedLedgerPosition),
    info_wf i /\ managed_cursor_wf i s /\ visible i p /\ visible i r /\
    let s1 := cursor_mark_delete s (mkPos 5 2 (-1)) in
    is_managed_position_acknowledged s1 r = true /\
    let s2 := ack_managed_cursor_shared s1 p i in
    is_managed_position_acknowledged s2 r = false /\
    cs_mark_delete s2 = Some (mkPos 0 1 (-1)).
Proof.
  exists (mkInfo [mkLedgerInfo 0 3 30 5 false None; mkLedgerInfo 5 5 40 0 false None]),
    (mkCursorState None [(mkPos 0 1 (-1), mkPos 0 1 (-1))]), (mkPos 5 3 (-1)), (mkPos 5 0 (-1)).
  split_and!; [split; repeat constructor; done | | | | by vm_compute .. ].
  - split; [split|].
    + split; repeat constructor; done.
    + done.
    + intros x ->%list_elem_of_singleton; cbn; split_and!; [|done | done].
      exists (mkLedgerInfo 0 3 30 5 false None); split; [set_solver | cbn; lia].
    + intros q x Hq ->%list_elem_of_singleton; vm_compute in Hq; injection Hq as <-; done.
  - exists (mkLedgerInfo 5 5 40 0 false None); split; [set_solver | cbn; lia].
  - exists (mkLedgerInfo 5 5 40 0 false None); split; [set_solver | cbn; lia].
Qed.
