(* ===== verification/MetadataCodec.v ===== *)
(** * Persistence of ledger and cursor metadata

    The [encode_to_vec]/[decode] pairs of
    [storage/managed-ledger-rocksdb/src/metadata.rs].  The protobuf records are
    those of [proto/MLDataFormats.proto]; their byte codec is the prost crate,
    a parameter of the model that is assumed to decode what it encoded. *)

From S2P Require Import Prelude Position BTree RangeSet LedgerInfo.

Record NestedPositionInfo := mkNested { np_ledger_id : Z; np_entry_id : Z }.

Record MessageRange := mkRange {
  lower_endpoint : NestedPositionInfo;
  upper_endpoint : NestedPositionInfo;
}.

(** The fields the store sets to something other than empty. *)
Record ManagedCursorInfo := mkCursorInfo {
  cursors_ledger_id : Z;
  mark_delete_ledger_id : option Z;
  mark_delete_entry_id : option Z;
  individual_deleted_messages : list MessageRange;
}.

Record LedgerInfoProto := mkLedgerProto {
  lp_ledger_id : Z;
  lp_entries : option Z;
  lp_size : option Z;
  lp_timestamp : option Z;
}.

Record ManagedLedgerInfoProto := mkManagedProto { ledger_info : list LedgerInfoProto }.

Inductive decode_error := ProstError | OutOfRange | RangeSpansLedgers.

(** [i64 -> u64] through [try_into]. *)
Definition try_u64 (n : Z) : result decode_error Z :=
  if 0 <=? n then Ok n else Err OutOfRange.

Definition position_range (s e : ManagedLedgerPosition) : MessageRange :=
  mkRange (mkNested (u64_as_i64 (ledger_id s)) (u64_as_i64 (entry_id s)))
          (mkNested (u64_as_i64 (ledger_id e)) (u64_as_i64 (entry_id e))).

Definition cursor_to_proto (s : ManagedCursorState) : ManagedCursorInfo :=
  mkCursorInfo (-1)
    ((fun p => u64_as_i64 (ledger_id p)) <$> cs_mark_delete s)
    ((fun p => u64_as_i64 (entry_id p)) <$> cs_mark_delete s)
    ((fun x => position_range x.1 x.2) <$> individually_deleted_entries s).

Local Open Scope result_scope.

Definition decode_position (p : NestedPositionInfo)
  : result decode_error ManagedLedgerPosition :=
  let? l := try_u64 (np_ledger_id p) in
  let? e := try_u64 (np_entry_id p) in
  Ok (mkPos l e (-1)).

Fixpoint decode_ranges (ranges : list MessageRange)
    (acc : list (ManagedLedgerPosition * ManagedLedgerPosition))
  : result decode_error (list (ManagedLedgerPosition * ManagedLedgerPosition)) :=
  match ranges with
  | [] => Ok acc
  | r :: ranges =>
      if negb (np_ledger_id (lower_endpoint r) =? np_ledger_id (upper_endpoint r))
      then Err RangeSpansLedgers
      else
        let? lo := decode_position (lower_endpoint r) in
        let? hi := decode_position (upper_endpoint r) in
        decode_ranges ranges (insert_range acc lo hi)
  end.

Definition cursor_from_proto (info : ManagedCursorInfo)
  : result decode_error ManagedCursorState :=
  let? mark :=
    match mark_delete_ledger_id info, mark_delete_entry_id info with
    | Some l, Some e => let? p := decode_position (mkNested l e) in Ok (Some p)
    | _, _ => Ok None
    end in
  let? holes := decode_ranges (individual_deleted_messages info) [] in
  Ok (mkCursorState mark holes).

Definition ledger_to_proto (l : StoredLedgerInfo) : LedgerInfoProto :=
  mkLedgerProto (u64_as_i64 (li_ledger_id l)) (Some (u64_as_i64 (li_entries l)))
    (Some (u64_as_i64 (li_size l))) (Some (u64_as_i64 (li_timestamp l))).

Definition ledger_from_proto (l : LedgerInfoProto) : result decode_error StoredLedgerInfo :=
  let? id := try_u64 (lp_ledger_id l) in
  let? entries := try_u64 (default 0 (lp_entries l)) in
  let? size := try_u64 (default 0 (lp_size l)) in
  let? timestamp := try_u64 (default 0 (lp_timestamp l)) in
  Ok (mkLedgerInfo id entries size timestamp false None).

(** [collect::<Result<Vec<_>>>()] *)
Fixpoint collect {E A B} (f : A -> result E B) (l : list A) : result E (list B) :=
  match l with
  | [] => Ok []
  | x :: l => let? y := f x in let? ys := collect f l in Ok (y :: ys)
  end.

Section prost.
Context {bytes : Type}.
Context (encode_cursor_info : ManagedCursorInfo -> bytes)
        (decode_cursor_info : bytes -> option ManagedCursorInfo)
        (encode_ledger_info : ManagedLedgerInfoProto -> bytes)
        (decode_ledger_info : bytes -> option ManagedLedgerInfoProto).

Definition encode_cursor (s : ManagedCursorState) : bytes :=
  encode_cursor_info (cursor_to_proto s).

Definition decode_cursor (b : bytes) : result decode_error ManagedCursorState :=
  let? info := ok_or (decode_cursor_info b) ProstError in cursor_from_proto info.

Definition encode_info (i : StoredManagedLedgerInfo) : bytes :=
  encode_ledger_info (mkManagedProto (ledger_to_proto <$> info_ledgers i)).

Definition decode_info (b : bytes) : result decode_error StoredManagedLedgerInfo :=
  let? info := ok_or (decode_ledger_info b) ProstError in
  let? ledgers := collect ledger_from_proto (ledger_info info) in
  Ok (mkInfo ledgers).

(** ** Round trips *)

Context (cursor_info_roundtrip : forall m, decode_cursor_info (encode_cursor_info m) = Some m)
        (ledger_info_roundtrip : forall m, decode_ledger_info (encode_ledger_info m) = Some m).

(** The values that survive the signed 64-bit fields. *)
Definition i64_range (n : Z) : Prop := 0 <= n <= I64_MAX.

Definition position_storable (p : ManagedLedgerPosition) : Prop :=
  i64_range (ledger_id p) /\ i64_range (entry_id p) /\ partition p = -1.

Definition cursor_storable (s : ManagedCursorState) : Prop :=
  (forall m, cs_mark_delete s = Some m -> position_storable m) /\
  rs_wf (individually_deleted_entries s) /\
  (forall x, x ∈ individually_deleted_entries s ->
     position_storable x.1 /\ position_storable x.2 /\ ledger_id x.1 = ledger_id x.2).

Definition ledger_storable (l : StoredLedgerInfo) : Prop :=
  i64_range (li_ledger_id l) /\ i64_range (li_entries l) /\ i64_range (li_size l) /\
  i64_range (li_timestamp l) /\ li_is_offloaded l = false /\ li_offloaded_context_uuid l = None.
End prost.

Lemma u64_as_i64_id n : i64_range n -> u64_as_i64 n = n.
Proof. unfold i64_range, u64_as_i64; intros; case_bool; mlia. Qed.

Lemma try_u64_roundtrip n : i64_range n -> try_u64 (u64_as_i64 n) = Ok n.
Proof. intros H; rewrite u64_as_i64_id by done; unfold try_u64, i64_range in *; case_bool; [done | lia]. Qed.

Lemma decode_position_roundtrip p :
  position_storable p ->
  decode_position (mkNested (u64_as_i64 (ledger_id p)) (u64_as_i64 (entry_id p))) = Ok p.
Proof.
  destruct p as [l e q]; intros (Hl & He & Hq); cbn in *; subst.
  unfold decode_position; cbn; by rewrite !try_u64_roundtrip.
Qed.

Lemma decode_ranges_roundtrip holes acc :
  (forall x, x ∈ holes -> position_storable x.1 /\ position_storable x.2 /\
                          ledger_id x.1 = ledger_id x.2) ->
  decode_ranges ((fun x => position_range x.1 x.2) <$> holes) acc =
  Ok (foldl (fun acc x => insert_range acc x.1 x.2) acc holes).
Proof.
  revert acc; induction holes as [|[s e] holes IH]; intros acc Hall; [done |].
  destruct (Hall (s, e)) as (Hs & He & Hsame); [by left |]; cbn -[insert_range] in *.
  rewrite Hsame, Z.eqb_refl; cbn [negb].
  rewrite <- Hsame at 1; rewrite !decode_position_roundtrip by done; cbn -[insert_range].
  apply IH; intros x Hx; apply Hall; by right.
Qed.

Lemma cursor_proto_roundtrip s :
  cursor_storable s -> cursor_from_proto (cursor_to_proto s) = Ok s.
Proof.
  intros (Hm & Hwf & Hall); unfold cursor_from_proto; cbn.
  rewrite decode_ranges_roundtrip by done.
  pose proof (insert_ranges_rebuild _ Hwf) as ->.
  destruct s as [[m|] holes]; cbn; [|done].
  by rewrite decode_position_roundtrip by by apply Hm.
Qed.

Lemma collect_roundtrip {A B E} (f : A -> B) (g : B -> result E A) (l : list A) :
  (forall x, x ∈ l -> g (f x) = Ok x) -> collect g (f <$> l) = Ok l.
Proof.
  induction l as [|x l IH]; intros Hall; [done |].
  cbn; rewrite Hall by set_solver; cbn; rewrite IH by set_solver; done.
Qed.

Lemma ledger_proto_roundtrip l :
  ledger_storable l -> ledger_from_proto (ledger_to_proto l) = Ok l.
Proof.
  destruct l; intros (? & ? & ? & ? & ? & ?); cbn in *; subst.
  unfold ledger_from_proto; cbn; by rewrite !try_u64_roundtrip.
Qed.

(** ** Properties *)

(** what the store persists about a ledger and a cursor is what it reads
    back: for ids that fit a signed 64-bit field, decoding the encoded ledger
    metadata or cursor state returns it unchanged, coalesced ranges included. *)
Theorem metadata_roundtrip {bytes : Type}
    (encode_cursor_info : ManagedCursorInfo -> bytes)
    (decode_cursor_info : bytes -> option ManagedCursorInfo)
    (encode_ledger_info : ManagedLedgerInfoProto -> bytes)
    (decode_ledger_info : bytes -> option ManagedLedgerInfoProto)
    (cursor_info_roundtrip : forall m, decode_cursor_info (encode_cursor_info m) = Some m)
    (ledger_info_roundtrip : forall m, decode_ledger_info (encode_ledger_info m) = Some m)
    (s : ManagedCursorState) (i : StoredManagedLedgerInfo) :
  cursor_storable s -> Forall ledger_storable (info_ledgers i) ->
  decode_cursor decode_cursor_info (encode_cursor encode_cursor_info s) = Ok s /\
  decode_info decode_ledger_info (encode_info encode_ledger_info i) = Ok i.
Proof.
  intros Hs Hi; unfold decode_cursor, encode_cursor, decode_info, encode_info.
  rewrite cursor_info_roundtrip, ledger_info_roundtrip; cbn [ok_or result_bind ledger_info].
  rewrite cursor_proto_roundtrip by done; split; [done |].
  rewrite Forall_forall in Hi; rewrite collect_roundtrip; [by destruct i |].
  intros l Hl; by apply ledger_proto_roundtrip, Hi.
Qed.

Definition tagged : Type := ManagedCursorInfo + ManagedLedgerInfoProto.
Definition untag_cursor (b : tagged) := match b with inl m => Some m | inr _ => None end.
Definition untag_ledger (b : tagged) := match b with inl _ => None | inr m => Some m end.

Lemma metadata_roundtrip_witness :
  let s := mkCursorState (Some (mkPos 0 1 (-1))) [(mkPos 5 0 (-1), mkPos 5 1 (-1))] in
  decode_cursor untag_cursor (encode_cursor inl s) = Ok s /\
  decode_info untag_ledger (encode_info inr example_info) = Ok example_info.
Proof.
  apply (metadata_roundtrip inl untag_cursor inr untag_ledger); [done | done | split_and! |].
  - by intros m [= <-].
  - split; repeat constructor; done.
  - intros x ->%list_elem_of_singleton; done.
  - repeat constructor; done.
Defined.

(** An entry id of the mark-delete position beyond [i64::MAX] does not
    survive persistence: it is stored as a negative number and the decoder
    rejects it. *)
Theorem cursor_entry_id_out_of_range {bytes : Type}
    (encode_cursor_info : ManagedCursorInfo -> bytes)
    (decode_cursor_info : bytes -> option ManagedCursorInfo)
    (cursor_info_roundtrip : forall m, decode_cursor_info (encode_cursor_info m) = Some m)
    (m : ManagedLedgerPosition) (holes : list (ManagedLedgerPosition * ManagedLedgerPosition)) :
  i64_range (ledger_id m) -> I64_MAX < entry_id m <= U64_MAX ->
  decode_cursor decode_cursor_info
    (encode_cursor encode_cursor_info (mkCursorState (Some m) holes)) = Err OutOfRange.
Proof.
  intros Hl He; unfold decode_cursor, encode_cursor; rewrite cursor_info_roundtrip.
  cbn [ok_or result_bind]; unfold cursor_from_proto; cbn -[u64_as_i64 decode_ranges].
  unfold decode_position; cbn [np_ledger_id np_entry_id]; rewrite try_u64_roundtrip by done.
  unfold try_u64, u64_as_i64; cbn; replace (entry_id m <=? I64_MAX) with false by lia.
  case_bool; [mlia | done].
Qed.

Lemma cursor_entry_id_out_of_range_witness :
  decode_cursor Some
    (encode_cursor id (mkCursorState (Some (mkPos 0 9223372036854775808 (-1))) [])) = Err OutOfRange.
Proof. by apply (cursor_entry_id_out_of_range id Some); [|split|split]. Defined.
