(* ===== verification/Bytes.v ===== *)
(** * Byte strings

    Bytes are integers in [0, 256).  Fixed-width integers in little- and
    big-endian order ([to_le_bytes], [from_le_bytes], ...), and slices. *)

From S2P Require Import Prelude.

Fixpoint le_bytes (n : nat) (v : Z) : list Z :=
  match n with
  | O => []
  | S n => v mod 256 :: le_bytes n (v / 256)
  end.

Fixpoint from_le (bs : list Z) : Z :=
  match bs with
  | [] => 0
  | b :: bs => b + 256 * from_le bs
  end.

Definition be_bytes (n : nat) (v : Z) : list Z := reverse (le_bytes n v).
Definition from_be (bs : list Z) : Z := from_le (reverse bs).

(** A 32-bit pattern read as a signed integer. *)
Definition i32_of_u32 (n : Z) : Z := if n <? 2147483648 then n else n - 4294967296.

(** [&bytes[a..b]], for [a <= b <= len]. *)
Definition slice (a b : nat) (bs : list Z) : list Z := take (b - a) (drop a bs).

Lemma length_le_bytes n v : length (le_bytes n v) = n.
Proof. revert v; induction n; intros; cbn; auto. Qed.

Lemma length_be_bytes n v : length (be_bytes n v) = n.
Proof. unfold be_bytes; by rewrite length_reverse, length_le_bytes. Qed.

Lemma from_le_bytes n v : from_le (le_bytes n v) = v mod 256 ^ Z.of_nat n.
Proof.
  revert v; induction n as [|n IH]; intros v; cbn [le_bytes from_le].
  - by rewrite Z.mod_1_r.
  - rewrite IH, Nat2Z.inj_succ, Z.pow_succ_r by lia.
    rewrite Z.rem_mul_r by lia; lia.
Qed.

Lemma from_be_bytes n v : from_be (be_bytes n v) = v mod 256 ^ Z.of_nat n.
Proof. unfold from_be, be_bytes; by rewrite reverse_involutive, from_le_bytes. Qed.

Lemma from_le_bytes_small n v :
  0 <= v < 256 ^ Z.of_nat n -> from_le (le_bytes n v) = v.
Proof. intros; rewrite from_le_bytes; by apply Z.mod_small. Qed.

Lemma from_be_bytes_small n v :
  0 <= v < 256 ^ Z.of_nat n -> from_be (be_bytes n v) = v.
Proof. intros; rewrite from_be_bytes; by apply Z.mod_small. Qed.

Lemma i32_roundtrip v : i32_ok v -> i32_of_u32 (from_le (le_bytes 4 v)) = v.
Proof.
  intros Hv; rewrite from_le_bytes; unfold i32_of_u32.
  change (256 ^ Z.of_nat 4) with 4294967296.
  destruct (Z.ltb_spec v 0).
  - replace (v mod 4294967296) with (v + 4294967296).
    + case_bool; mlia.
    + apply Zmod_unique with (q := -1); mlia.
  - rewrite Z.mod_small by mlia; case_bool; mlia.
Qed.

Lemma le_bytes_ok n v : Forall byte_ok (le_bytes n v).
Proof.
  revert v; induction n as [|n IH]; intros v; constructor; [|done].
  unfold byte_ok; apply Z.mod_pos_bound; lia.
Qed.

Lemma le_bytes_from_le n bs : Forall byte_ok bs -> length bs = n -> le_bytes n (from_le bs) = bs.
Proof.
  intros Hbs; revert n; induction Hbs as [|b bs Hb _ IH]; intros [|n]; try done; intros [= Hn]; cbn [from_le le_bytes].
  rewrite (Z.add_comm b), Z.mul_comm, Z.div_add_l, Z.add_comm, Z_mod_plus_full by lia.
  rewrite Z.mod_small, Z.div_small, Z.add_0_r by mlia; f_equal; by apply IH.
Qed.

Lemma from_le_range bs : Forall byte_ok bs -> 0 <= from_le bs < 256 ^ Z.of_nat (length bs).
Proof.
  induction 1 as [|b bs Hb _ IH]; cbn [from_le length]; [done |].
  rewrite Nat2Z.inj_succ, Z.pow_succ_r by lia; mlia.
Qed.

Lemma le_bytes_i32 v : le_bytes 4 (i32_of_u32 v) = le_bytes 4 v.
Proof.
  unfold i32_of_u32; case_bool; [done |].
  assert (forall n u q, le_bytes n (u + q * 256 ^ Z.of_nat n) = le_bytes n u) as Hshift.
  { clear; induction n as [|n IH]; intros u q; [done |]; cbn [le_bytes].
    rewrite Nat2Z.inj_succ, Z.pow_succ_r by lia.
    replace (u + q * (256 * 256 ^ Z.of_nat n)) with (u + (q * 256 ^ Z.of_nat n) * 256) by ring.
    by rewrite Z_mod_plus_full, Z_div_plus_full, IH by lia. }
  by rewrite <- (Hshift 4%nat v (-1)).
Qed.

Lemma i32_of_u32_ok v : 0 <= v <= U32_MAX -> i32_ok (i32_of_u32 v).
Proof. intros; unfold i32_of_u32; case_bool; mlia. Qed.

(** ** Slices of concatenations *)

Lemma slice_join a b c (x : list Z) : (a <= b <= c)%nat -> slice a b x ++ slice b c x = slice a c x.
Proof.
  intros; unfold slice; replace (drop b x) with (drop (b - a) (drop a x)) by (rewrite drop_drop; f_equal; lia).
  rewrite <- (take_drop (b - a) (take (c - a) (drop a x))), take_take, skipn_firstn_comm.
  f_equal; f_equal; lia.
Qed.

Lemma slice_prefix a b (x y : list Z) : (b <= length x)%nat -> slice a b x = slice a b (x ++ y).
Proof.
  intros; unfold slice; destruct (decide (a <= length x)%nat).
  - by rewrite drop_app_le, take_app_le by (rewrite ?length_drop; lia).
  - by rewrite !(proj2 (Nat.sub_0_le b a)) by lia.
Qed.

Lemma slice_ok a b bs : Forall byte_ok bs -> Forall byte_ok (slice a b bs).
Proof. intros; unfold slice; by apply Forall_take, Forall_drop. Qed.

Lemma length_slice a b (bs : list Z) : (a <= b <= length bs)%nat -> length (slice a b bs) = (b - a)%nat.
Proof. intros; unfold slice; rewrite length_take, length_drop; lia. Qed.

(** A field of a byte string as the bytes of the number it holds. *)
Lemma field_bytes n a b bs :
  Forall byte_ok bs -> (b <= length bs)%nat -> b = (a + n)%nat -> le_bytes n (from_le (slice a b bs)) = slice a b bs.
Proof. intros ? ? ->; apply le_bytes_from_le; [by apply slice_ok | rewrite length_slice; lia]. Qed.

Lemma slice_skip a b (x y : list Z) :
  (length x <= a)%nat -> slice a b (x ++ y) = slice (a - length x) (b - length x) y.
Proof.
  intros; unfold slice; rewrite drop_app_ge by done; f_equal; lia.
Qed.

Lemma slice_head n (x y : list Z) : length x = n -> slice 0 n (x ++ y) = x.
Proof.
  intros <-; unfold slice; rewrite drop_0, Nat.sub_0_r; by rewrite take_app_length.
Qed.

Lemma slice_all n (x : list Z) : length x = n -> slice 0 n x = x.
Proof. intros <-; unfold slice; rewrite drop_0, Nat.sub_0_r; by apply firstn_all. Qed.

(** Evaluate slices of a concatenation of fields of known length. *)
Ltac slice_fields :=
  repeat first
    [ rewrite slice_head by (rewrite ?length_le_bytes, ?length_be_bytes; reflexivity)
    | rewrite slice_all by (rewrite ?length_le_bytes, ?length_be_bytes; reflexivity)
    | rewrite slice_skip by (rewrite ?length_le_bytes, ?length_be_bytes; lia);
      rewrite ?length_le_bytes, ?length_be_bytes; cbn [Nat.sub] ].
