(* ===== verification/Text.v ===== *)
(** * Strings

    The functions of Rust's [str] the broker uses on names and keys: decimal
    printing and parsing, [strip_suffix], [split_once], [rsplit_once] and
    [splitn] on a separator. *)

From Stdlib Require Import Ascii.
From stdpp Require Import pretty.
From S2P Require Import Prelude.

(** ** Decimal numbers *)

(** [format!("{n}")] of an unsigned integer. *)
Definition show (n : Z) : string := pretty (Z.to_N n).

Definition digit_value (c : ascii) : option Z :=
  let n := Z.of_nat (nat_of_ascii c) in
  if (48 <=? n) && (n <=? 57) then Some (n - 48) else None.

Fixpoint parse_digits (s : string) (acc : Z) : option Z :=
  match s with
  | EmptyString => Some acc
  | String c s =>
      match digit_value c with
      | Some d => if 10 * acc + d <=? U64_MAX then parse_digits s (10 * acc + d) else None
      | None => None
      end
  end.

(** [str::parse::<u64>]: an optional plus sign, then at least one digit, and no
    overflow. *)
Definition parse_u64 (s : string) : option Z :=
  match s with
  | EmptyString => None
  | String c s' =>
      if Ascii.eqb c "+"%char
      then match s' with EmptyString => None | _ => parse_digits s' 0 end
      else parse_digits s 0
  end.

(** ** Splitting *)

Fixpoint strip_suffix (name suffix : string) : option string :=
  if String.eqb name suffix then Some EmptyString
  else match name with
       | EmptyString => None
       | String c name => String c <$> strip_suffix name suffix
       end.

(** [s.strip_prefix(sep)] *)
Fixpoint strip_prefix (sep s : string) : option string :=
  match sep, s with
  | EmptyString, _ => Some s
  | String a sep, String b s => if Ascii.eqb a b then strip_prefix sep s else None
  | String _ _, EmptyString => None
  end.

(** The parts before and after the first occurrence of [sep]. *)
Fixpoint split_once (sep s : string) : option (string * string) :=
  match strip_prefix sep s with
  | Some rest => Some (EmptyString, rest)
  | None =>
      match s with
      | EmptyString => None
      | String c s => prod_map (String c) id <$> split_once sep s
      end
  end.

(** The parts before and after the last occurrence of [sep]. *)
Fixpoint rsplit_once (sep s : string) : option (string * string) :=
  match s with
  | EmptyString => (fun r => (EmptyString, r)) <$> strip_prefix sep s
  | String c s' =>
      match rsplit_once sep s' with
      | Some (before, after) => Some (String c before, after)
      | None => (fun r => (EmptyString, r)) <$> strip_prefix sep s
      end
  end.

(** [s.splitn(3, sep)], a list of one, two or three parts. *)
Definition splitn3 (sep s : string) : list string :=
  match split_once sep s with
  | None => [s]
  | Some (a, rest) =>
      match split_once sep rest with
      | None => [a; rest]
      | Some (b, c) => [a; b; c]
      end
  end.

(** ** Printing and parsing are inverse *)

Lemma digit_value_char (x : N) :
  (x < 10)%N -> digit_value (pretty_N_char x) = Some (Z.of_N x).
Proof.
  intros H.
  assert (x = 0 ∨ x = 1 ∨ x = 2 ∨ x = 3 ∨ x = 4 ∨ x = 5 ∨ x = 6 ∨ x = 7 ∨ x = 8 ∨ x = 9)%N
    as Hx by lia.
  by repeat (destruct Hx as [-> | Hx]; [done |]); subst.
Qed.

Lemma parse_digits_go (x : N) s :
  Z.of_N x <= U64_MAX -> parse_digits (pretty_N_go x s) 0 = parse_digits s (Z.of_N x).
Proof.
  revert s; induction (N.lt_wf_0 x) as [x _ IH]; intros s Hx.
  destruct (decide (x = 0)%N) as [->|]; [by rewrite pretty_N_go_0 |].
  rewrite pretty_N_go_step by lia.
  pose proof (N.div_lt x 10 ltac:(lia) ltac:(lia)).
  pose proof (N.div_mod x 10 ltac:(lia)).
  pose proof (N.mod_lt x 10 ltac:(lia)).
  rewrite IH by lia; cbn [parse_digits]; rewrite digit_value_char by done.
  replace (10 * Z.of_N (x / 10) + Z.of_N (x `mod` 10)) with (Z.of_N x) by lia.
  case_bool; [done | lia].
Qed.

Lemma show_digit (x : N) s :
  (0 < x)%N -> exists (c : ascii) s', pretty_N_go x s = String c s' /\ (exists d, digit_value c = Some d).
Proof.
  revert s; induction (N.lt_wf_0 x) as [x _ IH]; intros s Hx.
  rewrite pretty_N_go_step by done.
  destruct (decide (x / 10 = 0)%N) as [->|].
  - rewrite pretty_N_go_0; eexists _, _; split; [done |].
    eexists; apply digit_value_char, N.mod_lt; lia.
  - apply IH; [by apply N.div_lt | by apply N.neq_0_lt_0].
Qed.

Lemma parse_show (n : Z) : u64_ok n -> parse_u64 (show n) = Some n.
Proof.
  intros Hn; unfold show, pretty, pretty_N.
  case_decide as H0; [by replace n with 0 by (unfold u64_ok in *; lia) |].
  destruct (show_digit (Z.to_N n) "" ltac:(lia)) as (c & s & E & d & Hd).
  pose proof (parse_digits_go (Z.to_N n) "" ltac:(mlia)) as Hp.
  rewrite E in *; unfold parse_u64.
  destruct (Ascii.eqb_spec c "+"%char) as [->|]; [done |].
  rewrite Hp; cbn; f_equal; mlia.
Qed.

Lemma show_inj (n m : Z) : u64_ok n -> u64_ok m -> show n = show m -> n = m.
Proof.
  intros Hn Hm E; apply parse_show in Hn, Hm; rewrite E in Hn; congruence.
Qed.

Lemma string_length_app (s t : string) :
  String.length (s +:+ t) = (String.length s + String.length t)%nat.
Proof. induction s as [|c s IH]; [done |]; exact (f_equal S IH). Qed.

Lemma strip_suffix_app (s suffix : string) : strip_suffix (s +:+ suffix) suffix = Some s.
Proof.
  induction s as [|c s IH].
  - change ("" +:+ suffix) with suffix; destruct suffix; unfold strip_suffix; by rewrite String.eqb_refl.
  - change (String c s +:+ suffix) with (String c (s +:+ suffix)); cbn [strip_suffix].
    destruct (String.eqb_spec (String c (s +:+ suffix)) suffix) as [E|].
    + exfalso; apply (f_equal String.length) in E; cbn in E.
      rewrite string_length_app in E; lia.
    + by rewrite IH.
Qed.

Lemma strip_prefix_spec sep s r : strip_prefix sep s = Some r <-> s = sep +:+ r.
Proof.
  revert s; induction sep as [|a sep IH]; intros s; cbn; [naive_solver |].
  destruct s as [|b s]; [done |].
  destruct (Ascii.eqb_spec a b) as [->|].
  - rewrite IH; split; [by intros -> | by intros [=]].
  - split; [done | by intros [= -> ->]].
Qed.

Lemma split_once_spec sep s a b : split_once sep s = Some (a, b) -> s = a +:+ sep +:+ b.
Proof.
  revert a b; induction s as [|c s IH]; intros a b; cbn;
    destruct (strip_prefix sep _) as [r|] eqn:E; try done.
  - apply strip_prefix_spec in E; by intros [= <- <-].
  - apply strip_prefix_spec in E; by intros [= <- <-].
  - destruct (split_once sep s) as [[x y]|]; cbn; [|done].
    intros [= <- <-]; cbn; by rewrite (IH x y).
Qed.

Lemma rsplit_once_spec sep s a b : rsplit_once sep s = Some (a, b) -> s = a +:+ sep +:+ b.
Proof.
  revert a b; induction s as [|c s IH]; intros a b; cbn.
  - destruct (strip_prefix sep _) as [r|] eqn:E; [|done].
    apply strip_prefix_spec in E; by intros [= <- <-].
  - destruct (rsplit_once sep s) as [[x y]|].
    + intros [= <- <-]; cbn; by rewrite (IH x y).
    + destruct (strip_prefix sep (String c s)) as [r|] eqn:E; [|done].
      apply strip_prefix_spec in E; by intros [= <- <-].
Qed.

(** ** Comparison *)

Lemma string_compare_refl a : String.compare a a = Eq.
Proof. induction a as [|x a IH]; cbn; [done |]; unfold Ascii.compare; by rewrite N.compare_refl. Qed.

Lemma string_compare_lt_trans a b c :
  String.compare a b = Lt -> String.compare b c = Lt -> String.compare a c = Lt.
Proof.
  revert b c; induction a as [|x a IH]; intros [|y b] [|z c]; cbn; try done.
  unfold Ascii.compare.
  destruct (N.compare_spec (Ascii.N_of_ascii x) (Ascii.N_of_ascii y)) as [E1|E1|E1],
    (N.compare_spec (Ascii.N_of_ascii y) (Ascii.N_of_ascii z)) as [E2|E2|E2]; try done; intros H1 H2;
    destruct (N.compare_spec (Ascii.N_of_ascii x) (Ascii.N_of_ascii z)) as [E3|E3|E3]; try done; try lia.
  by eapply IH.
Qed.
