(* ===== verification/EntryLog.v ===== *)
(** * The entry log

    [storage/managed-ledger-rocksdb/src/entrylog.rs]: entries are appended in
    batches to numbered log files and read back through an index.  The file
    system is a map from file ids to contents; whether an open or a write
    succeeds is an argument of the writing step, a failed write having put some
    prefix of the buffer into the file. *)

From S2P Require Import Prelude Bytes Text.

Definition ENTRY_MAGIC : Z := 1347175751. (* 0x504C4547 *)
Definition ENTRY_VERSION_LEGACY : Z := 1.
Definition ENTRY_VERSION : Z := 2.
Definition ENTRY_HEADER_LEN_LEGACY : Z := 40.
Definition ENTRY_HEADER_LEN : Z := 44.

Record EntryToAppend := mkEntry {
  ea_ledger_id : Z;
  ea_entry_id : Z;
  ea_partition : Z;
  ea_metadata : list Z;
  ea_payload : list Z;
}.

Record EntryIndex := mkIndex {
  ix_ledger_id : Z;
  ix_entry_id : Z;
  ix_file_id : Z;
  ix_offset : Z;
  ix_len : Z;
  ix_checksum : Z;
  ix_partition : Z;
}.

Record EntryRecord := mkRecord {
  er_partition : Z;
  er_metadata : list Z;
  er_payload : list Z;
}.

(** [file] is the id of the file the open handle writes to. *)
Record WriteState := mkWriteState {
  log_size_limit : Z;
  active_file_id : Z;
  active_offset : Z;
  file : Z;
}.

(** File contents by file id; ids and offsets are [u64]s whose sums the code
    takes not to overflow. *)
Abbreviation files := (gmap Z (list Z)).

Inductive write_outcome := WriteOk | WriteFailed (written : nat).

Inductive write_error := OpenFailed | WriteError.

(** ** File ids *)

(** [format!("{file_id}.log")] *)
Definition log_file_name (file_id : Z) : string := show file_id +:+ ".log".

Definition parse_log_file_id (name : string) : option Z :=
  s ← strip_suffix name ".log"; parse_u64 s.

(** One turn of the loop over the directory. *)
Definition note_file_id (max_file_id : option Z) (name : string) : option Z :=
  match parse_log_file_id name with
  | None => max_file_id
  | Some id => Some (match max_file_id with Some m => Z.max m id | None => id end)
  end.

(** The id after the largest one among the names in the directory. *)
Definition next_entry_log_file_id (names : list string) : option Z :=
  match foldl note_file_id None names with
  | None => Some 0
  | Some id => u64_checked_add id 1
  end.

Definition write_state_open (names : list string) (limit : Z) (fs : files)
  : option (WriteState * files) :=
  id ← next_entry_log_file_id names;
  Some (mkWriteState limit id 0 id, <[id := default [] (fs !! id)]> fs).

(** ** Writing *)

(** Wrapping sum of the bytes. *)
Definition checksum (bs : list Z) : Z := foldl (fun acc b => wrap_u64 (acc + b)) 0 bs.

Definition entry_len (e : EntryToAppend) : Z :=
  ENTRY_HEADER_LEN + Z.of_nat (length (ea_metadata e)) + Z.of_nat (length (ea_payload e)).

Definition encode_header (e : EntryToAppend) : list Z :=
  le_bytes 4 ENTRY_MAGIC ++ le_bytes 2 ENTRY_VERSION ++ le_bytes 2 ENTRY_HEADER_LEN ++
  le_bytes 8 (ea_ledger_id e) ++ le_bytes 8 (ea_entry_id e) ++
  le_bytes 4 (ea_partition e) ++
  le_bytes 4 (Z.of_nat (length (ea_metadata e))) ++
  le_bytes 4 (Z.of_nat (length (ea_payload e))) ++
  le_bytes 8 (checksum (ea_metadata e ++ ea_payload e)).

Definition encode_entry (e : EntryToAppend) : list Z :=
  encode_header e ++ ea_metadata e ++ ea_payload e.

(** The indices and the buffer the loop over the batch builds. *)
Fixpoint layout_batch (file_id cursor : Z) (batch : list EntryToAppend)
  : list EntryIndex * list Z * Z :=
  match batch with
  | [] => ([], [], cursor)
  | e :: batch =>
      let index := mkIndex (ea_ledger_id e) (ea_entry_id e) file_id cursor (entry_len e)
                     (checksum (ea_metadata e ++ ea_payload e)) (ea_partition e) in
      let '(indices, buf, stop) := layout_batch file_id (cursor + entry_len e) batch in
      (index :: indices, encode_entry e ++ buf, stop)
  end.

Definition batch_len (batch : list EntryToAppend) : Z :=
  foldr (fun e n => entry_len e + n) 0 batch.

Definition append_file (fs : files) (id : Z) (bs : list Z) : files :=
  <[id := default [] (fs !! id) ++ bs]> fs.

(** The write of the assembled buffer through the open handle. *)
Definition write_buffer (st : WriteState) (fs : files) (batch : list EntryToAppend)
    (w : write_outcome) : list (result write_error EntryIndex) * WriteState * files :=
  let '(pending, buf, cursor) := layout_batch (active_file_id st) (active_offset st) batch in
  match buf with
  | [] => ([], st, fs)
  | _ =>
      match w with
      | WriteOk =>
          (Ok <$> pending,
           mkWriteState (log_size_limit st) (active_file_id st) cursor (file st),
           append_file fs (file st) buf)
      | WriteFailed n =>
          ((fun _ => Err WriteError) <$> pending, st, append_file fs (file st) (take n buf))
      end
  end.

Definition write_batch (st : WriteState) (fs : files) (batch : list EntryToAppend)
    (open_ok : bool) (w : write_outcome)
  : list (result write_error EntryIndex) * WriteState * files :=
  match batch with
  | [] => ([], st, fs)
  | _ =>
      if (0 <? active_offset st) && (log_size_limit st <? active_offset st + batch_len batch)
      then
        let id := active_file_id st + 1 in
        if open_ok
        then write_buffer (mkWriteState (log_size_limit st) id 0 id)
               (<[id := default [] (fs !! id)]> fs) batch w
        else ((fun _ => Err OpenFailed) <$> batch,
              mkWriteState (log_size_limit st) id 0 (file st), fs)
      else write_buffer st fs batch w
  end.

(** ** Reading *)

Inductive read_error :=
| EOpen | EUnexpectedEof | EPanic
| EMagic | EVersion | EHeaderLen | EPosition | ELength | EChecksum.

Local Open Scope result_scope.

Definition read_exact (n : nat) (bs : list Z) : result read_error (list Z * list Z) :=
  if (n <=? length bs)%nat then Ok (take n bs, drop n bs) else Err EUnexpectedEof.

Definition check {E} (b : bool) (e : E) : result E unit :=
  if b then Ok tt else Err e.

(** The lengths and the checksum a header of the given version announces. *)
Definition header_lengths (version : Z) (header : list Z) : Z * Z * Z :=
  if version =? ENTRY_VERSION_LEGACY
  then (0, from_le (slice 28 32 header), from_le (slice 32 40 header))
  else (from_le (slice 28 32 header), from_le (slice 32 36 header),
        from_le (slice 36 44 header)).

(** The part of [read] after the seek, [bs] being the rest of the file. *)
Definition read_bytes (index : EntryIndex) (bs : list Z) : result read_error EntryRecord :=
  let? (prefix, rest) := read_exact 8 bs in
  let magic := from_le (slice 0 4 prefix) in
  let version := from_le (slice 4 6 prefix) in
  let header_len := from_le (slice 6 8 prefix) in
  (* header.resize(header_len); header[8..] *)
  let? _ := check (8 <=? header_len) EPanic in
  let? (tail, rest) := read_exact (Z.to_nat header_len - 8) rest in
  let header := prefix ++ tail in
  (* header[8..16], header[16..24], header[24..28] *)
  let? _ := check (28 <=? header_len) EPanic in
  let ledger := from_le (slice 8 16 header) in
  let entry := from_le (slice 16 24 header) in
  let part := i32_of_u32 (from_le (slice 24 28 header)) in
  let? _ := check (magic =? ENTRY_MAGIC) EMagic in
  let? _ := check ((version =? ENTRY_VERSION) || (version =? ENTRY_VERSION_LEGACY)) EVersion in
  let? _ := check (negb ((version =? ENTRY_VERSION_LEGACY)
                         && negb (header_len =? ENTRY_HEADER_LEN_LEGACY))) EHeaderLen in
  let? _ := check (negb ((version =? ENTRY_VERSION)
                         && negb (header_len =? ENTRY_HEADER_LEN))) EHeaderLen in
  let? _ := check ((ledger =? ix_ledger_id index) && (entry =? ix_entry_id index)) EPosition in
  let '(metadata_len, payload_len, expected) := header_lengths version header in
  let? _ := check (header_len + metadata_len + payload_len =? ix_len index) ELength in
  let? (meta, rest) := read_exact (Z.to_nat metadata_len) rest in
  let? (data, _) := read_exact (Z.to_nat payload_len) rest in
  let? _ := check ((checksum (meta ++ data) =? expected)
                   && (expected =? ix_checksum index)) EChecksum in
  Ok (mkRecord part meta data).

Definition read_entry (fs : files) (index : EntryIndex) : result read_error EntryRecord :=
  let? content := ok_or (fs !! ix_file_id index) EOpen in
  read_bytes index (drop (Z.to_nat (ix_offset index)) content).

(** ** The writer thread *)

Definition MAX_BATCH : nat := 64.

Inductive WriterMsg :=
| One (e : EntryToAppend)
| Batch (es : list EntryToAppend).

Inductive reply :=
| ReplyOne (r : result write_error EntryIndex)
| ReplyBatch (r : result write_error (list EntryIndex)).

(** [collect] into one result: all the values, or the first error. *)
Fixpoint collect_results {E A} (rs : list (result E A)) : result E (list A) :=
  match rs with
  | [] => Ok []
  | r :: rs => let? a := r in let? l := collect_results rs in Ok (a :: l)
  end.

(** Gather single requests until the batch is full, the window closes (after
    [window] more messages) or a client batch arrives. *)
Fixpoint coalesce (window : nat) (ones : list EntryToAppend) (queue : list WriterMsg)
  : list EntryToAppend * option (list EntryToAppend) * list WriterMsg :=
  match window, queue with
  | S window, One e :: queue' =>
      if (length ones <? MAX_BATCH)%nat then coalesce window (ones ++ [e]) queue'
      else (ones, None, queue)
  | S _, Batch es :: queue' =>
      if (length ones <? MAX_BATCH)%nat then (ones, Some es, queue') else (ones, None, queue)
  | _, _ => (ones, None, queue)
  end.

(** The outside world of the writer: when the window of a round closes, and how
    the file operations of the [n]-th call of [write_batch] end. *)
Record writer_env := mkWriterEnv {
  window_of : nat -> nat;
  io_of : nat -> bool * write_outcome;
}.

Definition run_batch (env : writer_env) (n : nat) (st : WriteState) (fs : files)
    (batch : list EntryToAppend) : list (result write_error EntryIndex) * WriteState * files :=
  write_batch st fs batch (io_of env n).1 (io_of env n).2.

(** The loop serves the queue until it is empty, [round] counting its turns.
    The replies are listed in the order of the requests. *)
Fixpoint write_loop (fuel : nat) (env : writer_env) (round : nat)
    (st : WriteState) (fs : files) (queue : list WriterMsg)
  : list reply * WriteState * files :=
  match fuel, queue with
  | S fuel, Batch es :: queue =>
      let '(results, st, fs) := run_batch env (2 * round) st fs es in
      let '(replies, st, fs) := write_loop fuel env (S round) st fs queue in
      (ReplyBatch (collect_results results) :: replies, st, fs)
  | S fuel, One e :: queue =>
      let '(ones, pending, queue) := coalesce (window_of env round) [e] queue in
      let '(results, st, fs) := run_batch env (2 * round) st fs ones in
      match pending with
      | None =>
          let '(replies, st, fs) := write_loop fuel env (S round) st fs queue in
          ((ReplyOne <$> results) ++ replies, st, fs)
      | Some es =>
          let '(results', st, fs) := run_batch env (2 * round + 1) st fs es in
          let '(replies, st, fs) := write_loop fuel env (S round) st fs queue in
          ((ReplyOne <$> results) ++ ReplyBatch (collect_results results') :: replies, st, fs)
      end
  | _, _ => ([], st, fs)
  end.

(** The thread opens its log file first; when that fails it answers every request
    with the error. *)
Definition writer_thread (fuel : nat) (env : writer_env) (names : list string) (limit : Z) (open_ok : bool)
    (fs : files) (queue : list WriterMsg) : list reply * files :=
  match (if open_ok then write_state_open names limit fs else None) with
  | Some (st, fs) => let '(replies, _, fs) := write_loop fuel env 0 st fs queue in (replies, fs)
  | None =>
      ((fun m => match m with
                 | One _ => ReplyOne (Err OpenFailed)
                 | Batch _ => ReplyBatch (Err OpenFailed)
                 end) <$> queue, fs)
  end.

(** ** Reading back what was encoded *)

Definition entry_ok (e : EntryToAppend) : Prop :=
  u64_ok (ea_ledger_id e) /\ u64_ok (ea_entry_id e) /\ i32_ok (ea_partition e) /\
  Z.of_nat (length (ea_metadata e)) <= U32_MAX /\ Z.of_nat (length (ea_payload e)) <= U32_MAX.

Definition record_of (e : EntryToAppend) : EntryRecord :=
  mkRecord (ea_partition e) (ea_metadata e) (ea_payload e).

Definition index_of (file_id offset : Z) (e : EntryToAppend) : EntryIndex :=
  mkIndex (ea_ledger_id e) (ea_entry_id e) file_id offset (entry_len e)
    (checksum (ea_metadata e ++ ea_payload e)) (ea_partition e).

(** The index is the entry's, and reads it. *)
Definition stored (fs : files) (e : EntryToAppend) (index : EntryIndex) : Prop :=
  ix_ledger_id index = ea_ledger_id e /\ ix_entry_id index = ea_entry_id e /\
  ix_partition index = ea_partition e /\ read_entry fs index = Ok (record_of e).

Lemma checksum_ok bs : u64_ok (checksum bs).
Proof.
  unfold checksum; cut (forall acc, u64_ok acc -> u64_ok (foldl (fun acc b => wrap_u64 (acc + b)) acc bs)).
  { intros H; apply H; mlia. }
  induction bs as [|b bs IH]; cbn; auto with pulsar.
Qed.

Lemma length_encode_header e : length (encode_header e) = 44%nat.
Proof. unfold encode_header; by rewrite !length_app, !length_le_bytes. Qed.

Lemma length_encode_entry e : Z.of_nat (length (encode_entry e)) = entry_len e.
Proof.
  unfold encode_entry, entry_len, ENTRY_HEADER_LEN.
  rewrite !length_app, length_encode_header; lia.
Qed.

Lemma read_exact_app n (x y : list Z) : length x = n -> read_exact n (x ++ y) = Ok (x, y).
Proof.
  intros <-; unfold read_exact; rewrite length_app.
  destruct (Nat.leb_spec (length x) (length x + length y)); [|lia].
  by rewrite take_app_length, drop_app_length.
Qed.

(** The prefix of the header that [read] fetches first, and the rest of it. *)
Definition header_prefix : list Z :=
  le_bytes 4 ENTRY_MAGIC ++ le_bytes 2 ENTRY_VERSION ++ le_bytes 2 ENTRY_HEADER_LEN.

Definition header_tail (e : EntryToAppend) : list Z :=
  le_bytes 8 (ea_ledger_id e) ++ le_bytes 8 (ea_entry_id e) ++
  le_bytes 4 (ea_partition e) ++
  le_bytes 4 (Z.of_nat (length (ea_metadata e))) ++
  le_bytes 4 (Z.of_nat (length (ea_payload e))) ++
  le_bytes 8 (checksum (ea_metadata e ++ ea_payload e)).

Lemma header_fields e :
  entry_ok e ->
  let header := header_prefix ++ header_tail e in
  from_le (slice 8 16 header) = ea_ledger_id e /\
  from_le (slice 16 24 header) = ea_entry_id e /\
  i32_of_u32 (from_le (slice 24 28 header)) = ea_partition e /\
  header_lengths ENTRY_VERSION header =
    (Z.of_nat (length (ea_metadata e)), Z.of_nat (length (ea_payload e)),
     checksum (ea_metadata e ++ ea_payload e)).
Proof.
  intros (Hl & He & Hp & Hm & Hd) header.
  pose proof (checksum_ok (ea_metadata e ++ ea_payload e)) as Hc.
  unfold header_lengths; cbn [Z.eqb ENTRY_VERSION ENTRY_VERSION_LEGACY Pos.eqb].
  unfold header, header_prefix, header_tail; clear header.
  rewrite <- !(assoc_L (++)).
  split_and!; slice_fields; rewrite ?from_le_bytes_small by mlia;
    [done | done | by apply i32_roundtrip | done].
Qed.

Lemma read_bytes_encoded e file_id offset post :
  entry_ok e ->
  read_bytes (index_of file_id offset e) (encode_entry e ++ post) = Ok (record_of e).
Proof.
  intros Hok; pose proof (header_fields e Hok) as (Hl & He & Hp & Hlen).
  assert (encode_entry e ++ post
          = header_prefix ++ header_tail e ++ ea_metadata e ++ ea_payload e ++ post) as ->.
  { unfold encode_entry, encode_header, header_prefix, header_tail; by rewrite <- !(assoc_L (++)). }
  unfold read_bytes; rewrite read_exact_app by done; cbn [result_bind].
  replace (from_le (slice 0 4 header_prefix)) with ENTRY_MAGIC by reflexivity.
  replace (from_le (slice 4 6 header_prefix)) with ENTRY_VERSION by reflexivity.
  replace (from_le (slice 6 8 header_prefix)) with ENTRY_HEADER_LEN by reflexivity.
  rewrite read_exact_app by (unfold header_tail; by rewrite !length_app, !length_le_bytes).
  cbn [result_bind].
  rewrite Hl, He, Hp, Hlen; cbn [index_of ix_ledger_id ix_entry_id ix_len ix_checksum].
  rewrite !Z.eqb_refl; unfold entry_len; rewrite ?Z.eqb_refl.
  unfold check; cbn -[read_exact checksum Z.to_nat].
  rewrite !Nat2Z.id, read_exact_app by done; cbn -[read_exact checksum].
  rewrite read_exact_app by done; cbn -[checksum].
  by rewrite !Z.eqb_refl.
Qed.

Lemma read_entry_at fs e file_id pre post :
  entry_ok e -> fs !! file_id = Some (pre ++ encode_entry e ++ post) ->
  stored fs e (index_of file_id (Z.of_nat (length pre)) e).
Proof.
  intros Hok Hf; split_and!; [done .. |]; unfold read_entry; cbn [index_of ix_file_id ix_offset].
  rewrite Hf, Nat2Z.id; cbn [ok_or result_bind]; rewrite drop_app_length.
  by apply read_bytes_encoded.
Qed.

(** ** Log files only grow *)

Definition fs_extends (fs fs' : files) : Prop :=
  forall id c, fs !! id = Some c -> exists c', fs' !! id = Some (c ++ c').

#[export] Instance fs_extends_preorder : PreOrder fs_extends.
Proof.
  split.
  - intros fs id c H; exists []; by rewrite app_nil_r.
  - intros f1 f2 f3 H12 H23 id c (c1 & (c2 & H)%H23)%H12.
    exists (c1 ++ c2); by rewrite (assoc_L (++)).
Qed.

Lemma append_file_extends fs id bs : fs_extends fs (append_file fs id bs).
Proof.
  intros j c Hj; unfold append_file; destruct (decide (id = j)) as [->|].
  - exists bs; by rewrite lookup_insert_eq, Hj.
  - exists []; by rewrite lookup_insert_ne, app_nil_r.
Qed.

Lemma read_exact_mono n (bs x a rest : list Z) :
  read_exact n bs = Ok (a, rest) -> read_exact n (bs ++ x) = Ok (a, rest ++ x).
Proof.
  unfold read_exact; destruct (Nat.leb_spec n (length bs)); [|done]; intros [= <- <-].
  rewrite length_app, take_app_le, drop_app_le by lia.
  by destruct (Nat.leb_spec n (length bs + length x)); [|lia].
Qed.

(** Peel the head of a successful chain of [let?]. *)
Lemma result_bind_Ok {E A B} (r : result E A) (f : A -> result E B) b :
  result_bind r f = Ok b -> exists a, r = Ok a /\ f a = Ok b.
Proof. destruct r; [by eexists | done]. Qed.

Lemma read_bytes_mono ix bs x r :
  read_bytes ix bs = Ok r -> read_bytes ix (bs ++ x) = Ok r.
Proof.
  unfold read_bytes; intros ([p r1] & E1 & H)%result_bind_Ok.
  rewrite (read_exact_mono _ _ x _ _ E1); cbn [result_bind].
  apply result_bind_Ok in H as (u & -> & H); cbn [result_bind].
  apply result_bind_Ok in H as ([t r2] & E2 & H).
  rewrite (read_exact_mono _ _ x _ _ E2); cbn [result_bind].
  do 6 (apply result_bind_Ok in H as (? & -> & H); cbn [result_bind]).
  destruct (header_lengths _ _) as [[ml pl] ex].
  apply result_bind_Ok in H as (? & -> & H); cbn [result_bind].
  apply result_bind_Ok in H as ([m r3] & E3 & H).
  rewrite (read_exact_mono _ _ x _ _ E3); cbn [result_bind].
  apply result_bind_Ok in H as ([d r4] & E4 & H).
  by rewrite (read_exact_mono _ _ x _ _ E4).
Qed.

Lemma read_entry_mono fs fs' ix r :
  fs_extends fs fs' -> read_entry fs ix = Ok r -> read_entry fs' ix = Ok r.
Proof.
  intros Hext; unfold read_entry; intros (c & Hc & H)%result_bind_Ok.
  destruct (fs !! ix_file_id ix) as [c0|] eqn:E; [|done].
  injection Hc as ->; destruct (Hext _ _ E) as (c' & ->); cbn [ok_or result_bind].
  destruct (decide (Z.to_nat (ix_offset ix) <= length c)%nat).
  - rewrite drop_app_le by done; by apply read_bytes_mono.
  - rewrite drop_ge in H by lia; unfold read_bytes in H; done.
Qed.

Lemma stored_mono fs fs' e ix : fs_extends fs fs' -> stored fs e ix -> stored fs' e ix.
Proof. intros Hext (? & ? & ? & ?); split_and!; [done .. |]; by eapply read_entry_mono. Qed.

(** ** The layout of a batch *)

Lemma batch_len_cons e batch : batch_len (e :: batch) = entry_len e + batch_len batch.
Proof. done. Qed.

Lemma layout_batch_spec id cursor batch :
  let '(ixs, buf, stop) := layout_batch id cursor batch in
  buf = concat (encode_entry <$> batch) /\ stop = cursor + Z.of_nat (length buf) /\
  batch_len batch = Z.of_nat (length buf) /\ length ixs = length batch.
Proof.
  revert cursor; induction batch as [|e batch IH]; intros cursor; cbn [layout_batch].
  { split_and!; [done | cbn; lia | done | done]. }
  specialize (IH (cursor + entry_len e)).
  destruct (layout_batch id (cursor + entry_len e) batch) as [[ixs buf] stop].
  destruct IH as (-> & -> & Hb & Hix).
  rewrite batch_len_cons, Hb; pose proof (length_encode_entry e).
  cbn [fmap list_fmap concat length]; rewrite length_app; split_and!; [done | lia | lia | lia].
Qed.

Lemma layout_batch_stored fs id pre post batch :
  Forall entry_ok batch ->
  let '(ixs, buf, _) := layout_batch id (Z.of_nat (length pre)) batch in
  fs !! id = Some (pre ++ buf ++ post) ->
  Forall2 (stored fs) batch ixs.
Proof.
  revert pre; induction batch as [|e batch IH]; intros pre Hok; cbn [layout_batch]; [constructor |].
  apply Forall_cons in Hok as [He Hok].
  specialize (IH (pre ++ encode_entry e) Hok).
  rewrite length_app, Nat2Z.inj_add, length_encode_entry in IH.
  destruct (layout_batch _ _ batch) as [[ixs buf] stop]; intros Hf.
  rewrite <- (assoc_L (++) _ buf) in Hf; constructor.
  - by eapply read_entry_at.
  - apply IH; by rewrite <- !(assoc_L (++)).
Qed.

(** ** The writer's invariant *)

(** The handle writes to the active file, the offset is that file's length, and
    no file has a larger id. *)
Definition log_wf (st : WriteState) (fs : files) : Prop :=
  file st = active_file_id st /\
  (exists c, fs !! active_file_id st = Some c /\ active_offset st = Z.of_nat (length c)) /\
  forall id, active_file_id st < id -> fs !! id = None.

(** Opens succeed and a failing write leaves nothing in the file. *)
Definition io_clean (io : bool * write_outcome) : Prop :=
  io.1 = true /\ (io.2 = WriteOk \/ io.2 = WriteFailed 0).

Definition is_ok {E A} (r : result E A) : Prop := exists a, r = Ok a.

Definition answered (fs : files) (e : EntryToAppend) (r : result write_error EntryIndex) : Prop :=
  forall ix, r = Ok ix -> stored fs e ix.

(** What one call of [write_batch] promises. *)
Definition batch_served (io : bool * write_outcome) (batch : list EntryToAppend)
    (fs : files) (out : list (result write_error EntryIndex) * WriteState * files) : Prop :=
  let '(rs, st', fs') := out in
  log_wf st' fs' /\ fs_extends fs fs' /\ Forall2 (answered fs') batch rs /\
  (io.2 = WriteOk -> Forall is_ok rs).

Lemma answered_mono fs fs' e r : fs_extends fs fs' -> answered fs e r -> answered fs' e r.
Proof. intros Hext H ix Hr; eapply stored_mono; eauto. Qed.

Lemma Forall2_answered_ok fs batch ixs :
  Forall2 (stored fs) batch ixs -> Forall2 (answered fs) batch (Ok <$> ixs).
Proof.
  intros H; apply Forall2_fmap_r; eapply Forall2_impl; [done |].
  by intros e ix Hs ix' [= <-].
Qed.

Lemma Forall2_answered_err {A} fs batch (l : list A) err :
  length l = length batch -> Forall2 (answered fs) batch ((fun _ => Err err) <$> l).
Proof.
  intros Hl; apply Forall2_fmap_r, Forall2_same_length_lookup_2; [done |].
  by intros i e x _ _ ix.
Qed.

Lemma write_buffer_spec st fs batch w b :
  log_wf st fs -> io_clean (b, w) -> Forall entry_ok batch -> batch <> [] ->
  batch_served (b, w) batch fs (write_buffer st fs batch w) /\
  (w = WriteOk -> active_offset (write_buffer st fs batch w).1.2 = active_offset st + batch_len batch).
Proof.
  intros (Hfile & (c & Hc & Hoff) & Hfresh) (_ & Hw) Hok Hne.
  unfold write_buffer.
  pose proof (layout_batch_spec (active_file_id st) (active_offset st) batch) as Hspec.
  pose proof (layout_batch_stored (append_file fs (file st) (concat (encode_entry <$> batch)))
                (active_file_id st) c [] batch Hok) as Hst.
  rewrite <- Hoff in Hst.
  destruct (layout_batch _ _ batch) as [[ixs buf] stop].
  destruct Hspec as (Hbuf & Hstop & Hlen & Hix).
  rewrite <- Hbuf, app_nil_r, Hfile in Hst.
  assert (buf <> []) as Hnil.
  { destruct batch as [|e batch]; [done |]; by rewrite Hbuf. }
  destruct buf as [|z buf]; [done |]; clear Hnil; rewrite Hfile.
  destruct Hw as [Hw|Hw]; cbn in Hw; subst w; cbn [fst snd active_offset].
  - split; [|lia]; split_and!.
    + split_and!; [done | |]; cbn [active_file_id active_offset].
      * exists (c ++ z :: buf); unfold append_file; rewrite lookup_insert_eq, Hc.
        split; [done |]; rewrite length_app, Hstop; lia.
      * intros id Hid; unfold append_file; rewrite lookup_insert_ne by lia; auto.
    + apply append_file_extends.
    + apply Forall2_answered_ok, Hst; unfold append_file; by rewrite lookup_insert_eq, Hc.
    + intros _; apply Forall_fmap, Forall_true; by eexists.
  - split; [|done]; cbn [take].
    assert (append_file fs (active_file_id st) [] = fs) as ->.
    { unfold append_file; rewrite Hc; cbn; rewrite app_nil_r; by apply insert_id. }
    split_and!; [by repeat split; eauto | done | by apply Forall2_answered_err | done].
Qed.

Lemma log_wf_roll st fs :
  log_wf st fs ->
  let id := active_file_id st + 1 in
  log_wf (mkWriteState (log_size_limit st) id 0 id) (<[id := default [] (fs !! id)]> fs) /\
  fs_extends fs (<[id := default [] (fs !! id)]> fs).
Proof.
  intros (_ & _ & Hfresh) id; rewrite (Hfresh id) by lia; cbn [default]; split.
  - split_and!; [done | |]; cbn [active_file_id active_offset].
    + exists []; by rewrite lookup_insert_eq.
    + intros j Hj; rewrite lookup_insert_ne by lia; apply Hfresh; lia.
  - intros j c Hj; exists []; rewrite app_nil_r, lookup_insert_ne; [done |].
    intros <-; rewrite Hfresh in Hj; [done | lia].
Qed.

Lemma write_batch_spec st fs batch b w :
  log_wf st fs -> io_clean (b, w) -> Forall entry_ok batch ->
  batch_served (b, w) batch fs (write_batch st fs batch b w).
Proof.
  intros Hwf Hio Hok; unfold write_batch.
  destruct batch as [|e batch]; [by split_and! |].
  case_bool; [|by apply write_buffer_spec].
  destruct (log_wf_roll st fs Hwf) as [Hwf' Hext]; pose proof Hio as [Hb _]; cbn in Hb; subst b.
  pose proof (write_buffer_spec _ _ (e :: batch) w true Hwf' Hio Hok ltac:(done)) as [H _].
  unfold batch_served in *.
  destruct (write_buffer _ _ _ _) as [[rs st'] fs'].
  destruct H as (? & ? & ? & ?); split_and!; [done | by etrans | done | done].
Qed.

(** ** The writer thread serves its queue *)

Definition msg_entries (m : WriterMsg) : list EntryToAppend :=
  match m with One e => [e] | Batch es => es end.

(** The reply fits its request: every index in it reads the request's entry. *)
Definition served (fs : files) (m : WriterMsg) (r : reply) : Prop :=
  match m, r with
  | One e, ReplyOne r => answered fs e r
  | Batch es, ReplyBatch r => forall ixs, r = Ok ixs -> Forall2 (stored fs) es ixs
  | _, _ => False
  end.

Definition reply_is_ok (r : reply) : Prop :=
  match r with ReplyOne r => is_ok r | ReplyBatch r => is_ok r end.

Lemma served_mono fs fs' m r : fs_extends fs fs' -> served fs m r -> served fs' m r.
Proof.
  intros Hext; destruct m, r; cbn; try done; [by apply answered_mono |].
  intros H ixs Hr; eapply Forall2_impl; [by apply H |]; intros e ix; by apply stored_mono.
Qed.

Lemma collect_results_spec fs es rs :
  Forall2 (answered fs) es rs ->
  forall ixs, collect_results rs = Ok ixs -> Forall2 (stored fs) es ixs.
Proof.
  induction 1 as [|e r es rs Ha _ IH]; cbn [collect_results]; intros ixs.
  - intros [= <-]; constructor.
  - intros (ix & -> & (l & Hl & [= <-])%result_bind_Ok)%result_bind_Ok.
    constructor; [by apply Ha | by apply IH].
Qed.

Lemma collect_results_ok {E A} (rs : list (result E A)) :
  Forall is_ok rs -> is_ok (collect_results rs).
Proof.
  induction 1 as [|r rs (a & ->) _ (l & IH)]; cbn; [by eexists |].
  rewrite IH; by eexists.
Qed.

Lemma coalesce_spec window ones queue :
  let '(ones', pending, queue') := coalesce window ones queue in
  exists more, ones' = ones ++ more /\
    queue = (One <$> more) ++ (match pending with Some es => [Batch es] | None => [] end) ++ queue'.
Proof.
  revert ones queue; induction window as [|w IH]; intros ones queue; cbn [coalesce].
  { exists []; by rewrite app_nil_r. }
  destruct queue as [|[e|es] queue]; [exists []; by rewrite app_nil_r | |].
  all: destruct (length ones <? MAX_BATCH)%nat; [|exists []; by rewrite app_nil_r].
  - specialize (IH (ones ++ [e]) queue).
    destruct (coalesce w _ _) as [[ones' pending] queue'].
    destruct IH as (more & -> & ->); exists (e :: more); by rewrite <- (assoc_L (++)).
  - exists []; by rewrite app_nil_r.
Qed.

Lemma run_batch_spec env n st fs es :
  log_wf st fs -> io_clean (io_of env n) -> Forall entry_ok es ->
  batch_served (io_of env n) es fs (run_batch env n st fs es).
Proof. unfold run_batch; destruct (io_of env n); apply write_batch_spec. Qed.

Lemma served_ones fs es rs :
  Forall2 (answered fs) es rs -> Forall2 (served fs) (One <$> es) (ReplyOne <$> rs).
Proof. intros H; apply Forall2_fmap; eapply Forall2_impl; [done | by intros]. Qed.

(** What serving a queue promises; closed under serving one part before the rest. *)
Definition queue_served (env : writer_env) (queue : list WriterMsg) (fs : files)
    (out : list reply * WriteState * files) : Prop :=
  let '(replies, st', fs') := out in
  log_wf st' fs' /\ fs_extends fs fs' /\ Forall2 (served fs') queue replies /\
  ((forall n, (io_of env n).2 = WriteOk) -> Forall reply_is_ok replies).

Lemma queue_served_app env q1 r1 st1 fs q2 r2 st2 fs1 fs2 :
  queue_served env q1 fs (r1, st1, fs1) -> queue_served env q2 fs1 (r2, st2, fs2) ->
  queue_served env (q1 ++ q2) fs (r1 ++ r2, st2, fs2).
Proof.
  intros (_ & E1 & S1 & O1) (W2 & E2 & S2 & O2); split_and!; [done | by etrans | |].
  - apply Forall2_app; [|done]; eapply Forall2_impl; [done |].
    intros m r; by apply served_mono.
  - intros H; apply Forall_app; auto.
Qed.

Lemma run_ones_served env n st fs es :
  log_wf st fs -> io_clean (io_of env n) -> Forall entry_ok es ->
  let '(rs, st', fs') := run_batch env n st fs es in
  queue_served env (One <$> es) fs (ReplyOne <$> rs, st', fs').
Proof.
  intros Hwf Hio Hes; pose proof (run_batch_spec env n st fs es Hwf Hio Hes) as H.
  destruct (run_batch env n st fs es) as [[rs st'] fs'].
  destruct H as (? & ? & ? & Hall); split_and!; [done | done | by apply served_ones |].
  intros Hio'; by apply Forall_fmap, Hall.
Qed.

Lemma run_client_batch_served env n st fs es :
  log_wf st fs -> io_clean (io_of env n) -> Forall entry_ok es ->
  let '(rs, st', fs') := run_batch env n st fs es in
  queue_served env [Batch es] fs ([ReplyBatch (collect_results rs)], st', fs').
Proof.
  intros Hwf Hio Hes; pose proof (run_batch_spec env n st fs es Hwf Hio Hes) as H.
  destruct (run_batch env n st fs es) as [[rs st'] fs'].
  destruct H as (? & ? & ? & Hall); split_and!; [done | done | |].
  - constructor; [intros ixs; by apply collect_results_spec | constructor].
  - intros Hio'; constructor; [by apply collect_results_ok, Hall | constructor].
Qed.

Lemma write_loop_spec fuel env round st fs queue :
  (length queue <= fuel)%nat -> log_wf st fs -> (forall n, io_clean (io_of env n)) ->
  Forall entry_ok (queue ≫= msg_entries) ->
  queue_served env queue fs (write_loop fuel env round st fs queue).
Proof.
  intros Hlen Hwf Hio; revert round st fs queue Hlen Hwf.
  induction fuel as [|fuel IH]; intros round st fs [|m queue] Hlen Hwf Hok;
    try (cbn in Hlen; lia); try by split_and!.
  rewrite bind_cons in Hok; apply Forall_app in Hok as [Hm Hok]; cbn [length] in Hlen.
  destruct m as [e|es]; cbn [write_loop msg_entries] in *.
  - pose proof (coalesce_spec (window_of env round) [e] queue) as Hco.
    destruct (coalesce _ _ _) as [[ones pending] queue'].
    destruct Hco as (more & -> & ->).
    rewrite !bind_app, !Forall_app in Hok; destruct Hok as (Hmore & Hpend & Hok).
    assert (Forall entry_ok ([e] ++ more)) as Hones.
    { apply Forall_app; split; [done |]; clear -Hmore.
      induction more; cbn in *; [constructor | apply Forall_cons in Hmore as []; auto]. }
    pose proof (run_ones_served env (2 * round) st fs _ Hwf (Hio _) Hones) as H1.
    destruct (run_batch env (2 * round) st fs ([e] ++ more)) as [[rs1 st1] fs1].
    rewrite !length_app in Hlen; destruct pending as [es|]; cbn [length app] in *.
    + rewrite bind_cons, app_nil_r in Hpend.
      pose proof (run_client_batch_served env (2 * round + 1) st1 fs1 es
                    (proj1 H1) (Hio _) Hpend) as H2.
      destruct (run_batch env (2 * round + 1) st1 fs1 es) as [[rs2 st2] fs2].
      specialize (IH (S round) st2 fs2 queue' ltac:(lia) (proj1 H2) Hok).
      destruct (write_loop _ _ _ _ _ _) as [[rs3 st3] fs3].
      apply (queue_served_app _ _ _ _ _ _ _ _ _ _ H1).
      by apply (queue_served_app _ _ _ _ _ _ _ _ _ _ H2).
    + specialize (IH (S round) st1 fs1 queue' ltac:(lia) (proj1 H1) Hok).
      destruct (write_loop _ _ _ _ _ _) as [[rs3 st3] fs3].
      by apply (queue_served_app _ _ _ _ _ _ _ _ _ _ H1).
  - pose proof (run_client_batch_served env (2 * round) st fs es Hwf (Hio _) Hm) as H1.
    destruct (run_batch env (2 * round) st fs es) as [[rs1 st1] fs1].
    specialize (IH (S round) st1 fs1 queue ltac:(lia) (proj1 H1) Hok).
    destruct (write_loop _ _ _ _ _ _) as [[rs3 st3] fs3].
    by apply (queue_served_app _ _ _ _ _ _ _ _ _ _ H1).
Qed.

(** ** Properties *)

Lemma parse_log_file_name id : u64_ok id -> parse_log_file_id (log_file_name id) = Some id.
Proof.
  intros; unfold parse_log_file_id, log_file_name.
  rewrite strip_suffix_app; cbn; by apply parse_show.
Qed.

Lemma note_file_ids_mono names a :
  exists b, foldl note_file_id (Some a) names = Some b /\ a <= b.
Proof.
  revert a; induction names as [|x names IH]; intros a; cbn; [eexists; split; [done | lia] |].
  unfold note_file_id at 2; destruct (parse_log_file_id x) as [id|]; [|done].
  destruct (IH (Z.max a id)) as (b & -> & Hb); eexists; split; [done | lia].
Qed.

Lemma note_file_ids_elem names acc id :
  u64_ok id -> log_file_name id ∈ names ->
  exists b, foldl note_file_id acc names = Some b /\ id <= b.
Proof.
  intros Hid; revert acc; induction names as [|x names IH]; intros acc Hin;
    [by apply elem_of_nil in Hin |].
  cbn [foldl]; apply elem_of_cons in Hin as [<-|Hin]; [|by apply IH].
  unfold note_file_id at 2; rewrite parse_log_file_name by done.
  set (m := match acc with Some _ => _ | None => _ end).
  destruct (note_file_ids_mono names m) as (b & -> & Hb); exists b; split; [done |].
  unfold m in Hb; destruct acc; lia.
Qed.

Lemma next_entry_log_file_id_fresh names next id :
  next_entry_log_file_id names = Some next -> u64_ok id -> log_file_name id ∈ names -> id < next.
Proof.
  unfold next_entry_log_file_id; intros Hn Hid Hin.
  destruct (note_file_ids_elem names None id Hid Hin) as (b & E & Hb); rewrite E in Hn.
  unfold u64_checked_add in Hn; case_bool; [|done]; injection Hn as <-; lia.
Qed.

(** Opening the writer picks a file id above every log file in the
    directory: the new state satisfies the writer's invariant and no existing
    file is touched. *)
Theorem entry_log_open_fresh names limit fs st fs' :
  (forall id c, fs !! id = Some c -> u64_ok id /\ log_file_name id ∈ names) ->
  write_state_open names limit fs = Some (st, fs') ->
  log_wf st fs' /\ active_offset st = 0 /\
  fs !! active_file_id st = None /\ fs_extends fs fs'.
Proof.
  unfold write_state_open; intros Hdir H.
  destruct (next_entry_log_file_id names) as [next|] eqn:E; cbn in H; [|done].
  assert (forall id, next <= id -> fs !! id = None) as Hfresh.
  { intros id Hle; destruct (fs !! id) as [c|] eqn:Ec; [|done].
    destruct (Hdir id c Ec) as [Hid Hin].
    pose proof (next_entry_log_file_id_fresh _ _ _ E Hid Hin); lia. }
  injection H as <- <-; rewrite (Hfresh next) by lia; cbn.
  split_and!; [|done | apply Hfresh; lia |].
  - split_and!; [done | exists []; by rewrite lookup_insert_eq |].
    cbn; intros id Hid; rewrite lookup_insert_ne by lia; apply Hfresh; lia.
  - intros id c Hc; exists []; rewrite app_nil_r, lookup_insert_ne; [done |].
    intros <-; rewrite Hfresh in Hc; [done | lia].
Qed.

Lemma entry_log_open_fresh_witness :
  exists st fs', write_state_open ["0.log"; "x.log"; "7.log"] 100 {[ 0 := [1]; 7 := [2] ]}
                 = Some (st, fs') /\ active_file_id st = 8 /\ log_wf st fs'.
Proof.
  eexists _, _; split; [reflexivity |]; split; [reflexivity |].
  refine (proj1 (entry_log_open_fresh ["0.log"; "x.log"; "7.log"] 100 {[ 0 := [1]; 7 := [2] ]}
                   _ _ _ eq_refl)).
  intros id c [[<- _]|[_ [<- _]%lookup_singleton_Some]]%lookup_insert_Some;
    (split; [mlia |]); [left | right; right; left].
Defined.

(** The thread from its start, on any directory: also when the log file cannot be
    opened every request gets one reply of its kind. *)
Lemma writer_thread_serves env names limit open_ok fs queue replies fs' :
  (forall id c, fs !! id = Some c -> u64_ok id /\ log_file_name id ∈ names) ->
  (forall n, io_clean (io_of env n)) -> Forall entry_ok (queue ≫= msg_entries) ->
  writer_thread (length queue) env names limit open_ok fs queue = (replies, fs') ->
  Forall2 (served fs') queue replies /\ forall e ix, stored fs e ix -> stored fs' e ix.
Proof.
  intros Hdir Hio Hok; unfold writer_thread.
  destruct (if open_ok then write_state_open names limit fs else None) as [[st fs1]|] eqn:Eo.
  - destruct open_ok; [|done]; destruct (entry_log_open_fresh _ _ _ _ _ Hdir Eo) as (Hwf & _ & _ & Hext).
    pose proof (write_loop_spec (length queue) env 0 st fs1 queue ltac:(lia) Hwf Hio Hok) as H.
    destruct (write_loop _ _ _ _ _ _) as [[rs st'] fs2]; destruct H as (_ & Hext' & Hs & _); intros [= <- <-].
    split; [done |]; intros e ix; apply stored_mono; by etrans.
  - intros [= <- <-]; split; [|done]; clear; induction queue as [|[] queue IH]; constructor; done.
Qed.

(** C13: The writer thread serves its queue: whatever the coalescing windows,
    and even when writes fail, every request gets one reply of its kind in
    order, each index in a reply reads its entry back, entries stored before
    stay readable, and the invariant holds at the end.  When no write fails
    every reply is a success. *)
Theorem writer_serves_queue env st fs queue replies st' fs' :
  log_wf st fs -> (forall n, io_clean (io_of env n)) ->
  Forall entry_ok (queue ≫= msg_entries) ->
  write_loop (length queue) env 0 st fs queue = (replies, st', fs') ->
  log_wf st' fs' /\ Forall2 (served fs') queue replies /\
  (forall e ix, stored fs e ix -> stored fs' e ix) /\
  ((forall n, (io_of env n).2 = WriteOk) -> Forall reply_is_ok replies).
Proof.
  intros Hwf Hio Hok E.
  pose proof (write_loop_spec (length queue) env 0 st fs queue ltac:(lia) Hwf Hio Hok) as H.
  rewrite E in H; destruct H as (? & Hext & ? & ?); split_and!; [done | done | | done].
  intros e ix; by apply stored_mono.
Qed.

(** A writer on an empty directory, three requests, the second write failing. *)
Definition example_state : WriteState := mkWriteState 100 0 0 0.
Definition example_files : files := {[ 0 := [] ]}.
Definition example_queue : list WriterMsg :=
  [ One (mkEntry 1 0 (-1) [7] [8; 9]); Batch [mkEntry 1 1 0 [] [255]; mkEntry 1 2 0 [] []];
    Batch [mkEntry 1 3 2 [1] []] ].
Definition example_env : writer_env :=
  mkWriterEnv (fun _ => 5%nat) (fun n => (true, if (n =? 1)%nat then WriteFailed 0 else WriteOk)).

Lemma example_log_wf : log_wf example_state example_files.
Proof.
  split_and!; [done | by exists [] |].
  intros id Hid; apply lookup_singleton_ne; cbn in Hid; lia.
Qed.

Lemma example_queue_ok : Forall entry_ok (example_queue ≫= msg_entries).
Proof. repeat constructor; cbn; mlia. Qed.

Lemma writer_serves_queue_witness :
  exists replies st' fs',
    write_loop 3 example_env 0 example_state example_files example_queue = (replies, st', fs') /\
    log_wf st' fs' /\ Forall2 (served fs') example_queue replies.
Proof.
  destruct (write_loop 3 example_env 0 example_state example_files example_queue)
    as [[replies st'] fs'] eqn:E.
  exists replies, st', fs'; split; [done |].
  destruct (writer_serves_queue example_env example_state example_files example_queue
              replies st' fs' example_log_wf) as (? & ? & _); [|exact example_queue_ok | done | done].
  intros n; split; [done |]; cbn; destruct (n =? 1)%nat; auto.
Defined.

(** C39: Log files are append-only whatever the file system answers: after any
    call of [write_batch], failed opens and partial writes included, every
    index that could be read still reads the same record. *)
Theorem write_batch_append_only st fs batch open_ok w ix r :
  fs !! (active_file_id st + 1) = None ->
  read_entry fs ix = Ok r -> read_entry (write_batch st fs batch open_ok w).2 ix = Ok r.
Proof.
  intros Hnew; apply read_entry_mono.
  assert (forall st fs, fs_extends fs (write_buffer st fs batch w).2) as Hbuf.
  { intros s f; unfold write_buffer; destruct (layout_batch _ _ batch) as [[ixs [|b buf]] stop];
      [done |]; destruct w; apply append_file_extends. }
  unfold write_batch; destruct batch as [|e batch]; [done |].
  case_bool; [|apply Hbuf]; destruct open_ok; [|done].
  etrans; [|apply Hbuf]; intros id c Hc; exists []; rewrite app_nil_r, lookup_insert_ne; [done |].
  congruence.
Qed.

Lemma write_batch_append_only_witness :
  read_entry
    (write_batch (mkWriteState 100 0 47 0) {[ 0 := encode_entry (mkEntry 1 0 (-1) [7] [8; 9]) ]}
       [mkEntry 1 1 0 [] [3]] true (WriteFailed 11)).2
    (mkIndex 1 0 0 0 47 24 (-1)) = Ok (mkRecord (-1) [7] [8; 9]).
Proof. apply write_batch_append_only; reflexivity. Defined.

(** A batch is written to one file, and the file stays within the size
    limit unless the batch alone exceeds it. *)
Theorem log_file_size_bound st fs batch st' fs' rs :
  log_wf st fs -> Forall entry_ok batch -> batch <> [] ->
  write_batch st fs batch true WriteOk = (rs, st', fs') ->
  active_offset st' <= log_size_limit st \/
  (active_offset st' = batch_len batch /\ log_size_limit st < batch_len batch).
Proof.
  intros Hwf Hok Hne E; pose proof Hwf as (_ & (c & _ & Hoff) & _).
  unfold write_batch in E; destruct batch as [|e batch]; [done |].
  case_bool; [pose proof (proj1 (log_wf_roll st fs Hwf)) as Hwf' | pose proof Hwf as Hwf'].
  all: pose proof (proj2 (write_buffer_spec _ _ (e :: batch) WriteOk true Hwf'
                            (conj eq_refl (or_introl eq_refl)) Hok Hne) eq_refl) as Hlen;
    rewrite E in Hlen; cbn [fst snd active_offset] in Hlen; lia.
Qed.

Lemma log_file_size_bound_witness :
  exists rs st' fs',
    write_batch (mkWriteState 100 0 0 0) {[ 0 := [] ]} [mkEntry 1 1 0 [] [3]] true WriteOk
    = (rs, st', fs') /\ active_offset st' = 45 /\ active_offset st' <= 100.
Proof.
  eexists _, _, _; split; [reflexivity |]; split; [reflexivity |].
  destruct (log_file_size_bound (mkWriteState 100 0 0 0) {[ 0 := [] ]} [mkEntry 1 1 0 [] [3]]
              _ _ _ example_log_wf ltac:(repeat constructor; cbn; mlia) ltac:(done) eq_refl)
    as [?|[_ ?]]; [done | by cbn in *].
Defined.

(** An entry in the format of version 1, which has no metadata. *)
Definition legacy_entry (e : EntryToAppend) : list Z :=
  le_bytes 4 ENTRY_MAGIC ++ le_bytes 2 ENTRY_VERSION_LEGACY ++ le_bytes 2 ENTRY_HEADER_LEN_LEGACY ++
  le_bytes 8 (ea_ledger_id e) ++ le_bytes 8 (ea_entry_id e) ++
  le_bytes 4 (ea_partition e) ++
  le_bytes 4 (Z.of_nat (length (ea_payload e))) ++
  le_bytes 8 (checksum (ea_payload e)) ++ ea_payload e.

(** The file holds the record at the index: the bytes there are the encoding of
    its partition, metadata and payload under the ids of the index, in the current
    format or in the legacy one, with the length and the checksum of the index. *)
Definition record_at (content : list Z) (ix : EntryIndex) (r : EntryRecord) : Prop :=
  let e := mkEntry (ix_ledger_id ix) (ix_entry_id ix) (er_partition r) (er_metadata r) (er_payload r) in
  i32_ok (er_partition r) /\ checksum (er_metadata r ++ er_payload r) = ix_checksum ix /\
  exists encoded post, drop (Z.to_nat (ix_offset ix)) content = encoded ++ post /\
    Z.of_nat (length encoded) = ix_len ix /\
    (encoded = encode_entry e \/ encoded = legacy_entry e /\ er_metadata r = []).

Lemma read_exact_inv n bs (a rest : list Z) :
  read_exact n bs = Ok (a, rest) -> bs = a ++ rest /\ length a = n.
Proof.
  unfold read_exact; destruct (Nat.leb_spec n (length bs)); [|done]; intros [= <- <-].
  rewrite take_drop, length_take; split; [done | lia].
Qed.

Lemma check_inv {E} b (e : E) u : check b e = Ok u -> b = true.
Proof. by destruct b. Qed.

Lemma header_lengths_nonneg version header ml pl ex :
  Forall byte_ok header -> header_lengths version header = (ml, pl, ex) -> 0 <= ml /\ 0 <= pl.
Proof.
  intros Hh; unfold header_lengths; case_bool; intros [= <- <- <-];
    split; try lia; by apply from_le_range, slice_ok.
Qed.

(** A header is the bytes of its fields. *)
Lemma header_bytes h :
  Forall byte_ok h -> (28 <= length h)%nat ->
  h = le_bytes 4 (from_le (slice 0 4 h)) ++ le_bytes 2 (from_le (slice 4 6 h)) ++ le_bytes 2 (from_le (slice 6 8 h)) ++
      le_bytes 8 (from_le (slice 8 16 h)) ++ le_bytes 8 (from_le (slice 16 24 h)) ++
      le_bytes 4 (i32_of_u32 (from_le (slice 24 28 h))) ++ slice 28 (length h) h.
Proof.
  intros Hb Hl; rewrite le_bytes_i32.
  rewrite !field_bytes by (done || lia); rewrite !slice_join by lia; by rewrite slice_all.
Qed.

(** A header whose fields passed the checks, before the bytes it announces, is the
    encoding of the entry. *)
Lemma header_encodes h ix ml pl ex version (m d : list Z) :
  Forall byte_ok h -> from_le (slice 0 4 h) = ENTRY_MAGIC -> from_le (slice 4 6 h) = version ->
  from_le (slice 6 8 h) = Z.of_nat (length h) ->
  (version = ENTRY_VERSION /\ Z.of_nat (length h) = ENTRY_HEADER_LEN \/
   version = ENTRY_VERSION_LEGACY /\ Z.of_nat (length h) = ENTRY_HEADER_LEN_LEGACY) ->
  from_le (slice 8 16 h) = ix_ledger_id ix -> from_le (slice 16 24 h) = ix_entry_id ix ->
  header_lengths version h = (ml, pl, ex) -> Z.of_nat (length m) = ml -> Z.of_nat (length d) = pl ->
  checksum (m ++ d) = ex ->
  let e := mkEntry (ix_ledger_id ix) (ix_entry_id ix) (i32_of_u32 (from_le (slice 24 28 h))) m d in
  h ++ m ++ d = encode_entry e \/ h ++ m ++ d = legacy_entry e /\ m = [].
Proof.
  intros Hb Hmagic Hv Hl Hver Hli Hei Hlen Hm Hd Hsum e.
  pose proof (header_bytes h Hb) as Hh; rewrite Hmagic, Hv, Hl, Hli, Hei in Hh.
  unfold header_lengths in Hlen; destruct Hver as [[-> Elen]|[-> Elen]]; cbn [Z.eqb ENTRY_VERSION ENTRY_VERSION_LEGACY Pos.eqb] in Hlen;
    injection Hlen as <- <- <-; unfold ENTRY_HEADER_LEN, ENTRY_HEADER_LEN_LEGACY in Elen.
  - left; replace (length h) with 44%nat in Hh by lia.
    rewrite Hh at 1 by lia; unfold encode_entry, encode_header, e; cbn [ea_ledger_id ea_entry_id ea_partition ea_metadata ea_payload].
    rewrite Hm, Hd, Hsum, !(field_bytes _ _ _ h) by (done || lia); rewrite <- !(assoc_L (++)).
    do 6 f_equal; rewrite !(assoc_L (++)), !slice_join by lia; done.
  - right; destruct m as [|]; [|done]; split; [|done]; replace (length h) with 40%nat in Hh by lia.
    rewrite Hh at 1 by lia; unfold legacy_entry, e; cbn [ea_ledger_id ea_entry_id ea_partition ea_metadata ea_payload app] in *.
    rewrite Hd, Hsum, !(field_bytes _ _ _ h) by (done || lia); rewrite <- !(assoc_L (++)).
    do 6 f_equal; rewrite !(assoc_L (++)), !slice_join by lia; done.
Qed.

(** C38: Reading is sound: a record that [read] returns is exactly what the file
    holds at the index.  The bytes there are the encoding of the returned partition,
    metadata and payload, each in its place, under the ledger and entry ids of the
    index, with the length and the checksum of the index, in the current format or in
    the legacy one.  A torn or misplaced entry is never returned. *)
Theorem read_entry_sound fs ix r content :
  fs !! ix_file_id ix = Some content -> Forall byte_ok content ->
  read_entry fs ix = Ok r -> record_at content ix r.
Proof.
  intros Hc Hb; unfold read_entry; rewrite Hc; cbn [ok_or result_bind].
  unfold record_at; apply (Forall_drop _ (Z.to_nat (ix_offset ix))) in Hb; revert Hb.
  generalize (drop (Z.to_nat (ix_offset ix)) content) as bs; intros bs Hb.
  unfold read_bytes; intros ([p r1] & [-> Hp]%read_exact_inv & H)%result_bind_Ok.
  apply result_bind_Ok in H as (? & Hh%check_inv & H).
  apply result_bind_Ok in H as ([t r2] & [-> Ht]%read_exact_inv & H).
  rewrite (assoc_L (++)) in Hb; apply Forall_app in Hb as [Hhd Hb].
  rewrite (slice_prefix 6 8 p t) in H, Ht, Hh by lia.
  rewrite (slice_prefix 0 4 p t), (slice_prefix 4 6 p t) in H by lia; set (h := p ++ t) in *.
  assert (length h = (length p + length t)%nat) as Hlt by apply length_app.
  assert (from_le (slice 6 8 h) = Z.of_nat (length h)) as Hlh by lia.
  rewrite Hlh in H; apply result_bind_Ok in H as (? & _ & H).
  apply result_bind_Ok in H as (? & Hmagic%check_inv & H).
  apply result_bind_Ok in H as (? & Hver%check_inv & H).
  apply result_bind_Ok in H as (? & Hv1%check_inv & H); apply result_bind_Ok in H as (? & Hv2%check_inv & H).
  apply result_bind_Ok in H as (? & Hpos%check_inv & H).
  destruct (header_lengths _ _) as [[ml pl] ex] eqn:El.
  destruct (header_lengths_nonneg _ _ _ _ _ Hhd El) as [Hml Hpl].
  apply result_bind_Ok in H as (? & Hlen%check_inv & H).
  apply result_bind_Ok in H as ([m r3] & [-> Hm]%read_exact_inv & H).
  apply result_bind_Ok in H as ([d r4] & [-> Hd]%read_exact_inv & H).
  apply result_bind_Ok in H as (? & Hsum%check_inv & [= <-]); cbn [er_partition er_metadata er_payload].
  split_and!; [|lia | exists (h ++ m ++ d), r4; split_and!].
  - apply i32_of_u32_ok; pose proof (from_le_range (slice 24 28 h) (slice_ok _ _ _ Hhd)) as Hr.
    assert (length (slice 24 28 h) <= 4)%nat by (unfold slice; rewrite length_take; lia).
    assert (256 ^ Z.of_nat (length (slice 24 28 h)) <= 256 ^ 4) by (apply Z.pow_le_mono_r; lia); mlia.
  - unfold h; by rewrite <- !(assoc_L (++)).
  - rewrite !length_app; lia.
  - eapply header_encodes; try done; try lia.
Qed.

Lemma read_entry_sound_witness :
  record_at (0 :: encode_entry (mkEntry 1 0 (-1) [7] [8; 9])) (mkIndex 1 0 0 1 47 24 (-1))
    (mkRecord (-1) [7] [8; 9]).
Proof.
  apply (read_entry_sound {[ 0 := 0 :: encode_entry (mkEntry 1 0 (-1) [7] [8; 9]) ]});
    [reflexivity | | reflexivity].
  repeat (constructor; [vm_compute; intuition congruence |]); constructor.
Defined.

(** A write that fails part way leaves bytes in the file that the offset
    does not count.  The next batch is reported as stored, and its index does
    not read the entry back: the entry is lost although it was acknowledged. *)
Theorem partial_write_loses_next_entry :
  let e1 := mkEntry 1 0 (-1) [] [5] in
  let e2 := mkEntry 1 1 (-1) [] [6] in
  let '(_, st1, fs1) := write_batch example_state example_files [e1] true (WriteFailed 10) in
  let '(rs, _, fs2) := write_batch st1 fs1 [e2] true WriteOk in
  match rs with
  | [Ok ix] => read_entry fs2 ix = Err EPosition
  | _ => False
  end.
Proof. vm_compute; reflexivity. Qed.

(** When the log cannot be rolled because the new file does not open, the
    writer has already moved to the new file id.  The next batch goes to the
    old file through the old handle under the new id, is reported as stored,
    and cannot be read. *)
Theorem failed_roll_loses_next_entry :
  let e1 := mkEntry 1 0 (-1) [] [5] in
  let '(_, st1, fs1) := write_batch (mkWriteState 50 0 0 0) example_files [e1] true WriteOk in
  let '(rs2, st2, fs2) := write_batch st1 fs1 [mkEntry 1 1 (-1) [] [6]] false WriteOk in
  let '(rs3, _, fs3) := write_batch st2 fs2 [mkEntry 1 2 (-1) [] [7]] true WriteOk in
  rs2 = [Err OpenFailed] /\
  match rs3 with
  | [Ok ix] => read_entry fs3 ix = Err EOpen
  | _ => False
  end.
Proof. vm_compute; split; reflexivity. Qed.
