(* ===== verification/Keys.v ===== *)
(** * Names and database keys

    [storage/metadata/src/model.rs] (topic names) and
    [storage/managed-ledger-rocksdb/src/keys.rs] (the keys under which ledger
    metadata, cursors and entry locations are stored in RocksDB).  Rust strings
    are their UTF-8 bytes. *)

From Stdlib Require Import Ascii.
From S2P Require Import Prelude Text.

(** ** Topic names *)

Record ParsedTopicName := mkTopicName {
  tn_domain : string;
  tn_tenant : string;
  tn_namespace : string;
  tn_local_name : string;
}.

Inductive name_error :=
| MissingDomain | UnsupportedDomain | MissingTenant | MissingNamespace | MissingLocalName.

Local Open Scope result_scope.

(** [parts.next().filter(|value| !value.is_empty())] *)
Definition next_part (parts : list string) (n : nat) (e : name_error) : result name_error string :=
  match parts !! n with
  | Some (String c s) => Ok (String c s)
  | _ => Err e
  end.

Definition parse_topic_name (topic : string) : result name_error ParsedTopicName :=
  let? (domain, rest) := ok_or (split_once "://" topic) MissingDomain in
  if negb (String.eqb domain "persistent") && negb (String.eqb domain "non-persistent")
  then Err UnsupportedDomain
  else
    let parts := splitn3 "/" rest in
    let? tenant := next_part parts 0 MissingTenant in
    let? namespace := next_part parts 1 MissingNamespace in
    let? local_name := next_part parts 2 MissingLocalName in
    Ok (mkTopicName domain tenant namespace local_name).

Definition topic_string (domain tenant namespace local_name : string) : string :=
  domain +:+ "://" +:+ tenant +:+ "/" +:+ namespace +:+ "/" +:+ local_name.

(** [usize] is 64 bits wide. *)
Definition logical_topic_name (topic : string) : string :=
  match parse_topic_name topic with
  | Err _ => topic
  | Ok parsed =>
      match rsplit_once "-partition-" (tn_local_name parsed) with
      | None => topic
      | Some (base_local_name, suffix) =>
          match parse_u64 suffix with
          | None => topic
          | Some _ =>
              topic_string (tn_domain parsed) (tn_tenant parsed) (tn_namespace parsed)
                base_local_name
          end
      end
  end.

(** ** Database keys *)

Definition managed_cursor_key (ledger_name cursor_name : string) : string :=
  "/managed-ledgers/" +:+ ledger_name +:+ "/" +:+ cursor_name.

Definition managed_ledger_key (ledger_name : string) : string :=
  "/managed-ledgers/" +:+ ledger_name.

Definition ledger_id_allocator_key : string := "managed_ledger|next_ledger_id".

Definition managed_entry_key (ledger entry : Z) : string :=
  "entry|" +:+ show ledger +:+ "|" +:+ show entry.

Definition managed_ledger_name (topic : string) : string :=
  match split_once "://" topic with
  | Some (domain, rest) =>
      match splitn3 "/" rest with
      | [tenant; namespace; local_name] =>
          tenant +:+ "/" +:+ namespace +:+ "/" +:+ domain +:+ "/" +:+ local_name
      | _ => topic
      end
  | None => topic
  end.

Definition is_ascii_alphanumeric (c : ascii) : bool :=
  let n := nat_of_ascii c in
  ((48 <=? n) && (n <=? 57) || (65 <=? n) && (n <=? 90) || (97 <=? n) && (n <=? 122))%nat.

Definition unreserved (c : ascii) : bool :=
  is_ascii_alphanumeric c ||
  Ascii.eqb c "-" || Ascii.eqb c "." || Ascii.eqb c "_" || Ascii.eqb c "~".

Definition hex_digit (n : nat) : ascii :=
  default "0"%char (String.get n "0123456789ABCDEF").

Definition encode_byte (c : ascii) : string :=
  if unreserved c then String c EmptyString
  else
    let n := nat_of_ascii c in
    String "%" (String (hex_digit (n / 16)) (String (hex_digit (n mod 16)) EmptyString)).

Fixpoint encode_cursor_name (name : string) : string :=
  match name with
  | EmptyString => EmptyString
  | String c name => encode_byte c +:+ encode_cursor_name name
  end.

(** ** Separators *)

Fixpoint has_char (c : ascii) (s : string) : bool :=
  match s with
  | EmptyString => false
  | String a s => Ascii.eqb a c || has_char c s
  end.

Lemma has_char_app c s t : has_char c (s +:+ t) = has_char c s || has_char c t.
Proof.
  induction s as [|a s IH]; [done |].
  change (String a s +:+ t) with (String a (s +:+ t)); cbn [has_char].
  by rewrite IH, orb_assoc.
Qed.

(** [String a s +:+ t] as a cons, for hypotheses. *)
Ltac string_cons :=
  repeat match goal with
  | H : context [String.append (String ?a ?s) ?t] |- _ =>
      change (String.append (String a s) t) with (String a (String.append s t)) in H
  | H : context [String.append EmptyString ?t] |- _ =>
      change (String.append EmptyString t) with t in H
  end.

(** The part before the first separator determines the split, ... *)
Lemma sep_first_inj c s1 s2 t1 t2 :
  has_char c s1 = false -> has_char c s2 = false ->
  s1 +:+ String c t1 = s2 +:+ String c t2 -> s1 = s2 /\ t1 = t2.
Proof.
  revert s2; induction s1 as [|a s1 IH]; intros [|b s2] H1 H2 H; string_cons.
  - by injection H as ->.
  - injection H as -> _; cbn in H2; by rewrite Ascii.eqb_refl in H2.
  - injection H as -> _; cbn in H1; by rewrite Ascii.eqb_refl in H1.
  - cbn in H1, H2; apply orb_false_elim in H1 as [? ?], H2 as [? ?].
    injection H as -> H; by destruct (IH s2) as [-> ->].
Qed.

(** ... and so does the part after the last one. *)
Lemma sep_last_inj c s1 s2 t1 t2 :
  has_char c t1 = false -> has_char c t2 = false ->
  s1 +:+ String c t1 = s2 +:+ String c t2 -> s1 = s2 /\ t1 = t2.
Proof.
  revert s2; induction s1 as [|a s1 IH]; intros [|b s2] H1 H2 H; string_cons.
  - by injection H as ->.
  - injection H as _ ->; rewrite has_char_app in H1; cbn in H1.
    by rewrite Ascii.eqb_refl, orb_true_r in H1.
  - injection H as _ <-; rewrite has_char_app in H2; cbn in H2.
    by rewrite Ascii.eqb_refl, orb_true_r in H2.
  - injection H as -> H; by destruct (IH s2) as [-> ->].
Qed.

Lemma append_inj_l (s t1 t2 : string) : s +:+ t1 = s +:+ t2 -> t1 = t2.
Proof.
  induction s as [|a s IH]; intros H; string_cons; [done |]; injection H; auto.
Qed.

(** ** Percent encoding *)

Definition hex_value (c : ascii) : nat :=
  let n := nat_of_ascii c in if (n <=? 57)%nat then n - 48 else n - 55.

(** The decoder, used to show that the encoding loses nothing. *)
Fixpoint decode_cursor_name (s : string) : string :=
  match s with
  | String "%" (String h (String l s)) =>
      String (ascii_of_nat (16 * hex_value h + hex_value l)) (decode_cursor_name s)
  | String c s => String c (decode_cursor_name s)
  | EmptyString => EmptyString
  end.

Lemma decode_encode_byte c s :
  decode_cursor_name (encode_byte c +:+ s) = String c (decode_cursor_name s).
Proof. destruct c as [[] [] [] [] [] [] [] []]; reflexivity. Qed.

Lemma decode_encode_cursor_name s : decode_cursor_name (encode_cursor_name s) = s.
Proof.
  induction s as [|c s IH]; [done |]; cbn [encode_cursor_name].
  by rewrite decode_encode_byte, IH.
Qed.

Lemma encode_byte_no_slash c : has_char "/" (encode_byte c) = false.
Proof. destruct c as [[] [] [] [] [] [] [] []]; reflexivity. Qed.

Lemma encode_cursor_name_no_slash s : has_char "/" (encode_cursor_name s) = false.
Proof.
  induction s as [|c s IH]; [done |]; cbn [encode_cursor_name].
  by rewrite has_char_app, encode_byte_no_slash, IH.
Qed.

Lemma encode_cursor_name_inj s t : encode_cursor_name s = encode_cursor_name t -> s = t.
Proof.
  intros H; rewrite <- (decode_encode_cursor_name s), <- (decode_encode_cursor_name t).
  by rewrite H.
Qed.

(** ** Entry keys *)

Lemma parse_digits_no_bar s acc n : parse_digits s acc = Some n -> has_char "|" s = false.
Proof.
  revert acc; induction s as [|c s IH]; intros acc; cbn; [done |].
  destruct (digit_value c) as [d|] eqn:E; [|done].
  case_bool; [|done]; intros H%IH; rewrite H, orb_false_r.
  by destruct (Ascii.eqb_spec c "|"%char) as [->|].
Qed.

Lemma show_no_bar n : u64_ok n -> has_char "|" (show n) = false.
Proof.
  intros Hn%parse_show; revert Hn; generalize (show n) as s.
  intros [|c s]; [done |]; unfold parse_u64.
  destruct (Ascii.eqb_spec c "+"%char) as [->|].
  - destruct s; [done |]; intros H%parse_digits_no_bar; done.
  - by intros H%parse_digits_no_bar.
Qed.

Lemma managed_entry_key_inj l e l' e' :
  u64_ok l -> u64_ok e -> u64_ok l' -> u64_ok e' ->
  managed_entry_key l e = managed_entry_key l' e' -> l = l' /\ e = e'.
Proof.
  unfold managed_entry_key; intros Hl He Hl' He' H%append_inj_l.
  apply sep_first_inj in H as [Hs Ht]; [|by apply show_no_bar ..].
  split; by apply show_inj.
Qed.

(** The three families of keys start differently. *)
Lemma entry_key_not_managed l e s : managed_entry_key l e <> "/managed-ledgers/" +:+ s.
Proof. done. Qed.

(** ** Topic names *)

Lemma split_once_slash s a b :
  split_once "/" s = Some (a, b) -> s = a +:+ String "/" b /\ has_char "/" a = false.
Proof.
  revert a b; induction s as [|c s IH]; intros a b; cbn [split_once strip_prefix]; [done |].
  destruct (Ascii.eqb_spec "/"%char c) as [<-|Hne].
  - by intros [= <- <-].
  - destruct (split_once "/" s) as [[x y]|]; cbn; [|done].
    intros [= <- <-]; destruct (IH x y eq_refl) as [-> Hx]; split; [done |].
    cbn; rewrite Hx, orb_false_r; by destruct (Ascii.eqb_spec c "/"%char).
Qed.

(** A parsed topic name: the parts, and that tenant and namespace are free of
    slashes. *)
Lemma parse_topic_name_spec topic p :
  parse_topic_name topic = Ok p ->
  topic = topic_string (tn_domain p) (tn_tenant p) (tn_namespace p) (tn_local_name p) /\
  has_char "/" (tn_tenant p) = false /\ has_char "/" (tn_namespace p) = false /\
  (tn_domain p = "persistent" \/ tn_domain p = "non-persistent") /\
  managed_ledger_name topic =
    tn_tenant p +:+ "/" +:+ tn_namespace p +:+ "/" +:+ tn_domain p +:+ "/" +:+ tn_local_name p.
Proof.
  unfold parse_topic_name, managed_ledger_name, splitn3.
  destruct (split_once "://" topic) as [[domain rest]|] eqn:Et; [|done].
  cbn [ok_or result_bind]; apply split_once_spec in Et as ->.
  destruct (negb _ && negb _) eqn:Ed; [done |].
  destruct (split_once "/" rest) as [[a r]|] eqn:Er; [|by destruct rest].
  apply split_once_slash in Er as [-> Ha].
  destruct (split_once "/" r) as [[b c]|] eqn:Er; [|destruct a; [done | by destruct r]].
  apply split_once_slash in Er as [-> Hb].
  destruct a as [|a0 a]; [done |]; destruct b as [|b0 b]; [done |]; destruct c as [|c0 c]; [done |].
  cbn [next_part result_bind lookup list_lookup]; intros [= <-]; cbn [tn_domain tn_tenant tn_namespace tn_local_name].
  split_and!; [done | done | done | | done].
  destruct (String.eqb_spec domain "persistent"); [by left |].
  destruct (String.eqb_spec domain "non-persistent"); [by right | done].
Qed.

Lemma next_part_Ok parts n e s : next_part parts n e = Ok s -> s <> "".
Proof. unfold next_part; destruct (parts !! n) as [[|]|]; [done | by intros [= <-] | done]. Qed.

Lemma parse_topic_name_parts topic p :
  parse_topic_name topic = Ok p ->
  tn_tenant p <> "" /\ tn_namespace p <> "" /\ tn_local_name p <> "".
Proof.
  unfold parse_topic_name; destruct (split_once _ _) as [[d r]|]; [|done].
  cbn [ok_or result_bind]; destruct (negb _ && negb _); [done |].
  destruct (next_part _ 0 _) as [t|] eqn:Et; [|done].
  destruct (next_part _ 1 _) as [n|] eqn:En; [|done].
  destruct (next_part _ 2 _) as [l|] eqn:El; [|done].
  intros [= <-]; split_and!; by eapply next_part_Ok.
Qed.

Lemma managed_ledger_name_inj t1 t2 p1 p2 :
  parse_topic_name t1 = Ok p1 -> parse_topic_name t2 = Ok p2 ->
  managed_ledger_name t1 = managed_ledger_name t2 -> t1 = t2.
Proof.
  intros (-> & Ht1 & Hn1 & Hd1 & ->)%parse_topic_name_spec
    (-> & Ht2 & Hn2 & Hd2 & ->)%parse_topic_name_spec H.
  apply sep_first_inj in H as [-> H]; [|done ..].
  apply sep_first_inj in H as [-> H]; [|done ..].
  apply sep_first_inj in H as [-> ->]; [done | |];
    [destruct Hd1 as [-> | ->] | destruct Hd2 as [-> | ->]]; reflexivity.
Qed.

Lemma append_assoc (s t u : string) : (s +:+ t) +:+ u = s +:+ t +:+ u.
Proof. induction s as [|c s IH]; [done |]; exact (f_equal (String c) IH). Qed.

(** What the database holds, and under which key. *)
Inductive record_name :=
| CursorOf (topic subscription : string)
| LedgerOf (topic : string)
| EntryOf (ledger entry : Z)
| Allocator.

Definition record_key (r : record_name) : string :=
  match r with
  | CursorOf topic subscription => managed_cursor_key (managed_ledger_name topic) (encode_cursor_name subscription)
  | LedgerOf topic => managed_ledger_key (managed_ledger_name topic)
  | EntryOf ledger entry => managed_entry_key ledger entry
  | Allocator => ledger_id_allocator_key
  end.

(** Topics have valid names, entries have ids of 64 bits. *)
Definition record_ok (r : record_name) : Prop :=
  match r with
  | CursorOf topic _ | LedgerOf topic => exists p, parse_topic_name topic = Ok p
  | EntryOf ledger entry => u64_ok ledger /\ u64_ok entry
  | Allocator => True
  end.

(** A cursor, and the ledger of a topic whose local name has a slash. *)
Definition cursor_and_nested (r1 r2 : record_name) : Prop :=
  match r1, r2 with
  | CursorOf _ _, LedgerOf topic => exists p, parse_topic_name topic = Ok p /\ has_char "/" (tn_local_name p) = true
  | _, _ => False
  end.

Lemma cursor_key_nested t1 t2 p1 p2 s :
  parse_topic_name t1 = Ok p1 -> parse_topic_name t2 = Ok p2 ->
  managed_cursor_key (managed_ledger_name t1) (encode_cursor_name s) = managed_ledger_key (managed_ledger_name t2) ->
  has_char "/" (tn_local_name p2) = true.
Proof.
  intros (-> & Ht1 & Hn1 & Hd1 & ->)%parse_topic_name_spec (-> & Ht2 & Hn2 & Hd2 & ->)%parse_topic_name_spec H%append_inj_l.
  rewrite !append_assoc in H.
  apply sep_first_inj in H as [_ H]; [|done ..]; apply sep_first_inj in H as [_ H]; [|done ..].
  apply sep_first_inj in H as [_ <-]; [|destruct Hd1 as [-> | ->] | destruct Hd2 as [-> | ->]]; [|done ..].
  by rewrite !has_char_app, orb_true_r.
Qed.

(** ** Properties *)

(** C40: Persistent state is kept apart.  Among the cursors and ledgers of valid
    topics, the entries and the allocator of ledger ids, no two have the same key in
    the database, with one exception: a cursor can have the key of the ledger of a
    topic whose local name contains a slash.  The percent encoding of subscription
    names is what makes this hold for subscriptions with slashes. *)
Theorem database_keys_injective (r1 r2 : record_name) :
  record_ok r1 -> record_ok r2 -> record_key r1 = record_key r2 ->
  r1 = r2 \/ cursor_and_nested r1 r2 \/ cursor_and_nested r2 r1.
Proof.
  destruct r1 as [t1 s1|t1|l1 e1|], r2 as [t2 s2|t2|l2 e2|]; cbn [record_ok record_key]; try by (intros _ _; discriminate).
  - intros [p1 Hp1] [p2 Hp2] H%append_inj_l; left; apply sep_last_inj in H as [Hn Hs]; [|by apply encode_cursor_name_no_slash ..].
    f_equal; [by eapply managed_ledger_name_inj | by apply encode_cursor_name_inj].
  - intros [p1 Hp1] [p2 Hp2] H; right; left; exists p2; split; [done |]; exact (cursor_key_nested _ _ _ _ _ Hp1 Hp2 H).
  - intros [p1 Hp1] [p2 Hp2] H; right; right; exists p1; split; [done |]; exact (cursor_key_nested _ _ _ _ _ Hp2 Hp1 (eq_sym H)).
  - intros [p1 Hp1] [p2 Hp2] H%append_inj_l; left; f_equal; by eapply managed_ledger_name_inj.
  - intros [Hl1 He1] [Hl2 He2] H; left; destruct (managed_entry_key_inj l1 e1 l2 e2) as [-> ->]; done.
  - by left.
Qed.

Lemma database_keys_injective_witness :
  record_key (CursorOf "persistent://t/n/a" "b/c") <> record_key (CursorOf "persistent://t/n/a/b" "c") /\
  record_key (CursorOf "persistent://t/n/a" "b") <> record_key (LedgerOf "persistent://t/n/ab").
Proof.
  assert (forall r1 r2, record_ok r1 -> record_ok r2 -> r1 <> r2 -> ~ cursor_and_nested r1 r2 -> ~ cursor_and_nested r2 r1 ->
    record_key r1 <> record_key r2) as Hne.
  { intros r1 r2 H1 H2 ? ? ? H; by destruct (database_keys_injective r1 r2 H1 H2 H) as [?|[?|?]]. }
  split; apply Hne; try (by eexists); try congruence; try (by intros []).
  intros (p & Hp & Hs); vm_compute in Hp; injection Hp as <-; vm_compute in Hs; discriminate.
Defined.

Lemma split_once_slash_intro a b :
  has_char "/" a = false -> split_once "/" (a +:+ "/" +:+ b) = Some (a, b).
Proof.
  induction a as [|c a IH]; [done |]; cbn [has_char]; intros [Hc Ha]%orb_false_elim.
  change (String c a +:+ "/" +:+ b) with (String c (a +:+ "/" +:+ b)).
  cbn [split_once strip_prefix]; rewrite Ascii.eqb_sym, Hc, IH by done; done.
Qed.

Lemma append_nil_r (s : string) : s +:+ "" = s.
Proof. induction s as [|c s IH]; [done |]; exact (f_equal (String c) IH). Qed.

(** Cursor keys and ledger keys are not kept apart: the cursor of a
    subscription [s] on a topic is stored under the key of the ledger of the
    valid topic whose name continues with a slash and the encoded [s]. *)
Theorem cursor_key_is_ledger_key topic p s :
  parse_topic_name topic = Ok p ->
  let other := topic +:+ "/" +:+ encode_cursor_name s in
  is_Some (match parse_topic_name other with Ok q => Some q | Err _ => None end) /\
  managed_cursor_key (managed_ledger_name topic) (encode_cursor_name s) =
  managed_ledger_key (managed_ledger_name other).
Proof.
  intros Hp; pose proof (parse_topic_name_spec _ _ Hp) as (Ht & Hten & Hns & Hd & Hname).
  cbn zeta; rewrite Hname; clear Hname.
  destruct (parse_topic_name_parts _ _ Hp) as (Ht0 & Hn0 & Hl0).
  rewrite Ht; unfold topic_string; rewrite !append_assoc.
  unfold parse_topic_name, managed_ledger_name.
  set (tail := tn_local_name p +:+ "/" +:+ encode_cursor_name s).
  assert (forall d, d = "persistent" \/ d = "non-persistent" ->
    split_once "://" (d +:+ "://" +:+ tn_tenant p +:+ "/" +:+ tn_namespace p +:+ "/" +:+ tail)
    = Some (d, tn_tenant p +:+ "/" +:+ tn_namespace p +:+ "/" +:+ tail)) as ->
    by (intros d [-> | ->]; reflexivity); [|done].
  cbn [ok_or result_bind]; unfold splitn3.
  rewrite split_once_slash_intro by done; rewrite split_once_slash_intro by done.
  split.
  - replace (negb _ && negb _) with false by (destruct Hd as [-> | ->]; reflexivity).
    destruct (tn_tenant p); [done |]; destruct (tn_namespace p); [done |].
    unfold tail; destruct (tn_local_name p); [done |]; by eexists.
  - unfold managed_cursor_key, managed_ledger_key, tail; by rewrite !append_assoc.
Qed.

Lemma cursor_key_is_ledger_key_witness :
  managed_cursor_key (managed_ledger_name "persistent://t/n/a") (encode_cursor_name "b") =
  managed_ledger_key (managed_ledger_name "persistent://t/n/a/b").
Proof. exact (proj2 (cursor_key_is_ledger_key "persistent://t/n/a" _ "b" eq_refl)). Defined.

Lemma rsplit_once_none sep c s :
  has_char c s = false -> rsplit_once (String c sep) s = None.
Proof.
  induction s as [|a s IH]; [done |]; cbn [has_char]; intros [Ha Hs]%orb_false_elim.
  cbn [rsplit_once strip_prefix]; rewrite IH by done; by rewrite Ascii.eqb_sym, Ha.
Qed.

Lemma rsplit_once_app sep s t a b :
  rsplit_once sep t = Some (a, b) -> rsplit_once sep (s +:+ t) = Some (s +:+ a, b).
Proof.
  intros Ht; induction s as [|c s IH]; [done |].
  change (String c s +:+ t) with (String c (s +:+ t)); cbn [rsplit_once]; by rewrite IH.
Qed.

Lemma parse_digits_no_dash s acc n : parse_digits s acc = Some n -> has_char "-" s = false.
Proof.
  revert acc; induction s as [|c s IH]; intros acc; cbn; [done |].
  destruct (digit_value c) as [d|] eqn:E; [|done].
  case_bool; [|done]; intros H%IH; rewrite H, orb_false_r.
  by destruct (Ascii.eqb_spec c "-"%char) as [->|].
Qed.

Lemma rsplit_partition_suffix s n :
  parse_u64 s = Some n -> rsplit_once "-partition-" ("-partition-" +:+ s) = Some ("", s).
Proof.
  intros Hs.
  assert (has_char "-" s = false /\ strip_prefix "partition-" s = None) as [Hdash Hp].
  { destruct s as [|c s]; [done |]; unfold parse_u64 in Hs.
    destruct (Ascii.eqb_spec c "+"%char) as [->|].
    - destruct s; [done |]; by apply parse_digits_no_dash in Hs.
    - split; [by apply parse_digits_no_dash in Hs |]; cbn [strip_prefix].
      destruct (Ascii.eqb_spec "p"%char c) as [<-|]; [discriminate Hs | done]. }
  assert (rsplit_once "-partition-" s = None) as Hnone by by apply rsplit_once_none.
  change ("-partition-" +:+ s) with (String "-" ("partition-" +:+ s)).
  assert (rsplit_once "-partition-" ("partition-" +:+ s) = None) as E.
  { change ("partition-" +:+ s) with
      (String "p" (String "a" (String "r" (String "t" (String "i" (String "t"
        (String "i" (String "o" (String "n" (String "-" s)))))))))).
    cbn [rsplit_once]; rewrite Hnone.
    change (strip_prefix "-partition-" (String "-" s)) with (strip_prefix "partition-" s).
    by rewrite Hp. }
  cbn [rsplit_once]; rewrite E.
  change (strip_prefix "-partition-" (String "-" ("partition-" +:+ s)))
    with (strip_prefix "" s); done.
Qed.

Lemma parse_topic_string domain tenant namespace local_name :
  (domain = "persistent" \/ domain = "non-persistent") ->
  has_char "/" tenant = false -> has_char "/" namespace = false ->
  tenant <> "" -> namespace <> "" -> local_name <> "" ->
  parse_topic_name (topic_string domain tenant namespace local_name)
  = Ok (mkTopicName domain tenant namespace local_name).
Proof.
  intros Hd Ht Hn Ht0 Hn0 Hl0; unfold parse_topic_name, topic_string.
  replace (split_once "://" _) with (Some (domain, tenant +:+ "/" +:+ namespace +:+ "/" +:+ local_name))
    by (destruct Hd as [-> | ->]; reflexivity).
  cbn [ok_or result_bind]; unfold splitn3; rewrite !split_once_slash_intro by done.
  replace (negb _ && negb _) with false by (destruct Hd as [-> | ->]; reflexivity).
  by destruct tenant, namespace, local_name.
Qed.

(** Every partition of a valid topic has that topic as its logical name:
    printing the partition index and recovering the name is a round trip. *)
Theorem logical_name_of_partition topic p n :
  parse_topic_name topic = Ok p -> u64_ok n ->
  logical_topic_name (topic +:+ "-partition-" +:+ show n) = topic.
Proof.
  intros Hp Hn; pose proof (parse_topic_name_spec _ _ Hp) as (Ht & Hten & Hns & Hd & _).
  destruct (parse_topic_name_parts _ _ Hp) as (Ht0 & Hn0 & Hl0).
  assert (topic +:+ "-partition-" +:+ show n
          = topic_string (tn_domain p) (tn_tenant p) (tn_namespace p)
              (tn_local_name p +:+ "-partition-" +:+ show n)) as E.
  { rewrite Ht at 1; unfold topic_string; by rewrite !append_assoc. }
  unfold logical_topic_name; rewrite E, parse_topic_string by (done || by destruct (tn_local_name p)).
  cbn [tn_local_name tn_domain tn_tenant tn_namespace].
  rewrite (rsplit_once_app _ _ _ "" (show n)) by (eapply rsplit_partition_suffix, parse_show; done).
  rewrite parse_show, append_nil_r by done; by symmetry.
Qed.

Lemma logical_name_of_partition_witness :
  logical_topic_name "persistent://public/default/my-topic-partition-12"
  = "persistent://public/default/my-topic".
Proof.
  exact (logical_name_of_partition "persistent://public/default/my-topic" _ 12 eq_refl
           ltac:(mlia)).
Defined.
