(* ===== verification/RocksLedger.v ===== *)
(** * The RocksDB managed ledger

    [storage/managed-ledger-rocksdb/src/ledger.rs]: a topic's ledger made of
    segments.  Entries live in the entry log, their locations and the segment
    metadata in RocksDB.  The database is a map from keys to byte strings whose
    formats (protobuf, bincode) are an interface with round-trip laws; reads
    and single puts succeed, the outcome of the batch write of an append is an
    argument. *)

From S2P Require Import Prelude Position BTree RangeSet LedgerInfo MetadataCodec.
From S2P Require Import Bytes Text EntryLog Keys.

Record StoredEntryLocation := mkLocation {
  loc_file_id : Z;
  loc_offset : Z;
  loc_len : Z;
  loc_checksum : Z;
  loc_partition : Z;
}.

Definition location_of_index (ix : EntryIndex) : StoredEntryLocation :=
  mkLocation (ix_file_id ix) (ix_offset ix) (ix_len ix) (ix_checksum ix) (ix_partition ix).

(** ** The byte formats of stored values *)

Class DbCodec (bytes : Type) := {
  enc_cursor_info : ManagedCursorInfo -> bytes;
  dec_cursor_info : bytes -> option ManagedCursorInfo;
  enc_ledger_info : ManagedLedgerInfoProto -> bytes;
  dec_ledger_info : bytes -> option ManagedLedgerInfoProto;
  enc_location : StoredEntryLocation -> bytes;
  dec_location : bytes -> option StoredEntryLocation;
  enc_u64 : Z -> bytes;
  dec_u64 : bytes -> option Z;
}.

Class DbCodecLaws (bytes : Type) `{DbCodec bytes} : Prop := {
  cursor_info_roundtrip m : dec_cursor_info (enc_cursor_info m) = Some m;
  ledger_info_roundtrip m : dec_ledger_info (enc_ledger_info m) = Some m;
  location_roundtrip l : dec_location (enc_location l) = Some l;
  u64_roundtrip n : u64_ok n -> dec_u64 (enc_u64 n) = Some n;
}.

(** ** The storage and its monad *)

Record Storage (bytes : Type) := mkStorage {
  db : gmap string bytes;
  log : WriteState;
  fs : files;
}.
Arguments mkStorage {_} _ _ _.
Arguments db {_} _.
Arguments log {_} _.
Arguments fs {_} _.

Inductive ledger_error :=
| Undecodable
| Uninitialized
| AppendFailed (e : write_error)
| SizeMismatch
| DbWriteFailed
| ReadFailed (e : read_error).

Definition storage_op (bytes A : Type) : Type :=
  Storage bytes -> result ledger_error A * Storage bytes.

Section storage_ops.
Context {bytes : Type}.
Local Abbreviation M := (storage_op bytes).

Definition mret {A} (a : A) : M A := fun s => (Ok a, s).
Definition mfail {A} (e : ledger_error) : M A := fun s => (Err e, s).
Definition mbind' {A B} (m : M A) (k : A -> M B) : M B := fun s =>
  match m s with
  | (Ok a, s) => k a s
  | (Err e, s) => (Err e, s)
  end.

Definition mget (key : string) : M (option bytes) := fun s => (Ok (db s !! key), s).
Definition mput (key : string) (v : bytes) : M unit := fun s =>
  (Ok tt, mkStorage (<[key := v]> (db s)) (log s) (fs s)).
Definition mdelete (key : string) : M unit := fun s =>
  (Ok tt, mkStorage (delete key (db s)) (log s) (fs s)).
Definition mlift {A} (o : option A) (e : ledger_error) : M A := fun s => (ok_or o e, s).
Definition ok_value {E A} (r : result E A) : option A :=
  match r with Ok a => Some a | Err _ => None end.
End storage_ops.

Declare Scope storage_scope.
Delimit Scope storage_scope with storage.
Notation "'let!' x := m 'in' k" := (mbind' m (fun x => k))
  (at level 10, x pattern, m at level 200, k at level 200) : storage_scope.
Local Open Scope storage_scope.

(** ** The ledger *)

Definition DEFAULT_MAX_ENTRIES_PER_LEDGER : Z := 50000.

Record RocksDBManagedLedger := mkLedger {
  rl_name : string;
  max_entries_per_ledger : Z;
  rl_info : StoredManagedLedgerInfo;
  lac : option ManagedLedgerPosition;
  current_ledger_id : Z;
  current_ledger_entries : Z;
  current_ledger_size : Z;
}.

Section operations.
Context {bytes : Type} `{DbCodec bytes}.

Local Abbreviation M := (storage_op bytes).

(** The time at which the ledger with the given id is rolled in. *)
Context (clock : Z -> Z).

Definition encode_stored_info (i : StoredManagedLedgerInfo) : bytes :=
  encode_info enc_ledger_info i.
Definition decode_stored_info (b : bytes) : option StoredManagedLedgerInfo :=
  ok_value (decode_info dec_ledger_info b).

Definition allocate_ledger_id : M Z :=
  let! stored := mget ledger_id_allocator_key in
  let! next_ledger_id :=
    match stored with
    | Some b => mlift (dec_u64 b) Undecodable
    | None => mret 0
    end in
  let! _ := mput ledger_id_allocator_key (enc_u64 (wrap_u64 (next_ledger_id + 1))) in
  mret next_ledger_id.

(** The last segment with entries, scanning from the end. *)
Definition last_non_empty (i : StoredManagedLedgerInfo) : option StoredLedgerInfo :=
  List.find (fun l => 0 <? li_entries l) (reverse (info_ledgers i)).

Definition lac_from_info_and_db (i : StoredManagedLedgerInfo)
  : M (option ManagedLedgerPosition) :=
  match last_non_empty i with
  | None => mret None
  | Some l =>
      let entry := li_entries l - 1 in
      let! stored := mget (managed_entry_key (li_ledger_id l) entry) in
      match stored with
      | None => mret None
      | Some b =>
          let! location := mlift (dec_location b) Undecodable in
          mret (Some (mkPos (li_ledger_id l) entry (loc_partition location)))
      end
  end.

Definition open_with_config (name : string) (config_max : option Z) : M RocksDBManagedLedger :=
  let key := managed_ledger_key name in
  let max := Z.max 1 (default DEFAULT_MAX_ENTRIES_PER_LEDGER config_max) in
  let! stored := mget key in
  let! info :=
    match stored with
    | Some b => mlift (decode_stored_info b) Undecodable
    | None => let! id := allocate_ledger_id in mret (managed_info_new id)
    end in
  let! info :=
    match info_ledgers info with
    | [] => let! id := allocate_ledger_id in mret (ensure_initialized info id)
    | _ => mret info
    end in
  let! full := mlift (current_ledger_is_full info max) Uninitialized in
  let! info :=
    if full : bool
    then let! id := allocate_ledger_id in
         mret (roll_over_current_ledger info id (clock id))
    else mret info in
  let! _ := mput key (encode_stored_info info) in
  let! lac := lac_from_info_and_db info in
  let! current := mlift (last (info_ledgers info)) Uninitialized in
  mret (mkLedger name max info lac (li_ledger_id current) (li_entries current) (li_size current)).

Definition is_visible (p : ManagedLedgerPosition) (i : StoredManagedLedgerInfo)
    (lac : ManagedLedgerPosition) : bool :=
  if key_ltb lac p then false
  else existsb (fun l => (li_ledger_id l =? ledger_id p) && (entry_id p <? li_entries l))
         (info_ledgers i).

Definition load_entry_index (ledger entry : Z) : M (option EntryIndex) :=
  let! stored := mget (managed_entry_key ledger entry) in
  match stored with
  | None => mret None
  | Some b =>
      let! l := mlift (dec_location b) Undecodable in
      mret (Some (mkIndex ledger entry (loc_file_id l) (loc_offset l) (loc_len l)
                    (loc_checksum l) (loc_partition l)))
  end.

Definition read_log (ix : EntryIndex) : M EntryRecord := fun s =>
  match read_entry (fs s) ix with
  | Ok r => (Ok r, s)
  | Err e => (Err (ReadFailed e), s)
  end.

Definition read_entry_record (ledger entry : Z)
  : M (option (ManagedLedgerPosition * EntryRecord)) :=
  let! index := load_entry_index ledger entry in
  match index with
  | None => mret None
  | Some index =>
      let! record := read_log index in
      mret (Some (mkPos ledger entry (ix_partition index), record))
  end.

Definition total_entries (i : StoredManagedLedgerInfo) : Z :=
  foldr (fun l n => li_entries l + n) 0 (info_ledgers i).

(** The read loop; every turn moves to a later position, so one turn per entry
    and two more are enough. *)
Fixpoint read_loop (fuel : nat) (i : StoredManagedLedgerInfo) (lac : ManagedLedgerPosition)
    (limit : nat) (current : option ManagedLedgerPosition) (out : list StoredMessage)
  : M (list StoredMessage) :=
  match fuel, current with
  | S fuel, Some p =>
      if (limit <=? length out)%nat || key_ltb lac p then mret out
      else
        let! out :=
          if is_visible p i lac
          then
            let! found := read_entry_record (ledger_id p) (entry_id p) in
            match found with
            | Some (stored, record) =>
                mret (out ++ [mkStored (message_id_of_position stored)
                                (er_metadata record) (er_payload record)])
            | None => mret out
            end
          else mret out in
        read_loop fuel i lac limit (next_position p i) out
  | _, _ => mret out
  end.

Definition read_entries_from (L : RocksDBManagedLedger) (from : ManagedLedgerPosition)
    (limit : nat) : M (list StoredMessage) :=
  match limit with
  | O => mret []
  | _ =>
      match lac L with
      | None => mret []
      | Some lac =>
          if key_ltb lac from then mret []
          else
            let i := rl_info L in
            read_loop (S (S (Z.to_nat (total_entries i)))) i lac limit (Some from) []
      end
  end.

Definition previous_position (L : RocksDBManagedLedger) (p : ManagedLedgerPosition)
  : option ManagedLedgerPosition :=
  if 0 <? entry_id p then Some (mkPos (ledger_id p) (entry_id p - 1) (partition p))
  else
    (* the last maximum, as [max_by_key] picks *)
    let prev :=
      foldl (fun acc l =>
               if (li_ledger_id l <? ledger_id p) && (0 <? li_entries l)
               then match acc with
                    | Some m => if li_ledger_id m <=? li_ledger_id l then Some l else acc
                    | None => Some l
                    end
               else acc) None (info_ledgers (rl_info L)) in
    (fun l => mkPos (li_ledger_id l) (li_entries l - 1) (partition p)) <$> prev.

Definition get_message_entry_by_id (L : RocksDBManagedLedger) (m : MessageId)
    (s : Storage bytes) : option StoredMessage :=
  let p := position_of_message_id m in
  match lac L with
  | None => None
  | Some lac =>
      if key_ltb lac p then None
      else if negb (is_visible p (rl_info L) lac) then None
      else
        match read_entry_record (ledger m) (entry m) s with
        | (Ok (Some (stored, record)), _) =>
            if negb (partition stored =? msg_partition m) then None
            else Some (mkStored m (er_metadata record) (er_payload record))
        | _ => None
        end
  end.

(** [ManagedLedger::read_entry] *)
Definition ledger_read_entry (L : RocksDBManagedLedger) (p : ManagedLedgerPosition)
    (s : Storage bytes) : option (list Z) :=
  match lac L with
  | None => None
  | Some lac =>
      if key_ltb lac p then None
      else if negb (is_visible p (rl_info L) lac) then None
      else
        match read_entry_record (ledger_id p) (entry_id p) s with
        | (Ok (Some (stored, record)), _) =>
            if negb (partition stored =? partition p) then None else Some (er_payload record)
        | _ => None
        end
  end.

Definition message_entries (L : RocksDBManagedLedger) : M (list StoredMessage) :=
  let i := rl_info L in
  match List.find (fun l => 0 <? li_entries l) (info_ledgers i) with
  | None => mret []
  | Some l => read_entries_from L (mkPos (li_ledger_id l) 0 (-1)) (Z.to_nat (total_entries i))
  end.

(** ** Appending *)

Record assignment := mkAssign {
  as_info : StoredManagedLedgerInfo;
  as_id : Z;
  as_entries : Z;
  as_size : Z;
  as_positions : list ManagedLedgerPosition;
  as_appends : list EntryToAppend;
}.

Definition roll_if_full (max : Z) (a : assignment) : M assignment :=
  if max <=? as_entries a
  then
    let! id := allocate_ledger_id in
    mret (mkAssign (roll_over_current_ledger (as_info a) id (clock id)) id 0 0
            (as_positions a) (as_appends a))
  else mret a.

Definition add_to_ledger (size : Z) (l : StoredLedgerInfo) : StoredLedgerInfo :=
  mkLedgerInfo (li_ledger_id l) (wrap_u64 (li_entries l + 1)) (wrap_u64 (li_size l + size))
    (li_timestamp l) (li_is_offloaded l) (li_offloaded_context_uuid l).

(** One turn of the loop over the items, an item being a partition, metadata
    and payload. *)
Definition assign_item (max : Z) (item : Z * list Z * list Z) (a : assignment) : M assignment :=
  let '(part, meta, data) := item in
  let! a := roll_if_full max a in
  match info_ledgers (as_info a) with
  | [] => mfail Uninitialized
  | _ =>
      let position := mkPos (as_id a) (as_entries a) part in
      let size := Z.of_nat (length meta) + Z.of_nat (length data) in
      let! a' := roll_if_full max
        (mkAssign (mkInfo (update_last (add_to_ledger size) (info_ledgers (as_info a))))
           (as_id a) (wrap_u64 (as_entries a + 1)) (wrap_u64 (as_size a + size))
           (as_positions a) (as_appends a)) in
      mret (mkAssign (as_info a') (as_id a') (as_entries a') (as_size a')
              (as_positions a' ++ [position])
              (as_appends a' ++
                 [mkEntry (ledger_id position) (entry_id position) part meta data]))
  end.

Fixpoint assign_items (max : Z) (items : list (Z * list Z * list Z)) (a : assignment)
  : M assignment :=
  match items with
  | [] => mret a
  | item :: items => let! a := assign_item max item a in assign_items max items a
  end.

(** [EntryLogStore::append_batch] when the writer thread serves the batch. *)
Definition append_batch (io : bool * write_outcome) (es : list EntryToAppend)
  : M (list EntryIndex) := fun s =>
  match es with
  | [] => (Ok [], s)
  | _ =>
      let '(rs, st, f) := write_batch (log s) (fs s) es io.1 io.2 in
      let s := mkStorage (db s) st f in
      match collect_results rs with
      | Ok ixs => (Ok ixs, s)
      | Err e => (Err (AppendFailed e), s)
      end
  end.

Fixpoint put_locations (ps : list ManagedLedgerPosition) (ixs : list EntryIndex)
    (d : gmap string bytes) : gmap string bytes :=
  match ps, ixs with
  | p :: ps, ix :: ixs =>
      put_locations ps ixs
        (<[managed_entry_key (ledger_id p) (entry_id p) := enc_location (location_of_index ix)]> d)
  | _, _ => d
  end.

(** [self.db.write(batch)]: all the puts, or none of them. *)
Definition write_batch_db (db_ok : bool) (f : gmap string bytes -> gmap string bytes)
  : M unit := fun s =>
  if db_ok then (Ok tt, mkStorage (f (db s)) (log s) (fs s)) else (Err DbWriteFailed, s).

Definition add_entries (io : bool * write_outcome) (db_ok : bool) (L : RocksDBManagedLedger)
    (items : list (Z * list Z * list Z))
  : M (list ManagedLedgerPosition * RocksDBManagedLedger) :=
  match items with
  | [] => mret ([], L)
  | _ =>
      let! a := assign_items (max_entries_per_ledger L) items
        (mkAssign (rl_info L) (current_ledger_id L) (current_ledger_entries L)
           (current_ledger_size L) [] []) in
      let! indices := append_batch io (as_appends a) in
      if negb (length indices =? length (as_positions a))%nat then mfail SizeMismatch
      else
        let! _ := write_batch_db db_ok (fun d =>
          <[managed_ledger_key (rl_name L) := encode_stored_info (as_info a)]>
            (put_locations (as_positions a) indices d)) in
        mret (as_positions a,
              mkLedger (rl_name L) (max_entries_per_ledger L) (as_info a) (last (as_positions a))
                (as_id a) (as_entries a) (as_size a))
  end.
End operations.

(** ** The positions a ledger holds, in order *)

Definition ledger_positions (l : StoredLedgerInfo) : list (Z * Z) :=
  (fun e => (li_ledger_id l, e)) <$> seqZ 0 (li_entries l).

Definition all_positions (ls : list StoredLedgerInfo) : list (Z * Z) := ls ≫= ledger_positions.

Definition pair_rank (x : Z * Z) : Z := cursor_key_rank (mkPos x.1 x.2 (-1)).

Lemma elem_of_all_positions i p :
  (ledger_id p, entry_id p) ∈ all_positions (info_ledgers i) <-> visible i p.
Proof.
  unfold all_positions, visible; rewrite list_elem_of_bind; split.
  - intros (l & Hin & Hl); unfold ledger_positions in Hin.
    apply list_elem_of_fmap in Hin as (e & [= Hid ->] & He%elem_of_seqZ); eauto with lia.
  - intros (l & Hl & Hid & He); exists l; split; [|done].
    apply list_elem_of_fmap; exists (entry_id p); rewrite elem_of_seqZ, Hid; split; [done | lia].
Qed.

Lemma StronglySorted_app_intro {A} (R : A -> A -> Prop) (l k : list A) :
  StronglySorted R l -> StronglySorted R k -> (forall x y, x ∈ l -> y ∈ k -> R x y) ->
  StronglySorted R (l ++ k).
Proof.
  induction l as [|a l IH]; intros Hl Hk Hlk; [done |]; cbn.
  apply StronglySorted_inv in Hl as [Hl Ha]; constructor.
  - apply IH; auto; intros x y ? ?; apply Hlk; [by right | done].
  - rewrite Forall_app; split; [done |]; rewrite Forall_forall; intros y Hy.
    apply Hlk; [by left | done].
Qed.

Lemma seqZ_sorted m n : StronglySorted Z.lt (seqZ m n).
Proof.
  destruct (decide (n <= 0)); [rewrite seqZ_nil by lia; constructor |].
  rewrite <- (Z2Nat.id n) by lia; generalize (Z.to_nat n) as k; clear; intros k.
  revert m; induction k as [|k IH]; intros m; [constructor |].
  rewrite seqZ_cons by lia; rewrite Nat2Z.inj_succ, Z.pred_succ; constructor; [apply IH |].
  rewrite Forall_forall; intros x Hx%elem_of_seqZ; lia.
Qed.

Lemma all_positions_sorted i :
  info_wf i -> StronglySorted (fun x y => pair_rank x < pair_rank y) (all_positions (info_ledgers i)).
Proof.
  intros [Hs Hok]; unfold all_positions.
  induction (info_ledgers i) as [|l ls IH]; [constructor |]; rewrite bind_cons.
  apply StronglySorted_inv in Hs as [Hs Hl]; apply Forall_cons in Hok as [Hl_ok Hok].
  apply StronglySorted_app_intro; [|by apply IH |].
  - unfold ledger_positions; pose proof (seqZ_sorted 0 (li_entries l)) as Hq.
    induction Hq as [|e es _ IHe He]; cbn; constructor; [done |].
    rewrite Forall_fmap; eapply Forall_impl; [exact He |]; intros e' Hlt.
    unfold pair_rank, cursor_key_rank; cbn; lia.
  - intros x y (e & -> & He%elem_of_seqZ)%list_elem_of_fmap (l' & Hy & Hl')%list_elem_of_bind.
    apply list_elem_of_fmap in Hy as (e' & -> & He'%elem_of_seqZ).
    rewrite Forall_forall in Hl, Hok; specialize (Hl l' Hl'); pose proof (Hok l' Hl').
    unfold pair_rank, cursor_key_rank; cbn; mlia.
Qed.

Lemma length_all_positions i :
  info_wf i -> Z.of_nat (length (all_positions (info_ledgers i))) = total_entries i.
Proof.
  intros [_ Hok]; unfold all_positions, total_entries.
  induction (info_ledgers i) as [|l ls IH]; [done |]; rewrite bind_cons; cbn [foldr].
  apply Forall_cons in Hok as [? Hok]; rewrite length_app; unfold ledger_positions at 1.
  rewrite length_fmap, length_seqZ, <- IH by done; mlia.
Qed.

Lemma update_last_snoc {A} (f : A -> A) pre x : update_last f (pre ++ [x]) = pre ++ [f x].
Proof.
  induction pre as [|a pre IH]; [done |]; cbn [app update_last]; rewrite IH.
  by destruct pre.
Qed.

Lemma all_positions_app ls ls' : all_positions (ls ++ ls') = all_positions ls ++ all_positions ls'.
Proof. unfold all_positions; by rewrite bind_app. Qed.

Lemma all_positions_singleton l : all_positions [l] = ledger_positions l.
Proof. unfold all_positions; rewrite bind_cons; apply app_nil_r. Qed.

(** Rolling over keeps the positions, adding an entry appends one. *)
Lemma all_positions_roll i id now :
  all_positions (info_ledgers (roll_over_current_ledger i id now)) = all_positions (info_ledgers i).
Proof.
  unfold roll_over_current_ledger; cbn [info_ledgers].
  destruct (info_ledgers i) as [|l ls] using rev_ind; [done |].
  rewrite update_last_snoc, !all_positions_app, !all_positions_singleton.
  unfold ledger_positions at 3; cbn; by rewrite app_nil_r.
Qed.

Lemma all_positions_add pre l size :
  0 <= li_entries l < U64_MAX ->
  all_positions (update_last (add_to_ledger size) (pre ++ [l]))
  = all_positions (pre ++ [l]) ++ [(li_ledger_id l, li_entries l)].
Proof.
  intros He; rewrite update_last_snoc, !all_positions_app, !all_positions_singleton.
  rewrite <- (assoc_L (++)); f_equal; unfold ledger_positions; cbn.
  rewrite wrap_u64_id by mlia; rewrite seqZ_app, fmap_app by lia; done.
Qed.

(** ** The ledger's invariant *)

Definition msg_pair (m : StoredMessage) : Z * Z :=
  (ledger (message_id m), entry (message_id m)).
Definition msg_rank (m : StoredMessage) : Z := pair_rank (msg_pair m).
Definition msg_record (m : StoredMessage) : EntryRecord :=
  mkRecord (msg_partition (message_id m)) (metadata m) (payload m).

Section invariant.
Context {bytes : Type} `{DbCodec bytes, !DbCodecLaws bytes}.

(** The message can be read through the database and the log. *)
Definition entry_stored (s : Storage bytes) (m : StoredMessage) : Prop :=
  read_entry_record (ledger (message_id m)) (entry (message_id m)) s =
  (Ok (Some (position_of_message_id (message_id m), msg_record m)), s).

(** The ledger holds exactly the messages [ms], published and durable. *)
Record ledger_holds (s : Storage bytes) (L : RocksDBManagedLedger) (ms : list StoredMessage)
  : Prop := {
  lh_info : info_wf (rl_info L);
  lh_storable : Forall ledger_storable (info_ledgers (rl_info L));
  lh_current : exists pre l, info_ledgers (rl_info L) = pre ++ [l] /\
    current_ledger_id L = li_ledger_id l /\ current_ledger_entries L = li_entries l /\
    current_ledger_size L = li_size l;
  lh_room : current_ledger_entries L < max_entries_per_ledger L;
  lh_positions : msg_pair <$> ms = all_positions (info_ledgers (rl_info L));
  lh_partitions : Forall (fun m => i32_ok (msg_partition (message_id m))) ms;
  lh_stored : Forall (entry_stored s) ms;
  lh_lac : lac L = (fun m => position_of_message_id (message_id m)) <$> last ms;
  lh_durable : db s !! managed_ledger_key (rl_name L) = Some (encode_stored_info (rl_info L));
}.

(** The entry log is consistent and the allocator's next id lies above all the
    ids of the ledger. *)
Definition storage_wf (s : Storage bytes) : Prop := log_wf (log s) (fs s).

Definition next_ledger_id (s : Storage bytes) : option Z :=
  match db s !! ledger_id_allocator_key with
  | Some b => dec_u64 b
  | None => Some 0
  end.

Lemma lh_sorted s L ms :
  ledger_holds s L ms -> StronglySorted (fun a b => msg_rank a < msg_rank b) ms.
Proof.
  intros HL; pose proof (all_positions_sorted _ (lh_info _ _ _ HL)) as Hs.
  rewrite <- (lh_positions _ _ _ HL) in Hs; revert Hs; clear.
  induction ms as [|m ms IH]; cbn; intros Hs; [constructor |].
  apply StronglySorted_inv in Hs as [Hs Hm]; constructor; [by apply IH |].
  by rewrite Forall_fmap in Hm.
Qed.

Lemma lh_visible s L ms p :
  ledger_holds s L ms ->
  visible (rl_info L) p <-> exists m, m ∈ ms /\ msg_pair m = (ledger_id p, entry_id p).
Proof.
  intros HL; rewrite <- elem_of_all_positions, <- (lh_positions _ _ _ HL), list_elem_of_fmap.
  naive_solver.
Qed.

(** ** Reading *)

(** The messages at or after a position. *)
Definition messages_from (p : ManagedLedgerPosition) (ms : list StoredMessage) :=
  filter (fun m => cursor_key_rank p <= msg_rank m) ms.

Definition messages_after (p : ManagedLedgerPosition) (ms : list StoredMessage) :=
  filter (fun m => cursor_key_rank p < msg_rank m) ms.

Lemma list_filter_none {A} (P : A -> Prop) `{forall x, Decision (P x)} (l : list A) :
  (forall x, x ∈ l -> ~ P x) -> filter P l = [].
Proof.
  induction l as [|x l IH]; intros HP; [done |].
  rewrite filter_cons_False by (apply HP; by left); apply IH; intros y Hy; apply HP; by right.
Qed.

Lemma messages_from_visible p ms m :
  StronglySorted (fun a b => msg_rank a < msg_rank b) ms ->
  m ∈ ms -> msg_rank m = cursor_key_rank p ->
  messages_from p ms = m :: messages_after p ms.
Proof.
  unfold messages_from, messages_after; induction ms as [|a ms IH]; intros Hs Hm Hr.
  { by apply elem_of_nil in Hm. }
  apply StronglySorted_inv in Hs as [Hs Ha]; apply elem_of_cons in Hm as [<-|Hm].
  - rewrite filter_cons_True, filter_cons_False by lia; f_equal.
    rewrite Forall_forall in Ha; apply list_filter_ext; intros x Hx; specialize (Ha x Hx); lia.
  - rewrite Forall_forall in Ha; specialize (Ha m Hm).
    rewrite !filter_cons_False by lia; by apply IH.
Qed.

Lemma next_position_messages s L ms p :
  ledger_holds s L ms -> u64_ok (entry_id p) -> entry_id p < U64_MAX ->
  (exists l, l ∈ info_ledgers (rl_info L) /\ li_ledger_id l = ledger_id p) ->
  match next_position p (rl_info L) with
  | Some q => messages_after p ms = messages_from q ms /\ visible (rl_info L) q /\
              partition q = partition p
  | None => messages_after p ms = []
  end.
Proof.
  intros HL Hp Hmax Hl.
  pose proof (next_position_spec _ p (lh_info _ _ _ HL) Hp Hmax Hl) as Hn.
  assert (forall m, m ∈ ms -> visible (rl_info L) (mkPos (msg_pair m).1 (msg_pair m).2 (-1)))
    as Hvis by (intros m Hm; apply (lh_visible _ _ _ _ HL); by exists m).
  destruct (next_position p (rl_info L)) as [r|].
  - destruct Hn as (Hv & Hpart & Hlt & Hleast); split; [|done].
    apply list_filter_ext; intros m Hm; specialize (Hleast _ (Hvis m Hm)).
    unfold msg_rank, pair_rank; split; [apply Hleast | lia].
  - apply list_filter_none; intros m Hm; specialize (Hn _ (Hvis m Hm)).
    unfold msg_rank, pair_rank; lia.
Qed.

Lemma lh_msg_ok s L ms m :
  ledger_holds s L ms -> m ∈ ms ->
  visible (rl_info L) (position_of_message_id (message_id m)) /\
  u64_ok (ledger (message_id m)) /\ u64_ok (entry (message_id m)).
Proof.
  intros HL Hm.
  assert (visible (rl_info L) (position_of_message_id (message_id m))) as Hv
    by (apply (lh_visible _ _ _ _ HL); by exists m).
  split; [done |]; exact (visible_ok _ _ (lh_info _ _ _ HL) Hv).
Qed.

(** Comparison with the last position of the ledger. *)
Lemma lac_ltb m p :
  u64_ok (entry (message_id m)) -> u64_ok (entry_id p) ->
  partition p <= msg_partition (message_id m) ->
  key_ltb (position_of_message_id (message_id m)) p = (msg_rank m <? cursor_key_rank p).
Proof.
  intros Hm Hp Hpart; unfold key_ltb, key_cmp, position_cmp_inst, position_cmp.
  unfold msg_rank, pair_rank, msg_pair, cursor_key_rank; cbn.
  destruct (Z.compare_spec (ledger (message_id m)) (ledger_id p)) as [El|El|El];
    [destruct (Z.compare_spec (entry (message_id m)) (entry_id p)) as [Ee|Ee|Ee];
     [destruct (Z.compare_spec (msg_partition (message_id m)) (partition p))| |]| |];
    symmetry; first [apply Z.ltb_lt | apply Z.ltb_ge]; mlia.
Qed.

Lemma existsb_visible i p :
  0 <= entry_id p ->
  existsb (fun l => (li_ledger_id l =? ledger_id p) && (entry_id p <? li_entries l))
    (info_ledgers i) = true <-> visible i p.
Proof.
  intros Hp; unfold visible; rewrite existsb_exists; split.
  - intros (l & Hl%list_elem_of_In & Hb); exists l; split; [done | lia].
  - intros (l & Hl & Hb); exists l; split; [by apply list_elem_of_In | lia].
Qed.

Lemma last_max ms m x :
  StronglySorted (fun a b => msg_rank a < msg_rank b) ms -> last ms = Some m ->
  x ∈ ms -> msg_rank x <= msg_rank m.
Proof.
  induction ms as [|a ms IH]; [done |]; intros Hs Hl Hx.
  apply StronglySorted_inv in Hs as [Hs Ha]; rewrite Forall_forall in Ha.
  destruct ms as [|b ms]; [by injection Hl as ->; apply list_elem_of_singleton in Hx as -> |].
  change (last (a :: b :: ms)) with (last (b :: ms)) in Hl.
  apply elem_of_cons in Hx as [->|Hx]; [|by apply IH].
  apply last_Some_elem_of in Hl as Hm; specialize (Ha m Hm); lia.
Qed.

Lemma messages_from_beyond p ms m :
  StronglySorted (fun a b => msg_rank a < msg_rank b) ms -> last ms = Some m ->
  msg_rank m < cursor_key_rank p -> messages_from p ms = [].
Proof.
  intros Hs Hl Hlt; apply list_filter_none; intros x Hx.
  pose proof (last_max _ _ _ Hs Hl Hx); lia.
Qed.

(** One turn of the loop: the message at [p] is read, if there is one. *)
Lemma read_turn s L ms m p :
  ledger_holds s L ms -> last ms = Some m ->
  u64_ok (entry_id p) -> partition p <= msg_partition (message_id m) ->
  cursor_key_rank p <= msg_rank m ->
  if is_visible p (rl_info L) (position_of_message_id (message_id m))
  then exists x, entry_stored s x /\ msg_pair x = (ledger_id p, entry_id p) /\
                 messages_from p ms = x :: messages_after p ms
  else messages_from p ms = messages_after p ms.
Proof.
  intros HL Hl Hp Hpart Hle; pose proof (lh_sorted _ _ _ HL) as Hs.
  apply last_Some_elem_of in Hl as Hm; destruct (lh_msg_ok _ _ _ _ HL Hm) as (_ & _ & Hme).
  unfold is_visible; rewrite lac_ltb by done; replace (msg_rank m <? _) with false by lia.
  pose proof (existsb_visible (rl_info L) p ltac:(mlia)) as Hv.
  destruct (existsb _ _).
  - destruct (proj1 (lh_visible _ _ _ p HL) (proj1 Hv eq_refl)) as (x & Hx & Hpair).
    exists x; split_and!; [|done |].
    + pose proof (lh_stored _ _ _ HL) as Hst; rewrite Forall_forall in Hst; auto.
    + apply messages_from_visible; [done | done |].
      unfold msg_rank; by rewrite Hpair.
  - apply list_filter_ext; intros x Hx; split; [|lia]; intros Hge.
    destruct (decide (cursor_key_rank p = msg_rank x)) as [E|]; [|lia].
    destruct (lh_msg_ok _ _ _ _ HL Hx) as (Hvx & ? & ?).
    assert (false = true) as Hf; [|done]; apply Hv, (lh_visible _ _ _ p HL); exists x; split; [done |].
    unfold msg_rank, pair_rank, msg_pair, cursor_key_rank in *; cbn in *.
    f_equal; mlia.
Qed.

(** The loop returns the messages from [p] on, up to the limit. *)
Lemma read_loop_spec s L ms m fuel limit p out :
  ledger_holds s L ms -> last ms = Some m ->
  u64_ok (entry_id p) -> entry_id p < U64_MAX ->
  partition p <= msg_partition (message_id m) ->
  (exists l, l ∈ info_ledgers (rl_info L) /\ li_ledger_id l = ledger_id p) ->
  (length (messages_after p ms) < fuel)%nat -> (length out <= limit)%nat ->
  read_loop fuel (rl_info L) (position_of_message_id (message_id m)) limit (Some p) out s =
  (Ok (out ++ take (limit - length out) (messages_from p ms)), s).
Proof.
  intros HL Hl; pose proof (lh_sorted _ _ _ HL) as Hs.
  apply last_Some_elem_of in Hl as Hm; destruct (lh_msg_ok _ _ _ _ HL Hm) as (_ & _ & Hme).
  revert p out; induction fuel as [|fuel IH]; intros p out Hp Hmax Hpart Hled Hfuel Hout; [lia |].
  cbn [read_loop]; rewrite lac_ltb by done.
  destruct (Nat.leb_spec limit (length out)) as [Hlim|Hlim].
  { replace (limit - length out)%nat with 0%nat by lia; cbn; by rewrite take_0, app_nil_r. }
  destruct (Z.ltb_spec (msg_rank m) (cursor_key_rank p)) as [Hbeyond|Hle]; cbn [orb].
  { rewrite (messages_from_beyond _ _ _ Hs Hl Hbeyond), take_nil, app_nil_r; done. }
  assert (forall out', (length out' <= limit)%nat ->
    read_loop fuel (rl_info L) (position_of_message_id (message_id m)) limit
      (next_position p (rl_info L)) out' s
    = (Ok (out' ++ take (limit - length out') (messages_after p ms)), s)) as Hrest.
  { intros out' Hout'; pose proof (next_position_messages _ _ _ p HL Hp Hmax Hled) as Hn.
    destruct (next_position p (rl_info L)) as [q|].
    - destruct Hn as (E & Hvq & Hpq); rewrite E in *.
      destruct (visible_ok _ _ (lh_info _ _ _ HL) Hvq).
      destruct (proj1 (lh_visible _ _ _ q HL) Hvq) as (y & Hy & Hpair).
      rewrite (messages_from_visible q ms y) in Hfuel by (done || unfold msg_rank; by rewrite Hpair).
      rewrite IH; [done | done | by eapply visible_below_max, Hvq; apply HL | lia | | |done].
      + destruct Hvq as (l & ? & ? & _); eauto.
      + cbn in Hfuel; lia.
    - rewrite Hn, take_nil, app_nil_r; by destruct fuel. }
  pose proof (read_turn s L ms m p HL Hl Hp Hpart Hle) as Ht.
  unfold mbind'; destruct (is_visible _ _ _).
  - destruct Ht as (x & Hx & Hpair & ->); unfold entry_stored in Hx.
    injection Hpair as Hpl Hpe; rewrite <- Hpl, <- Hpe, Hx; unfold mret.
    rewrite Hrest by (rewrite length_app; cbn; lia).
    rewrite length_app; cbn [length]; rewrite <- (assoc_L (++)).
    replace (limit - length out)%nat with (S (limit - (length out + 1)))%nat by lia.
    unfold msg_record; cbn [firstn er_metadata er_payload].
    rewrite message_id_position_roundtrip; by destruct x.
  - rewrite Ht; by apply Hrest.
Qed.

Lemma read_entries_from_spec s L ms from limit :
  ledger_holds s L ms -> u64_ok (entry_id from) -> entry_id from < U64_MAX ->
  (exists l, l ∈ info_ledgers (rl_info L) /\ li_ledger_id l = ledger_id from) ->
  (forall m, last ms = Some m -> partition from <= msg_partition (message_id m)) ->
  read_entries_from L from limit s = (Ok (take limit (messages_from from ms)), s).
Proof.
  intros HL Hp Hmax Hled Hpart; unfold read_entries_from; rewrite (lh_lac _ _ _ HL).
  destruct limit as [|limit]; [by rewrite take_0 |].
  destruct (last ms) as [m|] eqn:Hl; cbn [fmap option_fmap option_map].
  - pose proof (lh_sorted _ _ _ HL) as Hs; specialize (Hpart m eq_refl).
    apply last_Some_elem_of in Hl as Hm; destruct (lh_msg_ok _ _ _ _ HL Hm) as (_ & _ & Hme).
    rewrite lac_ltb by done; destruct (Z.ltb_spec (msg_rank m) (cursor_key_rank from)) as [Hb|Hle].
    { by rewrite (messages_from_beyond _ _ _ Hs Hl Hb), take_nil. }
    rewrite (read_loop_spec s L ms m) by (try done; try (cbn; lia);
      rewrite <- length_all_positions, <- (lh_positions _ _ _ HL), length_fmap, Nat2Z.id by apply HL;
      unfold messages_after; pose proof (length_filter (fun x => cursor_key_rank from < msg_rank x) ms); lia).
    by rewrite Nat.sub_0_r.
  - by apply last_None in Hl as ->.
Qed.

(** ** Appending *)

Definition msg_item (m : StoredMessage) : Z * list Z * list Z :=
  (msg_partition (message_id m), metadata m, payload m).
Definition msg_position (m : StoredMessage) : ManagedLedgerPosition :=
  position_of_message_id (message_id m).
Definition msg_entry (m : StoredMessage) : EntryToAppend :=
  mkEntry (ledger (message_id m)) (entry (message_id m)) (msg_partition (message_id m))
    (metadata m) (payload m).

Definition item_size (item : Z * list Z * list Z) : Z :=
  Z.of_nat (length item.1.2) + Z.of_nat (length item.2).
Definition items_size (items : list (Z * list Z * list Z)) : Z :=
  foldr (fun item n => item_size item + n) 0 items.

(** Only the ledger id allocator may differ. *)
Definition same_but_allocator (s s' : Storage bytes) : Prop :=
  (forall k, k <> ledger_id_allocator_key -> db s' !! k = db s !! k) /\
  log s' = log s /\ fs s' = fs s.

Lemma same_but_allocator_trans s1 s2 s3 :
  same_but_allocator s1 s2 -> same_but_allocator s2 s3 -> same_but_allocator s1 s3.
Proof. intros (E1 & ? & ?) (E2 & ? & ?); split_and!; [|congruence ..]; intros; by rewrite E2, E1. Qed.

Lemma allocate_ledger_id_spec s n :
  next_ledger_id s = Some n -> 0 <= n < U64_MAX ->
  exists s', allocate_ledger_id s = (Ok n, s') /\ next_ledger_id s' = Some (n + 1) /\
             same_but_allocator s s'.
Proof.
  unfold next_ledger_id; intros Hn Hb.
  exists (mkStorage (<[ledger_id_allocator_key := enc_u64 (n + 1)]> (db s)) (log s) (fs s)).
  split_and!; cbn [db log fs].
  - unfold allocate_ledger_id, mget, mbind'.
    destruct (db s !! ledger_id_allocator_key) as [b|]; [unfold mlift; rewrite Hn; cbn | injection Hn as <-; cbn];
      unfold mput; rewrite wrap_u64_id by mlia; done.
  - rewrite lookup_insert_eq; apply u64_roundtrip; mlia.
  - split_and!; [|done ..]; intros k Hk; cbn; by rewrite lookup_insert_ne.
Qed.

(** The assignment is consistent: the counters are those of the last segment,
    which has room, and the ids stay below the next one. *)
Record assign_inv (max n : Z) (a : assignment) : Prop := {
  ai_info : info_wf (as_info a);
  ai_storable : Forall ledger_storable (info_ledgers (as_info a));
  ai_current : exists pre l, info_ledgers (as_info a) = pre ++ [l] /\
    as_id a = li_ledger_id l /\ as_entries a = li_entries l /\ as_size a = li_size l;
  ai_room : as_entries a < max;
  ai_ids : Forall (fun l => li_ledger_id l < n) (info_ledgers (as_info a));
}.

Lemma Forall_one {A} (P : A -> Prop) x : Forall P [x] -> P x.
Proof. by rewrite Forall_singleton. Qed.

(** Segments are compared by id only: replacing the last one keeps the order. *)
Lemma segments_sorted_map (f : StoredLedgerInfo -> StoredLedgerInfo) pre l :
  li_ledger_id (f l) = li_ledger_id l ->
  StronglySorted (fun a b => li_ledger_id a < li_ledger_id b) (pre ++ [l]) ->
  StronglySorted (fun a b => li_ledger_id a < li_ledger_id b) (pre ++ [f l]).
Proof.
  intros Hf; induction pre as [|x pre IH]; cbn; intros Hs; [repeat constructor |].
  apply StronglySorted_inv in Hs as [Hs Hx]; constructor; [by apply IH |].
  rewrite Forall_app in *; destruct Hx as [? Hx]; split; [done |].
  apply Forall_singleton; apply Forall_one in Hx; lia.
Qed.

(** The ids of the segments, and how an assignment may extend them. *)
Definition seg_ids (i : StoredManagedLedgerInfo) : list Z := li_ledger_id <$> info_ledgers i.

Definition extends_ids (n n' : Z) (i i' : StoredManagedLedgerInfo) : Prop :=
  exists fresh, seg_ids i' = seg_ids i ++ fresh /\ Forall (fun k => n <= k < n') fresh.

Lemma extends_ids_refl n n' i : extends_ids n n' i i.
Proof. exists []; by rewrite app_nil_r. Qed.

Lemma extends_ids_trans n1 n2 n3 i1 i2 i3 :
  n1 <= n2 <= n3 -> extends_ids n1 n2 i1 i2 -> extends_ids n2 n3 i2 i3 -> extends_ids n1 n3 i1 i3.
Proof.
  intros Hn (f1 & E1 & F1) (f2 & E2 & F2); exists (f1 ++ f2); split.
  - by rewrite E2, E1, (assoc_L (++)).
  - apply Forall_app; split; (eapply Forall_impl; [eassumption |]); cbn; lia.
Qed.

Lemma seg_ids_update_last (f : StoredLedgerInfo -> StoredLedgerInfo) i :
  (forall l, li_ledger_id (f l) = li_ledger_id l) ->
  seg_ids (mkInfo (update_last f (info_ledgers i))) = seg_ids i.
Proof.
  intros Hf; unfold seg_ids; cbn [info_ledgers].
  destruct (info_ledgers i) as [|l ls] using rev_ind; [done |].
  rewrite update_last_snoc, !fmap_app; cbn; by rewrite Hf.
Qed.

Lemma roll_if_full_spec clock max s n a :
  1 <= max -> next_ledger_id s = Some n -> 0 <= n < I64_MAX -> i64_range (clock n) ->
  info_wf (as_info a) -> Forall ledger_storable (info_ledgers (as_info a)) ->
  (exists pre l, info_ledgers (as_info a) = pre ++ [l] /\ as_id a = li_ledger_id l /\
     as_entries a = li_entries l /\ as_size a = li_size l) ->
  Forall (fun l => li_ledger_id l < n) (info_ledgers (as_info a)) ->
  exists a' s' n', roll_if_full clock max a s = (Ok a', s') /\
    assign_inv max n' a' /\ next_ledger_id s' = Some n' /\ n <= n' <= n + 1 /\
    same_but_allocator s s' /\ as_size a' <= Z.max 0 (as_size a) /\
    all_positions (info_ledgers (as_info a')) = all_positions (info_ledgers (as_info a)) /\
    as_positions a' = as_positions a /\ as_appends a' = as_appends a /\
    extends_ids n n' (as_info a) (as_info a').
Proof.
  intros Hmax Hn Hb Hclock Hi Hst (pre & l & Hls & Hid & Hent & Hsz) Hids.
  unfold roll_if_full; destruct (Z.leb_spec max (as_entries a)) as [Hfull|Hroom].
  - destruct (allocate_ledger_id_spec s n Hn ltac:(mlia)) as (s' & Ha & Hn' & Hsame).
    eexists _, s', (n + 1); unfold mbind'; rewrite Ha; split; [reflexivity |].
    split_and!; [|done | lia | lia | done | cbn; lia | apply all_positions_roll | done | done |].
    2: { exists [n]; split; [|apply Forall_singleton; lia].
         rewrite <- (seg_ids_update_last (set_timestamp (clock n)) (as_info a)) by done.
         unfold seg_ids; cbn [as_info info_ledgers roll_over_current_ledger]; by rewrite fmap_app. }
    destruct Hi as [Hs Hok]; unfold roll_over_current_ledger; rewrite Hls in *.
    apply Forall_app in Hst as [Hst1 Hst2%Forall_one].
    apply Forall_app in Hok as [Hok1 Hok2%Forall_one].
    apply Forall_app in Hids as [Hids1 Hids2%Forall_one].
    split; cbn [as_info as_id as_entries as_size info_ledgers]; rewrite ?update_last_snoc.
    + split; [|repeat (apply Forall_app; split); try done; apply Forall_singleton; cbn; mlia].
      apply StronglySorted_app_intro; [|repeat constructor |].
      * by apply (segments_sorted_map (set_timestamp (clock n))).
      * intros x y Hx ->%list_elem_of_singleton; cbn; rewrite Forall_forall in Hids1.
        apply elem_of_app in Hx as [Hx| ->%list_elem_of_singleton]; [by apply Hids1 | done].
    + repeat (apply Forall_app; split); try done; apply Forall_singleton.
      * destruct Hst2 as (? & ? & ? & ? & ? & ?); by split_and!.
      * unfold ledger_storable, i64_range; cbn; split_and!; first [done | mlia].
    + eexists _, _; split; [reflexivity | done].
    + lia.
    + repeat (apply Forall_app; split); [|apply Forall_singleton; cbn; lia ..].
      eapply Forall_impl; [exact Hids1 |]; cbn; lia.
  - exists a, s, n; unfold mret; split; [done |].
    split_and!; [|done | lia | lia | by split_and! | lia | done | done | done | apply extends_ids_refl].
    split; [done | done | by exists pre, l | done | done].
Qed.

Definition msg_of_item (l e : Z) (item : Z * list Z * list Z) : StoredMessage :=
  mkStored (mkMsgId l e item.1.1) item.1.2 item.2.

(** The effect of assigning positions to messages. *)
Definition assigned (a a' : assignment) (ms : list StoredMessage) : Prop :=
  all_positions (info_ledgers (as_info a'))
    = all_positions (info_ledgers (as_info a)) ++ (msg_pair <$> ms) /\
  as_positions a' = as_positions a ++ (msg_position <$> ms) /\
  as_appends a' = as_appends a ++ (msg_entry <$> ms).

Lemma add_to_ledger_ok size l :
  ledger_storable l -> 0 <= size -> li_size l + size <= I64_MAX -> li_entries l < I64_MAX ->
  ledger_storable (add_to_ledger size l) /\ li_entries (add_to_ledger size l) = li_entries l + 1 /\
  li_size (add_to_ledger size l) = li_size l + size.
Proof.
  intros (? & ? & ? & ? & ? & ?) Hsz Hmax He; unfold i64_range in *.
  unfold add_to_ledger, ledger_storable, i64_range; cbn.
  rewrite !wrap_u64_id by mlia; split_and!; first [done | lia].
Qed.

Lemma assign_item_spec clock max s n a item :
  1 <= max <= I64_MAX -> assign_inv max n a -> next_ledger_id s = Some n -> 0 <= n < I64_MAX ->
  i64_range (clock n) -> 0 <= as_size a -> as_size a + item_size item <= I64_MAX ->
  exists a' s' n' m, assign_item clock max item a s = (Ok a', s') /\
    assign_inv max n' a' /\ next_ledger_id s' = Some n' /\ n <= n' <= n + 1 /\
    same_but_allocator s s' /\ 0 <= as_size a' <= as_size a + item_size item /\
    msg_item m = item /\ assigned a a' [m] /\ extends_ids n n' (as_info a) (as_info a').
Proof.
  intros Hmax Ha Hn Hb Hclock Hsz0 Hsz; destruct item as [[part meta] data].
  destruct Ha as [Hi Hst (pre & l & Hls & Hid & Hent & Hsize) Hroom Hids].
  set (size := Z.of_nat (length meta) + Z.of_nat (length data)).
  change (item_size (part, meta, data)) with size in *.
  unfold assign_item, roll_if_full at 1.
  replace (max <=? as_entries a) with false by lia; unfold mbind', mret at 1.
  pose proof Hst as Hst'; rewrite Hls in Hst'; apply Forall_app in Hst' as [Hst1 Hst2%Forall_one].
  pose proof Hst2 as (_ & Hent0 & _); unfold i64_range in Hent0.
  destruct (add_to_ledger_ok size l Hst2) as (Hst3 & He3 & Hs3); [unfold size; lia | lia | lia |].
  set (a1 := mkAssign _ (as_id a) _ _ _ _).
  assert (info_ledgers (as_info a1) = pre ++ [add_to_ledger size l]) as Hls1.
  { unfold a1; cbn; by rewrite Hls, update_last_snoc. }
  assert (info_wf (as_info a1)) as Hi1.
  { destruct Hi as [Hs Hok]; split; rewrite Hls1; rewrite Hls in *.
    - by apply (segments_sorted_map (add_to_ledger size)).
    - apply Forall_app in Hok as [? Hok2%Forall_one]; apply Forall_app; split; [done |].
      apply Forall_singleton; rewrite He3; cbn; mlia. }
  destruct (roll_if_full_spec clock max s n a1) as
    (a' & s' & n' & Hr & Hinv & Hn' & Hnn & Hsame & Hsz' & Hpos & Hps & Hap & Hext); try done.
  { lia. }
  { rewrite Hls1; apply Forall_app; split; [done | by apply Forall_singleton]. }
  { exists pre, (add_to_ledger size l); split_and!; [done | done | |]; unfold a1; cbn.
    - by rewrite Hent.
    - by rewrite Hsize. }
  { rewrite Hls1; rewrite Hls in Hids; apply Forall_app in Hids as [? Hd%Forall_one].
    apply Forall_app; split; [done | by apply Forall_singleton]. }
  destruct (info_ledgers (as_info a)) as [|x xs] eqn:Eli; [by destruct pre |]; rewrite Hr.
  assert (as_size a1 = as_size a + size) as Hsz2 by (unfold a1; cbn; rewrite Hsize; exact Hs3).
  assert (0 <= as_size a') as Hsz3.
  { destruct Hinv as [_ Hst4 (pre' & l' & Hl' & _ & _ & ->) _ _]; rewrite Hl' in Hst4.
    apply Forall_app in Hst4 as [_ (_ & _ & Hz & _)%Forall_one]; apply Hz. }
  eexists _, s', n', (msg_of_item (as_id a) (as_entries a) (part, meta, data)).
  split; [reflexivity |]; split_and!; [|done | lia | lia | done | done | | done | split_and! |].
  - by destruct Hinv; split.
  - cbn [as_size]; lia.
  - cbn [as_info]; rewrite Hpos, Hls1, <- (update_last_snoc (add_to_ledger size)).
    rewrite all_positions_add, Eli, Hls by mlia; cbn; by rewrite Hid, Hent.
  - cbn; by rewrite Hps.
  - cbn; by rewrite Hap.
  - destruct Hext as (fresh & E & F); exists fresh; split; [|done]; cbn [as_info]; rewrite E; f_equal.
    unfold a1; cbn [as_info]; rewrite <- Eli; by apply seg_ids_update_last.
Qed.

Lemma item_size_nonneg item : 0 <= item_size item.
Proof. unfold item_size; lia. Qed.

Lemma items_size_cons item items : items_size (item :: items) = item_size item + items_size items.
Proof. done. Qed.

Lemma items_size_nonneg items : 0 <= items_size items.
Proof.
  induction items as [|x items IH]; [done |].
  rewrite items_size_cons; pose proof (item_size_nonneg x); lia.
Qed.

Lemma assign_items_spec clock max s n a items :
  1 <= max <= I64_MAX -> assign_inv max n a -> next_ledger_id s = Some n ->
  0 <= n -> n + Z.of_nat (length items) <= I64_MAX -> (forall k, i64_range (clock k)) ->
  0 <= as_size a -> as_size a + items_size items <= I64_MAX ->
  exists a' s' n' ms, assign_items clock max items a s = (Ok a', s') /\
    assign_inv max n' a' /\ next_ledger_id s' = Some n' /\ n <= n' <= n + Z.of_nat (length items) /\
    same_but_allocator s s' /\ msg_item <$> ms = items /\ assigned a a' ms /\
    extends_ids n n' (as_info a) (as_info a') /\ as_size a' <= as_size a + items_size items.
Proof.
  intros Hmax Ha Hn Hn0 Hb Hclock; revert s n a Ha Hn Hn0 Hb.
  induction items as [|item items IH]; intros s n a Ha Hn Hn0 Hb Hsz0 Hsz; cbn [assign_items].
  - exists a, s, n, []; split_and!;
      [done | done | done | lia | cbn; lia | by split_and! | done | | apply extends_ids_refl | cbn; lia].
    split_and!; cbn; by rewrite app_nil_r.
  - cbn [length] in *; rewrite items_size_cons in Hsz.
    pose proof (items_size_nonneg items).
    destruct (assign_item_spec clock max s n a item) as
      (a1 & s1 & n1 & m & E1 & Ha1 & Hn1 & Hnn & Hs1 & Hsz1 & Hm & (Hp1 & Hq1 & Hr1) & Hx1);
      try done; try lia.
    destruct (IH s1 n1 a1) as (a2 & s2 & n2 & ms & E2 & Ha2 & Hn2 & Hnn2 & Hs2 & Hms & (Hp2 & Hq2 & Hr2) & Hx2 & Hy2);
      try done; try lia.
    unfold mbind'; rewrite E1; exists a2, s2, n2, (m :: ms); rewrite E2.
    split_and!; [done | done | done | lia | lia | by eapply same_but_allocator_trans
                | by cbn; rewrite Hm, Hms | | by eapply extends_ids_trans; [|done..]; lia
                | rewrite items_size_cons; lia].
    split_and!; cbn [fmap list_fmap].
    + rewrite Hp2, Hp1, <- (assoc_L (++)); done.
    + rewrite Hq2, Hq1, <- (assoc_L (++)); done.
    + rewrite Hr2, Hr1, <- (assoc_L (++)); done.
Qed.

(** ** Publishing *)

(** Reading a message depends on its location and on log files growing only. *)
Lemma entry_stored_mono s s' m :
  db s' !! managed_entry_key (ledger (message_id m)) (entry (message_id m))
    = db s !! managed_entry_key (ledger (message_id m)) (entry (message_id m)) ->
  fs_extends (fs s) (fs s') -> entry_stored s m -> entry_stored s' m.
Proof.
  intros Hdb Hfs; unfold entry_stored, read_entry_record, load_entry_index, mbind', mget, mlift, mret, read_log.
  rewrite Hdb; destruct (db s !! _) as [b|]; [|done].
  destruct (dec_location b) as [loc|]; cbn [ok_or]; [|done].
  destruct (read_entry (fs s) _) as [r|] eqn:E; [|done].
  rewrite (read_entry_mono _ _ _ _ Hfs E); by intros [= -> ->].
Qed.

Lemma entry_stored_new s m ix :
  stored (fs s) (msg_entry m) ix ->
  db s !! managed_entry_key (ledger (message_id m)) (entry (message_id m))
    = Some (enc_location (location_of_index ix)) ->
  entry_stored s m.
Proof.
  intros (Hl & He & Hp & Hr) Hdb; unfold entry_stored, read_entry_record, load_entry_index.
  unfold mbind', mget, mlift, mret, read_log; rewrite Hdb, location_roundtrip; cbn in *.
  rewrite <- Hl, <- He; replace (mkIndex _ _ _ _ _ _ _) with ix by by destruct ix.
  rewrite Hr, Hp; unfold position_of_message_id; by rewrite Hl, He.
Qed.

Definition entry_key (x : Z * Z) : string := managed_entry_key x.1 x.2.

Lemma put_locations_other ps ixs d k :
  (forall p, p ∈ ps -> k <> managed_entry_key (ledger_id p) (entry_id p)) ->
  put_locations ps ixs d !! k = d !! k.
Proof.
  revert ixs d; induction ps as [|p ps IH]; intros [|ix ixs] d Hk; cbn; try done.
  rewrite IH by (intros q Hq; apply Hk; by right).
  rewrite lookup_insert_ne; [done |]; intros E; by apply (Hk p); [left |].
Qed.

Lemma put_locations_lookup ms ixs d i m ix :
  NoDup ((fun m => entry_key (msg_pair m)) <$> ms) -> ms !! i = Some m -> ixs !! i = Some ix ->
  put_locations (msg_position <$> ms) ixs d !! entry_key (msg_pair m)
  = Some (enc_location (location_of_index ix)).
Proof.
  revert ixs d i; induction ms as [|x ms IH]; intros [|y ixs] d [|i] Hnd; try done; cbn.
  - intros [= ->] [= ->]; apply NoDup_cons in Hnd as [Hx _]; rewrite put_locations_other.
    + by rewrite lookup_insert_eq.
    + intros p (z & -> & Hz)%list_elem_of_fmap E; apply Hx, list_elem_of_fmap; by exists z.
  - intros Hm Hix; apply NoDup_cons in Hnd as [_ Hnd]; by eapply IH.
Qed.

(** What the ledger holds depends on its own keys only. *)
Lemma ledger_holds_mono s s' L ms :
  db s' !! managed_ledger_key (rl_name L) = db s !! managed_ledger_key (rl_name L) ->
  (forall m, m ∈ ms -> db s' !! entry_key (msg_pair m) = db s !! entry_key (msg_pair m)) ->
  fs_extends (fs s) (fs s') -> ledger_holds s L ms -> ledger_holds s' L ms.
Proof.
  intros Hk He Hfs []; split; try done; [|congruence].
  rewrite Forall_forall in *; intros m Hm.
  eapply entry_stored_mono; [by apply He | done | auto].
Qed.

Definition item_ok (item : Z * list Z * list Z) : Prop :=
  i32_ok item.1.1 /\ Z.of_nat (length item.1.2) <= U32_MAX /\
  Z.of_nat (length item.2) <= U32_MAX.

(** Ids, sizes and times stay within the signed 64-bit fields they are stored in. *)
Record append_room (clock : Z -> Z) (s : Storage bytes) (L : RocksDBManagedLedger)
    (items : list (Z * list Z * list Z)) : Prop := {
  ar_max : 1 <= max_entries_per_ledger L <= I64_MAX;
  ar_next : exists n, next_ledger_id s = Some n /\ 0 <= n /\
    n + Z.of_nat (length items) <= I64_MAX /\
    Forall (fun l => li_ledger_id l < n) (info_ledgers (rl_info L));
  ar_clock : forall k, i64_range (clock k);
  ar_size : current_ledger_size L + items_size items <= I64_MAX;
  ar_items : Forall item_ok items;
}.

Lemma start_assign_inv clock s L ms items n :
  ledger_holds s L ms -> append_room clock s L items -> next_ledger_id s = Some n ->
  assign_inv (max_entries_per_ledger L) n
    (mkAssign (rl_info L) (current_ledger_id L) (current_ledger_entries L)
       (current_ledger_size L) [] []).
Proof.
  intros [] [] Hn; split; try done.
  destruct ar_next0 as (n' & Hn' & _ & _ & Hids); rewrite Hn in Hn'; by injection Hn' as ->.
Qed.

Lemma lh_size_nonneg s L ms : ledger_holds s L ms -> 0 <= current_ledger_size L.
Proof.
  intros [_ Hst (pre & l & Hl & _ & _ & ->) _ _ _ _ _ _]; rewrite Hl in Hst.
  apply Forall_app in Hst as [_ (_ & _ & Hz & _)%Forall_one]; apply Hz.
Qed.

(** Distinct positions have distinct keys. *)
Lemma entry_keys_NoDup i (ms : list StoredMessage) :
  info_wf i -> msg_pair <$> ms = all_positions (info_ledgers i) ->
  NoDup ((fun m => entry_key (msg_pair m)) <$> ms).
Proof.
  intros Hi Hpos; change (NoDup (entry_key ∘ msg_pair <$> ms)); rewrite list_fmap_compose, Hpos.
  pose proof (all_positions_sorted i Hi) as Hs.
  assert (forall x, x ∈ all_positions (info_ledgers i) -> u64_ok x.1 /\ u64_ok x.2) as Hok.
  { intros x Hx; assert (visible i (mkPos x.1 x.2 (-1))) as Hv
      by (apply elem_of_all_positions; cbn; by destruct x).
    exact (visible_ok i _ Hi Hv). }
  clear Hpos; induction (all_positions (info_ledgers i)) as [|x xs IH]; cbn; [constructor |].
  apply StronglySorted_inv in Hs as [Hs Hx]; rewrite Forall_forall in Hx.
  apply NoDup_cons; split; [|apply IH; [done |]; intros y Hy; apply Hok; by right].
  intros (y & E & Hy)%list_elem_of_fmap; specialize (Hx y Hy).
  destruct (Hok x ltac:(by left)), (Hok y ltac:(by right)).
  apply managed_entry_key_inj in E as [E1 E2]; [|done ..].
  unfold pair_rank, cursor_key_rank in Hx; cbn in Hx; rewrite E1, E2 in Hx; lia.
Qed.

(** The ledger after publishing the new messages. *)
Lemma publish_holds s s1 L ms n a new ixs f :
  ledger_holds s L ms -> same_but_allocator s s1 ->
  assign_inv (max_entries_per_ledger L) n a ->
  assigned (mkAssign (rl_info L) (current_ledger_id L) (current_ledger_entries L)
              (current_ledger_size L) [] []) a new -> new <> [] ->
  Forall (fun m => i32_ok (msg_partition (message_id m))) new ->
  fs_extends (fs s) f -> Forall2 (stored f) (msg_entry <$> new) ixs ->
  let d := <[managed_ledger_key (rl_name L) := encode_stored_info (as_info a)]>
             (put_locations (msg_position <$> new) ixs (db s1)) in
  forall st, ledger_holds (mkStorage d st f)
    (mkLedger (rl_name L) (max_entries_per_ledger L) (as_info a) (last (msg_position <$> new))
       (as_id a) (as_entries a) (as_size a)) (ms ++ new).
Proof.
  intros HL (Hsame & _ & _) [] (Hpos & _ & _) Hne Hparts Hf Hix d st; cbn [as_info] in Hpos.
  rewrite <- (lh_positions _ _ _ HL), <- fmap_app in Hpos.
  pose proof (entry_keys_NoDup _ (ms ++ new) ai_info0 (eq_sym Hpos)) as Hnd.
  rewrite fmap_app, NoDup_app in Hnd; destruct Hnd as (_ & Hdisj & Hnd).
  split; cbn [rl_info current_ledger_id current_ledger_entries current_ledger_size
              max_entries_per_ledger lac rl_name db]; try done.
  - apply Forall_app; split; [apply HL | done].
  - apply Forall_app; split; apply Forall_forall; intros m Hm.
    + pose proof (lh_stored _ _ _ HL) as Hst; rewrite Forall_forall in Hst.
      apply (entry_stored_mono s); [|done | auto]; cbn [db]; unfold d.
      rewrite lookup_insert_ne, put_locations_other; [by apply Hsame | | done].
      intros p (x & -> & Hx)%list_elem_of_fmap E.
      apply (Hdisj (entry_key (msg_pair m))); apply list_elem_of_fmap; [by exists m | by exists x].
    + apply list_elem_of_lookup in Hm as (j & Hj).
      destruct (Forall2_lookup_l _ _ _ j (msg_entry m) Hix) as (ix & Hixj & Hst);
        [by rewrite list_lookup_fmap, Hj |].
      apply (entry_stored_new _ _ ix); [done |]; cbn [db]; unfold d.
      rewrite lookup_insert_ne by done; by eapply put_locations_lookup.
  - rewrite last_app, fmap_last; destruct (last new) eqn:El; [done |].
    by apply last_None in El.
  - by unfold d; rewrite lookup_insert_eq.
Qed.

Lemma append_batch_spec io (s : Storage bytes) es :
  log_wf (log s) (fs s) -> io_clean io -> Forall entry_ok es -> es <> [] ->
  exists st f, log_wf st f /\ fs_extends (fs s) f /\
  match append_batch io es s with
  | (Ok ixs, s') => s' = mkStorage (db s) st f /\ Forall2 (stored f) es ixs
  | (Err _, s') => s' = mkStorage (db s) st f /\ io.2 <> WriteOk
  end.
Proof.
  intros Hwf Hio Hok Hne; unfold append_batch; destruct es as [|e es]; [done |].
  pose proof (write_batch_spec (log s) (fs s) (e :: es) io.1 io.2 Hwf) as Hspec.
  destruct io as [b w]; specialize (Hspec Hio Hok); cbn [fst snd] in *.
  destruct (write_batch _ _ _ _ _) as [[rs st] f]; destruct Hspec as (Hwf' & Hext & Hans & Hall).
  exists st, f; split_and!; [done | done |].
  destruct (collect_results rs) as [ixs|err] eqn:E; cbn.
  - split; [done | by eapply collect_results_spec].
  - split; [done |]; intros Hw; destruct (collect_results_ok rs (Hall Hw)) as (? & ?); congruence.
Qed.

Lemma new_entries_ok i ms new items :
  info_wf i -> msg_pair <$> (ms ++ new) = all_positions (info_ledgers i) ->
  msg_item <$> new = items -> Forall item_ok items ->
  Forall entry_ok (msg_entry <$> new) /\
  Forall (fun m => i32_ok (msg_partition (message_id m))) new.
Proof.
  intros Hi Hpos Hitems Hok; rewrite <- Hitems, Forall_fmap, Forall_forall in Hok.
  rewrite Forall_fmap, !Forall_forall; split; intros m Hm; destruct (Hok m Hm) as (? & ? & ?); [|done].
  assert (visible i (msg_position m)) as Hv.
  { apply elem_of_all_positions; rewrite <- Hpos; apply list_elem_of_fmap; exists m.
    split; [done |]; apply elem_of_app; by right. }
  destruct (visible_ok _ _ Hi Hv); by split_and!.
Qed.

(** The outcome of an append.  Either the new messages are stored and published,
    in segments with fresh ids if new ones were needed, or the ledger holds what
    it held; no other key than the ones named changes. *)
Definition append_outcome (s : Storage bytes) (n : Z) (L : RocksDBManagedLedger)
    (ms : list StoredMessage) (items : list (Z * list Z * list Z))
    (out : result ledger_error (list ManagedLedgerPosition * RocksDBManagedLedger) * Storage bytes)
  : Prop :=
  let '(r, s') := out in
  storage_wf s' /\ fs_extends (fs s) (fs s') /\
  exists n', next_ledger_id s' = Some n' /\ n <= n' <= n + Z.of_nat (length items) /\
  match r with
  | Ok (ps, L') => exists new, msg_item <$> new = items /\ ps = msg_position <$> new /\
      ledger_holds s' L' (ms ++ new) /\ extends_ids n n' (rl_info L) (rl_info L') /\
      rl_name L' = rl_name L /\ max_entries_per_ledger L' = max_entries_per_ledger L /\
      current_ledger_size L' <= current_ledger_size L + items_size items /\
      (forall k, k <> ledger_id_allocator_key -> k <> managed_ledger_key (rl_name L) ->
         (forall m, m ∈ new -> k <> entry_key (msg_pair m)) -> db s' !! k = db s !! k)
  | Err _ => ledger_holds s' L ms /\
      (forall k, k <> ledger_id_allocator_key -> db s' !! k = db s !! k)
  end.

Lemma put_locations_alloc ps ixs d :
  put_locations (bytes := bytes) ps ixs d !! ledger_id_allocator_key = d !! ledger_id_allocator_key.
Proof. by apply put_locations_other. Qed.

Lemma add_entries_spec clock io db_ok s n L ms items :
  ledger_holds s L ms -> storage_wf s -> io_clean io -> append_room clock s L items ->
  next_ledger_id s = Some n ->
  append_outcome s n L ms items (add_entries clock io db_ok L items s) /\
  (io.2 = WriteOk -> db_ok = true -> is_ok (add_entries clock io db_ok L items s).1).
Proof.
  intros HL Hwf Hio Hroom Hn; unfold add_entries; destruct items as [|item items].
  { split; [|by eexists]; split_and!; [done | done |]; exists n; split_and!; [done | lia | cbn; lia |].
    exists []; rewrite app_nil_r; split_and!; try done; [apply extends_ids_refl | cbn; lia]. }
  pose proof Hroom as [Hmax (n0 & Hn' & Hn0 & Hnb & Hids) Hclock Hsz Hitems].
  rewrite Hn in Hn'; injection Hn' as <-.
  destruct (assign_items_spec clock (max_entries_per_ledger L) s n _ (item :: items) Hmax
              (start_assign_inv _ _ _ _ _ _ HL Hroom Hn) Hn Hn0 Hnb Hclock)
    as (a & s1 & n1 & new & E & Ha & Hn1 & [Hnn1 Hnn2] & Hsame & Hnew & Hassigned & Hextids & Hsz1);
    [by eapply lh_size_nonneg | done |].
  pose proof Hassigned as (Hpos & Hps & Hap); cbn [as_info as_positions as_appends app] in Hpos, Hps, Hap.
  rewrite <- (lh_positions _ _ _ HL), <- fmap_app in Hpos.
  destruct (new_entries_ok _ ms new _ (ai_info _ _ _ Ha) (eq_sym Hpos) Hnew Hitems) as [Hok Hparts].
  assert (new <> []) as Hne by (by intros ->).
  pose proof Hsame as (Hdb & Hlog & Hfs); unfold storage_wf in Hwf; rewrite <- Hlog, <- Hfs in Hwf.
  destruct (append_batch_spec io s1 (msg_entry <$> new) Hwf Hio Hok) as (st & f & Hst & Hext & Happ);
    [by destruct new |].
  unfold mbind'; rewrite E, Hap, Hps.
  rewrite Hfs in Hext.
  assert (ledger_holds (mkStorage (db s1) st f) L ms) as HLerr.
  { apply (ledger_holds_mono s); [by apply Hdb | intros m Hm; by apply Hdb | done | done]. }
  destruct (append_batch io _ s1) as [[ixs|err] s2]; destruct Happ as [-> Happ];
    [|split; [split_and!; [done | done | exists n1; by split_and!] | done]].
  assert (length ixs = length new) as Hlen by (apply Forall2_length in Happ; by rewrite length_fmap in Happ).
  rewrite length_fmap, Hlen, Nat.eqb_refl; cbn [negb]; unfold write_batch_db.
  destruct db_ok; [|split; [split_and!; [done | done | exists n1; by split_and!] | done]].
  split; [|intros _ _; eexists; reflexivity]; split_and!; [done | done |].
  exists n1; split_and!; [| lia | lia |].
  { unfold next_ledger_id; cbn [db]; rewrite lookup_insert_ne, put_locations_alloc by done; exact Hn1. }
  exists new; split_and!; [done | done | by eapply publish_holds | done | done | done | done |].
  intros k Hk1 Hk2 Hk3; cbn [db]; rewrite lookup_insert_ne, put_locations_other by
    (done || by intros p (m & -> & Hm)%list_elem_of_fmap; apply Hk3).
  by apply Hdb.
Qed.

(** Whatever the file system does, a batch that is answered with indices was written as
    a whole, and one that is not leaves what was written before. *)
Lemma append_batch_any io (s : Storage bytes) es :
  log_wf (log s) (fs s) ->
  append_batch io es s = append_batch (true, WriteOk) es s \/
  exists e s', append_batch io es s = (Err e, s') /\ db s' = db s /\ fs_extends (fs s) (fs s').
Proof.
  intros Hwf; destruct es as [|e es]; [by left |]; destruct io as [open_ok w]; unfold append_batch; cbn [fst snd].
  assert (forall st f, fs_extends (fs s) f -> w <> WriteOk ->
    exists err s', (let '(rs, st, f) := write_buffer st f (e :: es) w in
      match collect_results rs with Ok ixs => (Ok ixs, mkStorage (db s) st f) | Err e => (Err (AppendFailed e), mkStorage (db s) st f) end)
      = (Err err, s') /\ db s' = db s /\ fs_extends (fs s) (fs s')) as Hbuf.
  { intros st f Hf Hw; unfold write_buffer; cbn [layout_batch].
    destruct (layout_batch _ _ es) as [[ixs buf] stop]; destruct w as [|n]; [done |]; cbn.
    eexists _, _; split; [reflexivity |]; split; [done |]; etrans; [exact Hf | apply append_file_extends]. }
  unfold write_batch; destruct ((0 <? active_offset (log s)) && _).
  - destruct open_ok; cbn.
    2:{ right; eexists _, _; split; [reflexivity |]; done. }
    destruct w as [|n]; [by left |]; right; apply Hbuf; [|done].
    intros id c Hc; exists []; rewrite app_nil_r, lookup_insert_ne; [done |]; intros <-.
    destruct Hwf as (_ & _ & Hnew); rewrite Hnew in Hc; [done | lia].
  - destruct w as [|n]; [by left |]; right; by apply Hbuf.
Qed.

Lemma add_entries_any clock io db_ok s n L ms items :
  ledger_holds s L ms -> storage_wf s -> append_room clock s L items -> next_ledger_id s = Some n ->
  add_entries clock io db_ok L items s = add_entries clock (true, WriteOk) db_ok L items s \/
  exists e s', add_entries clock io db_ok L items s = (Err e, s') /\ ledger_holds s' L ms /\ fs_extends (fs s) (fs s') /\
    forall k, k <> ledger_id_allocator_key -> db s' !! k = db s !! k.
Proof.
  intros HL Hwf Hroom Hn; unfold add_entries; destruct items as [|item items]; [by left |].
  pose proof Hroom as [Hmax (n0 & Hn' & Hn0 & Hnb & Hids) Hclock Hsz Hitems].
  rewrite Hn in Hn'; injection Hn' as <-.
  destruct (assign_items_spec clock (max_entries_per_ledger L) s n _ (item :: items) Hmax
              (start_assign_inv _ _ _ _ _ _ HL Hroom Hn) Hn Hn0 Hnb Hclock)
    as (a & s1 & n1 & new & E & _ & _ & _ & (Hdb & Hlog & Hfs) & _); [by eapply lh_size_nonneg | done |].
  unfold mbind'; rewrite E; unfold storage_wf in Hwf; rewrite <- Hlog, <- Hfs in Hwf.
  destruct (append_batch_any io s1 (as_appends a) Hwf) as [->|(e & s2 & -> & Hdb2 & Hext)]; [by left | right].
  rewrite Hfs in Hext; exists e, s2; split_and!; [done | | done |].
  - apply (ledger_holds_mono s); [rewrite Hdb2; by apply Hdb | intros m Hm; rewrite Hdb2; by apply Hdb | done | done].
  - intros k Hk; rewrite Hdb2; by apply Hdb.
Qed.

(** ** Opening *)

Lemma decode_encode_info i :
  Forall ledger_storable (info_ledgers i) -> decode_stored_info (encode_stored_info i) = Some i.
Proof.
  intros Hi; unfold decode_stored_info, encode_stored_info, decode_info, encode_info.
  rewrite ledger_info_roundtrip; cbn [ok_or result_bind ledger_info].
  rewrite Forall_forall in Hi; rewrite collect_roundtrip; [by destruct i |].
  intros l Hl; by apply ledger_proto_roundtrip, Hi.
Qed.

Lemma last_ledger_positions l :
  last (ledger_positions l) = if 0 <? li_entries l then Some (li_ledger_id l, li_entries l - 1) else None.
Proof.
  unfold ledger_positions; destruct (Z.ltb_spec 0 (li_entries l)).
  - replace (li_entries l) with (li_entries l - 1 + 1) at 1 by lia.
    rewrite seqZ_app, fmap_app, last_app by lia; done.
  - by rewrite seqZ_nil by lia.
Qed.

Lemma last_all_positions i :
  last (all_positions (info_ledgers i))
  = (fun l => (li_ledger_id l, li_entries l - 1)) <$> last_non_empty i.
Proof.
  unfold last_non_empty; induction (info_ledgers i) as [|l ls IH] using rev_ind; [done |].
  rewrite all_positions_app, all_positions_singleton, last_app, last_ledger_positions.
  rewrite reverse_snoc; cbn [List.find]; by destruct (0 <? li_entries l).
Qed.

Lemma entry_stored_location s m :
  entry_stored s m ->
  exists b loc, db s !! entry_key (msg_pair m) = Some b /\ dec_location b = Some loc /\
                loc_partition loc = msg_partition (message_id m).
Proof.
  unfold entry_stored, read_entry_record, load_entry_index, mbind', mget, mlift, mret, read_log.
  unfold entry_key, msg_pair; cbn; destruct (db s !! _) as [b|]; [|done].
  destruct (dec_location b) as [loc|] eqn:E; cbn; [|done].
  destruct (read_entry _ _); [|done]; intros [= Hp _]; by exists b, loc.
Qed.

Lemma lac_from_info_spec s i ms :
  msg_pair <$> ms = all_positions (info_ledgers i) -> Forall (entry_stored s) ms ->
  lac_from_info_and_db i s = (Ok (msg_position <$> last ms), s).
Proof.
  intros Hpos Hst; unfold lac_from_info_and_db.
  pose proof (last_all_positions i) as Hl; rewrite <- Hpos, fmap_last in Hl.
  destruct (last ms) as [m|] eqn:Em, (last_non_empty i) as [l|]; cbn in Hl; try done.
  injection Hl as Hl He.
  rewrite Forall_forall in Hst; apply last_Some_elem_of in Em.
  destruct (entry_stored_location s m (Hst m Em)) as (b & loc & Hb & Hloc & Hpart).
  unfold entry_key, msg_pair in Hb; cbn in Hb; rewrite Hl, He in Hb.
  unfold mbind', mget, mlift, mret; rewrite Hb, Hloc; cbn.
  unfold msg_position, position_of_message_id; congruence.
Qed.

(** What opening a ledger leaves: the messages, the log untouched, possibly new
    segments with fresh ids, and no other key changed. *)
Record opened_as (s s' : Storage bytes) (n : Z) (i : StoredManagedLedgerInfo) (name : string)
    (max size : Z) (L' : RocksDBManagedLedger) (ms : list StoredMessage) : Prop := {
  oa_holds : ledger_holds s' L' ms;
  oa_size : current_ledger_size L' <= Z.max 0 size;
  oa_name : rl_name L' = name;
  oa_max : max_entries_per_ledger L' = max;
  oa_log : log s' = log s;
  oa_fs : fs s' = fs s;
  oa_next : exists n', next_ledger_id s' = Some n' /\ n <= n' <= n + 1 /\
            extends_ids n n' i (rl_info L');
  oa_frame : forall k, k <> ledger_id_allocator_key -> k <> managed_ledger_key name ->
             db s' !! k = db s !! k;
}.

(** The end of [open_with_config], from consistent segments on. *)
Lemma open_tail_holds clock max s n a ms name :
  1 <= max -> next_ledger_id s = Some n -> 0 <= n < I64_MAX -> i64_range (clock n) ->
  info_wf (as_info a) -> Forall ledger_storable (info_ledgers (as_info a)) ->
  (exists pre l, info_ledgers (as_info a) = pre ++ [l] /\ as_id a = li_ledger_id l /\
     as_entries a = li_entries l /\ as_size a = li_size l) ->
  Forall (fun l => li_ledger_id l < n) (info_ledgers (as_info a)) ->
  msg_pair <$> ms = all_positions (info_ledgers (as_info a)) ->
  Forall (fun m => i32_ok (msg_partition (message_id m))) ms -> Forall (entry_stored s) ms ->
  exists a' s1 L' s',
    roll_if_full clock max a s = (Ok a', s1) /\
    (let! _ := mput (managed_ledger_key name) (encode_stored_info (as_info a')) in
     let! lac := lac_from_info_and_db (as_info a') in
     let! current := mlift (last (info_ledgers (as_info a'))) Uninitialized in
     mret (mkLedger name max (as_info a') lac (li_ledger_id current) (li_entries current)
             (li_size current))) s1 = (Ok L', s') /\
    opened_as s s' n (as_info a) name max (as_size a) L' ms.
Proof.
  intros Hmax Hn Hb Hclock Hi Hst Hcur Hids Hpos Hparts Hstored.
  destruct (roll_if_full_spec clock max s n a Hmax Hn Hb Hclock Hi Hst Hcur Hids) as
    (a' & s1 & n' & Hr & [Hi' Hst' (pre & l & Hls & Hid & He & Hsz) Hroom _] & Hn' & Hnn & Hsame & Hsz' & Hpos' & _ & _ & Hids').
  destruct Hsame as (Hdb & Hlog & Hfs).
  set (d := <[managed_ledger_key name := encode_stored_info (as_info a')]> (db s1)).
  assert (Forall (entry_stored (mkStorage d (log s1) (fs s1))) ms) as Hstored'.
  { eapply Forall_impl; [exact Hstored |]; intros m Hm; eapply entry_stored_mono, Hm; cbn [db fs].
    - unfold d; rewrite lookup_insert_ne by done; by apply Hdb.
    - by rewrite Hfs. }
  assert (msg_pair <$> ms = all_positions (info_ledgers (as_info a'))) as Hpos2 by congruence.
  eexists a', s1, _, _; split; [done |]; unfold mbind', mput.
  fold d; rewrite (lac_from_info_spec _ _ ms) by done; unfold mlift; rewrite Hls, last_snoc; cbn [ok_or].
  split; [reflexivity |]; split; [|cbn; lia | done | done | done | done | |].
  2: { exists n'; split_and!; [|lia | lia | done].
       unfold next_ledger_id; cbn [db]; unfold d; by rewrite lookup_insert_ne. }
  2: { intros k Hk1 Hk2; cbn [db]; unfold d; rewrite lookup_insert_ne by done; by apply Hdb. }
  split; cbn [rl_info current_ledger_id current_ledger_entries current_ledger_size
              max_entries_per_ledger lac rl_name db]; try done.
  - by exists pre, l.
  - lia.
  - unfold d; by rewrite lookup_insert_eq.
Qed.

(** The segments [open_with_config] starts from: the stored ones, or one fresh
    segment. *)
Lemma open_with_config_start clock config_max s s0 n name info pre l ms :
  let max := Z.max 1 (default DEFAULT_MAX_ENTRIES_PER_LEDGER config_max) in
  match db s !! managed_ledger_key name with
  | Some b => mlift (decode_stored_info b) Undecodable
  | None => let! id := allocate_ledger_id in mret (managed_info_new id)
  end s = (Ok info, s0) ->
  info_ledgers info = pre ++ [l] ->
  next_ledger_id s0 = Some n -> 0 <= n < I64_MAX -> i64_range (clock n) ->
  info_wf info -> Forall ledger_storable (info_ledgers info) ->
  Forall (fun l => li_ledger_id l < n) (info_ledgers info) ->
  msg_pair <$> ms = all_positions (info_ledgers info) ->
  Forall (fun m => i32_ok (msg_partition (message_id m))) ms -> Forall (entry_stored s0) ms ->
  exists L' s', open_with_config clock name config_max s = (Ok L', s') /\
    opened_as s0 s' n info name max (li_size l) L' ms.
Proof.
  intros max Hstart Hls Hn Hb Hclock Hi Hst Hids Hpos Hparts Hstored.
  destruct (open_tail_holds clock max s0 n
              (mkAssign info (li_ledger_id l) (li_entries l) (li_size l) [] []) ms name)
    as (a' & s1 & L' & s' & Hroll & Htail & Hrest); try done; [lia | by exists pre, l |].
  exists L', s'; split; [|done].
  unfold open_with_config; fold max; unfold mbind' at 1, mget.
  unfold mbind' at 1; rewrite Hstart; unfold mbind' at 1.
  replace (match info_ledgers info with [] => _ | _ => mret info end s0) with (Ok (E:=ledger_error) info, s0)
    by (rewrite Hls; by destruct pre).
  unfold mbind' at 1, mlift at 1, current_ledger_is_full; rewrite Hls, last_snoc; cbn [fmap option_fmap option_map ok_or].
  unfold roll_if_full in Hroll; cbn [as_entries as_info as_positions as_appends] in Hroll.
  unfold mbind' at 1; destruct (max <=? li_entries l).
  - unfold mbind' in Hroll |- * at 1.
    destruct (allocate_ledger_id s0) as [[id|e] s2]; [|done].
    by injection Hroll as <- <-.
  - by injection Hroll as <- <-.
Qed.

Definition config_limit (config_max : option Z) : Z :=
  Z.max 1 (default DEFAULT_MAX_ENTRIES_PER_LEDGER config_max).

(** An unknown name opens as an empty ledger, with one fresh segment, ... *)
Lemma open_with_config_fresh clock config_max s name n :
  (forall k, i64_range (clock k)) -> next_ledger_id s = Some n -> 0 <= n -> n + 2 <= I64_MAX ->
  db s !! managed_ledger_key name = None ->
  exists L' s1 s', open_with_config clock name config_max s = (Ok L', s') /\
    same_but_allocator s s1 /\
    opened_as s1 s' (n + 1) (managed_info_new n) name (config_limit config_max) 0 L' [].
Proof.
  intros Hclock Hn Hn0 Hb Hnone.
  destruct (allocate_ledger_id_spec s n Hn ltac:(mlia)) as (s1 & Ha & Hn1 & Hsame).
  destruct (open_with_config_start clock config_max s s1 (n + 1) name (managed_info_new n)
              [] (ledger_info_new n) []) as (L' & s' & E & Hop); try done; cbn.
  - rewrite Hnone; unfold mbind'; by rewrite Ha.
  - mlia.
  - split; repeat constructor; cbn; mlia.
  - repeat constructor; unfold i64_range; cbn; mlia.
  - repeat constructor; cbn; lia.
  - by exists L', s1, s'.
Qed.

(** ... a known one with the messages it held. *)
Lemma open_with_config_again clock config_max s name ms n L :
  (forall k, i64_range (clock k)) -> next_ledger_id s = Some n -> 0 <= n -> n + 2 <= I64_MAX ->
  rl_name L = name -> ledger_holds s L ms ->
  Forall (fun l => li_ledger_id l < n) (info_ledgers (rl_info L)) ->
  exists L' s', open_with_config clock name config_max s = (Ok L', s') /\
    opened_as s s' n (rl_info L) name (config_limit config_max) (current_ledger_size L) L' ms.
Proof.
  intros Hclock Hn Hn0 Hb Hname HL Hids.
  pose proof HL as [Hi Hst (pre & l & Hls & _ & _ & ->) _ Hpos Hparts Hstored _ Hdur].
  apply (open_with_config_start clock config_max s s n name (rl_info L) pre l ms); try done; [|lia].
  rewrite <- Hname, Hdur; unfold mlift; by rewrite decode_encode_info.
Qed.

Lemma open_with_config_spec clock config_max s name ms n :
  (forall k, i64_range (clock k)) -> next_ledger_id s = Some n -> 0 <= n -> n + 2 <= I64_MAX ->
  ((db s !! managed_ledger_key name = None /\ ms = []) \/
   exists L, rl_name L = name /\ ledger_holds s L ms /\
     Forall (fun l => li_ledger_id l < n) (info_ledgers (rl_info L))) ->
  exists L' s', open_with_config clock name config_max s = (Ok L', s') /\
    ledger_holds s' L' ms /\ rl_name L' = name /\
    max_entries_per_ledger L' = config_limit config_max /\
    log s' = log s /\ fs s' = fs s.
Proof.
  intros Hclock Hn Hn0 Hb [[Hnone ->]|(L & Hname & HL & Hids)].
  - destruct (open_with_config_fresh clock config_max s name n Hclock Hn Hn0 Hb Hnone)
      as (L' & s1 & s' & E & (_ & <- & <-) & []); by exists L', s'.
  - destruct (open_with_config_again clock config_max s name ms n L Hclock Hn Hn0 Hb Hname HL Hids)
      as (L' & s' & E & []); by exists L', s'.
Qed.
End invariant.

(** ** Properties *)

(** C12: Appending to a ledger appends to its log, whatever the file system and the
    database do, torn writes and failed opens included: either the new messages are
    stored at fresh positions after all the others, published and durable, with
    segments rolled over on the way; or the append fails and the ledger holds what it
    held, with no key of the database changed but the allocator's.  It fails only when
    the log or the database does, and a write that fails as a whole leaves the log fit
    for the next one. *)
Theorem ledger_append_refines {bytes : Type} `{DbCodec bytes, !DbCodecLaws bytes}
    (clock : Z -> Z) (io : bool * write_outcome) (db_ok : bool) (s : Storage bytes)
    (n : Z) (L : RocksDBManagedLedger) (ms : list StoredMessage)
    (items : list (Z * list Z * list Z)) :
  ledger_holds s L ms -> storage_wf s -> append_room clock s L items -> next_ledger_id s = Some n ->
  let out := add_entries clock io db_ok L items s in
  (is_ok out.1 \/ io_clean io -> append_outcome s n L ms items out) /\
  (~ is_ok out.1 -> ledger_holds out.2 L ms /\ fs_extends (fs s) (fs out.2) /\
     forall k, k <> ledger_id_allocator_key -> db out.2 !! k = db s !! k) /\
  (io = (true, WriteOk) -> db_ok = true -> is_ok out.1).
Proof.
  intros HL Hwf Hroom Hn out.
  assert (forall io, io_clean io -> append_outcome s n L ms items (add_entries clock io db_ok L items s) /\
    (io.2 = WriteOk -> db_ok = true -> is_ok (add_entries clock io db_ok L items s).1)) as Hclean.
  { intros io' Hio; by apply add_entries_spec. }
  destruct (Hclean (true, WriteOk)) as [Hout Hok]; [by split; [|left] |].
  destruct (add_entries_any clock io db_ok s n L ms items HL Hwf Hroom Hn) as [E|(e & s' & E & Hfail)].
  - unfold out; rewrite E; split_and!; [done | | by intros _; apply Hok].
    destruct (add_entries _ (true, WriteOk) _ _ _ _) as [[x|e] s']; [intros Hno; destruct Hno; by exists x |].
    intros _; destruct Hout as (_ & Hext & _ & _ & _ & Hh & Hdb); done.
  - split_and!; [|by unfold out; rewrite E | intros ->; by apply Hok].
    unfold out; intros [[x Hx]|Hio]; [by rewrite E in Hx | by apply Hclean].
Qed.

(** C28: A read from a position of an existing segment returns the messages at
    or after it in order, up to the limit, and changes nothing; the position
    need not hold an entry. *)
Theorem ledger_read_window {bytes : Type} `{DbCodec bytes, !DbCodecLaws bytes}
    (s : Storage bytes) (L : RocksDBManagedLedger) (ms : list StoredMessage)
    (from : ManagedLedgerPosition) (limit : nat) :
  ledger_holds s L ms -> u64_ok (entry_id from) -> entry_id from < U64_MAX ->
  (exists l, l ∈ info_ledgers (rl_info L) /\ li_ledger_id l = ledger_id from) ->
  (forall m, last ms = Some m -> partition from <= msg_partition (message_id m)) ->
  read_entries_from L from limit s =
  (Ok (take limit (filter (fun m => cursor_key_rank from <= msg_rank m) ms)), s).
Proof. apply read_entries_from_spec. Qed.

(** C20: Recovery: opening a ledger from what an earlier instance made durable
    yields a ledger that holds exactly the same messages, whatever the new
    configured segment size; opening an unknown name yields an empty ledger. *)
Theorem ledger_recovery {bytes : Type} `{DbCodec bytes, !DbCodecLaws bytes}
    (clock : Z -> Z) (config_max : option Z) (s : Storage bytes) (name : string)
    (ms : list StoredMessage) (n : Z) :
  (forall k, i64_range (clock k)) -> next_ledger_id s = Some n -> 0 <= n -> n + 2 <= I64_MAX ->
  ((db s !! managed_ledger_key name = None /\ ms = []) \/
   exists L, rl_name L = name /\ ledger_holds s L ms /\
     Forall (fun l => li_ledger_id l < n) (info_ledgers (rl_info L))) ->
  exists L' s', open_with_config clock name config_max s = (Ok L', s') /\
    ledger_holds s' L' ms /\ rl_name L' = name /\
    max_entries_per_ledger L' = config_limit config_max /\
    log s' = log s /\ fs s' = fs s.
Proof. apply open_with_config_spec. Qed.

(** *** Instances at a concrete format *)

Inductive plain :=
| PCursor (m : ManagedCursorInfo)
| PLedger (m : ManagedLedgerInfoProto)
| PLocation (l : StoredEntryLocation)
| PU64 (n : Z).

#[global] Instance plain_codec : DbCodec plain := {|
  enc_cursor_info := PCursor;
  dec_cursor_info b := match b with PCursor m => Some m | _ => None end;
  enc_ledger_info := PLedger;
  dec_ledger_info b := match b with PLedger m => Some m | _ => None end;
  enc_location := PLocation;
  dec_location b := match b with PLocation l => Some l | _ => None end;
  enc_u64 := PU64;
  dec_u64 b := match b with PU64 n => Some n | _ => None end;
|}.

#[global] Instance plain_codec_laws : DbCodecLaws plain.
Proof. by split. Qed.

Definition empty_storage : Storage plain := mkStorage ∅ example_state example_files.
Definition example_items : list (Z * list Z * list Z) :=
  [(-1, [1], [2; 3]); (-1, [], [4]); (-1, [5], [6])].

(** The ledger opened on an empty database, with two entries per segment. *)
Definition opened : result ledger_error RocksDBManagedLedger * Storage plain :=
  open_with_config (fun _ => 0) "t" (Some 2) empty_storage.
Definition opened_ledger : RocksDBManagedLedger :=
  match opened.1 with Ok L => L | Err _ => mkLedger "" 1 (mkInfo []) None 0 0 0 end.

Lemma opened_holds : opened = (Ok opened_ledger, opened.2) /\ ledger_holds opened.2 opened_ledger [].
Proof.
  destruct (open_with_config_spec (fun _ => 0) (Some 2) empty_storage "t" [] 0)
    as (L' & s' & E & HL & _ & Hm & _); try done; [by left |].
  unfold opened_ledger, opened; rewrite E; cbn; done.
Qed.

Lemma opened_room : append_room (fun _ => 0) opened.2 opened_ledger example_items.
Proof.
  split; [vm_compute; split; congruence | | done | vm_compute; congruence |].
  - exists 1; split_and!; [vm_compute; reflexivity | lia | vm_compute; congruence |].
    assert (info_ledgers (rl_info opened_ledger) = [ledger_info_new 0]) as -> by reflexivity.
    repeat constructor.
  - repeat constructor; cbn; mlia.
Qed.

Lemma opened_wf : storage_wf opened.2.
Proof.
  assert (log opened.2 = example_state /\ fs opened.2 = example_files) as [E1 E2] by done.
  unfold storage_wf; rewrite E1, E2; apply example_log_wf.
Qed.

Lemma ledger_append_refines_witness :
  exists ps L' s', add_entries (fun _ => 0) (true, WriteOk) true opened_ledger example_items opened.2
                   = (Ok (ps, L'), s') /\
    append_outcome opened.2 1 opened_ledger [] example_items (Ok (ps, L'), s').
Proof.
  destruct (ledger_append_refines (fun _ => 0) (true, WriteOk) true opened.2 1 opened_ledger []
              example_items (proj2 opened_holds) opened_wf opened_room eq_refl) as (Hout & _ & Hok).
  specialize (Hok eq_refl eq_refl); specialize (Hout (or_introl Hok)).
  destruct (add_entries _ _ _ _ _ _) as [[[ps L']|e] s']; [by exists ps, L', s' |].
  by destruct Hok.
Defined.

(** The ledger after an append that rolls over into a second segment. *)
Definition appended := add_entries (fun _ => 0) (true, WriteOk) true opened_ledger example_items opened.2.
Definition appended_ledger : RocksDBManagedLedger :=
  match appended.1 with Ok (_, L) => L | Err _ => opened_ledger end.

Lemma appended_holds :
  exists new, msg_item <$> new = example_items /\ ledger_holds appended.2 appended_ledger new /\
    storage_wf appended.2.
Proof.
  destruct (add_entries_spec (fun _ => 0) (true, WriteOk) true opened.2 1 opened_ledger []
              example_items (proj2 opened_holds) opened_wf
              (conj eq_refl (or_introl eq_refl)) opened_room eq_refl) as [Hout Hok].
  specialize (Hok eq_refl eq_refl); fold appended in Hout, Hok; unfold appended_ledger.
  destruct appended as [[[ps L']|e] s']; [|by destruct Hok].
  destruct Hout as (? & _ & n' & _ & _ & new & ? & _ & ? & _); by exists new.
Qed.

(** Three messages in two segments are recovered by opening the ledger again. *)
Lemma ledger_recovery_witness :
  exists new L' s', msg_item <$> new = example_items /\ length (info_ledgers (rl_info appended_ledger)) = 2%nat /\
    open_with_config (fun _ => 0) "t" (Some 5) appended.2 = (Ok L', s') /\
    ledger_holds s' L' new /\ max_entries_per_ledger L' = 5.
Proof.
  destruct appended_holds as (new & Hnew & HL & _).
  destruct (ledger_recovery (fun _ => 0) (Some 5) appended.2 "t" new 2)
    as (L' & s' & E & HL' & _ & Hm & _).
  - intros k; vm_compute; split; congruence.
  - vm_compute; reflexivity.
  - lia.
  - vm_compute; congruence.
  - right; exists appended_ledger; split_and!; [vm_compute; reflexivity | exact HL |].
    apply (bool_decide_unpack (Forall (fun l => li_ledger_id l < 2) _)); vm_compute; done.
  - exists new, L', s'; split_and!; [exact Hnew | vm_compute; reflexivity | exact E | exact HL' | exact Hm].
Defined.

Lemma ledger_read_window_witness :
  exists new, msg_item <$> new = example_items /\
  read_entries_from appended_ledger (mkPos 0 1 (-1)) 1 appended.2 =
  (Ok (take 1 (filter (fun m => cursor_key_rank (mkPos 0 1 (-1)) <= msg_rank m) new)), appended.2).
Proof.
  destruct appended_holds as (new & Hnew & HL & _); exists new; split; [done |].
  apply (ledger_read_window appended.2 appended_ledger new (mkPos 0 1 (-1)) 1 HL); [done | done | |].
  - exists (mkLedgerInfo 0 2 4 0 false None); split; [|done].
    assert (head (info_ledgers (rl_info appended_ledger)) = Some (mkLedgerInfo 0 2 4 0 false None))
      as Hh by (vm_compute; reflexivity).
    destruct (info_ledgers (rl_info appended_ledger)); [done |]; injection Hh as ->; by left.
  - intros m Hm; apply last_Some_elem_of in Hm.
    assert (msg_item m ∈ example_items) as Hin by (rewrite <- Hnew; by apply list_elem_of_fmap_2).
    unfold msg_item in Hin; cbn; revert Hin; unfold example_items.
    rewrite !elem_of_cons, elem_of_nil; intros [E|[E|[E|[]]]]; injection E as -> _ _; lia.
Defined.
