(* ===== verification/RocksStore.v ===== *)
(** * The RocksDB store

    [storage/managed-ledger-rocksdb/src/store.rs] and [factory.rs]: the storage
    trait over the shared ledgers.  Ledgers are opened once and cached; cursors
    live in the database and are read, changed and written back under the cursor
    lock, so that one operation is one step.  The lock is never poisoned, since
    no operation panics while holding it. *)

From S2P Require Import Prelude Position BTree RangeSet LedgerInfo MetadataCodec.
From S2P Require Import CursorRead Bytes Text EntryLog Keys RocksLedger.

Local Open Scope storage_scope.

Record Rocks (bytes : Type) := mkRocks {
  storage : Storage bytes;
  ledgers : gmap string RocksDBManagedLedger;
}.
Arguments mkRocks {_} _ _.
Arguments storage {_} _.
Arguments ledgers {_} _.

Section store.
Context {bytes : Type} `{DbCodec bytes}.
Context (clock : Z -> Z).
Local Abbreviation M := (storage_op bytes).

(** ** Cursors in the database *)

Definition cursor_open (ledger_name cursor_name : string) : M ManagedCursorState :=
  let! stored := mget (managed_cursor_key ledger_name cursor_name) in
  match stored with
  | Some b => mlift (ok_value (decode_cursor dec_cursor_info b)) Undecodable
  | None => mret default_cursor_state
  end.

Definition persist_state (ledger_name cursor_name : string) (s : ManagedCursorState) : M unit :=
  mput (managed_cursor_key ledger_name cursor_name) (encode_cursor enc_cursor_info s).

Definition cursor_state_exists (ledger_name cursor_name : string) : M bool :=
  let! stored := mget (managed_cursor_key ledger_name cursor_name) in
  mret (bool_decide (is_Some stored)).

Definition delete_cursor_state (ledger_name cursor_name : string) : M unit :=
  mdelete (managed_cursor_key ledger_name cursor_name).

(** ** The ledger cache *)

Definition store_op (A : Type) : Type := Rocks bytes -> result ledger_error A * Rocks bytes.

Definition open_ledger (name : string) : store_op RocksDBManagedLedger := fun w =>
  match ledgers w !! name with
  | Some L => (Ok L, w)
  | None =>
      match open_with_config clock name None (storage w) with
      | (Ok L, s) => (Ok L, mkRocks s (<[name := L]> (ledgers w)))
      | (Err e, s) => (Err e, mkRocks s (ledgers w))
      end
  end.

Definition on_storage {A} (m : M A) : store_op A := fun w =>
  let '(r, s) := m (storage w) in (r, mkRocks s (ledgers w)).

Definition topic_ledger (topic : string) : store_op RocksDBManagedLedger :=
  open_ledger (managed_ledger_name topic).

(** Run an operation on the ledger of a topic. *)
Definition on_ledger {A} (topic : string) (k : RocksDBManagedLedger -> M A) : store_op A := fun w =>
  match topic_ledger topic w with
  | (Ok L, w) => on_storage (k L) w
  | (Err e, w) => (Err e, w)
  end.

(** Read the cursor of a subscription, change it and write it back. *)
Definition with_cursor {A} (topic subscription : string)
    (k : RocksDBManagedLedger -> ManagedCursorState -> M A) : store_op A :=
  on_ledger topic (fun L =>
    let! state := cursor_open (rl_name L) (encode_cursor_name subscription) in k L state).

Definition persist (L : RocksDBManagedLedger) (subscription : string) (s : ManagedCursorState)
  : M unit :=
  persist_state (rl_name L) (encode_cursor_name subscription) s.

(** ** The storage trait *)

Definition cursor_exists (topic subscription : string) : store_op bool :=
  on_storage (cursor_state_exists (managed_ledger_name topic) (encode_cursor_name subscription)).

Definition persist_empty_cursor (topic subscription : string) : store_op unit :=
  with_cursor topic subscription (fun L state => persist L subscription state).

Definition apply_latest_cursor (topic subscription : string) : store_op unit :=
  with_cursor topic subscription (fun L state =>
    match lac L with
    | Some last => persist L subscription (cursor_mark_delete state last)
    | None => persist L subscription state
    end).

Definition apply_start_message_id_cursor (topic subscription : string) (start : MessageId)
  : store_op unit :=
  with_cursor topic subscription (fun L state =>
    match previous_position L (position_of_message_id start) with
    | Some previous => persist L subscription (cursor_mark_delete state previous)
    | None => persist L subscription state
    end).

Definition create_topic (name : string) : store_op unit := fun w =>
  match topic_ledger name w with
  | (Ok _, w) => (Ok tt, w)
  | (Err e, w) => (Err e, w)
  end.

(** The search for the first unacknowledged entry. *)
Fixpoint first_unacked_loop (fuel : nat) (i : StoredManagedLedgerInfo)
    (lac : ManagedLedgerPosition) (state : ManagedCursorState)
    (candidate : option ManagedLedgerPosition) : option ManagedLedgerPosition :=
  match fuel, candidate with
  | S fuel, Some p =>
      if key_ltb lac p then None
      else if negb (is_managed_position_acknowledged state p) then Some p
      else first_unacked_loop fuel i lac state (next_position p i)
  | _, _ => None
  end.

Definition ledger_first_unacked (L : RocksDBManagedLedger) (lac : ManagedLedgerPosition) (state : ManagedCursorState)
  : option ManagedLedgerPosition :=
  let i := rl_info L in
  first_unacked_loop (S (Z.to_nat (total_entries i))) i lac state
    (match cs_mark_delete state with
     | Some mark => next_position mark i
     | None => first_position i (-1)
     end).

(** The cursor is not opened while the ledger is empty. *)
Definition first_unacked_position (topic subscription : string)
  : store_op (option ManagedLedgerPosition) :=
  on_ledger topic (fun L =>
    match lac L with
    | None => mret None
    | Some last =>
        let! state := cursor_open (rl_name L) (encode_cursor_name subscription) in
        mret (ledger_first_unacked L last state)
    end).

Definition sbind {A B} (m : store_op A) (k : A -> store_op B) : store_op B := fun w =>
  match m w with
  | (Ok a, w) => k a w
  | (Err e, w) => (Err e, w)
  end.

Definition initialize_or_open_cursor (topic subscription : string) (options : CursorInitOptions)
  : store_op CursorOpenResult :=
  sbind (cursor_exists topic subscription) (fun exists_ =>
  sbind (if exists_ : bool then (fun w => (Ok tt, w))
         else match start_message_id options with
              | Some start_id => apply_start_message_id_cursor topic subscription start_id
              | None =>
                  if decide (initial_position options = Latest)
                  then apply_latest_cursor topic subscription
                  else persist_empty_cursor topic subscription
              end) (fun _ =>
  sbind (first_unacked_position topic subscription) (fun first =>
  fun w => (Ok (mkCursorOpen (negb exists_) first), w)))).

Definition delete_cursor (topic subscription : string) : store_op unit :=
  on_storage (delete_cursor_state (managed_ledger_name topic) (encode_cursor_name subscription)).

Definition seek_cursor (topic subscription : string) (m : MessageId) : store_op unit :=
  with_cursor topic subscription (fun L state =>
    persist L subscription
      (reset_cursor state (previous_position L (position_of_message_id m)))).

Definition store_read_entries_from (topic : string) (from : ManagedLedgerPosition) (limit : nat)
  : store_op (list StoredMessage) :=
  on_ledger topic (fun L => read_entries_from L from limit).

Definition store_read_from (topic : string) (from : ManagedLedgerPosition) (limit : nat)
  : store_op (list (MessageId * list Z)) :=
  on_ledger topic (fun L =>
    let! es := read_entries_from L from limit in
    mret ((fun e => (message_id e, payload e)) <$> es)).

Definition get_last_position (topic : string) : store_op (option ManagedLedgerPosition) :=
  on_ledger topic (fun L => mret (lac L)).

Definition get_next_position (topic : string) (current : ManagedLedgerPosition)
  : store_op (option ManagedLedgerPosition) :=
  on_ledger topic (fun L => mret (next_position current (rl_info L))).

Definition ack_message (topic subscription : string) (m : MessageId) : store_op unit :=
  with_cursor topic subscription (fun L state =>
    persist L subscription (cursor_mark_delete state (position_of_message_id m))).

(** The shared acknowledgement writes the cursor after each change, so the last
    write is the final state; an acknowledged position changes nothing. *)
Definition ack_message_shared (topic subscription : string) (m : MessageId) : store_op unit :=
  with_cursor topic subscription (fun L state =>
    let p := position_of_message_id m in
    let state' := ack_managed_cursor_shared state p (rl_info L) in
    if is_managed_position_acknowledged state p then mret tt
    else persist L subscription state').

Definition store_get_message_entry_by_id (topic : string) (m : MessageId) (w : Rocks bytes)
  : option StoredMessage :=
  match topic_ledger topic w with
  | (Ok L, w) => get_message_entry_by_id L m (storage w)
  | (Err _, _) => None
  end.

Definition store_get_message_by_id (topic : string) (m : MessageId) (w : Rocks bytes)
  : option (MessageId * list Z) :=
  (fun e => (message_id e, payload e)) <$> store_get_message_entry_by_id topic m w.

Definition get_message_entries (topic : string) (w : Rocks bytes) : list StoredMessage :=
  match on_ledger topic message_entries w with
  | (Ok es, _) => es
  | (Err _, _) => []
  end.

Definition is_acknowledged_shared (topic subscription : string) (m : MessageId) (w : Rocks bytes)
  : bool :=
  match with_cursor topic subscription (fun _ state =>
          mret (is_managed_position_acknowledged state (position_of_message_id m))) w with
  | (Ok b, _) => b
  | (Err _, _) => false
  end.

Definition get_mark_delete_position (topic subscription : string) (w : Rocks bytes) : option Z :=
  match with_cursor topic subscription (fun _ state =>
          mret (entry_id <$> cs_mark_delete state)) w with
  | (Ok r, _) => r
  | (Err _, _) => None
  end.

(** [u64] sums of entry counts, taken not to overflow. *)
Definition backlog (i : StoredManagedLedgerInfo) (state : ManagedCursorState) : Z :=
  let total := total_entries i in
  match cs_mark_delete state with
  | None => total
  | Some mark =>
      let retired := total_entries
        (mkInfo (filter (fun l => li_ledger_id l < ledger_id mark) (info_ledgers i))) in
      let holes := foldr (fun x n => sat_sub (entry_id x.2) (entry_id x.1) + 1 + n) 0
                     (individually_deleted_entries state) in
      sat_sub total (retired + entry_id mark + 1 + holes)
  end.

Definition backlog_entries (topic subscription : string) (w : Rocks bytes) : option Z :=
  ok_value (with_cursor topic subscription (fun L state => mret (backlog (rl_info L) state)) w).1.

Definition stored_bytes (topic : string) (w : Rocks bytes) : Z :=
  match topic_ledger topic w with
  | (Ok L, _) => foldr (fun l n => li_size l + n) 0 (info_ledgers (rl_info L))
  | (Err _, _) => 0
  end.
End store.

Section proofs.
Context {bytes : Type} `{DbCodec bytes, !DbCodecLaws bytes}.

(** ** The first unacknowledged message *)

Definition unacked (state : ManagedCursorState) (m : StoredMessage) : bool :=
  negb (is_managed_position_acknowledged state (msg_position m)).

Definition cursor_pos (m : StoredMessage) : ManagedLedgerPosition :=
  cursor_position (msg_position m).

Lemma find_filter {A} (P : A -> Prop) `{forall x, Decision (P x)} (f : A -> bool) (l : list A) :
  (forall x, x ∈ l -> ~ P x -> f x = false) -> List.find f l = List.find f (filter P l).
Proof.
  induction l as [|x l IH]; intros HP; [done |]; rewrite filter_cons; cbn [List.find].
  rewrite IH by (intros y Hy; apply HP; by right).
  destruct (decide (P x)) as [Hx|Hx]; [done |]; by rewrite (HP x ltac:(by left) Hx).
Qed.

Lemma cursor_position_pair p m :
  partition p = -1 -> msg_pair m = (ledger_id p, entry_id p) -> cursor_pos m = p.
Proof.
  destruct p as [l e q]; cbn; intros -> [= <- <-]; done.
Qed.

Lemma first_unacked_loop_spec s L ms m fuel state p :
  ledger_holds s L ms -> last ms = Some m -> -1 <= msg_partition (message_id m) ->
  visible (rl_info L) p -> partition p = -1 -> (length (messages_after p ms) < fuel)%nat ->
  first_unacked_loop fuel (rl_info L) (position_of_message_id (message_id m)) state (Some p)
  = cursor_pos <$> List.find (unacked state) (messages_from p ms).
Proof.
  intros HL Hl Hpm; pose proof (lh_sorted _ _ _ HL) as Hs.
  apply last_Some_elem_of in Hl as Hm; destruct (lh_msg_ok _ _ _ _ HL Hm) as (_ & _ & Hme).
  revert p; induction fuel as [|fuel IH]; intros p Hv Hp Hfuel; [lia |].
  destruct (visible_ok _ _ (lh_info _ _ _ HL) Hv) as [Hpl Hpe].
  pose proof (visible_below_max _ _ (lh_info _ _ _ HL) Hv).
  destruct (proj1 (lh_visible _ _ _ p HL) Hv) as (x & Hx & Hpair).
  pose proof (cursor_position_pair p x Hp Hpair) as Hcp.
  cbn [first_unacked_loop]; rewrite lac_ltb by (done || lia).
  assert (msg_rank x = cursor_key_rank p) as Hr by (unfold msg_rank; by rewrite Hpair).
  pose proof (last_max _ _ _ Hs Hl Hx); replace (msg_rank m <? _) with false by lia.
  rewrite (messages_from_visible p ms x) by done; cbn [List.find]; unfold unacked at 1.
  assert (is_managed_position_acknowledged state (msg_position x)
          = is_managed_position_acknowledged state p) as -> by by rewrite <- Hcp.
  destruct (is_managed_position_acknowledged state p); cbn [negb fmap option_fmap option_map];
    [|by rewrite Hcp].
  pose proof (next_position_messages _ _ _ p HL Hpe ltac:(done)) as Hn.
  destruct (next_position p (rl_info L)) as [q|].
  - destruct Hn as (E & Hvq & Hpq); [destruct Hv as (l & ? & ? & _); eauto |].
    rewrite E in *; destruct (proj1 (lh_visible _ _ _ q HL) Hvq) as (y & Hy & Hpy).
    apply IH; [done | congruence |].
    rewrite (messages_from_visible q ms y) in Hfuel by (done || unfold msg_rank; by rewrite Hpy).
    cbn in Hfuel; lia.
  - rewrite Hn by (destruct Hv as (l & ? & ? & _); eauto); by destruct fuel.
Qed.

(** The frontier lies in a segment of the ledger. *)
Definition mark_ok (L : RocksDBManagedLedger) (state : ManagedCursorState) : Prop :=
  forall mark, cs_mark_delete state = Some mark ->
    partition mark = -1 /\ u64_ok (entry_id mark) /\ entry_id mark < U64_MAX /\
    exists l, l ∈ info_ledgers (rl_info L) /\ li_ledger_id l = ledger_id mark.

Lemma key_leb_cursor p q :
  u64_ok (entry_id p) -> u64_ok (entry_id q) -> partition p = -1 -> partition q = -1 ->
  key_leb p q = (cursor_key_rank p <=? cursor_key_rank q).
Proof.
  destruct p as [l e x], q as [l' e' x']; cbn; intros ? ? -> ->.
  unfold key_leb, key_cmp, position_cmp_inst, position_cmp, cursor_key_rank; cbn.
  destruct (Z.compare_spec l l') as [->|?|?];
    [destruct (Z.compare_spec e e') as [->|?|?]| |];
    symmetry; first [apply Z.leb_le | apply Z.leb_gt]; mlia.
Qed.

Lemma ledger_first_unacked_spec s L ms state :
  ledger_holds s L ms -> (forall m, m ∈ ms -> -1 <= msg_partition (message_id m)) ->
  mark_ok L state ->
  (lac L ≫= fun lac => ledger_first_unacked L lac state) = cursor_pos <$> List.find (unacked state) ms.
Proof.
  intros HL Hparts Hmark; rewrite (lh_lac _ _ _ HL).
  destruct (last ms) as [m|] eqn:Hl; cbn [fmap option_fmap option_map mbind option_bind];
    [|by apply last_None in Hl as ->].
  apply last_Some_elem_of in Hl as Hm; unfold ledger_first_unacked.
  pose proof (length_all_positions _ (lh_info _ _ _ HL)) as Hlen.
  rewrite <- (lh_positions _ _ _ HL), length_fmap in Hlen.
  assert (forall p, length (messages_after p ms) < S (Z.to_nat (total_entries (rl_info L))))%nat as Hfuel.
  { intros p; pose proof (length_filter (fun x => cursor_key_rank p < msg_rank x) ms).
    unfold messages_after; lia. }
  destruct (cs_mark_delete state) as [mark|] eqn:Em.
  - destruct (Hmark mark Em) as (Hp & Hu & Hmax & Hled).
    pose proof (next_position_messages _ _ _ mark HL Hu Hmax Hled) as Hn.
    rewrite (find_filter (fun x => cursor_key_rank mark < msg_rank x)).
    + fold (messages_after mark ms); destruct (next_position mark (rl_info L)) as [q|].
      * destruct Hn as (-> & Hvq & Hpq); apply (first_unacked_loop_spec s); auto; congruence.
      * by rewrite Hn.
    + intros x Hx Hle; unfold unacked, is_managed_position_acknowledged; rewrite Em.
      destruct (lh_msg_ok _ _ _ _ HL Hx) as (_ & _ & He).
      rewrite key_leb_cursor by (done || cbn; done).
      unfold msg_rank, pair_rank in Hle; unfold cursor_key_rank in *; cbn in *.
      replace (_ <=? _) with true by lia; done.
  - pose proof (first_position_spec (rl_info L) (-1) (lh_info _ _ _ HL)) as Hf.
    destruct (first_position (rl_info L) (-1)) as [p|].
    + destruct Hf as (Hv & Hp & Hleast).
      rewrite (first_unacked_loop_spec s L ms m) by auto.
      unfold messages_from; rewrite list_filter_id; [done |].
      intros x Hx; destruct (lh_msg_ok _ _ _ _ HL Hx) as (Hvx & _); by apply (Hleast _ Hvx).
    + destruct (lh_msg_ok _ _ _ _ HL Hm) as (Hvm & _); by destruct (Hf _ Hvm).
Qed.

(** ** The position before a message *)

(** The fold of [previous_position] finds the largest earlier segment with
    entries. *)
Lemma previous_fold_spec (P : StoredLedgerInfo -> bool) ls acc :
  StronglySorted (fun a b => li_ledger_id a < li_ledger_id b) ls ->
  (forall a l, acc = Some a -> l ∈ ls -> li_ledger_id a < li_ledger_id l) ->
  match foldl (fun acc l =>
           if P l
           then match acc with
                | Some m => if li_ledger_id m <=? li_ledger_id l then Some l else acc
                | None => Some l
                end
           else acc) acc ls with
  | Some r => (acc = Some r \/ (r ∈ ls /\ P r = true)) /\
              forall l, l ∈ ls -> P l = true -> li_ledger_id l <= li_ledger_id r
  | None => acc = None /\ forall l, l ∈ ls -> P l = false
  end.
Proof.
  revert acc; induction ls as [|x ls IH]; intros acc Hs Hacc; cbn [foldl].
  { destruct acc; [split; [by left |] | split; [done |]]; intros l Hl; by apply elem_of_nil in Hl. }
  apply StronglySorted_inv in Hs as [Hs Hx]; rewrite Forall_forall in Hx.
  destruct (P x) eqn:Ex.
  - set (acc' := match acc with Some _ => _ | None => _ end).
    assert (acc' = Some x) as Eacc.
    { unfold acc'; destruct acc as [a|]; [|done].
      specialize (Hacc a x eq_refl ltac:(by left)); by replace (_ <=? _) with true by lia. }
    rewrite Eacc; specialize (IH (Some x) Hs).
    destruct (foldl _ (Some x) ls) as [r|]; [|by destruct IH as [? _]; [intros a l [= <-]; apply Hx |]].
    destruct IH as [Hr Hmax]; [intros a l [= <-]; apply Hx |].
    split; [right; destruct Hr as [[= <-]|[? ?]]; (split; [|done]); [by left | by right] |].
    intros l [->|Hl]%elem_of_cons HPl; [|by apply Hmax].
    destruct Hr as [[= <-]|[Hr _]]; [lia | specialize (Hx r Hr); lia].
  - specialize (IH acc Hs ltac:(intros a l ? ?; apply Hacc; [done | by right])).
    destruct (foldl _ acc ls) as [r|].
    + destruct IH as [Hr Hmax]; split; [destruct Hr as [?|[? ?]]; [by left | right; split; [by right | done]] |].
      intros l [->|Hl]%elem_of_cons HPl; [congruence | by apply Hmax].
    + destruct IH as [? Hall]; split; [done |]; intros l [->|Hl]%elem_of_cons; auto.
Qed.

Lemma previous_position_spec s L ms p :
  ledger_holds s L ms -> visible (rl_info L) p ->
  match previous_position L p with
  | Some q => messages_after q ms = messages_from p ms /\ visible (rl_info L) q
  | None => messages_from p ms = ms
  end.
Proof.
  intros HL Hv; pose proof (lh_info _ _ _ HL) as [Hs Hok]; rewrite Forall_forall in Hok.
  destruct (visible_ok _ _ (lh_info _ _ _ HL) Hv) as [Hpl Hpe].
  unfold previous_position; destruct (Z.ltb_spec 0 (entry_id p)) as [Hpos|Hzero].
  - split.
    + apply list_filter_ext; intros x _; generalize (msg_rank x); intros r.
      unfold cursor_key_rank; cbn; lia.
    + destruct Hv as (l & Hl & Hid & He); exists l; split_and!; cbn; auto; lia.
  - pose proof (previous_fold_spec (fun l => (li_ledger_id l <? ledger_id p) && (0 <? li_entries l))
                  _ None Hs ltac:(done)) as Hf; cbn beta in Hf.
    destruct (foldl _ None _) as [r|]; cbn [fmap option_fmap option_map].
    + destruct Hf as [[?|[Hr HPr]] Hmax]; [done |].
      pose proof (Hok r Hr); split; [|exists r; split_and!; cbn; auto; lia].
      apply list_filter_ext; intros x Hx.
      destruct (lh_msg_ok _ _ _ _ HL Hx) as ((lx & Hlx & Hidx & Hex) & Hxl & Hxe); cbn in Hidx, Hex.
      pose proof (Hok lx Hlx); unfold msg_rank, pair_rank, msg_pair, cursor_key_rank; cbn.
      split; [|mlia]; intros Hlt.
      destruct (Z.ltb_spec (li_ledger_id lx) (ledger_id p)) as [Hb|]; [|mlia].
      assert (li_ledger_id lx <= li_ledger_id r) by (apply Hmax; [done |]; lia).
      destruct (decide (li_ledger_id lx = li_ledger_id r)) as [E|]; [|mlia].
      apply (info_ledger_inj (rl_info L)) in E; [subst; mlia | apply HL | done | done].
    + destruct Hf as [_ Hall]; apply list_filter_id; intros x Hx.
      destruct (lh_msg_ok _ _ _ _ HL Hx) as ((lx & Hlx & Hidx & Hex) & Hxl & Hxe); cbn in Hidx, Hex.
      specialize (Hall lx Hlx); cbn in Hall.
      unfold msg_rank, pair_rank, msg_pair, cursor_key_rank; cbn; mlia.
Qed.

(** ** Operations on an open topic *)

Record topic_holds (w : Rocks bytes) (topic : string) (L : RocksDBManagedLedger)
    (ms : list StoredMessage) : Prop := {
  th_cached : ledgers w !! managed_ledger_name topic = Some L;
  th_name : rl_name L = managed_ledger_name topic;
  th_ledger : ledger_holds (storage w) L ms;
  th_partitions : forall m, m ∈ ms -> -1 <= msg_partition (message_id m);
}.

Definition cursor_stored (w : Rocks bytes) (topic subscription : string)
    (state : ManagedCursorState) : Prop :=
  cursor_open (managed_ledger_name topic) (encode_cursor_name subscription) (storage w)
  = (Ok state, storage w).

Context (clock : Z -> Z).

Lemma with_cursor_spec {A} w topic subscription L ms state (k : _ -> _ -> storage_op bytes A) :
  topic_holds w topic L ms -> cursor_stored w topic subscription state ->
  with_cursor clock topic subscription k w
  = let '(r, s) := k L state (storage w) in (r, mkRocks s (ledgers w)).
Proof.
  intros [Hc Hn _ _] Hs; unfold with_cursor, on_ledger, topic_ledger, open_ledger.
  rewrite Hc; unfold on_storage, mbind'; rewrite Hn; unfold cursor_stored in Hs; by rewrite Hs.
Qed.

Lemma cursor_roundtrip state :
  cursor_storable state ->
  ok_value (decode_cursor dec_cursor_info (encode_cursor enc_cursor_info state)) = Some state.
Proof.
  intros Hs; unfold decode_cursor, encode_cursor; rewrite cursor_info_roundtrip; cbn [ok_or result_bind].
  by rewrite cursor_proto_roundtrip.
Qed.

Lemma cursor_key_not_ledger_key name c : managed_cursor_key name c <> managed_ledger_key name.
Proof.
  unfold managed_cursor_key, managed_ledger_key; intros E%append_inj_l.
  apply (f_equal String.length) in E; rewrite !string_length_app in E; cbn in E; lia.
Qed.

(** Writing the cursor keeps the topic's messages and stores the new state. *)
Lemma persist_spec w topic subscription L ms state :
  topic_holds w topic L ms -> cursor_storable state ->
  exists s', persist L subscription state (storage w) = (Ok tt, s') /\
    topic_holds (mkRocks s' (ledgers w)) topic L ms /\
    cursor_stored (mkRocks s' (ledgers w)) topic subscription state.
Proof.
  intros [Hc Hn HL Hp] Hst; eexists; split; [reflexivity |]; split.
  - split; [done | done | | done]; cbn [storage].
    apply (ledger_holds_mono (storage w)); [| | done | done]; cbn [db].
    + rewrite lookup_insert_ne; [done |]; apply cursor_key_not_ledger_key.
    + intros m _; by rewrite lookup_insert_ne.
  - unfold cursor_stored, cursor_open, mbind', mget, mlift; cbn [storage db]; rewrite Hn.
    by rewrite lookup_insert_eq, cursor_roundtrip.
Qed.

Lemma visible_storable L p :
  Forall ledger_storable (info_ledgers (rl_info L)) -> visible (rl_info L) p ->
  position_storable (cursor_position p).
Proof.
  rewrite Forall_forall; intros Hst (l & Hl & Hid & He).
  destruct (Hst l Hl) as (? & ? & _); unfold position_storable, i64_range in *; cbn.
  rewrite <- Hid; split_and!; first [done | lia].
Qed.

Lemma mark_only_storable L p :
  Forall ledger_storable (info_ledgers (rl_info L)) -> visible (rl_info L) p ->
  cursor_storable (mkCursorState (Some (cursor_position p)) []).
Proof.
  intros Hst Hv; split_and!; [|apply rs_wf_nil |].
  - intros m [= <-]; by eapply visible_storable.
  - intros x Hx; by apply elem_of_nil in Hx.
Qed.

Lemma empty_storable : cursor_storable default_cursor_state.
Proof.
  split_and!; [done | apply rs_wf_nil |]; intros x Hx; by apply elem_of_nil in Hx.
Qed.

(** A cursor that consists of a frontier only. *)
Lemma frontier_unacked L state q m s ms :
  ledger_holds s L ms -> visible (rl_info L) q -> m ∈ ms ->
  state = mkCursorState (Some (cursor_position q)) [] ->
  unacked state m = (cursor_key_rank q <? msg_rank m).
Proof.
  intros HL Hq Hm ->; unfold unacked, is_managed_position_acknowledged; cbn [cs_mark_delete].
  destruct (lh_msg_ok _ _ _ _ HL Hm) as (_ & _ & He).
  destruct (visible_ok _ _ (lh_info _ _ _ HL) Hq) as [_ Hqe].
  rewrite key_leb_cursor by done; cbn [individually_deleted_entries contains last_le].
  unfold contains; cbn; rewrite orb_false_r.
  unfold msg_rank, pair_rank, cursor_key_rank; cbn; zbool.
Qed.

Lemma frontier_mark_ok L q :
  info_wf (rl_info L) -> visible (rl_info L) q -> mark_ok L (mkCursorState (Some (cursor_position q)) []).
Proof.
  intros Hi Hv m [= <-]; destruct (visible_ok _ _ Hi Hv).
  pose proof (visible_below_max _ _ Hi Hv); split_and!; [done | done | done |].
  destruct Hv as (l & ? & ? & _); eauto.
Qed.

(** What the queries answer on a stored cursor. *)
Lemma first_unacked_position_spec w topic subscription L ms state :
  topic_holds w topic L ms -> cursor_stored w topic subscription state -> mark_ok L state ->
  first_unacked_position clock topic subscription w
  = (Ok (cursor_pos <$> List.find (unacked state) ms), w).
Proof.
  intros [Hc Hn HL Hp] Hs Hm; rewrite <- (ledger_first_unacked_spec _ _ _ _ HL Hp Hm).
  unfold first_unacked_position, on_ledger, topic_ledger, open_ledger; rewrite Hc; unfold on_storage.
  destruct (lac L) as [last|]; cbn [mbind option_bind]; [|by destruct w].
  unfold mbind'; unfold cursor_stored in Hs; rewrite Hn, Hs; by destruct w.
Qed.

Lemma is_acknowledged_shared_spec w topic subscription L ms state m :
  topic_holds w topic L ms -> cursor_stored w topic subscription state ->
  is_acknowledged_shared clock topic subscription (message_id m) w = negb (unacked state m).
Proof.
  intros Ht Hs; unfold is_acknowledged_shared; rewrite (with_cursor_spec _ _ _ _ _ _ _ Ht Hs).
  unfold mret, unacked; by rewrite negb_involutive.
Qed.

Lemma find_head_filter {A} (P : A -> Prop) `{forall x, Decision (P x)} (l : list A) :
  List.find (fun x => bool_decide (P x)) l = head (filter P l).
Proof.
  induction l as [|x l IH]; [done |]; rewrite filter_cons; cbn.
  case_bool_decide; [by rewrite decide_True | by rewrite decide_False].
Qed.

Lemma find_ext {A} (f g : A -> bool) (l : list A) :
  (forall x, x ∈ l -> f x = g x) -> List.find f l = List.find g l.
Proof.
  induction l as [|x l IH]; intros Hfg; [done |]; cbn.
  rewrite Hfg, IH by (by left || intros; apply Hfg; by right); done.
Qed.

(** The cursor left by a seek: everything before the message acknowledged. *)
Lemma reset_before_spec s L ms m :
  ledger_holds s L ms -> m ∈ ms ->
  let state := mkCursorState (cursor_position <$> previous_position L (msg_position m)) [] in
  cursor_storable state /\ mark_ok L state /\
  (forall x, x ∈ ms -> unacked state x = (msg_rank m <=? msg_rank x)) /\
  List.find (unacked state) ms = Some m.
Proof.
  intros HL Hm; destruct (lh_msg_ok _ _ _ _ HL Hm) as (Hv & _).
  pose proof (previous_position_spec s L ms (msg_position m) HL Hv) as Hprev.
  assert (forall x, x ∈ ms ->
    unacked (mkCursorState (cursor_position <$> previous_position L (msg_position m)) []) x
    = (msg_rank m <=? msg_rank x)) as Hun.
  { intros x Hx; destruct (previous_position L (msg_position m)) as [q|]; cbn [fmap option_fmap option_map].
    - destruct Hprev as [E Hvq]; rewrite (frontier_unacked L _ q x s ms) by done.
      pose proof (list_elem_of_filter (fun m => cursor_key_rank q < msg_rank m) ms x) as Hq.
      fold (messages_after q ms) in Hq; rewrite E in Hq; unfold messages_from in Hq.
      rewrite list_elem_of_filter in Hq; change (cursor_key_rank (msg_position m)) with (msg_rank m) in Hq.
      apply eq_true_iff_eq; rewrite Z.ltb_lt, Z.leb_le; tauto.
    - unfold unacked, is_managed_position_acknowledged; cbn; unfold contains; cbn.
      rewrite <- Hprev in Hx; apply list_elem_of_filter in Hx as [Hx _].
      symmetry; apply Z.leb_le; exact Hx. }
  cbn zeta; split_and!; [| | done |].
  - destruct (previous_position L (msg_position m)) as [q|]; [|apply empty_storable].
    eapply mark_only_storable; [apply HL | apply Hprev].
  - destruct (previous_position L (msg_position m)) as [q|]; [|done].
    apply frontier_mark_ok; [apply HL | apply Hprev].
  - rewrite (find_ext _ (fun x => bool_decide (cursor_key_rank (msg_position m) <= msg_rank x))).
    + rewrite find_head_filter; fold (messages_from (msg_position m) ms).
      by rewrite (messages_from_visible (msg_position m) ms m) by (done || by eapply lh_sorted).
    + intros x Hx; rewrite Hun by done; apply eq_true_iff_eq; by rewrite Z.leb_le, bool_decide_eq_true.
Qed.

Lemma seek_cursor_spec w topic subscription L ms state m :
  topic_holds w topic L ms -> cursor_stored w topic subscription state -> m ∈ ms ->
  exists w', seek_cursor clock topic subscription (message_id m) w = (Ok tt, w') /\
    topic_holds w' topic L ms /\
    first_unacked_position clock topic subscription w' = (Ok (Some (cursor_pos m)), w') /\
    forall x, x ∈ ms ->
      is_acknowledged_shared clock topic subscription (message_id x) w' = (msg_rank x <? msg_rank m).
Proof.
  intros Ht Hs Hm; destruct (reset_before_spec _ _ _ _ (th_ledger _ _ _ _ Ht) Hm) as (Hst & Hmk & Hun & Hf).
  destruct (persist_spec w topic subscription L ms _ Ht Hst) as (s' & Hp & Ht' & Hc').
  exists (mkRocks s' (ledgers w)); unfold seek_cursor; rewrite (with_cursor_spec _ _ _ _ _ _ _ Ht Hs).
  unfold reset_cursor; fold (msg_position m); rewrite Hp; split_and!; [done | done | |].
  - by rewrite (first_unacked_position_spec _ _ _ _ _ _ Ht' Hc' Hmk), Hf.
  - intros x Hx; rewrite (is_acknowledged_shared_spec _ _ _ _ _ _ x Ht' Hc'), Hun by done; zbool.
Qed.

(** ** Opening a subscription *)

Definition cursor_absent (w : Rocks bytes) (topic subscription : string) : Prop :=
  db (storage w) !! managed_cursor_key (managed_ledger_name topic) (encode_cursor_name subscription)
  = None.

Lemma cursor_absent_default w topic subscription :
  cursor_absent w topic subscription -> cursor_stored w topic subscription default_cursor_state.
Proof.
  unfold cursor_absent, cursor_stored, cursor_open, mbind', mget; by intros ->.
Qed.

Lemma default_unacked m : unacked default_cursor_state m = true.
Proof. done. Qed.

(** Where a new subscription starts. *)
Definition start_of (options : CursorInitOptions) (ms : list StoredMessage)
  : option StoredMessage :=
  match start_message_id options with
  | Some id => List.find (fun m => bool_decide (message_id m = id)) ms
  | None => match initial_position options with Latest => None | Earliest => head ms end
  end.

(** A frontier at the last message leaves nothing to read. *)
Lemma latest_spec s L ms m :
  ledger_holds s L ms -> last ms = Some m ->
  let state := mkCursorState (Some (cursor_position (msg_position m))) [] in
  cursor_storable state /\ mark_ok L state /\ List.find (unacked state) ms = None.
Proof.
  intros HL Hl; apply last_Some_elem_of in Hl as Hm; destruct (lh_msg_ok _ _ _ _ HL Hm) as (Hv & _).
  cbn zeta; split_and!.
  - eapply mark_only_storable; [apply HL | done].
  - apply frontier_mark_ok; [apply HL | done].
  - rewrite (find_ext _ (fun _ => false)); [clear; by induction ms |].
    intros x Hx; rewrite (frontier_unacked L _ (msg_position m) x s ms) by done.
    pose proof (last_max _ _ _ (lh_sorted _ _ _ HL) Hl Hx); apply Z.ltb_ge; done.
Qed.

Lemma persist_then_first_unacked w topic subscription L ms state first :
  topic_holds w topic L ms -> cursor_storable state -> mark_ok L state ->
  List.find (unacked state) ms = first ->
  exists w', on_storage (persist L subscription state) w = (Ok tt, w') /\
    topic_holds w' topic L ms /\ cursor_stored w' topic subscription state /\
    first_unacked_position clock topic subscription w' = (Ok (cursor_pos <$> first), w').
Proof.
  intros Ht Hst Hmk Hf; destruct (persist_spec w topic subscription L ms _ Ht Hst) as (s' & Hp & Ht' & Hc').
  exists (mkRocks s' (ledgers w)); unfold on_storage; rewrite Hp; split_and!; [done | done | done |].
  by rewrite (first_unacked_position_spec _ _ _ _ _ _ Ht' Hc' Hmk), Hf.
Qed.

Lemma find_message_id ms id :
  (exists m, m ∈ ms /\ message_id m = id) ->
  exists m, List.find (fun m => bool_decide (message_id m = id)) ms = Some m /\
            m ∈ ms /\ message_id m = id.
Proof.
  intros (m0 & Hm0 & E0); destruct (List.find _ ms) as [m|] eqn:E.
  - exists m; split; [done |]; apply List.find_some in E as [Hin Heq].
    apply bool_decide_eq_true in Heq; by apply list_elem_of_In in Hin.
  - pose proof (List.find_none _ _ E m0 (proj1 (list_elem_of_In _ _) Hm0)) as Hf; cbn in Hf.
    by rewrite bool_decide_true in Hf.
Qed.

Lemma initialize_new_cursor_spec w topic subscription L ms options :
  topic_holds w topic L ms -> cursor_absent w topic subscription ->
  (forall id, start_message_id options = Some id -> exists m, m ∈ ms /\ message_id m = id) ->
  exists w', initialize_or_open_cursor clock topic subscription options w
             = (Ok (mkCursorOpen true (cursor_pos <$> start_of options ms)), w') /\
    topic_holds w' topic L ms /\ ~ cursor_absent w' topic subscription.
Proof.
  intros Ht Habs Hid; pose proof (cursor_absent_default _ _ _ Habs) as Hdef.
  pose proof (th_ledger _ _ _ _ Ht) as HL.
  assert (exists state, cursor_storable state /\ mark_ok L state /\
    List.find (unacked state) ms = start_of options ms /\
    match start_message_id options with
    | Some start_id => apply_start_message_id_cursor clock topic subscription start_id
    | None => if decide (initial_position options = Latest)
              then apply_latest_cursor clock topic subscription
              else persist_empty_cursor clock topic subscription
    end w = on_storage (persist L subscription state) w) as (state & Hst & Hmk & Hf & Hop).
  { unfold start_of; destruct options as [[] [id|]]; cbn [start_message_id initial_position] in *.
    1,3: destruct (find_message_id ms id (Hid id eq_refl)) as (m & -> & Hm & <-);
      destruct (reset_before_spec _ _ _ _ HL Hm) as (? & ? & _ & ?);
      eexists; split_and!; [done | done | done |];
      unfold apply_start_message_id_cursor; rewrite (with_cursor_spec _ _ _ _ _ _ _ Ht Hdef);
      fold (msg_position m); by destruct (previous_position L (msg_position m)).
    - rewrite decide_True by done; unfold apply_latest_cursor.
      rewrite (with_cursor_spec _ _ _ _ _ _ _ Ht Hdef), (lh_lac _ _ _ HL).
      destruct (last ms) as [m|] eqn:Hl; cbn [fmap option_fmap option_map].
      + destruct (latest_spec _ _ _ _ HL Hl) as (? & ? & ?); eexists; by split_and!.
      + apply last_None in Hl as ->; exists default_cursor_state.
        split_and!; [apply empty_storable | done | done | done].
    - rewrite decide_False by done; unfold persist_empty_cursor.
      rewrite (with_cursor_spec _ _ _ _ _ _ _ Ht Hdef); exists default_cursor_state.
      split_and!; [apply empty_storable | done | | done].
      destruct ms; [done |]; cbn [List.find]; by rewrite default_unacked. }
  destruct (persist_then_first_unacked w topic subscription L ms state _ Ht Hst Hmk Hf)
    as (w' & Hp & Ht' & Hc' & Hfirst).
  exists w'; unfold initialize_or_open_cursor, sbind, cursor_exists, cursor_state_exists.
  unfold on_storage at 1, mbind', mget, mret; unfold cursor_absent in Habs; rewrite Habs.
  rewrite bool_decide_false by by intros [].
  replace (mkRocks (storage w) (ledgers w)) with w by by destruct w.
  rewrite Hop, Hp, Hfirst; split_and!; [done | done |].
  unfold on_storage, persist, persist_state, mput in Hp; injection Hp as <-.
  unfold cursor_absent; cbn [storage db]; by rewrite <- (th_name _ _ _ _ Ht), lookup_insert_eq.
Qed.

(** ** Shared acknowledgements *)

Lemma managed_cursor_storable L state :
  info_wf (rl_info L) -> Forall ledger_storable (info_ledgers (rl_info L)) ->
  managed_cursor_wf (rl_info L) state -> cursor_storable state.
Proof.
  intros Hi Hst [[Hwf Hmark Hranges] _]; split_and!; [|done |].
  - intros m Em; destruct (Hmark m Em) as [Hv Hp].
    replace m with (cursor_position m) by (destruct m; cbn in *; by subst).
    by eapply visible_storable.
  - intros x Hx; destruct (Hranges x Hx) as (Hv & Hsame & _).
    pose proof (rs_wf_ok _ _ Hwf Hx) as Hok.
    pose proof (range_start_visible _ _ Hok Hv Hsame) as Hv1.
    destruct Hok as ((_ & _ & Hp1) & (_ & _ & Hp2) & _), x as [x1 x2]; cbn in *.
    replace x1 with (cursor_position x1) by (destruct x1; cbn in *; by subst).
    replace x2 with (cursor_position x2) by (destruct x2; cbn in *; by subst).
    split_and!; [by eapply visible_storable | by eapply visible_storable | done].
Qed.

Lemma visible_cursor_position i p : visible i p -> visible i (cursor_position p).
Proof. done. Qed.

Lemma unacked_acked L state m s ms :
  ledger_holds s L ms -> managed_cursor_wf (rl_info L) state -> m ∈ ms ->
  negb (unacked state m) = true <-> managed_acked state (cursor_pos m).
Proof.
  intros HL Hwf Hm; destruct (lh_msg_ok _ _ _ _ HL Hm) as (Hv & _).
  unfold unacked; rewrite negb_involutive.
  apply (managed_acknowledged_acked (rl_info L) state (cursor_pos m)); [apply HL | done | done | done].
Qed.

Lemma cursor_pos_inj s L ms m x :
  ledger_holds s L ms -> m ∈ ms -> x ∈ ms -> cursor_pos x = cursor_pos m -> x = m.
Proof.
  intros HL Hm Hx [= El Ee]; pose proof (lh_sorted _ _ _ HL) as Hs.
  assert (msg_rank x = msg_rank m) as Er
    by (unfold msg_rank, pair_rank, msg_pair; cbn in *; by rewrite El, Ee).
  clear -Hs Hm Hx Er; induction ms as [|a ms IH]; [by apply elem_of_nil in Hm |].
  apply StronglySorted_inv in Hs as [Hs Ha]; rewrite Forall_forall in Ha.
  apply elem_of_cons in Hm as [->|Hm], Hx as [->|Hx]; auto.
  - specialize (Ha x Hx); lia.
  - specialize (Ha m Hm); lia.
Qed.

Lemma ack_message_shared_spec w topic subscription L ms state m :
  topic_holds w topic L ms -> cursor_stored w topic subscription state ->
  managed_cursor_wf (rl_info L) state -> m ∈ ms ->
  exists w' state', ack_message_shared clock topic subscription (message_id m) w = (Ok tt, w') /\
    topic_holds w' topic L ms /\ cursor_stored w' topic subscription state' /\
    managed_cursor_wf (rl_info L) state' /\
    forall x, x ∈ ms ->
      is_acknowledged_shared clock topic subscription (message_id x) w' = true <->
      x = m \/ is_acknowledged_shared clock topic subscription (message_id x) w = true.
Proof.
  intros Ht Hs Hwf Hm; pose proof (th_ledger _ _ _ _ Ht) as HL.
  destruct (lh_msg_ok _ _ _ _ HL Hm) as (Hv & _).
  destruct (ack_managed_spec (rl_info L) state (cursor_pos m) (lh_info _ _ _ HL) Hwf Hv eq_refl)
    as (Hwf' & _ & Hack).
  set (state' := ack_managed_cursor_shared state (cursor_pos m) (rl_info L)) in *.
  assert (forall w', topic_holds w' topic L ms -> cursor_stored w' topic subscription state' ->
    forall x, x ∈ ms ->
      is_acknowledged_shared clock topic subscription (message_id x) w' = true <->
      x = m \/ is_acknowledged_shared clock topic subscription (message_id x) w = true) as Hgoal.
  { intros w' Ht' Hs' x Hx.
    rewrite (is_acknowledged_shared_spec _ _ _ _ _ _ x Ht' Hs'), (is_acknowledged_shared_spec _ _ _ _ _ _ x Ht Hs).
    rewrite !(unacked_acked L _ x _ ms HL) by done.
    destruct (lh_msg_ok _ _ _ _ HL Hx) as (Hvx & _).
    rewrite (Hack (cursor_pos x) Hvx eq_refl); split; intros [E|?]; auto.
    - left; by eapply cursor_pos_inj.
    - left; by rewrite E. }
  unfold ack_message_shared; rewrite (with_cursor_spec _ _ _ _ _ _ _ Ht Hs); cbn zeta.
  fold (msg_position m); change (ack_managed_cursor_shared state (msg_position m) (rl_info L)) with state'.
  destruct (is_managed_position_acknowledged state (msg_position m)) eqn:Eack.
  - assert (state' = state) as Est.
    { unfold state', ack_managed_cursor_shared.
      change (is_managed_position_acknowledged state (cursor_position (cursor_pos m)))
        with (is_managed_position_acknowledged state (msg_position m)); by rewrite Eack. }
    exists w, state'; rewrite Est in *; split_and!; [by destruct w | done | done | done | by apply Hgoal].
  - assert (cursor_storable state') as Hst
      by (eapply managed_cursor_storable; [apply HL | apply HL | done]).
    destruct (persist_spec w topic subscription L ms state' Ht Hst) as (s' & Hp & Ht' & Hc').
    exists (mkRocks s' (ledgers w)), state'; rewrite Hp; split_and!; [done | done | done | done |].
    by apply Hgoal.
Qed.

Lemma backlog_without_frontier s L ms state :
  ledger_holds s L ms -> cs_mark_delete state = None ->
  backlog (rl_info L) state = Z.of_nat (length ms).
Proof.
  intros HL Hm; unfold backlog; rewrite Hm.
  by rewrite <- length_all_positions, <- (lh_positions _ _ _ HL), length_fmap by apply HL.
Qed.
End proofs.

(** ** Properties *)

(** C30: A seek on a durable subscription makes the sought message the next one
    to deliver: it is the first unacknowledged position, and exactly the
    messages before it count as acknowledged, across segments and after the
    cursor has gone through the database. *)
Theorem store_seek_resumes_at {bytes : Type} `{DbCodec bytes, !DbCodecLaws bytes} (clock : Z -> Z)
    (w : Rocks bytes) (topic subscription : string) (L : RocksDBManagedLedger)
    (ms : list StoredMessage) (state : ManagedCursorState) (m : StoredMessage) :
  topic_holds w topic L ms -> cursor_stored w topic subscription state -> m ∈ ms ->
  exists w', seek_cursor clock topic subscription (message_id m) w = (Ok tt, w') /\
    topic_holds w' topic L ms /\
    first_unacked_position clock topic subscription w' = (Ok (Some (cursor_pos m)), w') /\
    forall x, x ∈ ms ->
      is_acknowledged_shared clock topic subscription (message_id x) w' = (msg_rank x <? msg_rank m).
Proof. apply seek_cursor_spec. Qed.

(** C31: A new durable subscription starts where its options say: at the given
    message, at the first message, or after all of them; the cursor is then in
    the database. *)
Theorem store_new_subscription_start {bytes : Type} `{DbCodec bytes, !DbCodecLaws bytes}
    (clock : Z -> Z) (w : Rocks bytes) (topic subscription : string) (L : RocksDBManagedLedger)
    (ms : list StoredMessage) (options : CursorInitOptions) :
  topic_holds w topic L ms -> cursor_absent w topic subscription ->
  (forall id, start_message_id options = Some id -> exists m, m ∈ ms /\ message_id m = id) ->
  exists w', initialize_or_open_cursor clock topic subscription options w
             = (Ok (mkCursorOpen true (cursor_pos <$> start_of options ms)), w') /\
    topic_holds w' topic L ms /\ ~ cursor_absent w' topic subscription.
Proof. apply initialize_new_cursor_spec. Qed.


(** The reported backlog of a durable subscription whose frontier has not
    moved ignores individual acknowledgements: it counts every message, also
    the acknowledged ones. *)
Theorem backlog_ignores_individual_acks {bytes : Type} `{DbCodec bytes, !DbCodecLaws bytes}
    (s : Storage bytes) (L : RocksDBManagedLedger) (ms : list StoredMessage)
    (state : ManagedCursorState) (m : StoredMessage) :
  ledger_holds s L ms -> cs_mark_delete state = None ->
  m ∈ ms -> unacked state m = false ->
  Z.of_nat (length (filter (fun x => unacked state x = true) ms)) < backlog (rl_info L) state.
Proof.
  intros HL Hm Hin Hack; rewrite (backlog_without_frontier s L ms state HL Hm).
  apply Nat2Z.inj_lt, length_filter_lt with m; [done | congruence].
Qed.

(** *** Instances *)

Definition example_rocks : Rocks plain := mkRocks appended.2 {[ "t" := appended_ledger ]}.

Lemma example_topic_partitions :
  exists m0 m1 m2, topic_holds example_rocks "t" appended_ledger [m0; m1; m2] /\
    forall m, m ∈ [m0; m1; m2] -> msg_partition (message_id m) = -1.
Proof.
  destruct appended_holds as (new & Hnew & HL & _).
  assert (forall m, m ∈ new -> msg_partition (message_id m) = -1) as Hp.
  { intros m Hm; assert (msg_item m ∈ example_items) as Hin by (rewrite <- Hnew; by apply list_elem_of_fmap_2).
    unfold msg_item in Hin; revert Hin; unfold example_items.
    rewrite !elem_of_cons, elem_of_nil; intros [E|[E|[E|[]]]]; injection E as -> _ _; lia. }
  destruct new as [|m0 [|m1 [|m2 [|]]]]; try done.
  exists m0, m1, m2; split; [|exact Hp].
  split; [apply lookup_singleton_eq | vm_compute; reflexivity | exact HL |].
  intros m Hm; rewrite Hp by done; lia.
Qed.

Lemma example_topic_holds :
  exists m0 m1 m2, topic_holds example_rocks "t" appended_ledger [m0; m1; m2].
Proof. destruct example_topic_partitions as (m0 & m1 & m2 & Ht & _); exists m0, m1, m2; exact Ht. Qed.

Lemma example_cursor_absent : cursor_absent example_rocks "t" "s".
Proof. vm_compute; reflexivity. Qed.

Lemma store_seek_resumes_at_witness :
  exists m w', seek_cursor (fun _ => 0) "t" "s" (message_id m) example_rocks = (Ok tt, w') /\
    first_unacked_position (fun _ => 0) "t" "s" w' = (Ok (Some (cursor_pos m)), w').
Proof.
  destruct example_topic_holds as (m0 & m1 & m2 & Ht).
  destruct (store_seek_resumes_at (fun _ => 0) example_rocks "t" "s" _ _ _ m1 Ht
              (cursor_absent_default _ _ _ example_cursor_absent) ltac:(by right; left))
    as (w' & Hs & _ & Hf & _).
  exists m1, w'; exact (conj Hs Hf).
Defined.

Lemma store_new_subscription_start_witness :
  exists w', initialize_or_open_cursor (fun _ => 0) "t" "s" (mkCursorInit Latest None) example_rocks
             = (Ok (mkCursorOpen true None), w').
Proof.
  destruct example_topic_holds as (m0 & m1 & m2 & Ht).
  destruct (store_new_subscription_start (fun _ => 0) example_rocks "t" "s" _ _
              (mkCursorInit Latest None) Ht example_cursor_absent ltac:(done)) as (w' & E & _).
  exists w'; exact E.
Defined.


Lemma backlog_ignores_individual_acks_witness :
  exists state ms,
    Z.of_nat (length (filter (fun x => unacked state x = true) ms))
    < backlog (rl_info appended_ledger) state.
Proof.
  destruct example_topic_holds as (m0 & m1 & m2 & Ht); pose proof (th_ledger _ _ _ _ Ht) as HL.
  exists (mkCursorState None [(cursor_pos m1, cursor_pos m1)]), [m0; m1; m2].
  apply (backlog_ignores_individual_acks appended.2 appended_ledger [m0; m1; m2] _ m1 HL);
    [reflexivity | by right; left |].
  destruct (lh_msg_ok _ _ _ m1 HL ltac:(by right; left)) as (_ & Hl & He).
  assert (key_ok (cursor_pos m1)) as Hk by by split_and!.
  assert (contains [(cursor_pos m1, cursor_pos m1)] (cursor_pos m1) = true) as Hc.
  { apply contains_covered; [|done |].
    - split; [apply Forall_singleton; split_and!; [done | done | cbn; lia] | repeat constructor].
    - exists (cursor_pos m1), (cursor_pos m1); split; [by left | lia]. }
  unfold unacked, is_managed_position_acknowledged; cbn [cs_mark_delete individually_deleted_entries].
  fold (cursor_pos m1); by rewrite Hc.
Defined.
