(* ===== verification/WriteQueue.v ===== *)
(** * The write queue

    [storage/managed-ledger-rocksdb/src/write_queue.rs]: the single worker that
    appends for all topics.  It drains requests into a batch, groups them by
    ledger, appends each group in one go and completes every request.  The
    counters of committed messages are not part of the model. *)

From S2P Require Import Prelude Position BTree RangeSet LedgerInfo MetadataCodec.
From S2P Require Import Bytes Text EntryLog Keys RocksLedger RocksStore.

Definition QUEUE_MAX_BATCH : nat := 64.

Record ConnAppendResult := mkAppendResult {
  car_producer_id : Z;
  car_sequence_id : Z;
  car_result : result ledger_error MessageId;
}.

(** Who waits for the request: a caller of its own, or a connection, which gets the
    producer and sequence ids back. *)
Inductive WriteReply :=
| Oneshot
| Conn (producer_id sequence_id : Z) (connection : string).

Record WriteReq := mkReq {
  wr_topic : string;
  wr_partition : Z;
  wr_metadata : list Z;
  wr_payload : list Z;
  wr_reply : WriteReply;
}.

(** What a connection receives. *)
Definition complete (r : WriteReq) (res : result ledger_error MessageId) : option (string * ConnAppendResult) :=
  match wr_reply r with
  | Oneshot => None
  | Conn producer_id sequence_id connection => Some (connection, mkAppendResult producer_id sequence_id res)
  end.

Definition req_ledger (r : WriteReq) : string := managed_ledger_name (wr_topic r).
Definition req_item (r : WriteReq) : Z * list Z * list Z :=
  (wr_partition r, wr_metadata r, wr_payload r).

(** The first request and the [window] requests that arrive in time. *)
Definition take_batch (window : nat) (queue : list WriteReq) : list WriteReq * list WriteReq :=
  let n := Nat.min QUEUE_MAX_BATCH (S window) in (take n queue, drop n queue).

(** [groups.entry(name).or_default().push(req)], in the order of first use. *)
Fixpoint group_add (name : string) (r : WriteReq) (groups : list (string * list WriteReq))
  : list (string * list WriteReq) :=
  match groups with
  | [] => [(name, [r])]
  | (name', rs) :: groups =>
      if String.eqb name name' then (name', rs ++ [r]) :: groups
      else (name', rs) :: group_add name r groups
  end.

Definition group_by_ledger (batch : list WriteReq) : list (string * list WriteReq) :=
  foldl (fun groups r => group_add (req_ledger r) r groups) [] batch.

Section queue.
Context {bytes : Type} `{DbCodec bytes}.
Context (clock : Z -> Z).

(** One group; each request is paired with its result. *)
Definition run_group (io : bool * write_outcome) (db_ok : bool) (name : string)
    (reqs : list WriteReq) (w : Rocks bytes)
  : list (WriteReq * result ledger_error MessageId) * Rocks bytes :=
  match open_ledger clock name w with
  | (Err e, w) => ((fun r => (r, Err e)) <$> reqs, w)
  | (Ok L, w) =>
      match add_entries clock io db_ok L (req_item <$> reqs) (storage w) with
      | (Ok (ps, L'), s) =>
          (zip reqs ((fun p => Ok (message_id_of_position p)) <$> ps),
           mkRocks s (<[name := L']> (ledgers w)))
      | (Err e, s) => ((fun r => (r, Err e)) <$> reqs, mkRocks s (ledgers w))
      end
  end.

(** The outside world: when a round's batch closes, and how the log and the
    database answer for the groups of a round. *)
Record worker_env := mkWorkerEnv {
  batch_window : nat -> nat;
  group_io : nat -> nat -> bool * write_outcome;
  group_db : nat -> nat -> bool;
}.

Fixpoint run_groups (env : worker_env) (round k : nat) (groups : list (string * list WriteReq))
    (w : Rocks bytes) : list (WriteReq * result ledger_error MessageId) * Rocks bytes :=
  match groups with
  | [] => ([], w)
  | (name, reqs) :: groups =>
      let '(cs, w) := run_group (group_io env round k) (group_db env round k) name reqs w in
      let '(cs', w) := run_groups env round (S k) groups w in
      (cs ++ cs', w)
  end.

(** The loop, until the queue is empty. *)
Fixpoint worker_loop (fuel : nat) (env : worker_env) (round : nat) (queue : list WriteReq)
    (w : Rocks bytes) : list (WriteReq * result ledger_error MessageId) * Rocks bytes :=
  match fuel, queue with
  | S fuel, _ :: _ =>
      let '(batch, queue) := take_batch (batch_window env round) queue in
      let '(cs, w) := run_groups env round 0 (group_by_ledger batch) w in
      let '(cs', w) := worker_loop fuel env (S round) queue w in
      (cs ++ cs', w)
  | _, _ => ([], w)
  end.
End queue.

(** ** Grouping keeps the order within a ledger *)

Definition for_ledger (name : string) (rs : list WriteReq) : list WriteReq :=
  filter (fun r => req_ledger r = name) rs.

Lemma for_ledger_app name rs rs' :
  for_ledger name (rs ++ rs') = for_ledger name rs ++ for_ledger name rs'.
Proof. apply filter_app. Qed.

Lemma for_ledger_cons_other name r rs :
  req_ledger r <> name -> for_ledger name (r :: rs) = for_ledger name rs.
Proof. intros; unfold for_ledger; by rewrite filter_cons_False. Qed.

(** The groups so far are those of the requests [rs]. *)
Record groups_of (rs : list WriteReq) (groups : list (string * list WriteReq)) : Prop := {
  go_group : forall name reqs, (name, reqs) ∈ groups -> reqs = for_ledger name rs /\ reqs <> [];
  go_names : NoDup groups.*1;
  go_all : forall r, r ∈ rs -> req_ledger r ∈ (groups.*1);
}.

Lemma group_add_names name r groups :
  (group_add name r groups).*1 = if decide (name ∈ groups.*1) then groups.*1 else groups.*1 ++ [name].
Proof.
  induction groups as [|[n rs] groups IH]; [done |]; cbn [group_add].
  destruct (String.eqb_spec name n) as [->|Hne]; cbn.
  - rewrite decide_True by (by left); done.
  - rewrite IH; repeat case_decide; try done; exfalso; set_solver.
Qed.

Lemma group_add_elem name r groups n reqs :
  NoDup groups.*1 -> (n, reqs) ∈ group_add name r groups ->
  (n <> name /\ (n, reqs) ∈ groups) \/
  (n = name /\ ((exists rs, (name, rs) ∈ groups /\ reqs = rs ++ [r]) \/
                ((name ∉ groups.*1) /\ reqs = [r]))).
Proof.
  induction groups as [|[m ms] groups IH]; cbn [group_add fmap list_fmap fst]; intros Hnd Hin.
  - apply list_elem_of_singleton in Hin as [= -> ->]; right; split; [done |]; right.
    split; [by intros ?%elem_of_nil | done].
  - apply NoDup_cons in Hnd as [Hm Hnd]; destruct (String.eqb_spec name m) as [->|Hne].
    + apply elem_of_cons in Hin as [[= -> ->]|Hin].
      * right; split; [done |]; left; exists ms; split; [by left | done].
      * left; split; [|by right]; intros ->; apply Hm, list_elem_of_fmap; by exists (m, reqs).
    + apply elem_of_cons in Hin as [[= -> ->]|Hin]; [left; split; [done | by left] |].
      destruct (IH Hnd Hin) as [[? ?]|[-> [(rs & ? & ->)|[? ->]]]].
      * left; split; [done | by right].
      * right; split; [done |]; left; exists rs; split; [by right | done].
      * right; split; [done |]; right; split; [|done].
        cbn; intros [?|?]%elem_of_cons; done.
Qed.

Lemma group_by_ledger_spec batch : groups_of batch (group_by_ledger batch).
Proof.
  unfold group_by_ledger.
  assert (groups_of [] []) as Hinit
    by (split; [intros ? ? ?%elem_of_nil; done | constructor | intros ? ?%elem_of_nil; done]).
  enough (forall rs groups, groups_of rs groups ->
    groups_of (rs ++ batch) (foldl (fun groups r => group_add (req_ledger r) r groups) groups batch))
    as Hgen by apply (Hgen [] [] Hinit).
  clear Hinit; induction batch as [|r batch IH]; intros rs groups Hg; cbn [foldl];
    [by rewrite app_nil_r |].
  replace (rs ++ r :: batch) with ((rs ++ [r]) ++ batch) by by rewrite <- (assoc_L (++)).
  apply IH; destruct Hg as [Hgroup Hnd Hall]; split.
  - intros n reqs Hin; apply group_add_elem in Hin; [|done].
    rewrite for_ledger_app; unfold for_ledger at 2.
    destruct Hin as [[Hne Hin]|[-> [(rs' & Hin & ->)|[Hout ->]]]].
    + destruct (Hgroup _ _ Hin) as [-> ?]; rewrite filter_cons_False by done; by rewrite app_nil_r.
    + destruct (Hgroup _ _ Hin) as [-> ?]; rewrite filter_cons_True by done.
      split; [done |]; by destruct (for_ledger _ _).
    + rewrite filter_cons_True by done; split; [|done].
      unfold for_ledger; rewrite list_filter_none; [done |].
      intros x Hx E; apply Hout; rewrite <- E; by apply Hall.
  - rewrite group_add_names; case_decide; [done |].
    apply NoDup_app; split_and!; [done | | apply NoDup_singleton].
    intros x Hx ->%list_elem_of_singleton; done.
  - intros x Hx; rewrite group_add_names; apply elem_of_app in Hx as [Hx|Hx].
    + apply Hall in Hx; case_decide; [done | apply elem_of_app; by left].
    + apply list_elem_of_singleton in Hx as ->; case_decide; [done |].
      apply elem_of_app; right; by left.
Qed.

(** ** All the ledgers of a store *)

Section world.
Context {bytes : Type} `{DbCodec bytes, !DbCodecLaws bytes}.

(** The names of the ledgers that are looked at. *)
Context (good : string -> Prop).

(** Every ledger, open or not, holds its messages; the segments of different
    ledgers have different ids, all below the next one; [size] bounds the size
    of the current segments. *)
Record world_wf (w : Rocks bytes) (logs : string -> list StoredMessage)
    (segs : string -> list Z) (n size : Z) : Prop := {
  ww_storage : storage_wf (storage w);
  ww_next : next_ledger_id (storage w) = Some n;
  ww_next_nonneg : 0 <= n;
  ww_ledger : forall name, good name ->
    (db (storage w) !! managed_ledger_key name = None /\ ledgers w !! name = None /\
     logs name = [] /\ segs name = []) \/
    exists L, rl_name L = name /\ ledger_holds (storage w) L (logs name) /\
      seg_ids (rl_info L) = segs name /\ current_ledger_size L <= size /\
      (ledgers w !! name = None \/
       ledgers w !! name = Some L /\ 1 <= max_entries_per_ledger L <= I64_MAX);
  ww_below : forall name k, good name -> k ∈ segs name -> k < n;
  ww_disjoint : forall a b k, good a -> good b -> k ∈ segs a -> k ∈ segs b -> a = b;
  ww_size : 0 <= size;
}.

Lemma ledger_holds_seg s L ms m :
  ledger_holds s L ms -> m ∈ ms -> ledger (message_id m) ∈ seg_ids (rl_info L).
Proof.
  intros HL Hm; destruct (lh_msg_ok _ _ _ _ HL Hm) as ((l & Hl & Hid & _) & _).
  unfold seg_ids; apply list_elem_of_fmap; exists l; by split.
Qed.

Lemma seg_ids_below L n :
  (forall k, k ∈ seg_ids (rl_info L) -> k < n) ->
  Forall (fun l => li_ledger_id l < n) (info_ledgers (rl_info L)).
Proof.
  intros Hk; apply Forall_forall; intros l Hl; apply Hk, list_elem_of_fmap; by exists l.
Qed.

Definition upd {A} (f : string -> A) (name : string) (a : A) : string -> A :=
  fun x => if String.eqb x name then a else f x.

Lemma upd_eq {A} (f : string -> A) name a : upd f name a name = a.
Proof. unfold upd; by rewrite String.eqb_refl. Qed.

Lemma upd_ne {A} (f : string -> A) name a x : x <> name -> upd f name a x = f x.
Proof. unfold upd; by destruct (String.eqb_spec x name). Qed.

(** Changing one ledger: its own keys change, log files grow, and its segments
    get fresh ids; all the other ledgers keep their messages. *)
Lemma world_step w logs segs n size s' cache' name L' ms' n' size' :
  world_wf w logs segs n size -> good name ->
  storage_wf s' -> next_ledger_id s' = Some n' -> n <= n' -> size <= size' ->
  fs_extends (fs (storage w)) (fs s') ->
  rl_name L' = name -> ledger_holds s' L' ms' -> current_ledger_size L' <= size' ->
  1 <= max_entries_per_ledger L' <= I64_MAX -> cache' = <[name := L']> (ledgers w) ->
  (forall k, k ∈ seg_ids (rl_info L') -> k ∈ segs name \/ n <= k < n') ->
  (forall k, k <> ledger_id_allocator_key -> k <> managed_ledger_key name ->
     (forall l e, l ∈ seg_ids (rl_info L') -> u64_ok l -> u64_ok e -> k <> managed_entry_key l e) ->
     db s' !! k = db (storage w) !! k) ->
  world_wf (mkRocks s' cache') (upd logs name ms') (upd segs name (seg_ids (rl_info L'))) n' size'.
Proof.
  intros [Hst Hn Hn0 Hled Hbelow Hdisj Hsz] Hgood Hst' Hn' Hnn Hsize Hext Hname HL' Hsz' Hmax -> Hseg Hframe.
  split; cbn [storage ledgers]; [done | done | lia | | | | lia].
  - intros b Hgb; destruct (decide (b = name)) as [->|Hb].
    + right; exists L'; rewrite !upd_eq, lookup_insert_eq; split_and!; [done .. | by right].
    + rewrite !upd_ne, lookup_insert_ne by done.
      assert (db s' !! managed_ledger_key b = db (storage w) !! managed_ledger_key b) as Hkey.
      { apply Hframe; [done | | done]; by intros ?%append_inj_l. }
      destruct (Hled b Hgb) as [(E & Hc & Hl & Hs)|(L & Hnb & HL & Hs & Hz & Hc)].
      * left; split_and!; [congruence | done | done | done].
      * right; exists L; split_and!; [done | | done | lia | done].
        eapply ledger_holds_mono; [by rewrite Hnb | | done | done].
        intros m Hm; apply Hframe; [done | done |]; intros l e Hl Hul Hue E.
        destruct (lh_msg_ok _ _ _ _ HL Hm) as (_ & ? & ?).
        apply managed_entry_key_inj in E as [E _]; [|done ..].
        pose proof (ledger_holds_seg _ _ _ _ HL Hm) as Hms; cbn in E; rewrite E, Hs in Hms.
        destruct (Hseg l Hl) as [Hln|?]; [by apply Hb, (Hdisj b name l) |].
        pose proof (Hbelow b l Hgb Hms); lia.
  - intros b k Hgb; destruct (decide (b = name)) as [->|Hb].
    + rewrite upd_eq; intros [Hk|?]%Hseg; [pose proof (Hbelow name k Hgb Hk); lia | lia].
    + rewrite upd_ne by done; intros Hk; pose proof (Hbelow b k Hgb Hk); lia.
  - assert (forall b k, good b -> b <> name -> k ∈ segs b -> k ∈ seg_ids (rl_info L') -> False) as Hx.
    { intros b k Hgb Hb Hk [Hk'|?]%Hseg; [by apply Hb, (Hdisj b name k) |].
      pose proof (Hbelow b k Hgb Hk); lia. }
    intros a b k Hga Hgb; destruct (decide (a = name)) as [->|Ha], (decide (b = name)) as [->|Hb];
      rewrite ?upd_eq, ?upd_ne by done; try done.
    + intros H1 H2; by destruct (Hx b k Hgb Hb H2 H1).
    + intros H1 H2; by destruct (Hx a k Hga Ha H1 H2).
    + by apply Hdisj.
Qed.

(** What serving requests leaves alone: open ledgers stay open and keep their
    segments, and a key that belongs to no ledger keeps its value. *)
Record world_grows (w w' : Rocks bytes) : Prop := {
  wg_open : forall name L, ledgers w !! name = Some L ->
    exists L', ledgers w' !! name = Some L' /\ rl_name L' = rl_name L /\
      forall k, k ∈ seg_ids (rl_info L) -> k ∈ seg_ids (rl_info L');
  wg_other : forall k, k <> ledger_id_allocator_key -> (forall name, good name -> k <> managed_ledger_key name) ->
    (forall l e, k <> managed_entry_key l e) -> db (storage w') !! k = db (storage w) !! k;
}.

#[export] Instance world_grows_preorder : PreOrder world_grows.
Proof.
  split; [intros w; split; eauto |]; intros w1 w2 w3 [Ho1 Hk1] [Ho2 Hk2]; split.
  - intros name L (L1 & E1 & ? & ?)%Ho1; destruct (Ho2 name L1 E1) as (L2 & ? & ? & ?).
    exists L2; split_and!; [done | congruence | auto].
  - intros k ? ? ?; rewrite Hk2 by done; auto.
Qed.

(** Only the ledger [name] and its cache entry change. *)
Lemma world_grows_one w s' name L' :
  good name ->
  (forall L, ledgers w !! name = Some L ->
     rl_name L' = rl_name L /\ forall k, k ∈ seg_ids (rl_info L) -> k ∈ seg_ids (rl_info L')) ->
  (forall k, k <> ledger_id_allocator_key -> k <> managed_ledger_key name ->
     (forall l e, k <> managed_entry_key l e) -> db s' !! k = db (storage w) !! k) ->
  world_grows w (mkRocks s' (<[name := L']> (ledgers w))).
Proof.
  intros Hg HL Hdb; split; cbn [ledgers storage]; [|by auto].
  intros b L Hb; destruct (decide (b = name)) as [->|Hne].
  - exists L'; rewrite lookup_insert_eq; by destruct (HL L Hb).
  - exists L; by rewrite lookup_insert_ne.
Qed.

Context (clock : Z -> Z) (clock_ok : forall k, i64_range (clock k)).

Lemma config_limit_none : config_limit None = DEFAULT_MAX_ENTRIES_PER_LEDGER.
Proof. done. Qed.

Lemma world_wf_ext w logs segs logs' segs' n size :
  (forall x, logs x = logs' x) -> (forall x, segs x = segs' x) ->
  world_wf w logs segs n size -> world_wf w logs' segs' n size.
Proof.
  intros Hl Hs []; split; try done.
  - intros name Hg; rewrite <- Hl, <- Hs; auto.
  - intros name k; rewrite <- Hs; apply ww_below0.
  - intros a b k; rewrite <- !Hs; apply ww_disjoint0.
Qed.

(** Opening a ledger of the store, cached or not. *)
Lemma open_ledger_spec w logs segs n size name :
  world_wf w logs segs n size -> good name -> n + 2 <= I64_MAX ->
  exists L w' segs' n', open_ledger clock name w = (Ok L, w') /\ n <= n' <= n + 2 /\
    world_wf w' logs segs' n' size /\ world_grows w w' /\ ledgers w' !! name = Some L /\ rl_name L = name.
Proof.
  intros Hw Hg Hb; pose proof Hw as [Hst Hn Hn0 Hled Hbelow _ Hsz]; unfold open_ledger.
  destruct (Hled name Hg) as [(Hk & Hc & Hl & Hs)|(L & Hname & HL & Hs & Hz & [Hc|[Hc Hmax]])].
  - rewrite Hc.
    destruct (open_with_config_fresh clock None (storage w) name n clock_ok Hn Hn0 Hb Hk)
      as (L' & s1 & s' & E & (Hdb & Hlg & Hfs) & [HL' Hz' Hnm Hmx Hlog Hfs' (n' & Hn' & Hnn & Hids) Hfr]).
    rewrite E; exists L', (mkRocks s' (<[name := L']> (ledgers w))), (upd segs name (seg_ids (rl_info L'))), n'; split; [done |].
    split; [lia |]; split; [|split; [|split; [by cbn; rewrite lookup_insert_eq | done]]].
    2: { apply world_grows_one; [done | by rewrite Hc |]; intros k ? ? ?; rewrite Hfr by done; by apply Hdb. }
    apply (world_wf_ext _ (upd logs name []) (upd segs name (seg_ids (rl_info L')))); [|done |].
    { intros x; unfold upd; by destruct (String.eqb_spec x name) as [->|]. }
    apply (world_step w logs segs n size s' _ name L' [] n' size); try done; try lia.
    + unfold storage_wf; by rewrite Hlog, Hfs', Hlg, Hfs.
    + by rewrite Hfs', Hfs.
    + rewrite Hmx, config_limit_none; done.
    + destruct Hids as (fresh & -> & Hf); rewrite Forall_forall in Hf.
      intros k [->%list_elem_of_singleton|Hin]%elem_of_app; [right; cbn; lia |].
      specialize (Hf k Hin); right; lia.
    + intros k Hk1 Hk2 _; rewrite Hfr by done; by apply Hdb.
  - rewrite Hc.
    destruct (open_with_config_again clock None (storage w) name (logs name) n L clock_ok Hn Hn0 Hb Hname HL)
      as (L' & s' & E & [HL' Hz' Hnm Hmx Hlog Hfs' (n' & Hn' & Hnn & Hids) Hfr]).
    { apply seg_ids_below; rewrite Hs; by intros k; apply Hbelow. }
    rewrite E; exists L', (mkRocks s' (<[name := L']> (ledgers w))), (upd segs name (seg_ids (rl_info L'))), n'; split; [done |].
    split; [lia |]; split; [|split; [|split; [by cbn; rewrite lookup_insert_eq | done]]].
    2: { apply world_grows_one; [done | by rewrite Hc |]; intros k ? ? ?; by apply Hfr. }
    apply (world_wf_ext _ (upd logs name (logs name)) (upd segs name (seg_ids (rl_info L')))); [|done |].
    { intros x; unfold upd; by destruct (String.eqb_spec x name) as [->|]. }
    eapply (world_step w logs segs n size); try done; try lia.
    + unfold storage_wf; by rewrite Hlog, Hfs'.
    + by rewrite Hfs'.
    + rewrite Hmx, config_limit_none; done.
    + destruct Hids as (fresh & -> & Hf); rewrite Forall_forall in Hf.
      intros k [?|Hin]%elem_of_app; [left; by rewrite <- Hs |]; specialize (Hf k Hin); right; lia.
    + intros k Hk1 Hk2 _; by apply Hfr.
  - rewrite Hc; exists L, w, segs, n; split_and!; [done | lia | lia | done | done | done | done].
Qed.

(** The messages a list of completions confirms for a ledger. *)
Definition confirmed (name : string) (cs : list (WriteReq * result ledger_error MessageId))
  : list StoredMessage :=
  omap (fun c => match c.2 with
                 | Ok id => if String.eqb (req_ledger c.1) name
                            then Some (mkStored id (wr_metadata c.1) (wr_payload c.1)) else None
                 | Err _ => None
                 end) cs.

Lemma confirmed_app name cs cs' : confirmed name (cs ++ cs') = confirmed name cs ++ confirmed name cs'.
Proof. apply omap_app. Qed.

Lemma confirmed_failed name reqs e : confirmed name ((fun r => (r, Err e)) <$> reqs) = [].
Proof. induction reqs as [|r reqs IH]; [done |]; exact IH. Qed.

Lemma confirmed_cons_ok name r id cs :
  confirmed name ((r, Ok id) :: cs)
  = (if String.eqb (req_ledger r) name then [mkStored id (wr_metadata r) (wr_payload r)] else [])
    ++ confirmed name cs.
Proof. unfold confirmed; cbn; by destruct (String.eqb (req_ledger r) name). Qed.

Lemma confirmed_zip name reqs new :
  (forall r, r ∈ reqs -> req_ledger r = name) -> msg_item <$> new = req_item <$> reqs ->
  forall b, confirmed b (zip reqs ((fun p => Ok (message_id_of_position p)) <$> (msg_position <$> new)))
            = if String.eqb name b then new else [].
Proof.
  intros Hname Hitems b; revert new Hitems; induction reqs as [|r reqs IH]; intros [|m new] Hitems; try done.
  { by destruct (String.eqb name b). }
  injection Hitems as Hp Hm Hd Hrest; cbn [fmap list_fmap zip zip_with].
  rewrite confirmed_cons_ok, (Hname r) by (by left); unfold msg_position at 1.
  rewrite message_id_position_roundtrip, (IH ltac:(intros x Hx; apply Hname; by right) new Hrest).
  destruct (String.eqb name b); [|done]; by rewrite <- Hm, <- Hd; destruct m.
Qed.

(** A confirmed message has the partition it was published to. *)
Definition keeps_partition (c : WriteReq * result ledger_error MessageId) : Prop :=
  forall id, c.2 = Ok id -> msg_partition id = wr_partition c.1.

Lemma failed_keeps_partition reqs e : Forall keeps_partition ((fun r => (r, Err e)) <$> reqs).
Proof. apply Forall_fmap, Forall_forall; by intros r _ id. Qed.

Lemma zip_keeps_partition reqs new :
  msg_item <$> new = req_item <$> reqs ->
  Forall keeps_partition (zip reqs ((fun p => Ok (message_id_of_position p)) <$> (msg_position <$> new))).
Proof.
  revert new; induction reqs as [|r reqs IH]; intros [|m new] Hitems; try done.
  injection Hitems as Hp _ _ Hrest; cbn; constructor; [|by apply IH].
  intros id [= <-]; unfold msg_position; by rewrite message_id_position_roundtrip.
Qed.

(** What serving requests promises: the world stays consistent, every ledger
    gains exactly the confirmed messages, and each request has one result. *)
Definition reqs_served (ok : Prop) (w : Rocks bytes) (reqs : list WriteReq) (logs : string -> list StoredMessage)
    (n size : Z) (out : list (WriteReq * result ledger_error MessageId) * Rocks bytes) : Prop :=
  let '(cs, w') := out in
  exists segs' n', n <= n' /\ n' <= n + 3 * Z.of_nat (length reqs) /\
    world_wf w' (fun b => logs b ++ confirmed b cs) segs' n' (size + items_size (req_item <$> reqs)) /\
    cs.*1 = reqs /\ (ok -> Forall (fun c => is_ok c.2) cs) /\ world_grows w w' /\ Forall keeps_partition cs.

Lemma run_group_spec io db_ok name reqs w logs segs n size :
  world_wf w logs segs n size -> good name -> reqs <> [] ->
  n + 3 * Z.of_nat (length reqs) <= I64_MAX ->
  size + items_size (req_item <$> reqs) <= I64_MAX ->
  io_clean io -> Forall item_ok (req_item <$> reqs) -> (forall r, r ∈ reqs -> req_ledger r = name) ->
  reqs_served (io.2 = WriteOk /\ db_ok = true) w reqs logs n size (run_group clock io db_ok name reqs w).
Proof.
  intros Hw Hg Hne Hb Hsize Hio Hitems Hname.
  assert (1 <= Z.of_nat (length reqs)) as Hlen by (destruct reqs; [done | cbn; lia]).
  destruct (open_ledger_spec w logs segs n size name Hw Hg ltac:(lia)) as
    (L & w1 & segs1 & n1 & Hopen & Hn1 & Hw1 & Hgrow & Hc & HnL).
  unfold run_group; rewrite Hopen; pose proof Hw1 as [Hst Hnx Hn0 Hled Hbelow _ Hsz].
  destruct (Hled name Hg) as [(_ & ? & _)|(L0 & _ & HL & Hs & Hz & [?|[Hc' Hmax]])]; [congruence | congruence |].
  rewrite Hc in Hc'; injection Hc' as <-.
  pose proof (items_size_nonneg (req_item <$> reqs)).
  destruct (add_entries_spec clock io db_ok (storage w1) n1 L (logs name) (req_item <$> reqs) HL Hst Hio)
    as [Hout Hok]; [split; try done; [|lia] | done |].
  { exists n1; split_and!; [done | done | rewrite length_fmap; lia |].
    apply seg_ids_below; rewrite Hs; by intros k; apply Hbelow. }
  destruct (add_entries clock io db_ok L _ (storage w1)) as [[[ps L']|e] s'].
  - destruct Hout as (Hst' & Hext & n' & Hn' & Hnn & new & Hnew & -> & HL' & Hids & Hnm & Hmx & Hz' & Hframe).
    rewrite length_fmap in Hnn; exists (upd segs1 name (seg_ids (rl_info L'))), n'.
    split; [lia |]; split; [lia |]; split_and!.
    + apply (world_wf_ext _ (upd logs name (logs name ++ new)) (upd segs1 name (seg_ids (rl_info L')))); [|done |].
      { intros b; rewrite (confirmed_zip name) by done; unfold upd.
        destruct (String.eqb_spec b name) as [->|Hbn]; [by rewrite String.eqb_refl |].
        destruct (String.eqb_spec name b); [congruence | by rewrite app_nil_r]. }
      apply (world_step w1 logs segs1 n1 size s' _ name L' (logs name ++ new) n'); try done;
        [lia | lia | congruence | lia | by rewrite Hmx | |].
      * destruct Hids as (fresh & -> & Hf); rewrite Forall_forall in Hf.
        intros k [?|Hin]%elem_of_app; [left; by rewrite <- Hs | right; by apply Hf].
      * intros k Hk1 Hk2 Hk3; apply Hframe; [done | by rewrite HnL |].
        intros m Hm; destruct (lh_msg_ok _ _ _ m HL') as (_ & ? & ?); [apply elem_of_app; by right |].
        apply Hk3; [|done | done]; apply (ledger_holds_seg _ _ _ m HL'), elem_of_app; by right.
    + apply fst_zip; rewrite !length_fmap; apply (f_equal length) in Hnew; rewrite !length_fmap in Hnew; lia.
    + intros _; clear; revert new; induction reqs as [|r reqs IH]; intros [|m new]; cbn; constructor; [by eexists | apply IH].
    + etransitivity; [exact Hgrow |]; apply world_grows_one; [done | |].
      * intros L1; rewrite Hc; intros [= <-]; split; [done |]; destruct Hids as (fresh & -> & _).
        intros k Hk; apply elem_of_app; by left.
      * intros k Hk1 Hk2 Hk3; apply Hframe; [done | by rewrite HnL | intros m _; apply Hk3].
    + by apply zip_keeps_partition.
  - destruct Hout as (Hst' & Hext & n' & Hn' & Hnn & HL' & Hframe).
    rewrite length_fmap in Hnn; exists (upd segs1 name (seg_ids (rl_info L))), n'.
    split; [lia |]; split; [lia |]; split_and!.
    + apply (world_wf_ext _ (upd logs name (logs name)) (upd segs1 name (seg_ids (rl_info L)))); [|done |].
      { intros b; rewrite confirmed_failed, app_nil_r; unfold upd.
        by destruct (String.eqb_spec b name) as [->|]. }
      apply (world_step w1 logs segs1 n1 size s' _ name L (logs name) n'); try done; try lia.
      * by rewrite insert_id.
      * intros k; rewrite Hs; by left.
      * intros k Hk1 _ _; by apply Hframe.
    + rewrite <- list_fmap_compose; apply list_fmap_id.
    + intros [Hw' Hd]; destruct (Hok Hw' Hd) as (? & ?); done.
    + etransitivity; [exact Hgrow |]; split; cbn [ledgers storage]; [by eauto |].
      intros k Hk _ _; by apply Hframe.
    + apply failed_keeps_partition.
Qed.

Lemma items_size_app l k : items_size (l ++ k) = items_size l + items_size k.
Proof. induction l as [|x l IH]; [done |]; cbn [app]; rewrite !items_size_cons, IH; lia. Qed.

Lemma reqs_served_nil (ok : Prop) logs segs n size w :
  world_wf w logs segs n size -> reqs_served ok w [] logs n size ([], w).
Proof.
  intros Hw; exists segs, n; split_and!; [lia | cbn; lia | | done | by constructor | done | constructor].
  cbn; rewrite Z.add_0_r; eapply world_wf_ext, Hw; [|done].
  intros b; by rewrite app_nil_r.
Qed.

(** Serving some requests leaves a world in which the others can be served. *)
Lemma reqs_served_app (ok1 : Prop) w reqs1 logs n size cs1 w1 :
  reqs_served ok1 w reqs1 logs n size (cs1, w1) ->
  exists segs1 n1, n1 <= n + 3 * Z.of_nat (length reqs1) /\
    world_wf w1 (fun b => logs b ++ confirmed b cs1) segs1 n1 (size + items_size (req_item <$> reqs1)) /\
    forall (ok2 ok : Prop) reqs2 out,
      (ok -> ok1 /\ ok2) ->
      reqs_served ok2 w1 reqs2 (fun b => logs b ++ confirmed b cs1) n1
        (size + items_size (req_item <$> reqs1)) out ->
      reqs_served ok w (reqs1 ++ reqs2) logs n size (let '(cs2, w2) := out in (cs1 ++ cs2, w2)).
Proof.
  intros (segs1 & n1 & Hn1 & Hb1 & Hw1 & Hr1 & Ho1 & Hg1 & Hp1); exists segs1, n1; split_and!; [done | done |].
  intros ok2 ok reqs2 [cs2 w2] Hok (segs2 & n2 & Hn2 & Hb2 & Hw2 & Hr2 & Ho2 & Hg2 & Hp2).
  exists segs2, n2; rewrite length_app, fmap_app, items_size_app; split_and!; [lia | lia | | | | |].
  - rewrite Z.add_assoc; eapply world_wf_ext, Hw2; [|done].
    intros b; by rewrite confirmed_app, (assoc_L (++)).
  - by rewrite fmap_app, Hr1, Hr2.
  - intros [? ?]%Hok; apply Forall_app; auto.
  - by etransitivity.
  - by apply Forall_app.
Qed.

Definition group_reqs (groups : list (string * list WriteReq)) : list WriteReq := groups ≫= snd.

Lemma run_groups_spec env round k groups w logs segs n size :
  world_wf w logs segs n size ->
  n + 3 * Z.of_nat (length (group_reqs groups)) <= I64_MAX ->
  size + items_size (req_item <$> group_reqs groups) <= I64_MAX ->
  (forall k, io_clean (group_io env round k)) ->
  Forall item_ok (req_item <$> group_reqs groups) ->
  (forall name reqs, (name, reqs) ∈ groups ->
     good name /\ reqs <> [] /\ forall r, r ∈ reqs -> req_ledger r = name) ->
  reqs_served (forall k, (group_io env round k).2 = WriteOk /\ group_db env round k = true)
    w (group_reqs groups) logs n size (run_groups clock env round k groups w).
Proof.
  intros Hw Hn Hs Hio; revert k w logs segs n size Hw Hn Hs.
  induction groups as [|[name reqs] groups IH]; intros k w logs segs n size Hw Hn Hs Hitems Hgr;
    cbn [run_groups]; [by eapply reqs_served_nil |].
  unfold group_reqs in *; rewrite bind_cons in *; cbn [snd] in *.
  rewrite fmap_app, Forall_app in Hitems; destruct Hitems as [Hi1 Hi2].
  rewrite length_app in Hn; rewrite fmap_app, items_size_app in Hs.
  pose proof (items_size_nonneg (req_item <$> reqs)).
  pose proof (items_size_nonneg (req_item <$> (groups ≫= snd))).
  destruct (Hgr name reqs ltac:(by left)) as (Hg & Hne & Hnm).
  pose proof (run_group_spec (group_io env round k) (group_db env round k) name reqs w logs segs n size
                Hw Hg Hne ltac:(lia) ltac:(lia) (Hio k) Hi1 Hnm) as Hg1.
  destruct (run_group clock _ _ name reqs w) as [cs1 w1].
  destruct (reqs_served_app _ _ _ _ _ _ _ _ Hg1) as (segs1 & n1 & Hn1 & Hw1 & Happ).
  eapply Happ; [|eapply IH; [done | lia | lia | done |]].
  - intros Hok; split; [apply Hok | exact Hok].
  - intros nm rs Hin; apply Hgr; by right.
Qed.

(** Requests that agree for every ledger are a permutation of each other. *)
Lemma for_ledger_cons_inv name r rest k :
  for_ledger name k = r :: rest ->
  exists k1 k2, k = k1 ++ r :: k2 /\ for_ledger name k1 = [] /\ for_ledger name k2 = rest.
Proof.
  unfold for_ledger; induction k as [|x k IH]; [done |]; rewrite filter_cons; case_decide as Hx.
  - intros [= -> <-]; by exists [], k.
  - intros (k1 & k2 & -> & E1 & E2)%IH; exists (x :: k1), k2; split_and!; [done | | done].
    by rewrite filter_cons_False.
Qed.

Lemma for_ledger_perm l k : (forall name, for_ledger name l = for_ledger name k) -> l ≡ₚ k.
Proof.
  revert k; induction l as [|r l IH]; intros k Hall.
  - destruct k as [|x k]; [done |]; specialize (Hall (req_ledger x)); unfold for_ledger in Hall.
    by rewrite filter_cons_True in Hall.
  - pose proof (Hall (req_ledger r)) as Hr; unfold for_ledger at 1 in Hr.
    rewrite filter_cons_True in Hr by done; symmetry in Hr.
    apply for_ledger_cons_inv in Hr as (k1 & k2 & -> & E1 & E2).
    rewrite <- Permutation_middle; constructor; apply IH; intros name.
    specialize (Hall name); rewrite !for_ledger_app in *.
    destruct (decide (req_ledger r = name)) as [<-|Hne].
    + by rewrite E1, E2.
    + rewrite !for_ledger_cons_other in Hall by done; exact Hall.
Qed.

Lemma for_ledger_group name reqs batch :
  reqs = for_ledger name batch -> for_ledger name reqs = reqs /\
  forall b, b <> name -> for_ledger b reqs = [].
Proof.
  intros ->; unfold for_ledger; split.
  - apply list_filter_id; by intros r [? _]%list_elem_of_filter.
  - intros b Hb; apply list_filter_none; intros r [? _]%list_elem_of_filter; congruence.
Qed.

Lemma groups_for_ledger batch groups name :
  (forall n reqs, (n, reqs) ∈ groups -> reqs = for_ledger n batch) -> NoDup groups.*1 ->
  for_ledger name (group_reqs groups) = if decide (name ∈ groups.*1) then for_ledger name batch else [].
Proof.
  intros Hg Hnd; unfold group_reqs; induction groups as [|[n reqs] groups IH]; [done |].
  rewrite bind_cons, for_ledger_app; cbn [snd fst fmap list_fmap] in *; apply NoDup_cons in Hnd as [Hn Hnd].
  destruct (for_ledger_group n reqs batch (Hg n reqs ltac:(by left))) as [Hsame Hother].
  rewrite IH by (done || intros m rs Hin; apply Hg; by right).
  destruct (decide (name = n)) as [->|Hne].
  - rewrite (decide_False (P := n ∈ groups.*1)), (decide_True (P := n ∈ n :: groups.*1)) by (done || by left).
    by rewrite app_nil_r, Hsame, <- (Hg n reqs) by (by left).
  - rewrite Hother by done; destruct (decide (name ∈ groups.*1)).
    + by rewrite decide_True by (by right).
    + rewrite decide_False; [done |]; by intros [?|?]%elem_of_cons.
Qed.

Lemma group_reqs_for_ledger batch name :
  for_ledger name (group_reqs (group_by_ledger batch)) = for_ledger name batch.
Proof.
  destruct (group_by_ledger_spec batch) as [Hgroup Hnd Hall].
  rewrite (groups_for_ledger batch) by (done || intros n reqs Hin; by apply Hgroup).
  case_decide as Hin; [done |]; unfold for_ledger; symmetry; apply list_filter_none.
  intros r Hr E; apply Hin; rewrite <- E; by apply Hall.
Qed.

Lemma items_size_perm l k : l ≡ₚ k -> items_size l = items_size k.
Proof. induction 1; rewrite ?items_size_cons; lia. Qed.

Lemma group_by_ledger_good batch name reqs :
  Forall (fun r => good (req_ledger r)) batch -> (name, reqs) ∈ group_by_ledger batch ->
  good name /\ reqs <> [] /\ forall r, r ∈ reqs -> req_ledger r = name.
Proof.
  rewrite Forall_forall; intros Hg Hin; destruct (group_by_ledger_spec batch) as [Hgr _ _].
  destruct (Hgr _ _ Hin) as [-> Hne].
  assert (forall r, r ∈ for_ledger name batch -> req_ledger r = name /\ r ∈ batch) as Hr
    by (by intros r [? ?]%list_elem_of_filter).
  split_and!; [|done | intros r ?; by apply Hr].
  destruct (for_ledger name batch) as [|r reqs]; [done |].
  destruct (Hr r ltac:(by left)) as [<- ?]; by apply Hg.
Qed.

(** The worker's promise, with the requests in the order of completion. *)
Definition queue_done (ok : Prop) (w : Rocks bytes) (queue : list WriteReq) (logs : string -> list StoredMessage)
    (n size : Z) (out : list (WriteReq * result ledger_error MessageId) * Rocks bytes) : Prop :=
  exists reqs, (forall name, for_ledger name reqs = for_ledger name queue) /\
    reqs_served ok w reqs logs n size out.

Lemma worker_loop_spec fuel env round queue w logs segs n size :
  (length queue <= fuel)%nat -> world_wf w logs segs n size ->
  n + 3 * Z.of_nat (length queue) <= I64_MAX ->
  size + items_size (req_item <$> queue) <= I64_MAX ->
  (forall r k, io_clean (group_io env r k)) -> Forall item_ok (req_item <$> queue) ->
  Forall (fun r => good (req_ledger r)) queue ->
  queue_done (forall r k, (group_io env r k).2 = WriteOk /\ group_db env r k = true)
    w queue logs n size (worker_loop clock fuel env round queue w).
Proof.
  intros Hfuel Hw Hn Hs Hio; revert round queue w logs segs n size Hfuel Hw Hn Hs.
  induction fuel as [|fuel IH]; intros round queue w logs segs n size Hfuel Hw Hn Hs Hitems Hgood;
    (destruct queue as [|r0 queue0]; [exists []; split; [done | by eapply reqs_served_nil] |]).
  { cbn in Hfuel; lia. }
  cbn [worker_loop]; unfold take_batch.
  set (q := r0 :: queue0) in *; set (c := Nat.min QUEUE_MAX_BATCH (S (batch_window env round))).
  assert (q = take c q ++ drop c q) as Hq by by rewrite take_drop.
  assert (length (drop c q) <= fuel)%nat as Hlen.
  { rewrite length_drop; unfold q, c, QUEUE_MAX_BATCH in *; cbn in *; lia. }
  pose proof (for_ledger_perm _ _ (group_reqs_for_ledger (take c q))) as Hperm.
  rewrite Hq in Hn, Hs, Hitems, Hgood; apply Forall_app in Hgood as [Hg1 Hg2]; rewrite length_app in Hn; rewrite fmap_app, items_size_app in Hs.
  rewrite fmap_app, Forall_app in Hitems; destruct Hitems as [Hi1 Hi2].
  pose proof (items_size_nonneg (req_item <$> drop c q)).
  pose proof (items_size_perm _ _ (fmap_Permutation req_item _ _ Hperm)) as Hsz.
  pose proof (Permutation_length Hperm) as Hpl.
  assert (forall name reqs, (name, reqs) ∈ group_by_ledger (take c q) ->
            good name /\ reqs <> [] /\ forall r, r ∈ reqs -> req_ledger r = name) as Hgr
    by (intros name reqs; by apply group_by_ledger_good).
  pose proof (run_groups_spec env round 0 (group_by_ledger (take c q)) w logs segs n size Hw
                ltac:(lia) ltac:(lia) (Hio round) ltac:(by rewrite Hperm) Hgr) as Hg.
  destruct (run_groups clock env round 0 _ w) as [cs1 w1].
  destruct (reqs_served_app _ _ _ _ _ _ _ _ Hg) as (segs1 & n1 & Hn1 & Hw1 & Happ).
  destruct (IH (S round) (drop c q) w1 _ segs1 n1 _ Hlen Hw1 ltac:(lia) ltac:(lia) Hi2 Hg2)
    as (reqs2 & Hr2 & Hserved).
  exists (group_reqs (group_by_ledger (take c q)) ++ reqs2); split.
  - intros name; rewrite for_ledger_app, group_reqs_for_ledger, Hr2, <- for_ledger_app.
    by rewrite take_drop.
  - eapply Happ; [|exact Hserved]; intros Hok; split; [intros k; apply Hok | exact Hok].
Qed.
End world.

(** ** Every request is completed

    Whatever the state of the store and its answers. *)

Section completions.
Context {bytes : Type} `{DbCodec bytes} (clock : Z -> Z).

Lemma mbind_ok {A B} (m : storage_op bytes A) (k : A -> storage_op bytes B) s b s' :
  mbind' m k s = (Ok b, s') -> exists a s1, m s = (Ok a, s1) /\ k a s1 = (Ok b, s').
Proof. unfold mbind'; destruct (m s) as [[a|e] s1]; [eauto | done]. Qed.

Lemma roll_if_full_count max a (s : Storage bytes) a' s' :
  roll_if_full clock max a s = (Ok a', s') -> as_positions a' = as_positions a.
Proof.
  unfold roll_if_full; destruct (_ <=? _); [|by intros [= <- _]].
  by intros (id & s1 & _ & [= <- _])%mbind_ok.
Qed.

Lemma assign_item_count max item a (s : Storage bytes) a' s' :
  assign_item clock max item a s = (Ok a', s') -> length (as_positions a') = S (length (as_positions a)).
Proof.
  destruct item as [[part meta] data]; intros (a1 & s1 & E1%roll_if_full_count & E2)%mbind_ok.
  destruct (info_ledgers (as_info a1)); [done |].
  apply mbind_ok in E2 as (a2 & s2 & E2%roll_if_full_count & [= <- _]); cbn in *.
  rewrite length_app, E2, E1; cbn; lia.
Qed.

Lemma assign_items_count max items a (s : Storage bytes) a' s' :
  assign_items clock max items a s = (Ok a', s') ->
  length (as_positions a') = (length (as_positions a) + length items)%nat.
Proof.
  revert a s; induction items as [|item items IH]; intros a s; cbn [assign_items length]; [intros [= <- _]; lia |].
  intros (a1 & s1 & E1%assign_item_count & E2%IH)%mbind_ok; lia.
Qed.

Lemma add_entries_count io db_ok L items (s : Storage bytes) ps L' s' :
  add_entries clock io db_ok L items s = (Ok (ps, L'), s') -> length ps = length items.
Proof.
  unfold add_entries; destruct items as [|item items]; [by intros [= <- _ _] |].
  intros (a & s1 & E1%assign_items_count & (ixs & s2 & E2 & E3)%mbind_ok)%mbind_ok.
  destruct (negb _); [done |]; by apply mbind_ok in E3 as (u & s3 & _ & [= <- _ _]).
Qed.

Lemma run_group_requests io db_ok name reqs (w : Rocks bytes) : (run_group clock io db_ok name reqs w).1.*1 = reqs.
Proof.
  assert (forall e, ((fun r => (r, Err (A := MessageId) (E := ledger_error) e)) <$> reqs).*1 = reqs) as Hfail
    by (intros e; rewrite <- list_fmap_compose; apply list_fmap_id).
  unfold run_group; destruct (open_ledger clock name w) as [[L|e] w1]; [|apply Hfail].
  destruct (add_entries clock io db_ok L _ _) as [[[ps L']|e] s] eqn:E; [|apply Hfail].
  apply add_entries_count in E; rewrite length_fmap in E; apply fst_zip; rewrite length_fmap; lia.
Qed.

Lemma run_groups_requests env round k groups (w : Rocks bytes) :
  (run_groups clock env round k groups w).1.*1 = group_reqs groups.
Proof.
  revert k w; induction groups as [|[name reqs] groups IH]; intros k w; [done |]; cbn [run_groups].
  pose proof (run_group_requests (group_io env round k) (group_db env round k) name reqs w) as Hr.
  destruct (run_group clock _ _ name reqs w) as [cs w1]; specialize (IH (S k) w1).
  destruct (run_groups clock env round (S k) groups w1) as [cs' w2]; cbn in *; by rewrite fmap_app, Hr, IH.
Qed.

Lemma batch_completed env round k batch (w : Rocks bytes) :
  (run_groups clock env round k (group_by_ledger batch) w).1.*1 ≡ₚ batch.
Proof. rewrite run_groups_requests; apply for_ledger_perm, group_reqs_for_ledger. Qed.
End completions.

(** ** Properties *)

(** C21: The write queue serves all topics of a store: however requests are
    drained into batches, and whichever appends fail, every request is completed
    once, in its queue order within its ledger, and each ledger gains exactly
    the messages its completions confirm, in that order and under the ids they
    report; the messages of the other topics are untouched.  When no append
    fails every request succeeds.  [good] are the names of the ledgers looked at,
    those of the requests among them. *)
Theorem write_queue_appends_in_order {bytes : Type} `{DbCodec bytes, !DbCodecLaws bytes}
    (clock : Z -> Z) (env : worker_env) (queue : list WriteReq) (w w' : Rocks bytes)
    (good : string -> Prop) (logs : string -> list StoredMessage) (segs : string -> list Z) (n size : Z)
    (cs : list (WriteReq * result ledger_error MessageId)) :
  world_wf good w logs segs n size -> Forall (fun r => good (req_ledger r)) queue ->
  (forall k, i64_range (clock k)) ->
  n + 3 * Z.of_nat (length queue) <= I64_MAX ->
  size + items_size (req_item <$> queue) <= I64_MAX ->
  (forall r k, io_clean (group_io env r k)) -> Forall item_ok (req_item <$> queue) ->
  worker_loop clock (length queue) env 0 queue w = (cs, w') ->
  cs.*1 ≡ₚ queue /\ (forall name, for_ledger name cs.*1 = for_ledger name queue) /\
  (exists segs' n' size', world_wf good w' (fun b => logs b ++ confirmed b cs) segs' n' size') /\
  ((forall r k, (group_io env r k).2 = WriteOk /\ group_db env r k = true) ->
   Forall (fun c => is_ok c.2) cs).
Proof.
  intros Hw Hgood Hclock Hn Hs Hio Hitems E.
  destruct (worker_loop_spec good clock Hclock (length queue) env 0 queue w logs segs n size
              ltac:(lia) Hw Hn Hs Hio Hitems Hgood) as (reqs & Hreqs & Hserved); rewrite E in Hserved.
  destruct Hserved as (segs' & n' & _ & _ & Hw' & Hcs & Hok & _); rewrite Hcs.
  split_and!; [by apply for_ledger_perm | done | eauto | done].
Qed.

Definition empty_rocks : Rocks plain := mkRocks empty_storage ∅.

Lemma empty_rocks_wf good : world_wf good empty_rocks (fun _ => []) (fun _ => []) 0 0.
Proof.
  split; [exact example_log_wf | done | done | | | | done].
  - intros name _; by left.
  - by intros name k _ ?%elem_of_nil.
  - by intros a b k _ _ ?%elem_of_nil.
Qed.

Definition calm_env : worker_env :=
  mkWorkerEnv (fun _ => 1%nat) (fun _ _ => (true, WriteOk)) (fun _ _ => true).

Definition three_requests : list WriteReq :=
  [ mkReq "persistent://t/n/a" (-1) [1] [2] (Conn 7 0 "conn"); mkReq "persistent://t/n/b" (-1) [] [3] (Conn 8 0 "conn");
    mkReq "persistent://t/n/a" (-1) [] [4] (Conn 7 1 "conn") ].

Lemma three_requests_ok : Forall item_ok (req_item <$> three_requests).
Proof. repeat constructor; cbn; mlia. Qed.

Lemma write_queue_appends_in_order_witness :
  (worker_loop (fun _ => 0) 3 calm_env 0 three_requests empty_rocks).1.*1 ≡ₚ three_requests.
Proof.
  destruct (write_queue_appends_in_order (fun _ => 0) calm_env three_requests empty_rocks
              (worker_loop (fun _ => 0) 3 calm_env 0 three_requests empty_rocks).2
              (fun _ => True) (fun _ => []) (fun _ => []) 0 0
              (worker_loop (fun _ => 0) 3 calm_env 0 three_requests empty_rocks).1
              (empty_rocks_wf _)) as (Hperm & _).
  - by apply Forall_forall.
  - intros k; vm_compute; split; congruence.
  - vm_compute; congruence.
  - vm_compute; congruence.
  - intros r k; split; [reflexivity | left; reflexivity].
  - exact three_requests_ok.
  - apply surjective_pairing.
  - exact Hperm.
Defined.
