(* ===== verification/MessageMap.v ===== *)
(** * Ordered maps keyed by message ids

    The broker keeps unacknowledged messages and the redelivery queue in
    [BTreeMap<MessageId, _>].  The map is a [gmap]; iteration is in the order
    of the keys, the derived [Ord] of [MessageId]. *)

From stdpp Require Import sorting.
From S2P Require Import Prelude Position.

Definition message_id_cmp (a b : MessageId) : comparison :=
  position_cmp (position_of_message_id a) (position_of_message_id b).

Definition message_id_le (a b : MessageId) : Prop := message_id_cmp a b <> Gt.

#[global] Instance message_id_le_dec : RelDecision message_id_le.
Proof. intros a b; unfold message_id_le; solve_decision. Defined.

(** The lexicographic order, spelled out. *)
Lemma message_id_le_lex a b :
  message_id_le a b <->
  ledger a < ledger b \/ ledger a = ledger b /\
    (entry a < entry b \/ entry a = entry b /\ msg_partition a <= msg_partition b).
Proof.
  unfold message_id_le, message_id_cmp, position_cmp; cbn.
  destruct (Z.compare_spec (ledger a) (ledger b)), (Z.compare_spec (entry a) (entry b)),
    (Z.compare_spec (msg_partition a) (msg_partition b));
    split; first [done | lia | intros; lia | intros ?; exfalso; lia].
Qed.

#[global] Instance message_id_le_total : Total message_id_le.
Proof. intros a b; rewrite !message_id_le_lex; lia. Qed.

#[global] Instance message_id_le_trans : Transitive message_id_le.
Proof. intros a b c; rewrite !message_id_le_lex; lia. Qed.

#[global] Instance message_id_le_antisymm : AntiSymm eq message_id_le.
Proof.
  intros [l e p] [l' e' p']; rewrite !message_id_le_lex; cbn; intros.
  assert (l = l' /\ e = e' /\ p = p') as (-> & -> & ->); [lia | done].
Qed.

Section entries.
Context {A : Type}.
Implicit Types (m : gmap MessageId A).

Definition key_le (x y : MessageId * A) : Prop := message_id_le x.1 y.1.

#[global] Instance key_le_dec : RelDecision key_le.
Proof. intros x y; unfold key_le; apply _. Defined.

#[global] Instance key_le_total : Total key_le.
Proof. intros x y; apply message_id_le_total. Qed.

#[global] Instance key_le_trans : Transitive key_le.
Proof. intros x y z; apply message_id_le_trans. Qed.

(** [iter()] *)
Definition btree_entries m : list (MessageId * A) := merge_sort key_le (map_to_list m).

(** [keys()] *)
Definition btree_keys m : list MessageId := (btree_entries m).*1.

(** [pop_first()] *)
Definition btree_pop_first m : option (MessageId * A * gmap MessageId A) :=
  match btree_entries m with
  | [] => None
  | (k, v) :: _ => Some (k, v, delete k m)
  end.

Lemma btree_entries_perm m : btree_entries m ≡ₚ map_to_list m.
Proof. apply merge_sort_Permutation. Qed.

Lemma elem_of_btree_entries m k v : (k, v) ∈ btree_entries m <-> m !! k = Some v.
Proof. rewrite btree_entries_perm; apply elem_of_map_to_list. Qed.

Lemma elem_of_btree_keys m k : k ∈ btree_keys m <-> is_Some (m !! k).
Proof.
  unfold btree_keys; rewrite list_elem_of_fmap; split.
  - intros ([k' v] & -> & ?%elem_of_btree_entries); by exists v.
  - intros [v Hv]; exists (k, v); by rewrite elem_of_btree_entries.
Qed.

Lemma btree_entries_NoDup m : NoDup (btree_entries m).*1.
Proof. rewrite btree_entries_perm; apply NoDup_fst_map_to_list. Qed.

Lemma btree_entries_sorted m : StronglySorted key_le (btree_entries m).
Proof. apply Sorted_StronglySorted; [apply key_le_trans | apply (Sorted_merge_sort key_le)]. Qed.

(** The first entry has the least key. *)
Lemma btree_pop_first_spec m :
  match btree_pop_first m with
  | Some (k, v, m') =>
      m !! k = Some v /\ m' = delete k m /\ (forall j, is_Some (m !! j) -> message_id_le k j)
  | None => m = ∅
  end.
Proof.
  unfold btree_pop_first; pose proof (btree_entries_sorted m) as Hs.
  destruct (btree_entries m) as [|[k v] l] eqn:E.
  - apply map_to_list_empty_iff, Permutation_nil_r; by rewrite <- (btree_entries_perm m), E.
  - split_and!; [apply elem_of_btree_entries; rewrite E; by left | done |].
    intros j [w Hw]; apply elem_of_btree_entries in Hw; rewrite E in Hw.
    apply StronglySorted_inv in Hs as [_ Hall]; rewrite Forall_forall in Hall.
    apply elem_of_cons in Hw as [[= <- _]|Hw].
    + destruct (message_id_le_total j j); done.
    + apply (Hall _ Hw).
Qed.
End entries.

(** ** Counting the values of a map *)

Section counting.
Context `{Countable K} {A : Type}.
Implicit Types (m : gmap K A) (f : A -> bool).

Definition count_values f m : nat := length (filter (fun kv => f kv.2 = true) (map_to_list m)).

Definition one (b : bool) : nat := if b then 1%nat else 0%nat.

Lemma count_values_empty f : count_values f ∅ = 0%nat.
Proof. unfold count_values; by rewrite map_to_list_empty. Qed.

Lemma count_values_insert f m k v :
  m !! k = None -> count_values f (<[k := v]> m) = (one (f v) + count_values f m)%nat.
Proof.
  intros Hk; unfold count_values; rewrite map_to_list_insert by done.
  rewrite filter_cons; destruct (decide _) as [Hf|Hf]; cbn in *; unfold one.
  - by rewrite Hf.
  - by rewrite (not_true_is_false _ Hf).
Qed.

Lemma count_values_delete f m k v :
  m !! k = Some v -> count_values f m = (one (f v) + count_values f (delete k m))%nat.
Proof.
  intros Hk; rewrite <- (insert_delete_id m k v Hk) at 1.
  by rewrite count_values_insert by apply lookup_delete_eq.
Qed.

Lemma count_values_pos f m :
  (0 < count_values f m)%nat <-> exists k v, m !! k = Some v /\ f v = true.
Proof.
  unfold count_values; split.
  - destruct (filter _ _) as [|[k v] l] eqn:E; cbn; [lia |]; intros _; exists k, v.
    assert ((k, v) ∈ filter (fun kv => f kv.2 = true) (map_to_list m)) as Hin by (rewrite E; by left).
    apply list_elem_of_filter in Hin as [? ?%elem_of_map_to_list]; done.
  - intros (k & v & Hm & Hf); destruct (filter _ _) as [|x l] eqn:E; cbn; [|lia].
    assert ((k, v) ∈ filter (fun kv => f kv.2 = true) (map_to_list m)) as Hin
      by (apply list_elem_of_filter; by rewrite elem_of_map_to_list).
    rewrite E in Hin; by apply elem_of_nil in Hin.
Qed.
End counting.
