(* ===== verification/Redelivery.v ===== *)
(** * The redelivery controller

    [broker/dispatcher/redelivery_controller.rs]: the queue of messages to
    deliver again, ordered by message id, and for key-shared subscriptions the
    number of queued or redelivered messages per sticky key hash, which blocks
    new messages of the same hash. *)

From S2P Require Import Prelude Position MessageMap.

Record RedeliveryEntry := mkRedelivery {
  re_message_id : MessageId;
  redelivery_count : Z;
  sticky_key_hash : option Z;
}.

Record RedeliveryController := mkController {
  entries : gmap MessageId RedeliveryEntry;
  in_flight_hashes : gmap MessageId Z;
  blocked_hashes : gmap Z nat;
  block_hashes : bool;
}.

Definition controller_new (block : bool) : RedeliveryController := mkController ∅ ∅ ∅ block.

Definition set_entries (c : RedeliveryController) es :=
  mkController es (in_flight_hashes c) (blocked_hashes c) (block_hashes c).
Definition set_in_flight (c : RedeliveryController) fl :=
  mkController (entries c) fl (blocked_hashes c) (block_hashes c).
Definition set_blocked (c : RedeliveryController) bl :=
  mkController (entries c) (in_flight_hashes c) bl (block_hashes c).

Definition increment_hash (h : option Z) (c : RedeliveryController) : RedeliveryController :=
  if negb (block_hashes c) then c
  else
    match h with
    | Some h => set_blocked c (<[h := S (default 0%nat (blocked_hashes c !! h))]> (blocked_hashes c))
    | None => c
    end.

Definition decrement_hash (h : option Z) (c : RedeliveryController) : RedeliveryController :=
  if negb (block_hashes c) then c
  else
    match h with
    | None => c
    | Some h =>
        match blocked_hashes c !! h with
        | None => c
        | Some count =>
            let count := pred count in
            if (count =? 0)%nat then set_blocked c (delete h (blocked_hashes c))
            else set_blocked c (<[h := count]> (blocked_hashes c))
        end
    end.

Definition release_in_flight_hash (m : MessageId) (c : RedeliveryController)
  : RedeliveryController :=
  match in_flight_hashes c !! m with
  | None => c
  | Some h => decrement_hash (Some h) (set_in_flight c (delete m (in_flight_hashes c)))
  end.

Definition add (e : RedeliveryEntry) (c : RedeliveryController) : RedeliveryController :=
  match entries c !! re_message_id e with
  | Some existing =>
      let count := Z.max (redelivery_count existing) (redelivery_count e) in
      match sticky_key_hash existing with
      | None =>
          increment_hash (sticky_key_hash e)
            (set_entries c (<[re_message_id e :=
               mkRedelivery (re_message_id existing) count (sticky_key_hash e)]> (entries c)))
      | Some h =>
          set_entries c (<[re_message_id e :=
            mkRedelivery (re_message_id existing) count (Some h)]> (entries c))
      end
  | None =>
      let c := increment_hash (sticky_key_hash e) c in
      set_entries c (<[re_message_id e := e]> (entries c))
  end.

Definition pop_next (c : RedeliveryController)
  : option RedeliveryEntry * RedeliveryController :=
  match btree_pop_first (entries c) with
  | None => (None, c)
  | Some (_, e, es) => (Some e, decrement_hash (sticky_key_hash e) (set_entries c es))
  end.

Definition take_for_delivery_with_hash (m : MessageId) (h : option Z) (c : RedeliveryController)
  : option RedeliveryEntry * RedeliveryController :=
  match entries c !! m with
  | None => (None, c)
  | Some e =>
      let c := set_entries c (delete m (entries c)) in
      let supplied := bool_decide (sticky_key_hash e = None) && bool_decide (h <> None) in
      let e := if supplied then mkRedelivery (re_message_id e) (redelivery_count e) h else e in
      let c :=
        if block_hashes c then
          match sticky_key_hash e with
          | Some h =>
              let c := if supplied then increment_hash (Some h) c else c in
              set_in_flight c (<[re_message_id e := h]> (in_flight_hashes c))
          | None => c
          end
        else decrement_hash (sticky_key_hash e) c in
      (Some e, c)
  end.

Definition take_for_delivery (m : MessageId) (c : RedeliveryController) :=
  take_for_delivery_with_hash m None c.

Definition restore (e : RedeliveryEntry) (c : RedeliveryController) : RedeliveryController :=
  add e (release_in_flight_hash (re_message_id e) c).

Definition remove (m : MessageId) (c : RedeliveryController)
  : option RedeliveryEntry * RedeliveryController :=
  let c := release_in_flight_hash m c in
  match entries c !! m with
  | None => (None, c)
  | Some e => (Some e, decrement_hash (sticky_key_hash e) (set_entries c (delete m (entries c))))
  end.

Definition queued_entries (c : RedeliveryController) : list RedeliveryEntry :=
  (btree_entries (entries c)).*2.

Definition queued_message_ids (c : RedeliveryController) : list MessageId :=
  btree_keys (entries c).

Definition is_hash_blocked (h : Z) (c : RedeliveryController) : bool :=
  bool_decide (is_Some (blocked_hashes c !! h)).

Definition has_in_flight_hash (h : Z) (c : RedeliveryController) : bool :=
  existsb (fun h' => h' =? h) (map_to_list (in_flight_hashes c)).*2.

Definition clear (c : RedeliveryController) : RedeliveryController :=
  mkController ∅ ∅ ∅ (block_hashes c).

(** ** Accounting of the hashes *)

Definition with_hash (h : Z) (e : RedeliveryEntry) : bool :=
  bool_decide (sticky_key_hash e = Some h).

Definition queued_with (c : RedeliveryController) (h : Z) : nat :=
  count_values (with_hash h) (entries c).
Definition in_flight_with (c : RedeliveryController) (h : Z) : nat :=
  count_values (fun v => bool_decide (Some v = Some h)) (in_flight_hashes c).

(** Entries are filed under their id; the counter of a hash is the number of
    queued and of in-flight messages with it, and is absent when that is zero. *)
Record controller_wf (c : RedeliveryController) : Prop := {
  cw_ids : forall m e, entries c !! m = Some e -> re_message_id e = m;
  cw_blocked : block_hashes c = true -> forall h,
    blocked_hashes c !! h =
    match (queued_with c h + in_flight_with c h)%nat with O => None | n => Some n end;
  cw_open : block_hashes c = false -> in_flight_hashes c = ∅ /\ blocked_hashes c = ∅;
}.

(** ** Raising and lowering the counters *)

Definition counts (c : RedeliveryController) (n : Z -> nat) : Prop :=
  forall h, blocked_hashes c !! h = match n h with O => None | k => Some k end.

(** What one message with hash [o] adds to the counter of [h]. *)
Definition hash_one (o : option Z) (h : Z) : nat := one (bool_decide (o = Some h)).

Lemma increment_hash_counts c n o :
  block_hashes c = true -> counts c n ->
  counts (increment_hash o c) (fun h => hash_one o h + n h)%nat.
Proof.
  intros Hb Hc h; unfold increment_hash, hash_one; rewrite Hb; cbn [negb].
  destruct o as [o|]; [|by rewrite bool_decide_false].
  cbn [blocked_hashes set_blocked]; rewrite lookup_insert, Hc; case_decide as E; [subst o|].
  - rewrite bool_decide_true by done; cbn; by destruct (n h).
  - rewrite bool_decide_false by congruence; apply Hc.
Qed.

Lemma decrement_hash_counts c n o :
  block_hashes c = true -> counts c (fun h => hash_one o h + n h)%nat ->
  counts (decrement_hash o c) n.
Proof.
  intros Hb Hc h; unfold decrement_hash; rewrite Hb; cbn [negb]; unfold counts, hash_one in Hc.
  destruct o as [o|]; [|by specialize (Hc h); rewrite bool_decide_false in Hc].
  pose proof (Hc o) as Hh; rewrite bool_decide_true in Hh by done; cbn in Hh; rewrite Hh; cbn [pred].
  specialize (Hc h); destruct (decide (o = h)) as [->|Hne].
  - destruct (n h); cbn [Nat.eqb]; [apply lookup_delete_eq | apply lookup_insert_eq].
  - rewrite bool_decide_false in Hc by congruence.
    destruct (n o); cbn [Nat.eqb blocked_hashes set_blocked];
      rewrite ?lookup_delete_ne, ?lookup_insert_ne by done; done.
Qed.

Lemma increment_hash_fields h c :
  entries (increment_hash h c) = entries c /\
  in_flight_hashes (increment_hash h c) = in_flight_hashes c /\
  block_hashes (increment_hash h c) = block_hashes c /\
  (block_hashes c = false -> increment_hash h c = c).
Proof. unfold increment_hash; destruct (block_hashes c) eqn:E, h; cbn; by rewrite ?E. Qed.

Lemma decrement_hash_fields h c :
  entries (decrement_hash h c) = entries c /\
  in_flight_hashes (decrement_hash h c) = in_flight_hashes c /\
  block_hashes (decrement_hash h c) = block_hashes c /\
  (block_hashes c = false -> decrement_hash h c = c).
Proof.
  unfold decrement_hash; destruct (block_hashes c) eqn:E, h as [h|]; cbn; rewrite ?E; try done.
  destruct (blocked_hashes c !! h) as [n|]; [|done]; by destruct (pred n).
Qed.

(** The invariant of a controller whose queue and in-flight map are given. *)
Lemma controller_wf_intro c es fl :
  entries c = es -> in_flight_hashes c = fl ->
  (forall m e, es !! m = Some e -> re_message_id e = m) ->
  (block_hashes c = true -> counts c (fun h =>
     count_values (with_hash h) es + count_values (fun v => bool_decide (Some v = Some h)) fl)%nat) ->
  (block_hashes c = false -> fl = ∅ /\ blocked_hashes c = ∅) -> controller_wf c.
Proof. intros <- <-; by split. Qed.

Lemma controller_new_wf b : controller_wf (controller_new b).
Proof. split; done. Qed.

Lemma release_in_flight_hash_spec m c :
  controller_wf c ->
  controller_wf (release_in_flight_hash m c) /\
  entries (release_in_flight_hash m c) = entries c /\
  in_flight_hashes (release_in_flight_hash m c) = delete m (in_flight_hashes c) /\
  block_hashes (release_in_flight_hash m c) = block_hashes c.
Proof.
  intros Hc; unfold release_in_flight_hash.
  destruct (in_flight_hashes c !! m) as [h|] eqn:E;
    [|by rewrite delete_id].
  destruct (decrement_hash_fields (Some h) (set_in_flight c (delete m (in_flight_hashes c))))
    as (He & Hf & Hb & Hid); rewrite He, Hf, Hb; split_and!; try done.
  eapply controller_wf_intro; [exact He | exact Hf | apply Hc | |].
  - rewrite Hb; intros Hbl; apply decrement_hash_counts; [done |].
    intros h'; cbn [blocked_hashes set_in_flight entries].
    rewrite (cw_blocked _ Hc Hbl h'); unfold queued_with, in_flight_with, hash_one.
    rewrite (count_values_delete _ (in_flight_hashes c) _ _ E).
    set (a := one _); set (x := count_values _ _); set (y := count_values _ _).
    by replace (x + (a + y))%nat with (a + (x + y))%nat by lia.
  - rewrite Hb; intros Hbl; destruct (cw_open _ Hc Hbl) as [Hfl _].
    by rewrite Hfl, lookup_empty in E.
Qed.

(** ** The operations *)

Definition queued (c : RedeliveryController) (m : MessageId) : Prop := is_Some (entries c !! m).

Lemma insert_queued (es : gmap MessageId RedeliveryEntry) k v m :
  is_Some (<[k := v]> es !! m) <-> m = k \/ is_Some (es !! m).
Proof. rewrite lookup_insert_is_Some'; naive_solver. Qed.

Lemma add_spec e c :
  controller_wf c ->
  controller_wf (add e c) /\
  (forall m, queued (add e c) m <-> m = re_message_id e \/ queued c m) /\
  in_flight_hashes (add e c) = in_flight_hashes c /\ block_hashes (add e c) = block_hashes c.
Proof.
  intros Hc; unfold add, queued; destruct (entries c !! re_message_id e) as [x|] eqn:Ex.
  - pose proof (cw_ids _ Hc _ _ Ex) as Hid.
    destruct (sticky_key_hash x) as [h|] eqn:Eh.
    + split_and!; try done; [|intros m; apply insert_queued].
      eapply controller_wf_intro; [done | done | | |]; cbn [entries set_entries block_hashes].
      * intros m y [[<- <-]|[_ Hy]]%lookup_insert_Some; [done | by apply (cw_ids _ Hc)].
      * intros Hb h'; cbn [blocked_hashes set_entries]; rewrite (cw_blocked _ Hc Hb h').
        unfold queued_with, in_flight_with; rewrite <- insert_delete_eq.
        rewrite count_values_insert, (count_values_delete _ (entries c) _ _ Ex) by apply lookup_delete_eq.
        unfold with_hash at 1 3; cbn [sticky_key_hash]; by rewrite Eh.
      * apply (cw_open _ Hc).
    + set (es := <[_ := _]> (entries c)).
      destruct (increment_hash_fields (sticky_key_hash e) (set_entries c es)) as (He & Hf & Hb & Hn).
      rewrite He, Hf, Hb; split_and!; try done; [|intros m; apply insert_queued].
      apply (controller_wf_intro _ es (in_flight_hashes c)); [exact He | exact Hf | | |]; rewrite ?Hb.
      * intros m y [[<- <-]|[_ Hy]]%lookup_insert_Some; [done | by apply (cw_ids _ Hc)].
      * cbn [block_hashes set_entries]; intros Hbl.
        intros h'; rewrite (increment_hash_counts _ (fun h => queued_with c h + in_flight_with c h)%nat)
          by (done || exact (cw_blocked _ Hc Hbl)).
        unfold queued_with, in_flight_with, es; rewrite <- insert_delete_eq.
        rewrite count_values_insert, (count_values_delete _ (entries c) _ _ Ex) by apply lookup_delete_eq.
        unfold hash_one, with_hash at 1 3; cbn [sticky_key_hash in_flight_hashes set_entries].
        rewrite Eh, (bool_decide_false (None = Some h')) by done; cbn [one].
        by rewrite Nat.add_0_l, Nat.add_assoc.
      * cbn [block_hashes set_entries]; intros Hbl; rewrite Hn by done; apply (cw_open _ Hc Hbl).
  - destruct (increment_hash_fields (sticky_key_hash e) c) as (He & Hf & Hb & Hn).
    cbn [entries in_flight_hashes block_hashes set_entries]; rewrite He.
    split_and!; try done; [|intros m; apply insert_queued].
    apply (controller_wf_intro _ (<[re_message_id e := e]> (entries c)) (in_flight_hashes c));
      [done | exact Hf | | |]; cbn [block_hashes set_entries]; rewrite ?Hb.
    + intros m y [[<- <-]|[_ Hy]]%lookup_insert_Some; [done | by apply (cw_ids _ Hc)].
    + intros Hbl h'; cbn [blocked_hashes set_entries].
      rewrite (increment_hash_counts _ (fun h => queued_with c h + in_flight_with c h)%nat)
        by (done || exact (cw_blocked _ Hc Hbl)).
      rewrite count_values_insert by done; unfold hash_one, with_hash, queued_with, in_flight_with.
      by rewrite Nat.add_assoc.
    + intros Hbl; cbn [blocked_hashes set_entries]; rewrite Hn by done; apply (cw_open _ Hc Hbl).
Qed.

(** Taking an entry off the queue and lowering the counter of its hash. *)
Lemma unqueue_wf c m e :
  controller_wf c -> entries c !! m = Some e ->
  let c' := decrement_hash (sticky_key_hash e) (set_entries c (delete m (entries c))) in
  controller_wf c' /\ (forall k, queued c' k <-> k <> m /\ queued c k) /\
  in_flight_hashes c' = in_flight_hashes c /\ block_hashes c' = block_hashes c.
Proof.
  intros Hc He c'; subst c'; unfold queued.
  destruct (decrement_hash_fields (sticky_key_hash e) (set_entries c (delete m (entries c))))
    as (E1 & E2 & E3 & Hn); rewrite E1, E2, E3.
  split_and!; try done; [|intros k; cbn; rewrite lookup_delete_is_Some; naive_solver].
  eapply controller_wf_intro; [exact E1 | exact E2 | | |]; rewrite ?E3; cbn [block_hashes set_entries].
  - intros k y; cbn; intros [_ Hy]%lookup_delete_Some; by apply (cw_ids _ Hc).
  - intros Hbl; apply decrement_hash_counts; [done |].
    intros h; cbn [blocked_hashes set_entries entries]; rewrite (cw_blocked _ Hc Hbl h).
    unfold queued_with, in_flight_with; rewrite (count_values_delete _ (entries c) _ _ He).
    unfold hash_one, with_hash; cbn [in_flight_hashes set_entries]; by rewrite Nat.add_assoc.
  - intros Hbl; rewrite Hn by done; apply (cw_open _ Hc Hbl).
Qed.

(** [pop_next] yields the queued message with the least id. *)
Lemma pop_next_spec c :
  controller_wf c ->
  match pop_next c with
  | (Some e, c') =>
      controller_wf c' /\ entries c !! re_message_id e = Some e /\
      (forall m, queued c m -> message_id_le (re_message_id e) m) /\
      (forall m, queued c' m <-> m <> re_message_id e /\ queued c m) /\
      in_flight_hashes c' = in_flight_hashes c /\ block_hashes c' = block_hashes c
  | (None, c') => c' = c /\ entries c = ∅
  end.
Proof.
  intros Hc; unfold pop_next; pose proof (btree_pop_first_spec (entries c)) as Hp.
  destruct (btree_pop_first (entries c)) as [[[k e] es]|]; [|done].
  destruct Hp as (Hk & -> & Hleast); pose proof (cw_ids _ Hc _ _ Hk) as Hid; subst k.
  destruct (unqueue_wf c (re_message_id e) e Hc Hk) as (? & ? & ? & ?); by split_and!.
Qed.

Lemma remove_spec m c :
  controller_wf c ->
  controller_wf (remove m c).2 /\
  (forall k, queued (remove m c).2 k <-> k <> m /\ queued c k) /\
  in_flight_hashes (remove m c).2 = delete m (in_flight_hashes c) /\
  block_hashes (remove m c).2 = block_hashes c.
Proof.
  intros Hc; destruct (release_in_flight_hash_spec m c Hc) as (Hr & He & Hf & Hb).
  unfold remove; rewrite He; destruct (entries c !! m) as [e|] eqn:E; cbn [snd].
  - rewrite <- He in E |- *.
    destruct (unqueue_wf _ m e Hr E) as (? & Hq & -> & ->); split_and!; try done.
    intros k; rewrite Hq; unfold queued; by rewrite He.
  - split_and!; try done; unfold queued; rewrite He; intros k; split; [|tauto].
    intros Hk; split; [|done]; intros ->; rewrite E in Hk; by destruct Hk.
Qed.

Lemma restore_spec e c :
  controller_wf c ->
  controller_wf (restore e c) /\
  (forall m, queued (restore e c) m <-> m = re_message_id e \/ queued c m) /\
  in_flight_hashes (restore e c) = delete (re_message_id e) (in_flight_hashes c) /\
  block_hashes (restore e c) = block_hashes c.
Proof.
  intros Hc; destruct (release_in_flight_hash_spec (re_message_id e) c Hc) as (Hr & He & Hf & Hb).
  unfold restore; destruct (add_spec e _ Hr) as (? & Hq & -> & ->); split_and!; try done.
  intros m; rewrite Hq; unfold queued; by rewrite He.
Qed.

(** What taking [e] for delivery with the supplied hash [h] hands out. *)
Definition taken (h : option Z) (e : RedeliveryEntry) : RedeliveryEntry :=
  mkRedelivery (re_message_id e) (redelivery_count e)
    (match sticky_key_hash e with Some k => Some k | None => h end).

Lemma taken_supplied h e :
  (if bool_decide (sticky_key_hash e = None) && bool_decide (h <> None)
   then mkRedelivery (re_message_id e) (redelivery_count e) h else e) = taken h e.
Proof. by destruct e as [m n [k|]], h as [h|]. Qed.

Lemma take_for_delivery_spec m h c :
  controller_wf c ->
  (block_hashes c = true -> in_flight_hashes c !! m = None) ->
  let '(r, c') := take_for_delivery_with_hash m h c in
  r = taken h <$> entries c !! m /\ controller_wf c' /\
  (forall k, queued c' k <-> k <> m /\ queued c k) /\ block_hashes c' = block_hashes c /\
  (forall k, k <> m -> in_flight_hashes c' !! k = in_flight_hashes c !! k).
Proof.
  intros Hc Hfree; unfold take_for_delivery_with_hash.
  destruct (entries c !! m) as [e|] eqn:E; cbn [fmap option_fmap option_map].
  2:{ split_and!; try done; intros k; unfold queued; split; [|tauto].
      intros Hk; split; [|done]; intros ->; rewrite E in Hk; by destruct Hk. }
  pose proof (cw_ids _ Hc _ _ E) as Hid; rewrite taken_supplied.
  cbn [block_hashes set_entries]; destruct (block_hashes c) eqn:Hb.
  - specialize (Hfree eq_refl).
    change (sticky_key_hash (taken h e)) with
      (match sticky_key_hash e with Some k => Some k | None => h end).
    change (re_message_id (taken h e)) with (re_message_id e).
    assert (forall k, is_Some (delete m (entries c) !! k) <-> k <> m /\ queued c k) as Hq.
    { intros k; unfold queued; rewrite lookup_delete_is_Some; naive_solver. }
    assert (forall c' o, entries c' = delete m (entries c) -> block_hashes c' = true ->
      in_flight_hashes c' = match o with Some k => <[m := k]> (in_flight_hashes c)
                                       | None => in_flight_hashes c end ->
      counts c' (fun j => hash_one o j + (count_values (with_hash j) (delete m (entries c)) + in_flight_with c j))%nat ->
      controller_wf c') as Hwf.
    { intros c' o He' Hb' Hf' Hn'; eapply controller_wf_intro; [exact He' | exact Hf' | | |].
      - intros k y [_ Hy]%lookup_delete_Some; by apply (cw_ids _ Hc).
      - intros _ j; rewrite Hn'; unfold in_flight_with, hash_one; destruct o as [k|]; [|done].
        rewrite count_values_insert by done.
        set (a := one _); set (x := count_values _ _); set (y := count_values _ _).
        by replace (a + (x + y))%nat with (x + (a + y))%nat by lia.
      - by rewrite Hb'. }
    assert (counts (set_entries c (delete m (entries c))) (fun j =>
      hash_one (sticky_key_hash e) j + (count_values (with_hash j) (delete m (entries c)) + in_flight_with c j))%nat) as Hn.
    { intros j; cbn [blocked_hashes set_entries]; rewrite (cw_blocked _ Hc Hb j).
      unfold queued_with; rewrite (count_values_delete _ (entries c) _ _ E), Nat.add_assoc; done. }
    destruct (sticky_key_hash e) as [k|] eqn:Ek; [|destruct h as [h|]]; cbn [andb].
    + rewrite bool_decide_false by done; cbn [andb].
      split_and!; [done | | exact Hq | exact Hb | intros j Hj; cbn; by rewrite lookup_insert_ne by congruence].
      apply (Hwf _ (Some k)); try done; cbn; by rewrite Hid.
    + rewrite !bool_decide_true by done; cbn [andb].
      destruct (increment_hash_fields (Some h) (set_entries c (delete m (entries c)))) as (E1 & E2 & E3 & _).
      split_and!; [done | | | |].
      * apply (Hwf _ (Some h)); cbn; rewrite ?E1, ?E2, ?E3, ?Hid; try done.
        intros j; pose proof (increment_hash_counts (set_entries c (delete m (entries c))) _ (Some h) Hb Hn j) as Hj.
        cbn beta in Hj; unfold hash_one at 2 in Hj; rewrite (bool_decide_false (None = Some j)) in Hj by done.
        exact Hj.
      * intros j; unfold queued; cbn; rewrite E1; apply Hq.
      * cbn; by rewrite E3.
      * intros j Hj; cbn; rewrite E2; by rewrite lookup_insert_ne by congruence.
    + split_and!; [done | by apply (Hwf _ None) | exact Hq | exact Hb | done].
  - rewrite (proj2 (proj2 (proj2 (decrement_hash_fields _ (set_entries c (delete m (entries c))))))) by done.
    split_and!; try done; [|intros k; unfold queued; cbn; rewrite lookup_delete_is_Some; naive_solver].
    destruct (cw_open _ Hc Hb); apply (controller_wf_intro _ (delete m (entries c)) ∅); try done.
    + intros k y [_ Hy]%lookup_delete_Some; by apply (cw_ids _ Hc).
    + cbn; by rewrite Hb.
Qed.

(** *** The contents, without the counters *)

Lemma release_entries m c : entries (release_in_flight_hash m c) = entries c.
Proof.
  unfold release_in_flight_hash; destruct (in_flight_hashes c !! m) as [h|]; [|done].
  apply (decrement_hash_fields (Some h) (set_in_flight c _)).
Qed.

(** The entry filed when [e] is added over [o]. *)
Definition merged (o : option RedeliveryEntry) (e : RedeliveryEntry) : RedeliveryEntry :=
  match o with
  | None => e
  | Some x => mkRedelivery (re_message_id x) (Z.max (redelivery_count x) (redelivery_count e))
                (match sticky_key_hash x with Some h => Some h | None => sticky_key_hash e end)
  end.

Lemma add_entries e c :
  entries (add e c) = <[re_message_id e := merged (entries c !! re_message_id e) e]> (entries c).
Proof.
  unfold add, merged; destruct (entries c !! re_message_id e) as [x|].
  - destruct (sticky_key_hash x); [done |]; rewrite (proj1 (increment_hash_fields _ _)); done.
  - cbn; by rewrite (proj1 (increment_hash_fields _ _)).
Qed.

Lemma restore_entries e c :
  entries (restore e c) = <[re_message_id e := merged (entries c !! re_message_id e) e]> (entries c).
Proof. unfold restore; by rewrite add_entries, release_entries. Qed.

Lemma remove_entries m c : entries (remove m c).2 = delete m (entries c).
Proof.
  unfold remove; rewrite release_entries; destruct (entries c !! m) as [e|] eqn:E; cbn [snd].
  - rewrite (proj1 (decrement_hash_fields _ _)); cbn; done.
  - by rewrite release_entries, delete_id.
Qed.

Lemma take_entries m h c : entries (take_for_delivery_with_hash m h c).2 = delete m (entries c).
Proof.
  unfold take_for_delivery_with_hash; destruct (entries c !! m) as [e|] eqn:E; cbn [snd]; [|by rewrite delete_id].
  rewrite taken_supplied; cbn [block_hashes set_entries]; destruct (block_hashes c).
  - destruct (sticky_key_hash (taken h e)); [|done]; cbn.
    destruct (_ && _); [by rewrite (proj1 (increment_hash_fields _ _)) | done].
  - by rewrite (proj1 (decrement_hash_fields _ _)).
Qed.

(** What is in flight after taking: what was, and the message taken. *)
Lemma take_in_flight m h c k v :
  in_flight_hashes (take_for_delivery_with_hash m h c).2 !! k = Some v ->
  in_flight_hashes c !! k = Some v \/
  exists e, entries c !! m = Some e /\ k = re_message_id e /\ sticky_key_hash (taken h e) = Some v.
Proof.
  unfold take_for_delivery_with_hash; destruct (entries c !! m) as [e|] eqn:E; cbn [snd]; [|by left].
  rewrite taken_supplied; cbn [block_hashes set_entries]; destruct (block_hashes c).
  - destruct (sticky_key_hash (taken h e)) as [j|] eqn:Ej; [|by left]; cbn.
    assert (in_flight_hashes (if bool_decide (sticky_key_hash e = None) && bool_decide (h <> None)
      then increment_hash (Some j) (set_entries c (delete m (entries c)))
      else set_entries c (delete m (entries c))) = in_flight_hashes c) as ->.
    { destruct (_ && _); [|done]; by rewrite (proj1 (proj2 (increment_hash_fields _ _))). }
    intros [[<- <-]|[_ ?]]%lookup_insert_Some; [right; by exists e | by left].
  - rewrite (proj1 (proj2 (decrement_hash_fields _ _))); by left.
Qed.

Lemma has_in_flight_hash_spec h c :
  has_in_flight_hash h c = true <-> exists m, in_flight_hashes c !! m = Some h.
Proof.
  unfold has_in_flight_hash; rewrite existsb_exists; split.
  - intros (v & Hv & He); apply list_elem_of_In, list_elem_of_fmap in Hv as ([m v'] & -> & Hm%elem_of_map_to_list).
    exists m; rewrite Hm; f_equal; cbn in *; lia.
  - intros [m Hm]; exists h; split; [|lia]; apply list_elem_of_In, list_elem_of_fmap.
    exists (m, h); split; [done |]; by apply elem_of_map_to_list.
Qed.

Lemma queued_entries_spec c :
  controller_wf c -> NoDup (re_message_id <$> queued_entries c) /\
  forall e, e ∈ queued_entries c <-> entries c !! re_message_id e = Some e.
Proof.
  intros Hc; unfold queued_entries.
  assert (forall k e, (k, e) ∈ btree_entries (entries c) -> re_message_id e = k) as Hid
    by (intros k e Hin%elem_of_btree_entries; by apply (cw_ids _ Hc)).
  split.
  - replace (re_message_id <$> (btree_entries (entries c)).*2) with (btree_entries (entries c)).*1;
      [apply btree_entries_NoDup |].
    rewrite <- list_fmap_compose; apply list_fmap_ext; intros i [k e] Hi; cbn.
    symmetry; apply Hid; by eapply list_elem_of_lookup_2.
  - intros e; rewrite list_elem_of_fmap; split.
    + intros ([k x] & -> & Hin); cbn; rewrite (Hid _ _ Hin); by apply elem_of_btree_entries.
    + intros He; exists (re_message_id e, e); split; [done |]; by apply elem_of_btree_entries.
Qed.

Lemma clear_wf c : controller_wf (clear c).
Proof. split; done. Qed.

#[export] Hint Resolve controller_new_wf clear_wf : pulsar.

(** ** Reachable controllers *)

Section reachable.
Context (key : MessageId -> Z).

(** The hash an entry carries, if any, is that of its message. *)
Definition own_hash (e : RedeliveryEntry) : Prop := forall h, sticky_key_hash e = Some h -> h = key (re_message_id e).

(** The calls of the dispatchers.  Each message has one hash.  A message is taken for
    delivery after [has_in_flight_hash] has answered no for its hash. *)
Inductive controller_step : RedeliveryController -> RedeliveryController -> Prop :=
| step_add c e : own_hash e -> controller_step c (add e c)
| step_pop c : controller_step c (pop_next c).2
| step_take c m h :
    h = None \/ h = Some (key m) -> has_in_flight_hash (key m) c = false ->
    controller_step c (take_for_delivery_with_hash m h c).2
| step_restore c e : own_hash e -> controller_step c (restore e c)
| step_remove c m : controller_step c (remove m c).2
| step_clear c : controller_step c (clear c).

(** Entries and messages in flight carry the hashes of their messages. *)
Record own_hashes (c : RedeliveryController) : Prop := {
  oh_entries : forall m e, entries c !! m = Some e -> own_hash e;
  oh_flight : forall m h, in_flight_hashes c !! m = Some h -> h = key m;
}.

Lemma own_hash_merged e c : own_hash e -> own_hashes c -> controller_wf c ->
  forall m x, <[re_message_id e := merged (entries c !! re_message_id e) e]> (entries c) !! m = Some x -> own_hash x.
Proof.
  intros He [Hen _] Hc m x [[<- <-]|[_ Hx]]%lookup_insert_Some; [|by eapply Hen].
  destruct (entries c !! re_message_id e) as [y|] eqn:Ey; [|done]; intros h; cbn.
  pose proof (cw_ids _ Hc _ _ Ey) as ->; destruct (sticky_key_hash y) as [k|] eqn:Ek; [|apply He].
  intros [= <-]; rewrite (Hen _ _ Ey k Ek); by rewrite (cw_ids _ Hc _ _ Ey).
Qed.

Lemma pop_entries c : exists m, entries (pop_next c).2 = delete m (entries c) \/ (pop_next c).2 = c.
Proof.
  unfold pop_next; pose proof (btree_pop_first_spec (entries c)) as Hp.
  destruct (btree_pop_first (entries c)) as [[[k e] es]|]; [|exists (mkMsgId 0 0 0); by right].
  destruct Hp as (_ & -> & _); exists k; left; cbn [snd]; by rewrite (proj1 (decrement_hash_fields _ _)).
Qed.

Lemma step_own_hashes c c' : controller_step c c' -> controller_wf c -> own_hashes c -> own_hashes c'.
Proof.
  intros [? e He|?|? m h Hh Hno|? e He|? m|?] Hc Ho.
  - destruct (add_spec e _ Hc) as (_ & _ & Hf & _); split; [rewrite add_entries; by apply own_hash_merged | by rewrite Hf; apply Ho].
  - pose proof (pop_next_spec _ Hc) as Hp; destruct (pop_entries c0) as [m [He| ->]]; [|done]; split.
    + rewrite He; intros k x [_ Hx]%lookup_delete_Some; by eapply (oh_entries _ Ho).
    + destruct (pop_next c0) as [[e|] c1]; cbn; [|by destruct Hp as [-> _]; apply Ho].
      destruct Hp as (_ & _ & _ & _ & -> & _); apply Ho.
  - split.
    + rewrite take_entries; intros k x [_ Hx]%lookup_delete_Some; by eapply (oh_entries _ Ho).
    + intros k v [Hv|(e & He & -> & Hv)]%take_in_flight; [by eapply (oh_flight _ Ho) |].
      rewrite (cw_ids _ Hc _ _ He); unfold taken in Hv; cbn in Hv; destruct (sticky_key_hash e) as [j|] eqn:Ej.
      * injection Hv as <-; rewrite (oh_entries _ Ho _ _ He j Ej); by rewrite (cw_ids _ Hc _ _ He).
      * destruct Hh as [->| ->]; congruence.
  - destruct (restore_spec e _ Hc) as (_ & _ & Hf & _); split; [rewrite restore_entries; by apply own_hash_merged |].
    rewrite Hf; intros k v [_ Hv]%lookup_delete_Some; by apply (oh_flight _ Ho).
  - destruct (remove_spec m _ Hc) as (_ & _ & Hf & _); split.
    + rewrite remove_entries; intros k x [_ Hx]%lookup_delete_Some; by eapply (oh_entries _ Ho).
    + rewrite Hf; intros k v [_ Hv]%lookup_delete_Some; by apply (oh_flight _ Ho).
  - split; done.
Qed.

Lemma controller_step_wf c c' :
  controller_step c c' -> controller_wf c -> own_hashes c -> controller_wf c' /\ block_hashes c' = block_hashes c.
Proof.
  intros [? e _|?|? m h _ Hno|? e _|? m|?] Hc Ho.
  - destruct (add_spec e _ Hc) as (? & ? & ? & ?); done.
  - pose proof (pop_next_spec _ Hc) as Hp; destruct (pop_next c0) as [[e|] c1]; cbn.
    + naive_solver.
    + destruct Hp as [-> _]; done.
  - assert (in_flight_hashes c0 !! m = None) as Hm.
    { destruct (in_flight_hashes c0 !! m) as [v|] eqn:Ev; [|done]; pose proof (oh_flight _ Ho _ _ Ev) as ->.
      by rewrite (proj2 (has_in_flight_hash_spec (key m) c0) (ex_intro _ m Ev)) in Hno. }
    pose proof (take_for_delivery_spec m h _ Hc (fun _ => Hm)) as Ht.
    destruct (take_for_delivery_with_hash m h c0) as [r c1]; naive_solver.
  - destruct (restore_spec e _ Hc) as (? & ? & ? & ?); done.
  - destruct (remove_spec m _ Hc) as (? & ? & ? & ?); done.
  - split; [apply clear_wf | done].
Qed.

Lemma controller_run_wf b c :
  rtc controller_step (controller_new b) c -> controller_wf c /\ own_hashes c /\ block_hashes c = b.
Proof.
  apply (rtc_ind_r (fun c => controller_wf c /\ own_hashes c /\ block_hashes c = b)).
  - split; [apply controller_new_wf |]; split; [by split | done].
  - intros c1 c2 _ Hs (Hc & Ho & Hb); destruct (controller_step_wf _ _ Hs Hc Ho) as [? ?].
    split_and!; [done | by eapply step_own_hashes | congruence].
Qed.
End reachable.

Lemma is_hash_blocked_spec c h :
  controller_wf c -> block_hashes c = true ->
  is_hash_blocked h c = true <->
  (exists m e, entries c !! m = Some e /\ sticky_key_hash e = Some h) \/
  (exists m, in_flight_hashes c !! m = Some h).
Proof.
  intros Hc Hb; unfold is_hash_blocked; rewrite bool_decide_eq_true, (cw_blocked _ Hc Hb h).
  transitivity (0 < queued_with c h \/ 0 < in_flight_with c h)%nat.
  { destruct (queued_with c h + in_flight_with c h)%nat eqn:E; split; intros; try lia; done. }
  unfold queued_with, in_flight_with; rewrite !count_values_pos.
  unfold with_hash; setoid_rewrite bool_decide_eq_true.
  split; intros [H|H]; [left | right | left | right]; naive_solver.
Qed.

(** ** Properties *)

(** C25: A sticky key hash is blocked exactly when a queued or an in-flight message has
    it, in every state of a blocking controller, however messages were queued, popped,
    taken for delivery, restored, acknowledged or cleared; a controller that does not
    block never reports a blocked hash.  The calls are those of the dispatchers: every
    message has one hash, and a message is taken for delivery only when
    [has_in_flight_hash] is false for its hash. *)
Theorem redelivery_blocks_exactly (key : MessageId -> Z) (b : bool) (c : RedeliveryController) (h : Z) :
  rtc (controller_step key) (controller_new b) c ->
  controller_wf c /\
  (is_hash_blocked h c = true <->
   b = true /\ ((exists m e, entries c !! m = Some e /\ sticky_key_hash e = Some h) \/
                (exists m, in_flight_hashes c !! m = Some h))).
Proof.
  intros (Hc & _ & Hb)%controller_run_wf; split; [done |]; destruct b.
  - rewrite (is_hash_blocked_spec c h Hc Hb); tauto.
  - unfold is_hash_blocked; destruct (cw_open _ Hc Hb) as [_ ->].
    rewrite lookup_empty, bool_decide_eq_true; split; [by intros [] | by intros [? _]].
Qed.

Lemma redelivery_blocks_exactly_witness :
  let m := mkMsgId 0 3 (-1) in
  let c := (take_for_delivery_with_hash m (Some 7) (add (mkRedelivery m 1 None) (controller_new true))).2 in
  controller_wf c /\ is_hash_blocked 7 c = true.
Proof.
  pose (m := mkMsgId 0 3 (-1)); cbn zeta.
  set (c1 := add (mkRedelivery m 1 None) (controller_new true)).
  destruct (redelivery_blocks_exactly (fun _ => 7) true (take_for_delivery_with_hash m (Some 7) c1).2 7) as [Hc Hb].
  - transitivity c1; apply rtc_once; [by apply step_add | by apply step_take; [right |]].
  - split; [exact Hc | apply Hb; split; [done |]; right; exists m; by vm_compute].
Defined.

(** Without that check the count would leak: a message that is taken, queued again and
    taken again leaves its hash blocked after it is acknowledged, with nothing queued
    and nothing in flight. *)
Lemma unchecked_take_leaks :
  let m := mkMsgId 0 3 (-1) in
  let taken c := (take_for_delivery_with_hash m (Some 7) (add (mkRedelivery m 1 None) c)).2 in
  let c := (remove m (taken (taken (controller_new true)))).2 in
  entries c = ∅ /\ in_flight_hashes c = ∅ /\ is_hash_blocked 7 c = true.
Proof. split_and!; vm_compute; reflexivity. Qed.
