(* ===== verification/StickyKey.v ===== *)
(** * Message metadata and sticky keys

    [broker/dispatcher/sticky_key.rs] and [messages_in_batch] of
    [proto/src/codec.rs].  The protobuf decoder of [MessageMetadata] is generated
    code: it is the class [MetadataDecoder], and only the fields the broker reads
    are kept. *)

From Stdlib Require Import Ascii.
From S2P Require Import Prelude Bytes Text.

Record MessageMetadata := mkMetadata {
  producer_name : string;
  sequence_id : Z;
  publish_time : Z;
  partition_key : option string;
  ordering_key : option (list Z);
  num_messages_in_batch : option Z;
}.

(** [MessageMetadata::decode] *)
Class MetadataDecoder := decode_metadata : list Z -> option MessageMetadata.

(** [str::into_bytes] *)
Fixpoint string_bytes (s : string) : list Z :=
  match s with
  | EmptyString => []
  | String c s => Z.of_nat (nat_of_ascii c) :: string_bytes s
  end.

(** ** Murmur3 *)

Definition RANGE_SIZE : Z := 65536.

Definition wrapping_mul (a b : Z) : Z := wrap_u32 (a * b).
Definition wrapping_add (a b : Z) : Z := wrap_u32 (a + b).
Definition rotate_left (v : Z) (n : Z) : Z :=
  Z.lor (wrap_u32 (Z.shiftl v n)) (Z.shiftr v (32 - n)).

Definition C1 : Z := 0xcc9e2d51.
Definition C2 : Z := 0x1b873593.

Definition mix_k (k : Z) : Z := wrapping_mul (rotate_left (wrapping_mul k C1) 15) C2.

Definition mix_hash (hash k : Z) : Z :=
  wrapping_add (wrapping_mul (rotate_left (Z.lxor hash (mix_k k)) 13) 5) 0xe6546b64.

(** The loop over the chunks of four bytes, then the tail. *)
Fixpoint murmur3_body (bytes : list Z) (hash : Z) : Z :=
  match bytes with
  | b0 :: b1 :: b2 :: b3 :: bytes => murmur3_body bytes (mix_hash hash (from_le [b0; b1; b2; b3]))
  | [] => hash
  | tail =>
      let k1 :=
        match tail with
        | [b0; b1; b2] => Z.lxor (Z.lxor (Z.shiftl b2 16) (Z.shiftl b1 8)) b0
        | [b0; b1] => Z.lxor (Z.shiftl b1 8) b0
        | [b0] => b0
        | _ => 0
        end in
      Z.lxor hash (mix_k k1)
  end.

Definition murmur3_finish (hash : Z) : Z :=
  let hash := Z.lxor hash (Z.shiftr hash 16) in
  let hash := wrapping_mul hash 0x85ebca6b in
  let hash := Z.lxor hash (Z.shiftr hash 13) in
  let hash := wrapping_mul hash 0xc2b2ae35 in
  Z.lxor hash (Z.shiftr hash 16).

Definition murmur3_32 (bytes : list Z) (seed : Z) : Z :=
  murmur3_finish (Z.lxor (murmur3_body bytes seed) (wrap_u32 (Z.of_nat (length bytes)))).

(** ** Sticky keys *)

Definition sticky_key_hash (key : list Z) : Z := murmur3_32 key 0 mod RANGE_SIZE.

Section metadata.
Context `{MetadataDecoder}.

Definition resolve_sticky_key (metadata : list Z) : list Z :=
  match decode_metadata metadata with
  | None => []
  | Some m =>
      match ordering_key m with
      | Some key => key
      | None =>
          match partition_key m with
          | Some key => string_bytes key
          | None =>
              if negb (String.eqb (producer_name m) "")
              then string_bytes (producer_name m +:+ "-" +:+ show (sequence_id m))
              else []
          end
      end
  end.

Definition sticky_key_hash_from_metadata (metadata : list Z) : Z :=
  sticky_key_hash (resolve_sticky_key metadata).

Definition messages_in_batch (metadata : list Z) : Z :=
  match decode_metadata metadata with
  | Some m =>
      match num_messages_in_batch m with
      | Some n => if 0 <? n then n else 1
      | None => 1
      end
  | None => 1
  end.

Lemma sticky_key_hash_range metadata : 0 <= sticky_key_hash_from_metadata metadata < RANGE_SIZE.
Proof. unfold sticky_key_hash_from_metadata, sticky_key_hash; by apply Z.mod_pos_bound. Qed.

Lemma messages_in_batch_pos metadata : 1 <= messages_in_batch metadata.
Proof.
  unfold messages_in_batch; destruct (decode_metadata metadata) as [m|]; [|lia].
  destruct (num_messages_in_batch m) as [n|]; [|lia]; case_bool; lia.
Qed.

Lemma same_key_same_hash a b :
  resolve_sticky_key a = resolve_sticky_key b ->
  sticky_key_hash_from_metadata a = sticky_key_hash_from_metadata b.
Proof. unfold sticky_key_hash_from_metadata; by intros ->. Qed.
End metadata.

(** Reference values of the 32-bit x86 variant of Murmur3. *)
Example murmur3_reference :
  murmur3_32 (string_bytes "") 0 = 0 /\ murmur3_32 (string_bytes "hello") 0 = 0x248bfa47 /\
  murmur3_32 (string_bytes "test") 0 = 0xba6bd213 /\
  murmur3_32 (string_bytes "The quick brown fox jumps over the lazy dog") 0 = 0x2e4ff723.
Proof. by vm_compute. Qed.
