(* ===== verification/Consumer.v ===== *)
(** * Consumers

    [broker/service/pending_acks.rs], [broker/service/consumer.rs] and
    [broker/service/connection_write_state.rs]: the messages a consumer holds
    unacknowledged, its permits, and handing a message to its connection.

    The connection runs concurrently.  What it will answer to the next messages
    handed to it (not writable, channel full or closed, or a free slot) is the
    list [link] of the consumer's state; the messages it accepted are
    [delivered], in order. *)

From S2P Require Import Prelude Position MessageMap.

Inductive SubscriptionType := Exclusive | Shared | Failover | KeyShared.

Inductive AckCommandType := Individual | Cumulative.

Inductive KeySharedMode := AutoSplit | Sticky.

Record KeySharedHashRange := mkRange {
  range_start : Z;
  range_end : Z;
}.

Record KeySharedPolicy := mkPolicy {
  policy_mode : KeySharedMode;
  policy_ranges : list KeySharedHashRange;
  allow_out_of_order_delivery : bool;
}.

#[global] Instance subscription_type_eq_dec : EqDecision SubscriptionType.
Proof. solve_decision. Defined.
#[global] Instance ack_type_eq_dec : EqDecision AckCommandType.
Proof. solve_decision. Defined.
#[global] Instance key_shared_mode_eq_dec : EqDecision KeySharedMode.
Proof. solve_decision. Defined.

(** Two's complement wrap of 32-bit signed arithmetic, and [u32 as i32]. *)
Definition wrap_i32 (n : Z) : Z := (n + 2147483648) mod 4294967296 - 2147483648.

Lemma wrap_i32_id n : i32_ok n -> wrap_i32 n = n.
Proof. intros; unfold wrap_i32; rewrite Z.mod_small; mlia. Qed.

Lemma wrap_i32_ok n : i32_ok (wrap_i32 n).
Proof.
  unfold wrap_i32; pose proof (Z.mod_pos_bound (n + 2147483648) 4294967296); mlia.
Qed.

#[export] Hint Resolve wrap_i32_ok : pulsar.

(** ** Unacknowledged messages *)

Record PendingAck := mkPendingAck {
  pa_redelivery_count : Z;
  pa_sticky_key_hash : option Z;
}.

Record PendingAcksMap := mkPendingAcks {
  inner : gmap MessageId PendingAck;
  closed : bool;
}.

Definition pending_new : PendingAcksMap := mkPendingAcks ∅ false.

Definition add_pending_ack (m : MessageId) (count : Z) (h : option Z) (p : PendingAcksMap)
  : bool * PendingAcksMap :=
  if closed p then (false, p)
  else (true, mkPendingAcks (<[m := mkPendingAck count h]> (inner p)) (closed p)).

Definition pending_remove (m : MessageId) (p : PendingAcksMap)
  : option PendingAck * PendingAcksMap :=
  (inner p !! m, mkPendingAcks (delete m (inner p)) (closed p)).

Definition pending_contains (m : MessageId) (p : PendingAcksMap) : bool :=
  bool_decide (is_Some (inner p !! m)).

(** The first message, in key order, with the ledger and entry id. *)
Definition find_by_position (l e : Z) (p : PendingAcksMap) : option MessageId :=
  List.find (fun m => (ledger m =? l) && (entry m =? e)) (btree_keys (inner p)).

Definition pending_close (p : PendingAcksMap) : PendingAcksMap := mkPendingAcks (inner p) true.

Definition drain (p : PendingAcksMap) : list (MessageId * PendingAck) * PendingAcksMap :=
  (btree_entries (inner p), mkPendingAcks ∅ (closed p)).

Definition pending_len (p : PendingAcksMap) : nat := size (inner p).

(** ** Outbound write state of a connection *)

Definition DEFAULT_MAX_CHANNEL_BYTES : Z := 64 * 1024 * 1024.

Record ConnectionWriteState := mkWriteState {
  pending_bytes : Z;
  writable : bool;
  high_watermark_bytes : Z;
  low_watermark_bytes : Z;
  channel_pending_bytes : Z;
  max_channel_bytes : Z;
}.

(** [new] asserts its arguments; [None] is the panic. *)
Definition write_state_new (high low : Z) : option ConnectionWriteState :=
  if (0 <? high) && (low <=? high)
  then Some (mkWriteState 0 true high low 0 DEFAULT_MAX_CHANNEL_BYTES)
  else None.

Definition observe_buffered_bytes (bytes : Z) (s : ConnectionWriteState) : ConnectionWriteState :=
  let next :=
    if high_watermark_bytes s <=? bytes then false
    else if bytes <=? low_watermark_bytes s then true
    else writable s in
  mkWriteState bytes next (high_watermark_bytes s) (low_watermark_bytes s)
    (channel_pending_bytes s) (max_channel_bytes s).

Definition release_bytes (bytes : Z) (s : ConnectionWriteState) : ConnectionWriteState :=
  let next := sat_sub (pending_bytes s) bytes in
  mkWriteState next (if next <=? low_watermark_bytes s then true else writable s)
    (high_watermark_bytes s) (low_watermark_bytes s) (channel_pending_bytes s) (max_channel_bytes s).

(** One attempt per observed value of the counter; [compare_exchange] succeeds
    when it is the one loaded first, and the loop goes on with that same value
    when it is not.  [None]: still looping when the observations end. *)
Fixpoint reserve_loop (bytes current : Z) (observed : list Z) (s : ConnectionWriteState)
  : option (bool * ConnectionWriteState) :=
  let next := Z.min U64_MAX (current + bytes) in
  if max_channel_bytes s <? next then Some (false, s)
  else
    match observed with
    | [] => None
    | actual :: observed =>
        if actual =? current
        then Some (true, mkWriteState (pending_bytes s) (writable s) (high_watermark_bytes s)
                           (low_watermark_bytes s) next (max_channel_bytes s))
        else reserve_loop bytes current observed s
    end.

Definition try_reserve_channel_bytes (bytes : Z) (observed : list Z) (s : ConnectionWriteState)
  : option (bool * ConnectionWriteState) :=
  reserve_loop bytes (channel_pending_bytes s) observed s.

Definition release_channel_bytes (bytes : Z) (s : ConnectionWriteState) : ConnectionWriteState :=
  mkWriteState (pending_bytes s) (writable s) (high_watermark_bytes s) (low_watermark_bytes s)
    (wrap_u64 (channel_pending_bytes s - bytes)) (max_channel_bytes s).

(** ** Consumers *)

Record PendingMessage := mkPending {
  pm_message_id : MessageId;
  pm_metadata : list Z;
  pm_payload : list Z;
  pm_redelivery_count : Z;
}.

Record ConsumerStats := mkStats {
  messages_received : Z;
  bytes_received : Z;
  messages_acked : Z;
}.

(** What the connection answers to one message. *)
Inductive send_answer := NotWritable | NoSlot | Slot.

#[global] Instance send_answer_eq_dec : EqDecision send_answer.
Proof. solve_decision. Defined.

(** What does not change after [new]. *)
Record ConsumerInfo := mkInfo {
  info_consumer_id : Z;
  info_consumer_name : string;
  info_connection_id : string;
  info_priority_level : Z;
  info_key_shared_policy : option KeySharedPolicy;
}.

Record Consumer := mkConsumer {
  info : ConsumerInfo;
  available_permits : Z;
  pending_acks : PendingAcksMap;
  stats : ConsumerStats;
  active_consumer_id : Z;
  is_active_consumer : bool;
  link : list send_answer;
  delivered : list PendingMessage;
}.

Definition consumer_id (c : Consumer) : Z := info_consumer_id (info c).
Definition consumer_name (c : Consumer) : string := info_consumer_name (info c).
Definition priority_level (c : Consumer) : Z := info_priority_level (info c).
Definition key_shared_policy (c : Consumer) : option KeySharedPolicy := info_key_shared_policy (info c).

Definition consumer_new (i : ConsumerInfo) (answers : list send_answer) : Consumer :=
  mkConsumer i 0 pending_new (mkStats 0 0 0) (-1) false answers [].

Definition set_permits (n : Z) (c : Consumer) : Consumer :=
  mkConsumer (info c) n (pending_acks c) (stats c) (active_consumer_id c) (is_active_consumer c)
    (link c) (delivered c).
Definition set_pending (p : PendingAcksMap) (c : Consumer) : Consumer :=
  mkConsumer (info c) (available_permits c) p (stats c) (active_consumer_id c)
    (is_active_consumer c) (link c) (delivered c).
Definition set_stats (s : ConsumerStats) (c : Consumer) : Consumer :=
  mkConsumer (info c) (available_permits c) (pending_acks c) s (active_consumer_id c)
    (is_active_consumer c) (link c) (delivered c).
Definition set_active (id : Z) (b : bool) (c : Consumer) : Consumer :=
  mkConsumer (info c) (available_permits c) (pending_acks c) (stats c) id b (link c) (delivered c).
Definition set_link (l : list send_answer) (d : list PendingMessage) (c : Consumer) : Consumer :=
  mkConsumer (info c) (available_permits c) (pending_acks c) (stats c) (active_consumer_id c)
    (is_active_consumer c) l d.

(** *** Permits *)

Definition add_permits (n : Z) (c : Consumer) : Consumer :=
  set_permits (wrap_i32 (available_permits c + wrap_i32 n)) c.

Definition try_use_permits (n : Z) (c : Consumer) : bool * Consumer :=
  if 0 <? available_permits c
  then (true, set_permits (wrap_i32 (available_permits c - wrap_i32 n)) c)
  else (false, c).

Definition use_permit (c : Consumer) : bool * Consumer := try_use_permits 1 c.

Definition available_permits_now (c : Consumer) : Z := Z.max 0 (available_permits c).

(** *** Statistics and active-consumer view *)

Definition record_message_dispatched (messages size : Z) (c : Consumer) : Consumer :=
  set_stats (mkStats (wrap_u64 (messages_received (stats c) + messages))
    (wrap_u64 (bytes_received (stats c) + size)) (messages_acked (stats c))) c.

Definition record_message_acked (c : Consumer) : Consumer :=
  set_stats (mkStats (messages_received (stats c)) (bytes_received (stats c))
    (wrap_u64 (messages_acked (stats c) + 1))) c.

Definition notify_active_consumer_change (id : Z) (c : Consumer) : Consumer :=
  set_active (u64_as_i64 id) (consumer_id c =? id) c.

Definition clear_active_consumer (c : Consumer) : Consumer := set_active (-1) false c.

(** *** Sending *)

Definition is_writable (c : Consumer) : bool := negb (bool_decide (head (link c) = Some NotWritable)).

(** [is_writable], tracking, [try_reserve] and the send, in this order. *)
Definition send_message_with_sticky_hash (m : MessageId) (meta data : list Z) (count : Z)
    (h : option Z) (c : Consumer) : bool * Consumer :=
  let answer := default NoSlot (head (link c)) in
  let c := set_link (tail (link c)) (delivered c) c in
  match answer with
  | NotWritable => (false, c)
  | _ =>
      match add_pending_ack m count h (pending_acks c) with
      | (false, _) => (false, c)
      | (true, p) =>
          let c := set_pending p c in
          match answer with
          | Slot => (true, set_link (link c) (delivered c ++ [mkPending m meta data count]) c)
          | _ => (false, set_pending (pending_remove m p).2 c)
          end
      end
  end.

Definition send_message (m : MessageId) (meta data : list Z) (count : Z) (c : Consumer) :=
  send_message_with_sticky_hash m meta data count None c.

Definition enqueue_message (m : MessageId) (meta data : list Z) (c : Consumer) :=
  send_message m meta data 0 c.

(** Sends until one fails; the number sent. *)
Fixpoint send_messages_batch (messages : list PendingMessage) (c : Consumer) : nat * Consumer :=
  match messages with
  | [] => (0%nat, c)
  | x :: messages =>
      match send_message (pm_message_id x) (pm_metadata x) (pm_payload x) (pm_redelivery_count x) c with
      | (true, c) => let '(n, c) := send_messages_batch messages c in (S n, c)
      | (false, c) => (0%nat, c)
      end
  end.

(** *** Reservations (the non-persistent path) *)

(** The resources held for one message. *)
Record DispatchReservation := mkReservation {
  res_message : PendingMessage;
  res_pending_ack : option MessageId;
}.

Definition try_reserve_dispatch (m : MessageId) (meta data : list Z) (count permits : Z)
    (c : Consumer) : option DispatchReservation * Consumer :=
  match try_use_permits permits c with
  | (false, c) => (None, c)
  | (true, c) =>
      let answer := default NoSlot (head (link c)) in
      let c := set_link (tail (link c)) (delivered c) c in
      match answer with
      | NotWritable | NoSlot => (None, add_permits permits c)
      | Slot =>
          match add_pending_ack m count None (pending_acks c) with
          | (false, _) => (None, add_permits permits c)
          | (true, p) =>
              (Some (mkReservation (mkPending m meta data count) (Some m)), set_pending p c)
          end
      end
  end.

(** [send] commits the reservation. *)
Definition reservation_send (r : DispatchReservation) (c : Consumer) : Consumer :=
  set_link (link c) (delivered c ++ [res_message r]) c.

(** [drop] without [send]: one permit back, and the pending entry removed. *)
Definition reservation_drop (r : DispatchReservation) (c : Consumer) : Consumer :=
  let c := set_permits (wrap_i32 (available_permits c + 1)) c in
  match res_pending_ack r with
  | Some m => set_pending (pending_remove m (pending_acks c)).2 c
  | None => c
  end.

(** *** Ownership of dispatched messages *)

Definition remove_pending_ack (m : MessageId) (c : Consumer) : bool * Consumer :=
  let '(r, p) := pending_remove m (pending_acks c) in
  (bool_decide (r <> None), set_pending p c).

Definition take_pending_ack_for_redelivery (m : MessageId) (c : Consumer)
  : option PendingAck * Consumer :=
  let '(r, p) := pending_remove m (pending_acks c) in (r, set_pending p c).

Definition has_pending_ack (m : MessageId) (c : Consumer) : bool := pending_contains m (pending_acks c).

Definition find_pending_ack_by_position (l e : Z) (c : Consumer) : option MessageId :=
  find_by_position l e (pending_acks c).

Definition close_pending_acks (c : Consumer) : Consumer := set_pending (pending_close (pending_acks c)) c.

Definition drain_pending_acks (c : Consumer) : list (MessageId * PendingAck) * Consumer :=
  let '(drained, p) := drain (pending_acks c) in (drained, set_pending p c).

Definition pending_acks_len (c : Consumer) : nat := pending_len (pending_acks c).

(** ** Lemmas *)

(** The consumer holds the message unacknowledged. *)
Definition holds (c : Consumer) (m : MessageId) : Prop := is_Some (inner (pending_acks c) !! m).

#[global] Instance holds_dec c m : Decision (holds c m).
Proof. unfold holds; apply _. Defined.

Lemma has_pending_ack_spec m c : has_pending_ack m c = true <-> holds c m.
Proof. apply bool_decide_eq_true. Qed.

Lemma has_pending_ack_false m c : has_pending_ack m c = false <-> ~ holds c m.
Proof. apply bool_decide_eq_false. Qed.

Lemma try_use_permits_fields n c b c' :
  try_use_permits n c = (b, c') ->
  b = (0 <? available_permits c) /\ info c' = info c /\ pending_acks c' = pending_acks c /\
  delivered c' = delivered c /\ link c' = link c /\
  available_permits c' = if b then wrap_i32 (available_permits c - wrap_i32 n) else available_permits c.
Proof. unfold try_use_permits; case_bool; intros [= <- <-]; done. Qed.

(** A send that succeeds tracks the message and hands it to the connection; one
    that fails leaves the other messages tracked and does not track this one. *)
Lemma send_message_spec m meta data count h c b c' :
  send_message_with_sticky_hash m meta data count h c = (b, c') ->
  info c' = info c /\ available_permits c' = available_permits c /\
  closed (pending_acks c') = closed (pending_acks c) /\
  (forall k, k <> m -> inner (pending_acks c') !! k = inner (pending_acks c) !! k) /\
  if b then
    inner (pending_acks c') !! m = Some (mkPendingAck count h) /\
    delivered c' = delivered c ++ [mkPending m meta data count]
  else
    delivered c' = delivered c /\ (holds c' m -> holds c m).
Proof.
  unfold send_message_with_sticky_hash, add_pending_ack, holds.
  destruct (default NoSlot (head (link c))); cbn.
  - intros [= <- <-]; done.
  - destruct (closed (pending_acks c)) eqn:E; cbn; intros [= <- <-]; [done |]; cbn.
    split_and!; try done.
    + intros k Hk; by rewrite lookup_delete_ne, lookup_insert_ne by done.
    + rewrite lookup_delete_eq; by intros [].
  - destruct (closed (pending_acks c)) eqn:E; cbn; intros [= <- <-]; [done |]; cbn.
    split_and!; try done; [|by rewrite lookup_insert_eq].
    intros k Hk; by rewrite lookup_insert_ne by done.
Qed.

(** When it succeeds. *)
Lemma send_message_result m meta data count h c :
  (send_message_with_sticky_hash m meta data count h c).1 =
  bool_decide (head (link c) = Some Slot) && negb (closed (pending_acks c)).
Proof.
  unfold send_message_with_sticky_hash, add_pending_ack.
  destruct (head (link c)) as [[| |]|]; cbn; try done; destruct (closed (pending_acks c)); done.
Qed.

Lemma drain_pending_acks_spec c ds c' :
  drain_pending_acks c = (ds, c') ->
  info c' = info c /\ available_permits c' = available_permits c /\ delivered c' = delivered c /\
  closed (pending_acks c') = closed (pending_acks c) /\
  (forall m, ~ holds c' m) /\ NoDup (ds.*1) /\
  (forall m a, (m, a) ∈ ds <-> inner (pending_acks c) !! m = Some a).
Proof.
  unfold drain_pending_acks, drain; intros [= <- <-]; cbn; split_and!; try done.
  - intros m; unfold holds; cbn; rewrite lookup_empty; by intros [].
  - apply btree_entries_NoDup.
  - intros m a; apply elem_of_btree_entries.
Qed.

Lemma remove_pending_ack_spec m c b c' :
  remove_pending_ack m c = (b, c') ->
  (b = true <-> holds c m) /\ info c' = info c /\ delivered c' = delivered c /\
  available_permits c' = available_permits c /\
  closed (pending_acks c') = closed (pending_acks c) /\
  (forall k, holds c' k <-> k <> m /\ holds c k).
Proof.
  unfold remove_pending_ack, holds; cbn; intros [= <- <-]; cbn; split_and!; try done.
  - rewrite bool_decide_eq_true, not_eq_None_Some; done.
  - intros k; rewrite lookup_delete_is_Some; naive_solver.
Qed.

Lemma find_by_position_spec l e c m :
  find_pending_ack_by_position l e c = Some m -> holds c m /\ ledger m = l /\ entry m = e.
Proof.
  unfold find_pending_ack_by_position, find_by_position; intros [Hin Hb]%find_some.
  apply list_elem_of_In, elem_of_btree_keys in Hin; apply andb_true_iff in Hb as [Hl He].
  split_and!; [done | lia | lia].
Qed.

(** ** Properties *)

(** A dispatch reservation that is dropped without being sent gives back a
    single permit, whatever number it took: reserving a batch of [n] messages
    and dropping the reservation costs the consumer [n - 1] permits, although
    everything else is rolled back. *)
Theorem dropped_reservation_leaks_permits (m : MessageId) (meta data : list Z) (count n : Z)
    (c c' : Consumer) (r : DispatchReservation) :
  1 <= n <= I32_MAX -> i32_ok (available_permits c) -> I32_MIN <= available_permits c - n ->
  ~ holds c m ->
  try_reserve_dispatch m meta data count n c = (Some r, c') ->
  available_permits (reservation_drop r c') = available_permits c - (n - 1) /\
  pending_acks (reservation_drop r c') = pending_acks c /\
  delivered (reservation_drop r c') = delivered c.
Proof.
  intros Hn Hi Hlow Hm; unfold try_reserve_dispatch, try_use_permits.
  destruct (Z.ltb_spec 0 (available_permits c)); [|done]; cbn.
  destruct (default NoSlot (head (link c))); try done; unfold add_pending_ack; cbn.
  destruct (closed (pending_acks c)) eqn:Ecl; [done |]; intros [= <- <-].
  unfold reservation_drop; cbn; split_and!; [| |done].
  - rewrite (wrap_i32_id n), (wrap_i32_id (_ - n)) by mlia; rewrite wrap_i32_id by mlia; lia.
  - rewrite delete_insert_id by (unfold holds in Hm; by apply eq_None_not_Some).
    destruct (pending_acks c); cbn in *; by subst.
Qed.

Lemma dropped_reservation_leaks_permits_witness :
  let c := set_permits 10 (consumer_new (mkInfo 1 "a" "c" 0 None) [Slot]) in
  match try_reserve_dispatch (mkMsgId 0 0 (-1)) [] [] 0 4 c with
  | (Some r, c') => available_permits (reservation_drop r c') = 7
  | (None, _) => False
  end.
Proof.
  pose (c := set_permits 10 (consumer_new (mkInfo 1 "a" "c" 0 None) [Slot])).
  pose (r := mkReservation (mkPending (mkMsgId 0 0 (-1)) [] [] 0) (Some (mkMsgId 0 0 (-1)))).
  pose (c' := (try_reserve_dispatch (mkMsgId 0 0 (-1)) [] [] 0 4 c).2).
  destruct (dropped_reservation_leaks_permits (mkMsgId 0 0 (-1)) [] [] 0 4 c c' r) as (Hp & _).
  - mlia.
  - cbn; mlia.
  - cbn; mlia.
  - unfold holds; cbn; rewrite lookup_empty; by intros [].
  - reflexivity.
  - exact Hp.
Defined.

(** Once another thread changed the channel counter, a reservation of
    channel bytes that fits the budget keeps looping until the counter happens
    to take its old value again: the failed exchange does not refresh the value
    it compares with. *)
Theorem channel_reservation_spins (bytes : Z) (observed : list Z) (s : ConnectionWriteState) :
  channel_pending_bytes s + bytes <= max_channel_bytes s <= U64_MAX ->
  (try_reserve_channel_bytes bytes observed s = None <->
   channel_pending_bytes s ∉ observed).
Proof.
  intros Hfit; unfold try_reserve_channel_bytes; induction observed as [|x observed IH]; cbn;
    (destruct (Z.ltb_spec (max_channel_bytes s) (U64_MAX `min` (channel_pending_bytes s + bytes))); [lia |]).
  - split; [intros _; apply not_elem_of_nil | done].
  - rewrite not_elem_of_cons; destruct (Z.eqb_spec x (channel_pending_bytes s)) as [->|]; [split; naive_solver |].
    rewrite IH; naive_solver.
Qed.

Lemma channel_reservation_spins_witness :
  try_reserve_channel_bytes 10 [5; 7; 5; 9] (mkWriteState 0 true 64 32 0 DEFAULT_MAX_CHANNEL_BYTES) = None.
Proof.
  apply channel_reservation_spins; [vm_compute; split; congruence |].
  intros H; repeat (apply elem_of_cons in H as [H|H]; [discriminate H |]); by apply elem_of_nil in H.
Defined.
