(* ===== verification/ReadPosition.v ===== *)
(** * The read position of a subscription

    [broker/dispatcher/read_position.rs], and the interface through which the
    dispatchers read: what they rely on of the storage is the record [presents],
    proved for the stores in the file on the storage service. *)

From S2P Require Import Prelude Position LedgerInfo RocksLedger.

(** ** What a dispatcher needs of the storage

    The reads of one subscription of one topic.  [ss_size] bounds the number of
    entries and is only used to bound loops. *)
Class SubscriptionStore (S E : Type) := {
  ss_first_unacked_position : S -> result E (option ManagedLedgerPosition);
  ss_read_entries_from : S -> ManagedLedgerPosition -> nat -> result E (list StoredMessage);
  ss_get_next_position : S -> ManagedLedgerPosition -> result E (option ManagedLedgerPosition);
  ss_is_acknowledged : S -> MessageId -> result E bool;
  ss_get_message_entry_by_id : S -> MessageId -> option StoredMessage;
  ss_size : S -> nat;
}.

Definition logical_next (m : MessageId) : ManagedLedgerPosition :=
  mkPos (ledger m) (wrap_u64 (entry m + 1)) (msg_partition m).

(** No further than just past one of the messages. *)
Definition upto (ms : list StoredMessage) (p : ManagedLedgerPosition) : Prop :=
  exists m, m ∈ ms /\ cursor_key_rank p <= msg_rank m + 1.

(** The store holds the messages [ms] in the order of their positions, of which
    the ones in [acked] are acknowledged; it can be read from the positions in
    [readable]. *)
Record presents {S E} `{SubscriptionStore S E} (s : S) (ms : list StoredMessage)
    (acked : StoredMessage -> bool) (readable : ManagedLedgerPosition -> Prop) : Prop := {
  pr_sorted : StronglySorted (fun a b => msg_rank a < msg_rank b) ms;
  pr_entry : forall m, m ∈ ms ->
    0 <= entry (message_id m) < U64_MAX /\ readable (logical_next (message_id m));
  pr_at : forall m, m ∈ ms -> readable (position_of_message_id (message_id m));
  pr_range : forall p, readable p -> u64_ok (entry_id p);
  pr_first : match ss_first_unacked_position s with
             | Ok (Some p) => readable p /\
                 exists m, List.find (fun m => negb (acked m)) ms = Some m /\ cursor_key_rank p = msg_rank m
             | Ok None => List.find (fun m => negb (acked m)) ms = None
             | Err _ => False
             end;
  pr_read : forall p, readable p -> ss_read_entries_from s p 1 = Ok (take 1 (messages_from p ms));
  pr_next : forall m, m ∈ ms ->
    match ss_get_next_position s (msg_position m) with
    | Ok (Some q) => readable q /\ messages_from q ms = messages_after (msg_position m) ms
    | Ok None => True
    | Err _ => False
    end;
  pr_next_upto : forall m q, m ∈ ms -> ss_get_next_position s (msg_position m) = Ok (Some q) -> upto ms q;
  pr_acked : forall m, m ∈ ms -> ss_is_acknowledged s (message_id m) = Ok (acked m);
  pr_get : forall m, m ∈ ms -> ss_get_message_entry_by_id s (message_id m) = Some m;
  pr_size : (length ms <= ss_size s)%nat;
}.

(** Only what holds of the messages presented matters, and reading can be kept to
    positions no further than just past a message. *)
Lemma presents_ext {S E} `{SubscriptionStore S E} (s : S) ms acked acked' readable :
  presents s ms acked readable -> (forall m, m ∈ ms -> acked' m = acked m) -> presents s ms acked' readable.
Proof.
  intros [] Hext; split; try done; [|intros m Hm; rewrite Hext; auto].
  assert (List.find (fun m => negb (acked' m)) ms = List.find (fun m => negb (acked m)) ms) as -> by
    (clear -Hext; induction ms as [|x l IH]; [done |]; cbn; rewrite Hext by (by left);
     rewrite IH; [done | intros; apply Hext; by right]).
  done.
Qed.

Lemma presents_upto {S E} `{SubscriptionStore S E} (s : S) ms acked readable :
  presents s ms acked readable -> presents s ms acked (fun p => readable p /\ upto ms p).
Proof.
  intros [Hso Hen Hat Hra Hfi Hre Hne Hnu Hac Hge Hsi]; split; try done.
  - intros m Hm; destruct (Hen m Hm) as [He Hr]; split; [done |]; split; [done |].
    exists m; split; [done |]; unfold logical_next, cursor_key_rank, msg_rank, pair_rank, cursor_key_rank; cbn.
    rewrite wrap_u64_id by mlia; lia.
  - intros m Hm; split; [by apply Hat |]; exists m; split; [done |].
    change (cursor_key_rank (position_of_message_id (message_id m))) with (msg_rank m); lia.
  - intros p [Hp _]; by apply Hra.
  - destruct (ss_first_unacked_position s) as [[p|]|]; [|done..].
    destruct Hfi as (Hp & m & Hm & Hr); split; [split; [done |] | by exists m].
    apply find_some in Hm as [Hm%list_elem_of_In _]; exists m; split; [done | lia].
  - intros p [Hp _]; by apply Hre.
  - intros m Hm; specialize (Hne m Hm); specialize (Hnu m); destruct (ss_get_next_position s (msg_position m)) as [[q|]|];
      [|done..].
    destruct Hne; split; [split; [done | by apply Hnu] | done].
Qed.

Record ReadCandidate := mkCandidate {
  rd_message : StoredMessage;
  rd_next_position : ManagedLedgerPosition;
}.

Section read.
Context {S E : Type} `{SubscriptionStore S E}.
Open Scope result_scope.

(** The entry at the position, where to read next and whether it is
    acknowledged: the block under the storage lock. *)
Definition read_turn_at (s : S) (p : ManagedLedgerPosition)
  : result E (option (StoredMessage * ManagedLedgerPosition * bool)) :=
  let? batch := ss_read_entries_from s p 1 in
  match batch with
  | [] => Ok None
  | m :: _ =>
      let? next := ss_get_next_position s (position_of_message_id (message_id m)) in
      let? acked := ss_is_acknowledged s (message_id m) in
      Ok (Some (m, default (logical_next (message_id m)) next, acked))
  end.

Fixpoint candidate_loop (fuel : nat) (s : S) (rp : option ManagedLedgerPosition)
  : result E (option ReadCandidate) * option ManagedLedgerPosition :=
  match fuel with
  | O => (Ok None, rp)
  | Datatypes.S fuel =>
      let start :=
        match rp with
        | Some p => (Ok (Some p), rp)
        | None =>
            match ss_first_unacked_position s with
            | Ok first => (Ok first, first)
            | Err e => (Err e, rp)
            end
        end in
      match start with
      | (Err e, rp) => (Err e, rp)
      | (Ok None, rp) => (Ok None, rp)
      | (Ok (Some p), rp) =>
          match read_turn_at s p with
          | Err e => (Err e, rp)
          | Ok None => (Ok None, rp)
          | Ok (Some (m, next, true)) => candidate_loop fuel s (Some next)
          | Ok (Some (m, next, false)) => (Ok (Some (mkCandidate m next)), rp)
          end
      end
  end.

Definition next_unacked_candidate (s : S) (rp : option ManagedLedgerPosition)
  : result E (option ReadCandidate) * option ManagedLedgerPosition :=
  candidate_loop (Datatypes.S (ss_size s)) s rp.

Definition commit_read_position (next : ManagedLedgerPosition) : option ManagedLedgerPosition :=
  Some next.

(** ** Behind the read position *)

Definition behind (rp : option ManagedLedgerPosition) (m : StoredMessage) : Prop :=
  match rp with
  | Some p => msg_rank m < cursor_key_rank p
  | None => False
  end.

#[global] Instance behind_dec rp m : Decision (behind rp m).
Proof. destruct rp; cbn; apply _. Defined.

Definition rp_readable (readable : ManagedLedgerPosition -> Prop) (rp : option ManagedLedgerPosition) : Prop :=
  forall p, rp = Some p -> readable p.

Lemma msg_rank_inj ms a b :
  StronglySorted (fun a b => msg_rank a < msg_rank b) ms ->
  a ∈ ms -> b ∈ ms -> msg_rank a = msg_rank b -> a = b.
Proof.
  induction 1 as [|x l Hl IH Hx]; [by intros ?%elem_of_nil |].
  rewrite Forall_forall in Hx.
  intros [->|Ha]%elem_of_cons [->|Hb]%elem_of_cons Heq; auto.
  - specialize (Hx b Hb); lia.
  - specialize (Hx a Ha); lia.
Qed.

Section laws.
Context (s : S) (ms : list StoredMessage) (acked : StoredMessage -> bool)
  (readable : ManagedLedgerPosition -> Prop) (Hs : presents s ms acked readable).

Lemma logical_next_rank m : m ∈ ms -> cursor_key_rank (logical_next (message_id m)) = msg_rank m + 1.
Proof.
  intros Hm; destruct (pr_entry _ _ _ _ Hs m Hm) as [He _].
  unfold cursor_key_rank, msg_rank, pair_rank, msg_pair, logical_next, cursor_key_rank; cbn.
  rewrite wrap_u64_id by mlia; lia.
Qed.

(** The next position after a stored message: it alone is passed. *)
Lemma next_read_position m next :
  m ∈ ms ->
  (let? o := ss_get_next_position s (msg_position m) in
   Ok (default (logical_next (message_id m)) o)) = Ok next ->
  readable next /\ forall x, x ∈ ms -> behind (Some next) x <-> msg_rank x <= msg_rank m.
Proof.
  intros Hm; pose proof (pr_next _ _ _ _ Hs m Hm) as Hn.
  assert (readable (logical_next (message_id m)) /\ forall x, x ∈ ms ->
    behind (Some (logical_next (message_id m))) x <-> msg_rank x <= msg_rank m) as Hlogical.
  { split; [by apply (pr_entry _ _ _ _ Hs m Hm) |].
    intros x _; cbn; rewrite logical_next_rank by done; lia. }
  destruct (ss_get_next_position s (msg_position m)) as [[q|]|]; cbn; [| |done];
    intros [= <-]; [|done]; destruct Hn as [Hr Hq]; split; [done |].
  intros x Hx.
  pose proof (list_elem_of_filter (fun m => cursor_key_rank q <= msg_rank m) ms x) as H1.
  fold (messages_from q ms) in H1; rewrite Hq in H1; unfold messages_after in H1.
  rewrite list_elem_of_filter in H1.
  change (cursor_key_rank (msg_position m)) with (msg_rank m) in H1.
  assert (msg_rank m < msg_rank x <-> cursor_key_rank q <= msg_rank x) by tauto; cbn; lia.
Qed.

(** One turn of the loop reads the first message not behind the position. *)
Lemma read_turn_at_spec p :
  readable p ->
  match messages_from p ms with
  | [] => read_turn_at s p = Ok None
  | m :: _ => exists next, read_turn_at s p = Ok (Some (m, next, acked m)) /\ readable next /\
      forall x, x ∈ ms -> behind (Some next) x <-> msg_rank x <= msg_rank m
  end.
Proof.
  intros Hp; unfold read_turn_at; rewrite (pr_read _ _ _ _ Hs p Hp); cbn [result_bind].
  destruct (messages_from p ms) as [|m rest] eqn:Em; [done |]; cbn [take].
  assert (m ∈ ms) as Hm.
  { assert (m ∈ messages_from p ms) as Hin by (rewrite Em; by left).
    by apply list_elem_of_filter in Hin as [_ ?]. }
  pose proof (next_read_position m) as Hn; change (msg_position m) with (position_of_message_id (message_id m)) in Hn.
  pose proof (pr_next _ _ _ _ Hs m Hm) as Hne; change (msg_position m) with (position_of_message_id (message_id m)) in Hne.
  destruct (ss_get_next_position s _) as [o|]; [|done]; cbn [result_bind] in *.
  rewrite (pr_acked _ _ _ _ Hs m Hm); cbn [result_bind].
  eexists; split; [reflexivity |]; by apply Hn.
Qed.

Lemma messages_from_head p m rest :
  messages_from p ms = m :: rest ->
  m ∈ ms /\ ~ behind (Some p) m /\
  (forall x, x ∈ ms -> behind (Some p) x <-> msg_rank x < msg_rank m).
Proof.
  intros Em; pose proof (pr_sorted _ _ _ _ Hs) as Hsort.
  assert (m ∈ messages_from p ms) as Hin by (rewrite Em; by left).
  apply list_elem_of_filter in Hin as [Hpm Hm]; split_and!; [done | cbn; lia |].
  intros x Hx; cbn; split; [lia |]; intros Hlt.
  destruct (decide (cursor_key_rank p <= msg_rank x)) as [Hpx|]; [exfalso | lia].
  assert (x ∈ messages_from p ms) as Hin by by apply list_elem_of_filter.
  assert (StronglySorted (fun a b => msg_rank a < msg_rank b) (messages_from p ms)) as Hf
    by by apply StronglySorted_filter.
  rewrite Em in Hin, Hf; apply StronglySorted_inv in Hf as [_ Hall]; rewrite Forall_forall in Hall.
  apply elem_of_cons in Hin as [->|Hin]; [lia | specialize (Hall x Hin); lia].
Qed.

(** What a search from [rp] finds: the first unacknowledged message not behind
    it; [rp'] is where the search stands, the next position passes the message. *)
Record found (rp : option ManagedLedgerPosition) (c : ReadCandidate)
    (rp' : option ManagedLedgerPosition) : Prop := {
  fd_in : rd_message c ∈ ms;
  fd_unacked : acked (rd_message c) = false;
  fd_ahead : ~ behind rp (rd_message c);
  fd_first : forall x, x ∈ ms -> msg_rank x < msg_rank (rd_message c) -> acked x = true \/ behind rp x;
  fd_reached : forall x, x ∈ ms -> behind rp' x <-> msg_rank x < msg_rank (rd_message c);
  fd_readable : rp_readable readable rp';
  fd_next : forall x, x ∈ ms ->
    behind (commit_read_position (rd_next_position c)) x <-> msg_rank x <= msg_rank (rd_message c);
  fd_next_readable : readable (rd_next_position c);
}.

Record exhausted (rp rp' : option ManagedLedgerPosition) : Prop := {
  ex_done : forall x, x ∈ ms -> acked x = true \/ behind rp x;
  ex_readable : rp_readable readable rp';
  ex_moved : rp' = None -> rp = None;
  ex_forward : forall x, x ∈ ms -> behind rp x -> behind rp' x;
}.

Definition search_result (rp : option ManagedLedgerPosition)
    (r : result E (option ReadCandidate) * option ManagedLedgerPosition) : Prop :=
  match r with
  | (Ok (Some c), rp') => found rp c rp'
  | (Ok None, rp') => exhausted rp rp'
  | (Err _, _) => False
  end.

Lemma candidate_loop_from fuel p :
  readable p -> (length (messages_from p ms) < fuel)%nat ->
  search_result (Some p) (candidate_loop fuel s (Some p)).
Proof.
  revert p; induction fuel as [|fuel IH]; intros p Hp Hfuel; [lia |]; cbn [candidate_loop].
  pose proof (read_turn_at_spec p Hp) as Ht.
  destruct (messages_from p ms) as [|m rest] eqn:Em.
  - rewrite Ht; split; [|by intros ? [= <-] | done | done].
    intros x Hx; right; cbn; destruct (decide (cursor_key_rank p <= msg_rank x)); [|lia].
    assert (x ∈ messages_from p ms) as Hin by by apply list_elem_of_filter.
    rewrite Em in Hin; by apply elem_of_nil in Hin.
  - destruct Ht as (next & -> & Hnr & Hnext), (messages_from_head p m rest Em) as (Hm & Hpm & Hbelow).
    destruct (acked m) eqn:Ea.
    2:{ split; try done; [intros x Hx Hlt; right; by apply Hbelow | by intros ? [= <-]]. }
    assert (forall x, x ∈ ms -> behind (Some next) x -> acked x = true \/ behind (Some p) x) as Hstep.
    { intros x Hx Hb; apply Hnext in Hb; [|done]; destruct (decide (msg_rank x < msg_rank m)) as [Hlt|];
        [right; by apply Hbelow |].
      left; assert (x = m) as ->; [|done].
      eapply msg_rank_inj; [apply (pr_sorted _ _ _ _ Hs) | done | done | lia]. }
    assert (length (messages_from next ms) < length (messages_from p ms))%nat as Hlen.
    { rewrite Em; cbn; apply Nat.lt_succ_r.
      replace (messages_from next ms) with (filter (fun x => msg_rank m < msg_rank x) (messages_from p ms)).
      - rewrite Em, filter_cons_False by lia; apply length_filter.
      - unfold messages_from; rewrite list_filter_filter; apply list_filter_ext; intros x Hx.
        specialize (Hnext x Hx); cbn in Hnext, Hpm; lia. }
    rewrite Em in Hlen; cbn [length] in Hlen, Hfuel; specialize (IH next Hnr ltac:(lia)).
    destruct (candidate_loop fuel s (Some next)) as [[[c|]|] rp']; cbn in *; [| |done].
    + destruct IH as [Hin Hun Hah Hfst Hre Hrr Hnx Hnxr]; split; try done.
      * intros Hb; apply Hah, Hnext; [done |]; cbn in Hpm, Hb; lia.
      * intros x Hx Hlt; destruct (Hfst x Hx Hlt) as [?|?]; [by left | by apply Hstep].
    + destruct IH as [Hdone Hrr Hmv Hfw]; split; [|done | by intros ?%Hmv |].
      * intros x Hx; destruct (Hdone x Hx) as [?|?]; [by left | by apply Hstep].
      * intros x Hx Hb; apply Hfw; [done |]; apply Hnext; [done |]; apply Hbelow in Hb; [lia | done].
Qed.

Lemma next_unacked_candidate_spec rp :
  rp_readable readable rp -> search_result rp (next_unacked_candidate s rp).
Proof.
  intros Hrp; unfold next_unacked_candidate; pose proof (pr_size _ _ _ _ Hs) as Hsize.
  assert (forall p, length (messages_from p ms) < Datatypes.S (ss_size s))%nat as Hfuel.
  { intros p; pose proof (length_filter (fun x => cursor_key_rank p <= msg_rank x) ms).
    unfold messages_from; lia. }
  destruct rp as [p|]; [apply candidate_loop_from; [by apply Hrp | apply Hfuel] |].
  pose proof (pr_first _ _ _ _ Hs) as Hfirst.
  assert (candidate_loop (Datatypes.S (ss_size s)) s None =
    match ss_first_unacked_position s with
    | Ok (Some p) => candidate_loop (Datatypes.S (ss_size s)) s (Some p)
    | Ok None => (Ok None, None)
    | Err e => (Err e, None)
    end) as -> by (cbn [candidate_loop]; by destruct (ss_first_unacked_position s) as [[p|]|]).
  destruct (ss_first_unacked_position s) as [[p|]|]; [| |done].
  - destruct Hfirst as (Hp & m & Hm & Hrank).
    pose proof (find_sorted _ (fun m => negb (acked m)) _ (pr_sorted _ _ _ _ Hs)) as Hf.
    rewrite Hm in Hf; destruct Hf as (Hin & Hun & Hleast).
    assert (forall x, x ∈ ms -> behind (Some p) x -> acked x = true) as Hbelow.
    { intros x Hx Hb; cbn in Hb; destruct (acked x) eqn:Ea; [done |].
      destruct (Hleast x Hx ltac:(by rewrite Ea)) as [->|?]; lia. }
    pose proof (candidate_loop_from _ p Hp (Hfuel p)) as Hl.
    destruct (candidate_loop _ s (Some p)) as [[[c|]|] rp']; cbn in *; [| |done].
    + destruct Hl as [? ? Hah Hfst ? ? ? ?]; split; try done; [intros [] |].
      intros x Hx Hlt; destruct (Hfst x Hx Hlt); [by left | left; by apply Hbelow].
    + destruct Hl as [Hdone ? ? ?]; split; try done.
      intros x Hx; destruct (Hdone x Hx); [by left | left; by apply Hbelow].
  - split; [|by intros ? [=] | done | done]; intros x Hx; left.
    pose proof (find_none _ _ Hfirst x (proj1 (list_elem_of_In _ _) Hx)) as Ha; cbn in Ha.
    by destruct (acked x).
Qed.
End laws.
End read.
