(* ===== verification/StorageService.v ===== *)
(** * The storage service

    [storage/core/src/backend.rs] chooses between the in-memory and the RocksDB
    store; [storage/core/src/service.rs] is the facade the broker calls.  The
    second half shows that both stores keep the promise the dispatchers rely on
    ([presents]). *)

From S2P Require Import Prelude Position BTree RangeSet Cursor CursorRead LedgerInfo MetadataCodec.
From S2P Require Import Text EntryLog Keys RocksLedger ReadPosition StickyKey.
From S2P Require MemoryStore RocksStore WriteQueue.
Import MemoryStore (InMemoryManagedLedgerStorage, mem_create_topic, mem_append_message,
  mem_append_message_with_metadata, mem_initialize_or_open_cursor, mem_delete_cursor,
  mem_seek_cursor, mem_first_unacked_position, mem_read_from, mem_read_entries_from,
  mem_get_last_position, mem_get_next_position, is_acknowledged_inner, mem_ack_message,
  mem_ack_message_shared, mem_get_message_by_id, mem_get_message_entry_by_id, mem_messages,
  mem_get_message_entries, mem_is_acknowledged_shared, mem_get_mark_delete_position,
  mem_backlog_entries, mem_stored_bytes, stored_message, store_wf, mem_new).
Import RocksStore (Rocks, topic_holds, cursor_stored, mark_ok, unacked, cursor_pos).

Inductive ManagedLedgerStore (bytes : Type) :=
| MemoryBackend (st : InMemoryManagedLedgerStorage)
| RocksDbBackend (w : Rocks bytes).
Arguments MemoryBackend {_} _.
Arguments RocksDbBackend {_} _.

Section backend.
Context {bytes : Type} `{DbCodec bytes}.
Context (clock : Z -> Z).

Definition backend_op (A : Type) : Type :=
  ManagedLedgerStore bytes -> result ledger_error A * ManagedLedgerStore bytes.

(** The [match self] of every method: the in-memory operations never fail. *)
Definition on_backend {A} (mem : InMemoryManagedLedgerStorage -> A * InMemoryManagedLedgerStorage)
    (rocks : Rocks bytes -> result ledger_error A * Rocks bytes) : backend_op A := fun s =>
  match s with
  | MemoryBackend st => let '(a, st) := mem st in (Ok a, MemoryBackend st)
  | RocksDbBackend w => let '(r, w) := rocks w in (r, RocksDbBackend w)
  end.

Definition query_backend {A} (mem : InMemoryManagedLedgerStorage -> A) (rocks : Rocks bytes -> A)
    (s : ManagedLedgerStore bytes) : A :=
  match s with
  | MemoryBackend st => mem st
  | RocksDbBackend w => rocks w
  end.

(** A request of the synchronous path, served alone by the write queue. *)
Definition submit (io : bool * write_outcome) (db_ok : bool) (topic : string) (part : Z)
    (meta data : list Z) (w : Rocks bytes) : result ledger_error MessageId * Rocks bytes :=
  let r := WriteQueue.mkReq topic part meta data WriteQueue.Oneshot in
  match WriteQueue.run_group clock io db_ok (WriteQueue.req_ledger r) [r] w with
  | ((_, res) :: _, w) => (res, w)
  | ([], w) => (Err DbWriteFailed, w)
  end.

Definition create_topic (name : string) : backend_op unit :=
  on_backend (fun st => (tt, mem_create_topic st name)) (RocksStore.create_topic clock name).

Definition append_message_with_metadata (io : bool * write_outcome) (db_ok : bool) (topic : string)
    (part : Z) (meta data : list Z) : backend_op MessageId :=
  on_backend (fun st => mem_append_message_with_metadata st topic part meta data)
    (submit io db_ok topic part meta data).

Definition append_message (io : bool * write_outcome) (db_ok : bool) (topic : string)
    (part : Z) (data : list Z) : backend_op MessageId :=
  on_backend (fun st => mem_append_message st topic part data) (submit io db_ok topic part [] data).

Definition initialize_or_open_cursor (topic sub : string) (options : CursorInitOptions)
  : backend_op CursorOpenResult :=
  on_backend (fun st => mem_initialize_or_open_cursor st topic sub options)
    (RocksStore.initialize_or_open_cursor clock topic sub options).

Definition delete_cursor (topic sub : string) : backend_op unit :=
  on_backend (fun st => (tt, mem_delete_cursor st topic sub)) (RocksStore.delete_cursor topic sub).

Definition seek_cursor (topic sub : string) (m : MessageId) (shared : bool) : backend_op unit :=
  on_backend (fun st => (tt, mem_seek_cursor st topic sub m shared))
    (RocksStore.seek_cursor clock topic sub m).

Definition first_unacked_position (topic sub : string) : backend_op (option ManagedLedgerPosition) :=
  on_backend (fun st => (mem_first_unacked_position st topic sub, st))
    (RocksStore.first_unacked_position clock topic sub).

Definition read_from (topic : string) (from : ManagedLedgerPosition) (limit : nat)
  : backend_op (list (MessageId * list Z)) :=
  on_backend (fun st => (mem_read_from st topic from limit, st))
    (RocksStore.store_read_from clock topic from limit).

Definition read_entries_from (topic : string) (from : ManagedLedgerPosition) (limit : nat)
  : backend_op (list StoredMessage) :=
  on_backend (fun st => (mem_read_entries_from st topic from limit, st))
    (RocksStore.store_read_entries_from clock topic from limit).

Definition get_last_position (topic : string) : backend_op (option ManagedLedgerPosition) :=
  on_backend (fun st => (mem_get_last_position st topic, st)) (RocksStore.get_last_position clock topic).

Definition get_next_position (topic : string) (current : ManagedLedgerPosition)
  : backend_op (option ManagedLedgerPosition) :=
  on_backend (fun st => (mem_get_next_position current, st))
    (RocksStore.get_next_position clock topic current).

Definition is_acknowledged (topic sub : string) (m : MessageId) : backend_op bool :=
  on_backend (fun st => (is_acknowledged_inner st topic sub m, st))
    (fun w => (Ok (RocksStore.is_acknowledged_shared clock topic sub m w), w)).

Definition ack_message (topic sub : string) (m : MessageId) : backend_op unit :=
  on_backend (fun st => (tt, mem_ack_message st topic sub m)) (RocksStore.ack_message clock topic sub m).

Definition ack_message_shared (topic sub : string) (m : MessageId) : backend_op unit :=
  on_backend (fun st => (tt, mem_ack_message_shared st topic sub m))
    (RocksStore.ack_message_shared clock topic sub m).

Definition get_message_by_id (topic : string) (m : MessageId) :=
  query_backend (fun st => mem_get_message_by_id st topic m)
    (RocksStore.store_get_message_by_id clock topic m).

Definition get_message_entry_by_id (topic : string) (m : MessageId) :=
  query_backend (fun st => mem_get_message_entry_by_id st topic m)
    (RocksStore.store_get_message_entry_by_id clock topic m).

Definition get_message_entries (topic : string) :=
  query_backend (fun st => mem_get_message_entries st topic)
    (RocksStore.get_message_entries clock topic).

Definition is_acknowledged_shared (topic sub : string) (m : MessageId) :=
  query_backend (fun st => mem_is_acknowledged_shared st topic sub m)
    (RocksStore.is_acknowledged_shared clock topic sub m).

Definition get_mark_delete_position (topic sub : string) :=
  query_backend (fun st => mem_get_mark_delete_position st topic sub)
    (RocksStore.get_mark_delete_position clock topic sub).

Definition backlog_entries (topic sub : string) :=
  query_backend (fun st => mem_backlog_entries st topic sub) (RocksStore.backlog_entries clock topic sub).

Definition stored_bytes (topic : string) :=
  query_backend (fun st => mem_stored_bytes st topic) (RocksStore.stored_bytes clock topic).

(** ** Searching by publish time *)

Context `{MetadataDecoder}.

Definition decode_publish_time (meta : list Z) : option Z :=
  match meta with
  | [] => None
  | _ => publish_time <$> decode_metadata meta
  end.

(** The scan: the index of the last entry before the first one published at or
    after the time, skipping entries without a time. *)
Fixpoint last_earlier_loop (entries : list StoredMessage) (i : nat) (t : Z) (last : option nat)
  : option nat :=
  match entries with
  | [] => last
  | e :: entries =>
      match decode_publish_time (metadata e) with
      | Some pt => if pt <? t then last_earlier_loop entries (S i) t (Some i) else last
      | None => last_earlier_loop entries (S i) t last
      end
  end.

Definition find_in_entries (entries : list StoredMessage) (t : Z) : option MessageId :=
  match entries with
  | [] => None
  | e0 :: _ =>
      match last_earlier_loop entries 0 t None with
      | None => Some (message_id e0)
      | Some i => message_id <$> entries !! S i
      end
  end.

Definition find_message_id_by_publish_time (topic : string) (t : Z) (s : ManagedLedgerStore bytes)
  : option MessageId :=
  find_in_entries (get_message_entries topic s) t.

End backend.

(** ** The reads of one subscription *)

(** A subscription of a topic of the store, with the clock of the store. *)
Record SubscriptionView (bytes : Type) := mkView {
  sv_clock : Z -> Z;
  sv_store : ManagedLedgerStore bytes;
  sv_topic : string;
  sv_subscription : string;
}.
Arguments mkView {_} _ _ _ _.
Arguments sv_clock {_} _.
Arguments sv_store {_} _.
Arguments sv_topic {_} _.
Arguments sv_subscription {_} _.

#[global] Instance view_store {bytes : Type} `{DbCodec bytes}
  : SubscriptionStore (SubscriptionView bytes) ledger_error := {|
  ss_first_unacked_position v :=
    (first_unacked_position (sv_clock v) (sv_topic v) (sv_subscription v) (sv_store v)).1;
  ss_read_entries_from v p n := (read_entries_from (sv_clock v) (sv_topic v) p n (sv_store v)).1;
  ss_get_next_position v p := (get_next_position (sv_clock v) (sv_topic v) p (sv_store v)).1;
  ss_is_acknowledged v m :=
    (is_acknowledged (sv_clock v) (sv_topic v) (sv_subscription v) m (sv_store v)).1;
  ss_get_message_entry_by_id v m :=
    get_message_entry_by_id (sv_clock v) (sv_topic v) m (sv_store v);
  ss_size v :=
    query_backend (fun st => length (mem_messages st (sv_topic v)))
      (fun w => match RocksStore.ledgers w !! managed_ledger_name (sv_topic v) with
                | Some L => Z.to_nat (total_entries (rl_info L))
                | None => 0%nat
                end) (sv_store v);
|}.

(** ** The stores keep the dispatchers' interface *)

Lemma find_map {A B} (f : A -> B) (g : B -> bool) (l : list A) :
  List.find g (f <$> l) = f <$> List.find (fun x => g (f x)) l.
Proof. induction l as [|x l IH]; [done |]; cbn; by destruct (g (f x)). Qed.

Lemma first_unacked_find (messages : list message) acked :
  first_unacked_from_messages messages acked
  = (fun m => position_of_message_id m.1) <$> List.find (fun m => negb (acked m.1)) messages.
Proof. induction messages as [|[id d] messages IH]; [done |]; cbn; by destruct (acked id). Qed.

Section memory.
Context {bytes : Type} `{DbCodec bytes} (clock : Z -> Z).
Context (st : InMemoryManagedLedgerStorage) (topic sub : string).
Context (Hst : store_wf st) (Hlen : Z.of_nat (length (mem_messages st topic)) <= I64_MAX).

Definition mem_view : SubscriptionView bytes := mkView clock (MemoryBackend st) topic sub.
Definition mem_acked (m : StoredMessage) : bool := is_acknowledged_inner st topic sub (message_id m).

Lemma mem_message_entry i m :
  mem_messages st topic !! i = Some m -> 0 <= entry m.1 < I64_MAX.
Proof.
  intros Hi; destruct (MemoryStore.mem_messages_indexed st topic Hst) as [lid Hidx].
  destruct (Hidx _ _ Hi) as [_ ->]; apply lookup_lt_Some in Hi; lia.
Qed.

Lemma mem_at_or_after p m :
  u64_ok (entry_id p) -> m ∈ mem_messages st topic ->
  at_or_after p m = true <-> cursor_key_rank p <= msg_rank (stored_message st m).
Proof.
  intros Hp (i & Hi)%list_elem_of_lookup; pose proof (mem_message_entry _ _ Hi).
  unfold at_or_after, position_at_or_after, cursor_key_rank, msg_rank, pair_rank, cursor_key_rank; cbn.
  destruct (Z.compare_spec (ledger m.1) (ledger_id p)) as [E|E|E];
    [rewrite Z.leb_le | | ]; split; intros; try done; mlia.
Qed.

Lemma mem_presents :
  presents mem_view (mem_get_message_entries st topic) mem_acked (fun p => u64_ok (entry_id p)).
Proof.
  assert (forall m, m ∈ mem_get_message_entries st topic ->
    exists i x, mem_messages st topic !! i = Some x /\ m = stored_message st x) as Hin.
  { intros m (x & -> & (i & Hi)%list_elem_of_lookup)%list_elem_of_fmap; eauto. }
  split.
  - unfold mem_get_message_entries; destruct (MemoryStore.mem_messages_indexed st topic Hst) as [lid Hidx].
    assert (forall k l, (forall i m, l !! i = Some m -> ledger m.1 = lid /\ entry m.1 = Z.of_nat (k + i)) ->
      StronglySorted (fun a b => msg_rank a < msg_rank b) (stored_message st <$> l)) as Hgen.
    { intros k l; revert k; induction l as [|x l IH]; intros k Hl; [constructor |].
      constructor; [apply (IH (S k)); intros i m Hi; destruct (Hl (S i) m Hi); split; [done | lia] |].
      apply Forall_fmap, Forall_forall; intros y (j & Hj)%list_elem_of_lookup.
      destruct (Hl 0%nat x eq_refl) as [Hx1 Hx2], (Hl (S j) y Hj) as [Hy1 Hy2].
      unfold msg_rank, pair_rank, cursor_key_rank; cbn; rewrite Hx1, Hx2, Hy1, Hy2; lia. }
    by apply (Hgen 0%nat).
  - intros m (i & x & Hi & ->)%Hin; pose proof (mem_message_entry _ _ Hi); cbn.
    split; [mlia |]; apply wrap_u64_ok.
  - intros m (i & x & Hi & ->)%Hin; pose proof (mem_message_entry _ _ Hi); cbn; mlia.
  - done.
  - cbn; unfold mem_first_unacked_position; rewrite first_unacked_find.
    unfold mem_get_message_entries; rewrite find_map; unfold mem_acked; cbn.
    destruct (List.find _ _) as [x|] eqn:E; cbn; [|done].
    apply find_some in E as [(i & Hi)%list_elem_of_In%list_elem_of_lookup _].
    split; [pose proof (mem_message_entry _ _ Hi); cbn; mlia |]; by eexists.
  - intros p Hp; cbn; unfold mem_read_entries_from, mem_read_from.
    rewrite read_from_messages_spec; cbn [Nat.max]; rewrite fmap_take; do 2 f_equal.
    unfold mem_get_message_entries, messages_from.
    apply list_fmap_filter_ext; intros m Hm; by apply mem_at_or_after.
  - intros m (i & x & Hi & ->)%Hin; pose proof (mem_message_entry _ _ Hi); cbn.
    split; [apply wrap_u64_ok |]; apply list_filter_ext; intros y _.
    unfold cursor_key_rank at 1, msg_rank, pair_rank, cursor_key_rank; cbn.
    rewrite wrap_u64_id by mlia; lia.
  - intros m q Hm [= <-]; exists m; split; [done |]; apply Hin in Hm as (i & x & Hi & ->).
    pose proof (mem_message_entry _ _ Hi); unfold msg_rank, pair_rank, cursor_key_rank; cbn.
    rewrite wrap_u64_id by mlia; lia.
  - done.
  - intros m (i & x & Hi & ->)%Hin; cbn; apply MemoryStore.mem_get_entry_spec; [done |].
    exists x.2; split; [|by destruct x]; apply list_elem_of_lookup; exists i; by destruct x.
  - cbn; unfold mem_get_message_entries; by rewrite length_fmap.
Qed.
End memory.

Section rocks.
Context {bytes : Type} `{DbCodec bytes, !DbCodecLaws bytes} (clock : Z -> Z).
Context (w : Rocks bytes) (topic sub : string) (L : RocksDBManagedLedger) (ms : list StoredMessage)
  (state : ManagedCursorState) (part : Z).
Context (Ht : topic_holds w topic L ms) (Hc : cursor_stored w topic sub state) (Hmark : mark_ok L state).
Context (Hpart : forall m, m ∈ ms -> msg_partition (message_id m) = part).

Definition rocks_view : SubscriptionView bytes := mkView clock (RocksDbBackend w) topic sub.
Definition rocks_acked (m : StoredMessage) : bool := negb (unacked state m).

(** Positions of the topic's segments; cursors carry partition [-1]. *)
Definition rocks_readable (p : ManagedLedgerPosition) : Prop :=
  0 <= entry_id p < U64_MAX /\ (ms = [] \/ partition p <= part) /\
  exists l, l ∈ info_ledgers (rl_info L) /\ li_ledger_id l = ledger_id p.

Lemma on_ledger_open {A} (k : RocksDBManagedLedger -> storage_op bytes A) :
  RocksStore.on_ledger clock topic k w =
  let '(r, s) := k L (RocksStore.storage w) in (r, RocksStore.mkRocks s (RocksStore.ledgers w)).
Proof.
  unfold RocksStore.on_ledger, RocksStore.topic_ledger, RocksStore.open_ledger.
  by rewrite (RocksStore.th_cached _ _ _ _ Ht).
Qed.

Lemma rocks_message_bounds m :
  m ∈ ms -> visible (rl_info L) (msg_position m) /\ 0 <= entry (message_id m) < I64_MAX.
Proof.
  intros Hm; pose proof (RocksStore.th_ledger _ _ _ _ Ht) as HL.
  destruct (lh_msg_ok _ _ _ _ HL Hm) as (Hv & _ & _); split; [done |].
  destruct Hv as (l & Hl & _ & He); cbn in He.
  pose proof (lh_storable _ _ _ HL) as Hst; rewrite Forall_forall in Hst.
  destruct (Hst l Hl) as (_ & Hentries & _); unfold i64_range in Hentries; lia.
Qed.

Lemma visible_readable p :
  visible (rl_info L) p -> (ms = [] \/ partition p <= part) -> rocks_readable p.
Proof.
  intros Hv Hp; pose proof (RocksStore.th_ledger _ _ _ _ Ht) as HL.
  pose proof (visible_below_max _ _ (lh_info _ _ _ HL) Hv).
  destruct (visible_ok _ _ (lh_info _ _ _ HL) Hv) as [_ Hu].
  split; [mlia |]; split; [done |]; destruct Hv as (l & ? & ? & _); eauto.
Qed.

Lemma rocks_get_entry m :
  m ∈ ms -> RocksStore.store_get_message_entry_by_id clock topic (message_id m) w = Some m.
Proof.
  intros Hm; pose proof (RocksStore.th_ledger _ _ _ _ Ht) as HL.
  destruct (lh_msg_ok _ _ _ _ HL Hm) as (Hv & _ & He).
  unfold RocksStore.store_get_message_entry_by_id, RocksStore.topic_ledger, RocksStore.open_ledger.
  rewrite (RocksStore.th_cached _ _ _ _ Ht); unfold RocksLedger.get_message_entry_by_id; rewrite (lh_lac _ _ _ HL).
  destruct (last ms) as [x|] eqn:El; [|apply last_None in El; subst; by apply elem_of_nil in Hm].
  cbn [fmap option_fmap option_map]; apply last_Some_elem_of in El as Hx.
  destruct (lh_msg_ok _ _ _ _ HL Hx) as (_ & _ & Hxe).
  pose proof (last_max _ _ _ (lh_sorted _ _ _ HL) El Hm) as Hle.
  assert (key_ltb (position_of_message_id (message_id x)) (position_of_message_id (message_id m)) = false) as Hb.
  { rewrite lac_ltb; [|done | done | cbn; rewrite (Hpart m Hm), (Hpart x Hx); lia].
    change (cursor_key_rank (position_of_message_id (message_id m))) with (msg_rank m); lia. }
  unfold is_visible; rewrite !Hb; rewrite (proj2 (existsb_visible (rl_info L) (position_of_message_id (message_id m)) ltac:(cbn; mlia)) Hv); cbn [negb].
  pose proof (lh_stored _ _ _ HL) as Hst; rewrite Forall_forall in Hst; specialize (Hst m Hm).
  unfold entry_stored in Hst; rewrite Hst; cbn; rewrite Z.eqb_refl; cbn; by destruct m.
Qed.

Lemma rocks_presents : presents rocks_view ms rocks_acked rocks_readable.
Proof.
  pose proof (RocksStore.th_ledger _ _ _ _ Ht) as HL; pose proof (lh_info _ _ _ HL) as Hi.
  split.
  - by eapply lh_sorted.
  - intros m Hm; destruct (rocks_message_bounds m Hm) as [Hv He]; split; [mlia |].
    unfold rocks_readable, logical_next; cbn [entry_id partition ledger_id].
    rewrite wrap_u64_id by mlia; split; [mlia |]; split; [right; rewrite Hpart by done; lia |].
    destruct Hv as (l & Hl & Hid & _); by exists l.
  - intros m Hm; destruct (rocks_message_bounds m Hm) as [Hv He].
    apply visible_readable; [done |]; right; cbn; rewrite Hpart; [lia | done].
  - intros p (Hp & _); mlia.
  - cbn; rewrite (RocksStore.first_unacked_position_spec _ _ _ _ _ _ _ Ht Hc Hmark); cbn.
    rewrite (RocksStore.find_ext (fun m => negb (rocks_acked m)) (unacked state))
      by (intros; apply negb_involutive).
    destruct (List.find _ ms) as [m|] eqn:E; cbn; [|done].
    apply find_some in E as [Hm%list_elem_of_In _]; destruct (rocks_message_bounds m Hm) as [Hv _].
    split; [|by exists m]; apply visible_readable; [by apply RocksStore.visible_cursor_position |].
    right; cbn; rewrite <- (Hpart m Hm); by apply (RocksStore.th_partitions _ _ _ _ Ht).
  - intros p (Hp & Hpp & Hl); cbn; unfold RocksStore.store_read_entries_from; rewrite on_ledger_open.
    rewrite (read_entries_from_spec _ _ _ p 1 HL); [done | mlia | lia | done |].
    intros m Hm; destruct Hpp as [->|Hpp]; [done |]; rewrite Hpart; [done | by apply last_Some_elem_of].
  - intros m Hm; destruct (rocks_message_bounds m Hm) as [Hv He].
    cbn; unfold RocksStore.get_next_position; rewrite on_ledger_open; cbn.
    pose proof (next_position_messages _ _ _ (msg_position m) HL ltac:(cbn; mlia) ltac:(cbn; mlia)) as Hn.
    destruct (next_position (msg_position m) (rl_info L)) as [q|]; [|done].
    destruct Hn as (Hq & Hvq & Hpq); [destruct Hv as (l & ? & ? & _); eauto |].
    split; [|done]; apply visible_readable; [done |]; right; rewrite Hpq; cbn; rewrite Hpart; [lia | done].
  - intros m q Hm; destruct (rocks_message_bounds m Hm) as [Hv He].
    cbn; unfold RocksStore.get_next_position; rewrite on_ledger_open; cbn; intros [= Hq].
    pose proof (next_position_messages _ _ _ (msg_position m) HL ltac:(cbn; mlia) ltac:(cbn; mlia)) as Hn.
    rewrite Hq in Hn; destruct Hn as (_ & Hvq & _); [destruct Hv as (l & ? & ? & _); eauto |].
    apply (lh_visible _ _ _ _ HL) in Hvq as (y & Hy & Ey); exists y; split; [done |].
    unfold msg_rank; rewrite Ey; unfold pair_rank, cursor_key_rank; cbn; lia.
  - intros m Hm; cbn; by rewrite (RocksStore.is_acknowledged_shared_spec _ _ _ _ _ _ _ m Ht Hc).
  - apply rocks_get_entry.
  - cbn; rewrite (RocksStore.th_cached _ _ _ _ Ht).
    rewrite <- (length_all_positions _ Hi), <- (lh_positions _ _ _ HL), length_fmap; lia.
Qed.
End rocks.

(** ** The search by publish time *)

Section publish_time.
Context `{MetadataDecoder}.

Definition published_from (t : Z) (e : StoredMessage) : bool :=
  match decode_publish_time (metadata e) with Some pt => t <=? pt | None => false end.

(** Over entries that all carry a time the scan returns the index before the
    first entry published at or after it. *)
Lemma last_earlier_loop_spec entries i t last n :
  Forall (fun e => decode_publish_time (metadata e) <> None) entries ->
  (forall k e, entries !! k = Some e -> (k < n)%nat -> published_from t e = false) ->
  (forall e, entries !! n = Some e -> published_from t e = true) -> (n <= length entries)%nat ->
  last_earlier_loop entries i t last = match n with O => last | S k => Some (i + k)%nat end.
Proof.
  revert i last n; induction entries as [|e entries IH]; intros i last n Hall Hlow Hat Hn; cbn.
  - by replace n with 0%nat by (cbn in Hn; lia).
  - apply Forall_cons in Hall as [He Hall].
    destruct (decode_publish_time (metadata e)) as [pt|] eqn:E; [|done].
    assert (published_from t e = (t <=? pt)) as Hp by (unfold published_from; by rewrite E).
    destruct n as [|n].
    + specialize (Hat e eq_refl); rewrite Hp in Hat; by replace (pt <? t) with false by lia.
    + specialize (Hlow 0%nat e eq_refl ltac:(lia)) as Hl0; rewrite Hp in Hl0.
      replace (pt <? t) with true by lia.
      rewrite (IH (S i) (Some i) n); [destruct n; f_equal; lia | done | | | cbn in Hn; lia].
      * intros k x Hk Hlt; apply (Hlow (S k) x Hk); lia.
      * intros x Hx; by apply Hat.
Qed.

(** The entries before the first one published at or after [t]. *)
Fixpoint earlier_count (t : Z) (entries : list StoredMessage) : nat :=
  match entries with
  | [] => 0
  | e :: entries => if published_from t e then 0%nat else S (earlier_count t entries)
  end.

Lemma earlier_count_spec t entries :
  (earlier_count t entries <= length entries)%nat /\
  (forall k e, entries !! k = Some e -> (k < earlier_count t entries)%nat -> published_from t e = false) /\
  (forall e, entries !! earlier_count t entries = Some e -> published_from t e = true) /\
  entries !! earlier_count t entries = List.find (published_from t) entries.
Proof.
  induction entries as [|e entries (Hle & Hlow & Hat & Hf)]; [by split_and!; try done; cbn; lia |].
  cbn; destruct (published_from t e) eqn:E; cbn.
  - split_and!; [lia | intros; lia | by intros ? [= <-] | done].
  - split_and!; [lia | | done | done].
    intros [|k] x Hk Hlt; [by injection Hk as <- | apply (Hlow k x Hk); lia].
Qed.
End publish_time.

(** ** Properties *)

(** C19: The interface of the dispatchers holds for both stores: a well-formed
    in-memory store, and a RocksDB store whose topic is open and whose cursor
    is stored, present the topic's messages in order with exactly the
    acknowledged ones acknowledged. *)
Theorem stores_keep_read_interface {bytes : Type} `{DbCodec bytes, !DbCodecLaws bytes}
    (clock : Z -> Z) (topic sub : string) :
  (forall st, store_wf st -> Z.of_nat (length (mem_messages st topic)) <= I64_MAX ->
     presents (mkView clock (MemoryBackend (bytes := bytes) st) topic sub)
       (mem_get_message_entries st topic)
       (fun m => is_acknowledged_inner st topic sub (message_id m)) (fun p => u64_ok (entry_id p))) /\
  (forall w L ms state part, topic_holds w topic L ms -> cursor_stored w topic sub state ->
     mark_ok L state -> (forall m, m ∈ ms -> msg_partition (message_id m) = part) ->
     presents (mkView clock (RocksDbBackend w) topic sub) ms (fun m => negb (unacked state m))
       (rocks_readable L ms part)).
Proof.
  split.
  - intros st Hst Hlen; exact (mem_presents clock st topic sub Hst Hlen).
  - intros w L ms state part Ht Hc Hm Hp; exact (rocks_presents clock w topic sub L ms state part Ht Hc Hm Hp).
Qed.

(** The search for the next message to dispatch ends within one turn per
    stored message and finds the first unacknowledged message that is not
    behind the read position; it reports none only when every message is
    acknowledged or behind it.  The position to commit passes that message and
    the ones before it, and nothing else. *)
Theorem read_finds_first_unacked {S E : Type} `{SubscriptionStore S E} (s : S)
    (ms : list StoredMessage) (acked : StoredMessage -> bool)
    (readable : ManagedLedgerPosition -> Prop) (rp : option ManagedLedgerPosition) :
  presents s ms acked readable -> rp_readable readable rp ->
  match next_unacked_candidate s rp with
  | (Ok (Some c), _) =>
      rd_message c ∈ ms /\ acked (rd_message c) = false /\ ~ behind rp (rd_message c) /\
      (forall x, x ∈ ms -> msg_rank x < msg_rank (rd_message c) -> acked x = true \/ behind rp x) /\
      (forall x, x ∈ ms -> behind (commit_read_position (rd_next_position c)) x <->
         msg_rank x <= msg_rank (rd_message c))
  | (Ok None, _) => forall x, x ∈ ms -> acked x = true \/ behind rp x
  | (Err _, _) => False
  end.
Proof.
  intros Hs Hrp; pose proof (next_unacked_candidate_spec s ms acked readable Hs rp Hrp) as Hr.
  destruct (next_unacked_candidate s rp) as [[[c|]|] rp']; cbn in Hr; [| |done].
  - destruct Hr; by split_and!.
  - apply Hr.
Qed.

(** The example topic with its first two messages acknowledged. *)
Definition example_view : SubscriptionView plain :=
  mkView (fun _ => 0)
    (MemoryBackend (mem_ack_message MemoryStore.example_store "persistent://t/n/a" "s" (mkMsgId 0 1 (-1))))
    "persistent://t/n/a" "s".

Definition example_messages : list StoredMessage :=
  mem_get_message_entries
    (mem_ack_message MemoryStore.example_store "persistent://t/n/a" "s" (mkMsgId 0 1 (-1))) "persistent://t/n/a".
Definition example_acked (m : StoredMessage) : bool :=
  is_acknowledged_inner
    (mem_ack_message MemoryStore.example_store "persistent://t/n/a" "s" (mkMsgId 0 1 (-1)))
    "persistent://t/n/a" "s" (message_id m).
Definition example_readable (p : ManagedLedgerPosition) : Prop := u64_ok (entry_id p).
Definition example_message (n : Z) : StoredMessage := mkStored (mkMsgId 0 n (-1)) [n + 1] [n + 1; n + 1].

Lemma example_view_presents : presents example_view example_messages example_acked example_readable.
Proof.
  apply (mem_presents (fun _ => 0)); [|by vm_compute].
  apply MemoryStore.set_cursor_wf, MemoryStore.example_store_wf.
Qed.

Lemma stores_keep_read_interface_witness :
  presents (mkView (fun _ => 0) (MemoryBackend (bytes := plain) MemoryStore.example_store) "persistent://t/n/a" "s")
    (mem_get_message_entries MemoryStore.example_store "persistent://t/n/a")
    (fun m => is_acknowledged_inner MemoryStore.example_store "persistent://t/n/a" "s" (message_id m))
    (fun p => u64_ok (entry_id p)) /\
  exists m0 m1 m2,
  presents (mkView (fun _ => 0) (RocksDbBackend RocksStore.example_rocks) "t" "s") [m0; m1; m2]
    (fun m => negb (unacked default_cursor_state m)) (rocks_readable appended_ledger [m0; m1; m2] (-1)).
Proof.
  split.
  - apply (stores_keep_read_interface (fun _ => 0) "persistent://t/n/a" "s");
      [exact MemoryStore.example_store_wf | by vm_compute].
  - destruct RocksStore.example_topic_partitions as (m0 & m1 & m2 & Ht & Hp); exists m0, m1, m2.
    eapply (stores_keep_read_interface (fun _ => 0) "t" "s");
      [exact Ht | exact (RocksStore.cursor_absent_default _ _ _ RocksStore.example_cursor_absent) | done |].
    exact Hp.
Defined.

Lemma read_finds_first_unacked_witness :
  match next_unacked_candidate example_view None with
  | (Ok (Some c), _) => entry (message_id (rd_message c)) = 2
  | _ => False
  end.
Proof.
  pose proof (read_finds_first_unacked example_view _ _ _ None example_view_presents ltac:(done)) as Hr.
  destruct (next_unacked_candidate example_view None) as [[[c|]|] rp'] eqn:E; [| |contradiction].
  - clear Hr; revert E; vm_compute; by intros [= <- _].
  - vm_compute in E; discriminate E.
Defined.

(** Seeking by publish time over entries that all carry one finds the first
    entry published at or after the time, and nothing when all are earlier. *)
Theorem publish_time_search `{MetadataDecoder} (entries : list StoredMessage) (t : Z) :
  Forall (fun e => decode_publish_time (metadata e) <> None) entries ->
  find_in_entries entries t =
  message_id <$> List.find (fun e => match decode_publish_time (metadata e) with
                                     | Some pt => t <=? pt | None => false end) entries.
Proof.
  intros Hall; destruct (earlier_count_spec t entries) as (Hle & Hlow & Hat & Hf).
  pose proof (last_earlier_loop_spec entries 0 t None _ Hall Hlow Hat Hle) as Hloop.
  fold (published_from t); rewrite <- Hf; destruct entries as [|e0 entries]; [done |].
  unfold find_in_entries; rewrite Hloop; by destruct (earlier_count t (e0 :: entries)).
Qed.

(** A decoder that reads the publish time from the first byte. *)
Definition byte_metadata : MetadataDecoder := fun meta =>
  match meta with
  | b :: _ => Some (mkMetadata "" 0 b None None None)
  | [] => None
  end.

Lemma publish_time_search_witness :
  let entries := (fun n => mkStored (mkMsgId 0 n (-1)) [10 * n] []) <$> [0; 1; 2; 3] in
  @find_in_entries byte_metadata entries 15 = Some (mkMsgId 0 2 (-1)).
Proof.
  cbn zeta.
  rewrite (@publish_time_search byte_metadata
             ((fun n => mkStored (mkMsgId 0 n (-1)) [10 * n] []) <$> [0; 1; 2; 3]) 15).
  - vm_compute; reflexivity.
  - repeat (constructor; [vm_compute; congruence |]); constructor.
Defined.
