(* ===== verification/Dispatch.v ===== *)
(** * What the shared dispatchers have in common

    The shared and the key-shared dispatcher ([broker/dispatcher/shared.rs],
    [key_shared.rs]) keep the same state besides their choice of a consumer: the
    consumers, the total of their permits, the redelivery queue and the read
    position.  This file models the operations they share and the invariant of
    delivery: no message that was read is forgotten, and no message is held by
    two consumers or both held and queued. *)

From S2P Require Import Prelude Position MessageMap LedgerInfo RocksLedger StickyKey Consumer.
From S2P Require Import ReadPosition Redelivery.

Record DispatchState := mkDispatch {
  consumers : gmap Z Consumer;
  total_available_permits : Z;
  redelivery_controller : RedeliveryController;
  read_position : option ManagedLedgerPosition;
}.

Definition dispatch_new (block : bool) : DispatchState :=
  mkDispatch ∅ 0 (controller_new block) None.

Definition set_consumers (cs : gmap Z Consumer) (d : DispatchState) : DispatchState :=
  mkDispatch cs (total_available_permits d) (redelivery_controller d) (read_position d).
Definition set_consumer (c : Consumer) (d : DispatchState) : DispatchState :=
  set_consumers (<[consumer_id c := c]> (consumers d)) d.
Definition set_total (n : Z) (d : DispatchState) : DispatchState :=
  mkDispatch (consumers d) n (redelivery_controller d) (read_position d).
Definition set_redelivery (rc : RedeliveryController) (d : DispatchState) : DispatchState :=
  mkDispatch (consumers d) (total_available_permits d) rc (read_position d).
Definition set_read_position (rp : option ManagedLedgerPosition) (d : DispatchState) : DispatchState :=
  mkDispatch (consumers d) (total_available_permits d) (redelivery_controller d) rp.

Definition DISPATCHER_MAX_ROUND_ROBIN_BATCH_SIZE : Z := 20.

(** ** Permits *)

(** [saturating_sub] on [i32] *)
Definition i32_saturating_sub (a b : Z) : Z := Z.max I32_MIN (Z.min I32_MAX (a - b)).

Definition subtract_total_permits (n : Z) (d : DispatchState) : DispatchState :=
  set_total (i32_saturating_sub (total_available_permits d) (wrap_i32 n)) d.

(** [fetch_add] and [fetch_sub] wrap. *)
Definition add_total (n : Z) (d : DispatchState) : DispatchState :=
  set_total (wrap_i32 (total_available_permits d + wrap_i32 n)) d.
Definition sub_total (n : Z) (d : DispatchState) : DispatchState :=
  set_total (wrap_i32 (total_available_permits d - wrap_i32 n)) d.

(** ** The redelivery queue *)

Definition add_redelivery_entries (es : list RedeliveryEntry) (d : DispatchState) : DispatchState :=
  set_redelivery (foldl (fun rc e => add e rc) (redelivery_controller d) es) d.

Definition restore_redelivery_message (e : RedeliveryEntry) (d : DispatchState) : DispatchState :=
  set_redelivery (restore e (redelivery_controller d)) d.

Definition on_message_acknowledged (m : MessageId) (d : DispatchState) : DispatchState :=
  set_redelivery (remove m (redelivery_controller d)).2 d.

Definition reset_after_seek (pos : option ManagedLedgerPosition) (d : DispatchState) : DispatchState :=
  set_redelivery (clear (redelivery_controller d)) (set_read_position pos d).

(** ** Consumers *)

(** Take the permits of a batch and send; the permits go back when the send
    fails.  [None]: the consumer has no permit. *)
Definition deliver (x : StoredMessage) (count : Z) (h : option Z) (batch : Z) (c : Consumer)
  : option (bool * Consumer) :=
  match try_use_permits batch c with
  | (false, _) => None
  | (true, c) =>
      match send_message_with_sticky_hash (message_id x) (metadata x) (payload x) count h c with
      | (true, c) => Some (true, record_message_dispatched batch (Z.of_nat (length (payload x))) c)
      | (false, c) => Some (false, add_permits batch c)
      end
  end.

(** What a message drained from a consumer becomes in the queue. *)
Definition recovered (hash : PendingAck -> option Z) (x : MessageId * PendingAck) : RedeliveryEntry :=
  mkRedelivery x.1 (wrap_u32 (pa_redelivery_count x.2 + 1)) (hash x.2).

(** A consumer leaves: its permits are subtracted and what it holds is queued. *)
Definition remove_consumer_with_recovery (hash : PendingAck -> option Z) (id : Z) (d : DispatchState)
  : option Consumer * DispatchState :=
  match consumers d !! id with
  | None => (None, d)
  | Some c =>
      let d := set_consumers (delete id (consumers d)) d in
      let d := subtract_total_permits (available_permits_now c) d in
      let '(pending, c) := drain_pending_acks (close_pending_acks c) in
      (Some c, add_redelivery_entries (recovered hash <$> pending) d)
  end.

(** The trait's [remove_consumer]: what the consumer holds stays with it. *)
Definition remove_consumer (id : Z) (d : DispatchState) : option Consumer * DispatchState :=
  match consumers d !! id with
  | None => (None, d)
  | Some c =>
      (Some c, subtract_total_permits (available_permits_now c)
                 (set_consumers (delete id (consumers d)) d))
  end.

(** ** New messages *)

Section store.
Context {S E : Type} `{SubscriptionStore S E}.

(** Some consumer of the list holds the message. *)
Definition is_message_pending (cs : list Consumer) (m : MessageId) : bool :=
  existsb (has_pending_ack m) cs.

Fixpoint dispatchable_loop (fuel : nat) (s : S) (cs : list Consumer) (d : DispatchState)
  : result E (option ReadCandidate) * DispatchState :=
  match fuel with
  | O => (Ok None, d)
  | Datatypes.S fuel =>
      match next_unacked_candidate s (read_position d) with
      | (Err e, rp) => (Err e, set_read_position rp d)
      | (Ok None, rp) => (Ok None, set_read_position rp d)
      | (Ok (Some c), rp) =>
          if is_message_pending cs (message_id (rd_message c))
          then dispatchable_loop fuel s cs
                 (set_read_position (commit_read_position (rd_next_position c)) d)
          else (Ok (Some c), set_read_position rp d)
      end
  end.

Definition next_dispatchable_message (s : S) (cs : list Consumer) (d : DispatchState)
  : result E (option ReadCandidate) * DispatchState :=
  dispatchable_loop (Datatypes.S (ss_size s)) s cs d.

(** ** After acknowledgements *)

(** The acknowledged ones of the queued messages; the first error ends it. *)
Fixpoint acked_of (s : S) (ids : list MessageId) : result E (list MessageId) :=
  match ids with
  | [] => Ok []
  | m :: ids =>
      match ss_is_acknowledged s m with
      | Err e => Err e
      | Ok b =>
          match acked_of s ids with
          | Err e => Err e
          | Ok l => Ok (if b : bool then m :: l else l)
          end
      end
  end.

Definition on_ack_state_updated (s : S) (d : DispatchState) : result E unit * DispatchState :=
  match acked_of s (queued_message_ids (redelivery_controller d)) with
  | Err e => (Err e, d)
  | Ok acked =>
      match ss_first_unacked_position s with
      | Err e => (Err e, d)
      | Ok first =>
          let d := set_redelivery (foldl (fun rc m => (remove m rc).2) (redelivery_controller d) acked) d in
          let rp :=
            match read_position d, first with
            | Some current, Some first =>
                match position_cmp current first with Lt => Some first | _ => Some current end
            | Some _, None => None
            | None, _ => None
            end in
          (Ok tt, set_read_position rp d)
      end
  end.
End store.

(** ** The invariant of delivery *)

(** The consumer of the dispatcher that holds the message. *)
Definition held_by (d : DispatchState) (id : Z) (m : MessageId) : Prop :=
  exists c, consumers d !! id = Some c /\ holds c m.
Definition held (d : DispatchState) (m : MessageId) : Prop := exists id, held_by d id m.
Definition in_queue (d : DispatchState) (m : MessageId) : Prop := queued (redelivery_controller d) m.

Section invariant.
Context (ms : list StoredMessage) (acked : StoredMessage -> bool)
  (readable : ManagedLedgerPosition -> Prop).

Definition stored_id (m : MessageId) : Prop := exists x, x ∈ ms /\ message_id x = m.

(** [hand] is the message in the dispatcher's hands: taken off the queue and not
    yet sent. *)
Record delivery_wf_hand (hand : option MessageId) (d : DispatchState) : Prop := {
  dw_ids : forall id c, consumers d !! id = Some c -> consumer_id c = id;
  dw_queue : controller_wf (redelivery_controller d);
  dw_readable : rp_readable readable (read_position d);
  dw_known : forall m, held d m \/ in_queue d m -> stored_id m;
  dw_once : forall m i j, held_by d i m -> held_by d j m -> i = j;
  dw_apart : forall m, held d m -> ~ in_queue d m;
  dw_kept : forall x, x ∈ ms -> behind (read_position d) x ->
    acked x = true \/ held d (message_id x) \/ in_queue d (message_id x) \/ hand = Some (message_id x);
}.

Definition delivery_wf : DispatchState -> Prop := delivery_wf_hand None.

Lemma dispatch_new_wf block : delivery_wf (dispatch_new block).
Proof.
  assert (forall m id, ~ held_by (dispatch_new block) id m) as Hno.
  { intros m id (c & Hc & _); cbn in Hc; by rewrite lookup_empty in Hc. }
  split.
  - intros id c Hc; cbn in Hc; by rewrite lookup_empty in Hc.
  - apply controller_new_wf.
  - by intros p.
  - intros m [[id Hm]|Hm]; [by apply Hno in Hm |]; unfold in_queue, queued in Hm; cbn in Hm.
    rewrite lookup_empty in Hm; by destruct Hm.
  - intros m i j Hm; by apply Hno in Hm.
  - intros m [id Hm]; by apply Hno in Hm.
  - done.
Qed.

Implicit Types (hand : option MessageId) (d : DispatchState).

Lemma delivery_wf_total hand d n : delivery_wf_hand hand (set_total n d) <-> delivery_wf_hand hand d.
Proof. split; intros []; by split. Qed.

(** A consumer's record replaced by one of the same id. *)
Lemma held_by_set_consumer d c id m :
  held_by (set_consumer c d) id m <->
  (id = consumer_id c /\ holds c m) \/ (id <> consumer_id c /\ held_by d id m).
Proof.
  unfold held_by, set_consumer; cbn; split.
  - intros (x & Hx & Hm); apply lookup_insert_Some in Hx as [[<- <-]|[? ?]]; [by left |].
    right; split; [done |]; by exists x.
  - intros [[-> ?]|[? (x & ? & ?)]]; [exists c; by rewrite lookup_insert_eq |].
    exists x; by rewrite lookup_insert_ne.
Qed.

(** It holds the same messages. *)
Lemma delivery_wf_same hand d c c' :
  delivery_wf_hand hand d -> consumers d !! consumer_id c = Some c ->
  consumer_id c' = consumer_id c -> (forall m, holds c' m <-> holds c m) ->
  delivery_wf_hand hand (set_consumer c' d).
Proof.
  intros [Hids Hq Hr Hkn Hon Hap Hk] Hc Hid Hh.
  assert (forall id m, held_by (set_consumer c' d) id m <-> held_by d id m) as Hby.
  { intros id m; rewrite held_by_set_consumer, Hid, Hh; split; [|intros Hm].
    - intros [[-> ?]|[_ ?]]; [by exists c | done].
    - destruct (decide (id = consumer_id c)) as [->|]; [|by right].
      left; split; [done |]; destruct Hm as (x & Hx & Hm); congruence. }
  assert (forall m, held (set_consumer c' d) m <-> held d m) as Hheld
    by (intros m; unfold held; by setoid_rewrite Hby).
  split; try done.
  - intros id x; cbn; intros [[<- <-]|[_ ?]]%lookup_insert_Some; [done | by apply Hids].
  - intros m; rewrite Hheld; apply Hkn.
  - intros m i j; rewrite !Hby; apply Hon.
  - intros m; rewrite Hheld; apply Hap.
  - intros x Hx Hb; rewrite Hheld; by apply Hk.
Qed.

(** It also holds one more message, which was in nobody's hands but the
    dispatcher's. *)
Lemma delivery_wf_hold hand d c c' m :
  delivery_wf_hand hand d -> consumers d !! consumer_id c = Some c ->
  consumer_id c' = consumer_id c -> (forall k, holds c' k <-> k = m \/ holds c k) ->
  stored_id m -> ~ held d m -> ~ in_queue d m -> hand = None \/ hand = Some m ->
  delivery_wf (set_consumer c' d) /\ (forall k, held (set_consumer c' d) k <-> k = m \/ held d k).
Proof.
  intros [Hids Hq Hr Hkn Hon Hap Hk] Hc Hid Hh Hm Hfree Hnq Hhand.
  assert (forall id k, held_by (set_consumer c' d) id k <->
            (id = consumer_id c /\ k = m) \/ held_by d id k) as Hby.
  { intros id k; rewrite held_by_set_consumer, Hid, Hh; split.
    - intros [[-> [->|?]]|[_ ?]]; [by left | right; by exists c | by right].
    - intros [[-> ->]|Hb]; [by left; auto |].
      destruct (decide (id = consumer_id c)) as [->|]; [|by right].
      left; split; [done |]; right; destruct Hb as (x & Hx & Hb); congruence. }
  assert (forall k, held (set_consumer c' d) k <-> k = m \/ held d k) as Hheld.
  { intros k; unfold held; setoid_rewrite Hby; split.
    - intros (id & [[_ ->]|?]); [by left | right; by exists id].
    - intros [->|(id & ?)]; [exists (consumer_id c); by left | exists id; by right]. }
  split; [|done]; split; try done.
  - intros id x; cbn; intros [[<- <-]|[_ ?]]%lookup_insert_Some; [done | by apply Hids].
  - intros k; rewrite Hheld; intros [[->|?]|?]; [done | apply Hkn; by left | apply Hkn; by right].
  - intros k i j; rewrite !Hby; intros [[-> ->]|Hi] [[-> Hj']|Hj]; try done.
    + exfalso; apply Hfree; by exists j.
    + subst; exfalso; apply Hfree; by exists i.
    + by eapply Hon.
  - intros k; rewrite Hheld; intros [->|?]; [done | by apply Hap].
  - intros x Hx Hb; rewrite Hheld.
    destruct (Hk x Hx Hb) as [?|[?|[?|Hx']]]; auto.
    destruct Hhand as [-> | ->]; [done |]; injection Hx' as ->; auto.
Qed.

(** The queue changed by [set_redelivery]. *)
Lemma delivery_wf_queue hand hand' d rc :
  delivery_wf_hand hand d -> controller_wf rc ->
  (forall m, queued rc m -> in_queue d m \/ (stored_id m /\ ~ held d m)) ->
  (forall m, in_queue d m \/ hand = Some m -> queued rc m \/ hand' = Some m \/
     forall x, x ∈ ms -> message_id x = m -> acked x = true) ->
  delivery_wf_hand hand' (set_redelivery rc d).
Proof.
  intros [Hids Hq Hr Hkn Hon Hap Hk] Hrc Hin Hout; split; try done.
  - intros m [?|Hm]; [apply Hkn; by left |].
    destruct (Hin m Hm) as [?|[? _]]; [apply Hkn; by right | done].
  - intros m Hm Hqm; destruct (Hin m Hqm) as [?|[_ ?]]; [by eapply Hap | done].
  - intros x Hx Hb; change (held (set_redelivery rc d)) with (held d).
    change (in_queue (set_redelivery rc d)) with (queued rc).
    destruct (Hk x Hx Hb) as [?|[?|Hm]]; [by left | by right; left |].
    destruct (Hout (message_id x) Hm) as [?|[?|Ha]]; [by right; right; left | by right; right; right |].
    left; by apply Ha.
Qed.

(** The read position moved. *)
Lemma delivery_wf_position hand d rp :
  delivery_wf_hand hand d -> rp_readable readable rp ->
  (forall x, x ∈ ms -> behind rp x -> behind (read_position d) x \/ acked x = true \/
     held d (message_id x) \/ in_queue d (message_id x)) ->
  delivery_wf_hand hand (set_read_position rp d).
Proof.
  intros [Hids Hq Hr Hkn Hon Hap Hk] Hrp Hmove; split; try done.
  intros x Hx Hb; change (held (set_read_position rp d)) with (held d).
  change (in_queue (set_read_position rp d)) with (in_queue d).
  destruct (Hmove x Hx Hb) as [Hb'|[?|[?|?]]]; auto.
Qed.
End invariant.

(** ** New messages *)

Section search.
Context {S E : Type} `{SubscriptionStore S E} (s : S) (ms : list StoredMessage)
  (acked : StoredMessage -> bool) (readable : ManagedLedgerPosition -> Prop)
  (Hs : presents s ms acked readable).

(** The messages a search can still pass. *)
Definition ahead (rp : option ManagedLedgerPosition) : list StoredMessage :=
  filter (fun x => ~ behind rp x) ms.

Lemma ahead_commit rp c rp' :
  found ms acked readable rp c rp' ->
  (length (ahead (commit_read_position (rd_next_position c))) < length (ahead rp))%nat.
Proof.
  intros [Hin _ Hah _ _ _ Hnext _]; apply filter_shorter with (y := rd_message c); [|done | done |].
  - intros x Hx Hn Hb; apply Hn, Hnext; [done |].
    destruct rp as [p|]; cbn in *; [lia | done].
  - intros Hn; apply Hn, Hnext; [done | lia].
Qed.

(** Nothing in front of a message that the dispatcher could have sent first. *)
Definition settled (d : DispatchState) (x : StoredMessage) : Prop :=
  acked x = true \/ behind (read_position d) x \/ held d (message_id x).

(** What a search returns: the first message that is neither acknowledged nor
    behind the read position nor held. *)
Definition search_spec (hand : option MessageId) (d : DispatchState)
    (r : result E (option ReadCandidate) * DispatchState) : Prop :=
  exists rp', r.2 = set_read_position rp' d /\
  delivery_wf_hand ms acked readable hand (set_read_position rp' d) /\
  (forall x, x ∈ ms -> behind (read_position d) x -> behind rp' x) /\
  match r.1 with
  | Ok (Some c) =>
      rd_message c ∈ ms /\ ~ settled d (rd_message c) /\
      (forall x, x ∈ ms -> msg_rank x < msg_rank (rd_message c) -> settled d x) /\
      readable (rd_next_position c) /\
      (forall x, x ∈ ms -> behind (commit_read_position (rd_next_position c)) x ->
         x = rd_message c \/ behind rp' x) /\
      (forall x, x ∈ ms -> behind (commit_read_position (rd_next_position c)) x <->
         msg_rank x <= msg_rank (rd_message c)) /\
      (forall x, x ∈ ms -> behind rp' x -> behind (commit_read_position (rd_next_position c)) x)
  | Ok None => forall x, x ∈ ms -> settled d x
  | Err _ => False
  end.

Lemma dispatchable_loop_spec fuel cs hand d :
  delivery_wf_hand ms acked readable hand d ->
  (forall m, is_message_pending cs m = true <-> held d m) ->
  (length (ahead (read_position d)) < fuel)%nat ->
  search_spec hand d (dispatchable_loop fuel s cs d).
Proof.
  revert d; induction fuel as [|fuel IH]; intros d Hd Hcs Hfuel; [lia |]; cbn [dispatchable_loop].
  pose proof (next_unacked_candidate_spec s ms acked readable Hs _ (dw_readable _ _ _ _ _ Hd)) as Hr.
  destruct (next_unacked_candidate s (read_position d)) as [[[c|]|] rp]; cbn in Hr; [| |done].
  - pose proof (ahead_commit _ _ _ Hr) as Hless; destruct Hr as [Hin Hun Hah Hfst Hre Hrr Hnext Hnr].
    assert (forall x, x ∈ ms -> behind (commit_read_position (rd_next_position c)) x ->
              x = rd_message c \/ behind rp x) as Hpass.
    { intros x Hx Hb; apply Hnext in Hb; [|done].
      destruct (decide (msg_rank x < msg_rank (rd_message c))); [right; by apply Hre | left].
      eapply msg_rank_inj; [apply (pr_sorted _ _ _ _ Hs) | done | done | lia]. }
    destruct (is_message_pending cs (message_id (rd_message c))) eqn:Hp.
    + apply Hcs in Hp.
      assert (forall x, x ∈ ms -> behind (commit_read_position (rd_next_position c)) x -> settled d x) as Hset.
      { intros x Hx Hb; destruct (Hpass x Hx Hb) as [->|Hb']; [by right; right |].
        apply Hre in Hb'; [|done]; destruct (Hfst x Hx Hb'); [by left | by right; left]. }
      assert (forall x, x ∈ ms -> behind (read_position d) x ->
                behind (commit_read_position (rd_next_position c)) x) as Hfwd.
      { intros x Hx Hb; apply Hnext; [done |]; destruct (read_position d) as [p|]; cbn in *; [lia | done]. }
      edestruct (IH (set_read_position (commit_read_position (rd_next_position c)) d)) as (rp' & E1 & Hwf & Hmono & Hm).
      * apply delivery_wf_position; [done | by intros ? [= <-] |].
        intros x Hx Hb; destruct (Hset x Hx Hb) as [?|[?|?]]; auto.
      * done.
      * cbn [read_position set_read_position]; lia.
      * exists rp'; rewrite E1; split; [done |]; split; [done |]; split; [by intros x Hx Hb; apply Hmono, Hfwd |].
        destruct (dispatchable_loop _ _ _ _).1 as [[c'|]|]; [| |done].
        -- destruct Hm as (Hin' & Hns & Hbef & Hnr' & Hps & Hcm & Hrp); split_and!; try done.
           ++ intros [?|[Hb|?]]; apply Hns; [by left | | by right; right].
              right; left; cbn; by apply Hfwd.
           ++ intros x Hx Hlt; destruct (Hbef x Hx Hlt) as [?|[Hb|?]]; [by left | by apply Hset | by right; right].
        -- intros x Hx; destruct (Hm x Hx) as [?|[Hb|?]]; [by left | by apply Hset | by right; right].
    + exists rp; split; [done |]; split; [|split].
      * apply delivery_wf_position; [done | done |].
        intros x Hx Hb; apply Hre in Hb; [|done]; destruct (Hfst x Hx Hb); auto.
      * intros x Hx Hb; apply Hre; [done |]; destruct (read_position d) as [p|]; cbn in *; [lia | done].
      * cbn; split_and!; try done.
        -- intros [Ha|[?|Hheld%Hcs]]; congruence.
        -- intros x Hx Hlt; destruct (Hfst x Hx Hlt); [by left | by right; left].
        -- intros x Hx Hb; apply Hnext; [done |]; apply Hre in Hb; [lia | done].
  - destruct Hr as [Hdone Hrr _ Hfw]; exists rp; split; [done |]; split; [|split; [done |]].
    + apply delivery_wf_position; [done | done |]; intros x Hx _; destruct (Hdone x Hx); auto.
    + intros x Hx; destruct (Hdone x Hx); [by left | by right; left].
Qed.

Lemma next_dispatchable_message_spec cs hand d :
  delivery_wf_hand ms acked readable hand d ->
  (forall m, is_message_pending cs m = true <-> held d m) ->
  search_spec hand d (next_dispatchable_message s cs d).
Proof.
  intros Hd Hcs; apply dispatchable_loop_spec; [done | done |].
  pose proof (pr_size _ _ _ _ Hs); pose proof (length_filter (fun x => ~ behind (read_position d) x) ms).
  unfold ahead; lia.
Qed.
End search.

(** ** Operations and the invariant *)

Lemma wrap_i32_restore p n : i32_ok p -> wrap_i32 (wrap_i32 (p - wrap_i32 n) + wrap_i32 n) = p.
Proof.
  intros Hp; unfold wrap_i32 at 1 2; set (w := wrap_i32 n).
  replace ((p - w + 2147483648) mod 4294967296 - 2147483648 + w + 2147483648)
    with ((p - w + 2147483648) mod 4294967296 + w) by lia.
  rewrite Zplus_mod_idemp_l; replace (p - w + 2147483648 + w) with (p + 2147483648) by lia.
  rewrite Z.mod_small by mlia; lia.
Qed.

Lemma deliver_spec x count h batch c r :
  deliver x count h batch c = r -> ~ holds c (message_id x) ->
  match r with
  | None => available_permits c <= 0
  | Some (true, c') =>
      0 < available_permits c /\ consumer_id c' = consumer_id c /\
      (forall k, holds c' k <-> k = message_id x \/ holds c k) /\
      delivered c' = delivered c ++ [mkPending (message_id x) (metadata x) (payload x) count] /\
      available_permits c' = wrap_i32 (available_permits c - wrap_i32 batch)
  | Some (false, c') =>
      0 < available_permits c /\ consumer_id c' = consumer_id c /\
      (forall k, holds c' k <-> holds c k) /\ delivered c' = delivered c /\
      (i32_ok (available_permits c) -> available_permits c' = available_permits c)
  end.
Proof.
  intros <- Hfree; unfold deliver.
  destruct (try_use_permits batch c) as [b c1] eqn:E1.
  apply try_use_permits_fields in E1 as (Hb & Hi1 & Hp1 & Hd1 & Hl1 & Ha1).
  destruct b; [|symmetry in Hb; lia].
  destruct (send_message_with_sticky_hash _ _ _ _ _ c1) as [b c2] eqn:E2.
  apply send_message_spec in E2 as (Hi2 & Ha2 & _ & Hother & Hb2); unfold holds in *; rewrite Hp1 in *.
  destruct b; unfold consumer_id; cbn.
  - destruct Hb2 as [Hm Hdel]; split_and!; [lia | congruence | | by rewrite Hdel, Hd1 | congruence].
    intros k; destruct (decide (k = message_id x)) as [->|Hk]; [rewrite Hm; naive_solver |].
    rewrite Hother by done; naive_solver.
  - destruct Hb2 as [Hdel Hm]; split_and!; [lia | congruence | | congruence |].
    + intros k; destruct (decide (k = message_id x)) as [->|Hk]; [tauto |]; by rewrite Hother.
    + intros Hok; rewrite Ha2, Ha1; by apply wrap_i32_restore.
Qed.

Lemma foldl_add_spec es rc :
  controller_wf rc ->
  controller_wf (foldl (fun rc e => add e rc) rc es) /\
  (forall m, queued (foldl (fun rc e => add e rc) rc es) m <-> m ∈ (re_message_id <$> es) \/ queued rc m) /\
  in_flight_hashes (foldl (fun rc e => add e rc) rc es) = in_flight_hashes rc /\
  block_hashes (foldl (fun rc e => add e rc) rc es) = block_hashes rc.
Proof.
  revert rc; induction es as [|e es IH]; intros rc Hrc; cbn.
  - split_and!; try done; intros m; rewrite elem_of_nil; tauto.
  - destruct (add_spec e rc Hrc) as (Hw & Hq & Hf & Hb), (IH (add e rc) Hw) as (? & Hq' & Hf' & Hb').
    split_and!; [done | | congruence | congruence].
    intros m; rewrite Hq', Hq, elem_of_cons; tauto.
Qed.

Lemma foldl_remove_spec ms rc :
  controller_wf rc ->
  controller_wf (foldl (fun rc m => (remove m rc).2) rc ms) /\
  (forall m, queued (foldl (fun rc m => (remove m rc).2) rc ms) m <-> (m ∉ ms) /\ queued rc m).
Proof.
  revert rc; induction ms as [|x ms IH]; intros rc Hrc; cbn.
  - split; [done |]; intros m; rewrite elem_of_nil; tauto.
  - destruct (remove_spec x rc Hrc) as (Hw & Hq & _ & _), (IH _ Hw) as (? & Hq').
    split; [done |]; intros m; rewrite Hq', Hq, not_elem_of_cons; tauto.
Qed.

Section operations.
Context (ms : list StoredMessage) (acked : StoredMessage -> bool)
  (readable : ManagedLedgerPosition -> Prop).
Local Abbreviation wf := (delivery_wf ms acked readable).
Local Abbreviation wf_hand := (delivery_wf_hand ms acked readable).

(** Taking the first message off the queue puts it into the dispatcher's hands. *)
Lemma pop_wf d e rc :
  wf d -> pop_next (redelivery_controller d) = (Some e, rc) ->
  wf_hand (Some (re_message_id e)) (set_redelivery rc d) /\ stored_id ms (re_message_id e) /\
  ~ held d (re_message_id e) /\ ~ in_queue (set_redelivery rc d) (re_message_id e).
Proof.
  intros Hd Hpop; pose proof (pop_next_spec _ (dw_queue _ _ _ _ _ Hd)) as Hp; rewrite Hpop in Hp.
  destruct Hp as (Hrc & He & _ & Hq & _ & _).
  assert (in_queue d (re_message_id e)) as Hin by by exists e.
  split_and!.
  - eapply delivery_wf_queue; [exact Hd | done | |].
    + intros m Hm; apply Hq in Hm as [_ Hm]; by left.
    + intros m [Hm|?]; [|done]; destruct (decide (m = re_message_id e)) as [->|Hne]; [by right; left |].
      left; by apply Hq.
  - apply (dw_known _ _ _ _ _ Hd); by right.
  - intros Hh; by apply (dw_apart _ _ _ _ _ Hd _ Hh).
  - unfold in_queue; cbn; rewrite Hq; tauto.
Qed.

(** It goes back to the queue. *)
Lemma restore_wf hand d e :
  wf_hand hand d -> hand = None \/ hand = Some (re_message_id e) ->
  stored_id ms (re_message_id e) -> ~ held d (re_message_id e) ->
  wf (restore_redelivery_message e d).
Proof.
  intros Hd Hhand Hst Hh; destruct (restore_spec e _ (dw_queue _ _ _ _ _ Hd)) as (Hrc & Hq & _).
  eapply delivery_wf_queue; [exact Hd | done | |].
  - intros m Hm; apply Hq in Hm as [->|Hm]; [by right | by left].
  - intros m [Hm|Hm]; left; apply Hq; [by right |].
    destruct Hhand as [-> | ->]; [done | injection Hm as ->; by left].
Qed.

(** It is acknowledged and can be dropped. *)
Lemma drop_wf m d :
  wf_hand (Some m) d -> (forall x, x ∈ ms -> message_id x = m -> acked x = true) -> wf d.
Proof.
  intros [] Ha; split; try done; intros x Hx Hb.
  destruct (dw_kept0 x Hx Hb) as [?|[?|[?|[= ->]]]]; auto.
Qed.

Lemma add_redelivery_entries_wf d es :
  wf d -> (forall e, e ∈ es -> stored_id ms (re_message_id e) /\ ~ held d (re_message_id e)) ->
  wf (add_redelivery_entries es d).
Proof.
  intros Hd Hes; destruct (foldl_add_spec es _ (dw_queue _ _ _ _ _ Hd)) as (Hrc & Hq & _).
  eapply delivery_wf_queue; [exact Hd | done | |].
  - intros m Hm; apply Hq in Hm as [(e & -> & He)%list_elem_of_fmap|Hm]; [right; by apply Hes | by left].
  - intros m [Hm|?]; [|done]; left; apply Hq; by right.
Qed.

(** The messages of [l] leave their consumer; [d'] is the dispatcher without
    them, and they are queued again. *)
Lemma requeue_wf d d' es :
  wf d -> (forall id c, consumers d' !! id = Some c -> consumer_id c = id) ->
  redelivery_controller d' = redelivery_controller d -> read_position d' = read_position d ->
  (forall id m, held_by d' id m -> held_by d id m) ->
  (forall e, e ∈ es -> held d (re_message_id e) /\ ~ held d' (re_message_id e)) ->
  (forall m, held d m -> held d' m \/ m ∈ (re_message_id <$> es) \/
     forall x, x ∈ ms -> message_id x = m -> acked x = true) ->
  wf (add_redelivery_entries es d').
Proof.
  intros [Hids Hq Hr Hkn Hon Hap Hk] Hids' Erc Erp Hsub Hes Hmoved.
  destruct (foldl_add_spec es _ Hq) as (Hrc & Hqd & _).
  assert (forall m, held d' m -> held d m) as Hheld by (intros m (id & Hm); exists id; auto).
  split; cbn; rewrite ?Erc, ?Erp; try done.
  - intros m [Hm|Hm]; [apply Hkn; left; by apply Hheld |].
    unfold in_queue in Hm; cbn in Hm; rewrite Erc in Hm.
    apply Hqd in Hm as [(e & -> & He)%list_elem_of_fmap|Hm]; apply Hkn; [left; by apply Hes | by right].
  - intros m i j Hi Hj; eapply Hon; apply Hsub; done.
  - intros m Hm Hqm; unfold in_queue in Hqm; cbn in Hqm; rewrite Erc in Hqm.
    apply Hqd in Hqm as [(e & -> & He)%list_elem_of_fmap|Hqm];
      [by apply (proj2 (Hes e He)) | by eapply Hap; [apply Hheld |]].
  - intros x Hx Hb; change (held (add_redelivery_entries es d')) with (held d').
    unfold in_queue; cbn; rewrite Erc, Hqd.
    destruct (Hk x Hx Hb) as [?|[Hh|[?|?]]]; [by left | | by right; right; left; right | done].
    destruct (Hmoved _ Hh) as [?|[?|Ha]]; [by right; left | by right; right; left; left | left; by apply Ha].
Qed.

Lemma remove_consumer_with_recovery_wf hash id d :
  wf d -> wf (remove_consumer_with_recovery hash id d).2 /\
  (forall m, held_by d id m -> in_queue (remove_consumer_with_recovery hash id d).2 m) /\
  consumers (remove_consumer_with_recovery hash id d).2 = delete id (consumers d).
Proof.
  intros Hd; unfold remove_consumer_with_recovery.
  destruct (consumers d !! id) as [c|] eqn:Ec; cbn [snd].
  2:{ split_and!; [done | | by rewrite delete_id]; intros m (c & Hc & _); congruence. }
  destruct (drain_pending_acks (close_pending_acks c)) as [pending c'] eqn:Ed.
  apply drain_pending_acks_spec in Ed as (_ & _ & _ & _ & _ & _ & Hpend).
  assert (forall m, m ∈ (re_message_id <$> (recovered hash <$> pending)) <-> holds c m) as Hids.
  { intros m; rewrite <- list_fmap_compose, list_elem_of_fmap; unfold holds; split.
    - intros ([k a] & -> & Hin%Hpend); by exists a.
    - intros [a Ha]; exists (m, a); split; [done |]; by apply Hpend. }
  cbn [snd]; split_and!; [|intros m (c0 & Hc0 & Hm) | done].
  - apply (requeue_wf d); try done.
    + intros j x; cbn; intros [_ Hx]%lookup_delete_Some; by apply (dw_ids _ _ _ _ _ Hd).
    + intros j m (x & Hx & Hm); cbn in Hx; apply lookup_delete_Some in Hx as [_ Hx]; by exists x.
    + intros e He; assert (holds c (re_message_id e)) as Hh by (apply Hids; by apply list_elem_of_fmap_2).
      split; [exists id; by exists c |]; intros (j & x & Hx & Hm); cbn in Hx.
      apply lookup_delete_Some in Hx as [Hj Hx]; apply Hj.
      eapply (dw_once _ _ _ _ _ Hd); [by exists c | by exists x].
    + intros m (j & x & Hx & Hm); destruct (decide (j = id)) as [->|Hj].
      * right; left; apply Hids; congruence.
      * left; exists j, x; cbn; by rewrite lookup_delete_ne.
  - unfold in_queue; cbn.
    destruct (foldl_add_spec (recovered hash <$> pending) _ (dw_queue _ _ _ _ _ Hd)) as (_ & Hq & _).
    apply Hq; left; apply Hids; congruence.
Qed.

Lemma add_consumer_wf hand d c :
  wf_hand hand d -> consumers d !! consumer_id c = None -> (forall m, ~ holds c m) ->
  wf_hand hand (set_consumer c d).
Proof.
  intros [Hids Hq Hr Hkn Hon Hap Hk] Hc Hno.
  assert (forall id m, held_by (set_consumer c d) id m <-> held_by d id m) as Hby.
  { intros id m; rewrite held_by_set_consumer; split.
    - intros [[_ Hm]|[_ ?]]; [by apply Hno in Hm | done].
    - intros Hm; right; split; [|done]; intros ->; destruct Hm as (x & Hx & _); congruence. }
  assert (forall m, held (set_consumer c d) m <-> held d m) as Hheld
    by (intros m; unfold held; by setoid_rewrite Hby).
  split; try done.
  - intros id x; cbn; intros [[<- <-]|[_ ?]]%lookup_insert_Some; [done | by apply Hids].
  - intros m; rewrite Hheld; apply Hkn.
  - intros m i j; rewrite !Hby; apply Hon.
  - intros m; rewrite Hheld; apply Hap.
  - intros x Hx Hb; rewrite Hheld; by apply Hk.
Qed.
(** More messages are acknowledged. *)
Lemma acked_wf acked' d :
  wf d -> (forall x, x ∈ ms -> acked x = true -> acked' x = true) -> delivery_wf ms acked' readable d.
Proof.
  intros [] Ha; split; try done; intros x Hx Hb.
  destruct (dw_kept0 x Hx Hb) as [?|[?|[?|?]]]; auto.
Qed.

(** A consumer lets go of messages that are acknowledged. *)
Lemma release_wf d c c' :
  wf d -> consumers d !! consumer_id c = Some c -> consumer_id c' = consumer_id c ->
  (forall m, holds c' m -> holds c m) ->
  (forall m, holds c m -> holds c' m \/ forall x, x ∈ ms -> message_id x = m -> acked x = true) ->
  wf (set_consumer c' d).
Proof.
  intros Hd Hc Hid Hsub Hlost.
  apply (requeue_wf d (set_consumer c' d) []); try done.
  - intros id x; cbn; intros [[<- <-]|[_ ?]]%lookup_insert_Some; [done | by apply (dw_ids _ _ _ _ _ Hd)].
  - intros id m; rewrite held_by_set_consumer, Hid; intros [[-> Hm]|[_ ?]]; [exists c; auto | done].
  - by intros e ?%elem_of_nil.
  - intros m (id & x & Hx & Hm); destruct (decide (id = consumer_id c)) as [->|Hne].
    + rewrite Hc in Hx; injection Hx as <-; destruct (Hlost m Hm) as [?|?]; [left | by right; right].
      exists (consumer_id c); apply held_by_set_consumer; left; by rewrite Hid.
    + left; exists id; apply held_by_set_consumer; right; rewrite Hid; split; [done |]; by exists x.
Qed.

Lemma on_message_acknowledged_wf m d :
  wf d -> (forall x, x ∈ ms -> message_id x = m -> acked x = true) ->
  wf (on_message_acknowledged m d) /\ ~ in_queue (on_message_acknowledged m d) m.
Proof.
  intros Hd Ha; destruct (remove_spec m _ (dw_queue _ _ _ _ _ Hd)) as (Hrc & Hq & _).
  split; [|unfold in_queue; cbn; rewrite Hq; tauto].
  eapply delivery_wf_queue; [exact Hd | done | |].
  - intros k Hk; apply Hq in Hk as [_ ?]; by left.
  - intros k [Hk|?]; [|done]; destruct (decide (k = m)) as [->|]; [by right; right |].
    left; by apply Hq.
Qed.
End operations.

Section ack_state.
Context {S E : Type} `{SubscriptionStore S E} (s : S) (ms : list StoredMessage)
  (acked : StoredMessage -> bool) (readable : ManagedLedgerPosition -> Prop)
  (Hs : presents s ms acked readable).

Lemma acked_of_spec ids :
  (forall m, m ∈ ids -> stored_id ms m) ->
  exists l, acked_of s ids = Ok l /\
    forall m, m ∈ l -> m ∈ ids /\ forall x, x ∈ ms -> message_id x = m -> acked x = true.
Proof.
  induction ids as [|m ids IH]; intros Hids; cbn; [exists []; split; [done | by intros m ?%elem_of_nil] |].
  destruct IH as (l & -> & Hl); [intros k Hk; apply Hids; by right |].
  destruct (Hids m ltac:(by left)) as (x & Hx & <-); rewrite (pr_acked _ _ _ _ Hs x Hx).
  destruct (acked x) eqn:Ea; (eexists; split; [reflexivity |]).
  - intros k [->|Hk]%elem_of_cons; [|destruct (Hl k Hk); split; [by right | done]].
    split; [by left |]; intros y Hy Heq; rewrite <- Ea; f_equal.
    pose proof (pr_get _ _ _ _ Hs x Hx); pose proof (pr_get _ _ _ _ Hs y Hy); congruence.
  - intros k Hk; destruct (Hl k Hk); split; [by right | done].
Qed.

Lemma on_ack_state_updated_wf d :
  delivery_wf ms acked readable d ->
  exists d', on_ack_state_updated s d = (Ok tt, d') /\ delivery_wf ms acked readable d' /\
    consumers d' = consumers d.
Proof.
  intros Hd; unfold on_ack_state_updated.
  destruct (acked_of_spec (queued_message_ids (redelivery_controller d))) as (l & -> & Hl).
  { intros m Hm%elem_of_btree_keys; apply (dw_known _ _ _ _ _ Hd); by right. }
  pose proof (pr_first _ _ _ _ Hs) as Hf.
  destruct (ss_first_unacked_position s) as [first|]; [|done].
  eexists; split; [reflexivity |]; split; [|done].
  destruct (foldl_remove_spec l _ (dw_queue _ _ _ _ _ Hd)) as (Hrc & Hq).
  assert (delivery_wf ms acked readable
    (set_redelivery (foldl (fun rc m => (remove m rc).2) (redelivery_controller d) l) d)) as Hd1.
  { eapply delivery_wf_queue; [exact Hd | done | |].
    - intros m Hm; apply Hq in Hm as [_ ?]; by left.
    - intros m [Hm|?]; [|done]; destruct (decide (m ∈ l)) as [Hin|]; [right; right; by apply Hl |].
      left; by apply Hq. }
  apply delivery_wf_position; [done | |]; cbn [read_position set_redelivery].
  - pose proof (dw_readable _ _ _ _ _ Hd) as Hr.
    destruct (read_position d) as [p|], first as [q|]; try done; destruct Hf as [Hfr _].
    destruct (position_cmp p q); intros ? [= <-]; [by apply Hr | done | by apply Hr].
  - intros x Hx; destruct (read_position d) as [p|] eqn:Ep, first as [q|]; try done.
    destruct (position_cmp p q); try (intros; by left); intros Hb; right; left.
    destruct Hf as (_ & m & Hm & Hrank).
    pose proof (find_sorted _ (fun m => negb (acked m)) _ (pr_sorted _ _ _ _ Hs)) as Hfs.
    rewrite Hm in Hfs; destruct Hfs as (_ & _ & Hleast); destruct (acked x) eqn:Ea; [done |].
    cbn in Hb; destruct (Hleast x Hx ltac:(by rewrite Ea)) as [->|?]; lia.
Qed.
End ack_state.

(** ** Handing a message over *)

#[global] Instance held_dec d m : Decision (held d m).
Proof.
  refine (cast_if (decide (map_Exists (fun _ c => holds c m) (consumers d)))).
  - abstract (destruct m0 as (id & c & Hc & Hm); by exists id, c).
  - abstract (intros (id & c & Hc & Hm); apply n; by exists id, c).
Defined.

Lemma deliver_info x count h batch c b c' : deliver x count h batch c = Some (b, c') -> info c' = info c.
Proof.
  unfold deliver; destruct (try_use_permits batch c) as [[] c1] eqn:E1; [|done].
  apply try_use_permits_fields in E1 as (_ & Hi1 & _).
  destruct (send_message_with_sticky_hash _ _ _ _ _ c1) as [b2 c2] eqn:E2.
  apply send_message_spec in E2 as (Hi2 & _); destruct b2; intros [= <- <-]; cbn; congruence.
Qed.

(** A consumer that will take the next [n] messages, given permits. *)
Definition ready (max n : nat) (c : Consumer) : Prop :=
  closed (pending_acks c) = false /\ Forall (eq Slot) (link c) /\ (n <= length (link c))%nat /\
  (pending_acks_len c + n <= max)%nat.

Lemma ready_less max n k c : ready max n c -> (k <= n)%nat -> ready max k c.
Proof. intros (? & ? & ? & ?) ?; split_and!; [done | done | lia | lia]. Qed.

Lemma deliver_ready max n x count h batch c :
  ready max (S n) c -> 0 < available_permits c -> ~ holds c (message_id x) ->
  exists c', deliver x count h batch c = Some (true, c') /\ ready max n c'.
Proof.
  intros (Hcl & Hl & Hn & Hmax) Hp Hm; unfold deliver, try_use_permits.
  destruct (Z.ltb_spec 0 (available_permits c)); [|lia].
  unfold send_message_with_sticky_hash, add_pending_ack; cbn.
  destruct (link c) as [|a l] eqn:El; cbn in *; [lia |]; apply Forall_cons in Hl as [<- Hl]; cbn.
  rewrite Hcl; cbn; eexists; split; [reflexivity |].
  unfold ready, pending_acks_len, pending_len in *; cbn; split_and!; [done | done | lia |].
  rewrite map_size_insert_None; [lia |]; by apply eq_None_not_Some.
Qed.

Section hand_over.
Context {S E : Type} `{SubscriptionStore S E}.
Context (s : S) (ms : list StoredMessage) (acked : StoredMessage -> bool)
  (readable : ManagedLedgerPosition -> Prop) (Hs : presents s ms acked readable).
Local Abbreviation wf := (delivery_wf ms acked readable).
Local Abbreviation wf_hand := (delivery_wf_hand ms acked readable).
Implicit Types (d : DispatchState).

(** The messages that still have to be delivered. *)
Definition outstanding d : list StoredMessage :=
  filter (fun x => acked x = false /\ ~ held d (message_id x)) ms.

Lemma outstanding_ext d d' :
  (forall m, held d' m <-> held d m) -> outstanding d' = outstanding d.
Proof. intros Hh; apply list_filter_ext; intros x _; by rewrite Hh. Qed.

(** No message in the queue is acknowledged. *)
Definition queue_fresh d : Prop :=
  forall x, x ∈ ms -> in_queue d (message_id x) -> acked x = false.

Lemma stored_id_inj x y : x ∈ ms -> y ∈ ms -> message_id x = message_id y -> x = y.
Proof.
  intros Hx Hy Heq; pose proof (pr_get _ _ _ _ Hs x Hx); pose proof (pr_get _ _ _ _ Hs y Hy); congruence.
Qed.

(** What is common to all turns: only the record of the chosen consumer changes,
    and it keeps what it holds. *)
Record consumers_kept (c : Consumer) d d' : Prop := {
  ck_others : forall id, id <> consumer_id c -> consumers d' !! id = consumers d !! id;
  ck_info : exists c', consumers d' !! consumer_id c = Some c' /\ info c' = info c;
  ck_held : forall id m, held_by d id m -> held_by d' id m;
}.

Lemma consumers_kept_same c d d' :
  consumers d !! consumer_id c = Some c -> consumers d' = consumers d -> consumers_kept c d d'.
Proof. intros Hc E1; split; unfold held_by; rewrite ?E1; [done | by exists c | done]. Qed.

Lemma consumers_kept_from c d0 d d' :
  consumers d = consumers d0 -> consumers_kept c d d' -> consumers_kept c d0 d'.
Proof.
  intros E1 [H1 H2 H3]; split; [by rewrite <- E1 | done |].
  intros id m Hm; apply H3; unfold held_by; by rewrite E1.
Qed.

(** A message in hand was sent: it is held now. *)
Definition sent_to (c : Consumer) (x : StoredMessage) d d' : Prop :=
  x ∈ ms /\ acked x = false /\ ~ held d (message_id x) /\ held_by d' (consumer_id c) (message_id x) /\
  forall m, held d' m <-> m = message_id x \/ held d m.

Lemma sent_to_outstanding c x d d' :
  sent_to c x d d' -> (length (outstanding d') < length (outstanding d))%nat.
Proof.
  intros (Hx & Ha & Hn & _ & Hh); apply filter_shorter with (y := x); [|done | done |].
  - intros y _ [? Hy]; split; [done |]; rewrite Hh in Hy; tauto.
  - intros [_ Hy]; apply Hy, Hh; by left.
Qed.

(** Sending a message that is in nobody else's hands. *)
Lemma deliver_sent_wf hand d x count h batch c c' :
  wf_hand hand d -> consumers d !! consumer_id c = Some c -> x ∈ ms -> acked x = false ->
  ~ held d (message_id x) -> ~ in_queue d (message_id x) -> hand = None \/ hand = Some (message_id x) ->
  deliver x count h batch c = Some (true, c') ->
  wf (set_consumer c' d) /\ sent_to c x d (set_consumer c' d) /\ consumers_kept c d (set_consumer c' d).
Proof.
  intros Hd Hc Hx Ha Hn Hq Hhand Hdel; pose proof (deliver_info _ _ _ _ _ _ _ Hdel) as Hinfo.
  assert (~ holds c (message_id x)) as Hfree by (intros ?; apply Hn; by exists (consumer_id c), c).
  apply deliver_spec in Hdel as (_ & Hid & Hh & _); [|done].
  destruct (delivery_wf_hold ms acked readable hand d c c' (message_id x)) as [Hwf Hheld]; try done; [by exists x |].
  split_and!; [done | |].
  - split_and!; try done; apply held_by_set_consumer; left; split; [congruence |]; apply Hh; by left.
  - split.
    + intros id Hne; cbn; rewrite lookup_insert_ne; [done | congruence].
    + exists c'; split; [|done]; cbn; by rewrite Hid, lookup_insert_eq.
    + intros id m Hm; apply held_by_set_consumer; destruct (decide (id = consumer_id c')) as [->|]; [left | by right].
      split; [done |]; rewrite Hid in Hm; destruct Hm as (z & Hz & Hm).
      rewrite Hc in Hz; injection Hz as <-; apply Hh; by right.
Qed.

(** A send that fails changes nothing but the connection. *)
Lemma deliver_failed_wf hand d x count h batch c c' :
  wf_hand hand d -> consumers d !! consumer_id c = Some c -> ~ held d (message_id x) ->
  deliver x count h batch c = Some (false, c') ->
  wf_hand hand (set_consumer c' d) /\ (forall m, held (set_consumer c' d) m <-> held d m) /\
  consumers_kept c d (set_consumer c' d).
Proof.
  intros Hd Hc Hn Hdel; pose proof (deliver_info _ _ _ _ _ _ _ Hdel) as Hinfo.
  assert (~ holds c (message_id x)) as Hfree by (intros ?; apply Hn; by exists (consumer_id c), c).
  apply deliver_spec in Hdel as (_ & Hid & Hh & _); [|done].
  assert (forall id m, held_by (set_consumer c' d) id m <-> held_by d id m) as Hby.
  { intros id m; rewrite held_by_set_consumer, Hid, Hh; split.
    - intros [[-> ?]|[_ ?]]; [by exists c | done].
    - intros Hm; destruct (decide (id = consumer_id c)) as [->|]; [left | by right].
      split; [done |]; destruct Hm as (z & Hz & Hm); congruence. }
  split_and!; [by eapply delivery_wf_same | intros m; unfold held; by setoid_rewrite Hby |].
  split; [| |by intros id m ?%Hby].
  - intros id Hne; cbn; rewrite lookup_insert_ne; [done | congruence].
  - exists c'; split; [|done]; cbn; by rewrite Hid, lookup_insert_eq.
Qed.
End hand_over.
