(* ===== verification/SharedDispatcher.v ===== *)
(** * The shared dispatcher

    [broker/dispatcher/shared.rs]: round robin over the consumers by priority,
    redelivery before new messages, batches and passes.  The second half shows
    that the choice of a consumer follows the documented order; delivery is the
    subject of the next file. *)

From S2P Require Import Prelude Position MessageMap LedgerInfo RocksLedger StickyKey Consumer.
From S2P Require Import ReadPosition Redelivery Dispatch.

Definition DEFAULT_MAX_UNACKED_MESSAGES_PER_CONSUMER : nat := Z.to_nat 50000.

Record SharedDispatcher := mkShared {
  core : DispatchState;
  consumer_order : list Z;
  round_robin_index : nat;
  max_unacked_messages : nat;
}.

Definition shared_new : SharedDispatcher :=
  mkShared (dispatch_new false) [] 0 DEFAULT_MAX_UNACKED_MESSAGES_PER_CONSUMER.

Definition set_core (d : DispatchState) (sd : SharedDispatcher) : SharedDispatcher :=
  mkShared d (consumer_order sd) (round_robin_index sd) (max_unacked_messages sd).
Definition set_index (i : nat) (sd : SharedDispatcher) : SharedDispatcher :=
  mkShared (core sd) (consumer_order sd) i (max_unacked_messages sd).
Definition set_order (order : list Z) (i : nat) (sd : SharedDispatcher) : SharedDispatcher :=
  mkShared (core sd) order i (max_unacked_messages sd).

Definition ordered_consumers (sd : SharedDispatcher) : list Consumer :=
  omap (fun id => consumers (core sd) !! id) (consumer_order sd).

(** ** Choosing a consumer *)

Definition has_permits (c : Consumer) : bool := 0 <? available_permits c.

(** [iter().position(..)] *)
Fixpoint position_of {A} (f : A -> bool) (l : list A) : option nat :=
  match l with
  | [] => None
  | x :: l => if f x then Some 0%nat else S <$> position_of f l
  end.

Definition first_consumer_index_of_priority (cs : list Consumer) (target : Z) : option nat :=
  position_of (fun c => priority_level c =? target) cs.

(** The loop over the first [n] consumers, from index [i] on. *)
Fixpoint find_higher (cs : list Consumer) (i n : nat) (target : Z) : option nat :=
  match cs, n with
  | c :: cs, S n =>
      if target <=? priority_level c then None
      else if has_permits c then Some i
      else find_higher cs (S i) n target
  | _, _ => None
  end.

Definition find_available_consumer_from_higher_priority (cs : list Consumer) (current : nat)
    (target : Z) : option nat :=
  find_higher cs 0 current target.

(** How the scan of the current priority level ends: with a consumer, at the
    index after the level, or with the [?] of a level that has no first
    consumer. *)
Inductive scan_result := ScanFound (i : nat) | ScanEnded (level_end : nat) | ScanGone.

Fixpoint scan_level (fuel : nat) (cs : list Consumer) (target : Z) (current scan level_end : nat)
  : scan_result :=
  match fuel with
  | O => ScanGone
  | S fuel =>
      let next :=
        match cs !! scan with
        | Some c =>
            if priority_level c =? target
            then if has_permits c then inl scan else inr (Some (S scan, level_end))
            else inr ((fun i => (i, scan)) <$> first_consumer_index_of_priority cs target)
        | None => inr ((fun i => (i, scan)) <$> first_consumer_index_of_priority cs target)
        end in
      match next with
      | inl i => ScanFound i
      | inr None => ScanGone
      | inr (Some (scan, level_end)) =>
          if (scan =? current)%nat then ScanEnded level_end
          else scan_level fuel cs target current scan level_end
      end
  end.

(** [iter().enumerate().skip(n)] *)
Fixpoint find_from (cs : list Consumer) (i : nat) : option nat :=
  match cs with
  | [] => None
  | c :: cs => if has_permits c then Some i else find_from cs (S i)
  end.

Definition find_available_consumer_from_same_or_lower_priority (cs : list Consumer) (current : nat)
  : option nat :=
  match cs !! current with
  | None => None
  | Some c =>
      if has_permits c then Some current
      else
        match scan_level (length cs + 2) cs (priority_level c) current (S current) current with
        | ScanFound i => Some i
        | ScanGone => None
        | ScanEnded level_end => find_from (drop level_end cs) level_end
        end
  end.

(** The index the search settles on, from the current round-robin index. *)
Definition next_consumer_index (cs : list Consumer) (current : nat) : option nat :=
  match cs !! current with
  | None => None
  | Some c =>
      let higher :=
        if negb (priority_level c =? 0)
        then find_available_consumer_from_higher_priority cs current (priority_level c)
        else None in
      match higher with
      | Some i => Some i
      | None => find_available_consumer_from_same_or_lower_priority cs current
      end
  end.

Definition get_next_available_consumer (sd : SharedDispatcher) : option Consumer * SharedDispatcher :=
  let cs := ordered_consumers sd in
  match cs with
  | [] => (None, sd)
  | _ =>
      match next_consumer_index cs (round_robin_index sd mod length cs) with
      | Some i => (cs !! i, set_index ((i + 1) mod length cs) sd)
      | None => (None, sd)
      end
  end.

(** ** Membership *)

Definition insert_consumer_order (id priority : Z) (sd : SharedDispatcher) : SharedDispatcher :=
  let insert_at :=
    default (length (consumer_order sd))
      (position_of (fun existing =>
         match consumers (core sd) !! existing with
         | Some c => priority <? priority_level c
         | None => false
         end) (consumer_order sd)) in
  set_order (take insert_at (consumer_order sd) ++ id :: drop insert_at (consumer_order sd))
    (round_robin_index sd) sd.

Definition remove_consumer_order (id : Z) (sd : SharedDispatcher) : SharedDispatcher :=
  match position_of (fun x => x =? id) (consumer_order sd) with
  | None => sd
  | Some index =>
      let order := take index (consumer_order sd) ++ drop (S index) (consumer_order sd) in
      let current := round_robin_index sd in
      let current :=
        match length order with
        | O => 0%nat
        | len =>
            if (index <? current)%nat then (current - 1)%nat
            else if (len <=? current)%nat then (current mod len)%nat
            else current
        end in
      set_order order current sd
  end.

Definition add_consumer (c : Consumer) (sd : SharedDispatcher) : result unit SharedDispatcher :=
  match consumers (core sd) !! consumer_id c with
  | Some _ => Err tt
  | None =>
      Ok (insert_consumer_order (consumer_id c) (priority_level c)
            (set_core (set_consumer c (core sd)) sd))
  end.

(** Without recovery, as the trait requires, and with it. *)
Definition remove_consumer (id : Z) (sd : SharedDispatcher) : option Consumer * SharedDispatcher :=
  match Dispatch.remove_consumer id (core sd) with
  | (None, _) => (None, sd)
  | (Some c, d) => (Some c, set_core d (remove_consumer_order id sd))
  end.

Definition remove_consumer_with_recovery (id : Z) (sd : SharedDispatcher)
  : option Consumer * SharedDispatcher :=
  match Dispatch.remove_consumer_with_recovery (fun _ => None) id (core sd) with
  | (None, _) => (None, sd)
  | (Some c, d) => (Some c, set_core d (remove_consumer_order id sd))
  end.

Definition consumer_flow (n : Z) (sd : SharedDispatcher) : SharedDispatcher :=
  set_core (add_total n (core sd)) sd.

(** ** Dispatching *)

Section dispatch.
Context {S E : Type} `{SubscriptionStore S E} `{MetadataDecoder}.

(** How a turn of the batch ends: on with [n] more messages dispatched, out of
    the loop, or with an error of the storage. *)
Inductive turn_end := Next (n : nat) | Break | Failed (e : E).

(** A message for the chosen consumer.  [back] is what happens to it when it
    cannot be sent for want of permits ([true]) or because the connection does
    not take it ([false]). *)
Definition hand_over (x : StoredMessage) (count : Z) (c : Consumer)
    (sent : DispatchState -> DispatchState) (back : bool -> DispatchState -> DispatchState)
    (d : DispatchState) : turn_end * DispatchState :=
  let batch := messages_in_batch (metadata x) in
  match deliver x count None batch c with
  | None => (Break, back true d)
  | Some (true, c) => (Next 1, sent (sub_total batch (set_consumer c d)))
  | Some (false, c) => (Break, add_total batch (back false (sub_total batch (set_consumer c d))))
  end.

Definition redelivery_turn (s : S) (e : RedeliveryEntry) (c : Consumer) (d : DispatchState)
  : turn_end * DispatchState :=
  match ss_is_acknowledged s (re_message_id e) with
  | Err err => (Failed err, d)
  | Ok true => (Next 0, d)
  | Ok false =>
      match ss_get_message_entry_by_id s (re_message_id e) with
      | None => (Next 0, d)
      | Some x =>
          hand_over x (redelivery_count e) c (fun d => d)
            (fun no_permits => restore_redelivery_message
               (if no_permits : bool
                then mkRedelivery (message_id x) (redelivery_count e) (Redelivery.sticky_key_hash e)
                else mkRedelivery (message_id x) (wrap_u32 (redelivery_count e + 1)) None)) d
      end
  end.

Definition new_message_turn (s : S) (c : Consumer) (cs : list Consumer) (d : DispatchState)
  : turn_end * DispatchState :=
  match next_dispatchable_message s cs d with
  | (Err err, d) => (Failed err, d)
  | (Ok None, d) => (Break, d)
  | (Ok (Some r), d) =>
      let commit := set_read_position (commit_read_position (rd_next_position r)) in
      hand_over (rd_message r) 0 c commit
        (fun no_permits d =>
           if no_permits : bool then d
           else commit (add_redelivery_entries [mkRedelivery (message_id (rd_message r)) 1 None] d)) d
  end.

Definition dispatch_turn (s : S) (sd : SharedDispatcher) : turn_end * SharedDispatcher :=
  match get_next_available_consumer sd with
  | (None, sd) => (Break, sd)
  | (Some c, sd) =>
      if (max_unacked_messages sd <=? pending_acks_len c)%nat then (Break, sd)
      else
        let '(t, d) :=
          match pop_next (redelivery_controller (core sd)) with
          | (Some e, rc) => redelivery_turn s e c (set_redelivery rc (core sd))
          | (None, rc) => new_message_turn s c (ordered_consumers sd) (set_redelivery rc (core sd))
          end in
        (t, set_core d sd)
  end.

(** [for _ in 0..max_batch] *)
Fixpoint batch_loop (s : S) (turns : nat) (dispatched : nat) (sd : SharedDispatcher)
  : result E nat * SharedDispatcher :=
  match turns with
  | O => (Ok dispatched, sd)
  | Datatypes.S turns =>
      match dispatch_turn s sd with
      | (Failed e, sd) => (Err e, sd)
      | (Break, sd) => (Ok dispatched, sd)
      | (Next n, sd) => batch_loop s turns (dispatched + n) sd
      end
  end.

Definition dispatch_messages_batch (s : S) (sd : SharedDispatcher) : result E nat * SharedDispatcher :=
  let total := total_available_permits (core sd) in
  if total <=? 0 then (Ok 0%nat, sd)
  else batch_loop s (Z.to_nat (Z.min total DISPATCHER_MAX_ROUND_ROBIN_BATCH_SIZE)) 0 sd.

(** One pass: batches while there is progress and the permits last. *)
Fixpoint pass_loop (fuel : nat) (s : S) (sd : SharedDispatcher) : option (result E unit * SharedDispatcher) :=
  match fuel with
  | O => None
  | Datatypes.S fuel =>
      match dispatch_messages_batch s sd with
      | (Err e, sd) => Some (Err e, sd)
      | (Ok 0%nat, sd) => Some (Ok tt, sd)
      | (Ok _, sd) =>
          if total_available_permits (core sd) =? 0 then Some (Ok tt, sd) else pass_loop fuel s sd
      end
  end.
End dispatch.
Arguments turn_end : clear implicits.

(** ** The consumer that is chosen *)

Definition available_at (cs : list Consumer) (i : nat) : bool :=
  match cs !! i with Some c => has_permits c | None => false end.

Definition level_at (cs : list Consumer) (i : nat) : Z :=
  match cs !! i with Some c => priority_level c | None => 0 end.

(** The order in which a dispatcher that stands at [current] should consider the
    consumers: the levels above, the rest of its own level, the start of its own
    level, the levels below. *)
Definition search_order (cs : list Consumer) (current : nat) : list nat :=
  let t := level_at cs current in
  let all := seq 0 (length cs) in
  filter (fun i => level_at cs i < t) all ++
  filter (fun i => level_at cs i = t /\ (current <= i)%nat) all ++
  filter (fun i => level_at cs i = t /\ (i < current)%nat) all ++
  filter (fun i => t < level_at cs i) all.

Definition by_priority (cs : list Consumer) : Prop :=
  StronglySorted (fun a b => priority_level a <= priority_level b) cs.

(** The level [t] takes the indices from [a] to [b]. *)
Record level_bounds (cs : list Consumer) (t : Z) (a b : nat) : Prop := {
  lb_order : (a <= b <= length cs)%nat;
  lb_above : forall i c, cs !! i = Some c -> priority_level c < t <-> (i < a)%nat;
  lb_upto : forall i c, cs !! i = Some c -> priority_level c <= t <-> (i < b)%nat;
}.

Lemma by_priority_split cs t :
  by_priority cs ->
  exists a, (a <= length cs)%nat /\
    forall i c, cs !! i = Some c -> priority_level c < t <-> (i < a)%nat.
Proof.
  induction 1 as [|x cs Hs (a & Ha & IH) Hx]; [by exists 0%nat |].
  destruct (decide (priority_level x < t)) as [Hlt|Hge].
  - exists (S a); split; [cbn; lia |]; intros [|i] c Hi; [injection Hi as <-; lia |].
    rewrite (IH i c Hi); lia.
  - exists 0%nat; split; [lia |]; intros i c Hi.
    enough (t <= priority_level c) by lia.
    destruct i as [|i]; [injection Hi as <-; lia |].
    rewrite Forall_forall in Hx; cbn in Hi; apply list_elem_of_lookup_2, Hx in Hi; lia.
Qed.

Lemma level_bounds_exist cs t : by_priority cs -> exists a b, level_bounds cs t a b.
Proof.
  intros Hs; destruct (by_priority_split cs t Hs) as (a & Ha & Hlt).
  destruct (by_priority_split cs (t + 1) Hs) as (b & Hb & Hle).
  destruct (decide (a <= b)%nat) as [Hab|Hab].
  - exists a, b; split; [lia | done |]; intros i c Hi; rewrite <- (Hle i c Hi); lia.
  - exfalso; destruct (lookup_lt_is_Some_2 cs b) as [c Hc]; [lia |].
    pose proof (Hlt b c Hc); pose proof (Hle b c Hc); lia.
Qed.

Lemma filter_seq_interval (P : nat -> Prop) `{forall i, Decision (P i)} x y n :
  (x <= y <= n)%nat -> (forall i, (i < n)%nat -> P i <-> (x <= i < y)%nat) ->
  filter P (seq 0 n) = seq x (y - x).
Proof.
  intros Hxy HP.
  replace n with (x + ((y - x) + (n - y)))%nat by lia.
  rewrite !seq_app, !filter_app.
  assert (forall lo k, (forall i, (lo <= i < lo + k)%nat -> ~ P i) -> filter P (seq lo k) = []) as Hnone.
  { intros lo k Hno; apply elem_of_nil_inv; intros i [Hi Hin]%list_elem_of_filter; apply elem_of_seq in Hin; by eapply Hno. }
  rewrite (Hnone 0%nat x), (Hnone (0 + x + (y - x))%nat).
  - rewrite app_nil_r; cbn; apply list_filter_id.
    intros i Hi; apply elem_of_seq in Hi; apply HP; lia.
  - intros i Hi; rewrite HP; lia.
  - intros i Hi; rewrite HP; lia.
Qed.

Lemma search_order_bounds cs current a b :
  (current < length cs)%nat -> level_bounds cs (level_at cs current) a b ->
  (a <= current < b)%nat /\
  search_order cs current =
  seq 0 a ++ seq current (b - current) ++ seq a (current - a) ++ seq b (length cs - b).
Proof.
  intros Hcur [Hord Hab Hup].
  assert (forall i, (i < length cs)%nat -> exists c, cs !! i = Some c /\ level_at cs i = priority_level c) as Hat.
  { intros i Hi; destruct (lookup_lt_is_Some_2 cs i Hi) as [c Hc]; exists c; unfold level_at; by rewrite Hc. }
  assert (forall i, (i < length cs)%nat ->
    (level_at cs i < level_at cs current <-> (i < a)%nat) /\
    (level_at cs i <= level_at cs current <-> (i < b)%nat)) as Hl.
  { intros i Hi; destruct (Hat i Hi) as (c & Hc & ->); split; [by apply Hab | by apply Hup]. }
  pose proof (Hl current Hcur); split; [lia |]; unfold search_order; f_equal; [|f_equal; [|f_equal]].
  - rewrite (filter_seq_interval _ 0 a); [f_equal; lia | lia |]; intros i Hi; pose proof (Hl i Hi); lia.
  - apply filter_seq_interval; [lia |]; intros i Hi; pose proof (Hl i Hi); lia.
  - apply filter_seq_interval; [lia |]; intros i Hi; pose proof (Hl i Hi); lia.
  - apply filter_seq_interval; [lia |]; intros i Hi; pose proof (Hl i Hi); lia.
Qed.

(** The first available index from [lo] to [hi]. *)
Definition first_available (cs : list Consumer) (lo hi : nat) : option nat :=
  List.find (available_at cs) (seq lo (hi - lo)).

Lemma first_available_none cs lo hi : (hi <= lo)%nat -> first_available cs lo hi = None.
Proof. intros; unfold first_available; by replace (hi - lo)%nat with 0%nat by lia. Qed.

Lemma first_available_step cs lo hi :
  (lo < hi)%nat ->
  first_available cs lo hi = if available_at cs lo then Some lo else first_available cs (S lo) hi.
Proof.
  intros; unfold first_available; replace (hi - lo)%nat with (S (hi - S lo)) by lia; done.
Qed.

Lemma find_app {A} (f : A -> bool) (l k : list A) :
  List.find f (l ++ k) = match List.find f l with Some x => Some x | None => List.find f k end.
Proof. induction l as [|x l IH]; cbn; [done |]; by destruct (f x). Qed.

Lemma find_from_spec cs k : find_from (drop k cs) k = first_available cs k (length cs).
Proof.
  remember (length cs - k)%nat as n eqn:Hn; revert k Hn; induction n as [|n IH]; intros k Hn.
  - rewrite drop_ge by lia; cbn; by rewrite first_available_none by lia.
  - destruct (lookup_lt_is_Some_2 cs k ltac:(lia)) as [c Hc].
    rewrite (drop_S _ _ _ Hc), first_available_step by lia; cbn; unfold available_at; rewrite Hc.
    destruct (has_permits c); [done |]; apply IH; lia.
Qed.

Lemma find_higher_spec cs t a b k i n :
  level_bounds cs t a b -> (i + n = k)%nat -> (a <= k <= length cs)%nat -> (i <= a)%nat ->
  find_higher (drop i cs) i n t = first_available cs i a.
Proof.
  intros Hb; revert i; induction n as [|n IH]; intros i Hk Hak Hia.
  - rewrite first_available_none by lia; by destruct (drop i cs).
  - destruct (lookup_lt_is_Some_2 cs i ltac:(lia)) as [c Hc].
    rewrite (drop_S _ _ _ Hc); cbn; pose proof (lb_above _ _ _ _ Hb i c Hc).
    destruct (Z.leb_spec t (priority_level c)); [by rewrite first_available_none by lia |].
    rewrite first_available_step by lia; unfold available_at; rewrite Hc.
    destruct (has_permits c); [done |]; apply IH; lia.
Qed.

Lemma position_of_first {A} (f : A -> bool) (l : list A) (k : nat) (x : A) :
  l !! k = Some x -> f x = true -> (forall i y, l !! i = Some y -> (i < k)%nat -> f y = false) ->
  position_of f l = Some k.
Proof.
  revert k; induction l as [|y l IH]; intros k Hk Hx Hbefore; [done |]; cbn.
  destruct k as [|k]; [injection Hk as ->; by rewrite Hx |].
  rewrite (Hbefore 0%nat y) by (done || lia); rewrite (IH k); [done | done | done |].
  intros i z Hi Hlt; apply (Hbefore (S i)); [done | lia].
Qed.

Section scan.
Context (cs : list Consumer) (t : Z) (a b : nat) (Hb : level_bounds cs t a b).

Lemma first_consumer_index_bounds :
  (a < b)%nat -> first_consumer_index_of_priority cs t = Some a.
Proof.
  intros Hab; pose proof (lb_order _ _ _ _ Hb).
  destruct (lookup_lt_is_Some_2 cs a) as [c Hc]; [lia |].
  apply position_of_first with c; [done | |].
  - pose proof (lb_above _ _ _ _ Hb a c Hc); pose proof (lb_upto _ _ _ _ Hb a c Hc); lia.
  - intros i y Hi Hlt; pose proof (lb_above _ _ _ _ Hb i y Hi); lia.
Qed.

(** An index of the level. *)
Lemma scan_level_in fuel current scan level_end :
  (a <= scan < b)%nat ->
  scan_level (S fuel) cs t current scan level_end =
  if available_at cs scan then ScanFound scan
  else if (S scan =? current)%nat then ScanEnded level_end
  else scan_level fuel cs t current (S scan) level_end.
Proof.
  intros Hscan; pose proof (lb_order _ _ _ _ Hb).
  destruct (lookup_lt_is_Some_2 cs scan) as [c Hc]; [lia |].
  pose proof (lb_above _ _ _ _ Hb scan c Hc); pose proof (lb_upto _ _ _ _ Hb scan c Hc).
  cbn [scan_level]; unfold available_at; rewrite Hc.
  destruct (Z.eqb_spec (priority_level c) t); [|lia]; by destruct (has_permits c).
Qed.

(** Past the level: back to its first index. *)
Lemma scan_level_past fuel current level_end :
  (a < b)%nat ->
  scan_level (S fuel) cs t current b level_end =
  if (a =? current)%nat then ScanEnded b else scan_level fuel cs t current a b.
Proof.
  intros Hab; cbn [scan_level]; rewrite (first_consumer_index_bounds Hab).
  destruct (cs !! b) as [c|] eqn:Hc; [|done]; pose proof (lb_upto _ _ _ _ Hb b c Hc).
  destruct (Z.eqb_spec (priority_level c) t); [lia | done].
Qed.

(** From the start of the level up to the current index. *)
Lemma scan_level_front fuel current scan :
  (a <= scan < current)%nat -> (current < b)%nat -> (current - scan <= fuel)%nat ->
  scan_level fuel cs t current scan b =
  match first_available cs scan current with Some i => ScanFound i | None => ScanEnded b end.
Proof.
  revert scan; induction fuel as [|fuel IH]; intros scan Hs Hc Hf; [lia |].
  rewrite scan_level_in, first_available_step by lia.
  destruct (available_at cs scan); [done |].
  destruct (Nat.eqb_spec (S scan) current); [by rewrite first_available_none by lia | apply IH; lia].
Qed.

Lemma scan_level_spec fuel current scan level_end :
  (a <= current < scan)%nat -> (scan <= b)%nat -> (b - scan + 1 + (current - a) <= fuel)%nat ->
  scan_level fuel cs t current scan level_end =
  match first_available cs scan b with
  | Some i => ScanFound i
  | None => match first_available cs a current with Some i => ScanFound i | None => ScanEnded b end
  end.
Proof.
  revert scan level_end; induction fuel as [|fuel IH]; intros scan level_end Hs Hc Hf; [lia |].
  destruct (decide (scan = b)) as [->|Hne].
  - rewrite scan_level_past by lia; rewrite (first_available_none cs b b) by lia.
    destruct (Nat.eqb_spec a current); [by rewrite first_available_none by lia | apply scan_level_front; lia].
  - rewrite scan_level_in by lia; rewrite (first_available_step cs scan b) by lia.
    destruct (available_at cs scan); [done |].
    destruct (Nat.eqb_spec (S scan) current); [lia | apply IH; lia].
Qed.
End scan.

(** The index settled on is the first available one of the search order. *)
Lemma next_consumer_index_search (cs : list Consumer) (current : nat) :
  by_priority cs -> (forall c, c ∈ cs -> 0 <= priority_level c) -> (current < length cs)%nat ->
  next_consumer_index cs current = List.find (available_at cs) (search_order cs current).
Proof.
  intros Hs Hpos Hcur; destruct (lookup_lt_is_Some_2 cs current Hcur) as [c Hc].
  assert (level_at cs current = priority_level c) as Hlev by (unfold level_at; by rewrite Hc).
  destruct (level_bounds_exist cs (priority_level c) Hs) as (a & b & Hb).
  destruct (search_order_bounds cs current a b Hcur ltac:(by rewrite Hlev)) as [Hin ->].
  rewrite !find_app; change (List.find (available_at cs) (seq ?x (?y - ?x))) with (first_available cs x y).
  unfold next_consumer_index; rewrite Hc; unfold find_available_consumer_from_higher_priority.
  assert ((if negb (priority_level c =? 0) then find_higher cs 0 current (priority_level c) else None)
    = List.find (available_at cs) (seq 0 a)) as ->.
  { replace (seq 0 a) with (seq 0 (a - 0)) by (f_equal; lia).
    pose proof (find_higher_spec cs _ a b current 0 current Hb eq_refl ltac:(lia) ltac:(lia)) as Hh.
    rewrite drop_0 in Hh; rewrite Hh; destruct (Z.eqb_spec (priority_level c) 0) as [H0|]; [|done]; cbn.
    destruct a as [|a]; [done | exfalso].
    destruct (lookup_lt_is_Some_2 cs 0%nat ltac:(lia)) as [x Hx].
    pose proof (lb_above _ _ _ _ Hb 0%nat x Hx); specialize (Hpos x (list_elem_of_lookup_2 _ _ _ Hx)); lia. }
  destruct (List.find _ (seq 0 a)); [done |].
  unfold find_available_consumer_from_same_or_lower_priority; rewrite Hc.
  rewrite (first_available_step cs current b) by lia; unfold available_at at 1; rewrite Hc.
  destruct (has_permits c); [done |]; pose proof (lb_order _ _ _ _ Hb).
  rewrite (scan_level_spec cs _ a b Hb) by lia.
  destruct (first_available cs (S current) b); [done |].
  destruct (first_available cs a current); [done |]; apply find_from_spec.
Qed.

Lemma elem_of_search_order cs current i : i ∈ search_order cs current <-> (i < length cs)%nat.
Proof.
  unfold search_order; rewrite !elem_of_app, !list_elem_of_filter, !elem_of_seq; split; [tauto |].
  intros Hi; destruct (Z.lt_trichotomy (level_at cs i) (level_at cs current)) as [?|[?|?]];
    destruct (decide (current <= i)%nat); naive_solver lia.
Qed.

(** ** The order of the consumers *)

(** The priority of a consumer by its id. *)
Definition priority_of (sd : SharedDispatcher) (id : Z) : Z :=
  match consumers (core sd) !! id with Some c => priority_level c | None => 0 end.

(** The order lists every consumer once, by priority; priorities are not
    negative. *)
Record order_wf (sd : SharedDispatcher) : Prop := {
  ow_nodup : NoDup (consumer_order sd);
  ow_all : forall id, id ∈ consumer_order sd <-> is_Some (consumers (core sd) !! id);
  ow_ids : forall id c, consumers (core sd) !! id = Some c -> consumer_id c = id;
  ow_sorted : StronglySorted (fun i j => priority_of sd i <= priority_of sd j) (consumer_order sd);
  ow_levels : forall id c, consumers (core sd) !! id = Some c -> 0 <= priority_level c;
}.

Lemma shared_new_order : order_wf shared_new.
Proof.
  split; cbn; [constructor | | by intros id c; rewrite lookup_empty | constructor
              | by intros id c; rewrite lookup_empty].
  intros id; rewrite lookup_empty, elem_of_nil; split; [done | by intros []].
Qed.

Lemma ordered_consumers_elem sd c :
  order_wf sd -> c ∈ ordered_consumers sd <-> consumers (core sd) !! consumer_id c = Some c.
Proof.
  intros Hw; unfold ordered_consumers; rewrite list_elem_of_omap; split.
  - intros (id & _ & Hc); by rewrite (ow_ids _ Hw id c Hc).
  - intros Hc; exists (consumer_id c); split; [|done]; apply (ow_all _ Hw); by exists c.
Qed.

Lemma ordered_consumers_sorted sd : order_wf sd -> by_priority (ordered_consumers sd).
Proof.
  intros [_ _ _ Hs _]; unfold by_priority, ordered_consumers.
  induction Hs as [|id order Hs IH Hid]; cbn; [constructor |].
  destruct (consumers (core sd) !! id) as [c|] eqn:Hc; [|done]; constructor; [done |].
  rewrite Forall_forall in Hid; apply Forall_forall; intros x (j & Hj & Hx)%list_elem_of_omap.
  specialize (Hid j Hj); unfold priority_of in Hid; by rewrite Hc, Hx in Hid.
Qed.

(** Consumers replaced by ones of the same id and priority. *)
Lemma order_wf_core d sd :
  order_wf sd ->
  (forall id c', consumers d !! id = Some c' ->
     exists c, consumers (core sd) !! id = Some c /\ info c' = info c) ->
  (forall id, is_Some (consumers (core sd) !! id) -> is_Some (consumers d !! id)) ->
  order_wf (set_core d sd).
Proof.
  intros [Hn Ha Hi Hs Hl] Hback Hfwd.
  assert (forall id, priority_of (set_core d sd) id = priority_of sd id) as Hp.
  { intros id; unfold priority_of; cbn.
    destruct (consumers d !! id) as [c'|] eqn:E.
    - destruct (Hback id c' E) as (c & -> & Hinfo); unfold priority_level; by rewrite Hinfo.
    - destruct (consumers (core sd) !! id) as [c|] eqn:E'; [|done].
      destruct (Hfwd id) as [? ?]; [by exists c | congruence]. }
  split; cbn; [done | | | |].
  - intros id; rewrite Ha; split; [apply Hfwd | intros [c' Hc']].
    destruct (Hback id c' Hc') as (c & ? & _); by exists c.
  - intros id c' Hc'; destruct (Hback id c' Hc') as (c & Hc & Hinfo).
    unfold consumer_id; rewrite Hinfo; by apply Hi.
  - eapply StronglySorted_impl; [|exact Hs]; intros i j _ _; by rewrite !Hp.
  - intros id c' Hc'; destruct (Hback id c' Hc') as (c & Hc & Hinfo).
    unfold priority_level; rewrite Hinfo; by apply (Hl id).
Qed.

Lemma order_wf_index i sd : order_wf sd -> order_wf (set_index i sd).
Proof. intros []; by split. Qed.

(** What the choice of a consumer gives. *)
Lemma get_next_available_consumer_spec sd r sd' :
  order_wf sd -> get_next_available_consumer sd = (r, sd') ->
  (exists i, sd' = set_index i sd) /\
  match r with
  | Some c => consumers (core sd) !! consumer_id c = Some c /\ 0 < available_permits c
  | None => forall id c, consumers (core sd) !! id = Some c -> available_permits c <= 0
  end.
Proof.
  intros Hw; unfold get_next_available_consumer.
  assert (sd = set_index (round_robin_index sd) sd) as Hid by by destruct sd.
  pose proof (ordered_consumers_elem sd) as Hel; pose proof (ordered_consumers_sorted sd Hw) as Hs.
  destruct (ordered_consumers sd) as [|c0 l] eqn:Ecs.
  - intros [= <- <-]; split; [by eauto |]; intros id c Hc.
    pose proof (proj2 (Hel c Hw)) as Hin; rewrite (ow_ids _ Hw _ _ Hc) in Hin.
    by apply elem_of_nil in Hin.
  - set (cs := c0 :: l) in *.
    assert (forall c, c ∈ cs -> 0 <= priority_level c) as Hpos.
    { intros c Hc; apply Hel in Hc; [|done]; by eapply (ow_levels _ Hw). }
    assert (round_robin_index sd mod length cs < length cs)%nat as Hlt by (apply Nat.mod_upper_bound; done).
    rewrite (next_consumer_index_search cs _ Hs Hpos Hlt).
    destruct (List.find _ _) as [i|] eqn:Ef; intros [= <- <-]; (split; [by eauto |]).
    + apply find_some in Ef as [_ Ha]; unfold available_at in Ha.
      destruct (cs !! i) as [c|] eqn:Ei; [|done]; unfold has_permits in Ha; split; [|lia].
      apply Hel; [done |]; by eapply list_elem_of_lookup_2.
    + intros id c Hc; pose proof (proj2 (Hel c Hw)) as Hin; rewrite (ow_ids _ Hw _ _ Hc) in Hin.
      destruct (proj1 (list_elem_of_lookup _ _) (Hin Hc)) as [i Hi].
      pose proof (find_none _ _ Ef i) as Hno; unfold available_at in Hno; rewrite Hi in Hno.
      unfold has_permits in Hno; apply Z.ltb_ge, Hno, list_elem_of_In, elem_of_search_order.
      by eapply lookup_lt_Some.
Qed.

Lemma position_of_spec {A} (f : A -> bool) (l : list A) :
  match position_of f l with
  | Some k => exists x, l = take k l ++ x :: drop (S k) l /\ f x = true /\
                (forall y, y ∈ take k l -> f y = false)
  | None => forall y, y ∈ l -> f y = false
  end.
Proof.
  induction l as [|x l IH]; cbn; [by intros y ?%elem_of_nil |].
  destruct (f x) eqn:Ex; [exists x; split_and!; try done; by intros y ?%elem_of_nil |].
  destruct (position_of f l) as [k|]; cbn.
  - destruct IH as (y & El & Hy & Hb); exists y; split_and!; [by rewrite <- El | done |].
    intros z [->|Hz]%elem_of_cons; [done | by apply Hb].
  - intros y [->|Hy]%elem_of_cons; [done | by apply IH].
Qed.

Lemma position_of_ext {A} (f g : A -> bool) (l : list A) :
  (forall x, x ∈ l -> f x = g x) -> position_of f l = position_of g l.
Proof.
  induction l as [|x l IH]; intros Hfg; cbn; [done |].
  rewrite (Hfg x), IH; [done | intros y Hy; apply Hfg; by right | by left].
Qed.

(** Insertion before the first element of a greater key, or at the end. *)
Definition insert_position {A} (g : A -> Z) (x : A) (l : list A) : nat :=
  default (length l) (position_of (fun y => g x <? g y) l).

Lemma elem_of_insert_at {A} (k : nat) (x y : A) (l : list A) :
  y ∈ take k l ++ x :: drop k l <-> y = x \/ y ∈ l.
Proof.
  assert (y ∈ l <-> y ∈ take k l ++ drop k l) as -> by by rewrite take_drop.
  rewrite !elem_of_app, elem_of_cons; tauto.
Qed.

Lemma NoDup_insert_at {A} (k : nat) (x : A) (l : list A) :
  NoDup l -> x ∉ l -> NoDup (take k l ++ x :: drop k l).
Proof.
  intros Hn Hx; rewrite <- Permutation_middle, take_drop; by constructor.
Qed.

Lemma insert_position_sorted {A} (g : A -> Z) (x : A) (l : list A) :
  StronglySorted (fun i j => g i <= g j) l ->
  StronglySorted (fun i j => g i <= g j)
    (take (insert_position g x l) l ++ x :: drop (insert_position g x l) l).
Proof.
  unfold insert_position; induction 1 as [|y l Hl IH Hy]; cbn; [repeat constructor |].
  destruct (Z.ltb_spec (g x) (g y)) as [Hlt|Hge]; cbn.
  - constructor; [by constructor |]; constructor; [lia |].
    eapply Forall_impl; [exact Hy |]; cbn; lia.
  - set (k := default (length l) (position_of (fun y => g x <? g y) l)) in *.
    replace (default (S (length l)) (S <$> position_of (fun y => g x <? g y) l)) with (S k)
      by (unfold k; by destruct (position_of _ l)); cbn; constructor; [done |].
    rewrite Forall_forall in Hy; apply Forall_forall; intros z [->|Hz]%elem_of_insert_at; [done | by apply Hy].
Qed.

Lemma add_consumer_order c sd sd' :
  order_wf sd -> 0 <= priority_level c -> add_consumer c sd = Ok sd' ->
  order_wf sd' /\ core sd' = set_consumer c (core sd) /\ consumers (core sd) !! consumer_id c = None.
Proof.
  intros [Hn Ha Hi Hs Hl] Hp; unfold add_consumer, insert_consumer_order.
  destruct (consumers (core sd) !! consumer_id c) as [|] eqn:Hc; [done |]; intros [= <-].
  split; [|done]; cbn [consumer_order core set_core consumers set_consumer set_consumers].
  assert (consumer_id c ∉ consumer_order sd) as Hnew by (intros Hin; apply Ha in Hin as [? ?]; congruence).
  set (g := fun id => if decide (id = consumer_id c) then priority_level c else priority_of sd id).
  assert (g (consumer_id c) = priority_level c) as Hg by (unfold g; by rewrite decide_True).
  rewrite (position_of_ext _ (fun y => g (consumer_id c) <? g y)).
  2:{ intros id Hid; assert (id <> consumer_id c) as Hne by congruence.
      rewrite Hg; unfold g; rewrite lookup_insert_ne, decide_False by done; unfold priority_of.
      apply Ha in Hid as [x Hx]; by rewrite Hx. }
  fold (insert_position g (consumer_id c) (consumer_order sd)); split; cbn.
  - by apply NoDup_insert_at.
  - intros id; rewrite elem_of_insert_at, Ha, lookup_insert_is_Some; destruct (decide (consumer_id c = id)); naive_solver.
  - intros id x [[<- <-]|[_ ?]]%lookup_insert_Some; [done | by apply Hi].
  - eapply StronglySorted_impl; [|apply insert_position_sorted].
    + intros i j _ _; unfold priority_of, g; cbn; rewrite !lookup_insert; unfold priority_of.
      by destruct (decide (consumer_id c = i)), (decide (i = consumer_id c)),
        (decide (consumer_id c = j)), (decide (j = consumer_id c)).
    + eapply StronglySorted_impl; [|exact Hs]; intros i j Hii Hjj; cbn; unfold g.
      by rewrite !decide_False by congruence.
  - intros id x [[<- <-]|[_ ?]]%lookup_insert_Some; [done | by eapply Hl].
Qed.

(** Leaving, with or without recovery: [d] is what becomes of the rest. *)
Lemma remove_consumer_order_wf id d sd :
  order_wf sd -> consumers d = delete id (consumers (core sd)) -> is_Some (consumers (core sd) !! id) ->
  order_wf (set_core d (remove_consumer_order id sd)) /\
  id ∉ consumer_order (remove_consumer_order id sd).
Proof.
  intros [Hn Ha Hi Hs Hl] Ed Hid; unfold remove_consumer_order.
  pose proof (position_of_spec (fun x => x =? id) (consumer_order sd)) as Hpos.
  destruct (position_of _ _) as [k|]; [|exfalso; apply Ha, Hpos in Hid; lia].
  destruct Hpos as (x & El & Hx%Z.eqb_eq & _); subst x.
  set (front := take k (consumer_order sd)) in *; set (back := drop (S k) (consumer_order sd)) in *.
  rewrite El in Hn, Hs; apply StronglySorted_remove in Hs.
  rewrite <- Permutation_middle in Hn; apply NoDup_cons in Hn as [Hout Hn].
  assert (forall j, j ∈ front ++ back <-> j <> id /\ j ∈ consumer_order sd) as Hin.
  { intros j; rewrite El, !elem_of_app, elem_of_cons; rewrite elem_of_app in Hout; naive_solver. }
  split; [|done]; split; cbn; rewrite ?Ed.
  - done.
  - intros j; rewrite Hin, Ha, lookup_delete_is_Some; naive_solver.
  - intros j c [_ Hc]%lookup_delete_Some; by apply Hi.
  - eapply StronglySorted_impl; [|exact Hs]; intros i j [Hii _]%Hin [Hjj _]%Hin; unfold priority_of; cbn.
    by rewrite Ed, !lookup_delete_ne by done.
  - intros j c [_ Hc]%lookup_delete_Some; by eapply Hl.
Qed.

(** ** Properties *)


(** Consumers 1 and 2 of level 0, without and with permits, and 3 of level 1. *)
Definition example_consumer (id level permits : Z) (answers : list send_answer) : Consumer :=
  set_permits permits (consumer_new (mkInfo id "c" "conn" level None) answers).

Definition example_shared : SharedDispatcher :=
  let c1 := example_consumer 1 0 0 [] in
  let c2 := example_consumer 2 0 5 [Slot; Slot; Slot; Slot] in
  let c3 := example_consumer 3 1 5 [Slot; Slot; Slot; Slot] in
  consumer_flow 10
    (mkShared (set_consumer c3 (set_consumer c2 (set_consumer c1 (dispatch_new false)))) [1; 2; 3] 0 100).

Lemma example_shared_added :
  exists sd1 sd2, add_consumer (example_consumer 1 0 0 []) (mkShared (dispatch_new false) [] 0 100) = Ok sd1 /\
    add_consumer (example_consumer 3 1 5 [Slot; Slot; Slot; Slot]) sd1 = Ok sd2 /\
    add_consumer (example_consumer 2 0 5 [Slot; Slot; Slot; Slot]) sd2 =
      Ok (set_core (set_total 0 (core example_shared)) example_shared).
Proof. eexists; eexists; split_and!; by vm_compute. Qed.

Lemma example_shared_order : order_wf example_shared.
Proof.
  assert (order_wf (mkShared (dispatch_new false) [] 0 100)) as H0
    by (destruct shared_new_order; by split).
  destruct example_shared_added as (sd1 & sd2 & E1 & E2 & E3).
  apply add_consumer_order in E1 as [H1 _]; [|done | by vm_compute].
  apply add_consumer_order in E2 as [H2 _]; [|done | by vm_compute].
  apply add_consumer_order in E3 as [H3 _]; [|done | by vm_compute].
  destruct H3; by split.
Qed.


(** The permits of the consumers, summed up. *)
Definition permits_sum (d : DispatchState) : Z :=
  map_fold (fun _ c n => available_permits c + n) 0 (consumers d).

Lemma permits_sum_delete (m : gmap Z Consumer) id c :
  m !! id = Some c ->
  map_fold (fun _ c n => available_permits c + n) 0 m =
  available_permits c + map_fold (fun _ c n => available_permits c + n) 0 (delete id m).
Proof. intros Hc; rewrite (map_fold_delete_L _ _ id c m); [done | intros; lia | done]. Qed.

(** A consumer that leaves with a deficit (a batch larger than its permits
    drives the balance below zero) leaves the deficit behind: only its clamped,
    non-negative balance is subtracted from the total, which stays below the sum
    of the permits of the consumers that remain, by the size of the deficit. *)
Theorem removal_keeps_deficit (id : Z) (sd : SharedDispatcher) (c : Consumer) :
  consumers (core sd) !! id = Some c -> available_permits c < 0 ->
  i32_ok (total_available_permits (core sd)) -> total_available_permits (core sd) = permits_sum (core sd) ->
  let sd' := (remove_consumer_with_recovery id sd).2 in
  total_available_permits (core sd') = permits_sum (core sd') + available_permits c.
Proof.
  intros Hc Hneg Hok Hsum sd'; unfold sd', remove_consumer_with_recovery, Dispatch.remove_consumer_with_recovery.
  unfold permits_sum in Hsum; rewrite (permits_sum_delete _ id c Hc) in Hsum.
  rewrite Hc; destruct (drain_pending_acks (close_pending_acks c)) as [pending c']; unfold permits_sum.
  cbn -[map_fold i32_saturating_sub available_permits_now].
  set (rest := map_fold _ _ (delete _ _)) in *; unfold available_permits_now.
  rewrite (Z.max_l 0) by lia; rewrite (wrap_i32_id 0) by mlia; unfold i32_saturating_sub; mlia.
Qed.

(** Consumer 1 owes three permits, consumer 2 has two. *)
Definition deficit_shared : SharedDispatcher :=
  consumer_flow (-1) (set_core (set_consumer (example_consumer 2 0 2 []) (set_consumer (example_consumer 1 0 (-3) [])
    (dispatch_new false))) (mkShared (dispatch_new false) [1; 2] 0 100)).

Lemma removal_keeps_deficit_witness :
  let sd' := (remove_consumer_with_recovery 1 deficit_shared).2 in
  total_available_permits (core sd') = -1 /\ permits_sum (core sd') = 2.
Proof.
  assert (total_available_permits (core (remove_consumer_with_recovery 1 deficit_shared).2) =
    permits_sum (core (remove_consumer_with_recovery 1 deficit_shared).2) +
    available_permits (example_consumer 1 0 (-3) [])) as He.
  { apply (removal_keeps_deficit 1 deficit_shared (example_consumer 1 0 (-3) []));
      [reflexivity | reflexivity | vm_compute; split; congruence | reflexivity]. }
  assert (permits_sum (core (remove_consumer_with_recovery 1 deficit_shared).2) = 2) as Hs by reflexivity.
  split; [|exact Hs]; rewrite He, Hs; reflexivity.
Defined.
