(* ===== verification/SharedDelivery.v ===== *)
(** * Delivery by the shared dispatcher

    Every operation of the dispatcher keeps the invariant of delivery; a dispatch
    pass ends, and delivers everything there is when the consumers take it. *)

From S2P Require Import Prelude Position MessageMap LedgerInfo RocksLedger StickyKey Consumer.
From S2P Require Import MemoryStore StorageService ReadPosition Redelivery Dispatch SharedDispatcher.

(** ** A turn of the batch *)

Section turn.
Context {S E : Type} `{SubscriptionStore S E} `{MetadataDecoder}.
Context (s : S) (ms : list StoredMessage) (acked : StoredMessage -> bool)
  (readable : ManagedLedgerPosition -> Prop) (Hs : presents s ms acked readable).
Local Abbreviation wf := (delivery_wf ms acked readable).
Local Abbreviation wf_hand := (delivery_wf_hand ms acked readable).
Implicit Types (d : DispatchState) (sd : SharedDispatcher).

Lemma consumers_kept_order sd c d' :
  order_wf sd -> consumers (core sd) !! consumer_id c = Some c -> consumers_kept c (core sd) d' ->
  order_wf (set_core d' sd).
Proof.
  intros Hw Hc [Ho (c' & Hc' & Hi) _]; apply order_wf_core; [done | |]; intros id.
  - intros x Hx; destruct (decide (id = consumer_id c)) as [->|Hne]; [exists c; split; [done | congruence] |].
    rewrite Ho in Hx by done; by exists x.
  - intros [x Hx]; destruct (decide (id = consumer_id c)) as [->|Hne]; [by exists c' |].
    exists x; by rewrite Ho.
Qed.

(** What a turn does with the chosen consumer: it sends one message nobody
    holds, or drops an acknowledged one from the queue, or stops because
    everything is delivered or the consumer does not take the message. *)
Definition turn_spec (c : Consumer) d (r : turn_end E * DispatchState) : Prop :=
  wf r.2 /\ consumers_kept c d r.2 /\
  (queue_fresh ms acked d -> queue_fresh ms acked r.2) /\
  match r.1 with
  | Next n =>
      (n = 0%nat /\ ~ queue_fresh ms acked d /\ forall m, held r.2 m <-> held d m) \/
      (n = 1%nat /\ exists x, sent_to ms acked c x d r.2 /\
         forall max k, ready max (Datatypes.S k) c ->
           exists c', consumers r.2 !! consumer_id c = Some c' /\ ready max k c')
  | Break =>
      (forall m, held r.2 m <-> held d m) /\
      (outstanding ms acked d = [] \/ forall max k, ~ ready max (Datatypes.S k) c)
  | Failed _ => False
  end.

(** Handing over a message the dispatcher has in hand. *)
Lemma hand_over_spec hand d x count c sent back :
  wf_hand hand d -> consumers d !! consumer_id c = Some c -> 0 < available_permits c ->
  x ∈ ms -> acked x = false -> ~ held d (message_id x) -> ~ in_queue d (message_id x) ->
  hand = None \/ hand = Some (message_id x) ->
  (forall d', wf d' -> read_position d' = read_position d -> held d' (message_id x) ->
     wf (sent d') /\ consumers (sent d') = consumers d' /\
     redelivery_controller (sent d') = redelivery_controller d') ->
  (forall d', wf_hand hand d' -> read_position d' = read_position d -> ~ held d' (message_id x) ->
     wf (back false d') /\ consumers (back false d') = consumers d' /\
     forall m, in_queue (back false d') m -> m = message_id x \/ in_queue d' m) ->
  turn_spec c d (hand_over x count c sent back d).
Proof.
  intros Hd Hc Hp Hx Ha Hn Hq Hhand Hsent Hback; unfold hand_over.
  assert (~ holds c (message_id x)) as Hfree by (intros ?; apply Hn; by exists (consumer_id c), c).
  destruct (deliver x count None (messages_in_batch (metadata x)) c) as [[[] c']|] eqn:Hdel.
  - destruct (deliver_sent_wf ms acked readable hand d x _ _ _ c c' Hd Hc Hx Ha Hn Hq Hhand Hdel) as (Hw & Hst & Hk).
    set (d1 := sub_total (messages_in_batch (metadata x)) (set_consumer c' d)).
    destruct (Hsent d1) as (Hw' & Ecs & Erc); [by apply delivery_wf_total | done | by destruct Hst as (_ & _ & _ & ? & _); eexists |].
    assert (forall id m, held_by (sent d1) id m <-> held_by (set_consumer c' d) id m) as Hby
      by (intros; unfold held_by; by rewrite Ecs).
    split_and!; [done | | |]; cbn [fst snd].
    + destruct Hk as [H1 H2 H3]; split; rewrite ?Ecs; [done | done |]; intros id m ?; by apply Hby, H3.
    + intros Hf y Hy Hin; apply Hf; [done |]; unfold in_queue in Hin; by rewrite Erc in Hin.
    + right; split; [done |]; exists x; split.
      * destruct Hst as (? & ? & ? & ? & Hh); split_and!; try done; [by apply Hby |].
        intros m; rewrite <- Hh; unfold held; by setoid_rewrite Hby.
      * intros max k Hr; exists c'; split; [rewrite Ecs; cbn; rewrite <- (proj1 (proj2 (deliver_spec _ _ _ _ _ _ Hdel Hfree))); apply lookup_insert_eq |].
        destruct (deliver_ready _ _ _ count None (messages_in_batch (metadata x)) _ Hr Hp Hfree) as (c3 & Hd3 & Hr3).
        congruence.
  - destruct (deliver_failed_wf ms acked readable hand d x _ _ _ c c' Hd Hc Hn Hdel) as (Hw & Hh & Hk).
    set (d1 := sub_total (messages_in_batch (metadata x)) (set_consumer c' d)).
    destruct (Hback d1) as (Hw' & Ecs & Hin); [by apply delivery_wf_total | done | by intros ?%Hh |].
    split_and!; [by apply delivery_wf_total | | |]; cbn [fst snd].
    + destruct Hk as [H1 H2 H3]; split; cbn; rewrite ?Ecs; [done | done |].
      intros id m ?; unfold held_by; cbn; rewrite Ecs; by apply H3.
    + intros Hf y Hy Hq'; apply Hin in Hq' as [Heq|Hq']; [|by apply Hf].
      by rewrite (stored_id_inj s ms acked readable Hs y x Hy Hx Heq).
    + split; [intros m; rewrite <- Hh; unfold held, held_by; cbn; by rewrite Ecs |].
      right; intros max k Hr.
      destruct (deliver_ready _ _ _ count None (messages_in_batch (metadata x)) _ Hr Hp Hfree) as (c3 & Hd3 & _).
      congruence.
  - exfalso; apply deliver_spec in Hdel; [lia | done].
Qed.

(** The state a turn starts from may have a longer queue and another position. *)
Lemma turn_spec_from c d0 d r :
  consumers d = consumers d0 -> (forall m, in_queue d m -> in_queue d0 m) ->
  turn_spec c d r -> turn_spec c d0 r.
Proof.
  intros Ecs Hsub (H1 & H2 & H3 & H4).
  assert (forall m, held d m <-> held d0 m) as Hh by (intros m; unfold held, held_by; by rewrite Ecs).
  assert (queue_fresh ms acked d0 -> queue_fresh ms acked d) as Hf
    by (intros Hf x Hx Hq; apply Hf; auto).
  split_and!; [done | by eapply consumers_kept_from | auto |].
  destruct r.1 as [n| |]; [| |done].
  - destruct H4 as [(-> & ? & Hs0)|(-> & x & (? & ? & ? & ? & Hs1) & Hr)]; [left | right].
    + split_and!; [done | tauto |]; intros m; by rewrite Hs0.
    + split; [done |]; exists x; split; [|done]; split_and!; [done | done | by rewrite <- Hh | done |].
      intros m; by rewrite Hs1, Hh.
  - destruct H4 as [Hs0 Ho]; split; [intros m; by rewrite Hs0 |].
    by rewrite <- (outstanding_ext ms acked d0 d).
Qed.

Lemma redelivery_turn_spec e rc c d :
  wf d -> pop_next (redelivery_controller d) = (Some e, rc) ->
  consumers d !! consumer_id c = Some c -> 0 < available_permits c ->
  turn_spec c d (redelivery_turn s e c (set_redelivery rc d)).
Proof.
  intros Hd Hpop Hc Hp.
  destruct (pop_wf ms acked readable d e rc Hd Hpop) as (Hw & (x & Hx & Hid) & Hn & Hq).
  pose proof (pop_next_spec _ (dw_queue _ _ _ _ _ Hd)) as Hps; rewrite Hpop in Hps.
  destruct Hps as (_ & He & _ & Hqs & _ & _).
  unfold redelivery_turn; rewrite <- Hid in *.
  rewrite (pr_acked _ _ _ _ Hs x Hx); destruct (acked x) eqn:Ea.
  - split_and!; cbn [fst snd].
    + apply (drop_wf ms acked readable (message_id x)); [done |]; intros y Hy Heq.
      by rewrite (stored_id_inj s ms acked readable Hs y x Hy Hx Heq).
    + by apply consumers_kept_same.
    + intros Hf y Hy Hin; apply Hf; [done |]; apply Hqs in Hin; tauto.
    + left; split_and!; [done | | done]; intros Hf; specialize (Hf x Hx).
      rewrite Hf in Ea; [done |]; unfold in_queue; by exists e.
  - rewrite (pr_get _ _ _ _ Hs x Hx).
    apply (turn_spec_from c d (set_redelivery rc d)); [done | |].
    { intros m Hm; apply Hqs in Hm; tauto. }
    eapply hand_over_spec; try done; [by right |].
    intros d' Hd' _ Hn'; split_and!; [| done |].
    + eapply restore_wf; [exact Hd' | by right | by exists x | done].
    + intros m Hm; destruct (restore_spec (mkRedelivery (message_id x) (wrap_u32 (redelivery_count e + 1)) None)
        _ (dw_queue _ _ _ _ _ Hd')) as (_ & Hr & _); by apply Hr in Hm.
Qed.

Lemma new_message_turn_spec rc c cs d :
  wf d -> pop_next (redelivery_controller d) = (None, rc) ->
  (forall m, is_message_pending cs m = true <-> held d m) ->
  consumers d !! consumer_id c = Some c -> 0 < available_permits c ->
  turn_spec c d (new_message_turn s c cs (set_redelivery rc d)).
Proof.
  intros Hd Hpop Hcs Hc Hp.
  pose proof (pop_next_spec _ (dw_queue _ _ _ _ _ Hd)) as Hps; rewrite Hpop in Hps; destruct Hps as (-> & Hempty).
  assert (set_redelivery (redelivery_controller d) d = d) as -> by by destruct d.
  assert (forall m, ~ in_queue d m) as Hnq
    by (intros m; unfold in_queue, queued; rewrite Hempty, lookup_empty; by intros []).
  unfold new_message_turn.
  destruct (next_dispatchable_message_spec s ms acked readable Hs cs None d Hd Hcs) as (rp & E1 & Hw & _ & Hr).
  destruct (next_dispatchable_message s cs d) as [[[r|]|] d1]; cbn in E1, Hr; subst d1; [| |done].
  - destruct Hr as (Hx & Hns & _ & Hnr & Hpass & _ & _); set (x := rd_message r) in *.
    assert (acked x = false /\ ~ held d (message_id x)) as [Ha Hn].
    { unfold settled in Hns; destruct (acked x); split; tauto. }
    assert (forall hand d', wf_hand hand d' -> read_position d' = rp ->
      held d' (message_id x) \/ in_queue d' (message_id x) ->
      wf_hand hand (set_read_position (commit_read_position (rd_next_position r)) d')) as Hcommit.
    { intros hand d' Hd' Erp Hk; apply delivery_wf_position; [done | by intros ? [= <-] |].
      intros y Hy Hb; destruct (Hpass y Hy Hb) as [->|?]; [by right; right | left; by rewrite Erp]. }
    apply (turn_spec_from c d (set_read_position rp d)); [done | done |].
    eapply (hand_over_spec None (set_read_position rp d)); try done; [apply Hnq | by left | |].
    + intros d' Hd' Erp Hh; split_and!; [|done | done]; apply Hcommit; [done | done | by left].
    + intros d' Hd' Erp Hh.
      assert (wf (add_redelivery_entries [mkRedelivery (message_id x) 1 None] d')) as Hadd.
      { apply add_redelivery_entries_wf; [done |]; intros e [->|?%elem_of_nil]%elem_of_cons; [|done].
        split; [by exists x | done]. }
      destruct (foldl_add_spec [mkRedelivery (message_id x) 1 None] _ (dw_queue _ _ _ _ _ Hd')) as (_ & Hq & _).
      split_and!; [|done |].
      * apply Hcommit; [done | done |]; right; apply Hq; left; by left.
      * intros m Hm; apply Hq in Hm as [[->|?%elem_of_nil]%elem_of_cons|?]; [by left | done | by right].
  - split_and!; [done | by apply consumers_kept_same | done |].
    split; [done |]; left; apply elem_of_nil_inv; intros y [[Ha Hn] Hy]%list_elem_of_filter.
    destruct (Hr y Hy) as [?|[Hb|?]]; [congruence | | done].
    destruct (dw_kept _ _ _ _ _ Hd y Hy Hb) as [?|[?|[?|?]]]; [congruence | done | by eapply Hnq | done].
Qed.

(** ** Batches and passes *)

Record shared_wf sd : Prop := {
  sw_order : order_wf sd;
  sw_delivery : wf (core sd);
}.

Lemma shared_new_wf : shared_wf shared_new.
Proof. split; [apply shared_new_order | apply dispatch_new_wf]. Qed.

(** Every consumer with permits takes the next [n] messages. *)
Definition all_ready (max n : nat) d : Prop :=
  forall id c, consumers d !! id = Some c -> 0 < available_permits c -> ready max n c.

Definition no_permits_left d : Prop :=
  forall id c, consumers d !! id = Some c -> available_permits c <= 0.

(** Nothing left to deliver, or nobody to deliver it to. *)
Definition finished d : Prop := outstanding ms acked d = [] \/ no_permits_left d.

Record turn_result sd (r : turn_end E * SharedDispatcher) : Prop := {
  tr_wf : shared_wf r.2;
  tr_max : max_unacked_messages r.2 = max_unacked_messages sd;
  tr_held : forall id m, held_by (core sd) id m -> held_by (core r.2) id m;
  tr_fresh : queue_fresh ms acked (core sd) -> queue_fresh ms acked (core r.2);
  tr_idle : no_permits_left (core sd) -> r.1 = Break /\ core r.2 = core sd;
  tr_end :
    match r.1 with
    | Next n =>
        (length (outstanding ms acked (core r.2)) + n <= length (outstanding ms acked (core sd)))%nat /\
        (n <= 1)%nat /\ (n = 0%nat -> ~ queue_fresh ms acked (core sd)) /\
        forall max k, all_ready max (Datatypes.S k) (core sd) -> n = 1%nat -> all_ready max k (core r.2)
    | Break =>
        (forall m, held (core r.2) m <-> held (core sd) m) /\
        (finished (core r.2) \/
         exists id c, consumers (core sd) !! id = Some c /\ 0 < available_permits c /\
           forall k, ~ ready (max_unacked_messages sd) (Datatypes.S k) c)
    | Failed _ => False
    end;
}.

Lemma pending_held sd m :
  shared_wf sd -> is_message_pending (ordered_consumers sd) m = true <-> held (core sd) m.
Proof.
  intros [Hw _]; unfold is_message_pending; rewrite existsb_exists; split.
  - intros (c & Hc & Hm%has_pending_ack_spec); apply list_elem_of_In, ordered_consumers_elem in Hc; [|done].
    by exists (consumer_id c), c.
  - intros (id & c & Hc & Hm); exists c; split; [|by apply has_pending_ack_spec].
    apply list_elem_of_In, ordered_consumers_elem; [done |]; by rewrite (ow_ids _ Hw id c Hc).
Qed.

Lemma dispatch_turn_spec sd : shared_wf sd -> turn_result sd (dispatch_turn s sd).
Proof.
  intros Hw; unfold dispatch_turn; destruct (get_next_available_consumer sd) as [o sd1] eqn:Eg.
  apply get_next_available_consumer_spec in Eg as [[i ->] Hg]; [|apply Hw].
  assert (shared_wf (set_index i sd)) as Hw1 by (destruct Hw; split; [by apply order_wf_index | done]).
  destruct o as [c|]; [|split; try done; split; [done |]; left; by right].
  destruct Hg as [Hc Hp].
  destruct (Nat.leb_spec (max_unacked_messages (set_index i sd)) (pending_acks_len c)) as [Hmax|Hmax].
  { split; try done; split; [done |]; right; exists (consumer_id c), c; split_and!; [done | done |].
    intros k (_ & _ & _ & Hle); cbn in Hmax; lia. }
  set (r := match pop_next (redelivery_controller (core (set_index i sd))) with
            | (Some e, rc) => redelivery_turn s e c (set_redelivery rc (core (set_index i sd)))
            | (None, rc) => new_message_turn s c (ordered_consumers (set_index i sd))
                              (set_redelivery rc (core (set_index i sd)))
            end).
  assert (turn_spec c (core sd) r) as Hr.
  { unfold r; destruct (pop_next _) as [[e|] rc] eqn:Epop; cbn in Epop |- *.
    - apply redelivery_turn_spec; [apply Hw | done | done | done].
    - apply new_message_turn_spec; [apply Hw | done | intros m; by apply (pending_held sd) | done | done]. }
  clearbody r; destruct r as [t d], Hr as (H1 & H2 & H3 & H4); cbn [fst snd] in *; split; try done.
  - split; [|done]; cbn [fst snd]; by eapply consumers_kept_order; [apply Hw1 | |].
  - apply H2.
  - intros Hno; specialize (Hno _ _ Hc); lia.
  - destruct t as [n| |]; [| |done].
    + destruct H4 as [(-> & Hf & Hh)|(-> & x & Hst & Hr)]; cbn [core fst snd set_core].
      * rewrite (outstanding_ext ms acked (core sd)) by done; split_and!; [lia | lia | done | done].
      * apply sent_to_outstanding in Hst; split_and!; [lia | lia | done |].
        intros max k Hall _ id c' Hc' Hp'; destruct (decide (id = consumer_id c)) as [->|Hne].
        -- destruct (Hr max k) as (c2 & Hc2 & ?); [by eapply Hall | congruence].
        -- rewrite (ck_others _ _ _ H2) in Hc' by done; eapply ready_less; [by eapply Hall | lia].
    + destruct H4 as [Hh Ho]; split; [done |]; destruct Ho as [Ho|Hnr].
      * left; left; cbn [core fst snd set_core]; by rewrite (outstanding_ext ms acked (core sd)).
      * right; exists (consumer_id c), c; by split_and!.
Qed.

(** What a batch, and a pass, do to the dispatcher: [n] messages are delivered,
    nothing is lost or taken away. *)
Record batch_result (n : nat) sd sd' : Prop := {
  br_wf : shared_wf sd';
  br_max : max_unacked_messages sd' = max_unacked_messages sd;
  br_held : forall id m, held_by (core sd) id m -> held_by (core sd') id m;
  br_count : (length (outstanding ms acked (core sd')) + n <= length (outstanding ms acked (core sd)))%nat;
}.

(** Every consumer takes what is left. *)
Definition eager sd : Prop :=
  queue_fresh ms acked (core sd) /\
  all_ready (max_unacked_messages sd) (length (outstanding ms acked (core sd))) (core sd).

Lemma batch_result_refl sd : shared_wf sd -> batch_result 0 sd sd.
Proof. intros; split; [done | done | done | lia]. Qed.

Lemma batch_result_trans n k sd1 sd2 sd3 :
  batch_result n sd1 sd2 -> batch_result k sd2 sd3 -> batch_result (n + k) sd1 sd3.
Proof. intros [] []; split; [done | congruence | auto | lia]. Qed.

Lemma finished_turn sd :
  shared_wf sd -> finished (core sd) -> finished (core (dispatch_turn s sd).2).
Proof.
  intros Hw [Ho|Hno]; destruct (dispatch_turn_spec sd Hw) as [_ _ Hh _ Hidle _].
  - left; apply elem_of_nil_inv; intros x [[Ha Hx] Hin]%list_elem_of_filter.
    assert (x ∈ outstanding ms acked (core sd)) as Hx'; [|rewrite Ho in Hx'; by apply elem_of_nil in Hx'].
    apply list_elem_of_filter; split; [split; [done |] | done].
    intros (id & Hid); apply Hx; exists id; by apply Hh.
  - right; by rewrite (proj2 (Hidle Hno)).
Qed.

Lemma eager_turn sd :
  shared_wf sd -> eager sd ->
  match dispatch_turn s sd with
  | (Next n, sd') => n = 1%nat /\ eager sd'
  | (Break, sd') => finished (core sd')
  | (Failed _, _) => False
  end.
Proof.
  intros Hw [Hf Hall]; destruct (dispatch_turn_spec sd Hw) as [_ Hmax _ Hfresh _ Hend].
  destruct (dispatch_turn s sd) as [[k| |] sd1]; cbn [fst snd] in *; [| |done].
  - destruct Hend as (Hout & Hk & Hzero & Hready).
    assert (k = 1%nat) as -> by (destruct k as [|[|k]]; [by destruct Hzero | done | lia]).
    split; [done |]; split; [by apply Hfresh |]; rewrite Hmax; eapply Hready; [|done].
    intros id c Hc Hp; eapply ready_less; [by eapply Hall | lia].
  - destruct Hend as [Hh [Hfin|(id & c & Hc & Hp & Hnr)]]; [done | left].
    rewrite (outstanding_ext ms acked (core sd)) by done; specialize (Hall id c Hc Hp).
    destruct (outstanding ms acked (core sd)) as [|x l]; [done | by apply Hnr in Hall].
Qed.

Lemma batch_loop_spec turns n0 sd :
  shared_wf sd ->
  exists n sd', batch_loop s turns n0 sd = (Ok (n0 + n)%nat, sd') /\ batch_result n sd sd' /\
    (finished (core sd) -> finished (core sd')) /\
    (eager sd -> (n = turns /\ eager sd') \/ finished (core sd')).
Proof.
  revert n0 sd; induction turns as [|turns IH]; intros n0 sd Hw; cbn [batch_loop].
  - exists 0%nat, sd; rewrite Nat.add_0_r; split_and!; [done | by apply batch_result_refl | done | by left].
  - pose proof (finished_turn sd Hw) as Hfin; pose proof (eager_turn sd Hw) as Hea.
    destruct (dispatch_turn_spec sd Hw) as [Hw1 Hmax Hheld _ _ Hend].
    destruct (dispatch_turn s sd) as [[k| |] sd1]; cbn [fst snd] in *; [| |done].
    + destruct Hend as (Hout & _ & _ & _).
      destruct (IH (n0 + k)%nat sd1 Hw1) as (n & sd' & -> & Hres & Hfin' & Hea').
      exists (k + n)%nat, sd'; split_and!; [f_equal; f_equal; lia | | auto |].
      * eapply batch_result_trans; [|exact Hres]; by split.
      * intros [-> He]%Hea; destruct (Hea' He) as [[-> ?]|?]; [by left | by right].
    + destruct Hend as [Hh _]; exists 0%nat, sd1; rewrite Nat.add_0_r.
      split_and!; [done | split; try done | done | right; auto].
      rewrite (outstanding_ext ms acked (core sd)) by done; lia.
Qed.

Lemma dispatch_messages_batch_spec sd :
  shared_wf sd ->
  exists n sd', dispatch_messages_batch s sd = (Ok n, sd') /\ batch_result n sd sd' /\
    (finished (core sd) -> finished (core sd')) /\
    (eager sd -> (n <> 0%nat /\ eager sd') \/ finished (core sd') \/ total_available_permits (core sd) <= 0).
Proof.
  intros Hw; unfold dispatch_messages_batch, DISPATCHER_MAX_ROUND_ROBIN_BATCH_SIZE.
  destruct (Z.leb_spec (total_available_permits (core sd)) 0).
  - exists 0%nat, sd; split_and!; [done | by apply batch_result_refl | done | by right; right].
  - destruct (batch_loop_spec (Z.to_nat (total_available_permits (core sd) `min` 20)) 0 sd Hw)
      as (n & sd' & -> & Hres & Hfin & Hea).
    exists n, sd'; split_and!; [done | done | done |].
    intros [[-> ?]|?]%Hea; [left; split; [lia | done] | by right; left].
Qed.

(** How a pass ends. *)
Lemma pass_loop_spec fuel sd :
  shared_wf sd -> (length (outstanding ms acked (core sd)) < fuel)%nat ->
  exists n sd', pass_loop fuel s sd = Some (Ok tt, sd') /\ batch_result n sd sd' /\
    (eager sd \/ finished (core sd) -> finished (core sd') \/ total_available_permits (core sd') <= 0).
Proof.
  revert sd; induction fuel as [|fuel IH]; intros sd Hw Hf; [lia |]; cbn [pass_loop].
  assert (dispatch_messages_batch s sd = (Ok 0%nat, (dispatch_messages_batch s sd).2) ->
    total_available_permits (core sd) <= 0 -> (dispatch_messages_batch s sd).2 = sd) as Hidle.
  { unfold dispatch_messages_batch; intros _ Hle; by rewrite (proj2 (Z.leb_le _ _) Hle). }
  destruct (dispatch_messages_batch_spec sd Hw) as (n & sd1 & Eb & Hres & Hfin & Hea).
  rewrite Eb in *; cbn [snd] in Hidle; destruct n as [|n].
  - exists 0%nat, sd1; split_and!; [done | done |]; intros [He|?]; [|by left; apply Hfin].
    destruct (Hea He) as [[? _]|[?|Hle]]; [done | by left | right].
    by rewrite (Hidle eq_refl Hle).
  - destruct (Z.eqb_spec (total_available_permits (core sd1)) 0) as [Hz|].
    + exists (Datatypes.S n), sd1; split_and!; [done | done |]; intros _; right; lia.
    + destruct (IH sd1) as (k & sd' & -> & Hres' & Hend); [apply Hres | destruct Hres; lia |].
      exists (Datatypes.S n + k)%nat, sd'; split_and!; [done | by eapply batch_result_trans |].
      intros [He|?]; [|apply Hend; right; by apply Hfin].
      destruct (Hea He) as [[_ ?]|[?|Hle]]; [apply Hend; by left | apply Hend; by right |].
      unfold dispatch_messages_batch in Eb; by rewrite (proj2 (Z.leb_le _ _) Hle) in Eb.
Qed.
End turn.

(** ** Properties *)

(** C9: A dispatch pass of the shared dispatcher ends, without error, after at
    most one batch more than there are messages.  It leaves every consumer what
    it held and keeps the invariant of delivery: no consumer holds a message that
    another one holds or that is queued, and no unacknowledged message behind the
    read position is forgotten. *)
Theorem shared_pass_keeps_messages {S E} `{SubscriptionStore S E} `{MetadataDecoder} (s : S)
    (ms : list StoredMessage) (acked : StoredMessage -> bool) (readable : ManagedLedgerPosition -> Prop)
    (sd : SharedDispatcher) :
  presents s ms acked readable -> shared_wf ms acked readable sd ->
  exists sd', pass_loop (Datatypes.S (ss_size s)) s sd = Some (Ok tt, sd') /\
    shared_wf ms acked readable sd' /\
    (forall id m, held_by (core sd) id m -> held_by (core sd') id m).
Proof.
  intros Hs Hw.
  destruct (pass_loop_spec s ms acked readable Hs (Datatypes.S (ss_size s)) sd Hw) as (n & sd' & Hp & Hr & _).
  - pose proof (pr_size _ _ _ _ Hs).
    pose proof (length_filter (fun x => acked x = false /\ ~ held (core sd) (message_id x)) ms).
    unfold outstanding; lia.
  - exists sd'; split; [done |]; destruct Hr; by split.
Qed.


Lemma example_shared_wf : shared_wf example_messages example_acked example_readable example_shared.
Proof.
  split; [exact example_shared_order |].
  apply delivery_wf_total; repeat (apply add_consumer_wf; [|reflexivity |]);
    [apply dispatch_new_wf | ..]; intros m; unfold holds; cbn; rewrite lookup_empty; by intros [].
Qed.

Lemma shared_pass_keeps_messages_witness :
  exists sd', pass_loop (H0 := byte_metadata) (Datatypes.S (ss_size example_view)) example_view example_shared = Some (Ok tt, sd') /\
    shared_wf example_messages example_acked example_readable sd'.
Proof.
  destruct (shared_pass_keeps_messages (H0 := byte_metadata) example_view example_messages example_acked
    example_readable example_shared example_view_presents example_shared_wf) as (sd' & Hp & Hw & _).
  exists sd'; split; [exact Hp | exact Hw].
Defined.

