(* ===== verification/DispatchTrigger.v ===== *)
(** * Merging concurrent dispatch triggers

    The flags of [SharedDispatcher::dispatch_messages]
    ([broker/dispatcher/shared.rs]): every call is a thread that goes through the
    atomic accesses of the function one at a time, interleaved with the other
    threads in any order.  What a pass does is modelled with the dispatcher; here
    a pass begins, and ends well or with an error.

    The set [uncovered] is a ghost: the triggers that arrived since the last pass
    began, which no pass has taken into account yet. *)

From S2P Require Import Prelude.

(** Where a thread stands: the access it does next. *)
Inductive pc :=
| Enter          (** [dispatch_in_progress.swap(true)] at the top *)
| SetReschedule  (** [should_reschedule.store(true)] *)
| InPass         (** in the inner loop *)
| Release        (** [dispatch_in_progress.store(false)] after the pass *)
| CheckFlag      (** [should_reschedule.swap(false)] *)
| Reacquire      (** [dispatch_in_progress.swap(true)] for another pass *)
| ReleaseFailed  (** [dispatch_in_progress.store(false)] after an error *)
| Returned.

#[global] Instance pc_eq_dec : EqDecision pc.
Proof. solve_decision. Defined.

Record TriggerState := mkTriggers {
  dispatch_in_progress : bool;
  should_reschedule : bool;
  threads : gmap nat pc;
  uncovered : gset nat;
}.

Definition triggers_new : TriggerState := mkTriggers false false ∅ ∅.

Definition goto (t : nat) (p : pc) (st : TriggerState) : TriggerState :=
  mkTriggers (dispatch_in_progress st) (should_reschedule st) (<[t := p]> (threads st)) (uncovered st).
Definition set_in_progress (b : bool) (st : TriggerState) : TriggerState :=
  mkTriggers b (should_reschedule st) (threads st) (uncovered st).
Definition set_reschedule (b : bool) (st : TriggerState) : TriggerState :=
  mkTriggers (dispatch_in_progress st) b (threads st) (uncovered st).
Definition set_uncovered (u : gset nat) (st : TriggerState) : TriggerState :=
  mkTriggers (dispatch_in_progress st) (should_reschedule st) (threads st) u.

(** A thread takes the guard, or finds it taken and goes to [p]. *)
Definition acquire (t : nat) (p : pc) (st : TriggerState) : TriggerState :=
  if dispatch_in_progress st then goto t p st
  else goto t InPass (set_uncovered ∅ (set_in_progress true st)).

(** One atomic access of thread [t]; [pass_ok] is how a pass that ends here
    ends. *)
Definition thread_step (t : nat) (pass_ok : bool) (st : TriggerState) : option TriggerState :=
  match threads st !! t with
  | None => Some (goto t Enter (set_uncovered ({[t]} ∪ uncovered st) st))
  | Some Enter => Some (acquire t SetReschedule st)
  | Some SetReschedule => Some (goto t Returned (set_reschedule true st))
  | Some InPass => Some (goto t (if pass_ok then Release else ReleaseFailed) st)
  | Some Release => Some (goto t CheckFlag (set_in_progress false st))
  | Some CheckFlag =>
      Some (goto t (if should_reschedule st then Reacquire else Returned) (set_reschedule false st))
  | Some Reacquire => Some (acquire t Returned st)
  | Some ReleaseFailed => Some (goto t Returned (set_in_progress false st))
  | Some Returned => None
  end.

Inductive reachable : TriggerState -> Prop :=
| reach_new : reachable triggers_new
| reach_step t ok st st' : reachable st -> thread_step t ok st = Some st' -> reachable st'.

(** A schedule: which thread goes next, and how a pass that ends there ends. *)
Fixpoint run (schedule : list (nat * bool)) (st : TriggerState) : option TriggerState :=
  match schedule with
  | [] => Some st
  | (t, ok) :: schedule => thread_step t ok st ≫= run schedule
  end.

Lemma run_reachable schedule st st' : reachable st -> run schedule st = Some st' -> reachable st'.
Proof.
  revert st; induction schedule as [|[t ok] schedule IH]; intros st Hst; cbn; [by intros [= <-] |].
  destruct (thread_step t ok st) as [st1|] eqn:E; [|done]; cbn; intros Hr.
  eapply IH; [|exact Hr]; by eapply reach_step.
Qed.

(** ** The guard *)

(** The thread holds the guard. *)
Definition owns (st : TriggerState) (t : nat) : Prop :=
  exists p, threads st !! t = Some p /\ (p = InPass \/ p = Release \/ p = ReleaseFailed).

Definition quiescent (st : TriggerState) : Prop := forall t p, threads st !! t = Some p -> p = Returned.

(** The guard is set exactly when a thread owns it, and then one does. *)
Definition guard_wf (st : TriggerState) : Prop :=
  (forall t u, owns st t -> owns st u -> t = u) /\
  (dispatch_in_progress st = true <-> exists t, owns st t).

Lemma owns_goto st t p u :
  owns (goto t p st) u <->
  (u = t /\ (p = InPass \/ p = Release \/ p = ReleaseFailed)) \/ (u <> t /\ owns st u).
Proof.
  unfold owns, goto; cbn; split.
  - intros (q & Hq & Ho); apply lookup_insert_Some in Hq as [[-> ->]|[? ?]]; [by left | right].
    split; [done |]; by exists q.
  - intros [[-> Ho]|[? (q & ? & ?)]]; [exists p; by rewrite lookup_insert_eq |].
    exists q; by rewrite lookup_insert_ne.
Qed.

Lemma guard_kept st t p :
  guard_wf st -> ~ owns st t -> ~ (p = InPass \/ p = Release \/ p = ReleaseFailed) -> guard_wf (goto t p st).
Proof.
  intros [Hu Hb] Ho Hp.
  assert (forall u, owns (goto t p st) u <-> owns st u) as Hg
    by (intros u; rewrite owns_goto; destruct (decide (u = t)) as [->|]; tauto).
  split; [intros u v; rewrite !Hg; apply Hu |]; cbn; rewrite Hb; by setoid_rewrite Hg.
Qed.

Lemma guard_moved st t p :
  guard_wf st -> owns st t -> p = InPass \/ p = Release \/ p = ReleaseFailed -> guard_wf (goto t p st).
Proof.
  intros [Hu Hb] Ho Hp.
  assert (forall u, owns (goto t p st) u <-> owns st u) as Hg
    by (intros u; rewrite owns_goto; destruct (decide (u = t)) as [->|]; tauto).
  split; [intros u v; rewrite !Hg; apply Hu |]; cbn; rewrite Hb; by setoid_rewrite Hg.
Qed.

Lemma guard_released st t p :
  guard_wf st -> owns st t -> ~ (p = InPass \/ p = Release \/ p = ReleaseFailed) ->
  guard_wf (goto t p (set_in_progress false st)).
Proof.
  intros [Hu Hb] Ho Hp.
  assert (forall u, ~ owns (goto t p (set_in_progress false st)) u) as Hno.
  { intros u; rewrite owns_goto; intros [[_ ?]|[Hne Hou]]; [done | by apply Hne, Hu]. }
  split; [intros u v Hou; by apply Hno in Hou | cbn; split; [done | intros [u Hou]; by apply Hno in Hou]].
Qed.

Lemma acquire_guard st t p :
  guard_wf st -> ~ owns st t -> ~ (p = InPass \/ p = Release \/ p = ReleaseFailed) ->
  guard_wf (acquire t p st).
Proof.
  intros Hw Ho Hp; unfold acquire; destruct (dispatch_in_progress st) eqn:Eb; [by apply guard_kept |].
  destruct Hw as [Hu Hb].
  assert (forall u, ~ owns st u) as Hno by (intros u Hou; rewrite (proj2 Hb (ex_intro _ u Hou)) in Eb; done).
  assert (forall u, owns (goto t InPass (set_uncovered ∅ (set_in_progress true st))) u <-> u = t) as Hg.
  { intros u; rewrite owns_goto; split; [|by intros ->; left; auto].
    intros [[-> _]|[_ Hou]]; [done | by apply Hno in Hou]. }
  split; [intros u v; rewrite !Hg; congruence | cbn; split; [intros _; exists t; by apply Hg | done]].
Qed.

Lemma thread_step_guard t ok st st' : guard_wf st -> thread_step t ok st = Some st' -> guard_wf st'.
Proof.
  intros Hw; unfold thread_step.
  assert (forall b, guard_wf (set_reschedule b st)) as Hre by (intros b; exact Hw).
  assert (forall u, guard_wf (set_uncovered u st)) as Hun by (intros u; exact Hw).
  destruct (threads st !! t) as [p|] eqn:Et.
  2:{ intros [= <-]; apply guard_kept; [done | | by intros [|[]]]; intros (q & Hq & _); cbn in Hq; congruence. }
  destruct (decide (p = InPass \/ p = Release \/ p = ReleaseFailed)) as [Hp|Hp].
  - assert (owns st t) as Ho by by exists p.
    destruct Hp as [-> | [-> | ->]]; intros [= <-].
    + apply guard_moved; [done | done |]; destruct ok; auto.
    + apply guard_released; [done | done |]; naive_solver.
    + apply guard_released; [done | done |]; naive_solver.
  - assert (~ owns st t) as Ho by (intros (q & Hq & Hown); congruence).
    destruct p; try (exfalso; tauto); intros [= <-].
    + apply acquire_guard; [done | done |]; naive_solver.
    + apply guard_kept; [done | done |]; naive_solver.
    + apply guard_kept; [done | done |]; destruct (should_reschedule st); naive_solver.
    + apply acquire_guard; [done | done |]; naive_solver.
Qed.

Lemma reachable_guard st : reachable st -> guard_wf st.
Proof.
  induction 1 as [|t ok st st' _ IH Hst]; [|by eapply thread_step_guard].
  assert (forall t, ~ owns triggers_new t) as Hno.
  { intros t (p & Hp & _); cbn in Hp; by rewrite lookup_empty in Hp. }
  split; [intros t u Ho; by apply Hno in Ho | cbn; split; [done | intros [t Ho]; by apply Hno in Ho]].
Qed.

(** ** Properties *)

(** C26: However the calls interleave, at most one of them owns the guard: it is in a
    dispatch pass, or about to release the guard after one.  The flag is set exactly
    while a call owns it.  Once all calls have returned, with or without errors, the
    next call begins a pass itself. *)
Theorem one_pass_at_a_time (st : TriggerState) :
  reachable st ->
  (forall t u, threads st !! t = Some InPass -> threads st !! u = Some InPass -> t = u) /\
  (forall t u, owns st t -> owns st u -> t = u) /\
  (dispatch_in_progress st = true <-> exists t, owns st t) /\
  (quiescent st -> forall t, threads st !! t = None ->
     exists st1 st2, thread_step t true st = Some st1 /\ thread_step t true st1 = Some st2 /\
       threads st2 !! t = Some InPass /\ uncovered st2 = ∅).
Proof.
  intros [Hu Hb]%reachable_guard; split_and!; [| exact Hu | exact Hb |].
  - intros t u Ht Hu'; apply Hu; [by exists InPass; auto | by exists InPass; auto].
  - intros Hq t Ht; unfold thread_step at 1; rewrite Ht; eexists; eexists; split; [reflexivity |].
    unfold thread_step; cbn; rewrite lookup_insert_eq; split; [reflexivity |].
    unfold acquire; cbn; destruct (dispatch_in_progress st) eqn:Eb.
    + destruct (proj1 Hb eq_refl) as (u & p & Hp & Hown); rewrite (Hq u p Hp) in Hown; naive_solver.
    + cbn; by rewrite lookup_insert_eq.
Qed.

Lemma one_pass_at_a_time_witness :
  exists st, run [(0, true); (0, true); (1, true); (1, true)]%nat triggers_new = Some st /\
    dispatch_in_progress st = true /\ threads st !! 1%nat = Some SetReschedule /\
    (dispatch_in_progress st = true <-> exists t, owns st t).
Proof.
  eexists; split; [reflexivity |]; split; [reflexivity |]; split; [reflexivity |].
  refine (proj1 (proj2 (proj2 (one_pass_at_a_time _ _)))).
  by apply (run_reachable [(0, true); (0, true); (1, true); (1, true)]%nat triggers_new); [constructor |].
Defined.

(** The first call releases the guard after its pass; the second begins a pass;
    the third finds the guard taken and asks for another pass; the first clears
    that request and finds the guard taken; the second ends its pass and finds no
    request. *)
Definition losing_schedule : list (nat * bool) :=
  [(0, true); (0, true); (0, true); (0, true); (1, true); (1, true); (2, true); (2, true); (2, true);
   (0, true); (0, true); (1, true); (1, true); (1, true)]%nat.

(** A trigger can be lost.  Three calls can interleave so that all return
    without error, both flags are clear, and no pass begins after the third call
    arrived. *)
Theorem trigger_can_be_lost :
  exists st, run losing_schedule triggers_new = Some st /\ reachable st /\ quiescent st /\
    dispatch_in_progress st = false /\ should_reschedule st = false /\ 2%nat ∈ uncovered st.
Proof.
  eexists; split; [reflexivity |]; split_and!.
  - by apply (run_reachable losing_schedule triggers_new); [constructor |].
  - apply (map_Forall_lookup (fun (_ : nat) p => p = Returned)), (bool_decide_unpack _); by vm_compute.
  - reflexivity.
  - reflexivity.
  - apply (bool_decide_unpack _); by vm_compute.
Qed.
