(* ===== verification/KeyShared.v ===== *)
(** * The key-shared dispatcher

    [broker/dispatcher/key_shared.rs]: messages with the same sticky key go to
    the consumer whose hash range contains the hash of the key.  The code keeps
    references to the consumers in its assignments; the model keeps their ids and
    looks the consumer up in the one map of consumers. *)

From stdpp Require Import sorting.
From S2P Require Import Prelude Position MessageMap LedgerInfo RocksLedger StickyKey Consumer.
From S2P Require Import ReadPosition Redelivery Dispatch.

Definition assignment : Type := KeySharedHashRange * Z.

Record KeySharedDispatcher := mkKeyShared {
  key_core : DispatchState;
  auto_split_assignments : list assignment;
  sticky_assignments : list assignment;
  dispatcher_policy : KeySharedPolicy;
}.

Definition default_policy : KeySharedPolicy := mkPolicy AutoSplit [] false.

Definition key_shared_new (policy : option KeySharedPolicy) : KeySharedDispatcher :=
  let policy := default default_policy policy in
  mkKeyShared (dispatch_new (negb (allow_out_of_order_delivery policy))) [] [] policy.

Definition set_key_core (d : DispatchState) (kd : KeySharedDispatcher) : KeySharedDispatcher :=
  mkKeyShared d (auto_split_assignments kd) (sticky_assignments kd) (dispatcher_policy kd).

Definition has_same_key_shared_policy (policy : option KeySharedPolicy) (kd : KeySharedDispatcher) : bool :=
  match policy with
  | None => bool_decide (policy_mode (dispatcher_policy kd) = AutoSplit)
  | Some policy => bool_decide (policy_mode policy = policy_mode (dispatcher_policy kd))
  end.

Definition active_assignments (kd : KeySharedDispatcher) : list assignment :=
  match policy_mode (dispatcher_policy kd) with
  | AutoSplit => auto_split_assignments kd
  | Sticky => sticky_assignments kd
  end.

(** ** Assignment of hash ranges *)

(** [const RANGE_SIZE: i32 = (2 << 15) - 1] *)
Definition AUTO_SPLIT_RANGE : Z := Z.shiftl 2 15 - 1.

(** The ids in [consumers_by_id], sorted. *)
Definition sorted_ids (cs : gmap Z Consumer) : list Z := merge_sort Z.le (map_to_list cs).*1.

(** [i32] arithmetic: wrapping products, truncated division. *)
Definition auto_split_range (index total : Z) : KeySharedHashRange :=
  mkRange (Z.quot (wrap_i32 (index * (AUTO_SPLIT_RANGE + 1))) total)
          (Z.quot (wrap_i32 ((index + 1) * (AUTO_SPLIT_RANGE + 1))) total - 1).

Fixpoint auto_split_loop (index total : Z) (ids : list Z) : list assignment :=
  match ids with
  | [] => []
  | id :: ids => (auto_split_range index total, id) :: auto_split_loop (index + 1) total ids
  end.

Definition rebuild_auto_split_assignments (cs : gmap Z Consumer) : list assignment :=
  let ids := sorted_ids cs in
  auto_split_loop 0 (Z.of_nat (length ids)) ids.

Definition sticky_ranges_for_consumer (c : Consumer) : list KeySharedHashRange :=
  from_option policy_ranges [] (key_shared_policy c).

(** The order of [sort_by_key(|(range, consumer)| (range.start, range.end, id))]. *)
Definition assignment_le (a b : assignment) : Prop :=
  range_start a.1 < range_start b.1 \/ range_start a.1 = range_start b.1 /\
    (range_end a.1 < range_end b.1 \/ range_end a.1 = range_end b.1 /\ a.2 <= b.2).

#[global] Instance assignment_le_dec : RelDecision assignment_le.
Proof. intros a b; unfold assignment_le; apply _. Defined.

Definition rebuild_sticky_assignments (cs : gmap Z Consumer) : list assignment :=
  merge_sort assignment_le
    (mjoin ((fun kc => (fun r => (r, consumer_id kc.2)) <$> sticky_ranges_for_consumer kc.2) <$> map_to_list cs)).

Definition rebuild_assignments (kd : KeySharedDispatcher) : KeySharedDispatcher :=
  mkKeyShared (key_core kd) (rebuild_auto_split_assignments (consumers (key_core kd)))
    (rebuild_sticky_assignments (consumers (key_core kd))) (dispatcher_policy kd).

Definition in_range (h : Z) (r : KeySharedHashRange) : bool := (range_start r <=? h) && (h <=? range_end r).

Fixpoint select_from (cs : gmap Z Consumer) (h : Z) (l : list assignment) : option Consumer :=
  match l with
  | [] => None
  | (r, id) :: l =>
      match cs !! id with
      | Some c =>
          if in_range h r && (0 <? available_permits_now c) && is_writable c then Some c
          else select_from cs h l
      | None => select_from cs h l
      end
  end.

Definition select_consumer_for_hash (h : Z) (kd : KeySharedDispatcher) : option Consumer :=
  select_from (consumers (key_core kd)) h (active_assignments kd).

(** ** Membership *)

Inductive add_error := ConsumerExists | IncompatiblePolicy.

Definition add_consumer (c : Consumer) (kd : KeySharedDispatcher) : result add_error KeySharedDispatcher :=
  match consumers (key_core kd) !! consumer_id c with
  | Some _ => Err ConsumerExists
  | None =>
      if negb (has_same_key_shared_policy (key_shared_policy c) kd) then Err IncompatiblePolicy
      else Ok (rebuild_assignments (set_key_core (set_consumer c (key_core kd)) kd))
  end.

Definition remove_consumer (id : Z) (kd : KeySharedDispatcher) : option Consumer * KeySharedDispatcher :=
  let '(c, d) := Dispatch.remove_consumer id (key_core kd) in
  (c, rebuild_assignments (set_key_core d kd)).

Definition remove_consumer_with_recovery (id : Z) (kd : KeySharedDispatcher)
  : option Consumer * KeySharedDispatcher :=
  let '(c, d) := Dispatch.remove_consumer_with_recovery pa_sticky_key_hash id (key_core kd) in
  (c, rebuild_assignments (set_key_core d kd)).

Definition consumer_flow (id n : Z) (kd : KeySharedDispatcher) : KeySharedDispatcher :=
  match consumers (key_core kd) !! id with
  | Some _ => set_key_core (add_total n (key_core kd)) kd
  | None => kd
  end.

(** ** Dispatching *)

Section dispatch.
Context {S E : Type} `{SubscriptionStore S E} `{MetadataDecoder}.

Definition entry_hash (e : RedeliveryEntry) (x : StoredMessage) : Z :=
  default (sticky_key_hash_from_metadata (metadata x)) (Redelivery.sticky_key_hash e).

(** The loop over the snapshot of the queue. *)
Fixpoint pop_dispatchable_loop (s : S) (queue : list RedeliveryEntry) (kd : KeySharedDispatcher)
  : result E (option (RedeliveryEntry * StoredMessage * Consumer)) * KeySharedDispatcher :=
  match queue with
  | [] => (Ok None, kd)
  | e :: queue =>
      let rc := redelivery_controller (key_core kd) in
      let set rc := set_key_core (set_redelivery rc (key_core kd)) kd in
      match ss_is_acknowledged s (re_message_id e) with
      | Err err => (Err err, kd)
      | Ok true => pop_dispatchable_loop s queue (set (remove (re_message_id e) rc).2)
      | Ok false =>
          match ss_get_message_entry_by_id s (re_message_id e) with
          | None => pop_dispatchable_loop s queue (set (remove (re_message_id e) rc).2)
          | Some x =>
              let h := entry_hash e x in
              if has_in_flight_hash h rc then pop_dispatchable_loop s queue kd
              else
                match select_consumer_for_hash h kd with
                | None => pop_dispatchable_loop s queue kd
                | Some c =>
                    match take_for_delivery_with_hash (re_message_id e) (Some h) rc with
                    | (None, rc) => pop_dispatchable_loop s queue (set rc)
                    | (Some e, rc) => (Ok (Some (e, x, c)), set rc)
                    end
                end
          end
      end
  end.

Definition pop_dispatchable_redelivery_message (s : S) (kd : KeySharedDispatcher) :=
  pop_dispatchable_loop s (queued_entries (redelivery_controller (key_core kd))) kd.

(** The state of the batch loop. *)
Record BatchState := mkBatch {
  remaining_dispatches : Z;
  progress : nat;
  dispatcher : KeySharedDispatcher;
}.

Definition set_dispatcher (kd : KeySharedDispatcher) (b : BatchState) : BatchState :=
  mkBatch (remaining_dispatches b) (progress b) kd.
Definition on_core (f : DispatchState -> DispatchState) (b : BatchState) : BatchState :=
  set_dispatcher (set_key_core (f (key_core (dispatcher b))) (dispatcher b)) b.
Definition advance (b : BatchState) : BatchState :=
  mkBatch (remaining_dispatches b) (Datatypes.S (progress b)) (dispatcher b).
(** [remaining_dispatches -= 1] on [u32] *)
Definition count_dispatch (b : BatchState) : BatchState :=
  mkBatch (wrap_u32 (remaining_dispatches b - 1)) (progress b) (dispatcher b).

(** The loop goes on, is left, or fails. *)
Inductive flow := Proceed | Leave | Fail (e : E).

(** A message for a consumer: the permits of the batch are taken, the message is
    counted and sent; [sent] and [back] are what happens then. *)
Definition hand_over (x : StoredMessage) (count h : Z) (c : Consumer)
    (sent : DispatchState -> DispatchState) (no_permits failed : DispatchState -> DispatchState)
    (b : BatchState) : flow * BatchState :=
  let batch := messages_in_batch (metadata x) in
  match deliver x count (Some h) batch c with
  | None => (Leave, on_core no_permits b)
  | Some (true, c) =>
      (Proceed, advance (on_core (fun d => sent (subtract_total_permits batch (set_consumer c d)))
                           (count_dispatch b)))
  | Some (false, c) =>
      (Leave, on_core (fun d => add_total batch (failed (subtract_total_permits batch (set_consumer c d))))
                (count_dispatch b))
  end.

Definition redelivery_phase (s : S) (b : BatchState) : flow * BatchState :=
  match pop_dispatchable_redelivery_message s (dispatcher b) with
  | (Err e, kd) => (Fail e, set_dispatcher kd b)
  | (Ok None, kd) => (Proceed, set_dispatcher kd b)
  | (Ok (Some (e, x, c)), kd) =>
      let h := entry_hash e x in
      hand_over x (redelivery_count e) h c (fun d => d)
        (restore_redelivery_message (mkRedelivery (re_message_id e) (redelivery_count e) (Some h)))
        (restore_redelivery_message
           (mkRedelivery (message_id x) (wrap_u32 (redelivery_count e + 1)) (Some h)))
        (set_dispatcher kd b)
  end.

Definition all_consumers (d : DispatchState) : list Consumer := (map_to_list (consumers d)).*2.

Definition new_message_phase (s : S) (b : BatchState) : flow * BatchState :=
  let d := key_core (dispatcher b) in
  match next_dispatchable_message s (all_consumers d) d with
  | (Err e, d) => (Fail e, on_core (fun _ => d) b)
  | (Ok None, d) => (Leave, on_core (fun _ => d) b)
  | (Ok (Some r), d) =>
      let x := rd_message r in
      let b := on_core (fun _ => d) b in
      let h := sticky_key_hash_from_metadata (metadata x) in
      let commit := set_read_position (commit_read_position (rd_next_position r)) in
      if is_hash_blocked h (redelivery_controller d)
      then (Proceed, advance (on_core (fun d =>
              commit (add_redelivery_entries [mkRedelivery (message_id x) 0 (Some h)] d)) b))
      else
        match select_consumer_for_hash h (dispatcher b) with
        | None => (Leave, b)
        | Some c =>
            hand_over x 0 h c commit (fun d => d)
              (fun d => commit (restore_redelivery_message (mkRedelivery (message_id x) 1 (Some h)) d)) b
        end
  end.

(** [while remaining_dispatches > 0] *)
Fixpoint batch_loop (fuel : nat) (s : S) (b : BatchState) : option (result E nat * KeySharedDispatcher) :=
  match fuel with
  | O => None
  | Datatypes.S fuel =>
      if remaining_dispatches b <=? 0 then Some (Ok (progress b), dispatcher b)
      else
        match redelivery_phase s b with
        | (Fail e, b) => Some (Err e, dispatcher b)
        | (Leave, b) => Some (Ok (progress b), dispatcher b)
        | (Proceed, b) =>
            match new_message_phase s b with
            | (Fail e, b) => Some (Err e, dispatcher b)
            | (Leave, b) => Some (Ok (progress b), dispatcher b)
            | (Proceed, b) => batch_loop fuel s b
            end
        end
  end.

(** Enough turns for a store of that size: every turn sends a message or moves
    the read position. *)
Definition batch_fuel (s : S) : nat := (2 * ss_size s + 2)%nat.

Definition dispatch_messages_batch (s : S) (kd : KeySharedDispatcher)
  : option (result E nat * KeySharedDispatcher) :=
  let max_batch := Z.min (total_available_permits (key_core kd)) DISPATCHER_MAX_ROUND_ROBIN_BATCH_SIZE in
  if max_batch <=? 0 then Some (Ok 0%nat, kd)
  else batch_loop (batch_fuel s) s (mkBatch max_batch 0 kd).

Fixpoint dispatch_messages (fuel : nat) (s : S) (kd : KeySharedDispatcher)
  : option (result E unit * KeySharedDispatcher) :=
  match fuel with
  | O => None
  | Datatypes.S fuel =>
      match dispatch_messages_batch s kd with
      | None => None
      | Some (Err e, kd) => Some (Err e, kd)
      | Some (Ok 0%nat, kd) => Some (Ok tt, kd)
      | Some (Ok _, kd) =>
          if total_available_permits (key_core kd) <=? 0 then Some (Ok tt, kd)
          else dispatch_messages fuel s kd
      end
  end.
End dispatch.
Arguments flow : clear implicits.

(** ** The split of the hash range *)

(** The assignments whose range contains the hash. *)
Definition owners (h : Z) (l : list assignment) : list assignment :=
  filter (fun a : assignment => in_range h a.1 = true) l.

Lemma owners_cons h r id l :
  owners h ((r, id) :: l) = if in_range h r then (r, id) :: owners h l else owners h l.
Proof. unfold owners; rewrite filter_cons; cbn; by destruct (in_range h r). Qed.

(** The lower end of the [i]-th of [n] ranges. *)
Definition split_bound (i n : Z) : Z := i * 65536 / n.

Lemma auto_split_range_bounds i n :
  0 <= i < n -> n <= 32767 ->
  auto_split_range i n = mkRange (split_bound i n) (split_bound (i + 1) n - 1).
Proof.
  intros Hi Hn; unfold auto_split_range, split_bound; change (AUTO_SPLIT_RANGE + 1) with 65536.
  rewrite !wrap_i32_id by mlia; rewrite !Z.quot_div_nonneg by lia; done.
Qed.

Lemma split_bound_mono i j n : 0 < n -> i <= j -> split_bound i n <= split_bound j n.
Proof. intros; apply Z.div_le_mono; lia. Qed.

Lemma auto_split_loop_owner h n k ids :
  0 <= k -> k + Z.of_nat (length ids) <= n -> n <= 32767 ->
  (h < split_bound k n \/ split_bound (k + Z.of_nat (length ids)) n <= h ->
     owners h (auto_split_loop k n ids) = []) /\
  (split_bound k n <= h < split_bound (k + Z.of_nat (length ids)) n ->
     exists r id, owners h (auto_split_loop k n ids) = [(r, id)] /\ id ∈ ids).
Proof.
  revert k; induction ids as [|id ids IH]; intros k Hk Hlen Hn; cbn [length auto_split_loop] in *.
  - split; [done |]; replace (k + Z.of_nat 0) with k by lia; lia.
  - destruct (IH (k + 1)) as [Hout Hin]; [lia | lia | done |].
    replace (k + 1 + Z.of_nat (length ids)) with (k + Z.of_nat (S (length ids))) in * by lia.
    rewrite auto_split_range_bounds by lia.
    pose proof (split_bound_mono k (k + 1) n ltac:(lia) ltac:(lia)).
    pose proof (split_bound_mono (k + 1) (k + Z.of_nat (S (length ids))) n ltac:(lia) ltac:(lia)).
    rewrite owners_cons.
    destruct (in_range h (mkRange (split_bound k n) (split_bound (k + 1) n - 1))) eqn:Hr; unfold in_range in Hr; cbn in Hr.
    + split; [lia |]; intros _; rewrite Hout by lia; eexists; eexists; split; [done | by left].
    + split; [intros; apply Hout; lia | intros Hi].
      destruct Hin as (r & j & -> & Hj); [lia |]; exists r, j; split; [done | by right].
Qed.

Lemma sorted_ids_perm cs : sorted_ids cs ≡ₚ (map_to_list cs).*1.
Proof. apply merge_sort_Permutation. Qed.

Lemma auto_split_owner (cs : gmap Z Consumer) h :
  cs <> ∅ -> Z.of_nat (size cs) <= 32767 -> 0 <= h < 65536 ->
  exists r id, owners h (rebuild_auto_split_assignments cs) = [(r, id)] /\
    is_Some (cs !! id).
Proof.
  intros Hne Hsize Hh; unfold rebuild_auto_split_assignments.
  assert (length (sorted_ids cs) = size cs) as Hlen
    by (rewrite sorted_ids_perm, length_fmap; apply length_map_to_list).
  assert (0 < Z.of_nat (size cs)).
  { destruct (size cs) eqn:E; [by apply map_size_empty_inv in E | lia]. }
  destruct (auto_split_loop_owner h (Z.of_nat (length (sorted_ids cs))) 0 (sorted_ids cs)) as [_ Hin];
    [lia | lia | lia |].
  destruct Hin as (r & id & -> & Hid).
  - rewrite Z.add_0_l; unfold split_bound; rewrite Z.mul_0_l, Z.div_0_l by lia.
    rewrite (Z.mul_comm _ 65536), Z.div_mul by lia; lia.
  - exists r, id; split; [done |].
    rewrite sorted_ids_perm, list_elem_of_fmap in Hid; destruct Hid as ([j c] & -> & Hj%elem_of_map_to_list).
    by exists c.
Qed.

Lemma select_from_spec cs h l c :
  select_from cs h l = Some c ->
  exists r id, (r, id) ∈ owners h l /\ cs !! id = Some c /\
    0 < available_permits c /\ is_writable c = true.
Proof.
  induction l as [|[r id] l IH]; cbn [select_from]; [done |].
  assert (select_from cs h l = Some c -> exists r0 id0,
    (r0, id0) ∈ owners h ((r, id) :: l) /\ cs !! id0 = Some c /\
    0 < available_permits c /\ is_writable c = true) as Hrest.
  { intros (r' & id' & Hin & ?)%IH; exists r', id'; split; [|done].
    apply list_elem_of_filter in Hin as [? ?]; apply list_elem_of_filter; split; [done | by right]. }
  destruct (cs !! id) as [x|] eqn:Ex; [|done].
  destruct (in_range h r && (0 <? available_permits_now x) && is_writable x) eqn:Eb; [|done].
  intros [= ->]; apply andb_true_iff in Eb as [[Hr Hp]%andb_true_iff Hwr].
  exists r, id; split_and!; [|done | | done].
  - apply list_elem_of_filter; split; [done | by left].
  - unfold available_permits_now in Hp; lia.
Qed.

(** With one consumer more the product of the last range overflows, and the range ends
    before it begins. *)
Lemma auto_split_overflows : auto_split_range 32767 32768 = mkRange 65534 (-65537).
Proof. reflexivity. Qed.

(** C24: With automatic split and at most 32767 consumers every hash value belongs to
    the range of exactly one consumer, and whatever permits the consumers have at the
    time, only that consumer is ever selected for it: messages with the same key go to
    one consumer as long as the consumers stay the same. *)
Theorem key_has_one_owner (kd : KeySharedDispatcher) (h : Z) :
  policy_mode (dispatcher_policy kd) = AutoSplit ->
  auto_split_assignments kd = rebuild_auto_split_assignments (consumers (key_core kd)) ->
  consumers (key_core kd) <> ∅ -> Z.of_nat (size (consumers (key_core kd))) <= 32767 -> 0 <= h < 65536 ->
  exists r owner, is_Some (consumers (key_core kd) !! owner) /\
    owners h (active_assignments kd) = [(r, owner)] /\
    forall c, select_consumer_for_hash h kd = Some c -> consumers (key_core kd) !! owner = Some c.
Proof.
  intros Hm Ha Hne Hsize Hh.
  destruct (auto_split_owner (consumers (key_core kd)) h Hne Hsize Hh) as (r & id & Hf & Hid).
  assert (active_assignments kd = rebuild_auto_split_assignments (consumers (key_core kd))) as Hact
    by (unfold active_assignments; by rewrite Hm).
  exists r, id; split_and!; [done | by rewrite Hact |].
  intros c (r' & id' & Hin & Hc & _)%select_from_spec; rewrite Hact, Hf in Hin.
  by apply list_elem_of_singleton in Hin as [= -> ->].
Qed.
