(* ===== verification/KeyDelivery.v ===== *)
(** * Delivery by the key-shared dispatcher

    The invariant of delivery together with what keeps keys in order: every hash
    the dispatcher records is the hash of its message, and what is held or queued
    has been passed by the read position. *)

From S2P Require Import Prelude Position MessageMap LedgerInfo RocksLedger StickyKey Consumer.
From S2P Require Import MemoryStore StorageService ReadPosition Redelivery Dispatch KeyShared.

(** A message that is queued while its own hash is in flight. *)
Definition stuck (m : MessageId) (rc : RedeliveryController) : Prop :=
  exists h e, in_flight_hashes rc !! m = Some h /\ entries rc !! m = Some e /\
    Redelivery.sticky_key_hash e = Some h.

Lemma stuck_remove m k rc : controller_wf rc -> k <> m -> stuck m rc -> stuck m (remove k rc).2.
Proof.
  intros Hw Hne (h & e & Hf & He & Hh); destruct (remove_spec k rc Hw) as (_ & _ & Hfl & _).
  exists h, e; rewrite Hfl, remove_entries; by rewrite !lookup_delete_ne.
Qed.

Lemma stuck_add m e rc : controller_wf rc -> stuck m rc -> stuck m (add e rc).
Proof.
  intros Hw (h & x & Hf & Hx & Hh); destruct (add_spec e rc Hw) as (_ & _ & Hfl & _).
  exists h, (if decide (re_message_id e = m) then merged (Some x) e else x).
  rewrite Hfl, add_entries, lookup_insert; split; [done |].
  destruct (decide (re_message_id e = m)) as [<-|]; [|done]; rewrite Hx; cbn; by rewrite Hh.
Qed.

Lemma stuck_restore m e rc :
  controller_wf rc -> re_message_id e <> m -> stuck m rc -> stuck m (restore e rc).
Proof.
  intros Hw Hne (h & x & Hf & Hx & Hh); destruct (restore_spec e rc Hw) as (_ & _ & Hfl & _).
  exists h, x; rewrite Hfl, restore_entries; by rewrite lookup_delete_ne, lookup_insert_ne.
Qed.

Lemma stuck_take m k h rc :
  controller_wf rc -> (block_hashes rc = true -> in_flight_hashes rc !! k = None) -> k <> m ->
  stuck m rc -> stuck m (take_for_delivery_with_hash k h rc).2.
Proof.
  intros Hw Hfree Hne (j & x & Hf & Hx & Hh); pose proof (take_for_delivery_spec k h rc Hw Hfree) as Hs.
  destruct (take_for_delivery_with_hash k h rc) as [r rc'] eqn:E; destruct Hs as (_ & _ & _ & _ & Hfl).
  exists j, x; cbn [snd]; rewrite Hfl by done; split; [done |].
  pose proof (take_entries k h rc) as He; rewrite E in He; cbn in He; rewrite He; by rewrite lookup_delete_ne.
Qed.

(** What sending, and delivery, leave a consumer with. *)
Lemma send_message_pending m meta data count h c b c' k a :
  send_message_with_sticky_hash m meta data count h c = (b, c') -> inner (pending_acks c') !! k = Some a ->
  (k = m /\ a = mkPendingAck count h) \/ inner (pending_acks c) !! k = Some a.
Proof.
  unfold send_message_with_sticky_hash, add_pending_ack.
  destruct (default NoSlot (head (link c))); cbn; [intros [= <- <-]; by right | |].
  - destruct (closed (pending_acks c)); intros [= <- <-]; cbn; [by right |].
    intros [? Hk]%lookup_delete_Some; rewrite lookup_insert_ne in Hk by done; by right.
  - destruct (closed (pending_acks c)); intros [= <- <-]; cbn; [by right |].
    intros [[<- <-]|[_ ?]]%lookup_insert_Some; [by left | by right].
Qed.

Lemma deliver_pending x count h batch c b c' k a :
  deliver x count h batch c = Some (b, c') -> inner (pending_acks c') !! k = Some a ->
  (k = message_id x /\ a = mkPendingAck count h) \/ inner (pending_acks c) !! k = Some a.
Proof.
  unfold deliver; destruct (try_use_permits batch c) as [[] c1] eqn:E1; [|done].
  apply try_use_permits_fields in E1 as (_ & _ & Hp & _); rewrite <- Hp.
  destruct (send_message_with_sticky_hash _ _ _ _ _ c1) as [b2 c2] eqn:E2.
  intros Hr Hk; eapply send_message_pending; [exact E2 |]; destruct b2; by injection Hr as _ <-.
Qed.

Section delivery.
Context {S E : Type} `{SubscriptionStore S E} `{MetadataDecoder}.
Context (s : S) (ms : list StoredMessage) (acked : StoredMessage -> bool)
  (readable : ManagedLedgerPosition -> Prop) (Hs : presents s ms acked readable).
Local Abbreviation wf := (delivery_wf ms acked readable).
Local Abbreviation wf_hand := (delivery_wf_hand ms acked readable).
Implicit Types (d : DispatchState) (kd : KeySharedDispatcher) (rc : RedeliveryController).

Definition key_hash (x : StoredMessage) : Z := sticky_key_hash_from_metadata (metadata x).

Record hashes_ok rc : Prop := {
  ho_entries : forall x e, x ∈ ms -> entries rc !! message_id x = Some e ->
    Redelivery.sticky_key_hash e = Some (key_hash x);
  ho_flight : forall x h, x ∈ ms -> in_flight_hashes rc !! message_id x = Some h -> h = key_hash x;
  ho_stored : forall m h, in_flight_hashes rc !! m = Some h -> stored_id ms m;
}.

Definition held_hashes d : Prop :=
  forall id c x a, consumers d !! id = Some c -> x ∈ ms ->
    inner (pending_acks c) !! message_id x = Some a -> pa_sticky_key_hash a = Some (key_hash x).

Definition passed (hand : option MessageId) d : Prop :=
  forall x, x ∈ ms -> held d (message_id x) \/ in_queue d (message_id x) \/ hand = Some (message_id x) ->
    acked x = true \/ behind (read_position d) x.

Record key_inv (hand : option MessageId) d : Prop := {
  ki_wf : wf_hand hand d;
  ki_hashes : hashes_ok (redelivery_controller d);
  ki_held : held_hashes d;
  ki_passed : passed hand d;
}.

Lemma key_inv_new block : key_inv None (dispatch_new block).
Proof.
  split; [apply dispatch_new_wf | split; cbn; intros; by rewrite lookup_empty in * | |].
  - intros id c x a Hc; cbn in Hc; by rewrite lookup_empty in Hc.
  - intros x Hx [(id & c & Hc & _)|[[e He]|?]]; [..|done]; [cbn in Hc | cbn in He]; by rewrite lookup_empty in *.
Qed.

Lemma hashes_ok_remove m rc : controller_wf rc -> hashes_ok rc -> hashes_ok (remove m rc).2.
Proof.
  intros Hw [He Hf Hst]; destruct (remove_spec m rc Hw) as (_ & _ & Hfl & _).
  split; rewrite ?remove_entries, ?Hfl; [intros x ? Hx [_ ?]%lookup_delete_Some; eauto.. |].
  intros k h [_ ?]%lookup_delete_Some; eauto.
Qed.

Lemma hashes_ok_merged rc e x y r :
  hashes_ok rc -> x ∈ ms -> y ∈ ms -> re_message_id e = message_id x ->
  Redelivery.sticky_key_hash e = Some (key_hash x) ->
  <[re_message_id e := merged (entries rc !! re_message_id e) e]> (entries rc) !! message_id y = Some r ->
  Redelivery.sticky_key_hash r = Some (key_hash y).
Proof.
  intros [He _ _] Hx Hy Hid Hh [[Heq <-]|[_ ?]]%lookup_insert_Some; [|by eapply He].
  rewrite Hid in Heq; pose proof (stored_id_inj s ms acked readable Hs x y Hx Hy Heq) as <-.
  unfold merged; destruct (entries rc !! re_message_id e) as [z|] eqn:Ez; [|done]; cbn.
  rewrite Hid in Ez; by rewrite (He x z Hx Ez).
Qed.

Lemma hashes_ok_add rc e x :
  controller_wf rc -> hashes_ok rc -> x ∈ ms -> re_message_id e = message_id x ->
  Redelivery.sticky_key_hash e = Some (key_hash x) -> hashes_ok (add e rc).
Proof.
  intros Hw Ho Hx Hid Hh; destruct (add_spec e rc Hw) as (_ & _ & Hfl & _); split.
  - intros y r Hy; rewrite add_entries; by apply (hashes_ok_merged rc e x).
  - rewrite Hfl; apply Ho.
  - rewrite Hfl; apply Ho.
Qed.

Lemma hashes_ok_restore rc e x :
  controller_wf rc -> hashes_ok rc -> x ∈ ms -> re_message_id e = message_id x ->
  Redelivery.sticky_key_hash e = Some (key_hash x) -> hashes_ok (restore e rc).
Proof.
  intros Hw Ho Hx Hid Hh; destruct (restore_spec e rc Hw) as (_ & _ & Hfl & _); split.
  - intros y r Hy; rewrite restore_entries; by apply (hashes_ok_merged rc e x).
  - intros y h Hy; rewrite Hfl; intros [_ ?]%lookup_delete_Some; by eapply (ho_flight _ Ho).
  - intros m h; rewrite Hfl; intros [_ ?]%lookup_delete_Some; by eapply (ho_stored _ Ho).
Qed.

Lemma hashes_ok_take rc x :
  controller_wf rc -> hashes_ok rc -> x ∈ ms ->
  hashes_ok (take_for_delivery_with_hash (message_id x) (Some (key_hash x)) rc).2.
Proof.
  intros Hw Ho Hx; split.
  - intros y e Hy; rewrite take_entries; intros [_ ?]%lookup_delete_Some; by eapply (ho_entries _ Ho).
  - intros y h Hy [?|(e & He & Heq & Hh)]%take_in_flight; [by eapply (ho_flight _ Ho) |].
    rewrite (cw_ids _ Hw _ _ He) in Heq; rewrite <- (stored_id_inj s ms acked readable Hs x y Hx Hy ltac:(done)).
    unfold taken in Hh; cbn in Hh; rewrite (ho_entries _ Ho x e Hx He) in Hh; congruence.
  - intros m h [?|(e & He & Heq & Hh)]%take_in_flight; [by eapply (ho_stored _ Ho) |].
    rewrite (cw_ids _ Hw _ _ He) in Heq; by exists x.
Qed.

(** The message is not acknowledged. *)
Definition unacked_id (m : MessageId) : Prop := forall x, x ∈ ms -> message_id x = m -> acked x = false.

(** ** Taking a message off the queue *)

(** Dropping an acknowledged message. *)
Lemma key_inv_drop x d :
  key_inv None d -> x ∈ ms -> acked x = true ->
  key_inv None (set_redelivery (remove (message_id x) (redelivery_controller d)).2 d).
Proof.
  intros [Hw Hh Hc Hp] Hx Ha; pose proof (dw_queue _ _ _ _ _ Hw) as Hrc; split.
  - apply (on_message_acknowledged_wf ms acked readable (message_id x) d Hw).
    intros y Hy Heq; by rewrite (stored_id_inj s ms acked readable Hs y x Hy Hx Heq).
  - by apply hashes_ok_remove.
  - done.
  - intros y Hy [?|[Hq|?]]; [by apply Hp; [|left] | apply Hp; [done |] | done].
    right; left; destruct (remove_spec (message_id x) _ Hrc) as (_ & Hr & _); apply Hr in Hq as [_ ?]; done.
Qed.

(** Taking a message whose hash is not in flight. *)
Lemma key_inv_take x e rc d :
  key_inv None d -> x ∈ ms -> has_in_flight_hash (key_hash x) (redelivery_controller d) = false ->
  take_for_delivery_with_hash (message_id x) (Some (key_hash x)) (redelivery_controller d) = (Some e, rc) ->
  key_inv (Some (message_id x)) (set_redelivery rc d) /\ ~ held d (message_id x) /\ ~ queued rc (message_id x) /\
  re_message_id e = message_id x /\ Redelivery.sticky_key_hash e = Some (key_hash x) /\
  (forall m, m <> message_id x -> stuck m (redelivery_controller d) -> stuck m rc).
Proof.
  intros [Hw Hh Hc Hp] Hx Hno Ht; pose proof (dw_queue _ _ _ _ _ Hw) as Hrc.
  assert (block_hashes (redelivery_controller d) = true ->
    in_flight_hashes (redelivery_controller d) !! message_id x = None) as Hfree.
  { intros _; destruct (in_flight_hashes (redelivery_controller d) !! message_id x) as [h|] eqn:Ef; [|done].
    rewrite (ho_flight _ Hh x h Hx Ef) in Ef; rewrite (proj2 (has_in_flight_hash_spec _ _)) in Hno by eauto; done. }
  pose proof (take_for_delivery_spec (message_id x) (Some (key_hash x)) _ Hrc Hfree) as Hs'; rewrite Ht in Hs'.
  destruct Hs' as (Hr & Hrc' & Hq & _ & _).
  destruct (entries (redelivery_controller d) !! message_id x) as [e0|] eqn:Ee; [|done]; injection Hr as ->.
  assert (in_queue d (message_id x)) as Hin by by exists e0.
  assert (~ held d (message_id x)) as Hnh by (intros ?; by eapply (dw_apart _ _ _ _ _ Hw)).
  split_and!; [|done | rewrite Hq; tauto | cbn; by apply (cw_ids _ Hrc) | cbn; by rewrite (ho_entries _ Hh x e0 Hx Ee) |].
  - split.
    + eapply delivery_wf_queue; [exact Hw | done | |].
      * intros m Hm; apply Hq in Hm as [_ ?]; by left.
      * intros m [Hm|?]; [|done]; destruct (decide (m = message_id x)) as [->|]; [by right; left | left; by apply Hq].
    + pose proof (hashes_ok_take _ x Hrc Hh Hx) as Ho; by rewrite Ht in Ho.
    + done.
    + intros y Hy [?|[Hqy|[= Heq]]]; apply Hp; [done | by left | done | | done |].
      * right; left; apply Hq in Hqy as [_ ?]; done.
      * right; left; by rewrite <- Heq.
  - intros m Hne Hst; pose proof (stuck_take m (message_id x) (Some (key_hash x)) _ Hrc Hfree (not_eq_sym Hne) Hst) as Ho.
    by rewrite Ht in Ho.
Qed.

(** What the search of the queue finds. *)
Definition pop_spec kd (r : result E (option (RedeliveryEntry * StoredMessage * Consumer)) * KeySharedDispatcher) : Prop :=
  exists rc, r.2 = set_key_core (set_redelivery rc (key_core kd)) kd /\
  (forall m, unacked_id m -> stuck m (redelivery_controller (key_core kd)) -> stuck m rc) /\
  match r.1 with
  | Ok (Some (e, x, c)) =>
      x ∈ ms /\ acked x = false /\ re_message_id e = message_id x /\
      Redelivery.sticky_key_hash e = Some (key_hash x) /\
      key_inv (Some (message_id x)) (set_redelivery rc (key_core kd)) /\
      ~ held (key_core kd) (message_id x) /\ ~ queued rc (message_id x) /\
      consumers (key_core kd) !! consumer_id c = Some c /\ 0 < available_permits c
  | Ok None => key_inv None (set_redelivery rc (key_core kd))
  | Err _ => False
  end.

Lemma select_consumer_spec h kd c :
  wf_hand None (key_core kd) -> select_consumer_for_hash h kd = Some c ->
  consumers (key_core kd) !! consumer_id c = Some c /\ 0 < available_permits c.
Proof.
  intros Hw (r & id & _ & Hc & Hp & _)%select_from_spec; split; [|done].
  by rewrite (dw_ids _ _ _ _ _ Hw id c Hc).
Qed.

Lemma pop_dispatchable_loop_spec queue kd :
  key_inv None (key_core kd) -> NoDup (re_message_id <$> queue) ->
  (forall e, e ∈ queue -> entries (redelivery_controller (key_core kd)) !! re_message_id e = Some e) ->
  pop_spec kd (pop_dispatchable_loop s queue kd).
Proof.
  revert kd; induction queue as [|e queue IH]; intros kd Hi Hnd Hq; cbn [pop_dispatchable_loop].
  { exists (redelivery_controller (key_core kd)); split_and!; [by destruct kd as [[]] | done |].
    by destruct kd as [[]]. }
  apply NoDup_cons in Hnd as [Hnew Hnd]; fold (re_message_id <$> queue) in Hnew.
  assert (entries (redelivery_controller (key_core kd)) !! re_message_id e = Some e) as He by (apply Hq; by left).
  destruct (dw_known _ _ _ _ _ (ki_wf _ _ Hi) (re_message_id e)) as (x & Hx & Hid); [right; by exists e |].
  rewrite <- Hid in *; rewrite (pr_acked _ _ _ _ Hs x Hx).
  assert (pop_spec kd (pop_dispatchable_loop s queue kd)) as Hskip
    by (apply IH; [done | done |]; intros e' He'; apply Hq; by right).
  destruct (acked x) eqn:Ea.
  { destruct (IH (set_key_core (set_redelivery (remove (message_id x) (redelivery_controller (key_core kd))).2
      (key_core kd)) kd)) as (rc & E1 & Hst & Hr).
    - by apply key_inv_drop.
    - done.
    - intros e' He'; cbn; rewrite remove_entries, lookup_delete_ne; [apply Hq; by right |].
      intros Heq; apply Hnew; rewrite Heq; by apply list_elem_of_fmap_2.
    - exists rc; split; [done |]; split; [|done]; intros m Hm Hsm; apply Hst; [done |]; cbn.
      apply stuck_remove; [apply (ki_wf _ _ Hi) | | done]; intros <-; specialize (Hm x Hx eq_refl); congruence. }
  rewrite (pr_get _ _ _ _ Hs x Hx).
  assert (entry_hash e x = key_hash x) as ->
    by (unfold entry_hash; by rewrite (ho_entries _ (ki_hashes _ _ Hi) x e Hx He)).
  destruct (has_in_flight_hash (key_hash x) (redelivery_controller (key_core kd))) eqn:Ef; [done |].
  destruct (select_consumer_for_hash (key_hash x) kd) as [c|] eqn:Ec; [|done].
  apply select_consumer_spec in Ec as [Hc Hp]; [|apply Hi].
  destruct (take_for_delivery_with_hash _ _ _) as [[e'|] rc] eqn:Et.
  2:{ unfold take_for_delivery_with_hash in Et; by rewrite He in Et. }
  destruct (key_inv_take x e' rc _ Hi Hx Ef Et) as (Hi' & Hnh & Hnq & Hid' & Hh & Hst).
  exists rc; split; [done |]; split; [|by split_and!].
  intros m Hm Hsm; apply Hst; [|done]; intros ->.
  destruct Hsm as (h & z & Hfl & Hz & Hzh); rewrite (ho_flight _ (ki_hashes _ _ Hi) x h Hx Hfl) in Hfl.
  by rewrite (proj2 (has_in_flight_hash_spec _ _)) in Ef by eauto.
Qed.

(** ** The phases of a turn *)

(** What bounds the turns: messages to deliver and messages to read. *)
Definition work d : nat :=
  (length (outstanding ms acked d) + length (ahead ms (read_position d)))%nat.

Local Abbreviation core_of b := (key_core (dispatcher b)).

Record phase_result (b : BatchState) (r : flow E * BatchState) : Prop := {
  ph_inv : key_inv None (core_of r.2);
  ph_held : forall id m, held_by (core_of b) id m -> held_by (core_of r.2) id m;
  ph_stuck : forall m, unacked_id m -> stuck m (redelivery_controller (core_of b)) ->
    stuck m (redelivery_controller (core_of r.2));
  ph_progress : (progress b <= progress r.2)%nat;
  ph_work : (work (core_of r.2) + progress r.2 <= work (core_of b) + progress b)%nat;
  ph_ok : match r.1 with Fail _ => False | _ => True end;
}.

(** The state after a message was sent, before [sent] is applied. *)
Record just_sent (x : StoredMessage) d d' : Prop := {
  js_wf : wf d';
  js_held : forall m, held d' m <-> m = message_id x \/ held d m;
  js_hashes : held_hashes d';
  js_queue : redelivery_controller d' = redelivery_controller d;
  js_position : read_position d' = read_position d;
}.

Lemma deliver_just_sent hand d x count batch c c' :
  key_inv hand d -> consumers d !! consumer_id c = Some c -> x ∈ ms -> acked x = false ->
  ~ held d (message_id x) -> ~ in_queue d (message_id x) -> hand = None \/ hand = Some (message_id x) ->
  deliver x count (Some (key_hash x)) batch c = Some (true, c') ->
  just_sent x d (subtract_total_permits batch (set_consumer c' d)) /\
  (forall id m, held_by d id m -> held_by (set_consumer c' d) id m) /\
  (length (outstanding ms acked (set_consumer c' d)) < length (outstanding ms acked d))%nat.
Proof.
  intros [Hw Hh Hc Hp] Hin Hx Ha Hn Hq Hhand Hdel.
  destruct (deliver_sent_wf ms acked readable hand d x _ _ _ c c' Hw Hin Hx Ha Hn Hq Hhand Hdel) as (Hw' & Hst & Hk).
  split_and!; [|apply Hk | by eapply sent_to_outstanding].
  split; [by apply delivery_wf_total | apply Hst | | done | done].
  intros id z y a; cbn; intros [[_ <-]|[_ Hz]]%lookup_insert_Some Hy Hl; [|by eapply Hc].
  eapply deliver_pending in Hl as [[Heq ->]|Hl]; [|by eapply Hc | exact Hdel].
  by rewrite (stored_id_inj s ms acked readable Hs y x Hy Hx Heq).
Qed.

Lemma deliver_key_failed hand d x count batch c c' :
  key_inv hand d -> consumers d !! consumer_id c = Some c -> x ∈ ms -> ~ held d (message_id x) ->
  deliver x count (Some (key_hash x)) batch c = Some (false, c') ->
  key_inv hand (subtract_total_permits batch (set_consumer c' d)) /\
  (forall m, held (set_consumer c' d) m <-> held d m) /\
  (forall id m, held_by d id m -> held_by (set_consumer c' d) id m).
Proof.
  intros [Hw Hh Hc Hp] Hin Hx Hn Hdel.
  destruct (deliver_failed_wf ms acked readable hand d x _ _ _ c c' Hw Hin Hn Hdel) as (Hw' & Hsame & Hk).
  split_and!; [|done | apply Hk]; split; [by apply delivery_wf_total | done | |].
  - intros id z y a; cbn; intros [[_ <-]|[_ Hz]]%lookup_insert_Some Hy Hl; [|by eapply Hc].
    eapply deliver_pending in Hl as [[Heq ->]|Hl]; [|by eapply Hc | exact Hdel].
    by rewrite (stored_id_inj s ms acked readable Hs y x Hy Hx Heq).
  - intros y Hy Hd; apply Hp; [done |]; destruct Hd as [Hd|[?|?]]; auto; left; by apply Hsame in Hd.
Qed.

Lemma key_hand_over_spec hand b x count c sent no_permits failed :
  key_inv hand (core_of b) -> consumers (core_of b) !! consumer_id c = Some c -> 0 < available_permits c ->
  x ∈ ms -> acked x = false -> ~ held (core_of b) (message_id x) -> ~ in_queue (core_of b) (message_id x) ->
  hand = None \/ hand = Some (message_id x) ->
  (forall d', just_sent x (core_of b) d' -> key_inv None (sent d') /\ consumers (sent d') = consumers d' /\
     redelivery_controller (sent d') = redelivery_controller d' /\
     (length (ahead ms (read_position (sent d'))) <= length (ahead ms (read_position (core_of b))))%nat) ->
  (forall d', key_inv hand d' -> read_position d' = read_position (core_of b) ->
     redelivery_controller d' = redelivery_controller (core_of b) -> ~ held d' (message_id x) ->
     key_inv None (failed d') /\ consumers (failed d') = consumers d' /\
     (forall m, m <> message_id x -> stuck m (redelivery_controller d') -> stuck m (redelivery_controller (failed d'))) /\
     (length (ahead ms (read_position (failed d'))) <= length (ahead ms (read_position (core_of b))))%nat) ->
  ~ stuck (message_id x) (redelivery_controller (core_of b)) ->
  let r := hand_over (E := E) x count (key_hash x) c sent no_permits failed b in
  phase_result b r /\ (forall m, held (core_of r.2) m -> m = message_id x \/ held (core_of b) m) /\
  (r.1 = Proceed -> progress r.2 = Datatypes.S (progress b)).
Proof.
  intros Hi Hc Hp Hx Ha Hn Hq Hhand Hsent Hfail Hns; unfold hand_over.
  assert (~ holds c (message_id x)) as Hfree by (intros ?; apply Hn; by exists (consumer_id c), c).
  destruct (deliver x count (Some (key_hash x)) (messages_in_batch (metadata x)) c) as [[[] c']|] eqn:Hdel.
  - destruct (deliver_just_sent hand _ x _ _ c c' Hi Hc Hx Ha Hn Hq Hhand Hdel) as (Hjs & Hby & Hless).
    destruct (Hsent _ Hjs) as (Hi' & Ecs & Erc & Hah).
    assert (forall id m, held_by (sent (subtract_total_permits (messages_in_batch (metadata x)) (set_consumer c' (core_of b)))) id m
      <-> held_by (set_consumer c' (core_of b)) id m) as Hsame by (intros; unfold held_by; by rewrite Ecs).
    cbn [fst snd]; split_and!; [|intros m [id Hm]; apply Hsame in Hm; apply (js_held _ _ _ Hjs); by exists id | done].
    split; [done | intros id m ?; by apply Hsame, Hby | | cbn; lia | | done].
    + intros m _ Hm; cbn; rewrite Erc; by rewrite (js_queue _ _ _ Hjs).
    + unfold work; cbn; rewrite (outstanding_ext ms acked (set_consumer c' (core_of b))); [lia |].
      intros m; unfold held; by setoid_rewrite Hsame.
  - destruct (deliver_key_failed hand _ x _ _ c c' Hi Hc Hx Hn Hdel) as (Hi' & Hsame & Hby).
    destruct (Hfail _ Hi' eq_refl eq_refl) as (Hi2 & Ecs & Hst & Hah); [by intros ?%Hsame |].
    set (d' := failed _) in *.
    assert (forall id m, held_by d' id m <-> held_by (set_consumer c' (core_of b)) id m) as Hsame'
      by (intros; unfold held_by; by rewrite Ecs).
    assert (forall m, held d' m <-> held (core_of b) m) as Hheld
      by (intros m; rewrite <- Hsame; unfold held; by setoid_rewrite Hsame').
    cbn [fst snd]; split_and!; [|intros m Hm; right; by apply Hheld | done].
    split; [ | intros id m ?; by apply Hsame', Hby | | done | | done].
    + destruct Hi2 as [Hw2 ? ? ?]; split; [by apply delivery_wf_total | done | done | done].
    + intros m _ Hm; apply Hst; [|done]; intros ->; by apply Hns.
    + unfold work; rewrite (outstanding_ext ms acked (core_of b)) by exact Hheld.
      change (length (outstanding ms acked (core_of b)) + length (ahead ms (read_position d')) + progress b <=
        length (outstanding ms acked (core_of b)) + length (ahead ms (read_position (core_of b))) + progress b)%nat; lia.
  - exfalso; apply deliver_spec in Hdel; [lia | done].
Qed.

(** A phase that starts from a state with the same consumers, as much work at
    most, and the same stuck messages. *)
Lemma phase_result_from b0 b r :
  phase_result b r -> consumers (core_of b) = consumers (core_of b0) -> progress b = progress b0 ->
  (forall m, unacked_id m -> stuck m (redelivery_controller (core_of b0)) -> stuck m (redelivery_controller (core_of b))) ->
  (work (core_of b) <= work (core_of b0))%nat ->
  phase_result b0 r.
Proof.
  intros [] Ecs Ep Hst Hw; split; [done | | auto | lia | lia | done].
  intros id m Hm; apply ph_held0; unfold held_by; by rewrite Ecs.
Qed.

Lemma work_same d d' :
  consumers d' = consumers d -> (length (ahead ms (read_position d')) <= length (ahead ms (read_position d)))%nat ->
  (work d' <= work d)%nat.
Proof.
  intros Ecs Hah; unfold work; rewrite (outstanding_ext ms acked d); [lia |].
  intros m; unfold held, held_by; by rewrite Ecs.
Qed.

Lemma ahead_le rp rp' :
  (forall x, x ∈ ms -> behind rp x -> behind rp' x) -> (length (ahead ms rp') <= length (ahead ms rp))%nat.
Proof. intros Hb; apply filter_no_longer; auto. Qed.

Lemma redelivery_phase_spec b :
  key_inv None (core_of b) -> phase_result b (redelivery_phase s b).
Proof.
  intros Hi; unfold redelivery_phase, pop_dispatchable_redelivery_message.
  pose proof (dw_queue _ _ _ _ _ (ki_wf _ _ Hi)) as Hrc.
  destruct (queued_entries_spec _ Hrc) as [Hnd Hq].
  destruct (pop_dispatchable_loop_spec (queued_entries (redelivery_controller (core_of b))) (dispatcher b) Hi Hnd
    (fun e He => proj1 (Hq e) He)) as (rc & E1 & Hst & Hr).
  destruct (pop_dispatchable_loop _ _ _) as [[[[[e x] c]|]|err] kd']; cbn [fst snd] in *; subst kd'; [| |done].
  - destruct Hr as (Hx & Ha & Hid & Hh & Hi' & Hn & Hnq & Hc & Hp).
    set (b1 := set_dispatcher (set_key_core (set_redelivery rc (core_of b)) (dispatcher b)) b).
    assert (entry_hash e x = key_hash x) as -> by (unfold entry_hash; by rewrite Hh).
    apply (phase_result_from b b1); [|done | done | done | by apply work_same].
    eapply (key_hand_over_spec (Some (message_id x)) b1); try done; [by right | | |].
    + intros d' Hjs; split_and!; [|done | done | by rewrite (js_position _ _ _ Hjs)].
      split; [apply Hjs | rewrite (js_queue _ _ _ Hjs); apply Hi' | apply Hjs |].
      intros y Hy Hd; rewrite (js_position _ _ _ Hjs); apply (ki_passed _ _ Hi' y Hy).
      destruct Hd as [Hd|[Hd|?]]; [|right; left; unfold in_queue in *; by rewrite (js_queue _ _ _ Hjs) in Hd | done].
      apply (js_held _ _ _ Hjs) in Hd as [Heq|?]; [right; right; by rewrite Heq | by left].
    + intros d' Hd' Erp Erc Hnh; pose proof (dw_queue _ _ _ _ _ (ki_wf _ _ Hd')) as Hrc'.
      set (e' := mkRedelivery (message_id x) (wrap_u32 (redelivery_count e + 1)) (Some (key_hash x))).
      split_and!; [|done | intros m Hm; by apply stuck_restore | by cbn; rewrite Erp].
      destruct (restore_spec e' _ Hrc') as (_ & Hqr & _); split.
      * eapply restore_wf; [apply Hd' | by right | by exists x | done].
      * by apply (hashes_ok_restore _ _ x Hrc' (ki_hashes _ _ Hd') Hx).
      * apply Hd'.
      * intros y Hy Hd; apply (ki_passed _ _ Hd' y Hy); destruct Hd as [?|[Hd|?]]; [by left | | done].
        apply Hqr in Hd as [Heq|?]; [right; right; by rewrite Heq | by right; left].
    + intros (h & z & _ & Hz & _); apply Hnq; by exists z.
  - apply (phase_result_from b (set_dispatcher (set_key_core (set_redelivery rc (core_of b)) (dispatcher b)) b));
      [|done | done | done | by apply work_same].
    by split; cbn.
Qed.

Lemma all_consumers_pending d m :
  is_message_pending (all_consumers d) m = true <-> held d m.
Proof.
  unfold is_message_pending, all_consumers; rewrite existsb_exists; split.
  - intros (c & Hc & Hm%has_pending_ack_spec).
    apply list_elem_of_In, list_elem_of_fmap in Hc as ([id c'] & -> & Hid%elem_of_map_to_list); by exists id, c'.
  - intros (id & c & Hc & Hm); exists c; split; [|by apply has_pending_ack_spec].
    apply list_elem_of_In, list_elem_of_fmap; exists (id, c); split; [done |]; by apply elem_of_map_to_list.
Qed.

(** The read position moves over a message that is held or queued. *)
Lemma key_inv_commit x next d :
  wf d -> hashes_ok (redelivery_controller d) -> held_hashes d -> readable next -> x ∈ ms ->
  held d (message_id x) \/ in_queue d (message_id x) ->
  (forall y, y ∈ ms -> behind (commit_read_position next) y -> y = x \/ behind (read_position d) y) ->
  (forall y, y ∈ ms -> held d (message_id y) \/ in_queue d (message_id y) -> message_id y <> message_id x ->
     acked y = true \/ behind (commit_read_position next) y) ->
  behind (commit_read_position next) x ->
  key_inv None (set_read_position (commit_read_position next) d).
Proof.
  intros Hw Hh Hc Hr Hx Hk Hback Hfwd Hb; split; [|done | done |].
  - apply delivery_wf_position; [done | by intros ? [= <-] |].
    intros y Hy Hby; destruct (Hback y Hy Hby) as [->|?]; [by right; right | by left].
  - intros y Hy Hd; destruct (decide (message_id y = message_id x)) as [Heq|Hne].
    + right; by rewrite (stored_id_inj s ms acked readable Hs y x Hy Hx Heq).
    + apply Hfwd; [done | | done]; destruct Hd as [?|[?|?]]; auto; done.
Qed.

(** Earlier messages with the same key. *)
Definition key_settled d (x : StoredMessage) : Prop :=
  forall y, y ∈ ms -> msg_rank y < msg_rank x -> key_hash y = key_hash x ->
    acked y = true \/ held d (message_id y).

(** The new message a turn finds. *)
Record next_candidate d (r : ReadCandidate) (rp : option ManagedLedgerPosition) : Prop := {
  nc_inv : key_inv None (set_read_position rp d);
  nc_work : (work (set_read_position rp d) <= work d)%nat;
  nc_in : rd_message r ∈ ms;
  nc_unacked : acked (rd_message r) = false;
  nc_free : ~ held d (message_id (rd_message r));
  nc_unqueued : ~ in_queue d (message_id (rd_message r));
  nc_before : forall y, y ∈ ms -> msg_rank y < msg_rank (rd_message r) -> settled acked d y;
  nc_readable : readable (rd_next_position r);
  nc_back : forall y, y ∈ ms -> behind (commit_read_position (rd_next_position r)) y ->
    y = rd_message r \/ behind rp y;
  nc_forward : forall y, y ∈ ms -> behind rp y -> behind (commit_read_position (rd_next_position r)) y;
  nc_passed : behind (commit_read_position (rd_next_position r)) (rd_message r);
  nc_less : (length (ahead ms (commit_read_position (rd_next_position r))) < length (ahead ms (read_position d)))%nat;
}.

Lemma next_candidate_spec d :
  key_inv None d ->
  match next_dispatchable_message s (all_consumers d) d with
  | (Ok (Some r), d1) => exists rp, d1 = set_read_position rp d /\ next_candidate d r rp
  | (Ok None, d1) => exists rp, d1 = set_read_position rp d /\ key_inv None d1 /\ (work d1 <= work d)%nat
  | (Err _, _) => False
  end.
Proof.
  intros Hi.
  destruct (next_dispatchable_message_spec s ms acked readable Hs (all_consumers d) None d (ki_wf _ _ Hi)
    (all_consumers_pending d)) as (rp & E1 & Hw1 & Hmono & Hr).
  assert (key_inv None (set_read_position rp d)) as Hi1.
  { split; [done | apply Hi | apply Hi |]; intros y Hy Hd; destruct (ki_passed _ _ Hi y Hy Hd); auto. }
  assert (work (set_read_position rp d) <= work d)%nat as Hwork by (apply work_same; [done | by apply ahead_le]).
  destruct (next_dispatchable_message s (all_consumers d) d) as [[[r|]|] d1]; cbn [fst snd] in E1, Hr; subst d1;
    [exists rp; split; [done |] | by exists rp | done].
  destruct Hr as (Hx & Hns & Hbefore & Hnr & Hpass & Hrank & Hrp).
  assert (acked (rd_message r) = false /\ ~ held d (message_id (rd_message r)) /\ ~ behind (read_position d) (rd_message r))
    as (Ha & Hn & Hnb) by (unfold settled in Hns; destruct (acked (rd_message r)); split_and!; tauto).
  split; try done.
  - intros Hin; destruct (ki_passed _ _ Hi _ Hx (or_intror (or_introl Hin))); [congruence | done].
  - apply Hrank; [done | lia].
  - apply filter_shorter with (y := rd_message r); [|done | done |].
    + intros y Hy Hny Hby; apply Hny; auto.
    + intros Hny; apply Hny, Hrank; [done | lia].
Qed.

(** The candidate's hash is blocked: it is queued behind the others. *)
Lemma blocked_candidate b r rp :
  next_candidate (core_of b) r rp ->
  let d := add_redelivery_entries [mkRedelivery (message_id (rd_message r)) 0 (Some (key_hash (rd_message r)))]
             (set_read_position rp (core_of b)) in
  phase_result b (Proceed, advance (on_core (fun _ =>
    set_read_position (commit_read_position (rd_next_position r)) d) b)).
Proof.
  intros [Hi Hw Hx Ha Hn Hnq Hbef Hnr Hback Hfwd Hbx Hless]; cbn zeta; set (x := rd_message r) in *.
  pose proof (dw_queue _ _ _ _ _ (ki_wf _ _ Hi)) as Hrc.
  destruct (add_spec (mkRedelivery (message_id x) 0 (Some (key_hash x))) _ Hrc) as (_ & Hq & _).
  split; try done.
  - apply (key_inv_commit x); try done.
    + apply add_redelivery_entries_wf; [apply Hi |]; intros e' [->|?%elem_of_nil]%elem_of_cons; [|done].
      split; [by exists x | done].
    + by apply (hashes_ok_add _ _ x Hrc (ki_hashes _ _ Hi) Hx).
    + apply Hi.
    + right; apply Hq; by left.
    + intros y Hy Hd Hne; destruct (ki_passed _ _ Hi y Hy) as [?|?]; [|by left | right; auto].
      destruct Hd as [?|Hd]; [by left | right; left]; by apply Hq in Hd as [?|?].
  - intros m _ Hm; by apply stuck_add.
  - cbn; lia.
  - unfold work; rewrite (outstanding_ext ms acked (core_of b)) by done.
    change (length (outstanding ms acked (core_of b)) + length (ahead ms (commit_read_position (rd_next_position r))) +
      Datatypes.S (progress b) <= length (outstanding ms acked (core_of b)) +
      length (ahead ms (read_position (core_of b))) + progress b)%nat; lia.
Qed.

(** It is handed to a consumer. *)
Lemma send_candidate b r rp c :
  next_candidate (core_of b) r rp ->
  consumers (core_of b) !! consumer_id c = Some c -> 0 < available_permits c ->
  let x := rd_message r in
  let commit := set_read_position (commit_read_position (rd_next_position r)) in
  let b1 := on_core (fun _ => set_read_position rp (core_of b)) b in
  let res := hand_over (E := E) x 0 (key_hash x) c commit (fun d => d)
    (fun d => commit (restore_redelivery_message (mkRedelivery (message_id x) 1 (Some (key_hash x))) d)) b1 in
  phase_result b res /\ (forall m, held (core_of res.2) m -> m = message_id x \/ held (core_of b) m) /\
  (res.1 = Proceed -> progress res.2 = Datatypes.S (progress b)).
Proof.
  intros [Hi Hw Hx Ha Hn Hnq Hbef Hnr Hback Hfwd Hbx Hless] Hc Hp; cbn zeta; set (x := rd_message r) in *.
  set (b1 := on_core (fun _ => set_read_position rp (core_of b)) b).
  edestruct (key_hand_over_spec None b1 x 0 c (set_read_position (commit_read_position (rd_next_position r))) (fun d => d)
    (fun d => set_read_position (commit_read_position (rd_next_position r))
       (restore_redelivery_message (mkRedelivery (message_id x) 1 (Some (key_hash x))) d))) as [Hres Hrest];
    try done; [by left | | | | split; [apply (phase_result_from b b1); try done | exact Hrest]].
  - intros d' [Hw' Hh' Hhh Eq Ep]; cbn [core_of b1 on_core] in Eq, Ep; split_and!; [|done | done | by apply ahead_le].
    apply (key_inv_commit x); try done; [rewrite Eq; apply Hi | left; apply Hh'; by left | by rewrite Ep |].
    intros y Hy Hd Hne; destruct (ki_passed _ _ Hi y Hy) as [?|?]; [|by left | right; auto].
    destruct Hd as [Hd|Hd]; [left; by apply Hh' in Hd as [?|?] | right; left; unfold in_queue in *; by rewrite Eq in Hd].
  - intros d' Hd' Ep Eq Hnh; pose proof (dw_queue _ _ _ _ _ (ki_wf _ _ Hd')) as Hrc.
    destruct (restore_spec (mkRedelivery (message_id x) 1 (Some (key_hash x))) _ Hrc) as (_ & Hq & _).
    split_and!; [|done | intros m Hm; by apply stuck_restore | by apply ahead_le].
    apply (key_inv_commit x); try done.
    + eapply restore_wf; [apply Hd' | by left | by exists x | done].
    + by apply (hashes_ok_restore _ _ x Hrc (ki_hashes _ _ Hd') Hx).
    + apply Hd'.
    + right; apply Hq; by left.
    + by cbn; rewrite Ep.
    + intros y Hy Hd Hne; destruct (ki_passed _ _ Hd' y Hy) as [?|Hb]; [|by left | right; apply Hfwd; by rewrite Ep in Hb].
      destruct Hd as [?|Hd]; [by left | right; left]; by apply Hq in Hd as [?|?].
  - intros (h & z & _ & Hz & _); apply Hnq; by exists z.
Qed.

Lemma new_message_phase_spec b :
  key_inv None (core_of b) ->
  let r := new_message_phase s b in
  phase_result b r /\
  (r.1 = Proceed -> progress r.2 = Datatypes.S (progress b)) /\
  (block_hashes (redelivery_controller (core_of b)) = true ->
   forall x, x ∈ ms -> held (core_of r.2) (message_id x) -> ~ held (core_of b) (message_id x) ->
     key_settled (core_of b) x).
Proof.
  intros Hi; unfold new_message_phase; pose proof (next_candidate_spec (core_of b) Hi) as Hnext.
  destruct (next_dispatchable_message _ _ _) as [[[r|]|] d1]; [| |done]; destruct Hnext as (rp & -> & Hnc).
  2:{ destruct Hnc as [Hi1 Hw]; split_and!; [|done | by intros _ x _ ? ?].
      by apply (phase_result_from b (on_core (fun _ => set_read_position rp (core_of b)) b)). }
  fold (key_hash (rd_message r)); set (x := rd_message r) in *.
  destruct (is_hash_blocked _ _) eqn:Eb.
  { split_and!; [exact (blocked_candidate b r rp Hnc) | done | by intros _ y _ ? ?]. }
  pose proof (nc_inv _ _ _ Hnc) as Hi1.
  destruct (select_consumer_for_hash _ _) as [c|] eqn:Ec.
  2:{ split_and!; [|done | by intros _ y _ ? ?].
      apply (phase_result_from b (on_core (fun _ => set_read_position rp (core_of b)) b)); try done; apply Hnc. }
  apply (select_consumer_spec _ (set_key_core (set_read_position rp (core_of b)) (dispatcher b))) in Ec as [Hc Hp];
    [|apply Hi1].
  destruct (send_candidate b r rp c Hnc Hc Hp) as (Hres & Hnew & Hprog).
  split_and!; [exact Hres | exact Hprog |].
  intros Hblock y Hy Hheld Hny z Hz Hrank Hkey.
  apply Hnew in Hheld as [Heq|?]; [|done].
  rewrite (stored_id_inj s ms acked readable Hs y x Hy (nc_in _ _ _ Hnc) Heq) in Hrank, Hkey.
  destruct (nc_before _ _ _ Hnc z Hz Hrank) as [?|[Hb|?]]; [by left | | by right].
  destruct (dw_kept _ _ _ _ _ (ki_wf _ _ Hi) z Hz Hb) as [?|[?|[[e He]|?]]]; [by left | by right | | done].
  exfalso; change (is_hash_blocked (key_hash x) (redelivery_controller (core_of b)) = false) in Eb.
  enough (is_hash_blocked (key_hash x) (redelivery_controller (core_of b)) = true) by congruence.
  apply is_hash_blocked_spec; [apply (ki_wf _ _ Hi) | done |]; left; exists (message_id z), e; split; [done |].
  rewrite <- Hkey; by apply (ho_entries _ (ki_hashes _ _ Hi)).
Qed.

(** ** Batches *)

Lemma phase_result_trans b1 b2 b3 f g :
  phase_result b1 (f, b2) -> phase_result b2 (g, b3) -> phase_result b1 (g, b3).
Proof. intros [] []; cbn [fst snd] in *; split; [done | auto | auto | cbn; lia | cbn; lia | done]. Qed.

Lemma key_batch_loop_spec fuel b :
  key_inv None (core_of b) -> (work (core_of b) < fuel)%nat ->
  exists b', batch_loop fuel s b = Some (Ok (progress b'), dispatcher b') /\ phase_result b (Proceed, b').
Proof.
  revert b; induction fuel as [|fuel IH]; intros b Hi Hf; [lia |]; cbn [batch_loop].
  destruct (remaining_dispatches b <=? 0); [exists b; by split |].
  pose proof (redelivery_phase_spec b Hi) as H1; destruct (redelivery_phase s b) as [[] b1]; cbn [fst snd] in *.
  - destruct (new_message_phase_spec b1 (ph_inv _ _ H1)) as (H2 & Hp & _).
    destruct (new_message_phase s b1) as [[] b2]; cbn [fst snd] in *.
    + specialize (Hp eq_refl); destruct (IH b2) as (b' & -> & H3); [apply H2 | destruct H1, H2; cbn in *; lia |].
      exists b'; split; [done |]; eapply phase_result_trans; [|exact H3]; by eapply phase_result_trans.
    + exists b2; split; [done |]; destruct (phase_result_trans _ _ _ _ _ H1 H2); by split.
    + by destruct (ph_ok _ _ H2).
  - exists b1; split; [done |]; destruct H1; by split.
  - by destruct (ph_ok _ _ H1).
Qed.

Lemma work_bound d : (work d <= 2 * ss_size s)%nat.
Proof.
  pose proof (pr_size _ _ _ _ Hs); unfold work, outstanding, ahead.
  pose proof (length_filter (fun x => acked x = false /\ ~ held d (message_id x)) ms).
  pose proof (length_filter (fun x => ~ behind (read_position d) x) ms); lia.
Qed.

(** What any number of batches does. *)
Record batches_result kd kd' : Prop := {
  bt_inv : key_inv None (key_core kd');
  bt_held : forall id m, held_by (key_core kd) id m -> held_by (key_core kd') id m;
  bt_stuck : forall m, unacked_id m -> stuck m (redelivery_controller (key_core kd)) ->
    stuck m (redelivery_controller (key_core kd'));
}.

Lemma key_dispatch_messages_batch_spec kd :
  key_inv None (key_core kd) ->
  exists n kd', dispatch_messages_batch s kd = Some (Ok n, kd') /\ batches_result kd kd' /\
    (work (key_core kd') + n <= work (key_core kd))%nat.
Proof.
  intros Hi; unfold dispatch_messages_batch; destruct (_ <=? 0); [exists 0%nat, kd; split_and!; [done | by split | lia] |].
  set (b := mkBatch _ 0 kd).
  destruct (key_batch_loop_spec (batch_fuel s) b Hi) as (b' & -> & []); [pose proof (work_bound (key_core kd)); unfold batch_fuel; cbn; lia |].
  exists (progress b'), (dispatcher b'); split_and!; [done | by split | cbn in *; lia].
Qed.

Lemma dispatch_messages_spec fuel kd :
  key_inv None (key_core kd) -> (work (key_core kd) < fuel)%nat ->
  exists kd', dispatch_messages fuel s kd = Some (Ok tt, kd') /\ batches_result kd kd'.
Proof.
  revert kd; induction fuel as [|fuel IH]; intros kd Hi Hf; [lia |]; cbn [dispatch_messages].
  destruct (key_dispatch_messages_batch_spec kd Hi) as (n & kd1 & -> & Hr & Hw); destruct n as [|n]; [by exists kd1 |].
  destruct (_ <=? 0); [by exists kd1 |].
  destruct (IH kd1) as (kd' & -> & Hr'); [apply Hr | lia |].
  exists kd'; split; [done |]; destruct Hr, Hr'; split; auto.
Qed.

(** ** Membership *)

Lemma key_inv_add_consumer c d :
  key_inv None d -> consumers d !! consumer_id c = None -> (forall m, ~ holds c m) ->
  key_inv None (set_consumer c d).
Proof.
  intros [Hw Hh Hc Hp] Hno Hempty; split; [by apply add_consumer_wf | done | |].
  - intros id z y a; cbn; intros [[_ <-]|[_ ?]]%lookup_insert_Some Hy Hl; [|by eapply Hc].
    exfalso; eapply Hempty; by exists a.
  - intros y Hy Hd; apply Hp; [done |]; destruct Hd as [(id & z & Hz & Hm)|?]; [left | by right].
    cbn in Hz; apply lookup_insert_Some in Hz as [[_ <-]|[_ ?]]; [by apply Hempty in Hm | by exists id, z].
Qed.

Lemma foldl_add_hashes es rc :
  controller_wf rc -> hashes_ok rc ->
  (forall e, e ∈ es -> exists x, x ∈ ms /\ re_message_id e = message_id x /\
     Redelivery.sticky_key_hash e = Some (key_hash x)) ->
  hashes_ok (foldl (fun rc e => add e rc) rc es).
Proof.
  revert rc; induction es as [|e es IH]; intros rc Hw Hh Hes; cbn; [done |].
  destruct (Hes e ltac:(by left)) as (x & Hx & Hid & Hk); apply IH.
  - by apply add_spec.
  - by eapply hashes_ok_add.
  - intros e' He'; apply Hes; by right.
Qed.

Lemma key_inv_recovery id kd :
  key_inv None (key_core kd) -> key_inv None (key_core (remove_consumer_with_recovery id kd).2) /\
  (forall m, held_by (key_core kd) id m -> in_queue (key_core (remove_consumer_with_recovery id kd).2) m) /\
  in_flight_hashes (redelivery_controller (key_core (remove_consumer_with_recovery id kd).2)) =
    in_flight_hashes (redelivery_controller (key_core kd)).
Proof.
  intros [Hw Hh Hc Hp]; unfold remove_consumer_with_recovery.
  destruct (remove_consumer_with_recovery_wf ms acked readable pa_sticky_key_hash id _ Hw) as (Hw' & Hq & Ecs).
  revert Hw' Hq Ecs; unfold Dispatch.remove_consumer_with_recovery.
  destruct (consumers (key_core kd) !! id) as [c|] eqn:Ec; cbn [fst snd]; [|by intros; split_and!].
  destruct (drain_pending_acks (close_pending_acks c)) as [pending c'] eqn:Ed.
  apply drain_pending_acks_spec in Ed as (_ & _ & _ & _ & _ & _ & Hpend).
  cbn [fst snd]; intros Hw' Hq Ecs; pose proof (dw_queue _ _ _ _ _ Hw) as Hrc.
  destruct (foldl_add_spec (recovered pa_sticky_key_hash <$> pending) _ Hrc) as (_ & Hqd & Hfl & _).
  assert (forall e, e ∈ recovered pa_sticky_key_hash <$> pending -> exists x, x ∈ ms /\
    re_message_id e = message_id x /\ Redelivery.sticky_key_hash e = Some (key_hash x) /\ holds c (message_id x)) as Hes.
  { intros e ([m a] & -> & Hin%Hpend)%list_elem_of_fmap.
    destruct (dw_known _ _ _ _ _ Hw m) as (x & Hx & <-); [left; exists id, c; split; [done | by exists a] |].
    exists x; split_and!; [done | done | by eapply Hc | by exists a]. }
  split_and!; [|done | done]; split; [done | | |].
  - apply foldl_add_hashes; [done | done |]; intros e He; destruct (Hes e He) as (x & ? & ? & ? & _); eauto.
  - intros j z y a; cbn; intros [_ Hz]%lookup_delete_Some; by eapply Hc.
  - intros y Hy Hd; apply Hp; [done |]; destruct Hd as [(j & z & Hz & Hm)|[Hd|?]]; [left | | done].
    + cbn in Hz; apply lookup_delete_Some in Hz as [_ Hz]; by exists j, z.
    + unfold in_queue in Hd; cbn in Hd; apply Hqd in Hd as [(e & Heq & He)%list_elem_of_fmap|?]; [left | by right; left].
      destruct (Hes e He) as (x & _ & Hid & _ & Hhold); exists id, c; split; [done |]; congruence.
Qed.

Lemma key_inv_total n d : key_inv None d -> key_inv None (set_total n d).
Proof. intros []; split; [by apply delivery_wf_total | done | done | done]. Qed.
End delivery.

(** ** Properties *)

(** C11: Dispatching for a key-shared subscription ends, without error, and keeps
    the invariant: no message is lost, held twice, or held and queued at once,
    every recorded hash is the hash of its message, and the consumers keep what
    they hold. *)
Theorem key_shared_keeps_messages {S E} `{SubscriptionStore S E} `{MetadataDecoder} (s : S)
    (ms : list StoredMessage) (acked : StoredMessage -> bool) (readable : ManagedLedgerPosition -> Prop)
    (kd : KeySharedDispatcher) :
  presents s ms acked readable -> key_inv ms acked readable None (key_core kd) ->
  exists kd', dispatch_messages (Datatypes.S (2 * ss_size s)) s kd = Some (Ok tt, kd') /\
    key_inv ms acked readable None (key_core kd') /\
    (forall id m, held_by (key_core kd) id m -> held_by (key_core kd') id m).
Proof.
  intros Hs Hi; pose proof (work_bound s ms acked readable Hs (key_core kd)) as Hw.
  destruct (dispatch_messages_spec s ms acked readable Hs _ kd Hi (proj2 (Nat.lt_succ_r _ _) Hw)) as (kd' & Hd & Hr).
  exists kd'; split_and!; [exact Hd | apply Hr | apply Hr].
Qed.

(** C18: Order per key, for a subscription that does not allow out-of-order delivery
    (the controller blocks hashes).  When a new message is sent, every earlier message
    with the same key hash is acknowledged or already with a consumer: none is waiting
    in the redelivery queue and none was skipped. *)
Theorem key_order {S E} `{SubscriptionStore S E} `{MetadataDecoder} (s : S)
    (ms : list StoredMessage) (acked : StoredMessage -> bool) (readable : ManagedLedgerPosition -> Prop)
    (b : BatchState) (x y : StoredMessage) :
  presents s ms acked readable -> key_inv ms acked readable None (key_core (dispatcher b)) ->
  block_hashes (redelivery_controller (key_core (dispatcher b))) = true -> x ∈ ms -> y ∈ ms ->
  held (key_core (dispatcher (new_message_phase s b).2)) (message_id x) ->
  ~ held (key_core (dispatcher b)) (message_id x) ->
  msg_rank y < msg_rank x -> key_hash y = key_hash x ->
  acked y = true \/ held (key_core (dispatcher b)) (message_id y).
Proof.
  intros Hs Hi Hb Hx Hy Hh Hn Hr Hk.
  destruct (new_message_phase_spec s ms acked readable Hs b Hi) as (_ & _ & Ho).
  exact (Ho Hb x Hx Hh Hn y Hy Hr Hk).
Qed.

(** A redelivered message whose consumer leaves is never delivered again.
    Its hash is still recorded as in flight when it goes back to the queue, and
    the queue skips hashes in flight: however often the dispatcher runs, with
    whatever consumers and permits, the message stays in the queue. *)
Theorem redelivered_message_sticks {S E} `{SubscriptionStore S E} `{MetadataDecoder} (s : S)
    (ms : list StoredMessage) (acked : StoredMessage -> bool) (readable : ManagedLedgerPosition -> Prop)
    (kd : KeySharedDispatcher) (id : Z) (x : StoredMessage) :
  presents s ms acked readable -> key_inv ms acked readable None (key_core kd) -> x ∈ ms -> acked x = false ->
  held_by (key_core kd) id (message_id x) ->
  in_flight_hashes (redelivery_controller (key_core kd)) !! message_id x = Some (key_hash x) ->
  exists kd', dispatch_messages (Datatypes.S (2 * ss_size s)) s (remove_consumer_with_recovery id kd).2 =
      Some (Ok tt, kd') /\
    in_queue (key_core kd') (message_id x) /\ ~ held (key_core kd') (message_id x) /\
    stuck (message_id x) (redelivery_controller (key_core kd')).
Proof.
  intros Hs Hi Hx Ha Hheld Hfl.
  destruct (key_inv_recovery s ms acked readable Hs id kd Hi) as (Hi1 & Hq & Hfl1).
  set (kd1 := (remove_consumer_with_recovery id kd).2) in *.
  assert (stuck (message_id x) (redelivery_controller (key_core kd1))) as Hst.
  { destruct (Hq _ Hheld) as [e He]; exists (key_hash x), e; split_and!; [by rewrite Hfl1 | done |].
    by apply (ho_entries _ _ (ki_hashes _ _ _ _ _ Hi1)). }
  pose proof (work_bound s ms acked readable Hs (key_core kd1)) as Hw.
  destruct (dispatch_messages_spec s ms acked readable Hs _ kd1 Hi1 (proj2 (Nat.lt_succ_r _ _) Hw)) as (kd' & Hd & Hr).
  assert (stuck (message_id x) (redelivery_controller (key_core kd'))) as Hst'.
  { apply (bt_stuck _ _ _ _ _ Hr); [|done]; intros y Hy Heq.
    by rewrite (stored_id_inj s ms acked readable Hs y x Hy Hx Heq). }
  assert (in_queue (key_core kd') (message_id x)) as Hin by (destruct Hst' as (h & e & _ & He & _); by exists e).
  exists kd'; split_and!; [exact Hd | done | | done].
  intros Hh; by eapply (dw_apart _ _ _ _ _ (ki_wf _ _ _ _ _ (bt_inv _ _ _ _ _ Hr))).
Qed.

(** A turn of the batch that sends both a redelivered and a new message
    counts two dispatches but is entered with one left: the counter wraps below
    zero, and the batch is no longer bounded by its limit of twenty. *)
Theorem batch_counter_wraps {S E} `{SubscriptionStore S E} `{MetadataDecoder} (s : S) (b b1 b2 : BatchState)
    (m : MessageId) :
  remaining_dispatches b = 1 ->
  redelivery_phase s b = (Proceed, b1) -> progress b1 = Datatypes.S (progress b) ->
  new_message_phase s b1 = (Proceed, b2) ->
  held (key_core (dispatcher b2)) m -> ~ held (key_core (dispatcher b1)) m ->
  remaining_dispatches b2 = U32_MAX.
Proof.
  intros Hone Hr Hp Hn Hh Hnh.
  assert (remaining_dispatches b1 = 0) as Hzero.
  { revert Hr; unfold redelivery_phase, hand_over.
    destruct (pop_dispatchable_redelivery_message s (dispatcher b)) as [[[[[e x] c]|]|] kd]; try done.
    - destruct (deliver _ _ _ _ _) as [[[] c']|]; [|done | done]; intros [= <-]; cbn; by rewrite Hone.
    - intros [= <-]; cbn in Hp; lia. }
  revert Hn; unfold new_message_phase, hand_over.
  destruct (next_dispatchable_message s _ _) as [[[r|]|] d] eqn:En; try done.
  assert (consumers d = consumers (key_core (dispatcher b1))) as Ecs.
  { assert (forall fuel cs d0, consumers (dispatchable_loop fuel s cs d0).2 = consumers d0) as Hl.
    { induction fuel as [|fuel IH]; intros cs d0; cbn [dispatchable_loop]; [done |].
      destruct (next_unacked_candidate s (read_position d0)) as [[[c|]|] rp]; [|done | done].
      destruct (is_message_pending _ _); [by rewrite IH | done]. }
    pose proof (Hl (Datatypes.S (ss_size s)) (all_consumers (key_core (dispatcher b1))) (key_core (dispatcher b1))) as Hc.
    unfold next_dispatchable_message in En; by rewrite En in Hc. }
  destruct (is_hash_blocked _ _).
  - intros [= <-]; exfalso; apply Hnh; destruct Hh as (id & c & Hc & Hm); cbn in Hc; rewrite Ecs in Hc.
    by exists id, c.
  - destruct (select_consumer_for_hash _ _) as [c|]; [|done].
    destruct (deliver _ _ _ _ _) as [[[] c']|]; [|done | done]; intros [= <-]; cbn; by rewrite Hzero.
Qed.

(** ** Examples *)

#[local] Existing Instance byte_metadata.

Definition sample_consumer (id : Z) : Consumer :=
  set_permits 5 (consumer_new (mkInfo id "c" "conn" 0 None) [Slot; Slot; Slot; Slot; Slot; Slot]).

(** A dispatcher with consumer 1. *)
Definition sample_core : DispatchState := add_total 5 (set_consumer (sample_consumer 1) (dispatch_new true)).
Definition sample_dispatcher : KeySharedDispatcher :=
  rebuild_assignments (mkKeyShared sample_core [] [] default_policy).

Lemma sample_inv : key_inv example_messages example_acked example_readable None (key_core sample_dispatcher).
Proof.
  apply key_inv_total, key_inv_add_consumer; [apply key_inv_new | reflexivity |].
  intros m; unfold holds; cbn; rewrite lookup_empty; by intros [].
Qed.

Lemma key_has_one_owner_witness :
  exists r owner, is_Some (consumers (key_core sample_dispatcher) !! owner) /\
    owners 4242 (active_assignments sample_dispatcher) = [(r, owner)].
Proof.
  destruct (key_has_one_owner sample_dispatcher 4242) as (r & owner & H1 & H2 & _);
    [reflexivity | reflexivity | discriminate | vm_compute; congruence | lia |].
  exists r, owner; split; [exact H1 | exact H2].
Defined.

Lemma key_shared_keeps_messages_witness :
  exists kd', dispatch_messages (Datatypes.S (2 * ss_size example_view)) example_view sample_dispatcher =
      Some (Ok tt, kd') /\ key_inv example_messages example_acked example_readable None (key_core kd').
Proof.
  destruct (key_shared_keeps_messages example_view example_messages example_acked example_readable sample_dispatcher
    example_view_presents sample_inv) as (kd' & H1 & H2 & _).
  exists kd'; split; [exact H1 | exact H2].
Defined.

Lemma key_order_witness :
  example_acked (example_message 1) = true \/ held (key_core sample_dispatcher) (message_id (example_message 1)).
Proof.
  apply (key_order example_view example_messages example_acked example_readable (mkBatch 5 0 sample_dispatcher)
    (example_message 2) (example_message 1) example_view_presents sample_inv).
  - reflexivity.
  - apply (list_elem_of_lookup_2 example_messages 2); by vm_compute.
  - apply (list_elem_of_lookup_2 example_messages 1); by vm_compute.
  - apply (bool_decide_unpack _); by vm_compute.
  - apply (bool_decide_unpack _); by vm_compute.
  - by vm_compute.
  - by vm_compute.
Defined.

(** The dispatcher after a dispatch. *)
Definition dispatched (kd : KeySharedDispatcher) : KeySharedDispatcher :=
  match dispatch_messages (Datatypes.S (2 * ss_size example_view)) example_view kd with
  | Some (_, kd) => kd
  | None => kd
  end.

Lemma dispatched_inv kd :
  key_inv example_messages example_acked example_readable None (key_core kd) ->
  key_inv example_messages example_acked example_readable None (key_core (dispatched kd)).
Proof.
  intros Hi; pose proof (work_bound example_view _ _ _ example_view_presents (key_core kd)) as Hw.
  destruct (dispatch_messages_spec example_view _ _ _ example_view_presents _ kd Hi
    (proj2 (Nat.lt_succ_r _ _) Hw)) as (kd' & Hd & Hr).
  unfold dispatched; rewrite Hd; apply Hr.
Qed.

(** Consumer 1 gets the messages and leaves, consumer 2 gets them again. *)
Definition redelivered : KeySharedDispatcher :=
  let kd := (remove_consumer_with_recovery 1 (dispatched sample_dispatcher)).2 in
  dispatched (rebuild_assignments (set_key_core (add_total 5 (set_consumer (sample_consumer 2) (key_core kd))) kd)).

Lemma redelivered_inv : key_inv example_messages example_acked example_readable None (key_core redelivered).
Proof.
  apply dispatched_inv, key_inv_total, key_inv_add_consumer.
  - apply (key_inv_recovery example_view example_messages example_acked example_readable example_view_presents).
    apply dispatched_inv, sample_inv.
  - apply (bool_decide_unpack _); by vm_compute.
  - intros m; unfold holds; cbn; rewrite lookup_empty; by intros [].
Qed.

Lemma redelivered_message_sticks_witness :
  exists kd', dispatch_messages (Datatypes.S (2 * ss_size example_view)) example_view
      (remove_consumer_with_recovery 2 redelivered).2 = Some (Ok tt, kd') /\
    in_queue (key_core kd') (message_id (example_message 2)).
Proof.
  destruct (redelivered_message_sticks example_view example_messages example_acked example_readable redelivered 2
    (example_message 2) example_view_presents redelivered_inv) as (kd' & H1 & H2 & _).
  - apply (list_elem_of_lookup_2 example_messages 2); by vm_compute.
  - by vm_compute.
  - eexists; split; [by vm_compute | apply (bool_decide_unpack _); by vm_compute].
  - by vm_compute.
  - exists kd'; split; [exact H1 | exact H2].
Defined.

(** One message queued for redelivery and the next one to be read, without
    blocking of hashes. *)
Definition wrapping_batch : BatchState :=
  mkBatch 1 0
    (rebuild_assignments (mkKeyShared
       (set_read_position (Some (mkPos 0 3 (-1)))
          (add_redelivery_entries [mkRedelivery (mkMsgId 0 2 (-1)) 1 (Some 0)]
             (add_total 5 (set_consumer (sample_consumer 1) (dispatch_new false)))))
       [] [] (mkPolicy AutoSplit [] true))).

Lemma batch_counter_wraps_witness :
  remaining_dispatches (new_message_phase example_view (redelivery_phase example_view wrapping_batch).2).2 = U32_MAX.
Proof.
  apply (batch_counter_wraps example_view wrapping_batch (redelivery_phase example_view wrapping_batch).2
    (new_message_phase example_view (redelivery_phase example_view wrapping_batch).2).2 (mkMsgId 0 3 (-1))).
  - reflexivity.
  - rewrite (surjective_pairing (redelivery_phase _ _)) at 1; f_equal; by vm_compute.
  - by vm_compute.
  - rewrite (surjective_pairing (new_message_phase _ _)) at 1; f_equal; by vm_compute.
  - apply (bool_decide_unpack _); by vm_compute.
  - apply (bool_decide_unpack _); by vm_compute.
Defined.
