(* ===== verification/SingleActive.v ===== *)
(** * Dispatching to a single active consumer

    [broker/dispatcher/exclusive.rs], [failover.rs] and [single_active.rs].  Both
    dispatchers send every message to one consumer with the same loop, which is
    modelled once, on the consumer, the dispatcher's count of its permits and the
    read position. *)

From stdpp Require Import sorting.
From S2P Require Import Prelude Position MessageMap LedgerInfo RocksLedger StickyKey Consumer.
From S2P Require Import ReadPosition Dispatch.

(** ** The loop *)

Record ActiveState := mkActive {
  ac_consumer : Consumer;
  ac_permits : Z;
  ac_position : option ManagedLedgerPosition;
}.

Section active.
Context {S E : Type} `{SubscriptionStore S E} `{MetadataDecoder}.

Inductive active_end := Sent | Stop | Broken (e : E).

(** One turn of the batch: a permit is taken first and given back when there is
    nothing to send or the connection does not take it. *)
Definition active_turn (s : S) (st : ActiveState) : active_end * ActiveState :=
  match use_permit (ac_consumer st) with
  | (false, _) => (Stop, st)
  | (true, c) =>
      let permits := wrap_u32 (ac_permits st - 1) in
      match next_unacked_candidate s (ac_position st) with
      | (Err e, rp) => (Broken e, mkActive c permits rp)
      | (Ok None, rp) => (Stop, mkActive (add_permits 1 c) (wrap_u32 (permits + 1)) rp)
      | (Ok (Some r), rp) =>
          let x := rd_message r in
          match enqueue_message (message_id x) (metadata x) (payload x) c with
          | (true, c) =>
              (Sent, mkActive (record_message_dispatched (messages_in_batch (metadata x))
                                 (Z.of_nat (length (payload x))) c)
                       permits (commit_read_position (rd_next_position r)))
          | (false, c) => (Stop, mkActive (add_permits 1 c) (wrap_u32 (permits + 1)) rp)
          end
      end
  end.

Fixpoint active_batch (s : S) (turns : nat) (dispatched : nat) (st : ActiveState)
  : result E nat * ActiveState :=
  match turns with
  | O => (Ok dispatched, st)
  | Datatypes.S turns =>
      match active_turn s st with
      | (Broken e, st) => (Err e, st)
      | (Stop, st) => (Ok dispatched, st)
      | (Sent, st) => active_batch s turns (Datatypes.S dispatched) st
      end
  end.

Fixpoint active_loop (fuel : nat) (s : S) (st : ActiveState) : option (result E unit * ActiveState) :=
  match fuel with
  | O => None
  | Datatypes.S fuel =>
      if ac_permits st =? 0 then Some (Ok tt, st)
      else
        match active_batch s (Z.to_nat (Z.min (ac_permits st) DISPATCHER_MAX_ROUND_ROBIN_BATCH_SIZE)) 0 st with
        | (Err e, st) => Some (Err e, st)
        | (Ok 0%nat, st) => Some (Ok tt, st)
        | (Ok _, st) => if ac_permits st =? 0 then Some (Ok tt, st) else active_loop fuel s st
        end
  end.
End active.
Arguments active_end : clear implicits.

(** ** Exclusive *)

Record ExclusiveDispatcher := mkExclusive {
  ex_consumer : option Consumer;
  ex_permits : Z;
  ex_position : option ManagedLedgerPosition;
}.

Definition exclusive_new : ExclusiveDispatcher := mkExclusive None 0 None.

Definition exclusive_add_consumer (c : Consumer) (xd : ExclusiveDispatcher) : result unit ExclusiveDispatcher :=
  match ex_consumer xd with
  | Some _ => Err tt
  | None => Ok (mkExclusive (Some c) (ex_permits xd) (ex_position xd))
  end.

Definition exclusive_remove_consumer (id : Z) (xd : ExclusiveDispatcher)
  : option Consumer * ExclusiveDispatcher :=
  match ex_consumer xd with
  | Some c =>
      if consumer_id c =? id then (Some c, mkExclusive None (ex_permits xd) (ex_position xd))
      else (None, xd)
  | None => (None, xd)
  end.

Definition exclusive_consumer_flow (id n : Z) (xd : ExclusiveDispatcher) : ExclusiveDispatcher :=
  match ex_consumer xd with
  | Some c =>
      if consumer_id c =? id
      then mkExclusive (ex_consumer xd) (wrap_u32 (ex_permits xd + n)) (ex_position xd)
      else xd
  | None => xd
  end.

Definition exclusive_init_read_position (pos : option ManagedLedgerPosition) (xd : ExclusiveDispatcher)
  : ExclusiveDispatcher :=
  mkExclusive (ex_consumer xd) (ex_permits xd) pos.

Definition exclusive_dispatch_messages {S E} `{SubscriptionStore S E} `{MetadataDecoder} (fuel : nat) (s : S)
    (xd : ExclusiveDispatcher) : option (result E unit * ExclusiveDispatcher) :=
  match ex_consumer xd with
  | None => Some (Ok tt, xd)
  | Some c =>
      match active_loop fuel s (mkActive c (ex_permits xd) (ex_position xd)) with
      | Some (r, st) => Some (r, mkExclusive (Some (ac_consumer st)) (ac_permits st) (ac_position st))
      | None => None
      end
  end.

(** ** Failover *)

Record FailoverDispatcher := mkFailover {
  fo_consumers : list Consumer;
  fo_active : option Z;
  fo_permits : Z;
  fo_position : option ManagedLedgerPosition;
}.

Definition failover_new : FailoverDispatcher := mkFailover [] None 0 None.

Definition set_fo_consumers (cs : list Consumer) (fd : FailoverDispatcher) : FailoverDispatcher :=
  mkFailover cs (fo_active fd) (fo_permits fd) (fo_position fd).

Definition get_active_consumer (fd : FailoverDispatcher) : option Consumer :=
  match fo_active fd with
  | Some id => List.find (fun c => consumer_id c =? id) (fo_consumers fd)
  | None => None
  end.

(** Descending priority level, then name, then id. *)
Definition failover_before (a b : Consumer) : Prop :=
  priority_level b < priority_level a \/ priority_level a = priority_level b /\
    match String.compare (consumer_name a) (consumer_name b) with
    | Lt => True
    | Eq => consumer_id a <= consumer_id b
    | Gt => False
    end.

#[global] Instance failover_before_dec : RelDecision failover_before.
Proof.
  intros a b; unfold failover_before; destruct (String.compare (consumer_name a) (consumer_name b)); apply _.
Defined.

Definition sort_consumers (fd : FailoverDispatcher) : FailoverDispatcher :=
  set_fo_consumers (merge_sort failover_before (fo_consumers fd)) fd.

Definition select_active_consumer_id (fd : FailoverDispatcher) : option Z :=
  consumer_id <$> head (fo_consumers fd).

Definition notify_active_consumer_changed (id : Z) (fd : FailoverDispatcher) : FailoverDispatcher :=
  set_fo_consumers (notify_active_consumer_change id <$> fo_consumers fd) fd.

Definition clear_active (fd : FailoverDispatcher) : FailoverDispatcher :=
  set_fo_consumers (clear_active_consumer <$> fo_consumers fd) fd.

Definition sync_total_available_permits (fd : FailoverDispatcher) : FailoverDispatcher :=
  mkFailover (fo_consumers fd) (fo_active fd)
    (from_option available_permits_now 0 (get_active_consumer fd)) (fo_position fd).

Definition pick_and_schedule_active_consumer (fd : FailoverDispatcher) : bool * FailoverDispatcher :=
  let selected := select_active_consumer_id fd in
  if bool_decide (selected = fo_active fd) then (false, sync_total_available_permits fd)
  else
    let fd := mkFailover (fo_consumers fd) selected (fo_permits fd) (fo_position fd) in
    let fd := match selected with
              | Some id => notify_active_consumer_changed id fd
              | None => clear_active fd
              end in
    (true, sync_total_available_permits fd).

(** The consumer's own view of who is active is also set when the active
    consumer stays the same. *)
Definition notify_one (id active : Z) (cs : list Consumer) : list Consumer :=
  (fun c => if consumer_id c =? id then notify_active_consumer_change active c else c) <$> cs.

Definition failover_add_consumer (c : Consumer) (fd : FailoverDispatcher) : result unit FailoverDispatcher :=
  if existsb (fun x => consumer_id x =? consumer_id c) (fo_consumers fd) then Err tt
  else
    let fd := sort_consumers (set_fo_consumers (fo_consumers fd ++ [c]) fd) in
    match pick_and_schedule_active_consumer fd with
    | (true, fd) => Ok fd
    | (false, fd) =>
        match fo_active fd with
        | Some active => Ok (set_fo_consumers (notify_one (consumer_id c) active (fo_consumers fd)) fd)
        | None => Ok fd
        end
    end.

(** Removal of the consumer at its index. *)
Fixpoint take_consumer (id : Z) (cs : list Consumer) : option (Consumer * list Consumer) :=
  match cs with
  | [] => None
  | c :: cs =>
      if consumer_id c =? id then Some (c, cs)
      else (fun r => (r.1, c :: r.2)) <$> take_consumer id cs
  end.

Definition failover_remove_consumer (id : Z) (fd : FailoverDispatcher) : option Consumer * FailoverDispatcher :=
  match take_consumer id (fo_consumers fd) with
  | None => (None, fd)
  | Some (c, rest) =>
      let fd := sort_consumers (set_fo_consumers rest fd) in
      match rest with
      | [] => (Some (clear_active_consumer c), mkFailover (fo_consumers fd) None 0 (fo_position fd))
      | _ => (Some c, (pick_and_schedule_active_consumer fd).2)
      end
  end.

(** [min] of positions. *)
Definition position_min (p q : ManagedLedgerPosition) : ManagedLedgerPosition :=
  match position_cmp p q with Gt => q | _ => p end.

Fixpoint first_position_of (l : list ManagedLedgerPosition) : option ManagedLedgerPosition :=
  match l with
  | [] => None
  | p :: l => Some (match first_position_of l with Some q => position_min p q | None => p end)
  end.

Definition rewind_read_position {S E} `{SubscriptionStore S E} (s : S) (pending : list ManagedLedgerPosition)
  : option ManagedLedgerPosition :=
  let first_unacked := match ss_first_unacked_position s with Ok o => o | Err _ => None end in
  match first_unacked, first_position_of pending with
  | Some unacked, Some pending => Some (position_min unacked pending)
  | Some unacked, None => Some unacked
  | None, Some pending => Some pending
  | None, None => None
  end.

Definition failover_init_read_position (pos : option ManagedLedgerPosition) (fd : FailoverDispatcher)
  : FailoverDispatcher :=
  mkFailover (fo_consumers fd) (fo_active fd) (fo_permits fd) pos.

(** What the consumer with this id holds is drained; the positions of it. *)
Fixpoint drain_consumer (id : Z) (cs : list Consumer) : list ManagedLedgerPosition * list Consumer :=
  match cs with
  | [] => ([], [])
  | c :: cs =>
      if consumer_id c =? id then
        let '(drained, c) := drain_pending_acks (close_pending_acks c) in
        ((fun x => position_of_message_id x.1) <$> drained, c :: cs)
      else let '(ps, cs) := drain_consumer id cs in (ps, c :: cs)
  end.

Definition failover_remove_with_recovery {S E} `{SubscriptionStore S E} (s : S) (id : Z) (fd : FailoverDispatcher)
  : option Consumer * FailoverDispatcher :=
  let fd :=
    if bool_decide (fo_active fd = Some id) then
      let '(pending, cs) := drain_consumer id (fo_consumers fd) in
      failover_init_read_position (rewind_read_position s pending) (set_fo_consumers cs fd)
    else fd in
  match failover_remove_consumer id fd with
  | (Some c, fd) => (Some c, (pick_and_schedule_active_consumer (sort_consumers fd)).2)
  | (None, fd) => (None, fd)
  end.

Definition failover_consumer_flow (id n : Z) (fd : FailoverDispatcher) : FailoverDispatcher :=
  if bool_decide (fo_active fd = Some id)
  then mkFailover (fo_consumers fd) (fo_active fd) (wrap_u32 (fo_permits fd + n)) (fo_position fd)
  else fd.

(** The consumer's record, shared with the dispatcher, after the dispatch. *)
Definition replace_consumer (c : Consumer) (cs : list Consumer) : list Consumer :=
  (fun x => if consumer_id x =? consumer_id c then c else x) <$> cs.

Definition failover_dispatch_messages {S E} `{SubscriptionStore S E} `{MetadataDecoder} (fuel : nat) (s : S)
    (fd : FailoverDispatcher) : option (result E unit * FailoverDispatcher) :=
  match get_active_consumer fd with
  | None => Some (Ok tt, fd)
  | Some c =>
      match active_loop fuel s (mkActive c (fo_permits fd) (fo_position fd)) with
      | Some (r, st) =>
          Some (r, mkFailover (replace_consumer (ac_consumer st) (fo_consumers fd)) (fo_active fd)
                     (ac_permits st) (ac_position st))
      | None => None
      end
  end.

(** ** What the loop sends *)

Lemma sorted_head (l : list StoredMessage) x :
  StronglySorted (fun a b => msg_rank a < msg_rank b) l -> x ∈ l ->
  (forall y, y ∈ l -> msg_rank x <= msg_rank y) -> l = x :: filter (fun y => msg_rank x < msg_rank y) l.
Proof.
  intros Hs Hx Hmin; destruct l as [|z l]; [by apply elem_of_nil in Hx |].
  apply StronglySorted_inv in Hs as [Hs Hz]; rewrite Forall_forall in Hz.
  assert (x = z) as <-.
  { apply elem_of_cons in Hx as [->|Hx]; [done |]; specialize (Hz x Hx); specialize (Hmin z ltac:(by left)); lia. }
  f_equal; rewrite filter_cons_False by lia; symmetry; by apply list_filter_id.
Qed.

Section delivery.
Context {S E : Type} `{SubscriptionStore S E} `{MetadataDecoder}.
Context (s : S) (ms : list StoredMessage) (acked : StoredMessage -> bool)
  (readable : ManagedLedgerPosition -> Prop) (Hs : presents s ms acked readable).
Implicit Types (st : ActiveState) (rp : option ManagedLedgerPosition).

(** The messages still to be sent, in order. *)
Definition unread rp : list StoredMessage := filter (fun x => acked x = false /\ ~ behind rp x) ms.

Lemma unread_found rp r rp' :
  found ms acked readable rp r rp' ->
  unread rp = rd_message r :: unread (commit_read_position (rd_next_position r)) /\ unread rp' = unread rp.
Proof.
  intros [Hin Hun Hah Hfst Hre _ Hnext _].
  assert (forall x, x ∈ ms -> acked x = false -> behind rp x <-> msg_rank x < msg_rank (rd_message r)) as Hb.
  { intros x Hx Ha; split; [|intros Hlt; destruct (Hfst x Hx Hlt); [congruence | done]].
    destruct rp as [p|]; cbn in *; [lia | done]. }
  split.
  - rewrite (sorted_head (unread rp) (rd_message r)).
    + f_equal; unfold unread; rewrite list_filter_filter; apply list_filter_ext; intros x Hx.
      destruct (acked x) eqn:Ha; [naive_solver |].
      specialize (Hb x Hx Ha); specialize (Hnext x Hx); rewrite Hb, Hnext; naive_solver lia.
    + apply StronglySorted_filter, (pr_sorted _ _ _ _ Hs).
    + by apply list_elem_of_filter.
    + intros y [[Ha Hny] Hy]%list_elem_of_filter; rewrite Hb in Hny by done; lia.
  - apply list_filter_ext; intros x Hx; destruct (acked x) eqn:Ha; [naive_solver |].
    specialize (Hb x Hx Ha); specialize (Hre x Hx); rewrite Hb, Hre; naive_solver.
Qed.

Lemma unread_exhausted rp rp' : exhausted ms acked readable rp rp' -> unread rp = [] /\ unread rp' = [].
Proof.
  intros [Hdone _ _ Hfw].
  split; apply elem_of_nil_inv; intros x [[Ha Hb] Hx]%list_elem_of_filter; destruct (Hdone x Hx) as [?|Hbx];
    [congruence | done | congruence | by apply Hb, Hfw].
Qed.

(** *** With a connection that takes everything *)

(** The consumer's permits are the dispatcher's count, and its connection takes
    all that is left to send. *)
Record flowing st : Prop := {
  fl_open : closed (pending_acks (ac_consumer st)) = false;
  fl_link : Forall (eq Slot) (link (ac_consumer st));
  fl_slots : (length (unread (ac_position st)) <= length (link (ac_consumer st)))%nat;
  fl_permits : available_permits (ac_consumer st) = ac_permits st;
  fl_range : 0 <= ac_permits st <= I32_MAX;
  fl_readable : rp_readable readable (ac_position st);
}.

Definition as_sent (x : StoredMessage) : PendingMessage :=
  mkPending (message_id x) (metadata x) (payload x) 0.

(** [sent] messages went out, the permits went down by as many. *)
Record flowed (sent : list StoredMessage) (rest : list StoredMessage) st st' : Prop := {
  fw_flowing : flowing st';
  fw_rest : unread (ac_position st') = rest;
  fw_permits : ac_permits st' = ac_permits st - Z.of_nat (length sent);
  fw_delivered : delivered (ac_consumer st') = delivered (ac_consumer st) ++ (as_sent <$> sent);
}.

Lemma wrap_u32_id n : 0 <= n <= U32_MAX -> wrap_u32 n = n.
Proof. intros; unfold wrap_u32; apply Z.mod_small; mlia. Qed.

Lemma active_turn_flowing st :
  flowing st -> 0 < ac_permits st ->
  match unread (ac_position st) with
  | [] => exists st', active_turn s st = (Stop, st') /\ flowed [] [] st st'
  | x :: rest => exists st', active_turn s st = (Sent, st') /\ flowed [x] rest st st'
  end.
Proof.
  intros [Hcl Hl Hsl Hp Hr Hrp] Hpos; unfold active_turn, use_permit, try_use_permits; rewrite Hp.
  destruct (Z.ltb_spec 0 (ac_permits st)); [|lia].
  rewrite (wrap_i32_id 1), (wrap_i32_id (ac_permits st - 1)), (wrap_u32_id (ac_permits st - 1)) by mlia.
  pose proof (next_unacked_candidate_spec s ms acked readable Hs _ Hrp) as Hnext.
  destruct (next_unacked_candidate s (ac_position st)) as [[[r|]|] rp]; cbn in Hnext; [| |done].
  - pose proof (unread_found _ _ _ Hnext) as [Hun _]; rewrite Hun in *; cbn [length] in Hsl.
    destruct (link (ac_consumer st)) as [|a l] eqn:El; cbn [length] in Hsl; [lia |].
    apply Forall_cons in Hl as [<- Hl].
    unfold enqueue_message, send_message, send_message_with_sticky_hash, add_pending_ack; cbn; rewrite El, Hcl; cbn.
    eexists; split; [reflexivity |]; split; [split | | |]; cbn; try done; [lia | mlia |].
    intros ? [= <-]; exact (fd_next_readable _ _ _ _ _ _ Hnext).
  - pose proof (unread_exhausted _ _ Hnext) as [-> Hrest].
    eexists; split; [reflexivity |].
    assert (available_permits (add_permits 1 (set_permits (ac_permits st - 1) (ac_consumer st))) = ac_permits st) as Hb.
    { cbn; rewrite (wrap_i32_id 1), wrap_i32_id by mlia; lia. }
    assert (wrap_u32 (ac_permits st - 1 + 1) = ac_permits st) as Hu by (rewrite wrap_u32_id; mlia).
    split; [split | | |]; cbn [ac_consumer ac_permits ac_position]; rewrite ?Hu; try done.
    + rewrite Hrest; cbn; lia.
    + apply Hnext.
    + cbn; lia.
    + cbn; by rewrite app_nil_r.
Qed.

Lemma flowed_trans sent1 sent2 rest1 rest2 st1 st2 st3 :
  flowed sent1 rest1 st1 st2 -> flowed sent2 rest2 st2 st3 -> flowed (sent1 ++ sent2) rest2 st1 st3.
Proof.
  intros [? ? Hp1 Hd1] [? ? Hp2 Hd2]; split; [done | done | rewrite Hp2, Hp1, length_app; lia |].
  by rewrite Hd2, Hd1, fmap_app, app_assoc.
Qed.

Lemma flowed_refl st : flowing st -> flowed [] (unread (ac_position st)) st st.
Proof. intros; split; [done | done | cbn; lia | by rewrite app_nil_r]. Qed.

Lemma active_batch_flowing turns n st :
  flowing st -> Z.of_nat turns <= ac_permits st ->
  exists st', active_batch s turns n st = (Ok (n + Nat.min turns (length (unread (ac_position st))))%nat, st') /\
    flowed (take turns (unread (ac_position st))) (drop turns (unread (ac_position st))) st st'.
Proof.
  revert n st; induction turns as [|turns IH]; intros n st Hf Ht; cbn [active_batch].
  - exists st; rewrite Nat.min_0_l, Nat.add_0_r; split; [done |]; by apply flowed_refl.
  - pose proof (active_turn_flowing st Hf ltac:(lia)) as Hturn.
    destruct (unread (ac_position st)) as [|x rest]; destruct Hturn as (st1 & -> & H1).
    + exists st1; rewrite Nat.min_0_r, Nat.add_0_r; by split.
    + destruct (IH (Datatypes.S n) st1) as (st' & -> & H2); [apply H1 | destruct H1; cbn in *; lia |].
      rewrite (fw_rest _ _ _ _ H1) in *; exists st'; split; [f_equal; f_equal; cbn; lia |].
      by apply (flowed_trans [x] _ rest _ st st1).
Qed.

Lemma active_loop_flowing fuel st :
  flowing st -> (length (unread (ac_position st)) < fuel)%nat ->
  let n := Z.to_nat (ac_permits st) in
  exists st', active_loop fuel s st = Some (Ok tt, st') /\
    flowed (take n (unread (ac_position st))) (drop n (unread (ac_position st))) st st'.
Proof.
  revert st; induction fuel as [|fuel IH]; intros st Hf Hlen; [lia |]; cbn zeta; cbn [active_loop].
  pose proof (fl_range _ Hf) as Hr.
  destruct (Z.eqb_spec (ac_permits st) 0) as [Hz|Hnz]; [exists st; rewrite Hz; split; [done |]; by apply flowed_refl |].
  set (t := Z.to_nat (Z.min (ac_permits st) DISPATCHER_MAX_ROUND_ROBIN_BATCH_SIZE)).
  assert (0 < t)%nat as Htpos by (unfold t, DISPATCHER_MAX_ROUND_ROBIN_BATCH_SIZE; lia).
  assert (Z.of_nat t <= ac_permits st) as Htp by (unfold t; lia).
  destruct (active_batch_flowing t 0 st Hf Htp) as (st1 & -> & H1); cbn [Nat.add].
  set (u := unread (ac_position st)) in *; pose proof (fw_permits _ _ _ _ H1) as Hp1; rewrite length_take in Hp1.
  destruct (Nat.min t (length u)) as [|k] eqn:Ek.
  - assert (u = []) as Hu by (destruct u; [done | cbn in Ek; lia]).
    exists st1; split; [done |]; rewrite Hu in *; by rewrite take_nil, drop_nil in *.
  - destruct (Z.eqb_spec (ac_permits st1) 0) as [Hz1|Hnz1].
    + exists st1; split; [done |].
      assert (Z.to_nat (ac_permits st) = t) as -> by lia; done.
    + destruct (IH st1) as (st' & -> & H2); [apply H1 | rewrite (fw_rest _ _ _ _ H1), length_drop; lia |].
      rewrite (fw_rest _ _ _ _ H1) in H2; exists st'; split; [done |].
      replace (Z.to_nat (ac_permits st)) with (t + Z.to_nat (ac_permits st - Z.of_nat t))%nat by lia.
      rewrite <- take_take_drop, <- drop_drop.
      destruct (decide (t <= length u)%nat) as [Hle|Hgt].
      * replace (ac_permits st - Z.of_nat t) with (ac_permits st1) by lia.
        eapply flowed_trans; [exact H1 | exact H2].
      * rewrite (drop_ge u t) in * by lia; rewrite !take_nil, !drop_nil in *.
        eapply flowed_trans; [exact H1 | exact H2].
Qed.

(** *** With any connection *)

(** What the loop does in any case: the read position moves forward over messages
    that are acknowledged or held, and only messages in front of it are sent. *)
Record active_step st st' : Prop := {
  as_info : info (ac_consumer st') = info (ac_consumer st);
  as_readable : rp_readable readable (ac_position st');
  as_forward : forall x, x ∈ ms -> behind (ac_position st) x -> behind (ac_position st') x;
  as_new : forall m, holds (ac_consumer st') m -> holds (ac_consumer st) m \/
    exists x, x ∈ ms /\ message_id x = m /\ ~ behind (ac_position st) x;
  as_kept : forall x, x ∈ ms -> behind (ac_position st') x ->
    acked x = true \/ holds (ac_consumer st') (message_id x) \/
    (behind (ac_position st) x /\ (holds (ac_consumer st) (message_id x) -> holds (ac_consumer st') (message_id x)));
}.

Lemma active_step_refl st : rp_readable readable (ac_position st) -> active_step st st.
Proof. intros; split; try done; [by left | by right; right]. Qed.

Lemma active_step_trans st1 st2 st3 : active_step st1 st2 -> active_step st2 st3 -> active_step st1 st3.
Proof.
  intros [I1 R1 F1 N1 K1] [I2 R2 F2 N2 K2]; split; [congruence | done | auto | |].
  - intros m [Hm|(x & Hx & Hid & Hb)]%N2; [by apply N1 |]; right; exists x; split_and!; [done | done |].
    intros ?; by apply Hb, F1.
  - intros x Hx Hb; destruct (K2 x Hx Hb) as [?|[?|[Hb2 Hh2]]]; [by left | by right; left |].
    destruct (K1 x Hx Hb2) as [?|[?|[Hb1 Hh1]]]; [by left | right; left; auto | right; right; auto].
Qed.

Lemma active_turn_step st :
  rp_readable readable (ac_position st) ->
  active_step st (active_turn s st).2 /\
  match (active_turn s st).1 with
  | Sent => (length (unread (ac_position (active_turn s st).2)) < length (unread (ac_position st)))%nat
  | Stop => (length (unread (ac_position (active_turn s st).2)) <= length (unread (ac_position st)))%nat
  | Broken _ => False
  end.
Proof.
  intros Hrp; unfold active_turn, use_permit.
  destruct (try_use_permits 1 (ac_consumer st)) as [[] c] eqn:Et; [|split; [by apply active_step_refl | cbn; lia]].
  apply try_use_permits_fields in Et as (_ & Hi & Hp & _).
  pose proof (next_unacked_candidate_spec s ms acked readable Hs _ Hrp) as Hnext.
  destruct (next_unacked_candidate s (ac_position st)) as [[[r|]|] rp]; cbn in Hnext; [| |done].
  - pose proof (unread_found _ _ _ Hnext) as [Hun Hun']; destruct Hnext as [Hin Hua Hah Hfst Hre Hrr Hnx Hnr].
    set (x := rd_message r) in *.
    assert (forall y, y ∈ ms -> behind (ac_position st) y -> msg_rank y < msg_rank x) as Hlt.
    { intros y Hy; destruct (ac_position st) as [p|]; cbn in *; [lia | done]. }
    destruct (enqueue_message _ _ _ c) as [b c'] eqn:Es; apply send_message_spec in Es as (Hi2 & _ & _ & Ho & Hb).
    assert (forall m, m <> message_id x -> holds c' m <-> holds (ac_consumer st) m) as Hother.
    { intros m Hm; unfold holds; by rewrite Ho, Hp. }
    destruct b; cbn [fst snd]; (split; [|cbn [ac_position]; rewrite ?Hun', ?Hun; cbn [length]; lia]);
      split; cbn [ac_consumer ac_position info record_message_dispatched set_stats add_permits set_permits]; try congruence.
    + by intros ? [= <-].
    + intros y Hy Hby; apply Hnx; [done |]; specialize (Hlt y Hy Hby); lia.
    + intros m Hm; destruct (decide (m = message_id x)) as [->|Hne]; [right; by exists x | left; by apply Hother].
    + intros y Hy Hby; apply Hnx in Hby; [|done].
      destruct (decide (message_id y = message_id x)) as [Heq|Hne].
      { right; left; unfold holds; cbn; rewrite Heq; by rewrite (proj1 Hb). }
      assert (msg_rank y < msg_rank x) as Hy'.
      { destruct (decide (msg_rank y = msg_rank x)) as [Heq|]; [|lia]; exfalso; apply Hne; f_equal.
        by eapply msg_rank_inj; [apply (pr_sorted _ _ _ _ Hs) | | |]. }
      destruct (Hfst y Hy Hy'); [by left | right; right; split; [done |]]; by apply Hother.
    + done.
    + intros y Hy Hby; apply Hre; [done |]; auto.
    + intros m Hm; left; destruct (decide (m = message_id x)) as [->|Hne]; [|by apply Hother].
      destruct Hb as [_ Hb]; apply Hb in Hm; unfold holds in *; by rewrite <- Hp.
    + intros y Hy Hby; apply Hre in Hby; [|done]; destruct (Hfst y Hy Hby) as [?|Hb']; [by left | right; right].
      split; [done |]; apply Hother; intros Heq.
      by apply Hah; rewrite <- (stored_id_inj s ms acked readable Hs y x Hy Hin Heq).
  - pose proof (unread_exhausted _ _ Hnext) as [Hun Hun']; destruct Hnext as [Hdone Hrr _ Hfw].
    cbn [fst snd]; split; [|cbn [ac_position]; rewrite Hun, Hun'; cbn; lia].
    assert (forall m, holds (add_permits 1 c) m <-> holds (ac_consumer st) m) as Hsame
      by (intros m; unfold holds; cbn; by rewrite Hp).
    split; cbn [ac_consumer ac_position]; [done | done | done | intros m Hm; left; by apply Hsame |].
    intros y Hy Hby; destruct (Hdone y Hy); [by left | right; right; split; [done |]]; by apply Hsame.
Qed.

Lemma active_batch_step turns n st :
  rp_readable readable (ac_position st) ->
  exists k st', active_batch s turns n st = (Ok (n + k)%nat, st') /\ active_step st st' /\
    (length (unread (ac_position st')) + k <= length (unread (ac_position st)))%nat.
Proof.
  revert n st; induction turns as [|turns IH]; intros n st Hrp; cbn [active_batch].
  - exists 0%nat, st; rewrite Nat.add_0_r; split_and!; [done | by apply active_step_refl | lia].
  - destruct (active_turn_step st Hrp) as [Hst Hend]; destruct (active_turn s st) as [[] st1]; cbn [fst snd] in *; [| |done].
    + destruct (IH (Datatypes.S n) st1 (as_readable _ _ Hst)) as (k & st' & -> & Hst' & Hlen).
      exists (Datatypes.S k), st'; split_and!; [f_equal; f_equal; lia | by eapply active_step_trans | lia].
    + exists 0%nat, st1; rewrite Nat.add_0_r; split_and!; [done | done | lia].
Qed.

Lemma active_loop_step fuel st :
  rp_readable readable (ac_position st) -> (length (unread (ac_position st)) < fuel)%nat ->
  exists st', active_loop fuel s st = Some (Ok tt, st') /\ active_step st st'.
Proof.
  revert st; induction fuel as [|fuel IH]; intros st Hrp Hf; [lia |]; cbn [active_loop].
  destruct (ac_permits st =? 0); [exists st; split; [done | by apply active_step_refl] |].
  destruct (active_batch_step (Z.to_nat (Z.min (ac_permits st) DISPATCHER_MAX_ROUND_ROBIN_BATCH_SIZE)) 0 st Hrp)
    as (k & st1 & -> & Hst & Hlen); cbn [Nat.add].
  destruct k as [|k]; [by exists st1 |]; destruct (ac_permits st1 =? 0); [by exists st1 |].
  destruct (IH st1 (as_readable _ _ Hst)) as (st' & -> & Hst'); [lia |].
  exists st'; split; [done | by eapply active_step_trans].
Qed.

Lemma unread_bound rp : (length (unread rp) < Datatypes.S (ss_size s))%nat.
Proof.
  pose proof (pr_size _ _ _ _ Hs); pose proof (length_filter (fun x => acked x = false /\ ~ behind rp x) ms).
  unfold unread; lia.
Qed.
End delivery.
