(* ===== verification/FailoverDelivery.v ===== *)
(** * Delivery by the exclusive and failover dispatchers

    In-order delivery to the active consumer, what a change of the active consumer
    preserves, and what it loses. *)

From stdpp Require Import sorting.
From S2P Require Import Prelude Text Position MessageMap LedgerInfo RocksLedger StickyKey Consumer.
From S2P Require Import MemoryStore StorageService ReadPosition Dispatch SingleActive.

(** ** The order of the consumers *)

#[global] Instance failover_before_total : Total failover_before.
Proof.
  intros a b; unfold failover_before; rewrite (String.compare_antisym (consumer_name a)).
  destruct (String.compare (consumer_name b) (consumer_name a)); cbn; lia.
Qed.

#[global] Instance failover_before_trans : Transitive failover_before.
Proof.
  intros a b c; unfold failover_before; intros Hab Hbc.
  destruct (String.compare (consumer_name a) (consumer_name b)) eqn:E1,
    (String.compare (consumer_name b) (consumer_name c)) eqn:E2; try lia.
  - apply String.compare_eq_iff in E1, E2; rewrite E1, E2.
    rewrite string_compare_refl; lia.
  - apply String.compare_eq_iff in E1; rewrite E1, E2; lia.
  - apply String.compare_eq_iff in E2; rewrite <- E2, E1; lia.
  - rewrite (string_compare_lt_trans _ _ _ E1 E2); lia.
Qed.

Lemma sort_head_first (cs : list Consumer) c :
  head (merge_sort failover_before cs) = Some c ->
  c ∈ cs /\ forall x, x ∈ cs -> failover_before c x \/ x = c.
Proof.
  intros Hh; pose proof (merge_sort_Permutation failover_before cs) as Hperm.
  pose proof (StronglySorted_merge_sort failover_before cs) as Hs.
  destruct (merge_sort failover_before cs) as [|y l]; [done |]; injection Hh as ->.
  apply StronglySorted_inv in Hs as [_ Hall]; rewrite Forall_forall in Hall.
  split; [rewrite <- Hperm; by left |]; intros x Hx; rewrite <- Hperm in Hx.
  apply elem_of_cons in Hx as [->|Hx]; [by right | left; by apply Hall].
Qed.

(** ** Who is active *)

(** Notifications change neither who a consumer is nor what it holds. *)
Definition same_consumer (a b : Consumer) : Prop :=
  info b = info a /\ pending_acks b = pending_acks a /\ available_permits b = available_permits a /\
  delivered b = delivered a /\ link b = link a.

Lemma fmap_same (f : Consumer -> Consumer) cs :
  (forall c, same_consumer c (f c)) -> Forall2 same_consumer cs (f <$> cs).
Proof. intros Hf; induction cs; cbn; by constructor. Qed.

Lemma same_refl cs : Forall2 same_consumer cs cs.
Proof. induction cs; by constructor. Qed.

Lemma pick_spec fd :
  let fd' := (pick_and_schedule_active_consumer fd).2 in
  Forall2 same_consumer (fo_consumers fd) (fo_consumers fd') /\
  fo_active fd' = consumer_id <$> head (fo_consumers fd) /\ fo_position fd' = fo_position fd /\
  fo_permits fd' = from_option available_permits_now 0 (get_active_consumer fd').
Proof.
  unfold pick_and_schedule_active_consumer, select_active_consumer_id.
  destruct (bool_decide_reflect (consumer_id <$> head (fo_consumers fd) = fo_active fd)) as [He|He]; cbn [snd].
  - split_and!; [apply same_refl | done | done | done].
  - destruct (consumer_id <$> head (fo_consumers fd)) as [id|] eqn:Eh; cbn; split_and!; try done; by apply fmap_same.
Qed.

(** The failover dispatcher makes the consumer with the greatest priority
    level active (ties go to the smaller name, then the smaller id), although a
    lower value is documented to mean a higher priority. *)
Theorem failover_active_is_greatest_level (c : Consumer) (fd fd' : FailoverDispatcher) :
  failover_add_consumer c fd = Ok fd' ->
  exists a, a ∈ fo_consumers fd ++ [c] /\ fo_active fd' = Some (consumer_id a) /\
    forall x, x ∈ fo_consumers fd ++ [c] -> priority_level x <= priority_level a.
Proof.
  unfold failover_add_consumer; destruct (existsb _ _); [done |].
  set (fd1 := sort_consumers _); pose proof (pick_spec fd1) as (_ & Hact & _).
  assert (exists a, head (fo_consumers fd1) = Some a) as [a Ha].
  { unfold fd1, sort_consumers; cbn.
    destruct (merge_sort failover_before (fo_consumers fd ++ [c])) as [|a l] eqn:E; [|by exists a].
    pose proof (merge_sort_Permutation failover_before (fo_consumers fd ++ [c])) as Hp; rewrite E in Hp.
    apply Permutation_length in Hp; rewrite length_app in Hp; cbn in Hp; lia. }
  destruct (sort_head_first (fo_consumers fd ++ [c]) a Ha) as [Hin Hfirst].
  rewrite Ha in Hact; cbn in Hact; intros Hr; exists a; split; [done |]; split.
  - destruct (pick_and_schedule_active_consumer fd1) as [[] fd2]; cbn in Hact; [by injection Hr as <- |].
    rewrite Hact in Hr; by injection Hr as <-.
  - intros x Hx; destruct (Hfirst x Hx) as [Hb| ->]; [|lia]; unfold failover_before in Hb; lia.
Qed.

(** ** What is kept *)

Definition fo_held (fd : FailoverDispatcher) (m : MessageId) : Prop :=
  exists c, c ∈ fo_consumers fd /\ holds c m.

Lemma same_held cs cs' :
  Forall2 same_consumer cs cs' ->
  (forall m, (exists c, c ∈ cs' /\ holds c m) <-> exists c, c ∈ cs /\ holds c m) /\
  (consumer_id <$> cs') = (consumer_id <$> cs).
Proof.
  induction 1 as [|a b cs cs' (Hi & Hp & _) Hcs [IHh IHi]]; [done |]; split.
  - intros m; specialize (IHh m); split.
    + intros (c & [->|Hc]%elem_of_cons & Hm).
      * exists a; split; [by left |]; unfold holds in *; by rewrite <- Hp.
      * destruct IHh as [IHh _]; destruct IHh as (x & ? & ?); [eauto |]; exists x; split; [by right | done].
    + intros (c & [->|Hc]%elem_of_cons & Hm).
      * exists b; split; [by left |]; unfold holds in *; by rewrite Hp.
      * destruct IHh as [_ IHh]; destruct IHh as (x & ? & ?); [eauto |]; exists x; split; [by right | done].
  - cbn; f_equal; [unfold consumer_id; congruence | done].
Qed.

(** What becomes of the consumers when one leaves: [cs'] are the others. *)
Definition others_kept (id : Z) (cs cs' : list Consumer) : Prop :=
  (forall m, (exists c, c ∈ cs' /\ holds c m) <-> exists c, c ∈ cs /\ consumer_id c <> id /\ holds c m) /\
  NoDup (consumer_id <$> cs').

Lemma take_consumer_spec id cs :
  NoDup (consumer_id <$> cs) ->
  match take_consumer id cs with
  | Some (c, rest) => consumer_id c = id /\ cs ≡ₚ c :: rest
  | None => id ∉ (consumer_id <$> cs)
  end.
Proof.
  induction cs as [|c cs IH]; cbn; [intros _; by intros ?%elem_of_nil |].
  intros [Hc Hnd]%NoDup_cons; destruct (Z.eqb_spec (consumer_id c) id) as [<-|Hne]; [done |].
  specialize (IH Hnd); destruct (take_consumer id cs) as [[x rest]|]; cbn.
  - destruct IH as [? ->]; split; [done |]; apply Permutation_swap.
  - rewrite not_elem_of_cons; split; [congruence | done].
Qed.

Lemma others_kept_removed id c rest cs cs' :
  NoDup (consumer_id <$> cs) -> consumer_id c = id -> cs ≡ₚ c :: rest ->
  Forall2 same_consumer (merge_sort failover_before rest) cs' -> others_kept id cs cs'.
Proof.
  intros Hnd Hid Hp Hsame; destruct (same_held _ _ Hsame) as [Hh Hi].
  pose proof (merge_sort_Permutation failover_before rest) as Hs.
  rewrite Hp in Hnd; apply NoDup_cons in Hnd as [Hnew Hnd]; split.
  - intros m; rewrite Hh; split.
    + intros (x & Hx & Hm); rewrite Hs in Hx; exists x; split_and!; [rewrite Hp; by right | | done].
      intros Heq; apply Hnew; rewrite Hid, <- Heq; by apply list_elem_of_fmap_2.
    + intros (x & Hx & Hne & Hm); rewrite Hp in Hx; apply elem_of_cons in Hx as [->|Hx]; [done |].
      exists x; by rewrite Hs.
  - by rewrite Hi, Hs.
Qed.

Lemma failover_remove_consumer_spec id fd :
  NoDup (consumer_id <$> fo_consumers fd) ->
  match failover_remove_consumer id fd with
  | (Some _, fd') => others_kept id (fo_consumers fd) (fo_consumers fd') /\ fo_position fd' = fo_position fd
  | (None, fd') => fd' = fd /\ id ∉ (consumer_id <$> fo_consumers fd)
  end.
Proof.
  intros Hnd; unfold failover_remove_consumer; pose proof (take_consumer_spec id (fo_consumers fd) Hnd) as Ht.
  destruct (take_consumer id (fo_consumers fd)) as [[c rest]|]; [|done]; destruct Ht as [Hid Hp].
  destruct rest as [|x rest].
  - split; [|done]; apply (others_kept_removed id c []); [done | done | done |]; cbn; constructor.
  - destruct (pick_spec (sort_consumers (set_fo_consumers (x :: rest) fd))) as (Hs & _ & Hpos & _).
    split; [|done]; by eapply others_kept_removed.
Qed.

Lemma sort_pick_kept id cs fd :
  others_kept id cs (fo_consumers fd) ->
  let fd' := (pick_and_schedule_active_consumer (sort_consumers fd)).2 in
  others_kept id cs (fo_consumers fd') /\ fo_position fd' = fo_position fd.
Proof.
  intros [Hh Hi]; cbn zeta; destruct (pick_spec (sort_consumers fd)) as (Hs & _ & Hpos & _).
  split; [|done]; destruct (same_held _ _ Hs) as [Hh' Hi'].
  pose proof (merge_sort_Permutation failover_before (fo_consumers fd)) as Hp; split.
  - intros m; rewrite Hh', <- Hh; cbn; by setoid_rewrite Hp.
  - rewrite Hi'; cbn; by rewrite Hp.
Qed.

(** Draining the leaving consumer changes nothing for the others. *)
Lemma drain_consumer_spec id cs :
  let cs' := (drain_consumer id cs).2 in
  (consumer_id <$> cs') = (consumer_id <$> cs) /\
  (forall m, (exists c, c ∈ cs' /\ consumer_id c <> id /\ holds c m) <->
             exists c, c ∈ cs /\ consumer_id c <> id /\ holds c m) /\
  (forall p, p ∈ (drain_consumer id cs).1 -> exists c m, c ∈ cs /\ holds c m /\ p = position_of_message_id m).
Proof.
  induction cs as [|c cs IH]; cbn [drain_consumer]; [cbn; split_and!; [done | done | by intros p ?%elem_of_nil] |].
  destruct (Z.eqb_spec (consumer_id c) id) as [Hid|Hne].
  - destruct (drain_pending_acks (close_pending_acks c)) as [drained c'] eqn:Ed.
    apply drain_pending_acks_spec in Ed as (Hi & _ & _ & _ & _ & _ & Hpend); cbn [fst snd] in *.
    assert (consumer_id c' = consumer_id c) as Hc' by (unfold consumer_id; by rewrite Hi).
    split_and!; [cbn; by rewrite Hc' | |].
    + intros m; setoid_rewrite elem_of_cons; naive_solver congruence.
    + intros p ([m a] & -> & Hm%Hpend)%list_elem_of_fmap; exists c, m; split_and!; [by left | by exists a | done].
  - destruct (drain_consumer id cs) as [ps cs'']; cbn [fst snd] in *; destruct IH as (Hi & Hh & Hp).
    split_and!; [cbn; by rewrite Hi | |].
    + intros m; specialize (Hh m); setoid_rewrite elem_of_cons; naive_solver.
    + intros p Hin; destruct (Hp p Hin) as (x & m & ? & ? & ?); exists x, m; split_and!; [by right | done | done].
Qed.

Section kept.
Context {S E : Type} `{SubscriptionStore S E} `{MetadataDecoder}.
Context (s : S) (ms : list StoredMessage) (acked : StoredMessage -> bool)
  (readable : ManagedLedgerPosition -> Prop) (Hs : presents s ms acked readable).

(** No unacknowledged message behind the read position is forgotten. *)
Record fo_kept (fd : FailoverDispatcher) : Prop := {
  fk_ids : NoDup (consumer_id <$> fo_consumers fd);
  fk_readable : rp_readable readable (fo_position fd);
  fk_known : forall m, fo_held fd m -> stored_id ms m;
  fk_kept : forall x, x ∈ ms -> behind (fo_position fd) x -> acked x = true \/ fo_held fd (message_id x);
}.

Lemma position_min_spec p q :
  (position_min p q = p \/ position_min p q = q) /\
  (u64_ok (entry_id p) -> u64_ok (entry_id q) -> cursor_key_rank (position_min p q) <= cursor_key_rank p).
Proof.
  unfold position_min, position_cmp, cursor_key_rank.
  destruct (Z.compare_spec (ledger_id p) (ledger_id q)), (Z.compare_spec (entry_id p) (entry_id q)),
    (Z.compare_spec (partition p) (partition q)); split; auto; intros; mlia.
Qed.

Lemma first_position_of_in l p : first_position_of l = Some p -> p ∈ l.
Proof.
  revert p; induction l as [|q l IH]; intros p; cbn; [done |]; intros [= <-].
  destruct (first_position_of l) as [r|]; [|by left].
  destruct (proj1 (position_min_spec q r)) as [-> | ->]; [by left | right; by apply IH].
Qed.

(** The rewound position is readable and nothing unacknowledged is behind it. *)
Lemma rewind_read_position_spec pending :
  (forall p, p ∈ pending -> readable p) ->
  rp_readable readable (rewind_read_position s pending) /\
  forall x, x ∈ ms -> behind (rewind_read_position s pending) x -> acked x = true.
Proof.
  intros Hpend; unfold rewind_read_position; pose proof (pr_first _ _ _ _ Hs) as Hf.
  assert (forall q, first_position_of pending = Some q -> readable q) as Hq
    by (intros q Hq%first_position_of_in; by apply Hpend).
  destruct (ss_first_unacked_position s) as [[p|]|]; [| |done].
  - destruct Hf as (Hp & m & Hm & Hrank).
    pose proof (find_sorted _ (fun m => negb (acked m)) _ (pr_sorted _ _ _ _ Hs)) as Hfs.
    rewrite Hm in Hfs; destruct Hfs as (_ & _ & Hleast).
    assert (forall x, x ∈ ms -> msg_rank x < cursor_key_rank p -> acked x = true) as Hbelow.
    { intros x Hx Hlt; destruct (acked x) eqn:Ea; [done |].
      destruct (Hleast x Hx ltac:(by rewrite Ea)) as [->|?]; lia. }
    destruct (first_position_of pending) as [q|]; [|split; [by intros ? [= <-] | done]].
    destruct (position_min_spec p q) as [Hmin Hle]; specialize (Hq q eq_refl).
    specialize (Hle (pr_range _ _ _ _ Hs p Hp) (pr_range _ _ _ _ Hs q Hq)); split.
    + intros ? [= <-]; destruct Hmin as [-> | ->]; done.
    + intros x Hx Hb; cbn in Hb; apply Hbelow; [done | lia].
  - assert (forall x, x ∈ ms -> acked x = true) as Hall.
    { intros x Hx; pose proof (find_none _ _ Hf x (proj1 (list_elem_of_In _ _) Hx)) as Ha; cbn in Ha; by destruct (acked x). }
    split; [|by auto]; destruct (first_position_of pending) as [q|]; [|done]; intros ? [= <-]; by apply Hq.
Qed.

Lemma replace_consumer_held (c' : Consumer) (cs : list Consumer) m :
  (exists x, x ∈ replace_consumer c' cs /\ holds x m) <->
  (consumer_id c' ∈ (consumer_id <$> cs) /\ holds c' m) \/
  exists x, x ∈ cs /\ consumer_id x <> consumer_id c' /\ holds x m.
Proof.
  unfold replace_consumer; split.
  - intros (x & (y & -> & Hy)%list_elem_of_fmap & Hm).
    destruct (Z.eqb_spec (consumer_id y) (consumer_id c')) as [Heq|Hne]; [left | right; eauto].
    split; [rewrite <- Heq; by apply list_elem_of_fmap_2 | done].
  - intros [[(y & Hid & Hy)%list_elem_of_fmap Hm]|(x & Hx & Hne & Hm)].
    + exists c'; split; [|done]; apply list_elem_of_fmap; exists y; split; [|done].
      by rewrite (proj2 (Z.eqb_eq _ _)).
    + exists x; split; [|done]; apply list_elem_of_fmap; exists x; split; [|done].
      by rewrite (proj2 (Z.eqb_neq _ _)).
Qed.

Lemma active_in fd c :
  get_active_consumer fd = Some c -> c ∈ fo_consumers fd /\ fo_active fd = Some (consumer_id c).
Proof.
  unfold get_active_consumer; destruct (fo_active fd) as [id|]; [|done].
  intros [Hin%list_elem_of_In Hid]%find_some; split; [done |]; f_equal; lia.
Qed.

Lemma same_id_same_consumer cs (a b : Consumer) :
  NoDup (consumer_id <$> cs) -> a ∈ cs -> b ∈ cs -> consumer_id a = consumer_id b -> a = b.
Proof.
  intros Hnd (i & Hi)%list_elem_of_lookup (j & Hj)%list_elem_of_lookup Heq.
  assert (i = j) as <-; [|congruence].
  eapply NoDup_lookup; [exact Hnd | |]; rewrite list_lookup_fmap; [by rewrite Hi | by rewrite Hj; cbn; rewrite <- Heq].
Qed.

(** What a dispatch does: who holds what, and where the position is. *)
Record fo_step (fd fd' : FailoverDispatcher) : Prop := {
  fs_ids : (consumer_id <$> fo_consumers fd') = (consumer_id <$> fo_consumers fd);
  fs_readable : rp_readable readable (fo_position fd');
  fs_forward : forall x, x ∈ ms -> behind (fo_position fd) x -> behind (fo_position fd') x;
  fs_new : forall m, fo_held fd' m -> fo_held fd m \/
    exists x, x ∈ ms /\ message_id x = m /\ ~ behind (fo_position fd) x;
  fs_kept : forall x, x ∈ ms -> behind (fo_position fd') x ->
    acked x = true \/ fo_held fd' (message_id x) \/
    (behind (fo_position fd) x /\ (fo_held fd (message_id x) -> fo_held fd' (message_id x)));
}.

Lemma replace_active_held fd c c' m :
  NoDup (consumer_id <$> fo_consumers fd) -> c ∈ fo_consumers fd -> consumer_id c' = consumer_id c ->
  let rest := exists x, x ∈ fo_consumers fd /\ consumer_id x <> consumer_id c /\ holds x m in
  ((exists x, x ∈ replace_consumer c' (fo_consumers fd) /\ holds x m) <-> holds c' m \/ rest) /\
  (fo_held fd m <-> holds c m \/ rest).
Proof.
  intros Hids Hc Hid rest; split.
  - rewrite replace_consumer_held, Hid; unfold rest.
    assert (consumer_id c ∈ (consumer_id <$> fo_consumers fd)) by (by apply list_elem_of_fmap_2); tauto.
  - unfold fo_held, rest; split; [|naive_solver].
    intros (x & Hx & Hm); destruct (decide (consumer_id x = consumer_id c)) as [Heq|]; [left | right; eauto].
    by rewrite <- (same_id_same_consumer _ x c Hids Hx Hc Heq).
Qed.

Lemma replace_consumer_ids (c' : Consumer) cs : (consumer_id <$> replace_consumer c' cs) = (consumer_id <$> cs).
Proof.
  unfold replace_consumer; rewrite <- list_fmap_compose; apply list_fmap_ext; intros i x _; cbn.
  destruct (Z.eqb_spec (consumer_id x) (consumer_id c')); congruence.
Qed.

Lemma failover_dispatch_step fuel fd :
  NoDup (consumer_id <$> fo_consumers fd) -> rp_readable readable (fo_position fd) -> (ss_size s < fuel)%nat ->
  exists fd', failover_dispatch_messages fuel s fd = Some (Ok tt, fd') /\ fo_step fd fd'.
Proof.
  intros Hids Hr Hfuel; unfold failover_dispatch_messages.
  destruct (get_active_consumer fd) as [c|] eqn:Ec.
  2: { exists fd; split; [done |]; split; try done; [by left | by right; right]. }
  apply active_in in Ec as [Hc _].
  destruct (active_loop_step s ms acked readable Hs fuel (mkActive c (fo_permits fd) (fo_position fd)) Hr)
    as (st & -> & [Hi Hr' Hf Hn Hkept]); [pose proof (unread_bound s ms acked readable Hs (fo_position fd)); cbn; lia |]; cbn [ac_consumer ac_position] in *.
  assert (consumer_id (ac_consumer st) = consumer_id c) as Hid by (unfold consumer_id; by rewrite Hi).
  eexists; split; [reflexivity |]; split; cbn [fo_position fo_consumers]; try done.
  - apply replace_consumer_ids.
  - intros m Hm; destruct (replace_active_held fd c _ m Hids Hc Hid) as [H1 H2]; apply H1 in Hm; rewrite H2.
    destruct Hm as [[?|?]%Hn|?]; auto.
  - intros x Hx Hb; destruct (replace_active_held fd c _ (message_id x) Hids Hc Hid) as [H1 H2].
    unfold fo_held at 1 3; cbn [fo_consumers]; rewrite H1, H2.
    destruct (Hkept x Hx Hb) as [?|[?|[Hb0 Hh]]]; [by left | by right; left; left | right; right].
    split; [done |]; intros [?|?]; auto.
Qed.

Lemma fo_kept_step fd fd' : fo_kept fd -> fo_step fd fd' -> fo_kept fd'.
Proof.
  intros [Hids Hr Hkn Hk] [Hi Hr' Hf Hn Hkept]; split; [by rewrite Hi | done | |].
  - intros m [?|(x & Hx & <- & _)]%Hn; [by apply Hkn | by exists x].
  - intros x Hx Hb; destruct (Hkept x Hx Hb) as [?|[?|[Hb0 Hh]]]; [by left | by right |].
    destruct (Hk x Hx Hb0); auto.
Qed.

(** The active consumer leaves. *)
Lemma failover_recovery_spec id fd :
  fo_kept fd -> fo_active fd = Some id ->
  fo_kept (failover_remove_with_recovery s id fd).2 /\
  (id ∈ (consumer_id <$> fo_consumers fd) -> forall x, x ∈ ms ->
     behind (fo_position (failover_remove_with_recovery s id fd).2) x -> acked x = true).
Proof.
  intros [Hids Hr Hkn Hk] Hact; unfold failover_remove_with_recovery; rewrite bool_decide_true by done.
  pose proof (drain_consumer_spec id (fo_consumers fd)) as (Hi & Hh & Hp).
  destruct (drain_consumer id (fo_consumers fd)) as [pending cs]; cbn [fst snd] in *.
  set (fd1 := failover_init_read_position _ _).
  destruct (rewind_read_position_spec pending) as [Hr1 Hb1].
  { intros p Hin; destruct (Hp p Hin) as (c & m & Hc & Hm & ->).
    destruct (Hkn m) as (x & Hx & <-); [by exists c | by apply (pr_at _ _ _ _ Hs)]. }
  pose proof (failover_remove_consumer_spec id fd1) as Hrem; unfold fd1 in Hrem at 1; cbn in Hrem; rewrite Hi in Hrem.
  specialize (Hrem Hids); destruct (failover_remove_consumer id fd1) as [[c|] fd2].
  - destruct Hrem as [Hok Hpos]; destruct (sort_pick_kept _ _ _ Hok) as [[Hh3 Hi3] Hpos3]; cbn [snd].
    set (fd3 := (pick_and_schedule_active_consumer (sort_consumers fd2)).2) in *.
    assert (fo_position fd3 = rewind_read_position s pending) as Epos by (rewrite Hpos3, Hpos; done).
    split; [split; rewrite ?Epos; try done |].
    + intros m Hm; apply Hh3, Hh in Hm as (x & Hx & _ & Hm); apply Hkn; by exists x.
    + intros x Hx Hb; left; by apply Hb1.
    + intros _ x Hx; rewrite Epos; by apply Hb1.
  - destruct Hrem as [-> Hnot]; cbn [snd].
    split; [|done]; split; cbn; [by rewrite Hi | done | | intros x Hx Hb; left; by apply Hb1].
    intros m (c & Hc & Hm); destruct (proj1 (Hh m)) as (x & Hx & _ & Hm'); [|apply Hkn; by exists x].
    exists c; split_and!; [done | | done]; intros Heq; apply Hnot; rewrite <- Heq, <- Hi; by apply list_elem_of_fmap_2.
Qed.

(** A standby consumer leaves: the position does not move. *)
Lemma failover_standby_spec id fd :
  fo_kept fd -> fo_active fd <> Some id ->
  let fd' := (failover_remove_with_recovery s id fd).2 in
  fo_position fd' = fo_position fd /\ NoDup (consumer_id <$> fo_consumers fd') /\
  (forall m, fo_held fd' m <-> exists c, c ∈ fo_consumers fd /\ consumer_id c <> id /\ holds c m).
Proof.
  intros [Hids _ _ _] Hact; unfold failover_remove_with_recovery; rewrite bool_decide_false by done.
  pose proof (failover_remove_consumer_spec id fd Hids) as Hrem.
  destruct (failover_remove_consumer id fd) as [[c|] fd2]; cbn [snd].
  - destruct Hrem as [Hok Hpos]; destruct (sort_pick_kept _ _ _ Hok) as [[Hh3 Hi3] Hpos3]; cbn [snd].
    split_and!; [congruence | done | exact Hh3].
  - destruct Hrem as [-> Hnot]; split_and!; [done | done |]; intros m; unfold fo_held; split; [|naive_solver].
    intros (c & Hc & Hm); exists c; split_and!; [done | | done]; intros Heq; apply Hnot; rewrite <- Heq.
    by apply list_elem_of_fmap_2.
Qed.
(** A consumer joins. *)
Lemma failover_add_spec c fd fd' :
  fo_kept fd -> (forall m, ~ holds c m) -> failover_add_consumer c fd = Ok fd' -> fo_kept fd'.
Proof.
  intros [Hids Hr Hkn Hk] Hnone; unfold failover_add_consumer.
  destruct (existsb _ _) eqn:Ex; [done |]; set (fd1 := sort_consumers _).
  destruct (pick_spec fd1) as (Hsame & _ & Hpos & _); cbn zeta in *.
  set (fd2 := (pick_and_schedule_active_consumer fd1).2) in *.
  intros Hadd.
  assert (Forall2 same_consumer (fo_consumers fd2) (fo_consumers fd') /\ fo_position fd' = fo_position fd2) as [Hs2 Hp2].
  { unfold fd2; destruct (pick_and_schedule_active_consumer fd1) as [[] fd3]; cbn [snd]; [injection Hadd as <- |].
    - split; [apply same_refl | done].
    - destruct (fo_active fd3); injection Hadd as <-; (split; [|done]); [|apply same_refl].
      apply fmap_same; intros x; by destruct (consumer_id x =? _). }
  destruct (same_held _ _ Hsame) as [Hh1 Hi1], (same_held _ _ Hs2) as [Hh2 Hi2].
  pose proof (merge_sort_Permutation failover_before (fo_consumers fd ++ [c])) as Hperm.
  assert (forall m, fo_held fd' m <-> fo_held fd m) as Hheld.
  { intros m; unfold fo_held; rewrite Hh2, Hh1; unfold fd1; cbn; setoid_rewrite Hperm.
    setoid_rewrite elem_of_app; setoid_rewrite list_elem_of_singleton; naive_solver. }
  assert (fo_position fd' = fo_position fd) as Hp by (rewrite Hp2, Hpos; done).
  split; rewrite ?Hp; [|done | intros m Hm; by apply Hkn, Hheld |].
  - rewrite Hi2, Hi1; unfold fd1; cbn; rewrite Hperm, fmap_app; apply NoDup_app; split_and!; [done | | apply NoDup_singleton].
    intros i (x & -> & Hx)%list_elem_of_fmap; cbn; rewrite list_elem_of_singleton; intros Heq.
    assert (existsb (fun x => consumer_id x =? consumer_id c) (fo_consumers fd) = true); [|congruence].
    apply existsb_exists; exists x; split; [by apply list_elem_of_In | lia].
  - intros x Hx Hb; rewrite Hheld; by apply Hk.
Qed.

(** The operations on the dispatcher over one state of the store: a consumer with
    nothing pending joins, permits arrive, a dispatch runs, the active consumer
    leaves. *)
Inductive fo_run : FailoverDispatcher -> FailoverDispatcher -> Prop :=
  | fo_run_refl fd : fo_run fd fd
  | fo_run_add c fd fd1 fd2 :
      (forall m, ~ holds c m) -> failover_add_consumer c fd = Ok fd1 -> fo_run fd1 fd2 -> fo_run fd fd2
  | fo_run_flow id n fd fd2 : fo_run (failover_consumer_flow id n fd) fd2 -> fo_run fd fd2
  | fo_run_dispatch fd fd1 fd2 r fuel :
      failover_dispatch_messages fuel s fd = Some (r, fd1) -> (ss_size s < fuel)%nat -> fo_run fd1 fd2 -> fo_run fd fd2
  | fo_run_remove_active id fd fd2 :
      fo_active fd = Some id -> fo_run (failover_remove_with_recovery s id fd).2 fd2 -> fo_run fd fd2.

End kept.

Lemma failover_remove_active_kept {S E} `{SubscriptionStore S E} (s : S) ms acked readable id fd :
  presents s ms acked readable -> fo_kept ms acked readable fd -> fo_active fd = Some id ->
  fo_kept ms acked readable (failover_remove_with_recovery s id fd).2.
Proof. intros Hs Hk Ha; by apply (failover_recovery_spec s ms acked readable Hs). Qed.

Lemma fo_run_kept {S E} `{SubscriptionStore S E} `{MetadataDecoder} (s : S) ms acked readable fd fd' :
  presents s ms acked readable -> fo_kept ms acked readable fd -> fo_run s fd fd' -> fo_kept ms acked readable fd'.
Proof.
  intros Hs Hk Hrun.
  induction Hrun as [fd|c fd fd1 fd2 Hc Ha _ IH|id n fd fd2 _ IH|fd fd1 fd2 r fuel Hd Hf _ IH|id fd fd2 Ha _ IH].
  - done.
  - apply IH; by eapply failover_add_spec.
  - apply IH; unfold failover_consumer_flow; destruct (bool_decide _); [by destruct Hk | done].
  - destruct (failover_dispatch_step s ms acked readable Hs fuel fd) as (fd3 & Hd' & Hst); [apply Hk.. | done |].
    rewrite Hd in Hd'; injection Hd' as _ ->; apply IH; by eapply fo_kept_step.
  - apply IH; by apply failover_remove_active_kept.
Qed.

(** C10: Whatever consumers join, whatever permits arrive, however connections
    answer and whenever the active consumer leaves, a failover dispatcher forgets no
    message: every message behind the read position is acknowledged or held by a
    consumer; and every dispatch ends. *)
Theorem failover_keeps_messages {S E} `{SubscriptionStore S E} `{MetadataDecoder} (s : S) ms acked readable fd fd' :
  presents s ms acked readable -> fo_kept ms acked readable fd -> fo_run s fd fd' ->
  fo_kept ms acked readable fd' /\
  exists fd'', failover_dispatch_messages (Datatypes.S (ss_size s)) s fd' = Some (Ok tt, fd'') /\
    fo_kept ms acked readable fd''.
Proof.
  intros Hs Hk Hrun; pose proof (fo_run_kept s ms acked readable fd fd' Hs Hk Hrun) as Hk'; split; [done |].
  destruct (failover_dispatch_step s ms acked readable Hs (Datatypes.S (ss_size s)) fd') as (fd3 & Hd' & Hst);
    [apply Hk'.. | lia |].
  exists fd3; split; [done | by eapply fo_kept_step].
Qed.

(** Rounds of serving: permits arrive for a consumer, then a dispatch runs. *)
Fixpoint serve {S E} `{SubscriptionStore S E} `{MetadataDecoder} (s : S) (flows : list (Z * Z))
    (fd : FailoverDispatcher) : option FailoverDispatcher :=
  match flows with
  | [] => Some fd
  | (id, n) :: flows =>
      match failover_dispatch_messages (Datatypes.S (ss_size s)) s (failover_consumer_flow id n fd) with
      | Some (_, fd) => serve s flows fd
      | None => None
      end
  end.

(** When a consumer that is not the active one leaves, what only it held is
    lost: the read position has passed it and does not go back, so however many
    permits arrive and dispatches run afterwards, no consumer is sent such a message
    although it was never acknowledged. *)
Theorem failover_standby_removal_loses {S E} `{SubscriptionStore S E} `{MetadataDecoder} (s : S) ms acked readable
    fd id x flows :
  presents s ms acked readable -> fo_kept ms acked readable fd ->
  fo_active fd <> Some id -> x ∈ ms -> acked x = false -> behind (fo_position fd) x ->
  (forall c, c ∈ fo_consumers fd -> holds c (message_id x) -> consumer_id c = id) ->
  exists fd', serve s flows (failover_remove_with_recovery s id fd).2 = Some fd' /\
    behind (fo_position fd') x /\ ~ fo_held fd' (message_id x).
Proof.
  intros Hs Hk Hact Hx Hua Hb Honly; destruct (failover_standby_spec s ms acked readable id fd Hk Hact) as (Hpos & Hids & Hheld).
  set (fd0 := (failover_remove_with_recovery s id fd).2) in *.
  assert (~ fo_held fd0 (message_id x)) as Hn by (intros (c & Hc & Hne & Hm)%Hheld; by apply Hne, Honly).
  assert (rp_readable readable (fo_position fd0)) as Hr by (rewrite Hpos; apply Hk); rewrite <- Hpos in Hb.
  clearbody fd0; clear -Hs Hx Hb Hids Hn Hr; revert fd0 Hb Hids Hn Hr.
  induction flows as [|[i n] flows IH]; intros fd0 Hb Hids Hn Hr; cbn [serve]; [by exists fd0 |].
  set (fd1 := failover_consumer_flow i n fd0).
  assert (fo_consumers fd1 = fo_consumers fd0 /\ fo_position fd1 = fo_position fd0) as [Hc1 Hp1]
    by (unfold fd1, failover_consumer_flow; by destruct (bool_decide _)).
  destruct (failover_dispatch_step s ms acked readable Hs (Datatypes.S (ss_size s)) fd1) as (fd2 & -> & Hst);
    [by rewrite Hc1 | by rewrite Hp1 | lia |].
  apply IH; [apply (fs_forward _ _ _ _ _ Hst); by rewrite ?Hp1 | rewrite (fs_ids _ _ _ _ _ Hst); by rewrite Hc1 | |
    apply Hst].
  intros [(c & Hc & Hm)|(y & Hy & Hid & Hnb)]%(fs_new _ _ _ _ _ Hst); [apply Hn; exists c; by rewrite <- Hc1 |].
  apply Hnb; rewrite Hp1, (stored_id_inj s ms acked readable Hs y x Hy Hx Hid); done.
Qed.

(** C17: An exclusive consumer whose connection takes everything is sent exactly the
    next unacknowledged messages, in the order they were published and as many as it
    has permits for; its permits go down by as many and the read position stands
    before the rest. *)
Theorem single_active_in_order {S E} `{SubscriptionStore S E} `{MetadataDecoder} (s : S) ms acked readable xd c :
  presents s ms acked readable -> ex_consumer xd = Some c ->
  flowing ms acked readable (mkActive c (ex_permits xd) (ex_position xd)) ->
  let todo := unread ms acked (ex_position xd) in
  let n := Z.to_nat (ex_permits xd) in
  exists xd' c', exclusive_dispatch_messages (Datatypes.S (ss_size s)) s xd = Some (Ok tt, xd') /\
    ex_consumer xd' = Some c' /\
    delivered c' = delivered c ++ (as_sent <$> take n todo) /\
    unread ms acked (ex_position xd') = drop n todo /\
    ex_permits xd' = ex_permits xd - Z.of_nat (Nat.min n (length todo)) /\
    available_permits c' = ex_permits xd'.
Proof.
  intros Hs Hc Hf todo n; unfold exclusive_dispatch_messages; rewrite Hc.
  destruct (active_loop_flowing s ms acked readable Hs _ _ Hf (unread_bound s ms acked readable Hs _))
    as (st & -> & [Hf' Hrest Hp Hd]); cbn [ac_consumer ac_permits ac_position] in *; rewrite length_take in Hp.
  eexists _, _; split_and!; try reflexivity; [exact Hd | exact Hrest | exact Hp | exact (fl_permits _ _ _ _ Hf')].
Qed.

(** ** Witnesses *)

#[local] Existing Instance byte_metadata.

Definition example_standby (id level : Z) : Consumer :=
  set_permits 5 (consumer_new (mkInfo id "c" "conn" level None) [Slot; Slot; Slot; Slot; Slot; Slot]).

Lemma example_standby_empty id level m : ~ holds (example_standby id level) m.
Proof. unfold holds; cbn; rewrite lookup_empty; by intros []. Qed.

Lemma fo_kept_new ms acked readable : fo_kept ms acked readable failover_new.
Proof. split; cbn; [constructor | done | by intros m (c & ?%elem_of_nil & _) | done]. Qed.

(** Consumer 1 joins and is served, then consumer 2, of a greater level, joins. *)
Definition joined (c : Consumer) (fd : FailoverDispatcher) : FailoverDispatcher :=
  match failover_add_consumer c fd with Ok fd => fd | Err _ => fd end.
Definition served (fd : FailoverDispatcher) : FailoverDispatcher :=
  match failover_dispatch_messages (Datatypes.S (ss_size example_view)) example_view fd with
  | Some (_, fd) => fd
  | None => fd
  end.
Definition example_failover : FailoverDispatcher :=
  joined (example_standby 2 1) (served (joined (example_standby 1 0) failover_new)).

Lemma joined_run {S E} `{SubscriptionStore S E} (s : S) id level fd fd' :
  fo_run s (joined (example_standby id level) fd) fd' -> fo_run s fd fd'.
Proof.
  unfold joined; destruct (failover_add_consumer (example_standby id level) fd) as [fd1|] eqn:Ea; [|done].
  apply fo_run_add with (example_standby id level); [apply example_standby_empty | done].
Qed.

Lemma example_failover_run : fo_run example_view failover_new example_failover.
Proof.
  apply (joined_run example_view 1 0); unfold example_failover.
  set (fd1 := joined (example_standby 1 0) failover_new).
  assert (fo_run example_view (served fd1) (joined (example_standby 2 1) (served fd1))) as Hrun
    by (apply (joined_run example_view 2 1), fo_run_refl).
  unfold served at 1 in Hrun.
  destruct (failover_dispatch_messages (Datatypes.S (ss_size example_view)) example_view fd1) as [[r fd2]|] eqn:Ed;
    [|done].
  eapply fo_run_dispatch; [exact Ed | lia | exact Hrun].
Qed.

Lemma failover_active_is_greatest_level_witness :
  exists a, a ∈ [example_standby 1 0; example_standby 2 1] /\
    fo_active (joined (example_standby 2 1) (joined (example_standby 1 0) failover_new)) = Some (consumer_id a) /\
    forall x, x ∈ [example_standby 1 0; example_standby 2 1] -> priority_level x <= priority_level a.
Proof.
  destruct (failover_active_is_greatest_level (example_standby 2 1)
    (mkFailover [example_standby 1 0] None 0 None)
    (joined (example_standby 2 1) (mkFailover [example_standby 1 0] None 0 None))) as (a & Ha & Hact & Hmax);
    [by vm_compute |].
  exists a; split_and!; [exact Ha | | exact Hmax]; rewrite <- Hact; by vm_compute.
Defined.

Lemma failover_keeps_messages_witness : fo_kept example_messages example_acked example_readable example_failover.
Proof.
  apply (failover_keeps_messages example_view example_messages example_acked example_readable failover_new
    example_failover example_view_presents); [apply fo_kept_new | apply example_failover_run].
Defined.

Definition check_lost : bool :=
  negb (bool_decide (fo_active example_failover = Some 1)) &&
  negb (example_acked (example_message 2)) &&
  forallb (fun c => negb (bool_decide (is_Some (inner (pending_acks c) !! mkMsgId 0 2 (-1)))) || (consumer_id c =? 1))
    (fo_consumers example_failover) &&
  match fo_position example_failover with
  | Some p => msg_rank (example_message 2) <? cursor_key_rank p
  | None => false
  end.

Lemma lost_checked : check_lost = true.
Proof. by vm_compute. Qed.

Lemma failover_standby_removal_loses_witness :
  exists fd', serve example_view [(2, 10); (2, 10)] (failover_remove_with_recovery example_view 1 example_failover).2 =
      Some fd' /\ ~ fo_held fd' (mkMsgId 0 2 (-1)).
Proof.
  pose proof lost_checked as Hc; unfold check_lost in Hc.
  rewrite !andb_true_iff, !negb_true_iff in Hc; destruct Hc as [[[Hact Hua] Hall] Hb].
  destruct (failover_standby_removal_loses example_view example_messages example_acked example_readable example_failover 1
    (example_message 2) [(2, 10); (2, 10)] example_view_presents) as (fd' & H1 & _ & H3).
  - apply (fo_run_kept example_view _ _ _ failover_new); [apply example_view_presents | apply fo_kept_new |].
    apply example_failover_run.
  - by apply bool_decide_eq_false in Hact.
  - apply (list_elem_of_lookup_2 _ 2); by vm_compute.
  - exact Hua.
  - destruct (fo_position example_failover); [cbn; lia | done].
  - intros c Hc%list_elem_of_In Hm; rewrite forallb_forall in Hall; specialize (Hall c Hc).
    rewrite bool_decide_true in Hall by exact Hm; cbn in Hall; lia.
  - exists fd'; split; [exact H1 | exact H3].
Defined.

Definition example_exclusive : ExclusiveDispatcher := mkExclusive (Some (example_standby 1 0)) 5 None.

Lemma single_active_in_order_witness :
  exists xd' c', exclusive_dispatch_messages (Datatypes.S (ss_size example_view)) example_view example_exclusive =
      Some (Ok tt, xd') /\ ex_consumer xd' = Some c' /\
    delivered c' = as_sent <$> take 5 (unread example_messages example_acked None).
Proof.
  destruct (single_active_in_order example_view example_messages example_acked example_readable example_exclusive
    (example_standby 1 0) example_view_presents) as (xd' & c' & H1 & H2 & H3 & _).
  - reflexivity.
  - split; [reflexivity | cbn; by repeat (apply Forall_cons; split; [done |]) | | reflexivity | cbn; mlia | done].
    apply Nat.leb_le; by vm_compute.
  - exists xd', c'; split_and!; [exact H1 | exact H2 | exact H3].
Defined.
