(* ===== verification/Subscription.v ===== *)
(** * Subscriptions

    [broker/dispatcher/traits.rs] and [enums.rs]: what the four dispatchers have in
    common and the choice between them; [service/persistent/persistent_subscription.rs]
    and [service/topic/subscription.rs]: a persistent subscription, which owns a
    dispatcher and works on the cursor of the store; and the part of
    [service/consumer.rs] that handles acknowledgements.

    The code shares a consumer between its connection and the dispatcher; the
    model keeps it in the dispatcher and changes it there.  An operation runs
    without another one of the same subscription in between.  The store is the
    state [S] of an interface that adds the changes of the cursor to the reads. *)

From S2P Require Import Prelude Position MessageMap LedgerInfo RocksLedger StickyKey Consumer.
From S2P Require Import ReadPosition Redelivery SingleActive.
From S2P Require Dispatch SharedDispatcher KeyShared.

(** ** The dispatcher trait *)

Class Dispatcher (D : Type) := {
  get_type : D -> SubscriptionType;
  is_consumer_connected : D -> bool;
  get_consumers : D -> list Consumer;
  add_consumer : Consumer -> D -> result unit D;
  remove_consumer : Z -> D -> option Consumer * D;
  init_read_position : option ManagedLedgerPosition -> D -> D;
  reset_after_seek : option ManagedLedgerPosition -> D -> D;
  consumer_flow : Z -> Z -> D -> D;
  dispatch_messages {S E : Type} `{SubscriptionStore S E} `{MetadataDecoder} :
    S -> D -> option (result E unit * D);
  (** a change made through the shared reference to the consumer with this id *)
  update_consumer : Z -> (Consumer -> Consumer) -> D -> D;
}.

Definition ignore_error {E A} (r : result E A) : result unit A :=
  match r with Ok a => Ok a | Err _ => Err tt end.

Definition update_core (id : Z) (f : Consumer -> Consumer) (d : Dispatch.DispatchState) : Dispatch.DispatchState :=
  Dispatch.set_consumers (alter f id (Dispatch.consumers d)) d.

Definition update_list (id : Z) (f : Consumer -> Consumer) (cs : list Consumer) : list Consumer :=
  (fun c => if consumer_id c =? id then f c else c) <$> cs.

#[global] Instance exclusive_dispatcher : Dispatcher ExclusiveDispatcher := {|
  get_type _ := Exclusive;
  is_consumer_connected xd := bool_decide (ex_consumer xd <> None);
  get_consumers xd := option_list (ex_consumer xd);
  add_consumer := exclusive_add_consumer;
  remove_consumer := exclusive_remove_consumer;
  init_read_position := exclusive_init_read_position;
  reset_after_seek := exclusive_init_read_position;
  consumer_flow := exclusive_consumer_flow;
  dispatch_messages _ _ _ _ s xd := exclusive_dispatch_messages (Datatypes.S (ss_size s)) s xd;
  update_consumer id f xd :=
    mkExclusive ((fun c => if consumer_id c =? id then f c else c) <$> ex_consumer xd) (ex_permits xd) (ex_position xd);
|}.

#[global] Instance failover_dispatcher : Dispatcher FailoverDispatcher := {|
  get_type _ := Failover;
  is_consumer_connected fd := bool_decide (fo_consumers fd <> []);
  get_consumers := fo_consumers;
  add_consumer := failover_add_consumer;
  remove_consumer := failover_remove_consumer;
  init_read_position := failover_init_read_position;
  reset_after_seek := failover_init_read_position;
  consumer_flow := failover_consumer_flow;
  dispatch_messages _ _ _ _ s fd := failover_dispatch_messages (Datatypes.S (ss_size s)) s fd;
  update_consumer id f fd := set_fo_consumers (update_list id f (fo_consumers fd)) fd;
|}.

#[global] Instance shared_dispatcher : Dispatcher SharedDispatcher.SharedDispatcher := {|
  get_type _ := Shared;
  is_consumer_connected sd := bool_decide (Dispatch.consumers (SharedDispatcher.core sd) <> ∅);
  get_consumers := SharedDispatcher.ordered_consumers;
  add_consumer := SharedDispatcher.add_consumer;
  remove_consumer := SharedDispatcher.remove_consumer;
  init_read_position pos sd :=
    SharedDispatcher.set_core (Dispatch.set_read_position pos (SharedDispatcher.core sd)) sd;
  reset_after_seek pos sd :=
    SharedDispatcher.set_core (Dispatch.reset_after_seek pos (SharedDispatcher.core sd)) sd;
  consumer_flow _ := SharedDispatcher.consumer_flow;
  dispatch_messages _ _ _ _ s sd := SharedDispatcher.pass_loop (Datatypes.S (ss_size s)) s sd;
  update_consumer id f sd := SharedDispatcher.set_core (update_core id f (SharedDispatcher.core sd)) sd;
|}.

#[global] Instance key_shared_dispatcher : Dispatcher KeyShared.KeySharedDispatcher := {|
  get_type _ := KeyShared;
  is_consumer_connected kd := bool_decide (Dispatch.consumers (KeyShared.key_core kd) <> ∅);
  get_consumers kd := (map_to_list (Dispatch.consumers (KeyShared.key_core kd))).*2;
  add_consumer c kd := ignore_error (KeyShared.add_consumer c kd);
  remove_consumer := KeyShared.remove_consumer;
  init_read_position pos kd :=
    KeyShared.set_key_core (Dispatch.set_read_position pos (KeyShared.key_core kd)) kd;
  reset_after_seek pos kd :=
    KeyShared.set_key_core (Dispatch.reset_after_seek pos (KeyShared.key_core kd)) kd;
  consumer_flow := KeyShared.consumer_flow;
  dispatch_messages _ _ _ _ s kd := KeyShared.dispatch_messages (Datatypes.S (2 * ss_size s)) s kd;
  update_consumer id f kd := KeyShared.set_key_core (update_core id f (KeyShared.key_core kd)) kd;
|}.

(** ** The dispatcher of a subscription *)

Inductive DispatcherEnum :=
| DExclusive (d : ExclusiveDispatcher)
| DShared (d : SharedDispatcher.SharedDispatcher)
| DFailover (d : FailoverDispatcher)
| DKeyShared (d : KeyShared.KeySharedDispatcher).

Definition new_with_key_shared_policy (t : SubscriptionType) (policy : option KeySharedPolicy) : DispatcherEnum :=
  match t with
  | Exclusive => DExclusive exclusive_new
  | Shared => DShared SharedDispatcher.shared_new
  | Failover => DFailover failover_new
  | KeyShared => DKeyShared (KeyShared.key_shared_new policy)
  end.

(** The [match self] of the methods: a query, and an update of the dispatcher. *)
Definition query_enum {A} (f : forall D, Dispatcher D -> D -> A) (d : DispatcherEnum) : A :=
  match d with
  | DExclusive d => f _ _ d
  | DShared d => f _ _ d
  | DFailover d => f _ _ d
  | DKeyShared d => f _ _ d
  end.

Definition map_enum (f : forall D, Dispatcher D -> D -> D) (d : DispatcherEnum) : DispatcherEnum :=
  match d with
  | DExclusive d => DExclusive (f _ _ d)
  | DShared d => DShared (f _ _ d)
  | DFailover d => DFailover (f _ _ d)
  | DKeyShared d => DKeyShared (f _ _ d)
  end.

(** An update that also returns something. *)
Definition step_enum {M : Type -> Type} `{FMap M} (f : forall D, Dispatcher D -> D -> M D) (d : DispatcherEnum)
  : M DispatcherEnum :=
  match d with
  | DExclusive d => DExclusive <$> f _ _ d
  | DShared d => DShared <$> f _ _ d
  | DFailover d => DFailover <$> f _ _ d
  | DKeyShared d => DKeyShared <$> f _ _ d
  end.

#[local] Instance result_fmap {E} : FMap (result E) := fun A B f r =>
  match r with Ok a => Ok (f a) | Err e => Err e end.
#[local] Instance prod_fmap {A} : FMap (prod A) := fun B C f p => (p.1, f p.2).
#[local] Instance dispatch_fmap {E} : FMap (fun D => option (result E unit * D)) := fun A B f o =>
  match o with Some (r, d) => Some (r, f d) | None => None end.

#[global] Instance enum_dispatcher : Dispatcher DispatcherEnum := {|
  get_type := query_enum (fun D _ => get_type);
  is_consumer_connected := query_enum (fun D _ => is_consumer_connected);
  get_consumers := query_enum (fun D _ => get_consumers);
  add_consumer c := step_enum (M := result unit) (fun D _ => add_consumer c);
  remove_consumer id := step_enum (M := prod (option Consumer)) (fun D _ => remove_consumer id);
  init_read_position pos := map_enum (fun D _ => init_read_position pos);
  reset_after_seek pos := map_enum (fun D _ => reset_after_seek pos);
  consumer_flow id n := map_enum (fun D _ => consumer_flow id n);
  dispatch_messages _ E _ _ s :=
    step_enum (M := fun D => option (result E unit * D)) (fun D _ => dispatch_messages s);
  update_consumer id f := map_enum (fun D _ => update_consumer id f);
|}.

Definition get_consumer (id : Z) (d : DispatcherEnum) : option Consumer :=
  List.find (fun c => consumer_id c =? id) (get_consumers d).

Definition enum_active_consumer (d : DispatcherEnum) : option Consumer :=
  match d with
  | DFailover d => get_active_consumer d
  | DExclusive d => head (get_consumers d)
  | DShared _ | DKeyShared _ => None
  end.

Definition redeliver_messages (es : list RedeliveryEntry) (d : DispatcherEnum) : DispatcherEnum :=
  match d with
  | DShared d =>
      DShared (SharedDispatcher.set_core (Dispatch.add_redelivery_entries es (SharedDispatcher.core d)) d)
  | DKeyShared d =>
      DKeyShared (KeyShared.set_key_core (Dispatch.add_redelivery_entries es (KeyShared.key_core d)) d)
  | DExclusive _ | DFailover _ => d
  end.

Definition enum_message_acknowledged (m : MessageId) (d : DispatcherEnum) : DispatcherEnum :=
  match d with
  | DShared d =>
      DShared (SharedDispatcher.set_core (Dispatch.on_message_acknowledged m (SharedDispatcher.core d)) d)
  | DKeyShared d =>
      DKeyShared (KeyShared.set_key_core (Dispatch.on_message_acknowledged m (KeyShared.key_core d)) d)
  | DExclusive _ | DFailover _ => d
  end.

Section enum_store.
Context {S E : Type} `{SubscriptionStore S E}.

Definition enum_remove_with_recovery (s : S) (id : Z) (d : DispatcherEnum) : option Consumer * DispatcherEnum :=
  match d with
  | DShared d => DShared <$> SharedDispatcher.remove_consumer_with_recovery id d
  | DExclusive d => DExclusive <$> exclusive_remove_consumer id d
  | DFailover d => DFailover <$> failover_remove_with_recovery s id d
  | DKeyShared d => DKeyShared <$> KeyShared.remove_consumer_with_recovery id d
  end.

Definition enum_ack_state_updated (s : S) (d : DispatcherEnum) : result E unit * DispatcherEnum :=
  match d with
  | DShared d =>
      (fun k => DShared (SharedDispatcher.set_core k d)) <$>
      Dispatch.on_ack_state_updated s (SharedDispatcher.core d)
  | DKeyShared d =>
      (fun k => DKeyShared (KeyShared.set_key_core k d)) <$>
      Dispatch.on_ack_state_updated s (KeyShared.key_core d)
  | DExclusive _ | DFailover _ => (Ok tt, d)
  end.
End enum_store.

(** ** The persistent runtime *)

Record PersistentSubscriptionRuntime := mkRuntime {
  rt_sub_type : SubscriptionType;
  rt_key_shared_policy : option KeySharedPolicy;
  dispatcher : option DispatcherEnum;
  pending_first_unacked : option (option ManagedLedgerPosition);
}.

Definition runtime_new (t : SubscriptionType) (policy : option KeySharedPolicy) : PersistentSubscriptionRuntime :=
  mkRuntime t policy None None.

Definition set_dispatcher (d : option DispatcherEnum) (rt : PersistentSubscriptionRuntime)
  : PersistentSubscriptionRuntime :=
  mkRuntime (rt_sub_type rt) (rt_key_shared_policy rt) d (pending_first_unacked rt).

Definition set_pending_first_unacked (pos : option ManagedLedgerPosition) (rt : PersistentSubscriptionRuntime)
  : PersistentSubscriptionRuntime :=
  mkRuntime (rt_sub_type rt) (rt_key_shared_policy rt) (dispatcher rt) (Some pos).

#[global] Instance subscription_type_eq_dec : EqDecision SubscriptionType.
Proof. solve_decision. Defined.

Definition reuse_or_create_dispatcher (rt : PersistentSubscriptionRuntime) : PersistentSubscriptionRuntime :=
  let needs_recreate :=
    match dispatcher rt with
    | Some d => negb (is_consumer_connected d) && negb (bool_decide (get_type d = rt_sub_type rt))
    | None => false
    end in
  let rt := if needs_recreate then set_dispatcher None rt else rt in
  match dispatcher rt with
  | Some _ => rt
  | None => set_dispatcher (Some (new_with_key_shared_policy (rt_sub_type rt) (rt_key_shared_policy rt))) rt
  end.

(** The pending position is taken before the consumer is added, also when adding
    it fails. *)
Definition runtime_add_consumer (c : Consumer) (rt : PersistentSubscriptionRuntime)
  : result unit unit * PersistentSubscriptionRuntime :=
  let rt := reuse_or_create_dispatcher rt in
  let d := match pending_first_unacked rt with
           | Some pos => init_read_position pos <$> dispatcher rt
           | None => dispatcher rt
           end in
  let rt := mkRuntime (rt_sub_type rt) (rt_key_shared_policy rt) d None in
  match dispatcher rt with
  | None => (Err tt, rt)
  | Some d =>
      match add_consumer c d with
      | Ok d => (Ok tt, set_dispatcher (Some d) rt)
      | Err e => (Err e, rt)
      end
  end.

Definition runtime_remove_consumer (id : Z) (rt : PersistentSubscriptionRuntime)
  : option Consumer * PersistentSubscriptionRuntime :=
  match dispatcher rt with
  | None => (None, rt)
  | Some d =>
      let '(c, d) := remove_consumer id d in
      (c, set_dispatcher (if is_consumer_connected d then Some d else None) rt)
  end.

Definition runtime_reset_after_seek (pos : option ManagedLedgerPosition) (rt : PersistentSubscriptionRuntime)
  : PersistentSubscriptionRuntime :=
  set_dispatcher (reset_after_seek pos <$> dispatcher rt) rt.

Definition runtime_message_acknowledged (m : MessageId) (rt : PersistentSubscriptionRuntime)
  : PersistentSubscriptionRuntime :=
  set_dispatcher (enum_message_acknowledged m <$> dispatcher rt) rt.

Definition apply_flow_permits (id n : Z) (rt : PersistentSubscriptionRuntime) : PersistentSubscriptionRuntime :=
  set_dispatcher (consumer_flow id n <$> dispatcher rt) rt.

Definition runtime_get_consumers (rt : PersistentSubscriptionRuntime) : list Consumer :=
  from_option get_consumers [] (dispatcher rt).

Definition runtime_get_consumer (id : Z) (rt : PersistentSubscriptionRuntime) : option Consumer :=
  dispatcher rt ≫= get_consumer id.

Definition runtime_update_consumer (id : Z) (f : Consumer -> Consumer) (rt : PersistentSubscriptionRuntime)
  : PersistentSubscriptionRuntime :=
  set_dispatcher (update_consumer id f <$> dispatcher rt) rt.

(** Where the consumers of a subscription live, for the code that works on the
    consumers of either runtime. *)
Class ConsumerHome (R : Type) := {
  home_consumer : Z -> R -> option Consumer;
  home_consumers : R -> list Consumer;
  home_update : Z -> (Consumer -> Consumer) -> R -> R;
}.

#[global] Instance runtime_home : ConsumerHome PersistentSubscriptionRuntime := {|
  home_consumer := runtime_get_consumer;
  home_consumers := runtime_get_consumers;
  home_update := runtime_update_consumer;
|}.

Section runtime_store.
Context {S E : Type} `{SubscriptionStore S E} `{MetadataDecoder}.

Definition runtime_dispatch_messages (s : S) (rt : PersistentSubscriptionRuntime)
  : option (result E unit * PersistentSubscriptionRuntime) :=
  match dispatcher rt with
  | None => Some (Ok tt, rt)
  | Some d =>
      match dispatch_messages s d with
      | Some (r, d) => Some (r, set_dispatcher (Some d) rt)
      | None => None
      end
  end.

(** A dispatch whose error is logged. *)
Definition dispatch_and_log (s : S) (rt : PersistentSubscriptionRuntime) : option PersistentSubscriptionRuntime :=
  snd <$> runtime_dispatch_messages s rt.

Definition is_shared_type (t : SubscriptionType) : bool :=
  match t with Shared | KeyShared => true | Exclusive | Failover => false end.

Definition runtime_remove_with_recovery (s : S) (id : Z) (rt : PersistentSubscriptionRuntime)
  : option (option Consumer * PersistentSubscriptionRuntime) :=
  match dispatcher rt with
  | None => Some (None, rt)
  | Some d =>
      let '(c, d) := enum_remove_with_recovery s id d in
      match dispatch_and_log s (set_dispatcher (Some d) rt) with
      | None => None
      | Some rt =>
          Some (c, match dispatcher rt with
                   | Some d =>
                       if negb (is_consumer_connected d) && negb (is_shared_type (get_type d))
                       then set_dispatcher None rt else rt
                   | None => rt
                   end)
      end
  end.

Definition runtime_ack_state_updated (s : S) (rt : PersistentSubscriptionRuntime)
  : result E unit * PersistentSubscriptionRuntime :=
  match dispatcher rt with
  | None => (Ok tt, rt)
  | Some d => let '(r, d) := enum_ack_state_updated s d in (r, set_dispatcher (Some d) rt)
  end.

Definition runtime_redeliver_messages (s : S) (es : list RedeliveryEntry) (rt : PersistentSubscriptionRuntime)
  : option PersistentSubscriptionRuntime :=
  match dispatcher rt with
  | None => Some rt
  | Some d => dispatch_and_log s (set_dispatcher (Some (redeliver_messages es d)) rt)
  end.

Definition runtime_consumer_flow (s : S) (id n : Z) (rt : PersistentSubscriptionRuntime)
  : option PersistentSubscriptionRuntime :=
  dispatch_and_log s (apply_flow_permits id n rt).
End runtime_store.

(** ** Acknowledgements of a consumer *)

Section acks.
Context {R : Type} `{ConsumerHome R}.

(** Who holds the message a consumer acknowledges: the consumer itself, under this
    id or one of the same position, or another consumer of the subscription. *)
Definition owned_by (m : MessageId) (c : Consumer) : option (Z * MessageId) :=
  if has_pending_ack m c then Some (consumer_id c, m)
  else pair (consumer_id c) <$> find_pending_ack_by_position (ledger m) (entry m) c.

Fixpoint first_owner (m : MessageId) (cs : list Consumer) : option (Z * MessageId) :=
  match cs with
  | [] => None
  | c :: cs => match owned_by m c with Some o => Some o | None => first_owner m cs end
  end.

Definition resolve_ack_owner (self : Z) (m : MessageId) (rt : R) : option (Z * MessageId) :=
  match home_consumer self rt ≫= owned_by m with
  | Some o => Some o
  | None => first_owner m (filter (fun c => consumer_id c <> self) (home_consumers rt))
  end.

(** The consumer lets go of the message and counts it. *)
Definition settle_ack (m : MessageId) (c : Consumer) : Consumer :=
  match remove_pending_ack m c with
  | (true, c) => record_message_acked c
  | (false, c) => c
  end.

(** The messages of a shared acknowledgement somebody holds, taken from their
    holders. *)
Fixpoint take_owned (self : Z) (ids : list MessageId) (rt : R)
  : list MessageId * R :=
  match ids with
  | [] => ([], rt)
  | m :: ids =>
      match resolve_ack_owner self m rt with
      | None => take_owned self ids rt
      | Some (owner, tracked) =>
          let '(acked, rt) := take_owned self ids (home_update owner (settle_ack tracked) rt) in
          (tracked :: acked, rt)
      end
  end.

(** The messages of an exclusive acknowledgement: with an individual one, those
    the consumer holds. *)
Fixpoint take_own (self : Z) (ack_type : AckCommandType) (ids : list MessageId) (rt : R)
  : list MessageId * R :=
  match ids with
  | [] => ([], rt)
  | m :: ids =>
      match ack_type with
      | Cumulative =>
          let '(acked, rt) := take_own self ack_type ids (home_update self record_message_acked rt) in
          (m :: acked, rt)
      | Individual =>
          if from_option (has_pending_ack m) false (home_consumer self rt) then
            let '(acked, rt) := take_own self ack_type ids (home_update self (settle_ack m) rt) in
            (m :: acked, rt)
          else take_own self ack_type ids rt
      end
  end.
End acks.

(** ** The subscription *)

(** What a subscription needs of the store besides the reads: the changes of its
    cursor, and two queries. *)
Class CursorStore (S E : Type) `{SubscriptionStore S E} := {
  cs_ack_message : S -> MessageId -> result E unit * S;
  cs_ack_message_shared : S -> MessageId -> result E unit * S;
  cs_seek_cursor : S -> MessageId -> bool -> result E unit * S;
  cs_delete_cursor : S -> result E unit * S;
  cs_find_message_id_by_publish_time : S -> Z -> result E (option MessageId);
  cs_get_last_position : S -> result E (option ManagedLedgerPosition);
}.

Inductive sub_error (E : Type) :=
| StorageError (e : E)
| UnknownConsumer (id : Z)
| NoMessageAtTime (t : Z).
Arguments StorageError {E} _.
Arguments UnknownConsumer {E} _.
Arguments NoMessageAtTime {E} _.

Section subscription.
Context {S E : Type} `{CursorStore S E} `{MetadataDecoder}.

(** A persistent subscription with the store it works on. *)
Record Subscription := mkSubscription {
  sub_store : S;
  runtime : PersistentSubscriptionRuntime;
}.

Implicit Types sub : Subscription.

Definition sub_type sub : SubscriptionType := rt_sub_type (runtime sub).
Definition with_runtime (f : PersistentSubscriptionRuntime -> PersistentSubscriptionRuntime) sub : Subscription :=
  mkSubscription (sub_store sub) (f (runtime sub)).
Definition with_store (s : S) sub : Subscription := mkSubscription s (runtime sub).

Definition sub_result (A : Type) : Type := result (sub_error E) A.

Definition sub_add_consumer (c : Consumer) sub : result unit unit * Subscription :=
  let '(r, rt) := runtime_add_consumer c (runtime sub) in (r, mkSubscription (sub_store sub) rt).

(** A consumer disconnects. *)
Definition sub_remove_with_recovery (id : Z) sub : option Subscription :=
  (fun r => mkSubscription (sub_store sub) r.2) <$> runtime_remove_with_recovery (sub_store sub) id (runtime sub).

Definition unsubscribe_consumer (id : Z) sub : option (sub_result unit * Subscription) :=
  match sub_remove_with_recovery id sub with
  | None => None
  | Some sub =>
      match cs_delete_cursor (sub_store sub) with
      | (Ok _, s) => Some (Ok tt, with_store s sub)
      | (Err e, s) => Some (Err (StorageError e), with_store s sub)
      end
  end.

(** Flow: the permits go to the consumer and to the dispatcher ... *)
Definition sub_apply_flow (id n : Z) sub : Subscription :=
  with_runtime (fun rt => apply_flow_permits id n (runtime_update_consumer id (add_permits n) rt)) sub.

(** ... and then messages are dispatched. *)
Definition sub_flow (id n : Z) sub : option Subscription :=
  (fun rt => mkSubscription (sub_store sub) rt) <$>
  runtime_consumer_flow (sub_store sub) id n (runtime_update_consumer id (add_permits n) (runtime sub)).

Definition sub_dispatch_messages sub : option (result E unit * Subscription) :=
  (fun r => (r.1, mkSubscription (sub_store sub) r.2)) <$> runtime_dispatch_messages (sub_store sub) (runtime sub).

(** *** Seek *)

Definition drop_pending (c : Consumer) : Consumer := (drain_pending_acks c).2.

Definition drain_all (rt : PersistentSubscriptionRuntime) : PersistentSubscriptionRuntime :=
  foldl (fun rt c => runtime_update_consumer (consumer_id c) drop_pending rt) rt (runtime_get_consumers rt).

Definition seek_to_message_id (m : MessageId) sub : sub_result unit * Subscription :=
  match cs_seek_cursor (sub_store sub) m (is_shared_type (sub_type sub)) with
  | (Err e, s) => (Err (StorageError e), with_store s sub)
  | (Ok _, s) =>
      match ss_first_unacked_position s with
      | Err e => (Err (StorageError e), with_store s sub)
      | Ok first =>
          (Ok tt, with_runtime (fun rt => drain_all (runtime_reset_after_seek first rt)) (with_store s sub))
      end
  end.

Definition seek_by_publish_time (t : Z) sub : sub_result unit * Subscription :=
  match cs_find_message_id_by_publish_time (sub_store sub) t with
  | Err e => (Err (StorageError e), sub)
  | Ok None => (Err (NoMessageAtTime t), sub)
  | Ok (Some m) => seek_to_message_id m sub
  end.

Definition get_last_message_id sub : sub_result (option MessageId) :=
  match cs_get_last_position (sub_store sub) with
  | Ok p => Ok (message_id_of_position <$> p)
  | Err e => Err (StorageError e)
  end.

(** *** Acknowledgements *)

Fixpoint ack_all_shared (ids : list MessageId) (s : S) : result E unit * S :=
  match ids with
  | [] => (Ok tt, s)
  | m :: ids =>
      match cs_ack_message_shared s m with
      | (Ok _, s) => ack_all_shared ids s
      | (Err e, s) => (Err e, s)
      end
  end.

Definition notify_acked (ids : list MessageId) (rt : PersistentSubscriptionRuntime) : PersistentSubscriptionRuntime :=
  foldl (fun rt m => runtime_message_acknowledged m rt) rt ids.

Definition acknowledge_message (ids : list MessageId) (ack_type : AckCommandType) sub
  : sub_result unit * Subscription :=
  match ids with
  | [] => (Ok tt, sub)
  | _ :: _ =>
      match is_shared_type (sub_type sub), ack_type with
      | true, Cumulative => (Ok tt, sub)
      | shared, Individual =>
          match ack_all_shared ids (sub_store sub) with
          | (Err e, s) => (Err (StorageError e), with_store s sub)
          | (Ok _, s) =>
              let sub := with_runtime (notify_acked ids) (with_store s sub) in
              if shared : bool then
                match runtime_ack_state_updated s (runtime sub) with
                | (Ok _, rt) => (Ok tt, mkSubscription s rt)
                | (Err e, rt) => (Err (StorageError e), mkSubscription s rt)
                end
              else (Ok tt, sub)
          end
      | false, Cumulative =>
          match last ids with
          | None => (Ok tt, sub)
          | Some m =>
              match cs_ack_message (sub_store sub) m with
              | (Err e, s) => (Err (StorageError e), with_store s sub)
              | (Ok _, s) => (Ok tt, with_runtime (runtime_message_acknowledged m) (with_store s sub))
              end
          end
      end
  end.

(** [Consumer::message_acked] of the consumer [self]. *)
Definition message_acked (self : Z) (ack_type : AckCommandType) (ids : list MessageId) sub
  : sub_result unit * Subscription :=
  match ids with
  | [] => (Ok tt, sub)
  | _ :: _ =>
      if is_shared_type (sub_type sub) then
        match ack_type with
        | Cumulative => (Ok tt, sub)
        | Individual =>
            let '(acked, rt) := take_owned self ids (runtime sub) in
            let sub := mkSubscription (sub_store sub) rt in
            match acked with
            | [] => (Ok tt, sub)
            | _ :: _ => acknowledge_message acked ack_type sub
            end
        end
      else
        let '(acked, rt) := take_own self ack_type ids (runtime sub) in
        let sub := mkSubscription (sub_store sub) rt in
        match acked with
        | [] => (Ok tt, sub)
        | _ :: _ => acknowledge_message acked ack_type sub
        end
  end.

(** *** Redelivery *)

Definition redelivery_of (x : MessageId * PendingAck) : RedeliveryEntry :=
  mkRedelivery x.1 (wrap_u32 (pa_redelivery_count x.2 + 1)) (pa_sticky_key_hash x.2).

(** The requested ones of what the consumer holds, taken from it. *)
Fixpoint take_pending (ids : list MessageId) (c : Consumer) : list RedeliveryEntry * Consumer :=
  match ids with
  | [] => ([], c)
  | m :: ids =>
      match take_pending_ack_for_redelivery m c with
      | (Some a, c) => let '(es, c) := take_pending ids c in (redelivery_of (m, a) :: es, c)
      | (None, c) => take_pending ids c
      end
  end.

Definition take_for_redelivery (ids : list MessageId) (c : Consumer) : list RedeliveryEntry * Consumer :=
  match ids with
  | [] => let '(drained, c) := drain_pending_acks c in (redelivery_of <$> drained, c)
  | _ :: _ => take_pending ids c
  end.

(** The ones not acknowledged. *)
Fixpoint unacked_entries (s : S) (es : list RedeliveryEntry) : result E (list RedeliveryEntry) :=
  match es with
  | [] => Ok []
  | e :: es =>
      match ss_is_acknowledged s (re_message_id e) with
      | Err err => Err err
      | Ok b =>
          match unacked_entries s es with
          | Err err => Err err
          | Ok l => Ok (if b : bool then l else e :: l)
          end
      end
  end.

Definition redeliver_unacknowledged_messages (id : Z) (ids : list MessageId) sub
  : option (sub_result unit * Subscription) :=
  if negb (is_shared_type (sub_type sub)) then Some (Ok tt, sub)
  else
    match runtime_get_consumer id (runtime sub) with
    | None => Some (Err (UnknownConsumer id), sub)
    | Some c =>
        let '(redeliver, c) := take_for_redelivery ids c in
        let sub := with_runtime (runtime_update_consumer id (fun _ => c)) sub in
        match redeliver with
        | [] => Some (Ok tt, sub)
        | _ :: _ =>
            match unacked_entries (sub_store sub) redeliver with
            | Err e => Some (Err (StorageError e), sub)
            | Ok [] => Some (Ok tt, sub)
            | Ok dispatchable =>
                match runtime_redeliver_messages (sub_store sub) dispatchable (runtime sub) with
                | Some rt => Some (Ok tt, mkSubscription (sub_store sub) rt)
                | None => None
                end
            end
        end
    end.
End subscription.
