(* ===== verification/DurableCursor.v ===== *)
(** * The cursor of a subscription

    What a subscription relies on of its cursor when it acknowledges and seeks, as
    an interface, and the proof that the cursors of both stores keep it. *)

From S2P Require Import Prelude Position BTree RangeSet Cursor CursorRead LedgerInfo MetadataCodec.
From S2P Require Import Text EntryLog Keys RocksLedger ReadPosition StickyKey StorageService Subscription.
From S2P Require MemoryStore RocksStore.
Import MemoryStore (store_wf, is_acknowledged_inner, mem_messages, mem_get_message_entries, stored_message,
  mem_ack_message_shared, mem_seek_cursor, cursors, subscription_cursors).
Import RocksStore (Rocks, topic_holds, cursor_stored, mark_ok, unacked, cursor_pos).

(** [durable s ms acked readable]: the store presents the messages, and its cursor
    is one on which individual acknowledgements and seeks work. *)
Class DurableCursor (S E : Type) `{CursorStore S E} := {
  durable : S -> list StoredMessage -> (StoredMessage -> bool) -> (ManagedLedgerPosition -> Prop) -> Prop;
  durable_presents s ms acked readable : durable s ms acked readable -> presents s ms acked readable;
  durable_upto s ms acked readable p : durable s ms acked readable -> readable p -> upto ms p;
  durable_ack s ms acked readable x :
    durable s ms acked readable -> x ∈ ms ->
    exists s' acked', cs_ack_message_shared s (message_id x) = (Ok tt, s') /\ durable s' ms acked' readable /\
      forall y, y ∈ ms -> acked' y = true <-> y = x \/ acked y = true;
  durable_seek s ms acked readable x :
    durable s ms acked readable -> x ∈ ms ->
    exists s' acked', cs_seek_cursor s (message_id x) true = (Ok tt, s') /\ durable s' ms acked' readable /\
      forall y, y ∈ ms -> acked' y = (msg_rank y <? msg_rank x);
}.

#[global] Instance view_cursor_store {bytes : Type} `{DbCodec bytes} `{MetadataDecoder}
  : CursorStore (SubscriptionView bytes) ledger_error :=
  let change (v : SubscriptionView bytes) (op : backend_op (bytes := bytes) unit) :=
    let '(r, st) := op (sv_store v) in (r, mkView (sv_clock v) st (sv_topic v) (sv_subscription v)) in
  {|
  cs_ack_message v m := change v (ack_message (sv_clock v) (sv_topic v) (sv_subscription v) m);
  cs_ack_message_shared v m := change v (ack_message_shared (sv_clock v) (sv_topic v) (sv_subscription v) m);
  cs_seek_cursor v m shared := change v (seek_cursor (sv_clock v) (sv_topic v) (sv_subscription v) m shared);
  cs_delete_cursor v := change v (delete_cursor (sv_topic v) (sv_subscription v));
  cs_find_message_id_by_publish_time v t :=
    Ok (find_message_id_by_publish_time (sv_clock v) (sv_topic v) t (sv_store v));
  cs_get_last_position v := (get_last_position (sv_clock v) (sv_topic v) (sv_store v)).1;
  |}.

(** ** In memory *)

(** The subscription has a shared cursor, or nothing was acknowledged. *)
Definition mem_shared_cursor (st : MemoryStore.InMemoryManagedLedgerStorage) (topic sub : string) : Prop :=
  is_Some (subscription_cursors st !! cursor_subscription_key topic sub) \/
  cursors st !! cursor_subscription_key topic sub = None.

Definition mem_durable (st : MemoryStore.InMemoryManagedLedgerStorage) (topic sub : string)
    (ms : list StoredMessage) (acked : StoredMessage -> bool) (readable : ManagedLedgerPosition -> Prop) : Prop :=
  store_wf st /\ Z.of_nat (length (mem_messages st topic)) <= I64_MAX /\ mem_shared_cursor st topic sub /\
  ms = mem_get_message_entries st topic /\
  (forall x, x ∈ ms -> acked x = is_acknowledged_inner st topic sub (message_id x)) /\
  readable = fun p => u64_ok (entry_id p) /\ upto ms p.

Lemma mem_message_index st topic x :
  store_wf st -> Z.of_nat (length (mem_messages st topic)) <= I64_MAX -> x ∈ mem_get_message_entries st topic ->
  exists i d, mem_messages st topic !! i = Some (message_id x, d) /\ entry (message_id x) = Z.of_nat i /\
    0 <= entry (message_id x) < U64_MAX.
Proof.
  intros Hst Hlen (m & -> & (i & Hi)%list_elem_of_lookup)%list_elem_of_fmap.
  destruct (MemoryStore.mem_messages_indexed st topic Hst) as [lid Hidx], (Hidx i m Hi) as [_ He].
  destruct m as [id d]; cbn in *; exists i, d; split_and!; [done | done | lia |].
  apply lookup_lt_Some in Hi; mlia.
Qed.

Lemma mem_rank_entry st topic x y :
  store_wf st -> x ∈ mem_get_message_entries st topic -> y ∈ mem_get_message_entries st topic ->
  msg_rank x - msg_rank y = entry (message_id x) - entry (message_id y).
Proof.
  intros Hst (m & -> & (i & Hi)%list_elem_of_lookup)%list_elem_of_fmap (k & -> & (j & Hj)%list_elem_of_lookup)%list_elem_of_fmap.
  destruct (MemoryStore.mem_messages_indexed st topic Hst) as [lid Hidx].
  destruct (Hidx i m Hi) as [Hl1 _], (Hidx j k Hj) as [Hl2 _].
  unfold msg_rank, pair_rank, cursor_key_rank; cbn; rewrite Hl1, Hl2; lia.
Qed.

Lemma mem_same_entry st topic x y :
  store_wf st -> x ∈ mem_get_message_entries st topic -> y ∈ mem_get_message_entries st topic ->
  entry (message_id x) = entry (message_id y) -> x = y.
Proof.
  intros Hst (m & -> & (i & Hi)%list_elem_of_lookup)%list_elem_of_fmap (k & -> & (j & Hj)%list_elem_of_lookup)%list_elem_of_fmap Heq.
  destruct (MemoryStore.mem_messages_indexed st topic Hst) as [lid Hidx].
  destruct (Hidx i m Hi) as [_ He1], (Hidx j k Hj) as [_ He2]; cbn in Heq.
  assert (i = j) as -> by lia; congruence.
Qed.

Lemma mem_ack_durable st topic sub ms acked readable x :
  mem_durable st topic sub ms acked readable -> x ∈ ms ->
  let st' := mem_ack_message_shared st topic sub (message_id x) in
  let acked' y := is_acknowledged_inner st' topic sub (message_id y) in
  mem_durable st' topic sub ms acked' readable /\ forall y, y ∈ ms -> acked' y = true <-> y = x \/ acked y = true.
Proof.
  intros (Hst & Hlen & Hsh & -> & Hac & ->) Hx; cbn zeta.
  set (key := cursor_subscription_key topic sub); set (st' := mem_ack_message_shared st topic sub (message_id x)).
  set (c := default default_cursor (subscription_cursors st !! key)).
  destruct (mem_message_index st topic x Hst Hlen Hx) as (i & d & Hi & Hent & Hrange).
  assert (cursor_wf c) as Hc.
  { unfold c; destruct (subscription_cursors st !! key) as [c0|] eqn:E; [by apply (MemoryStore.sw_cursor st Hst key) |].
    apply default_cursor_wf. }
  assert (subscription_cursors st' !! key = Some (ack_shared c (entry (message_id x))).1) as Hk'
    by (cbn; by rewrite lookup_insert_eq).
  destruct (ack_shared_spec c (entry (message_id x)) Hc Hrange) as (Hc' & Hacked & _).
  assert (store_wf st') as Hst'.
  { destruct Hst; split; try done; intros k0 c0; cbn; intros [[<- <-]|[_ ?]]%lookup_insert_Some; [done | eauto]. }
  split; [split_and!; try done; left; eexists; exact Hk' |].
  intros y Hy; destruct (mem_message_index st topic y Hst Hlen Hy) as (j & d' & Hj & Hej & Hry).
  rewrite (Hac y Hy); unfold is_acknowledged_inner; cbn zeta; fold key; rewrite Hk'.
  rewrite is_message_acknowledged_acked by (done || mlia); rewrite Hacked by mlia.
  assert (match subscription_cursors st !! key with
          | Some shared => is_message_acknowledged (Some shared) (entry (message_id y))
          | None => let mark := default U64_MAX (cursors st !! key) in
                    negb (mark =? U64_MAX) && (entry (message_id y) <=? mark)
          end = true <-> Cursor.acked c (entry (message_id y))) as ->.
  { unfold c; destruct (subscription_cursors st !! key) as [c0|] eqn:E; cbn [default].
    - rewrite is_message_acknowledged_acked; [done | | mlia]; by apply (MemoryStore.sw_cursor st Hst key).
    - destruct Hsh as [[? Hk]|Hk]; [fold key in Hk; congruence |]; fold key in Hk; rewrite Hk; cbn.
      split; [done |]; intros Ha; exfalso; revert Ha; apply acked_default; mlia. }
  split; intros [?|?]; auto; left; [by apply (mem_same_entry st topic) | by subst].
Qed.

Lemma mem_seek_durable st topic sub ms acked readable x :
  mem_durable st topic sub ms acked readable -> x ∈ ms ->
  let st' := mem_seek_cursor st topic sub (message_id x) true in
  let acked' y := is_acknowledged_inner st' topic sub (message_id y) in
  mem_durable st' topic sub ms acked' readable /\ forall y, y ∈ ms -> acked' y = (msg_rank y <? msg_rank x).
Proof.
  intros (Hst & Hlen & _ & -> & _ & ->) Hx; cbn zeta.
  destruct (mem_message_index st topic x Hst Hlen Hx) as (i & d & Hi & Hent & Hrange).
  pose proof (MemoryStore.seek_previous _ _ _ _ (MemoryStore.mem_messages_indexed st topic Hst) Hi) as Hprev.
  assert (store_wf (mem_seek_cursor st topic sub (message_id x) true)) as Hst'.
  { destruct Hst; split; try done; intros k0 c0; cbn; intros [[<- <-]|[_ ?]]%lookup_insert_Some; [|eauto].
    rewrite Hprev; split; cbn; [apply rs_wf_nil | destruct i; cbn; [done | lia] | destruct i; cbn; mlia | set_solver]. }
  split.
  - split_and!; try done; left; eexists; cbn; by rewrite lookup_insert_eq.
  - intros y Hy; destruct (mem_message_index st topic y Hst Hlen Hy) as (j & d' & Hj & Hej & Hry).
    rewrite (MemoryStore.seek_is_acknowledged st topic sub true i _ d) by (done || mlia).
    pose proof (mem_rank_entry st topic x y Hst Hx Hy); lia.
Qed.

(** ** In RocksDB *)

Section rocks.
Context {bytes : Type} `{DbCodec bytes, !DbCodecLaws bytes} (clock : Z -> Z).

Definition rocks_durable (w : Rocks bytes) (topic sub : string) (ms : list StoredMessage)
    (acked : StoredMessage -> bool) (readable : ManagedLedgerPosition -> Prop) : Prop :=
  exists L state part, topic_holds w topic L ms /\ cursor_stored w topic sub state /\
    managed_cursor_wf (rl_info L) state /\ (forall m, m ∈ ms -> msg_partition (message_id m) = part) /\
    (forall x, x ∈ ms -> acked x = negb (unacked state x)) /\
    readable = fun p => rocks_readable L ms part p /\ upto ms p.

Lemma wf_mark_ok s L ms state : ledger_holds s L ms -> managed_cursor_wf (rl_info L) state -> mark_ok L state.
Proof.
  intros HL [[_ Hm _] _] mark E; destruct (Hm mark E) as [Hv Hp].
  pose proof (visible_below_max _ _ (lh_info _ _ _ HL) Hv); destruct (visible_ok _ _ (lh_info _ _ _ HL) Hv) as [_ Hu].
  split_and!; [done | done | done |]; destruct Hv as (l & Hl & Hid & _); by exists l.
Qed.

Lemma rocks_ack_durable w topic sub ms acked readable x :
  rocks_durable w topic sub ms acked readable -> x ∈ ms ->
  exists w' acked', RocksStore.ack_message_shared clock topic sub (message_id x) w = (Ok tt, w') /\
    rocks_durable w' topic sub ms acked' readable /\ forall y, y ∈ ms -> acked' y = true <-> y = x \/ acked y = true.
Proof.
  intros (L & state & part & Ht & Hc & Hwf & Hp & Ha & ->) Hx.
  destruct (RocksStore.ack_message_shared_spec clock w topic sub L ms state x Ht Hc Hwf Hx)
    as (w' & state' & Hack & Ht' & Hc' & Hwf' & Hiff).
  exists w', (fun y => negb (unacked state' y)); split_and!; [done | by exists L, state', part |].
  intros y Hy; specialize (Hiff y Hy).
  rewrite (RocksStore.is_acknowledged_shared_spec _ _ _ _ _ _ _ y Ht' Hc') in Hiff.
  rewrite (RocksStore.is_acknowledged_shared_spec _ _ _ _ _ _ _ y Ht Hc) in Hiff; by rewrite Ha.
Qed.

Lemma rocks_seek_durable w topic sub ms acked readable x :
  rocks_durable w topic sub ms acked readable -> x ∈ ms ->
  exists w' acked', RocksStore.seek_cursor clock topic sub (message_id x) w = (Ok tt, w') /\
    rocks_durable w' topic sub ms acked' readable /\ forall y, y ∈ ms -> acked' y = (msg_rank y <? msg_rank x).
Proof.
  intros (L & state & part & Ht & Hc & Hwf & Hp & Ha & ->) Hx; pose proof (RocksStore.th_ledger _ _ _ _ Ht) as HL.
  destruct (RocksStore.reset_before_spec _ _ _ _ HL Hx) as (Hst & Hmk & Hun & _).
  destruct (RocksStore.persist_spec w topic sub L ms _ Ht Hst) as (s' & Hpe & Ht' & Hc').
  set (state' := mkCursorState (cursor_position <$> previous_position L (msg_position x)) []) in *.
  exists (RocksStore.mkRocks s' (RocksStore.ledgers w)), (fun y => negb (unacked state' y)).
  split_and!.
  - unfold RocksStore.seek_cursor; rewrite (RocksStore.with_cursor_spec _ _ _ _ _ _ _ _ Ht Hc).
    unfold reset_cursor; fold (msg_position x); fold state'; by rewrite Hpe.
  - exists L, state', part; split_and!; try done; split; [|set_solver].
    split; cbn; [apply rs_wf_nil | | set_solver]; intros m Hm.
    pose proof (RocksStore.previous_position_spec _ L ms (msg_position x) HL (proj1 (lh_msg_ok _ _ _ _ HL Hx))) as Hprev.
    destruct (previous_position L (msg_position x)) as [q|]; [|done]; injection Hm as <-; split; [|done].
    apply RocksStore.visible_cursor_position, Hprev.
  - intros y Hy; rewrite (Hun y Hy); lia.
Qed.
End rocks.

(** ** Both *)

Definition view_durable {bytes : Type} `{DbCodec bytes} (v : SubscriptionView bytes)
    (ms : list StoredMessage) (acked : StoredMessage -> bool) (readable : ManagedLedgerPosition -> Prop) : Prop :=
  match sv_store v with
  | MemoryBackend st => mem_durable st (sv_topic v) (sv_subscription v) ms acked readable
  | RocksDbBackend w => rocks_durable w (sv_topic v) (sv_subscription v) ms acked readable
  end.

#[global] Program Instance view_durable_cursor {bytes : Type} `{DbCodec bytes, !DbCodecLaws bytes} `{MetadataDecoder}
  : DurableCursor (SubscriptionView bytes) ledger_error := {| durable := view_durable |}.
Next Obligation.
  intros bytes ? ? ? [clock [st|w] topic sub] ms acked readable; cbn.
  - intros (Hst & Hlen & _ & -> & Ha & ->); apply presents_upto; eapply presents_ext; [|exact Ha].
    by apply mem_presents.
  - intros (L & state & part & Ht & Hc & Hwf & Hp & Ha & ->); apply presents_upto; eapply presents_ext; [|exact Ha].
    apply (rocks_presents clock w topic sub L ms state part); [done | done | | done].
    eapply wf_mark_ok; [apply Ht | done].
Qed.
Next Obligation.
  intros bytes ? ? ? [clock [st|w] topic sub] ms acked readable p; cbn.
  - intros (_ & _ & _ & _ & _ & ->); by intros [].
  - intros (L & state & part & _ & _ & _ & _ & _ & ->); by intros [].
Qed.
Next Obligation.
  intros bytes ? ? ? [clock [st|w] topic sub] ms acked readable x Hd Hx.
  - destruct (mem_ack_durable st topic sub ms acked readable x Hd Hx) as [Hd' Hiff].
    eexists _, _; split_and!; [reflexivity | exact Hd' | exact Hiff].
  - destruct (rocks_ack_durable clock w topic sub ms acked readable x Hd Hx) as (w' & acked' & Ha & Hd' & Hiff).
    exists (mkView clock (RocksDbBackend w') topic sub), acked'; split_and!; [| exact Hd' | exact Hiff]; cbn.
    unfold ack_message_shared, on_backend; cbn; by rewrite Ha.
Qed.
Next Obligation.
  intros bytes ? ? ? [clock [st|w] topic sub] ms acked readable x Hd Hx.
  - destruct (mem_seek_durable st topic sub ms acked readable x Hd Hx) as [Hd' Hiff].
    eexists _, _; split_and!; [reflexivity | exact Hd' | exact Hiff].
  - destruct (rocks_seek_durable clock w topic sub ms acked readable x Hd Hx) as (w' & acked' & Ha & Hd' & Hiff).
    exists (mkView clock (RocksDbBackend w') topic sub), acked'; split_and!; [| exact Hd' | exact Hiff]; cbn.
    unfold seek_cursor, on_backend; cbn; by rewrite Ha.
Qed.
