(* ===== verification/SubscriptionDelivery.v ===== *)
(** * Delivery through a subscription

    The operations of a subscription composed: whatever consumers join and leave,
    flow, acknowledge, ask for redelivery and seek, and whatever is published in
    between, no message is lost.  The invariants of the dispatchers are carried
    through the changes of the cursor. *)

From S2P Require Import Prelude Position MessageMap LedgerInfo RocksLedger StickyKey Consumer.
From S2P Require Import ReadPosition Redelivery Dispatch SharedDispatcher SharedDelivery.
From S2P Require KeyShared KeyDelivery.
From S2P Require Import SingleActive FailoverDelivery StorageService Subscription DurableCursor.

(** One more message counts as acknowledged. *)
Definition also (m : MessageId) (acked : StoredMessage -> bool) (x : StoredMessage) : bool :=
  acked x || bool_decide (message_id x = m).

Lemma also_true m acked x : also m acked x = true <-> acked x = true \/ message_id x = m.
Proof. unfold also; by rewrite orb_true_iff, bool_decide_eq_true. Qed.

(** The topic grows: the new messages of [ms'] are behind none of the readable
    positions, and more of the old ones may be acknowledged. *)
Record grown (ms : list StoredMessage) (acked : StoredMessage -> bool) (readable : ManagedLedgerPosition -> Prop)
    (ms' : list StoredMessage) (acked' : StoredMessage -> bool) (readable' : ManagedLedgerPosition -> Prop) : Prop := {
  gr_old : forall x, x ∈ ms -> x ∈ ms';
  gr_new : forall x, x ∈ ms' -> x ∈ ms \/ forall p, readable p -> cursor_key_rank p <= msg_rank x;
  gr_acked : forall x, x ∈ ms -> acked x = true -> acked' x = true;
  gr_readable : forall p, readable p -> readable' p;
}.

Lemma grown_same ms acked acked' readable :
  (forall x, x ∈ ms -> acked x = true -> acked' x = true) -> grown ms acked readable ms acked' readable.
Proof. intros Ha; split; auto. Qed.

Lemma grown_behind ms acked readable ms' acked' readable' rp x :
  grown ms acked readable ms' acked' readable' -> rp_readable readable rp -> x ∈ ms' -> behind rp x -> x ∈ ms.
Proof.
  intros Hg Hr Hx Hb; destruct rp as [p|]; [|done]; cbn in Hb.
  destruct (gr_new _ _ _ _ _ _ Hg x Hx) as [?|Hn]; [done |]; specialize (Hn p (Hr p eq_refl)); lia.
Qed.

Lemma grown_stored ms acked readable ms' acked' readable' m :
  grown ms acked readable ms' acked' readable' -> stored_id ms m -> stored_id ms' m.
Proof. intros Hg (x & Hx & Hid); exists x; split; [by apply (gr_old _ _ _ _ _ _ Hg) | done]. Qed.

Lemma grown_rp ms acked readable ms' acked' readable' rp :
  grown ms acked readable ms' acked' readable' -> rp_readable readable rp -> rp_readable readable' rp.
Proof. intros Hg Hr p Hp; by apply (gr_readable _ _ _ _ _ _ Hg), Hr. Qed.

(** ** The state shared and key-shared dispatchers have in common *)

Section core.
Implicit Types (d : DispatchState) (c : Consumer).

Lemma update_core_some id f d c :
  consumers d !! id = Some c -> consumer_id (f c) = id -> update_core id f d = set_consumer (f c) d.
Proof.
  intros Hc Hid; unfold update_core, set_consumer; rewrite Hid; f_equal.
  apply map_eq; intros j; destruct (decide (j = id)) as [->|Hne].
  - by rewrite lookup_alter_eq, Hc, lookup_insert_eq.
  - by rewrite lookup_alter_ne, lookup_insert_ne.
Qed.

Lemma update_core_none id f d : consumers d !! id = None -> update_core id f d = d.
Proof.
  intros Hc; unfold update_core; rewrite alter_id by (intros x Hx; congruence); by destruct d.
Qed.

Lemma settle_ack_spec m c :
  info (settle_ack m c) = info c /\ inner (pending_acks (settle_ack m c)) = delete m (inner (pending_acks c)).
Proof.
  unfold settle_ack, remove_pending_ack, pending_remove; cbn.
  by destruct (bool_decide _).
Qed.

Lemma settle_ack_holds m c k : holds (settle_ack m c) k <-> k <> m /\ holds c k.
Proof.
  unfold holds; rewrite (proj2 (settle_ack_spec m c)).
  destruct (decide (k = m)) as [->|Hne].
  - rewrite lookup_delete_eq; split; [by intros [] | naive_solver].
  - rewrite lookup_delete_ne by done; naive_solver.
Qed.

Context (ms : list StoredMessage) (acked : StoredMessage -> bool) (readable : ManagedLedgerPosition -> Prop).

Lemma grown_wf ms' acked' readable' d :
  grown ms acked readable ms' acked' readable' ->
  delivery_wf ms acked readable d -> delivery_wf ms' acked' readable' d.
Proof.
  intros Hg [Hids Hq Hr Hkn Hon Hap Hk]; split; try done.
  - by eapply grown_rp.
  - intros m Hm; eapply grown_stored; [exact Hg | by apply Hkn].
  - intros x Hx Hb; assert (x ∈ ms) as Hold by (by eapply grown_behind).
    destruct (Hk x Hold Hb) as [Ha|?]; [left; by apply (gr_acked _ _ _ _ _ _ Hg) | by right].
Qed.

(** The holder of a message acknowledges it. *)
Lemma settle_core id c m d :
  delivery_wf ms acked readable d -> consumers d !! id = Some c ->
  delivery_wf ms (also m acked) readable (update_core id (settle_ack m) d).
Proof.
  intros Hd Hc; pose proof (dw_ids _ _ _ _ _ Hd id c Hc) as Hid.
  assert (consumer_id (settle_ack m c) = id) as Hid' by (unfold consumer_id; by rewrite (proj1 (settle_ack_spec m c))).
  rewrite (update_core_some id _ d c Hc Hid').
  apply (release_wf ms (also m acked) readable d c).
  - eapply acked_wf; [exact Hd |]; intros x _ Ha; apply also_true; by left.
  - by rewrite Hid.
  - congruence.
  - by intros k [_ ?]%settle_ack_holds.
  - intros k Hk; destruct (decide (k = m)) as [->|Hne]; [right | left; by apply settle_ack_holds].
    intros x _ Heq; apply also_true; by right.
Qed.

(** A change that leaves who the consumer is and what it holds. *)
Lemma neutral_core id f d :
  (forall c, info (f c) = info c /\ pending_acks (f c) = pending_acks c) ->
  delivery_wf ms acked readable d -> delivery_wf ms acked readable (update_core id f d).
Proof.
  intros Hf Hd; destruct (consumers d !! id) as [c|] eqn:Hc; [|by rewrite update_core_none].
  pose proof (dw_ids _ _ _ _ _ Hd id c Hc) as Hid; destruct (Hf c) as [Hi Hp].
  assert (consumer_id (f c) = id) as Hid' by (unfold consumer_id; by rewrite Hi).
  rewrite (update_core_some id f d c Hc Hid'); apply (delivery_wf_same _ _ _ None d c); [done | by rewrite Hid | congruence |].
  intros m; unfold holds; by rewrite Hp.
Qed.

(** *** Redelivery *)

(** What a consumer is asked to give back. *)
Record taken_back (c : Consumer) (es : list RedeliveryEntry) (c' : Consumer) : Prop := {
  tb_info : info c' = info c;
  tb_entries : forall e, e ∈ es -> exists a, inner (pending_acks c) !! re_message_id e = Some a /\
    Redelivery.sticky_key_hash e = pa_sticky_key_hash a;
  tb_kept : forall m a, inner (pending_acks c') !! m = Some a <->
    (m ∉ (re_message_id <$> es)) /\ inner (pending_acks c) !! m = Some a;
}.

Lemma take_pending_spec ids c es c' : take_pending ids c = (es, c') -> taken_back c es c'.
Proof.
  revert c es; induction ids as [|m ids IH]; intros c es; cbn.
  - intros [= <- <-]; split; [done | by intros e ?%elem_of_nil |].
    intros k a; cbn; split; [intros ?; split; [apply not_elem_of_nil | done] | by intros [_ ?]].
  - unfold take_pending_ack_for_redelivery, pending_remove; cbn.
    set (c1 := set_pending _ c); destruct (inner (pending_acks c) !! m) as [a0|] eqn:Em.
    + destruct (take_pending ids c1) as [es1 c2] eqn:Et; intros [= <- <-]; apply IH in Et as [Hi He Hk]; split.
      * done.
      * intros e [->|Hin]%elem_of_cons; [by exists a0 |]; destruct (He e Hin) as (a & Ha & Hh); exists a; split; [|done].
        cbn in Ha; by apply lookup_delete_Some in Ha as [_ ?].
      * intros k a; rewrite Hk; cbn; rewrite lookup_delete_Some, not_elem_of_cons; naive_solver.
    + intros Et; apply IH in Et as [Hi He Hk].
      assert (inner (pending_acks c1) = inner (pending_acks c)) as E1 by (cbn; by apply delete_id).
      split; [done | by rewrite <- E1 |]; intros k a; by rewrite Hk, E1.
Qed.

Lemma take_for_redelivery_spec ids c es c' : take_for_redelivery ids c = (es, c') -> taken_back c es c'.
Proof.
  destruct ids as [|m ids]; [|by apply take_pending_spec]; cbn [take_for_redelivery].
  destruct (drain_pending_acks c) as [drained c1] eqn:Ed; intros [= <- <-].
  pose proof Ed as Ed'; apply drain_pending_acks_spec in Ed as (Hi & Hno & _ & _ & _ & _ & Hd); split; [done | |].
  - intros e ([k a] & -> & Hin)%list_elem_of_fmap; exists a; split; [exact (proj1 (Hd k a) Hin) | done].
  - intros k a; split.
    + intros Hk; unfold drain_pending_acks in Ed'; injection Ed' as _ <-; cbn in Hk; by rewrite lookup_empty in Hk.
    + intros [Hn Hk%Hd]; exfalso; apply Hn; rewrite <- list_fmap_compose; exact (list_elem_of_fmap_2 _ _ (k, a) Hk).
Qed.

Lemma taken_back_holds c es c' m :
  taken_back c es c' -> holds c' m <-> (m ∉ (re_message_id <$> es)) /\ holds c m.
Proof.
  intros [_ _ Hk]; unfold holds; split; [intros [a [Hn Ha]%Hk]; split; [done | by exists a] |].
  intros [Hn [a Ha]]; exists a; by apply Hk.
Qed.

(** The entries that are not acknowledged are queued, the others are dropped. *)
Lemma requeue_core id c es l c' d :
  delivery_wf ms acked readable d -> consumers d !! id = Some c -> taken_back c es c' ->
  (forall e, e ∈ l -> e ∈ es) ->
  (forall e, e ∈ es -> e ∈ l \/ forall x, x ∈ ms -> message_id x = re_message_id e -> acked x = true) ->
  delivery_wf ms acked readable (add_redelivery_entries l (update_core id (fun _ => c') d)).
Proof.
  intros Hd Hc Ht Hsub Hrest; pose proof (dw_ids _ _ _ _ _ Hd id c Hc) as Hid.
  assert (consumer_id c' = id) as Hid' by (unfold consumer_id; by rewrite (tb_info _ _ _ Ht)).
  rewrite (update_core_some id (fun _ => c') d c Hc Hid').
  assert (forall j m, held_by (set_consumer c' d) j m <-> held_by d j m /\ ~ (j = id /\ m ∈ (re_message_id <$> es))) as Hby.
  { intros j m; rewrite held_by_set_consumer, Hid', (taken_back_holds _ _ _ m Ht); split.
    - intros [[-> [Hn Hm]]|[Hne ?]]; [split; [by exists c | naive_solver] | naive_solver].
    - intros [Hm Hn]; destruct (decide (j = id)) as [->|Hne]; [left | by right].
      destruct Hm as (x & Hx & Hm); rewrite Hc in Hx; injection Hx as <-; naive_solver. }
  apply (requeue_wf ms acked readable d); try done.
  - intros j x; cbn; intros [[<- <-]|[_ ?]]%lookup_insert_Some; [done | by apply (dw_ids _ _ _ _ _ Hd)].
  - by intros j m [? _]%Hby.
  - intros e He; apply Hsub in He; destruct (tb_entries _ _ _ Ht e He) as (a & Ha & _).
    assert (held_by d id (re_message_id e)) as Hh by (exists c; split; [done | by exists a]).
    split; [by exists id |]; intros (j & [Hj Hn]%Hby); apply Hn.
    split; [by apply (dw_once _ _ _ _ _ Hd (re_message_id e)) | by apply list_elem_of_fmap_2].
  - intros m (j & Hj); destruct (decide (j = id /\ m ∈ (re_message_id <$> es))) as [[-> Hin]|Hn].
    + apply list_elem_of_fmap in Hin as (e & -> & He); right.
      destruct (Hrest e He) as [?|?]; [left; by apply list_elem_of_fmap_2 | by right].
    + left; exists j; by apply Hby.
Qed.
End core.

(** *** Key-shared *)

Section key.
Context `{MetadataDecoder}.
Context (ms : list StoredMessage) (acked : StoredMessage -> bool) (readable : ManagedLedgerPosition -> Prop).
Implicit Types (d : DispatchState) (c : Consumer).
Local Abbreviation inv := (KeyDelivery.key_inv ms acked readable None).

(** What the key-shared invariant adds, as one statement. *)
Lemma key_inv_from acked' readable' d0 d :
  inv d0 -> delivery_wf ms acked' readable' d -> KeyDelivery.hashes_ok ms (redelivery_controller d) ->
  (forall x, x ∈ ms -> acked x = true -> acked' x = true) ->
  (forall id c m a, consumers d !! id = Some c -> inner (pending_acks c) !! m = Some a ->
     exists c0, consumers d0 !! id = Some c0 /\ inner (pending_acks c0) !! m = Some a) ->
  (forall m, in_queue d m -> in_queue d0 m \/ held d0 m) ->
  (forall x, x ∈ ms -> behind (read_position d0) x -> acked' x = true \/ behind (read_position d) x) ->
  KeyDelivery.key_inv ms acked' readable' None d.
Proof.
  intros [_ _ Hc Hp] Hw Hh Ha Hsub Hq Hrp; split; [done | done | |].
  - intros id c x a Hlk Hx Hin; destruct (Hsub id c _ a Hlk Hin) as (c0 & Hc0 & Hin0); by eapply Hc.
  - intros x Hx Hd.
    assert (held d0 (message_id x) \/ in_queue d0 (message_id x)) as Hd0.
    { destruct Hd as [(id & c & Hlk & [a Hin])|[Hm|?]]; [| |done].
      - destruct (Hsub id c _ a Hlk Hin) as (c0 & Hc0 & Hin0); left; exists id, c0; split; [done | by exists a].
      - destruct (Hq _ Hm); auto. }
    destruct (Hp x Hx) as [?|Hb]; [destruct Hd0; auto | left; by apply Ha | by apply Hrp].
Qed.

Lemma grown_key {S E} `{SubscriptionStore S E} (s' : S) ms' acked' readable' d :
  presents s' ms' acked' readable' -> grown ms acked readable ms' acked' readable' ->
  inv d -> KeyDelivery.key_inv ms' acked' readable' None d.
Proof.
  intros Hs' Hg [Hw [He Hf Hst] Hc Hp].
  assert (forall x, x ∈ ms' -> stored_id ms (message_id x) -> x ∈ ms) as Hold.
  { intros x Hx (y & Hy & Hid).
    by rewrite <- (stored_id_inj s' ms' acked' readable' Hs' y x (gr_old _ _ _ _ _ _ Hg y Hy) Hx Hid). }
  split; [by eapply grown_wf | split | |].
  - intros x e Hx Hin; apply He; [|done]; apply Hold; [done |]; apply (dw_known _ _ _ _ _ Hw); right; by exists e.
  - intros x h Hx Hin; apply Hf; [|done]; apply Hold; [done | by eapply Hst].
  - intros m h Hin; eapply grown_stored; [exact Hg | by eapply Hst].
  - intros id c x a Hlk Hx Hin; apply (Hc id c x a Hlk); [|done]; apply Hold; [done |].
    apply (dw_known _ _ _ _ _ Hw); left; exists id, c; split; [done | by exists a].
  - intros x Hx Hd; assert (x ∈ ms) as Hin.
    { apply Hold; [done |]; apply (dw_known _ _ _ _ _ Hw); destruct Hd as [?|[?|?]]; [by left | by right | done]. }
    destruct (Hp x Hin Hd); [left; by apply (gr_acked _ _ _ _ _ _ Hg) | by right].
Qed.

Lemma settle_key id c m d :
  inv d -> consumers d !! id = Some c ->
  KeyDelivery.key_inv ms (also m acked) readable None (update_core id (settle_ack m) d).
Proof.
  intros Hi Hc; apply (key_inv_from _ _ d); [done | | apply Hi | | | by left | by right].
  - eapply settle_core; [apply Hi | done].
  - intros x _ Ha; apply also_true; by left.
  - intros j c' k a; cbn; rewrite lookup_alter_Some; intros [(-> & c0 & Hc0 & ->)|[_ Hj]] Hk; [|by exists c'].
    exists c0; split; [done |]; rewrite (proj2 (settle_ack_spec m c0)) in Hk; by apply lookup_delete_Some in Hk as [_ ?].
Qed.

Lemma neutral_key id f d :
  (forall c, info (f c) = info c /\ pending_acks (f c) = pending_acks c) -> inv d -> inv (update_core id f d).
Proof.
  intros Hf Hi; apply (key_inv_from _ _ d); [done | | apply Hi | done | | by left | by right].
  - apply neutral_core; [done | apply Hi].
  - intros j c' k a; cbn; rewrite lookup_alter_Some; intros [(-> & c0 & Hc0 & ->)|[_ Hj]] Hk; [|by exists c'].
    exists c0; split; [done |]; by rewrite (proj2 (Hf c0)) in Hk.
Qed.

Lemma requeue_key {S E} `{SubscriptionStore S E} (s : S) id c es l c' d :
  presents s ms acked readable ->
  inv d -> consumers d !! id = Some c -> taken_back c es c' -> (forall e, e ∈ l -> e ∈ es) ->
  (forall e, e ∈ es -> e ∈ l \/ forall x, x ∈ ms -> message_id x = re_message_id e -> acked x = true) ->
  inv (add_redelivery_entries l (update_core id (fun _ => c') d)).
Proof.
  intros Hs Hi Hc Ht Hsub Hrest; pose proof (KeyDelivery.ki_wf _ _ _ _ _ Hi) as Hw.
  pose proof (dw_queue _ _ _ _ _ Hw) as Hrc.
  destruct (foldl_add_spec l _ Hrc) as (_ & Hq & _).
  apply (key_inv_from _ _ d); [done | by eapply requeue_core | | done | | |by right].
  - cbn; apply (KeyDelivery.foldl_add_hashes s ms acked readable Hs); [done | apply Hi |].
    intros e He%Hsub; destruct (tb_entries _ _ _ Ht e He) as (a & Ha & Hh).
    destruct (dw_known _ _ _ _ _ Hw (re_message_id e)) as (x & Hx & Hid);
      [left; exists id, c; split; [done | by exists a] |].
    exists x; split_and!; [done | done |]; rewrite Hh.
    apply (KeyDelivery.ki_held _ _ _ _ _ Hi id c x a Hc Hx); by rewrite Hid.
  - intros j x k a; cbn; rewrite lookup_alter_Some; intros [(-> & c0 & Hc0 & ->)|[_ Hj]] Hk; [|by exists x].
    exists c; split; [done |]; by apply (tb_kept _ _ _ Ht) in Hk as [_ ?].
  - intros m Hm; unfold in_queue in Hm; cbn in Hm; apply Hq in Hm as [(e & -> & He)%list_elem_of_fmap|Hm]; [right | by left].
    destruct (tb_entries _ _ _ Ht e (Hsub e He)) as (a & Ha & _); exists id, c; split; [done | by exists a].
Qed.

Lemma foldl_remove_hashes l rc :
  controller_wf rc -> KeyDelivery.hashes_ok ms rc ->
  KeyDelivery.hashes_ok ms (foldl (fun rc m => (remove m rc).2) rc l).
Proof.
  revert rc; induction l as [|m l IH]; intros rc Hw Hh; cbn; [done |].
  apply IH; [by apply remove_spec | by apply KeyDelivery.hashes_ok_remove].
Qed.

Lemma position_cmp_key_rank p q :
  u64_ok (entry_id p) -> u64_ok (entry_id q) -> position_cmp p q = Lt -> cursor_key_rank p <= cursor_key_rank q.
Proof.
  unfold position_cmp, cursor_key_rank.
  destruct (Z.compare_spec (ledger_id p) (ledger_id q)), (Z.compare_spec (entry_id p) (entry_id q)); try done; mlia.
Qed.

Lemma ack_state_key {S E} `{SubscriptionStore S E} (s : S) d :
  presents s ms acked readable -> inv d ->
  exists d', on_ack_state_updated s d = (Ok tt, d') /\ inv d' /\ consumers d' = consumers d.
Proof.
  intros Hs Hi; pose proof (KeyDelivery.ki_wf _ _ _ _ _ Hi) as Hw; pose proof (dw_queue _ _ _ _ _ Hw) as Hrc.
  destruct (on_ack_state_updated_wf s ms acked readable Hs d Hw) as (d' & E1 & Hw' & Ec).
  exists d'; split_and!; [done | | done]; unfold on_ack_state_updated in E1.
  destruct (acked_of s _) as [l|]; [|done]; pose proof (pr_first _ _ _ _ Hs) as Hf.
  destruct (ss_first_unacked_position s) as [first|]; [|done]; injection E1 as <-.
  destruct (foldl_remove_spec l _ Hrc) as (_ & Hq).
  apply (key_inv_from _ _ d); [done | done | by apply foldl_remove_hashes; [|apply Hi] | done | by eauto | |].
  - intros m Hm; unfold in_queue in Hm; cbn in Hm; apply Hq in Hm as [_ ?]; by left.
  - intros x Hx; cbn [read_position set_read_position set_redelivery].
    destruct (read_position d) as [p|] eqn:Ep; [|done]; destruct first as [q|]; cbn.
    + intros Hb; right; destruct (position_cmp p q) eqn:Epq; [done | | done]; cbn.
      pose proof (position_cmp_key_rank p q) as Hle; destruct Hf as [Hq' _].
      pose proof (pr_range _ _ _ _ Hs q Hq'); pose proof (pr_range _ _ _ _ Hs p (dw_readable _ _ _ _ _ Hw p Ep)).
      specialize (Hle ltac:(done) ltac:(done) Epq); lia.
    + intros _; left; pose proof (find_none _ _ Hf x (proj1 (list_elem_of_In _ _) Hx)) as Ha; cbn in Ha; by destruct (acked x).
Qed.
End key.

(** *** Nothing delivered yet *)

(** The state left by a seek: nobody holds anything, nothing is queued, and what
    is behind the read position is acknowledged. *)
Lemma clean_core ms acked readable d :
  (forall id c, consumers d !! id = Some c -> consumer_id c = id /\ forall m, ~ holds c m) ->
  entries (redelivery_controller d) = ∅ -> controller_wf (redelivery_controller d) ->
  rp_readable readable (read_position d) ->
  (forall x, x ∈ ms -> behind (read_position d) x -> acked x = true) ->
  delivery_wf ms acked readable d.
Proof.
  intros Hc He Hrc Hr Hk.
  assert (forall m, ~ held d m) as Hno by (intros m (id & c & Hlk & Hm); by apply (proj2 (Hc id c Hlk)) in Hm).
  assert (forall m, ~ in_queue d m) as Hnq
    by (intros m; unfold in_queue, queued; rewrite He, lookup_empty; by intros []).
  split; [intros id c Hlk; by apply Hc | done | done | | | |].
  - intros m [Hm|Hm]; [by apply Hno in Hm | by apply Hnq in Hm].
  - intros m i j Hm; exfalso; apply (Hno m); by exists i.
  - intros m Hm; by apply Hno in Hm.
  - intros x Hx Hb; left; by apply Hk.
Qed.

Lemma clean_key `{MetadataDecoder} ms acked readable d :
  delivery_wf ms acked readable d -> (forall m, ~ held d m) -> entries (redelivery_controller d) = ∅ ->
  in_flight_hashes (redelivery_controller d) = ∅ -> KeyDelivery.key_inv ms acked readable None d.
Proof.
  intros Hw Hno He Hf; split; [done | split | |].
  - intros x e _; by rewrite He, lookup_empty.
  - intros x h _; by rewrite Hf, lookup_empty.
  - intros m h; by rewrite Hf, lookup_empty.
  - intros id c x a Hc _ Ha; exfalso; apply (Hno (message_id x)); exists id, c; split; [done | by exists a].
  - intros x _ [Hm|[[e Hq]|?]]; [by apply Hno in Hm | by rewrite He, lookup_empty in Hq | done].
Qed.

(** ** One active consumer *)

Section single.
Context (ms : list StoredMessage) (acked : StoredMessage -> bool) (readable : ManagedLedgerPosition -> Prop).
Implicit Types (fd : FailoverDispatcher) (c : Consumer).

Lemma update_list_elem id f cs x :
  x ∈ update_list id f cs -> exists c, c ∈ cs /\ ((consumer_id c = id /\ x = f c) \/ (consumer_id c <> id /\ x = c)).
Proof.
  intros (c & -> & Hc)%list_elem_of_fmap; exists c; split; [done |].
  destruct (Z.eqb_spec (consumer_id c) id); auto.
Qed.

Lemma update_list_fmap id f cs c :
  c ∈ cs -> (if consumer_id c =? id then f c else c) ∈ update_list id f cs.
Proof. intros Hc; exact (list_elem_of_fmap_2 (fun c => if consumer_id c =? id then f c else c) cs c Hc). Qed.

Lemma update_list_ids id f cs :
  (forall c, info (f c) = info c) -> (consumer_id <$> update_list id f cs) = (consumer_id <$> cs).
Proof.
  intros Hf; unfold update_list; rewrite <- list_fmap_compose; apply list_fmap_ext; intros i c _; cbn.
  destruct (consumer_id c =? id); [|done]; unfold consumer_id; by rewrite Hf.
Qed.

(** A consumer changes and lets go of acknowledged messages only. *)
Lemma fo_kept_update acked' id f fd :
  fo_kept ms acked readable fd -> (forall c, info (f c) = info c) ->
  (forall x, x ∈ ms -> acked x = true -> acked' x = true) ->
  (forall c m, holds (f c) m -> holds c m) ->
  (forall c m, holds c m -> holds (f c) m \/ forall x, x ∈ ms -> message_id x = m -> acked' x = true) ->
  fo_kept ms acked' readable (set_fo_consumers (update_list id f (fo_consumers fd)) fd).
Proof.
  intros [Hids Hr Hkn Hk] Hf Ha Hsub Hlost; split; [by cbn; rewrite update_list_ids | done | |].
  - intros m (x & (c & Hc & [[_ ->]|[_ ->]])%update_list_elem & Hm); apply Hkn; exists c; auto.
  - intros x Hx Hb; destruct (Hk x Hx Hb) as [?|(c & Hc & Hm)]; [left; by apply Ha |].
    destruct (Hlost c _ Hm) as [Hm'|Hl]; [right | left; by apply Hl].
    eexists; split; [by apply update_list_fmap |]; by destruct (consumer_id c =? id).
Qed.

Lemma settle_fo id m fd :
  fo_kept ms acked readable fd ->
  fo_kept ms (also m acked) readable (set_fo_consumers (update_list id (settle_ack m) (fo_consumers fd)) fd).
Proof.
  intros Hk; apply fo_kept_update; [done | intros c; apply settle_ack_spec | | |].
  - intros x _ Ha; apply also_true; by left.
  - by intros c k [_ ?]%settle_ack_holds.
  - intros c k Hh; destruct (decide (k = m)) as [->|Hne]; [right | left; by apply settle_ack_holds].
    intros x _ Heq; apply also_true; by right.
Qed.

Lemma neutral_fo id f fd :
  (forall c, info (f c) = info c /\ pending_acks (f c) = pending_acks c) -> fo_kept ms acked readable fd ->
  fo_kept ms acked readable (set_fo_consumers (update_list id f (fo_consumers fd)) fd).
Proof.
  intros Hf Hk; apply fo_kept_update; [done | apply Hf | done | |]; intros c m; unfold holds; rewrite (proj2 (Hf c)); auto.
Qed.

Lemma grown_fo ms' acked' readable' fd :
  grown ms acked readable ms' acked' readable' -> fo_kept ms acked readable fd -> fo_kept ms' acked' readable' fd.
Proof.
  intros Hg [Hids Hr Hkn Hk]; split; [done | by eapply grown_rp | |].
  - intros m Hm; eapply grown_stored; [exact Hg | by apply Hkn].
  - intros x Hx Hb; assert (x ∈ ms) as Hold by (by eapply grown_behind).
    destruct (Hk x Hold Hb) as [Ha|?]; [left; by apply (gr_acked _ _ _ _ _ _ Hg) | by right].
Qed.
End single.

(** An exclusive dispatcher is a failover dispatcher with at most one consumer. *)
Definition as_failover (xd : ExclusiveDispatcher) : FailoverDispatcher :=
  mkFailover (option_list (ex_consumer xd)) (consumer_id <$> ex_consumer xd) (ex_permits xd) (ex_position xd).

Lemma exclusive_dispatch_simulates {S E} `{SubscriptionStore S E} `{MetadataDecoder} (s : S) ms acked readable xd :
  presents s ms acked readable -> rp_readable readable (ex_position xd) ->
  exists xd', exclusive_dispatch_messages (Datatypes.S (ss_size s)) s xd = Some (Ok tt, xd') /\
    fo_step ms acked readable (as_failover xd) (as_failover xd').
Proof.
  intros Hs Hr; destruct (failover_dispatch_step s ms acked readable Hs (Datatypes.S (ss_size s)) (as_failover xd))
    as (fd' & Hd & Hst).
  { destruct (ex_consumer xd) as [c|] eqn:Ec; unfold as_failover; cbn; rewrite Ec; cbn; repeat constructor.
    apply not_elem_of_nil. }
  { done. }
  { lia. }
  unfold exclusive_dispatch_messages, failover_dispatch_messages, get_active_consumer in *.
  destruct (ex_consumer xd) as [c|] eqn:Ec; unfold as_failover in Hd, Hst; rewrite Ec in *; cbn -[active_loop] in *.
  2: { exists xd; injection Hd as <-; split; [done |]; unfold as_failover; by rewrite Ec. }
  rewrite Z.eqb_refl in Hd.
  destruct (active_loop_step s ms acked readable Hs (Datatypes.S (ss_size s)) (mkActive c (ex_permits xd) (ex_position xd)) Hr
    (unread_bound s ms acked readable Hs _)) as (st & Hl & Hstep).
  rewrite Hl in Hd; rewrite Hl; injection Hd as <-; eexists; split; [reflexivity |].
  assert (consumer_id (ac_consumer st) = consumer_id c) as Hid
    by (unfold consumer_id; by rewrite (as_info _ _ _ _ _ Hstep)).
  unfold as_failover; cbn; rewrite Ec; cbn; rewrite Hid; unfold replace_consumer in Hst; cbn in Hst.
  by rewrite Hid, Z.eqb_refl in Hst.
Qed.

(** ** Any dispatcher *)

Section enum.
Context `{MetadataDecoder}.
Implicit Types (ms : list StoredMessage) (acked : StoredMessage -> bool) (readable : ManagedLedgerPosition -> Prop)
  (d : DispatcherEnum).

Definition enum_wf ms acked readable d : Prop :=
  match d with
  | DExclusive xd => fo_kept ms acked readable (as_failover xd)
  | DShared sd => shared_wf ms acked readable sd
  | DFailover fd => fo_kept ms acked readable fd
  | DKeyShared kd => KeyDelivery.key_inv ms acked readable None (KeyShared.key_core kd)
  end.

Definition read_position_of d : option ManagedLedgerPosition :=
  match d with
  | DExclusive xd => ex_position xd
  | DShared sd => read_position (core sd)
  | DFailover fd => fo_position fd
  | DKeyShared kd => read_position (KeyShared.key_core kd)
  end.

Definition held_in d (m : MessageId) : Prop := exists c, c ∈ get_consumers d /\ holds c m.

Definition queued_in d (m : MessageId) : Prop :=
  match d with
  | DShared sd => in_queue (core sd) m
  | DKeyShared kd => in_queue (KeyShared.key_core kd) m
  | DExclusive _ | DFailover _ => False
  end.

(** Every message the dispatcher has passed is acknowledged, with a consumer or
    queued. *)
Definition nothing_lost ms acked d : Prop :=
  forall x, x ∈ ms -> behind (read_position_of d) x ->
    acked x = true \/ held_in d (message_id x) \/ queued_in d (message_id x).

Lemma elem_of_values (m : gmap Z Consumer) c : c ∈ (map_to_list m).*2 <-> exists id, m !! id = Some c.
Proof.
  rewrite list_elem_of_fmap; split.
  - intros ([id x] & -> & Hin%elem_of_map_to_list); by exists id.
  - intros [id Hid]; exists (id, c); split; [done | by apply elem_of_map_to_list].
Qed.

(** The consumers of a shared or key-shared dispatcher. *)
Lemma get_consumers_shared ms acked readable sd c :
  shared_wf ms acked readable sd -> c ∈ get_consumers sd <-> consumers (core sd) !! consumer_id c = Some c.
Proof. intros Hw; by apply ordered_consumers_elem, Hw. Qed.

Lemma get_consumers_key ms acked readable kd c :
  KeyDelivery.key_inv ms acked readable None (KeyShared.key_core kd) ->
  c ∈ get_consumers kd <-> consumers (KeyShared.key_core kd) !! consumer_id c = Some c.
Proof.
  intros Hi; cbn; rewrite elem_of_values; split; [|by eauto]; intros [id Hid].
  by rewrite (dw_ids _ _ _ _ _ (KeyDelivery.ki_wf _ _ _ _ _ Hi) id c Hid).
Qed.

Lemma enum_nothing_lost ms acked readable d : enum_wf ms acked readable d -> nothing_lost ms acked d.
Proof.
  intros Hw x Hx Hb; destruct d as [xd|sd|fd|kd]; cbn in *.
  - destruct (fk_kept _ _ _ _ Hw x Hx Hb); [by left | by right; left].
  - destruct (dw_kept _ _ _ _ _ (sw_delivery _ _ _ _ Hw) x Hx Hb) as [?|[(id & c & Hc & Hm)|[?|?]]]; [by left | | by right; right | done].
    right; left; exists c; split; [|done]; apply (get_consumers_shared _ _ _ _ c Hw).
    by rewrite (dw_ids _ _ _ _ _ (sw_delivery _ _ _ _ Hw) id c Hc).
  - destruct (fk_kept _ _ _ _ Hw x Hx Hb); [by left | by right; left].
  - destruct (dw_kept _ _ _ _ _ (KeyDelivery.ki_wf _ _ _ _ _ Hw) x Hx Hb) as [?|[(id & c & Hc & Hm)|[?|?]]];
      [by left | | by right; right | done].
    right; left; exists c; split; [|done]; apply elem_of_values; by exists id.
Qed.

Lemma enum_grown {S E} `{SubscriptionStore S E} (s : S) ms acked readable ms' acked' readable' d :
  presents s ms' acked' readable' -> grown ms acked readable ms' acked' readable' ->
  enum_wf ms acked readable d -> enum_wf ms' acked' readable' d.
Proof.
  intros Hs Hg; destruct d as [xd|sd|fd|kd]; cbn.
  - by apply grown_fo.
  - intros [Ho Hd]; split; [done | by eapply grown_wf].
  - by apply grown_fo.
  - by eapply grown_key.
Qed.

(** Changes of the consumers of a shared dispatcher keep the order. *)
Lemma update_order id f sd :
  (forall c, info (f c) = info c) -> order_wf sd -> order_wf (set_core (update_core id f (core sd)) sd).
Proof.
  intros Hf Ho; apply order_wf_core; [done | |]; intros j.
  - intros c'; cbn; rewrite lookup_alter_Some; intros [(-> & c0 & Hc0 & ->)|[_ Hj]]; [by exists c0 | by exists c'].
  - cbn; rewrite lookup_alter_is_Some; done.
Qed.

Lemma update_exclusive id f xd :
  (forall c, info (f c) = info c) ->
  as_failover (update_consumer id f xd) = set_fo_consumers (update_list id f (fo_consumers (as_failover xd))) (as_failover xd).
Proof.
  intros Hf; unfold as_failover; cbn; destruct (ex_consumer xd) as [c|]; [|done]; cbn; unfold set_fo_consumers; cbn.
  destruct (Z.eqb_spec (consumer_id c) id); [|done]; unfold consumer_id; by rewrite Hf.
Qed.

Lemma enum_settle ms acked readable d c m :
  enum_wf ms acked readable d -> c ∈ get_consumers d -> holds c m ->
  enum_wf ms (also m acked) readable (update_consumer (consumer_id c) (settle_ack m) d) /\ stored_id ms m.
Proof.
  intros Hw Hc Hm; destruct d as [xd|sd|fd|kd]; cbn [enum_wf] in *.
  - split; [|apply (fk_known _ _ _ _ Hw); by exists c].
    change (fo_kept ms (also m acked) readable (as_failover (update_consumer (consumer_id c) (settle_ack m) xd))).
    rewrite update_exclusive by apply settle_ack_spec; by apply settle_fo.
  - apply (get_consumers_shared _ _ _ _ c Hw) in Hc; destruct Hw as [Ho Hd]; split; [split|].
    + apply update_order; [apply settle_ack_spec | done].
    + by eapply settle_core.
    + apply (dw_known _ _ _ _ _ Hd); left; by exists (consumer_id c), c.
  - split; [by apply settle_fo | apply (fk_known _ _ _ _ Hw); by exists c].
  - apply (get_consumers_key _ _ _ _ c Hw) in Hc; split; [by eapply settle_key |].
    apply (dw_known _ _ _ _ _ (KeyDelivery.ki_wf _ _ _ _ _ Hw)); left; by exists (consumer_id c), c.
Qed.

Lemma enum_neutral ms acked readable d id f :
  (forall c, info (f c) = info c /\ pending_acks (f c) = pending_acks c) ->
  enum_wf ms acked readable d -> enum_wf ms acked readable (update_consumer id f d).
Proof.
  intros Hf; destruct d as [xd|sd|fd|kd]; cbn [enum_wf].
  - change (fo_kept ms acked readable (as_failover xd) -> fo_kept ms acked readable (as_failover (update_consumer id f xd))).
    rewrite update_exclusive by apply Hf; by apply neutral_fo.
  - intros [Ho Hd]; split; [apply update_order; [apply Hf | done] | by apply neutral_core].
  - by apply neutral_fo.
  - by apply neutral_key.
Qed.

Lemma enum_acknowledged {S E} `{SubscriptionStore S E} (s : S) ms acked readable d m :
  presents s ms acked readable -> stored_id ms m ->
  (forall x, x ∈ ms -> message_id x = m -> acked x = true) ->
  enum_wf ms acked readable d -> enum_wf ms acked readable (enum_message_acknowledged m d).
Proof.
  intros Hs (x & Hx & <-) Ha; destruct d as [xd|sd|fd|kd]; cbn; [done | | done |].
  - intros [Ho Hd]; split; [by apply (order_wf_core _ _ Ho); eauto | by apply on_message_acknowledged_wf].
  - intros Hi; apply (KeyDelivery.key_inv_drop s ms acked readable Hs x); [done | done | by apply Ha].
Qed.

Lemma enum_ack_state {S E} `{SubscriptionStore S E} (s : S) ms acked readable d :
  presents s ms acked readable -> enum_wf ms acked readable d ->
  exists d', enum_ack_state_updated s d = (Ok tt, d') /\ enum_wf ms acked readable d' /\ get_type d' = get_type d.
Proof.
  intros Hs; destruct d as [xd|sd|fd|kd]; cbn; [by intros; eexists | | by intros; eexists |].
  - intros [Ho Hd]; destruct (on_ack_state_updated_wf s ms acked readable Hs (core sd) Hd) as (k & -> & Hk & Ec).
    eexists; split; [reflexivity |]; split; [|done]; split; [|done].
    apply (order_wf_core k sd Ho); rewrite Ec; eauto.
  - intros Hi; destruct (ack_state_key ms acked readable s (KeyShared.key_core kd) Hs Hi) as (k & -> & Hk & Ec).
    eexists; split; [reflexivity | by split].
Qed.

(** A consumer of a shared or key-shared dispatcher gives messages back. *)
Lemma enum_redeliver {S E} `{SubscriptionStore S E} (s : S) ms acked readable d c es l c' :
  presents s ms acked readable -> enum_wf ms acked readable d -> is_shared_type (get_type d) = true ->
  c ∈ get_consumers d -> taken_back c es c' -> (forall e, e ∈ l -> e ∈ es) ->
  (forall e, e ∈ es -> e ∈ l \/ forall x, x ∈ ms -> message_id x = re_message_id e -> acked x = true) ->
  enum_wf ms acked readable (redeliver_messages l (update_consumer (consumer_id c) (fun _ => c') d)).
Proof.
  intros Hs Hw Hty Hc Ht Hsub Hrest; destruct d as [xd|sd|fd|kd]; [done | | done |]; cbn [enum_wf] in *.
  - apply (get_consumers_shared _ _ _ _ c Hw) in Hc; destruct Hw as [Ho Hd]; split; [|by eapply requeue_core].
    cbn; apply (order_wf_core _ _ Ho); cbn; intros j.
    + intros x; rewrite lookup_alter_Some; intros [(Hj & c0 & Hc0 & ->)|[_ Hj]]; [exists c0 | by exists x].
      split; [congruence |]; rewrite (tb_info _ _ _ Ht); congruence.
    + by rewrite lookup_alter_is_Some.
  - apply (get_consumers_key _ _ _ _ c Hw) in Hc; by eapply requeue_key.
Qed.

Lemma enum_dispatch {S E} `{SubscriptionStore S E} (s : S) ms acked readable d :
  presents s ms acked readable -> enum_wf ms acked readable d ->
  exists d', dispatch_messages s d = Some (Ok tt, d') /\ enum_wf ms acked readable d' /\ get_type d' = get_type d.
Proof.
  intros Hs; destruct d as [xd|sd|fd|kd]; cbn [enum_wf]; intros Hw.
  - destruct (exclusive_dispatch_simulates s ms acked readable xd Hs (fk_readable _ _ _ _ Hw)) as (xd' & Hd & Hst).
    exists (DExclusive xd'); split; [cbn -[exclusive_dispatch_messages]; by rewrite Hd |].
    split; [by eapply fo_kept_step | done].
  - destruct (pass_loop_spec s ms acked readable Hs (Datatypes.S (ss_size s)) sd Hw) as (n & sd' & Hp & Hr & _).
    { pose proof (pr_size _ _ _ _ Hs).
      pose proof (length_filter (fun x => acked x = false /\ ~ held (core sd) (message_id x)) ms); unfold outstanding; lia. }
    exists (DShared sd'); split; [cbn -[pass_loop]; by rewrite Hp | split; [apply Hr | done]].
  - destruct (failover_dispatch_step s ms acked readable Hs (Datatypes.S (ss_size s)) fd) as (fd' & Hd & Hst);
      [apply Hw.. | lia |].
    exists (DFailover fd'); split; [cbn -[failover_dispatch_messages]; by rewrite Hd |].
    split; [by eapply fo_kept_step | done].
  - pose proof (KeyDelivery.work_bound s ms acked readable Hs (KeyShared.key_core kd)) as Hb.
    destruct (KeyDelivery.dispatch_messages_spec s ms acked readable Hs _ kd Hw (proj2 (Nat.lt_succ_r _ _) Hb)) as (kd' & Hd & Hr).
    exists (DKeyShared kd'); split; [cbn -[KeyShared.dispatch_messages Nat.mul]; by rewrite Hd | split; [apply Hr | done]].
Qed.

Lemma enum_add ms acked readable c d d' :
  enum_wf ms acked readable d -> (forall m, ~ holds c m) -> 0 <= priority_level c ->
  add_consumer c d = Ok d' -> enum_wf ms acked readable d' /\ get_type d' = get_type d.
Proof.
  intros Hw Hno Hp; destruct d as [xd|sd|fd|kd]; cbn [enum_wf] in Hw.
  - cbn; unfold exclusive_add_consumer; destruct (ex_consumer xd) as [x|] eqn:Ex; [done |]; intros [= <-]; split; [|done].
    destruct Hw as [_ Hr Hkn Hk]; unfold as_failover in *; rewrite Ex in *; cbn in *; split; cbn.
    + repeat constructor; apply not_elem_of_nil.
    + done.
    + intros m (y & [->|?%elem_of_nil]%elem_of_cons & Hm); [by apply Hno in Hm | done].
    + intros x Hx Hb; destruct (Hk x Hx Hb) as [?|(y & Hy%elem_of_nil & _)]; [by left | done].
  - cbn; destruct (SharedDispatcher.add_consumer c sd) as [sd'|] eqn:Ea; [|done]; intros [= <-]; split; [|done].
    destruct Hw as [Ho Hd]; destruct (add_consumer_order c sd sd' Ho Hp Ea) as (Ho' & Ec & Hnew); split; [done |].
    rewrite Ec; by apply add_consumer_wf.
  - cbn; destruct (failover_add_consumer c fd) as [fd'|] eqn:Ea; [|done]; intros [= <-]; split; [|done].
    by eapply failover_add_spec.
  - cbn; unfold KeyShared.add_consumer; destruct (consumers (KeyShared.key_core kd) !! consumer_id c) eqn:Ec; [done |].
    destruct (negb _); [done |]; intros [= <-]; split; [|done].
    cbn; by apply KeyDelivery.key_inv_add_consumer.
Qed.

Lemma enum_flow ms acked readable id n d :
  enum_wf ms acked readable d -> enum_wf ms acked readable (consumer_flow id n d).
Proof.
  destruct d as [xd|sd|fd|kd]; cbn.
  - unfold exclusive_consumer_flow; destruct (ex_consumer xd) as [c|] eqn:Ec; [|done].
    destruct (consumer_id c =? id); [|done]; unfold as_failover; cbn; rewrite Ec; cbn; by intros [].
  - intros [Ho Hd]; split; [by apply (order_wf_core _ _ Ho); eauto | by apply delivery_wf_total].
  - unfold failover_consumer_flow; destruct (bool_decide _); [by intros [] | done].
  - unfold KeyShared.consumer_flow; destruct (consumers _ !! id); [by apply KeyDelivery.key_inv_total | done].
Qed.

Lemma enum_new ms acked readable t policy pos :
  rp_readable readable pos -> (forall x, x ∈ ms -> behind pos x -> acked x = true) ->
  enum_wf ms acked readable (init_read_position pos (new_with_key_shared_policy t policy)) /\
  get_type (init_read_position pos (new_with_key_shared_policy t policy)) = t.
Proof.
  intros Hr Hb; assert (forall b, delivery_wf ms acked readable (set_read_position pos (dispatch_new b))) as Hw.
  { intros b; apply clean_core; cbn; [intros id c; by rewrite lookup_empty | done | apply controller_new_wf | done | done]. }
  assert (forall fd, fo_consumers fd = [] -> fo_position fd = pos -> fo_kept ms acked readable fd) as Hfo.
  { intros fd Ec Ep; split; unfold fo_held; rewrite ?Ec, ?Ep;
      [constructor | done | by intros m (c & ?%elem_of_nil & _) | intros x Hx ?; left; by apply Hb]. }
  destruct t; cbn; (split; [|done]).
  - by apply Hfo.
  - split; [|apply Hw]; apply (order_wf_core _ shared_new shared_new_order); eauto.
  - by apply Hfo.
  - apply clean_key; [apply Hw | | done | done]; intros m (id & c & Hc & _); cbn in Hc; by rewrite lookup_empty in Hc.
Qed.
End enum.

(** ** A consumer leaves *)

Section removal.
Context `{MetadataDecoder} {S E : Type} `{SubscriptionStore S E}.
Context (s : S) (ms : list StoredMessage) (acked : StoredMessage -> bool)
  (readable : ManagedLedgerPosition -> Prop) (Hs : presents s ms acked readable).

Lemma shared_recovery_wf id sd :
  shared_wf ms acked readable sd ->
  shared_wf ms acked readable (SharedDispatcher.remove_consumer_with_recovery id sd).2.
Proof.
  intros [Ho Hd]; unfold SharedDispatcher.remove_consumer_with_recovery.
  destruct (remove_consumer_with_recovery_wf ms acked readable (fun _ => None) id (core sd) Hd) as (Hw & _ & Ec).
  destruct (Dispatch.remove_consumer_with_recovery (fun _ => None) id (core sd)) as [[c|] d] eqn:Er; cbn [snd] in *;
    [|by split].
  split; [|done]; apply remove_consumer_order_wf; [done | done |].
  unfold Dispatch.remove_consumer_with_recovery in Er; destruct (consumers (core sd) !! id) as [x|] eqn:Ex; [by exists x | done].
Qed.

(** The active consumer of a failover subscription, or one that holds nothing. *)
Definition removable (id : Z) (d : DispatcherEnum) : Prop :=
  match d with
  | DFailover fd => fo_active fd = Some id \/
      forall c, c ∈ fo_consumers fd -> consumer_id c = id -> forall m, ~ holds c m
  | _ => True
  end.

Lemma failover_removal_wf id fd :
  fo_kept ms acked readable fd ->
  (fo_active fd = Some id \/ forall c, c ∈ fo_consumers fd -> consumer_id c = id -> forall m, ~ holds c m) ->
  fo_kept ms acked readable (failover_remove_with_recovery s id fd).2.
Proof.
  intros Hk Hrem; destruct (decide (fo_active fd = Some id)) as [Ha|Ha]; [by apply failover_recovery_spec |].
  destruct Hrem as [?|Hrem]; [done |].
  destruct (failover_standby_spec s ms acked readable id fd Hk Ha) as (Hpos & Hids & Hheld); cbn zeta in *.
  destruct Hk as [_ Hr Hkn Hkept]; split; [done | by rewrite Hpos | |].
  - intros m (c & Hc & _ & Hm)%Hheld; apply Hkn; by exists c.
  - intros x Hx; rewrite Hpos; intros Hb; destruct (Hkept x Hx Hb) as [?|(c & Hc & Hm)]; [by left | right; apply Hheld].
    exists c; split_and!; [done | | done]; intros Heq; by apply (Hrem c Hc Heq) in Hm.
Qed.

Lemma enum_removal id d :
  enum_wf ms acked readable d -> removable id d ->
  let d' := (enum_remove_with_recovery s id d).2 in
  get_type d' = get_type d /\
  (enum_wf ms acked readable d' \/ exists xd, d' = DExclusive xd /\ ex_consumer xd = None).
Proof.
  intros Hw Hrem; destruct d as [xd|sd|fd|kd]; cbn [enum_wf enum_remove_with_recovery] in *; (split; [done |]).
  - cbn; unfold exclusive_remove_consumer; destruct (ex_consumer xd) as [c|] eqn:Ec; [|by left].
    destruct (consumer_id c =? id); [right; by eexists | by left].
  - left; by apply shared_recovery_wf.
  - left; by apply failover_removal_wf.
  - left; by apply (KeyDelivery.key_inv_recovery s ms acked readable Hs id kd).
Qed.
End removal.

(** ** A seek *)

Section seek.
Implicit Types (d : DispatchState).

Lemma drop_pending_spec c : info (drop_pending c) = info c /\ forall m, ~ holds (drop_pending c) m.
Proof.
  unfold drop_pending; destruct (drain_pending_acks c) as [ds c'] eqn:Ed; cbn.
  by apply drain_pending_acks_spec in Ed as (Hi & _ & _ & _ & Hno & _).
Qed.

Definition drained_core (ids : list Z) d : DispatchState := foldl (fun d id => update_core id drop_pending d) d ids.

Lemma drained_core_spec ids d :
  let d' := drained_core ids d in
  redelivery_controller d' = redelivery_controller d /\ read_position d' = read_position d /\
  (forall id c', consumers d' !! id = Some c' -> exists c, consumers d !! id = Some c /\ info c' = info c /\
     (id ∈ ids \/ (forall m, ~ holds c m) -> forall m, ~ holds c' m)) /\
  (forall id, is_Some (consumers d !! id) -> is_Some (consumers d' !! id)).
Proof.
  revert d; induction ids as [|i ids IH]; intros d; cbn.
  - split_and!; [done | done | | done]; intros id c' Hc; exists c'; split_and!; [done | done |].
    intros [?%elem_of_nil|?]; done.
  - destruct (IH (update_core i drop_pending d)) as (Hrc & Hrp & Hback & Hfwd); split_and!; [done | done | |].
    + intros id c' Hc; destruct (Hback id c' Hc) as (c1 & Hc1 & Hi & Hno); cbn in Hc1.
      apply lookup_alter_Some in Hc1 as [(-> & c0 & Hc0 & ->)|[Hne Hc0]].
      * exists c0; split_and!; [done | by rewrite Hi, (proj1 (drop_pending_spec c0)) |].
        intros _; apply Hno; right; apply drop_pending_spec.
      * exists c1; split_and!; [done | done |]; intros [[?|?]%elem_of_cons|?]; [done | apply Hno; by left | apply Hno; by right].
    + intros id Hid; apply Hfwd; cbn; by rewrite lookup_alter_is_Some.
Qed.

(** A seek on a shared or key-shared dispatcher. *)
Definition seek_enum (first : option ManagedLedgerPosition) (e : DispatcherEnum) : DispatcherEnum :=
  let e := reset_after_seek first e in
  foldl (fun e c => update_consumer (consumer_id c) drop_pending e) e (get_consumers e).

Lemma seek_enum_shared first sd :
  seek_enum first (DShared sd) =
  DShared (set_core (drained_core (consumer_id <$> get_consumers (reset_after_seek first sd))
                       (Dispatch.reset_after_seek first (core sd))) sd).
Proof.
  unfold seek_enum; cbn [get_consumers reset_after_seek enum_dispatcher query_enum map_enum].
  change (reset_after_seek first sd) with (set_core (Dispatch.reset_after_seek first (core sd)) sd).
  generalize (Dispatch.reset_after_seek first (core sd)) as k.
  intros k; generalize (get_consumers (set_core k sd)) as cs; intros cs; unfold drained_core; revert k.
  induction cs as [|c cs IH]; intros k; cbn [foldl fmap list_fmap]; [done | by rewrite <- IH].
Qed.

Lemma seek_enum_key first kd :
  seek_enum first (DKeyShared kd) =
  DKeyShared (KeyShared.set_key_core (drained_core (consumer_id <$> get_consumers (reset_after_seek first kd))
                       (Dispatch.reset_after_seek first (KeyShared.key_core kd))) kd).
Proof.
  unfold seek_enum; cbn [get_consumers reset_after_seek enum_dispatcher query_enum map_enum].
  change (reset_after_seek first kd) with (KeyShared.set_key_core (Dispatch.reset_after_seek first (KeyShared.key_core kd)) kd).
  generalize (Dispatch.reset_after_seek first (KeyShared.key_core kd)) as k.
  intros k; generalize (get_consumers (KeyShared.set_key_core k kd)) as cs; intros cs; unfold drained_core; revert k.
  induction cs as [|c cs IH]; intros k; cbn [foldl fmap list_fmap]; [done | by rewrite <- IH].
Qed.

(** After it the core holds nothing and starts at [first]. *)
Lemma seek_core ms acked readable ids first d :
  (forall id c, consumers d !! id = Some c -> consumer_id c = id) ->
  (forall id, is_Some (consumers d !! id) -> id ∈ ids) ->
  rp_readable readable first -> (forall x, x ∈ ms -> behind first x -> acked x = true) ->
  let d' := drained_core ids (Dispatch.reset_after_seek first d) in
  delivery_wf ms acked readable d' /\ forall m, ~ held d' m.
Proof.
  intros Hids Hall Hr Hb; cbn zeta.
  destruct (drained_core_spec ids (Dispatch.reset_after_seek first d)) as (Hrc & Hrp & Hback & _).
  assert (forall id c', consumers (drained_core ids (Dispatch.reset_after_seek first d)) !! id = Some c' ->
    consumer_id c' = id /\ forall m, ~ holds c' m) as Hclean.
  { intros id c' Hc; destruct (Hback id c' Hc) as (c & Hc0 & Hi & Hno); cbn in Hc0; split.
    - rewrite <- (Hids id c Hc0); unfold consumer_id; by rewrite Hi.
    - apply Hno; left; apply Hall; by exists c. }
  split; [|intros m (id & c & Hc & Hm); by apply (Hclean id c Hc) in Hm].
  apply clean_core; rewrite ?Hrc, ?Hrp; [done | done | apply clear_wf | done | done].
Qed.

Lemma seek_wf `{MetadataDecoder} ms acked acked' readable first e :
  enum_wf ms acked readable e -> is_shared_type (get_type e) = true ->
  rp_readable readable first -> (forall x, x ∈ ms -> behind first x -> acked' x = true) ->
  enum_wf ms acked' readable (seek_enum first e) /\ get_type (seek_enum first e) = get_type e.
Proof.
  intros Hw Hty Hr Hb; destruct e as [xd|sd|fd|kd]; [done | | done |].
  - rewrite seek_enum_shared; split; [|done]; set (ids := consumer_id <$> _); destruct Hw as [Ho Hd].
    assert (forall id, is_Some (consumers (core sd) !! id) -> id ∈ ids) as Hall.
    { intros id [c Hc]; rewrite <- (dw_ids _ _ _ _ _ Hd id c Hc); apply list_elem_of_fmap_2.
      change (c ∈ ordered_consumers sd); apply ordered_consumers_elem; [done |].
      by rewrite (dw_ids _ _ _ _ _ Hd id c Hc). }
    destruct (drained_core_spec ids (Dispatch.reset_after_seek first (core sd))) as (_ & _ & Hback & Hfwd).
    split; [|by apply seek_core; [apply Hd | | |]].
    apply order_wf_core; [done | | exact Hfwd]; intros id c' Hc; destruct (Hback id c' Hc) as (c & ? & ? & _); by exists c.
  - rewrite seek_enum_key; split; [|done]; set (ids := consumer_id <$> _).
    pose proof (KeyDelivery.ki_wf _ _ _ _ _ Hw) as Hd.
    destruct (seek_core ms acked' readable ids first (KeyShared.key_core kd)) as [Hwf Hno]; [apply Hd | | done | done |].
    { intros id [c Hc]; rewrite <- (dw_ids _ _ _ _ _ Hd id c Hc); apply list_elem_of_fmap_2.
      apply elem_of_values; by exists id. }
    destruct (drained_core_spec ids (Dispatch.reset_after_seek first (KeyShared.key_core kd))) as (Hrc & _).
    set (d' := drained_core ids (Dispatch.reset_after_seek first (KeyShared.key_core kd))) in *.
    change (KeyDelivery.key_inv ms acked' readable None d'); apply clean_key; [done | done | |]; by rewrite Hrc.
Qed.
End seek.

(** ** The runtime *)

Section runtime.
Context `{MetadataDecoder} {S E : Type} `{SubscriptionStore S E}.
Implicit Types (s : S) (ms : list StoredMessage) (acked : StoredMessage -> bool)
  (readable : ManagedLedgerPosition -> Prop) (rt : PersistentSubscriptionRuntime).

Record runtime_wf ms acked readable rt : Prop := {
  rw_dispatcher : forall d, dispatcher rt = Some d ->
    enum_wf ms acked readable d /\ get_type d = rt_sub_type rt;
  rw_pending : forall pos, pending_first_unacked rt = Some pos ->
    dispatcher rt = None /\ rp_readable readable pos /\ forall x, x ∈ ms -> behind pos x -> acked x = true;
}.

(** An operation that replaces the dispatcher. *)
Lemma runtime_wf_set ms acked acked' readable d rt :
  runtime_wf ms acked readable rt -> dispatcher rt <> None ->
  (forall x, d = Some x -> enum_wf ms acked' readable x /\ get_type x = rt_sub_type rt) ->
  runtime_wf ms acked' readable (set_dispatcher d rt).
Proof.
  intros [Hd Hp] Hsome Hx; split; [exact Hx |]; cbn; intros pos Hpos; destruct (Hp pos Hpos) as [? _]; congruence.
Qed.

Lemma grown_runtime s ms acked readable ms' acked' readable' rt :
  presents s ms' acked' readable' -> grown ms acked readable ms' acked' readable' ->
  runtime_wf ms acked readable rt -> runtime_wf ms' acked' readable' rt.
Proof.
  intros Hs Hg [Hd Hp]; split.
  - intros d E1; destruct (Hd d E1); split; [by eapply enum_grown | done].
  - intros pos E1; destruct (Hp pos E1) as (? & Hr & Hb); split_and!; [done | by eapply grown_rp |].
    intros x Hx Hbx; assert (x ∈ ms) by (by eapply grown_behind).
    apply (gr_acked _ _ _ _ _ _ Hg); [done | by apply Hb].
Qed.

Lemma runtime_add_wf ms acked readable c rt :
  runtime_wf ms acked readable rt -> (forall m, ~ holds c m) -> 0 <= priority_level c ->
  runtime_wf ms acked readable (runtime_add_consumer c rt).2.
Proof.
  intros [Hd Hp] Hno Hprio; unfold runtime_add_consumer.
  assert (exists d, dispatcher (reuse_or_create_dispatcher rt) = Some d /\
    rt_sub_type (reuse_or_create_dispatcher rt) = rt_sub_type rt /\
    pending_first_unacked (reuse_or_create_dispatcher rt) = pending_first_unacked rt /\
    (dispatcher rt = Some d \/ dispatcher rt = None /\
       d = new_with_key_shared_policy (rt_sub_type rt) (rt_key_shared_policy rt))) as (d & E1 & E2 & E3 & Hcase).
  { unfold reuse_or_create_dispatcher; destruct (dispatcher rt) as [d|] eqn:Ed.
    - destruct (Hd d eq_refl) as [_ Hty]; rewrite bool_decide_true by done; rewrite andb_false_r, Ed.
      exists d; rewrite Ed; auto.
    - rewrite Ed; cbn; eexists; split_and!; [done | done | done | by right]. }
  rewrite E1, E2, E3; clear E1 E3.
  set (d1 := match pending_first_unacked rt with Some pos => init_read_position pos <$> Some d | None => Some d end).
  assert (exists x, d1 = Some x /\ enum_wf ms acked readable x /\ get_type x = rt_sub_type rt) as (x & -> & Hx & Hty).
  { unfold d1; destruct (pending_first_unacked rt) as [pos|].
    - destruct (Hp pos eq_refl) as (En & Hr & Hb); destruct Hcase as [?|[_ ->]]; [congruence |].
      eexists; split; [reflexivity |]; by apply enum_new.
    - destruct Hcase as [Es|[_ ->]]; [by exists d; split; [|apply Hd] |].
      eexists; split; [reflexivity |]; destruct (enum_new ms acked readable (rt_sub_type rt) (rt_key_shared_policy rt) None)
        as [Hw Ht]; [done | done |].
      revert Hw Ht; by destruct (rt_sub_type rt). }
  cbn [dispatcher]; destruct (add_consumer c x) as [x'|] eqn:Ea; cbn [snd]; split; cbn; try done; intros y [= <-].
  - destruct (enum_add ms acked readable c x x' Hx Hno Hprio Ea) as [? Ht]; split; [done | exact (eq_trans Ht Hty)].
  - done.
Qed.

Lemma runtime_dispatch_wf s ms acked readable rt :
  presents s ms acked readable -> runtime_wf ms acked readable rt ->
  exists rt', runtime_dispatch_messages s rt = Some (Ok tt, rt') /\ runtime_wf ms acked readable rt' /\
    pending_first_unacked rt' = pending_first_unacked rt /\ rt_sub_type rt' = rt_sub_type rt.
Proof.
  intros Hs Hw; unfold runtime_dispatch_messages; destruct (dispatcher rt) as [d|] eqn:Ed; [|by exists rt].
  destruct (rw_dispatcher _ _ _ _ Hw d Ed) as [Hd Hty].
  destruct (enum_dispatch s ms acked readable d Hs Hd) as (d' & -> & Hd' & Hty').
  eexists; split_and!; [reflexivity | | done | done]; eapply runtime_wf_set; [exact Hw | congruence |].
  intros x [= <-]; split; [done | congruence].
Qed.

Lemma runtime_update_wf ms acked readable id f rt :
  (forall c, info (f c) = info c /\ pending_acks (f c) = pending_acks c) ->
  runtime_wf ms acked readable rt -> runtime_wf ms acked readable (runtime_update_consumer id f rt).
Proof.
  intros Hf Hw; unfold runtime_update_consumer; destruct (dispatcher rt) as [d|] eqn:Ed; cbn.
  - eapply runtime_wf_set; [exact Hw | congruence |]; intros x [= <-].
    destruct (rw_dispatcher _ _ _ _ Hw d Ed); split; [by apply enum_neutral | by destruct d].
  - destruct Hw; split; cbn; [done | intros pos Hpos; by split; [|apply rw_pending0]].
Qed.

Lemma runtime_flow_wf ms acked readable id n rt :
  runtime_wf ms acked readable rt -> runtime_wf ms acked readable (apply_flow_permits id n rt).
Proof.
  intros Hw; unfold apply_flow_permits; destruct (dispatcher rt) as [d|] eqn:Ed; cbn.
  - eapply runtime_wf_set; [exact Hw | congruence |]; intros x [= <-].
    destruct (rw_dispatcher _ _ _ _ Hw d Ed); split; [by apply enum_flow | by destruct d].
  - destruct Hw; split; cbn; [done | intros pos Hpos; by split; [|apply rw_pending0]].
Qed.

Lemma runtime_remove_wf s ms acked readable id rt :
  presents s ms acked readable -> runtime_wf ms acked readable rt ->
  (forall d, dispatcher rt = Some d -> removable id d) ->
  exists c rt', runtime_remove_with_recovery s id rt = Some (c, rt') /\ runtime_wf ms acked readable rt'.
Proof.
  intros Hs Hw Hrem; unfold runtime_remove_with_recovery; destruct (dispatcher rt) as [d|] eqn:Ed; [|by eauto].
  destruct (rw_dispatcher _ _ _ _ Hw d Ed) as [Hd Hty].
  destruct (enum_removal s ms acked readable Hs id d Hd (Hrem d eq_refl)) as [Hty' Hd'].
  destruct (enum_remove_with_recovery s id d) as [c d1]; cbn [snd] in *.
  destruct Hd' as [Hd'|(xd & -> & Hx)].
  - assert (runtime_wf ms acked readable (set_dispatcher (Some d1) rt)) as Hw1.
    { eapply runtime_wf_set; [exact Hw | congruence |]; intros x [= <-]; split; [done | congruence]. }
    destruct (runtime_dispatch_wf s ms acked readable _ Hs Hw1) as (rt2 & Er & Hw2 & _ & _).
    unfold dispatch_and_log; rewrite Er; cbn; eexists c, _; split; [reflexivity |].
    destruct (dispatcher rt2) as [d2|] eqn:E2; [|done].
    destruct (negb _ && negb _); [|done]; eapply runtime_wf_set; [exact Hw2 | congruence | done].
  - unfold dispatch_and_log, runtime_dispatch_messages; cbn -[exclusive_dispatch_messages].
    unfold exclusive_dispatch_messages; rewrite Hx; cbn; rewrite Hx; cbn.
    eexists c, _; split; [reflexivity |]; split; [done |]; cbn; intros pos Hpos.
    split; [done |]; by apply (rw_pending _ _ _ _ Hw).
Qed.
(** The removal of a consumer ends, also when it takes its messages along. *)
Lemma runtime_remove_ends s ms acked readable id rt :
  presents s ms acked readable -> runtime_wf ms acked readable rt -> runtime_remove_with_recovery s id rt <> None.
Proof.
  intros Hs Hw; destruct (dispatcher rt) as [d|] eqn:Ed; [|unfold runtime_remove_with_recovery; by rewrite Ed].
  assert (removable id d \/ exists fd, d = DFailover fd /\ fo_active fd <> Some id) as [Hrem|(fd & -> & Hact)].
  { destruct d as [xd|sd|fd|kd]; [by left .. | | by left]; destruct (decide (fo_active fd = Some id)); [left; by left | right; eauto]. }
  - destruct (runtime_remove_wf s ms acked readable id rt Hs Hw) as (c & rt' & -> & _); [|done].
    rewrite Ed; by intros ? [= <-].
  - destruct (rw_dispatcher _ _ _ _ Hw _ Ed) as [Hk _]; cbn [enum_wf] in Hk.
    destruct (failover_standby_spec s ms acked readable id fd Hk Hact) as (Hpos & Hids & _).
    unfold runtime_remove_with_recovery; rewrite Ed; cbn [enum_remove_with_recovery].
    destruct (failover_remove_with_recovery s id fd) as [c fd1]; cbn [snd] in *.
    destruct (failover_dispatch_step s ms acked readable Hs (Datatypes.S (ss_size s)) fd1) as (fd2 & Hd & _);
      [done | rewrite Hpos; apply Hk | lia |].
    unfold dispatch_and_log, runtime_dispatch_messages; cbn -[failover_dispatch_messages]; by rewrite Hd.
Qed.
End runtime.

(** ** The subscription *)

Section subscription.
Context `{MetadataDecoder} {S E : Type} `{DurableCursor S E}.
Implicit Types (s : S) (ms : list StoredMessage) (acked : StoredMessage -> bool)
  (readable : ManagedLedgerPosition -> Prop) (rt : PersistentSubscriptionRuntime) (sub : Subscription (S := S)).

(** More messages of the same topic are acknowledged. *)
Lemma runtime_more ms acked acked' readable rt :
  (forall x, x ∈ ms -> acked x = true -> acked' x = true) ->
  runtime_wf ms acked readable rt -> runtime_wf ms acked' readable rt.
Proof.
  intros Ha [Hd Hp]; split.
  - intros d E1; destruct (Hd d E1) as [Hw Hty]; split; [|done].
    destruct d as [xd|sd|fd|kd]; cbn [enum_wf] in *.
    + eapply grown_fo; [by apply grown_same | done].
    + destruct Hw as [Ho Hw]; split; [done |]; eapply grown_wf; [by apply grown_same | done].
    + eapply grown_fo; [by apply grown_same | done].
    + eapply key_inv_from; [exact Hw | | apply Hw | done | by eauto | by left | by right].
      eapply grown_wf; [by apply grown_same | apply Hw].
  - intros pos E1; destruct (Hp pos E1) as (? & ? & Hb); split_and!; [done | done |]; auto.
Qed.

Lemma owned_by_spec m c id t : owned_by m c = Some (id, t) -> id = consumer_id c /\ holds c t.
Proof.
  unfold owned_by; destruct (has_pending_ack m c) eqn:Eh.
  - intros [= <- <-]; split; [done |]; unfold has_pending_ack, pending_contains in Eh; by apply bool_decide_eq_true in Eh.
  - destruct (find_pending_ack_by_position _ _ c) as [k|] eqn:Ef; [|done]; intros [= <- <-]; split; [done |].
    by apply find_by_position_spec in Ef as (? & _).
Qed.

Lemma first_owner_spec m cs owner t :
  first_owner m cs = Some (owner, t) -> exists c, c ∈ cs /\ consumer_id c = owner /\ holds c t.
Proof.
  induction cs as [|x cs IH]; cbn; [done |]; destruct (owned_by m x) as [[i k]|] eqn:Eo.
  - intros [= <- <-]; apply owned_by_spec in Eo as [-> ?]; exists x; split; [by left | done].
  - intros Hf; destruct (IH Hf) as (y & ? & ? & ?); exists y; split; [by right | done].
Qed.

Lemma resolve_ack_owner_spec self m rt owner t :
  resolve_ack_owner self m rt = Some (owner, t) ->
  exists d c, dispatcher rt = Some d /\ c ∈ get_consumers d /\ consumer_id c = owner /\ holds c t.
Proof.
  unfold resolve_ack_owner, home_consumer, home_consumers, runtime_home, runtime_get_consumer, runtime_get_consumers.
  destruct (dispatcher rt) as [d|]; cbn -[get_consumers]; [|done]; unfold get_consumer.
  set (others := first_owner m _); intros Hr.
  assert (others = Some (owner, t) -> exists c, c ∈ get_consumers d /\ consumer_id c = owner /\ holds c t) as Hothers.
  { intros (c & [_ Hc]%list_elem_of_filter & ? & ?)%first_owner_spec; by exists c. }
  enough (exists c, c ∈ get_consumers d /\ consumer_id c = owner /\ holds c t) as (x & ? & ? & ?) by (by exists d, x).
  destruct (List.find _ (get_consumers d)) as [c|] eqn:Ef; cbn in Hr; [|by apply Hothers].
  destruct (owned_by m c) as [[i k]|] eqn:Eo; cbn in Hr; [|by apply Hothers].
  injection Hr as <- <-; apply owned_by_spec in Eo as [-> ?]; apply find_some in Ef as [Hc%list_elem_of_In _]; by exists c.
Qed.

(** Taking acknowledged messages from their holders. *)
Lemma settle_runtime ms acked readable rt d c m :
  runtime_wf ms acked readable rt -> dispatcher rt = Some d -> c ∈ get_consumers d -> holds c m ->
  runtime_wf ms (also m acked) readable (runtime_update_consumer (consumer_id c) (settle_ack m) rt) /\ stored_id ms m.
Proof.
  intros Hw Ed Hc Hm; destruct (rw_dispatcher _ _ _ _ Hw d Ed) as [Hd Hty].
  destruct (enum_settle ms acked readable d c m Hd Hc Hm) as [Hd' Hst]; split; [|done].
  unfold runtime_update_consumer; rewrite Ed; cbn; eapply runtime_wf_set; [exact Hw | congruence |].
  intros x [= <-]; split; [done | by destruct d].
Qed.

Definition settled_as ms acked readable (l : list MessageId) rt : Prop :=
  Forall (stored_id ms) l /\
  forall acked', (forall x, x ∈ ms -> acked x = true \/ message_id x ∈ l -> acked' x = true) ->
    runtime_wf ms acked' readable rt.

Lemma settled_as_cons ms acked readable m l rt :
  stored_id ms m -> settled_as ms (also m acked) readable l rt -> settled_as ms acked readable (m :: l) rt.
Proof.
  intros Hm [Hst Hw]; split; [by constructor |]; intros acked' Ha; apply Hw; intros x Hx Hcase.
  rewrite also_true in Hcase; apply Ha; [done |]; rewrite elem_of_cons; tauto.
Qed.

Lemma take_owned_spec ms acked readable self ids rt l rt' :
  runtime_wf ms acked readable rt -> take_owned self ids rt = (l, rt') ->
  settled_as ms acked readable l rt' /\ rt_sub_type rt' = rt_sub_type rt.
Proof.
  revert acked rt l; induction ids as [|m ids IH]; intros acked rt l Hw; cbn [take_owned].
  - intros [= <- <-]; split; [|done]; split; [constructor |]; intros acked' Ha; eapply runtime_more; [|exact Hw]; auto.
  - destruct (resolve_ack_owner self m rt) as [[owner t]|] eqn:Er; [|by apply IH].
    destruct (take_owned self ids _) as [l1 rt1] eqn:Et; intros [= <- <-].
    apply resolve_ack_owner_spec in Er as (d & c & Ed & Hc & <- & Hh).
    destruct (settle_runtime ms acked readable rt d c t Hw Ed Hc Hh) as [Hw1 Hst].
    destruct (IH (also t acked) _ _ Hw1 Et) as [Hs Hty]; split; [by apply settled_as_cons | done].
Qed.

Lemma take_own_spec ms acked readable self ids rt l rt' :
  runtime_wf ms acked readable rt -> take_own self Individual ids rt = (l, rt') ->
  settled_as ms acked readable l rt' /\ rt_sub_type rt' = rt_sub_type rt.
Proof.
  revert acked rt l; induction ids as [|m ids IH]; intros acked rt l Hw; cbn [take_own].
  - intros [= <- <-]; split; [|done]; split; [constructor |]; intros acked' Ha; eapply runtime_more; [|exact Hw]; auto.
  - unfold home_consumer, runtime_home, runtime_get_consumer; destruct (dispatcher rt) as [d|] eqn:Ed;
      cbn -[get_consumer]; [|by apply IH].
    destruct (get_consumer self d) as [c|] eqn:Ec; cbn; [|by apply IH].
    destruct (has_pending_ack m c) eqn:Eh; [|by apply IH].
    destruct (take_own self Individual ids _) as [l1 rt1] eqn:Et; intros [= <- <-].
    apply find_some in Ec as [Hc%list_elem_of_In Hid]; apply bool_decide_eq_true in Eh.
    assert (self = consumer_id c) as -> by (apply Z.eqb_eq in Hid; done).
    destruct (settle_runtime ms acked readable rt d c m Hw Ed Hc Eh) as [Hw1 Hst].
    destruct (IH (also m acked) _ _ Hw1 Et) as [Hs Hty]; split; [by apply settled_as_cons | done].
Qed.

Lemma ack_all_shared_spec s ms acked readable l :
  durable s ms acked readable -> Forall (stored_id ms) l ->
  exists s' acked', ack_all_shared l s = (Ok tt, s') /\ durable s' ms acked' readable /\
    forall y, y ∈ ms -> acked' y = true <-> acked y = true \/ message_id y ∈ l.
Proof.
  revert s acked; induction l as [|m l IH]; intros s acked Hd Hl; cbn.
  - exists s, acked; split_and!; [done | done |]; intros y _; rewrite elem_of_nil; tauto.
  - apply Forall_cons in Hl as [(x & Hx & <-) Hl].
    destruct (durable_ack s ms acked readable x Hd Hx) as (s1 & acked1 & -> & Hd1 & Ha1).
    destruct (IH s1 acked1 Hd1 Hl) as (s' & acked' & -> & Hd' & Ha2).
    exists s', acked'; split_and!; [done | done |]; intros y Hy; rewrite Ha2, Ha1, elem_of_cons by done.
    split; [intros [[->|?]|?]; auto | intros [?|[Heq|?]]; auto].
    left; left; apply (stored_id_inj s ms acked readable (durable_presents _ _ _ _ Hd)); done.
Qed.

Lemma notify_acked_spec s ms acked readable l rt :
  presents s ms acked readable -> runtime_wf ms acked readable rt ->
  Forall (fun m => stored_id ms m /\ forall x, x ∈ ms -> message_id x = m -> acked x = true) l ->
  runtime_wf ms acked readable (notify_acked l rt) /\ rt_sub_type (notify_acked l rt) = rt_sub_type rt.
Proof.
  intros Hs; revert rt; induction l as [|m l IH]; intros rt Hw Hl; [done |].
  apply Forall_cons in Hl as [[Hst Ha] Hl]; unfold notify_acked; cbn [foldl].
  destruct (IH (runtime_message_acknowledged m rt)) as [Hw' Hty]; [|done | split; [exact Hw' | exact Hty]].
  unfold runtime_message_acknowledged; destruct (dispatcher rt) as [d|] eqn:Ed; cbn.
  - eapply runtime_wf_set; [exact Hw | congruence |]; intros x [= <-].
    destruct (rw_dispatcher _ _ _ _ Hw d Ed); split; [by eapply enum_acknowledged | by destruct d].
  - destruct Hw; split; cbn; [done | intros pos Hpos; by split; [|apply rw_pending0]].
Qed.

(** The store presents messages, and the runtime keeps track of them. *)
Record tracked sub ms acked readable : Prop := {
  tr_durable : durable (sub_store sub) ms acked readable;
  tr_runtime : runtime_wf ms acked readable (runtime sub);
}.

Definition sub_inv sub ms : Prop := exists acked readable, tracked sub ms acked readable.

(** Acknowledging what was taken from its holders. *)
Lemma acknowledge_wf s rt l ms acked readable :
  durable s ms acked readable -> settled_as ms acked readable l rt ->
  exists sub', acknowledge_message l Individual (mkSubscription s rt) = (Ok tt, sub') /\ sub_inv sub' ms /\
    sub_store sub' = (ack_all_shared l s).2.
Proof.
  intros Hd [Hst Hw]; unfold acknowledge_message, sub_type; destruct l as [|m l].
  { eexists; split; [reflexivity |]; split; [|done].
    exists acked, readable; split; [done |]; apply Hw; intros x Hx [?|?%elem_of_nil]; done. }
  destruct (ack_all_shared_spec s ms acked readable (m :: l) Hd Hst) as (s' & acked' & Ea & Hd' & Hiff).
  pose proof (durable_presents _ _ _ _ Hd') as Hs'.
  assert (runtime_wf ms acked' readable rt) as Hw1 by (apply Hw; intros x Hx Hc; by apply Hiff).
  destruct (notify_acked_spec s' ms acked' readable (m :: l) rt Hs' Hw1) as [Hw2 Hty].
  { apply Forall_forall; intros k Hk; rewrite Forall_forall in Hst; split; [by apply Hst |].
    intros x Hx <-; apply Hiff; [done | by right]. }
  cbn [sub_store runtime]; destruct (is_shared_type (rt_sub_type rt)); cbn [sub_store];
    rewrite Ea; cbn [with_store with_runtime runtime sub_store].
  - unfold runtime_ack_state_updated; destruct (dispatcher (notify_acked (m :: l) rt)) as [d|] eqn:Edd.
    + destruct (rw_dispatcher _ _ _ _ Hw2 d Edd) as [Hwd Htd].
      destruct (enum_ack_state s' ms acked' readable d Hs' Hwd) as (d' & -> & Hd2 & Ht2).
      eexists; split; [reflexivity |]; split; [|done]; exists acked', readable; split; [done |].
      eapply (runtime_wf_set ms acked' acked' readable (Some d') (notify_acked (m :: l) rt)); [exact Hw2 | by rewrite Edd |].
      intros x [= <-]; split; [done | by rewrite Ht2].
    + eexists; split; [reflexivity |]; split; [|done]; exists acked', readable; by split.
  - eexists; split; [reflexivity |]; split; [|done]; exists acked', readable; by split.
Qed.

(** The store changes by the acknowledgements of stored messages. *)
Lemma message_acked_wf self ids sub ms :
  sub_inv sub ms -> exists sub', message_acked self Individual ids sub = (Ok tt, sub') /\ sub_inv sub' ms /\
    exists l, Forall (stored_id ms) l /\ sub_store sub' = (ack_all_shared l (sub_store sub)).2.
Proof.
  intros (acked & readable & [Hd Hw]); unfold message_acked; destruct ids as [|i ids].
  { exists sub; split; [done |]; split; [by exists acked, readable | by exists []]. }
  assert (forall l rt, settled_as ms acked readable l rt -> exists sub',
    match l with
    | [] => (Ok tt, mkSubscription (sub_store sub) rt)
    | _ :: _ => acknowledge_message l Individual (mkSubscription (sub_store sub) rt)
    end = (Ok tt, sub') /\ sub_inv sub' ms /\
    exists l, Forall (stored_id ms) l /\ sub_store sub' = (ack_all_shared l (sub_store sub)).2) as Hfin.
  { intros l rt Hset; destruct (acknowledge_wf (sub_store sub) rt l ms acked readable Hd Hset) as (sub' & Ea & Hi & Es).
    exists sub'; split_and!; [by destruct l | done | exists l; split; [apply Hset | done]]. }
  destruct (is_shared_type (sub_type sub)).
  - destruct (take_owned self (i :: ids) (runtime sub)) as [l rt] eqn:Et.
    by apply Hfin; eapply take_owned_spec.
  - destruct (take_own self Individual (i :: ids) (runtime sub)) as [l rt] eqn:Et.
    by apply Hfin; eapply take_own_spec.
Qed.

Lemma unacked_entries_spec s ms acked readable es :
  presents s ms acked readable -> (forall e, e ∈ es -> stored_id ms (re_message_id e)) ->
  exists l, unacked_entries s es = Ok l /\ (forall e, e ∈ l -> e ∈ es) /\
    forall e, e ∈ es -> e ∈ l \/ forall x, x ∈ ms -> message_id x = re_message_id e -> acked x = true.
Proof.
  intros Hs; induction es as [|e es IH]; intros Hst; cbn.
  { exists []; split_and!; [done | done | by intros e ?%elem_of_nil]. }
  destruct IH as (l & -> & Hsub & Hrest); [intros k Hk; apply Hst; by right |].
  destruct (Hst e ltac:(by left)) as (x & Hx & Hid); rewrite <- Hid, (pr_acked _ _ _ _ Hs x Hx).
  eexists; split; [reflexivity |]; destruct (acked x) eqn:Ea; split.
  - intros k Hk; right; by apply Hsub.
  - intros k [->|Hk]%elem_of_cons; [right | by apply Hrest].
    intros y Hy Heq; by rewrite (stored_id_inj s ms acked readable Hs y x Hy Hx ltac:(congruence)).
  - intros k [->|Hk]%elem_of_cons; [by left | right; by apply Hsub].
  - intros k [->|Hk]%elem_of_cons; [by left; left | destruct (Hrest k Hk); [left; by right | by right]].
Qed.

Lemma redeliver_wf id ids sub ms :
  sub_inv sub ms -> exists r sub', redeliver_unacknowledged_messages id ids sub = Some (r, sub') /\ sub_inv sub' ms.
Proof.
  intros (acked & readable & [Hd Hw]); unfold redeliver_unacknowledged_messages.
  destruct (is_shared_type (sub_type sub)) eqn:Ety; cbn [negb].
  2: { eexists _, sub; split; [reflexivity |]; by exists acked, readable. }
  unfold runtime_get_consumer; destruct (dispatcher (runtime sub)) as [d|] eqn:Ed; cbn -[get_consumer].
  2: { eexists _, sub; split; [reflexivity |]; by exists acked, readable. }
  destruct (get_consumer id d) as [c|] eqn:Ec.
  2: { eexists _, sub; split; [reflexivity |]; by exists acked, readable. }
  apply find_some in Ec as [Hc%list_elem_of_In Hid]; apply Z.eqb_eq in Hid; subst id.
  destruct (take_for_redelivery ids c) as [es c'] eqn:Et; apply take_for_redelivery_spec in Et.
  destruct (rw_dispatcher _ _ _ _ Hw d Ed) as [Hwd Htd]; pose proof (durable_presents _ _ _ _ Hd) as Hs.
  assert (is_shared_type (get_type d) = true) as Htd' by (by rewrite Htd).
  assert (forall e, e ∈ es -> stored_id ms (re_message_id e)) as Hst.
  { intros e He; destruct (tb_entries _ _ _ Et e He) as (a & Ha & _).
    eapply enum_settle; [exact Hwd | exact Hc | by exists a]. }
  destruct (unacked_entries_spec (sub_store sub) ms acked readable es Hs Hst) as (l & El & Hsub & Hrest).
  pose proof (enum_redeliver (sub_store sub) ms acked readable d c es l c' Hs Hwd Htd' Hc Et Hsub Hrest) as Hwr.
  set (d1 := update_consumer (consumer_id c) (fun _ => c') d) in *.
  assert (runtime_wf ms acked readable (set_dispatcher (Some (redeliver_messages l d1)) (runtime sub))) as Hwr1.
  { eapply runtime_wf_set; [exact Hw | congruence |]; intros x [= <-]; split; [done |]; rewrite <- Htd; by destruct d. }
  unfold with_runtime, runtime_update_consumer; rewrite Ed; cbn [fmap option_fmap option_map sub_store runtime].
  assert (l = [] -> redeliver_messages l d1 = d1) as Hnil.
  { intros ->; unfold d1; by destruct d. }
  destruct es as [|e es].
  { destruct l; [|by specialize (Hsub r ltac:(by left)); apply elem_of_nil in Hsub].
    eexists _, _; split; [reflexivity |]; exists acked, readable; split; [done |].
    rewrite (Hnil eq_refl) in Hwr1; exact Hwr1. }
  rewrite El; destruct l as [|e0 l].
  { eexists _, _; split; [reflexivity |]; exists acked, readable; split; [done |].
    rewrite (Hnil eq_refl) in Hwr1; exact Hwr1. }
  destruct (runtime_dispatch_wf (sub_store sub) ms acked readable _ Hs Hwr1) as (rt' & Er & Hw' & _).
  assert (runtime_redeliver_messages (sub_store sub) (e0 :: l) (set_dispatcher (Some d1) (runtime sub)) = Some rt') as Em.
  { unfold runtime_redeliver_messages, dispatch_and_log; cbn [dispatcher set_dispatcher].
    change (snd <$> runtime_dispatch_messages (sub_store sub)
      (set_dispatcher (Some (redeliver_messages (e0 :: l) d1)) (runtime sub)) = Some rt'); by rewrite Er. }
  exists (Ok tt), (mkSubscription (sub_store sub) rt'); split; [|exists acked, readable; by split].
  transitivity (match runtime_redeliver_messages (sub_store sub) (e0 :: l) (set_dispatcher (Some d1) (runtime sub)) with
                | Some rt => Some (Ok (E := sub_error E) tt, mkSubscription (sub_store sub) rt)
                | None => None
                end); [reflexivity | by rewrite Em].
Qed.

Lemma drain_all_runtime first rt d :
  dispatcher rt = Some d ->
  drain_all (runtime_reset_after_seek first rt) = set_dispatcher (Some (seek_enum first d)) rt.
Proof.
  intros Ed; unfold drain_all, runtime_reset_after_seek, seek_enum, runtime_get_consumers; rewrite Ed.
  cbn [dispatcher set_dispatcher fmap option_fmap option_map from_option].
  generalize (reset_after_seek first d) as e; intros e; generalize (get_consumers e) as cs; intros cs; revert e.
  induction cs as [|c cs IH]; intros e; [done |]; cbn [foldl]; apply IH.
Qed.

(** A subscription that starts at the first unacknowledged message has passed
    only acknowledged ones. *)
Lemma first_unacked_start s ms acked readable :
  presents s ms acked readable ->
  exists first, ss_first_unacked_position s = Ok first /\ rp_readable readable first /\
    forall y, y ∈ ms -> behind first y -> acked y = true.
Proof.
  intros Hs; pose proof (pr_first _ _ _ _ Hs) as Hf; destruct (ss_first_unacked_position s) as [first|]; [|done].
  exists first; split; [done |]; destruct first as [p|]; [|done]; destruct Hf as (Hp & m & Hm & Hrank).
  split; [by intros ? [= <-] |]; intros y Hy Hby; cbn in Hby.
  pose proof (find_sorted _ (fun m => negb (acked m)) _ (pr_sorted _ _ _ _ Hs)) as Hfs; rewrite Hm in Hfs.
  destruct Hfs as (_ & _ & Hleast); destruct (acked y) eqn:Ey; [done |].
  destruct (Hleast y Hy ltac:(by rewrite Ey)) as [->|?]; lia.
Qed.

Lemma seek_to_message_wf x sub ms :
  sub_inv sub ms -> is_shared_type (sub_type sub) = true ->
  (dispatcher (runtime sub) = None -> pending_first_unacked (runtime sub) = None) -> x ∈ ms ->
  exists sub', seek_to_message_id (message_id x) sub = (Ok tt, sub') /\ sub_inv sub' ms.
Proof.
  intros (acked & readable & [Hd Hw]) Hty Hpend Hx; unfold seek_to_message_id; rewrite Hty.
  destruct (durable_seek _ _ _ _ x Hd Hx) as (s' & acked' & -> & Hd' & Ha').
  pose proof (durable_presents _ _ _ _ Hd') as Hs'.
  destruct (first_unacked_start _ _ _ _ Hs') as (first & -> & Hr & Hb).
  eexists; split; [reflexivity |]; exists acked', readable; split; [done |].
  cbn [runtime with_runtime with_store]; destruct (dispatcher (runtime sub)) as [d|] eqn:Ed.
  - rewrite (drain_all_runtime first _ d Ed); destruct (rw_dispatcher _ _ _ _ Hw d Ed) as [Hwd Htd].
    destruct (seek_wf ms acked acked' readable first d Hwd) as [Hw' Hty']; [by rewrite Htd | done | done |].
    eapply runtime_wf_set; [exact Hw | congruence |]; intros y [= <-]; split; [done | congruence].
  - unfold runtime_reset_after_seek, drain_all, runtime_get_consumers; rewrite Ed; cbn.
    split; cbn; [done |]; by rewrite Hpend.
Qed.

Lemma permits_wf id n sub ms : sub_inv sub ms -> sub_inv (sub_apply_flow id n sub) ms.
Proof.
  intros (acked & readable & [Hd Hw]); exists acked, readable; split; [done |].
  by apply runtime_flow_wf, runtime_update_wf.
Qed.

Lemma flow_wf id n sub ms : sub_inv sub ms -> exists sub', sub_flow id n sub = Some sub' /\ sub_inv sub' ms.
Proof.
  intros (acked & readable & [Hd Hw]); unfold sub_flow, runtime_consumer_flow, dispatch_and_log.
  destruct (runtime_dispatch_wf (sub_store sub) ms acked readable
    (apply_flow_permits id n (runtime_update_consumer id (add_permits n) (runtime sub))) (durable_presents _ _ _ _ Hd))
    as (rt' & -> & Hw' & _); [by apply runtime_flow_wf, runtime_update_wf |].
  eexists; split; [reflexivity |]; exists acked, readable; by split.
Qed.

Lemma dispatch_wf sub ms :
  sub_inv sub ms -> exists sub', sub_dispatch_messages sub = Some (Ok tt, sub') /\ sub_inv sub' ms.
Proof.
  intros (acked & readable & [Hd Hw]); unfold sub_dispatch_messages.
  destruct (runtime_dispatch_wf (sub_store sub) ms acked readable _ (durable_presents _ _ _ _ Hd) Hw)
    as (rt' & -> & Hw' & _); eexists; split; [reflexivity |]; exists acked, readable; by split.
Qed.

Lemma leave_wf id sub ms :
  sub_inv sub ms -> (forall d, dispatcher (runtime sub) = Some d -> removable id d) ->
  exists sub', sub_remove_with_recovery id sub = Some sub' /\ sub_inv sub' ms.
Proof.
  intros (acked & readable & [Hd Hw]) Hrem; unfold sub_remove_with_recovery.
  destruct (runtime_remove_wf (sub_store sub) ms acked readable id _ (durable_presents _ _ _ _ Hd) Hw Hrem)
    as (c & rt' & -> & Hw'); eexists; split; [reflexivity |]; exists acked, readable; by split.
Qed.

Lemma leave_ends id sub ms : sub_inv sub ms -> sub_remove_with_recovery id sub <> None.
Proof.
  intros (acked & readable & [Hd Hw]); unfold sub_remove_with_recovery.
  pose proof (runtime_remove_ends (sub_store sub) ms acked readable id _ (durable_presents _ _ _ _ Hd) Hw) as He.
  by destruct (runtime_remove_with_recovery _ _ _).
Qed.

(** Messages are published: the store presents more of them. *)
Definition publishes s ms s' ms' : Prop :=
  forall acked readable, durable s ms acked readable ->
    exists acked' readable', durable s' ms' acked' readable' /\ grown ms acked readable ms' acked' readable'.

Lemma publishes_refl s ms : publishes s ms s ms.
Proof. intros acked readable Hd; exists acked, readable; split; [done | by apply grown_same]. Qed.

Lemma grown_trans ms1 acked1 readable1 ms2 acked2 readable2 ms3 acked3 readable3 :
  grown ms1 acked1 readable1 ms2 acked2 readable2 -> grown ms2 acked2 readable2 ms3 acked3 readable3 ->
  grown ms1 acked1 readable1 ms3 acked3 readable3.
Proof.
  intros [O1 N1 A1 R1] [O2 N2 A2 R2]; split; [by auto | | by auto | by auto].
  intros x [Hx|Hx]%N2; [by apply N1 | right; intros p Hp; by apply Hx, R1].
Qed.

Lemma publishes_trans s1 ms1 s2 ms2 s3 ms3 :
  publishes s1 ms1 s2 ms2 -> publishes s2 ms2 s3 ms3 -> publishes s1 ms1 s3 ms3.
Proof.
  intros H12 H23 acked1 readable1 (acked2 & readable2 & Hd2 & G2)%H12.
  destruct (H23 _ _ Hd2) as (acked3 & readable3 & Hd3 & G3); exists acked3, readable3; split; [done |].
  by eapply grown_trans.
Qed.

Lemma publishes_inv s' sub ms ms' : publishes (sub_store sub) ms s' ms' -> sub_inv sub ms -> sub_inv (with_store s' sub) ms'.
Proof.
  intros Hpub (acked & readable & [Hd Hw]); destruct (Hpub acked readable Hd) as (acked' & readable' & Hd' & Hg).
  exists acked', readable'; split; [done |]; eapply grown_runtime; [by apply durable_presents | done | done].
Qed.

(** The operations on a subscription, with the messages published so far. *)
Inductive sub_step : Subscription (S := S) * list StoredMessage -> Subscription (S := S) * list StoredMessage -> Prop :=
| step_add c r sub sub' ms :
    (forall m, ~ holds c m) -> 0 <= priority_level c -> sub_add_consumer c sub = (r, sub') ->
    sub_step (sub, ms) (sub', ms)
| step_leave id sub sub' ms :
    (forall d, dispatcher (runtime sub) = Some d -> removable id d) ->
    sub_remove_with_recovery id sub = Some sub' -> sub_step (sub, ms) (sub', ms)
| step_permits id n sub ms : sub_step (sub, ms) (sub_apply_flow id n sub, ms)
| step_flow id n sub sub' ms : sub_flow id n sub = Some sub' -> sub_step (sub, ms) (sub', ms)
| step_dispatch r sub sub' ms : sub_dispatch_messages sub = Some (r, sub') -> sub_step (sub, ms) (sub', ms)
| step_ack self ids r sub sub' ms :
    message_acked self Individual ids sub = (r, sub') -> sub_step (sub, ms) (sub', ms)
| step_redeliver id ids r sub sub' ms :
    redeliver_unacknowledged_messages id ids sub = Some (r, sub') -> sub_step (sub, ms) (sub', ms)
| step_seek x r sub sub' ms :
    is_shared_type (sub_type sub) = true ->
    (dispatcher (runtime sub) = None -> pending_first_unacked (runtime sub) = None) -> x ∈ ms ->
    seek_to_message_id (message_id x) sub = (r, sub') -> sub_step (sub, ms) (sub', ms)
| step_publish s' sub ms ms' :
    publishes (sub_store sub) ms s' ms' -> sub_step (sub, ms) (with_store s' sub, ms').

Lemma sub_step_inv p q : sub_step p q -> sub_inv p.1 p.2 -> sub_inv q.1 q.2.
Proof.
  intros Hstep Hi; destruct Hstep as [c r sub sub' ms Hno Hp Ha|id sub sub' ms Hrem Hl|id n sub ms|id n sub sub' ms Hf|r sub sub' ms Hd
    |self ids r sub sub' ms Ha|id ids r sub sub' ms Hr|x r sub sub' ms Hty Hpe Hx Hsk|s' sub ms ms' Hpub]; cbn [fst snd] in *.
  - destruct Hi as (acked & readable & [Hd Hw]); unfold sub_add_consumer in Ha.
    pose proof (runtime_add_wf ms acked readable c (runtime sub) Hw Hno Hp) as Hw'.
    destruct (runtime_add_consumer c (runtime sub)) as [r0 rt]; injection Ha as _ <-; exists acked, readable; by split.
  - destruct (leave_wf id sub ms Hi Hrem) as (sub1 & E1 & Hi'); congruence.
  - by apply permits_wf.
  - destruct (flow_wf id n sub ms Hi) as (sub1 & E1 & Hi'); congruence.
  - destruct (dispatch_wf sub ms Hi) as (sub1 & E1 & Hi'); congruence.
  - destruct (message_acked_wf self ids sub ms Hi) as (sub1 & E1 & Hi' & _); congruence.
  - destruct (redeliver_wf id ids sub ms Hi) as (r1 & sub1 & E1 & Hi'); congruence.
  - destruct (seek_to_message_wf x sub ms Hi Hty Hpe Hx) as (sub1 & E1 & Hi'); congruence.
  - by eapply publishes_inv.
Qed.

Lemma sub_run_inv p q : rtc sub_step p q -> sub_inv p.1 p.2 -> sub_inv q.1 q.2.
Proof. induction 1 as [|p q r Hstep _ IH]; [done |]; intros Hi; by eapply IH, sub_step_inv. Qed.
End subscription.

(** ** Properties *)


(** ** Publishing in memory *)

Section publish.
Context {bytes : Type} `{DbCodec bytes, !DbCodecLaws bytes} `{MetadataDecoder}.
Import MemoryStore (store_wf, mem_messages, mem_get_message_entries, stored_message, factory, next_ledger_id,
  mem_append_message_with_metadata, entry_metadata, is_acknowledged_inner, mem_messages_append).

(** Appending to the topic in memory is a publication as the theorem above
    understands it. *)
Lemma mem_publishes clock st topic sub part meta data ms id st' :
  store_wf st -> next_ledger_id (factory st) < U64_MAX ->
  Z.of_nat (length (mem_messages st topic)) < I64_MAX ->
  mem_append_message_with_metadata st topic part meta data = (id, st') ->
  publishes (mkView clock (MemoryBackend (bytes := bytes) st) topic sub) ms
    (mkView clock (MemoryBackend st') topic sub) (mem_get_message_entries st' topic).
Proof.
  intros Hst Hmax Hlen Ha acked readable (_ & _ & Hsh & -> & Hac & ->).
  destruct (mem_messages_append _ _ _ _ _ _ _ Hst Hmax Ha) as (Hst' & Hmsgs & Hent & _ & _ & Hkeep).
  assert (MemoryStore.cursors st' = MemoryStore.cursors st /\
    MemoryStore.subscription_cursors st' = MemoryStore.subscription_cursors st) as [Ec1 Ec2].
  { unfold mem_append_message_with_metadata in Ha.
    destruct (MemoryStore.append_entry _ _ _ _) as [i f]; by injection Ha as _ <-. }
  set (ms := mem_get_message_entries st topic); set (ms' := mem_get_message_entries st' topic).
  destruct (MemoryStore.mem_messages_indexed st topic Hst) as [lid Hidx].
  assert (forall x, x ∈ mem_messages st topic -> stored_message st' x = stored_message st x) as Hsame.
  { intros x (i & Hi)%list_elem_of_lookup; unfold stored_message; rewrite Hkeep; [done |]; intros Heq.
    destruct (Hidx i x Hi) as [_ He]; apply lookup_lt_Some in Hi; rewrite Heq in He; lia. }
  assert (ms' = ms ++ [stored_message st' (id, data)]) as Ems.
  { unfold ms', ms, mem_get_message_entries; rewrite Hmsgs, fmap_app; f_equal.
    apply list_fmap_ext; intros i x Hi; apply Hsame; by apply list_elem_of_lookup_2 with i. }
  exists (fun x => is_acknowledged_inner st' topic sub (message_id x)), (fun p => u64_ok (entry_id p) /\ upto ms' p).
  split.
  - cbn; split_and!; [done | rewrite Hmsgs, length_app; cbn; lia | | done | done | done].
    unfold mem_shared_cursor in *; by rewrite Ec1, Ec2.
  - split.
    + intros x Hx; rewrite Ems; apply elem_of_app; by left.
    + intros x Hx; rewrite Ems in Hx; apply elem_of_app in Hx as [Hx|Hx%list_elem_of_singleton]; [by left | right].
      intros p [_ (m & Hm & Hp)].
      assert (msg_rank x - msg_rank m = entry (message_id x) - entry (message_id m)) as Hr.
      { apply (mem_rank_entry st' topic); [done | |]; fold ms'; rewrite Ems; apply elem_of_app; [right | by left].
        rewrite Hx; apply list_elem_of_singleton; done. }
      destruct (mem_message_index st topic m Hst ltac:(lia) Hm) as (i & d & Hi & He & _); apply lookup_lt_Some in Hi.
      rewrite Hx in Hr at 2; cbn in Hr; rewrite Hent in Hr; lia.
    + intros x Hx; rewrite (Hac x Hx); unfold is_acknowledged_inner; by rewrite Ec1, Ec2.
    + intros p [? (m & Hm & Hp)]; split; [done |]; exists m; split; [|done]; rewrite Ems; apply elem_of_app; by left.
Qed.
End publish.

(** ** An example: a shared subscription in memory *)

#[local] Existing Instance byte_metadata.

Definition example_topic_view : SubscriptionView plain :=
  mkView (fun _ => 0) (MemoryBackend MemoryStore.example_store) "persistent://t/n/a" "s".
Definition example_sub : Subscription (S := SubscriptionView plain) :=
  mkSubscription example_topic_view (runtime_new Shared None).
Definition example_entries : list StoredMessage :=
  MemoryStore.mem_get_message_entries MemoryStore.example_store "persistent://t/n/a".

(** Consumer 1 joins and is served, acknowledges the second message and leaves;
    consumer 2 joins and is served. *)
Definition joins id (sub : Subscription (S := SubscriptionView plain)) : Subscription :=
  (sub_add_consumer (example_standby id 0) sub).2.
Definition flows id n (sub : Subscription (S := SubscriptionView plain)) : Subscription := default sub (sub_flow id n sub).
Definition acks id m (sub : Subscription (S := SubscriptionView plain)) : Subscription :=
  (message_acked id Individual [m] sub).2.
Definition leaves id (sub : Subscription (S := SubscriptionView plain)) : Subscription :=
  default sub (sub_remove_with_recovery id sub).
Definition example_left : Subscription := leaves 1 (acks 1 (mkMsgId 0 1 (-1)) (flows 1 3 (joins 1 example_sub))).
Definition example_served : Subscription := flows 2 10 (joins 2 example_left).

Lemma example_sub_inv : sub_inv example_sub example_entries.
Proof.
  eexists _, _; split; [|by split].
  cbn; split_and!; [apply MemoryStore.example_store_wf | by vm_compute | right; by vm_compute | done | done | done].
Qed.

Lemma joins_step id sub ms : sub_step (sub, ms) (joins id sub, ms).
Proof.
  eapply (step_add (example_standby id 0)); [|done | apply surjective_pairing].
  intros m [x Hx]; cbn in Hx; by rewrite lookup_empty in Hx.
Qed.

Lemma flows_step id n sub ms : sub_inv sub ms -> sub_step (sub, ms) (flows id n sub, ms).
Proof.
  intros Hi; apply (step_flow id n); destruct (flow_wf id n sub ms Hi) as (sub' & E & _); unfold flows; by rewrite E.
Qed.

Lemma acks_step id m sub ms : sub_step (sub, ms) (acks id m sub, ms).
Proof. eapply (step_ack id [m]), surjective_pairing. Qed.

Lemma leaves_step id sub ms :
  sub_inv sub ms -> rt_sub_type (runtime sub) = Shared -> sub_step (sub, ms) (leaves id sub, ms).
Proof.
  intros Hi Ht; assert (forall d, dispatcher (runtime sub) = Some d -> removable id d) as Hr.
  { destruct Hi as (? & ? & [_ Hw]); intros [|d|d|d] Hd; [done | done | | done].
    apply Hw in Hd as [_ Hd]; rewrite Ht in Hd; discriminate Hd. }
  apply (step_leave id); [exact Hr |]; destruct (leave_wf id sub ms Hi Hr) as (sub' & E & _).
  unfold leaves; by rewrite E.
Qed.

Lemma step_kept s1 s2 ms : sub_inv s1 ms -> sub_step (s1, ms) (s2, ms) -> sub_inv s2 ms.
Proof. intros Hi H; exact (sub_step_inv _ _ H Hi). Qed.

Lemma example_served_run : rtc sub_step (example_sub, example_entries) (example_served, example_entries).
Proof.
  unfold example_served, example_left.
  pose proof (step_kept _ _ _ example_sub_inv (joins_step 1 example_sub _)) as I1.
  pose proof (step_kept _ _ _ I1 (flows_step 1 3 _ _ I1)) as I2.
  pose proof (step_kept _ _ _ I2 (acks_step 1 (mkMsgId 0 1 (-1)) _ _)) as I3.
  assert (rt_sub_type (runtime (acks 1 (mkMsgId 0 1 (-1)) (flows 1 3 (joins 1 example_sub)))) = Shared) as Ht.
  { apply (bool_decide_eq_true_1 _); by vm_compute. }
  pose proof (step_kept _ _ _ I3 (leaves_step 1 _ _ I3 Ht)) as I4.
  pose proof (step_kept _ _ _ I4 (joins_step 2 _ _)) as I5.
  eapply rtc_l; [apply joins_step |]; eapply rtc_l; [exact (flows_step 1 3 _ _ I1) |].
  eapply rtc_l; [apply acks_step |]; eapply rtc_l; [exact (leaves_step 1 _ _ I3 Ht) |].
  eapply rtc_l; [apply joins_step |]; eapply rtc_l; [exact (flows_step 2 10 _ _ I5) | apply rtc_refl].
Qed.

(** What consumer 2 is given: everything but the acknowledged message. *)
Definition example_holds (m : MessageId) : bool :=
  match runtime_get_consumer 2 (runtime example_served) with
  | Some c => bool_decide (holds c m)
  | None => false
  end.

