(* ===== verification/Commands.v ===== *)
(** * Commands of the wire protocol

    [proto/src/command.rs] and the parts of [proto/PulsarApi.proto] the broker reads
    or writes.  A [BaseCommand] is a type and the optional fields that are present;
    of every command the model keeps the fields the broker uses, a field it leaves at
    its default being left out.  The byte format is generated code and enters with
    the codec. *)

From S2P Require Import Prelude Position.

(** ** [PulsarApi.proto] *)

Record MessageIdData := mkIdData {
  id_ledger : Z;
  id_entry : Z;
  id_partition : option Z;
}.

Record CommandSubscribe := mkSubscribe {
  subscribe_topic : string;
  subscribe_subscription : string;
  subscribe_sub_type : Z;
  subscribe_consumer_id : Z;
  subscribe_request_id : Z;
  subscribe_consumer_name : option string;
  subscribe_priority_level : option Z;
  subscribe_start_message_id : option MessageIdData;
  subscribe_initial_position : option Z;
  (** mode, hash ranges, out-of-order delivery *)
  subscribe_key_shared_meta : option (Z * list (Z * Z) * option bool);
  subscribe_properties : list (string * string);
}.

(** The fields of [BaseCommand], each at most once. *)
Inductive command_field :=
| FConnect (protocol_version : option Z)
| FPartitionMetadata (topic : string) (request_id : Z)
| FLookupTopic (topic : string) (request_id : Z)
| FProducer (topic : string) (producer_id request_id : Z) (producer_name : option string)
| FSend (producer_id sequence_id : Z)
| FSubscribe (cmd : CommandSubscribe)
| FFlow (consumer_id message_permits : Z)
| FAck (consumer_id ack_type : Z) (message_id : list MessageIdData) (request_id : option Z)
| FUnsubscribe (consumer_id request_id : Z)
| FSeek (consumer_id request_id : Z) (message_id : option MessageIdData) (message_publish_time : option Z)
| FGetLastMessageId (consumer_id request_id : Z)
| FRedeliverUnacknowledgedMessages (consumer_id : Z) (message_ids : list MessageIdData)
| FCloseProducer (producer_id request_id : Z)
| FCloseConsumer (consumer_id request_id : Z)
| FConnected (server_version : string) (protocol_version : option Z)
| FLookupTopicResponse (request_id : Z) (broker_service_url : option string) (response : option Z)
    (authoritative proxy_through_service_url : option bool)
| FPartitionMetadataResponse (request_id : Z) (partitions response : option Z)
| FSendReceipt (producer_id sequence_id : Z) (message_id : option MessageIdData)
| FSendError (producer_id sequence_id error : Z) (message : string)
| FSuccess (request_id : Z)
| FError (request_id : Z) (message : string)
| FProducerSuccess (request_id : Z) (producer_name : string) (last_sequence_id : option Z)
    (schema_version : option (list Z)) (producer_ready : option bool)
| FConsumerStatsResponse (request_id : Z) (consumer_name : option string)
| FMessage (consumer_id : Z) (message_id : MessageIdData) (redelivery_count : option Z)
| FAckResponse (consumer_id : Z) (request_id : option Z)
| FGetLastMessageIdResponse (request_id : Z) (last_message_id : MessageIdData)
| FPing
| FPong.

Record BaseCommand := mkCommand {
  command_type : Z;
  command_fields : list command_field;
}.

(** [base_command::Type] *)
Definition T_CONNECT : Z := 2.
Definition T_CONNECTED : Z := 3.
Definition T_SUBSCRIBE : Z := 4.
Definition T_PRODUCER : Z := 5.
Definition T_SEND : Z := 6.
Definition T_SEND_RECEIPT : Z := 7.
Definition T_SEND_ERROR : Z := 8.
Definition T_MESSAGE : Z := 9.
Definition T_ACK : Z := 10.
Definition T_FLOW : Z := 11.
Definition T_UNSUBSCRIBE : Z := 12.
Definition T_SUCCESS : Z := 13.
Definition T_ERROR : Z := 14.
Definition T_CLOSE_PRODUCER : Z := 15.
Definition T_CLOSE_CONSUMER : Z := 16.
Definition T_PRODUCER_SUCCESS : Z := 17.
Definition T_PING : Z := 18.
Definition T_PONG : Z := 19.
Definition T_REDELIVER : Z := 20.
Definition T_PARTITIONED_METADATA : Z := 21.
Definition T_PARTITIONED_METADATA_RESPONSE : Z := 22.
Definition T_LOOKUP : Z := 23.
Definition T_LOOKUP_RESPONSE : Z := 24.
Definition T_CONSUMER_STATS_RESPONSE : Z := 26.
Definition T_SEEK : Z := 28.
Definition T_GET_LAST_MESSAGE_ID : Z := 29.
Definition T_GET_LAST_MESSAGE_ID_RESPONSE : Z := 30.
Definition T_ACK_RESPONSE : Z := 38.

(** ** What the broker sends *)

(** The values of [ServerError] it uses. *)
Inductive ServerError := ServiceNotReady | NotAllowedError.

Definition server_error_code (e : ServerError) : Z :=
  match e with ServiceNotReady => 6 | NotAllowedError => 22 end.

Inductive ServerCommand :=
| Connected (server_version : string) (protocol_version : Z)
| LookupResponse (request_id : Z) (broker_service_url : string)
| PartitionMetadataResponse (request_id partitions : Z)
| SendReceipt (producer_id sequence_id ledger_id entry_id partition : Z)
| SendError (producer_id sequence_id : Z) (error : ServerError) (message : string)
| Success (request_id : Z)
| Error (request_id : Z) (error : string)
| ProducerSuccess (request_id : Z) (producer_name : string) (producer_id : Z)
| ConsumerStatsResponse (request_id : Z) (consumer_name : string)
| Message (consumer_id ledger_id entry_id partition : Z) (metadata payload : list Z)
| AckResponse (consumer_id request_id : Z)
| LastMessageIdResponse (request_id ledger_id entry_id partition : Z)
| Ping
| Pong.

Definition to_base_command (c : ServerCommand) : BaseCommand :=
  match c with
  | Connected v p => mkCommand T_CONNECTED [FConnected v (Some p)]
  | LookupResponse r url =>
      mkCommand T_LOOKUP_RESPONSE [FLookupTopicResponse r (Some url) (Some 1) (Some false) (Some false)]
  | PartitionMetadataResponse r n =>
      mkCommand T_PARTITIONED_METADATA_RESPONSE [FPartitionMetadataResponse r (Some (wrap_u32 n)) (Some 0)]
  | SendReceipt p q l e part =>
      mkCommand T_SEND_RECEIPT [FSendReceipt p q (Some (mkIdData l e (Some part)))]
  | SendError p q e m => mkCommand T_SEND_ERROR [FSendError p q (server_error_code e) m]
  | Success r => mkCommand T_SUCCESS [FSuccess r]
  | Error r e => mkCommand T_ERROR [FError r e]
  | ProducerSuccess r n _ =>
      mkCommand T_PRODUCER_SUCCESS [FProducerSuccess r n (Some (-1)) (Some []) (Some true)]
  | ConsumerStatsResponse r n => mkCommand T_CONSUMER_STATS_RESPONSE [FConsumerStatsResponse r (Some n)]
  | Message c l e part _ _ => mkCommand T_MESSAGE [FMessage c (mkIdData l e (Some part)) None]
  | AckResponse c r => mkCommand T_ACK_RESPONSE [FAckResponse c (Some r)]
  | LastMessageIdResponse r l e part =>
      mkCommand T_GET_LAST_MESSAGE_ID_RESPONSE [FGetLastMessageIdResponse r (mkIdData l e (Some part))]
  | Ping => mkCommand T_PING [FPing]
  | Pong => mkCommand T_PONG [FPong]
  end.

Definition has_payload (c : ServerCommand) : bool := match c with Message _ _ _ _ _ _ => true | _ => false end.

Definition get_payload (c : ServerCommand) : option (list Z) :=
  match c with Message _ _ _ _ _ data => Some data | _ => None end.

(** What of a response reaches the client in its command: all but the producer id of
    [ProducerSuccess] and the body of a message; partition counts are unsigned. *)
Definition visible (c : ServerCommand) : ServerCommand :=
  match c with
  | ProducerSuccess r n _ => ProducerSuccess r n 0
  | Message c l e part _ _ => Message c l e part [] []
  | PartitionMetadataResponse r n => PartitionMetadataResponse r (wrap_u32 n)
  | c => c
  end.

Lemma to_base_command_inj c c' : to_base_command c = to_base_command c' -> visible c = visible c'.
Proof.
  destruct c, c'; cbn; intros [=]; try congruence.
  destruct error, error0; try discriminate; congruence.
Qed.
