(* ===== verification/Codec.v ===== *)
(** * Framing of the wire protocol

    [proto/src/codec.rs]: a frame is the size of the rest, the size of the command,
    the command, optionally a magic number and a checksum, and optionally the size of
    the metadata, the metadata and the payload.  The decoder works on the bytes
    received so far; the encoder appends to a buffer.  The bytes of a command and of
    the metadata are generated code, the class [CommandCodec]. *)

From S2P Require Import Prelude Bytes Position StickyKey Consumer Commands.

(** [encode_to_vec] and [decode] of the generated types; [encoded_len] is the length
    of the encoding. *)
Class CommandCodec := {
  encode_command : BaseCommand -> list Z;
  decode_command : list Z -> option BaseCommand;
  encode_metadata : MessageMetadata -> list Z;
}.

Definition MAGIC_NUMBER : Z := 0x0e01.
Definition MAX_MESSAGE_SIZE : Z := 5 * 1024 * 1024.
Definition max_frame_size : Z := MAX_MESSAGE_SIZE + 10 * 1024.

Record PulsarFrame := mkFrame {
  frame_command : list Z;
  frame_metadata : option (list Z);
  frame_payload : list Z;
  frame_checksum : option Z;
}.

Inductive codec_error := FrameTooLarge (size : Z) | MissingCommandSize | IncompleteCommand.

Definition len (bs : list Z) : Z := Z.of_nat (length bs).

(** [put_u32] and [get_u32] *)
Definition put_u32 (n : Z) : list Z := be_bytes 4 n.
Definition get_u32 (bs : list Z) : Z := from_be (take 4 bs).

(** ** Decoding *)

Definition split_checksum (data : list Z) : option Z * list Z :=
  if 6 <=? len data then
    if from_be (take 2 data) =? MAGIC_NUMBER
    then (Some (from_be (take 4 (drop 2 data))), drop 6 data)
    else (None, data)
  else (None, data).

Definition split_metadata (remaining : list Z) : option (list Z) * list Z :=
  if 4 <=? len remaining then
    let metadata_size := get_u32 remaining in
    let remaining := drop 4 remaining in
    if metadata_size <=? len remaining
    then (Some (take (Z.to_nat metadata_size) remaining), drop (Z.to_nat metadata_size) remaining)
    else (None, remaining)
  else (None, remaining).

(** The content of a frame, after its size. *)
Definition parse_frame (data : list Z) : result codec_error PulsarFrame :=
  if len data <? 4 then Err MissingCommandSize
  else
    let cmd_size := get_u32 data in
    let data := drop 4 data in
    if len data <? cmd_size then Err IncompleteCommand
    else
      let '(checksum, remaining) := split_checksum (drop (Z.to_nat cmd_size) data) in
      let '(metadata, payload) := split_metadata remaining in
      Ok (mkFrame (take (Z.to_nat cmd_size) data) metadata payload checksum).

(** [decode]: a frame if a complete one has arrived, and the bytes that are left. *)
Definition decode (src : list Z) : result codec_error (option PulsarFrame) * list Z :=
  if len src <? 4 then (Ok None, src)
  else
    let total_size := get_u32 src in
    if max_frame_size <? total_size then (Err (FrameTooLarge total_size), src)
    else if len src <? 4 + total_size then (Ok None, src)
    else
      let frame_data := take (Z.to_nat total_size) (drop 4 src) in
      let src := drop (4 + Z.to_nat total_size) src in
      match parse_frame frame_data with
      | Ok f => (Ok (Some f), src)
      | Err e => (Err e, src)
      end.

(** ** Encoding *)

Section codec.
Context `{CommandCodec}.

Record EncodedMessageParts := mkParts {
  part_header : list Z;
  part_metadata : list Z;
  part_payload : list Z;
}.

Definition message_command (consumer_id ledger_id entry_id partition redelivery_count : Z) : BaseCommand :=
  mkCommand T_MESSAGE
    [FMessage consumer_id (mkIdData ledger_id entry_id (Some partition)) (Some redelivery_count)].

(** The metadata of a message that has none. *)
Definition synthesized_metadata (entry_id : Z) : MessageMetadata := mkMetadata "" entry_id 0 None None None.

Definition message_metadata (entry_id : Z) (metadata : list Z) : list Z :=
  match metadata with
  | [] => encode_metadata (synthesized_metadata entry_id)
  | _ => metadata
  end.

Definition estimate_message_parts_size (consumer_id ledger_id entry_id partition : Z)
    (metadata payload : list Z) (redelivery_count : Z) : Z :=
  let cmd_len := len (encode_command (message_command consumer_id ledger_id entry_id partition redelivery_count)) in
  let metadata_len :=
    match metadata with
    | [] => len (encode_metadata (synthesized_metadata entry_id))
    | _ => len metadata
    end in
  (4 + 4 + cmd_len + 4) + metadata_len + len payload.

Definition encode_message_parts (consumer_id ledger_id entry_id partition : Z)
    (metadata payload : list Z) (redelivery_count : Z) : EncodedMessageParts :=
  let command := encode_command (message_command consumer_id ledger_id entry_id partition redelivery_count) in
  let metadata_bytes := message_metadata entry_id metadata in
  let total_size := 4 + len command + 4 + len metadata_bytes + len payload in
  mkParts (put_u32 total_size ++ put_u32 (len command) ++ command ++ put_u32 (len metadata_bytes))
    metadata_bytes payload.

Definition encode_message (consumer_id ledger_id entry_id partition : Z)
    (metadata payload : list Z) (redelivery_count : Z) (dst : list Z) : list Z :=
  let parts :=
    encode_message_parts consumer_id ledger_id entry_id partition metadata payload redelivery_count in
  dst ++ part_header parts ++ part_metadata parts ++ part_payload parts.

Definition encode (item : ServerCommand) (dst : list Z) : list Z :=
  match item with
  | Message consumer_id ledger_id entry_id partition metadata payload =>
      encode_message consumer_id ledger_id entry_id partition metadata payload 0 dst
  | _ =>
      let command := encode_command (to_base_command item) in
      let total_size := 4 + len command in
      dst ++ put_u32 total_size ++ put_u32 (len command) ++ command
  end.

(** What a connection writes: a command, or a message for one of its consumers
    ([ConsumerMessage] of [broker/service/server_cnx.rs]). *)
Inductive outgoing :=
| OutCommand (c : ServerCommand)
| ConsumerMessage (consumer_id : Z) (msg : PendingMessage).

Definition encode_outgoing (o : outgoing) (dst : list Z) : list Z :=
  match o with
  | OutCommand c => encode c dst
  | ConsumerMessage consumer_id msg =>
      encode_message consumer_id (ledger (pm_message_id msg)) (entry (pm_message_id msg))
        (msg_partition (pm_message_id msg)) (pm_metadata msg) (pm_payload msg) (pm_redelivery_count msg) dst
  end.

(** ** Properties of the decoder *)

Lemma len_app a b : len (a ++ b) = len a + len b.
Proof. unfold len; rewrite length_app; lia. Qed.

Lemma len_put n : len (put_u32 n) = 4.
Proof. unfold len, put_u32; by rewrite length_be_bytes. Qed.

Lemma get_put n rest : 0 <= n <= U32_MAX -> get_u32 (put_u32 n ++ rest) = n.
Proof.
  intros Hn; unfold get_u32, put_u32; rewrite take_app_length' by by rewrite length_be_bytes.
  apply from_be_bytes_small; change (256 ^ Z.of_nat 4) with 4294967296; mlia.
Qed.

Lemma drop_put n rest : drop 4 (put_u32 n ++ rest) = rest.
Proof. apply drop_app_length'; unfold put_u32; by rewrite length_be_bytes. Qed.

Lemma get_u32_app a b : 4 <= len a -> get_u32 (a ++ b) = get_u32 a.
Proof. unfold get_u32, len; intros; rewrite take_app_le by lia; done. Qed.

Lemma drop_app_le' (n : nat) (a b : list Z) : Z.of_nat n <= len a -> drop n (a ++ b) = drop n a ++ b.
Proof. unfold len; intros; apply drop_app_le; lia. Qed.

(** A decoded frame, or an error, does not depend on what arrives later. *)
Lemma decode_app a b r x : decode a = (r, x) -> r <> Ok None -> decode (a ++ b) = (r, x ++ b).
Proof.
  unfold decode; rewrite len_app; intros Hd Hr.
  destruct (Z.ltb_spec (len a) 4) as [?|H4]; [by simplify_eq |].
  destruct (Z.ltb_spec (len a + len b) 4) as [?|_]; [unfold len in *; lia |].
  rewrite get_u32_app by done.
  destruct (max_frame_size <? get_u32 a); [by simplify_eq |].
  destruct (Z.ltb_spec (len a) (4 + get_u32 a)) as [?|Hlen]; [by simplify_eq |].
  destruct (Z.ltb_spec (len a + len b) (4 + get_u32 a)) as [?|_]; [unfold len in *; lia |].
  assert (Z.of_nat (4 + Z.to_nat (get_u32 a)) <= len a) by lia.
  rewrite !drop_app_le' by lia; rewrite take_app_le by (rewrite length_drop; unfold len in *; lia).
  by destruct (parse_frame _); simplify_eq.
Qed.

Lemma decode_none a x : decode a = (Ok None, x) -> x = a.
Proof. unfold decode; repeat case_match; intros; by simplify_eq. Qed.

Lemma decode_some_shorter a f x : decode a = (Ok (Some f), x) -> (length x < length a)%nat.
Proof.
  unfold decode; destruct (Z.ltb_spec (len a) 4); [done |]; repeat case_match; intros; simplify_eq.
  rewrite length_drop; unfold len in *; lia.
Qed.

(** ** Reading a stream

    The frames in what has arrived: [decode] until it asks for more. *)
Fixpoint decode_all (fuel : nat) (buf : list Z) : list PulsarFrame * option codec_error * list Z :=
  match fuel with
  | O => ([], None, buf)
  | S fuel =>
      match decode buf with
      | (Ok None, buf) => ([], None, buf)
      | (Ok (Some f), buf) => let '(fs, e, buf) := decode_all fuel buf in (f :: fs, e, buf)
      | (Err e, buf) => ([], Some e, buf)
      end
  end.

Definition decode_buffer (buf : list Z) := decode_all (S (length buf)) buf.

(** The bytes arrive in chunks, up to the first error. *)
Fixpoint read_chunks (buf : list Z) (chunks : list (list Z)) : list PulsarFrame * option codec_error * list Z :=
  match chunks with
  | [] => ([], None, buf)
  | chunk :: chunks =>
      match decode_buffer (buf ++ chunk) with
      | (fs, Some e, buf) => (fs, Some e, buf)
      | (fs, None, buf) => let '(fs', e, buf) := read_chunks buf chunks in (fs ++ fs', e, buf)
      end
  end.

Lemma decode_all_fuel n m a : (length a < n)%nat -> (length a < m)%nat -> decode_all n a = decode_all m a.
Proof.
  revert m a; induction n as [|n IH]; intros [|m] a Hn Hm; try lia; cbn.
  destruct (decode a) as [[[f|]|e] x] eqn:Ed; [|done |done].
  apply decode_some_shorter in Ed; by rewrite (IH m) by lia.
Qed.

Lemma decode_buffer_eq a :
  decode_buffer a =
  match decode a with
  | (Ok None, buf) => ([], None, buf)
  | (Ok (Some f), buf) => let '(fs, e, buf) := decode_buffer buf in (f :: fs, e, buf)
  | (Err e, buf) => ([], Some e, buf)
  end.
Proof.
  unfold decode_buffer at 1; cbn; destruct (decode a) as [[[f|]|e] x] eqn:Ed; [|done |done].
  apply decode_some_shorter in Ed; unfold decode_buffer; by rewrite (decode_all_fuel (length a) (S (length x))) by lia.
Qed.

(** What was decoded so far, then what the rest gives. *)
Lemma decode_buffer_app a b :
  match decode_buffer a with
  | (fs, None, x) => decode_buffer (a ++ b) = let '(fs', e, y) := decode_buffer (x ++ b) in (fs ++ fs', e, y)
  | (fs, Some e, x) => decode_buffer (a ++ b) = (fs, Some e, x ++ b)
  end.
Proof.
  induction a as [a IH] using (well_founded_induction (Wf_nat.well_founded_ltof _ (@length Z))); unfold Wf_nat.ltof in IH.
  rewrite (decode_buffer_eq a); destruct (decode a) as [[[f|]|e] x] eqn:Ed.
  - specialize (IH x (decode_some_shorter _ _ _ Ed)).
    rewrite (decode_buffer_eq (a ++ b)), (decode_app _ _ _ _ Ed) by done.
    destruct (decode_buffer x) as [[fs [e|]] y]; rewrite IH; [done |]; by destruct (decode_buffer (y ++ b)) as [[? ?] ?].
  - apply decode_none in Ed as ->; by destruct (decode_buffer (a ++ b)) as [[? ?] ?].
  - by rewrite (decode_buffer_eq (a ++ b)), (decode_app _ _ _ _ Ed) by done.
Qed.

(** How the bytes are cut into chunks does not matter. *)
Lemma read_chunks_concat chunks buf fs x :
  decode_buffer buf = ([], None, buf) -> decode_buffer (buf ++ concat chunks) = (fs, None, x) ->
  read_chunks buf chunks = (fs, None, x).
Proof.
  revert buf fs; induction chunks as [|c chunks IH]; intros buf fs Hb Hd; cbn [read_chunks].
  - cbn [concat] in Hd; rewrite app_nil_r in Hd; congruence.
  - pose proof (decode_buffer_app (buf ++ c) (concat chunks)) as Happ; cbn [concat] in Hd; rewrite app_assoc in Hd.
    destruct (decode_buffer (buf ++ c)) as [[fs1 [e|]] y] eqn:E1; rewrite Hd in Happ; [discriminate |].
    destruct (decode_buffer (y ++ concat chunks)) as [[fs2 e2] z] eqn:E2; simplify_eq.
    rewrite (IH y fs2); [done | | done].
    pose proof (decode_buffer_app (buf ++ c) []) as Hn; rewrite E1, !app_nil_r in Hn.
    rewrite E1 in Hn; destruct (decode_buffer y) as [[fs3 e3] w]; injection Hn as Hf <- <-.
    by rewrite (app_inv_head fs1 fs3 []) by by rewrite app_nil_r.
Qed.

(** ** Encoding, then decoding *)

(** The frame the other side should see. *)
Definition message_frame (consumer_id ledger_id entry_id partition : Z) (metadata payload : list Z)
    (redelivery_count : Z) : PulsarFrame :=
  mkFrame (encode_command (message_command consumer_id ledger_id entry_id partition redelivery_count))
    (Some (message_metadata entry_id metadata)) payload None.

Definition outgoing_frame (o : outgoing) : PulsarFrame :=
  match o with
  | OutCommand (Message c l e p meta data) => message_frame c l e p meta data 0
  | OutCommand c => mkFrame (encode_command (to_base_command c)) None [] None
  | ConsumerMessage c m =>
      message_frame c (ledger (pm_message_id m)) (entry (pm_message_id m)) (msg_partition (pm_message_id m))
        (pm_metadata m) (pm_payload m) (pm_redelivery_count m)
  end.

(** The frame is within the limit of the decoder. *)
Definition frame_fits (o : outgoing) : Prop := len (encode_outgoing o []) - 4 <= max_frame_size.

Lemma len_nonneg bs : 0 <= len bs.
Proof. unfold len; lia. Qed.

Lemma take_len a b : take (Z.to_nat (len a)) (a ++ b) = a.
Proof. unfold len; rewrite Nat2Z.id; apply take_app_length. Qed.

Lemma drop_len a b : drop (Z.to_nat (len a)) (a ++ b) = b.
Proof. unfold len; rewrite Nat2Z.id; apply drop_app_length. Qed.

Lemma fits_u32 n : 0 <= n <= max_frame_size -> 0 <= n <= U32_MAX.
Proof. unfold max_frame_size, MAX_MESSAGE_SIZE; mlia. Qed.

Lemma decode_frame body rest f :
  len body <= max_frame_size -> parse_frame body = Ok f ->
  decode (put_u32 (len body) ++ body ++ rest) = (Ok (Some f), rest).
Proof.
  intros Hb Hp; unfold decode; rewrite !len_app, len_put, get_put by (apply fits_u32; split; [apply len_nonneg | done]).
  pose proof (len_nonneg body); pose proof (len_nonneg rest).
  destruct (Z.ltb_spec (4 + (len body + len rest)) 4); [lia |].
  destruct (Z.ltb_spec max_frame_size (len body)); [lia |].
  destruct (Z.ltb_spec (4 + (len body + len rest)) (4 + len body)); [lia |].
  by rewrite <- drop_drop, drop_put, take_len, drop_len, Hp.
Qed.

(** The size of the metadata is never taken for the magic number. *)
Lemma no_checksum n rest : 0 <= n <= max_frame_size -> split_checksum (put_u32 n ++ rest) = (None, put_u32 n ++ rest).
Proof.
  intros Hn; unfold split_checksum; destruct (6 <=? _); [|done].
  assert (from_be (take 2 (put_u32 n ++ rest)) = n / 65536 mod 256 + 256 * (n / 16777216 mod 256)) as ->.
  { transitivity (n / 256 / 256 mod 256 + 256 * (n / 256 / 256 / 256 mod 256 + 256 * 0)); [reflexivity |].
    rewrite !Z.div_div by lia; change (256 * 256 * 256) with 16777216; change (256 * 256) with 65536; ring. }
  assert (n / 16777216 = 0) as -> by (apply Z.div_small; unfold max_frame_size, MAX_MESSAGE_SIZE in Hn; lia).
  pose proof (Z.mod_pos_bound (n / 65536) 256 ltac:(lia)); unfold MAGIC_NUMBER; rewrite Z.mod_0_l by lia.
  by destruct (Z.eqb_spec (n / 65536 mod 256 + 256 * 0) 0x0e01); [lia |].
Qed.

Lemma parse_command_frame c :
  len c <= max_frame_size -> parse_frame (put_u32 (len c) ++ c) = Ok (mkFrame c None [] None).
Proof.
  intros Hc; pose proof (len_nonneg c); unfold parse_frame.
  rewrite !len_app, len_put, get_put, drop_put by (apply fits_u32; lia).
  destruct (Z.ltb_spec (4 + len c) 4); [lia |]; rewrite Z.ltb_irrefl.
  pose proof (take_len c []) as Ht; pose proof (drop_len c []) as Hd; rewrite app_nil_r in Ht, Hd.
  by rewrite Ht, Hd.
Qed.

Lemma parse_message_frame c meta data :
  len c + 4 + len meta + len data <= max_frame_size ->
  parse_frame (put_u32 (len c) ++ c ++ put_u32 (len meta) ++ meta ++ data) = Ok (mkFrame c (Some meta) data None).
Proof.
  intros Hc; pose proof (len_nonneg c); pose proof (len_nonneg meta); pose proof (len_nonneg data).
  unfold parse_frame; rewrite !len_app, !len_put, get_put, drop_put by (apply fits_u32; lia).
  destruct (Z.ltb_spec (4 + (len c + (4 + (len meta + len data)))) 4); [lia |].
  rewrite !len_app, len_put; destruct (Z.ltb_spec (len c + (4 + (len meta + len data))) (len c)); [lia |].
  rewrite drop_len, take_len, no_checksum by lia; unfold split_metadata.
  rewrite !len_app, len_put, get_put, drop_put by (apply fits_u32; lia).
  destruct (Z.leb_spec 4 (4 + (len meta + len data))); [|lia].
  rewrite len_app; destruct (Z.leb_spec (len meta) (len meta + len data)); [|lia].
  by rewrite take_len, drop_len.
Qed.

Lemma encode_outgoing_app o dst : encode_outgoing o dst = dst ++ encode_outgoing o [].
Proof. by destruct o as [[]|]. Qed.

(** The estimate is the number of bytes written. *)
Lemma estimate_message_parts_size_exact c l e p meta data count :
  estimate_message_parts_size c l e p meta data count = len (encode_message c l e p meta data count []).
Proof.
  unfold estimate_message_parts_size, encode_message, encode_message_parts, message_metadata; cbn [part_header part_metadata part_payload].
  rewrite !len_app, !len_put; destruct meta; cbn; unfold len; cbn; lia.
Qed.

Lemma decode_encode_message c l e p meta data count rest :
  len (encode_message c l e p meta data count []) - 4 <= max_frame_size ->
  decode (encode_message c l e p meta data count [] ++ rest) = (Ok (Some (message_frame c l e p meta data count)), rest).
Proof.
  unfold encode_message, encode_message_parts, message_frame; cbn [part_header part_metadata part_payload app].
  set (cmd := encode_command _); set (m := message_metadata e meta); rewrite !len_app, !len_put; intros Hf.
  rewrite <- !app_assoc; pose proof (len_nonneg cmd); pose proof (len_nonneg m); pose proof (len_nonneg data).
  assert (4 + len cmd + 4 + len m + len data = len (put_u32 (len cmd) ++ cmd ++ put_u32 (len m) ++ m ++ data)) as ->
    by (rewrite !len_app, !len_put; lia).
  replace (put_u32 (len cmd) ++ cmd ++ put_u32 (len m) ++ m ++ data ++ rest)
    with ((put_u32 (len cmd) ++ cmd ++ put_u32 (len m) ++ m ++ data) ++ rest) by by rewrite <- !app_assoc.
  apply decode_frame; [rewrite !len_app, !len_put; lia | apply parse_message_frame; lia].
Qed.

Lemma decode_encode_command c rest :
  4 + len c <= max_frame_size ->
  decode ((put_u32 (4 + len c) ++ put_u32 (len c) ++ c) ++ rest) = (Ok (Some (mkFrame c None [] None)), rest).
Proof.
  intros Hf; assert (4 + len c = len (put_u32 (len c) ++ c)) as -> by by rewrite len_app, len_put.
  rewrite <- app_assoc; apply decode_frame; [rewrite len_app, len_put; lia | apply parse_command_frame; lia].
Qed.

Lemma decode_outgoing o rest :
  frame_fits o -> decode (encode_outgoing o [] ++ rest) = (Ok (Some (outgoing_frame o)), rest).
Proof.
  intros Hf; unfold frame_fits in Hf; destruct o as [c|c m]; [|by apply decode_encode_message].
  destruct c; try (apply decode_encode_command; unfold encode_outgoing, encode in Hf; rewrite !len_app, !len_put in Hf;
    cbn [app] in Hf; unfold len in *; cbn [length] in *; lia).
  by apply decode_encode_message.
Qed.

Definition encode_all (os : list outgoing) : list Z := foldl (fun dst o => encode_outgoing o dst) [] os.

Lemma encode_all_concat os : encode_all os = concat ((fun o => encode_outgoing o []) <$> os).
Proof.
  assert (forall dst, foldl (fun dst o => encode_outgoing o dst) dst os =
    dst ++ concat ((fun o => encode_outgoing o []) <$> os)) as Hd; [|exact (Hd [])].
  induction os as [|o os IH]; intros dst; cbn; [by rewrite app_nil_r |].
  by rewrite IH, encode_outgoing_app, <- app_assoc.
Qed.

Lemma decode_encode_all os :
  Forall frame_fits os -> decode_buffer (concat ((fun o => encode_outgoing o []) <$> os)) = (outgoing_frame <$> os, None, []).
Proof.
  induction 1 as [|o os Ho _ IH]; [done |].
  change (concat ((fun o => encode_outgoing o []) <$> o :: os)) with
    (encode_outgoing o [] ++ concat ((fun o => encode_outgoing o []) <$> os)).
  by rewrite decode_buffer_eq, decode_outgoing, IH.
Qed.
End codec.

(** ** Properties *)

(** C14: What is written is read.  Any sequence of commands and messages, written one
    after the other into the connection's buffer and received in chunks cut
    anywhere, is decoded to the same sequence of frames, with no bytes left over:
    the command, the metadata and the payload of each, and never a checksum that was
    not sent.  Every frame must be within the decoder's limit. *)
Theorem frame_stream_roundtrip `{CommandCodec} (os : list outgoing) (chunks : list (list Z)) :
  Forall frame_fits os -> concat chunks = encode_all os ->
  read_chunks [] chunks = (outgoing_frame <$> os, None, []).
Proof.
  intros Hf Hc; apply read_chunks_concat; [done |].
  change ([] ++ concat chunks) with (concat chunks); rewrite Hc, encode_all_concat; by apply decode_encode_all.
Qed.

(** A concrete command codec for the example: the type of the command. *)
Definition type_codec : CommandCodec := {|
  encode_command c := [command_type c];
  decode_command bs := match bs with [t] => Some (mkCommand t []) | _ => None end;
  encode_metadata m := [sequence_id m];
|}.

Definition example_outgoing : list outgoing :=
  [OutCommand (Success 7); ConsumerMessage 3 (mkPending (mkMsgId 1 2 (-1)) [] [10; 11; 12] 4); OutCommand Pong].

Lemma frame_stream_roundtrip_witness :
  let bytes := encode_all (H := type_codec) example_outgoing in
  read_chunks [] [take 3 bytes; drop 3 (take 20 bytes); drop 20 bytes] =
    (outgoing_frame (H := type_codec) <$> example_outgoing, None, []).
Proof.
  apply (frame_stream_roundtrip (H := type_codec) example_outgoing).
  - repeat (constructor; [by vm_compute |]); constructor.
  - by vm_compute.
Defined.
