(* ===== verification/StableSort.v ===== *)
(** * Stable sorting

    [slice::sort_by] and [sort_by_key] keep the order of elements that compare equal.
    Where the broker sorts by a key that may repeat, the order of ties matters, and
    the model sorts by insertion. *)

From S2P Require Import Prelude.

Section sort.
Context {A : Type} (R : relation A) `{!RelDecision R}.

Fixpoint stable_insert (x : A) (l : list A) : list A :=
  match l with
  | [] => [x]
  | y :: l => if decide (R x y) then x :: y :: l else y :: stable_insert x l
  end.

Definition stable_sort (l : list A) : list A := foldr stable_insert [] l.

Lemma stable_sort_cons x l : stable_sort (x :: l) = stable_insert x (stable_sort l).
Proof. done. Qed.

Lemma stable_insert_perm x l : stable_insert x l ≡ₚ x :: l.
Proof.
  induction l as [|y l IH]; cbn; [done |]; destruct (decide (R x y)); [done |]; rewrite IH; apply Permutation_swap.
Qed.

Lemma stable_sort_perm l : stable_sort l ≡ₚ l.
Proof. induction l as [|x l IH]; [done |]; by rewrite stable_sort_cons, stable_insert_perm, IH. Qed.

Lemma stable_insert_split x l : exists l1 l2, l = l1 ++ l2 /\ stable_insert x l = l1 ++ x :: l2.
Proof.
  induction l as [|y l (l1 & l2 & E1 & E2)]; cbn; [by exists [], [] |].
  destruct (decide (R x y)); [by exists [], (y :: l) |]; exists (y :: l1), l2; by rewrite E2, E1.
Qed.

Context `{!Transitive R} (R_total : forall x y, R x y \/ R y x).

Lemma stable_insert_sorted x l : StronglySorted R l -> StronglySorted R (stable_insert x l).
Proof.
  induction 1 as [|y l Hl IH Hy]; cbn; [repeat constructor |].
  destruct (decide (R x y)) as [Hxy|Hxy].
  - constructor; [by constructor |]; constructor; [done |].
    eapply Forall_impl; [exact Hy |]; intros z Hz; by etrans.
  - constructor; [done |]; rewrite stable_insert_perm; constructor; [|done].
    by destruct (R_total x y).
Qed.

Lemma stable_sort_sorted l : StronglySorted R (stable_sort l).
Proof. induction l; [constructor | by apply stable_insert_sorted]. Qed.

Lemma stable_insert_first x l : Forall (R x) l -> stable_insert x l = x :: l.
Proof. destruct 1; cbn; [done |]; by rewrite decide_True. Qed.

Lemma stable_sort_id l : StronglySorted R l -> stable_sort l = l.
Proof. induction 1 as [|x l _ IH Hx]; [done |]; rewrite stable_sort_cons, IH; by apply stable_insert_first. Qed.

(** Sorting again after one more element was appended inserts it. *)
Lemma stable_sort_snoc l x :
  StronglySorted R l -> exists l1 l2, l = l1 ++ l2 /\ stable_sort (l ++ [x]) = l1 ++ x :: l2.
Proof.
  induction 1 as [|y l Hl (l1 & l2 & -> & E) Hy]; [by exists [], [] |]; rewrite <- app_comm_cons, stable_sort_cons, E.
  destruct l1 as [|z l1]; cbn in *.
  - destruct (decide (R y x)); [by exists [y], l2 |].
    exists [], (y :: l2); by rewrite stable_insert_first.
  - apply Forall_cons in Hy as [Hz _]; exists (y :: z :: l1), l2; by rewrite decide_True.
Qed.

(** ** The first element that satisfies an upward-closed predicate *)

(** Reference definition: the least one, the earlier of equal ones. *)
Definition first_least (P : A -> bool) : list A -> option A :=
  foldr (fun x acc =>
    if P x then
      match acc with Some y => if decide (R x y) then Some x else Some y | None => Some x end
    else acc) None.

Lemma find_insert (P : A -> bool) x l :
  (forall a b, R a b -> P a = true -> P b = true) -> StronglySorted R l ->
  List.find P (stable_insert x l) =
  if P x then match List.find P l with Some y => if decide (R x y) then Some x else Some y | None => Some x end
  else List.find P l.
Proof.
  intros Hup; induction 1 as [|y l Hl IH Hy]; cbn; [done |].
  destruct (decide (R x y)) as [Hxy|Hxy]; cbn.
  - destruct (P x) eqn:Ex; [|done]; rewrite (Hup _ _ Hxy Ex); by rewrite decide_True.
  - rewrite IH; destruct (P y) eqn:Ey; [|done]; destruct (P x) eqn:Ex; [|done]; by rewrite decide_False.
Qed.

Lemma find_stable_sort (P : A -> bool) l :
  (forall a b, R a b -> P a = true -> P b = true) -> List.find P (stable_sort l) = first_least P l.
Proof.
  intros Hup; induction l as [|x l IH]; [done |].
  rewrite stable_sort_cons, find_insert by (done || apply stable_sort_sorted); by rewrite IH.
Qed.

Lemma first_least_some (P : A -> bool) l x : first_least P l = Some x -> x ∈ l /\ P x = true.
Proof.
  revert x; induction l as [|y l IH]; intros x; cbn; [done |].
  destruct (P y) eqn:Ey; [|intros [? ?]%IH; split; [by right | done]].
  destruct (first_least P l) as [z|]; [|intros [= <-]; split; [by left | done]].
  case_decide; intros [= <-]; [split; [by left | done] |].
  destruct (IH z eq_refl); split; [by right | done].
Qed.

Lemma first_least_none (P : A -> bool) l : first_least P l = None -> Forall (fun x => P x = false) l.
Proof.
  induction l as [|y l IH]; cbn; [done |]; destruct (P y) eqn:Ey; [|auto].
  by destruct (first_least P l); [case_decide |].
Qed.

Lemma first_least_le (P : A -> bool) l x y : first_least P l = Some x -> y ∈ l -> P y = true -> R x y.
Proof.
  revert x; induction l as [|z l IH]; intros x Hf Hy Hp; [by apply elem_of_nil in Hy |]; cbn in Hf.
  destruct (P z) eqn:Ez.
  - destruct (first_least P l) as [w|] eqn:Ew; [case_decide as Hzw|]; injection Hf as <-;
      apply elem_of_cons in Hy as [->|Hy]; try (by destruct (R_total z z)); auto.
    + etrans; [exact Hzw |]; by apply IH.
    + by destruct (R_total w z).
    + apply first_least_none in Ew; rewrite Forall_forall in Ew; specialize (Ew y Hy); congruence.
  - apply elem_of_cons in Hy as [->|Hy]; [congruence | by apply IH].
Qed.

(** More elements in the middle: the choice stays, or is one of them. *)
Lemma first_least_mid (P : A -> bool) a b d :
  first_least P (a ++ b ++ d) = first_least P (a ++ d) \/
  exists x, x ∈ b /\ first_least P (a ++ b ++ d) = Some x.
Proof.
  induction a as [|x a IH]; cbn [app].
  - induction b as [|y b IHb]; [by left |]; cbn; destruct (P y) eqn:Ey.
    + destruct IHb as [Heq|(z & Hz & Heq)]; rewrite Heq.
      * destruct (first_least P d) as [w|]; [case_decide |]; [|by left |]; right; exists y; split; [by left | done | by left | done].
      * right; case_decide; [exists y | exists z]; split; [by left | done | by right | done].
    + destruct IHb as [?|(z & ? & ?)]; [by left | right; exists z; split; [by right | done]].
  - cbn; destruct (P x) eqn:Ex; [|done]; destruct IH as [->|(y & Hy & Heq)]; [by left |]; rewrite Heq.
    case_decide as Hxy; [|by right; exists y].
    left; destruct (first_least P (a ++ d)) as [z|] eqn:Ez; [|done].
    rewrite decide_True; [done |]; apply first_least_some in Ez as [Hz Pz]; etrans; [exact Hxy |].
    eapply first_least_le; [exact Heq | | done]; rewrite !elem_of_app in *; tauto.
Qed.
End sort.

(** A map that keeps the order and the predicate. *)
Lemma first_least_fmap {A B : Type} (R : relation A) (R' : relation B) `{!RelDecision R, !RelDecision R'}
    (f : A -> B) (P : A -> bool) (P' : B -> bool) l :
  (forall x y, R' (f x) (f y) <-> R x y) -> (forall x, P' (f x) = P x) ->
  first_least R' P' (f <$> l) = f <$> first_least R P l.
Proof.
  intros HR HP; induction l as [|x l IH]; cbn; [done |]; rewrite HP; destruct (P x); [|done]; rewrite IH.
  destruct (first_least R P l) as [y|]; cbn; [|done]; by rewrite (decide_ext _ _ (Some (f x)) (Some (f y)) (HR x y)); case_decide.
Qed.
Arguments stable_sort {A} R {_} l : simpl never.
