(* ===== verification/NonPersistent.v ===== *)
(** * Non-persistent dispatch

    [broker/non_persistent]: dispatchers that hand a message to a consumer at once or
    drop it.  As in the persistent dispatchers, references to the shared consumers
    are their ids, looked up in one map; the answers of the connections are part of
    the consumers.  The counters are [u64] and the totals of permits [u32]. *)

From S2P Require Import Prelude Position StickyKey Consumer LedgerInfo Text StableSort.
From S2P Require KeyShared.

(** The counters of a dispatcher. *)
Record NpCounters := mkNpCounters {
  np_received : Z;
  np_dropped : Z;
  np_dispatched : Z;
}.

Definition no_counts : NpCounters := mkNpCounters 0 0 0.

Definition record_received (n : Z) (k : NpCounters) : NpCounters :=
  mkNpCounters (wrap_u64 (np_received k + n)) (np_dropped k) (np_dispatched k).
Definition record_drop (n : Z) (k : NpCounters) : NpCounters :=
  mkNpCounters (np_received k) (wrap_u64 (np_dropped k + n)) (np_dispatched k).
Definition record_dispatched (n : Z) (k : NpCounters) : NpCounters :=
  mkNpCounters (np_received k) (np_dropped k) (wrap_u64 (np_dispatched k + n)).

(** [total_available_permits]: [fetch_add] wraps, the subtraction saturates. *)
Definition np_add_permits (total n : Z) : Z := wrap_u32 (total + n).
Definition np_sub_permits (total n : Z) : Z := sat_sub total n.

Definition entry_size (e : NonPersistentEntry) : Z :=
  Z.of_nat (length (np_metadata e)) + Z.of_nat (length (np_payload e)).

Section dispatch.
Context `{MetadataDecoder}.

Definition np_batch (e : NonPersistentEntry) : Z := messages_in_batch (np_metadata e).

Definition np_message_id (e : NonPersistentEntry) : MessageId := message_id_of_position (np_position e).

(** One entry offered to a consumer: a reservation, and the send. *)
Definition np_offer (e : NonPersistentEntry) (c : Consumer) : bool * Consumer :=
  match try_reserve_dispatch (np_message_id e) (np_metadata e) (np_payload e) 0 (np_batch e) c with
  | (Some r, c) => (true, record_message_dispatched (np_batch e) (entry_size e) (reservation_send r c))
  | (None, c) => (false, c)
  end.

(** ** Exclusive *)

Record NpExclusive := mkNpExclusive {
  npx_consumer : option Consumer;
  npx_counters : NpCounters;
}.

Definition npx_new : NpExclusive := mkNpExclusive None no_counts.

Definition npx_add_consumer (c : Consumer) (d : NpExclusive) : result unit NpExclusive :=
  match npx_consumer d with
  | Some _ => Err tt
  | None => Ok (mkNpExclusive (Some c) (npx_counters d))
  end.

Definition npx_remove_consumer (id : Z) (d : NpExclusive) : option Consumer * NpExclusive :=
  match npx_consumer d with
  | Some c => if consumer_id c =? id then (Some c, mkNpExclusive None (npx_counters d)) else (None, d)
  | None => (None, d)
  end.

(** Entries for one consumer, one after the other. *)
Fixpoint np_send_to (c : Consumer) (k : NpCounters) (es : list NonPersistentEntry) : Consumer * NpCounters :=
  match es with
  | [] => (c, k)
  | e :: es =>
      match np_offer e c with
      | (true, c) => np_send_to c (record_dispatched (np_batch e) k) es
      | (false, c) => np_send_to c (record_drop (np_batch e) k) es
      end
  end.

Fixpoint np_drop_all (k : NpCounters) (es : list NonPersistentEntry) : NpCounters :=
  match es with
  | [] => k
  | e :: es => np_drop_all (record_drop (np_batch e) k) es
  end.

Definition npx_send_messages (es : list NonPersistentEntry) (d : NpExclusive) : NpExclusive :=
  let k := record_received (Z.of_nat (length es)) (npx_counters d) in
  match npx_consumer d with
  | None => mkNpExclusive None (np_drop_all k es)
  | Some c => let '(c, k) := np_send_to c k es in mkNpExclusive (Some c) k
  end.

(** ** Failover *)

Record NpFailover := mkNpFailover {
  npf_topic_name : string;
  npf_partition_index : Z;
  npf_consumers : list Consumer;
  npf_active : option Z;
  npf_counters : NpCounters;
}.

Definition npf_new (topic : string) (partition_index : Z) : NpFailover :=
  mkNpFailover topic partition_index [] None no_counts.

Definition npf_set (cs : list Consumer) (active : option Z) (d : NpFailover) : NpFailover :=
  mkNpFailover (npf_topic_name d) (npf_partition_index d) cs active (npf_counters d).

Definition npf_get_active_consumer (d : NpFailover) : option Consumer :=
  match npf_active d with
  | Some id => List.find (fun c => consumer_id c =? id) (npf_consumers d)
  | None => None
  end.

(** Ascending priority level, then name; the sort is stable. *)
Definition npf_before (a b : Consumer) : Prop :=
  priority_level a < priority_level b \/ priority_level a = priority_level b /\
    String.compare (consumer_name a) (consumer_name b) <> Gt.

#[global] Instance npf_before_dec : RelDecision npf_before.
Proof. intros a b; unfold npf_before; apply _. Defined.

Definition npf_sort_consumers (d : NpFailover) : NpFailover :=
  npf_set (stable_sort npf_before (npf_consumers d)) (npf_active d) d.

(** The ring: a hundred points per consumer, sorted by their hash. *)
Definition ring_le (a b : Z * nat) : Prop := a.1 <= b.1.

#[global] Instance ring_le_dec : RelDecision ring_le.
Proof. intros a b; unfold ring_le; apply _. Defined.

Definition consumer_points (index : nat) (c : Consumer) : list (Z * nat) :=
  (fun replica => (murmur3_32 (string_bytes (consumer_name c +:+ show (Z.of_nat replica))) 0, index)) <$> seq 0 100.

Definition ring_points (cs : list Consumer) : list (Z * nat) := mjoin (imap consumer_points cs).

Definition hash_ring (cs : list Consumer) : list (Z * nat) := stable_sort ring_le (ring_points cs).

Definition ring_select (topic_hash : Z) (ring : list (Z * nat)) : nat :=
  match List.find (fun x => topic_hash <=? x.1) ring with
  | Some x => x.2
  | None => from_option snd 0%nat (head ring)
  end.

Definition npf_select_active_consumer_id (d : NpFailover) : option Z :=
  match npf_consumers d with
  | [] => None
  | c0 :: _ =>
      let highest := filter (fun c => priority_level c = priority_level c0) (npf_consumers d) in
      let selected_index :=
        if 0 <=? npf_partition_index d
        then Z.to_nat (npf_partition_index d mod Z.of_nat (length highest))
        else ring_select (murmur3_32 (string_bytes (npf_topic_name d)) 0) (hash_ring highest) in
      consumer_id <$> highest !! selected_index
  end.

Definition npf_notify (id : Z) (d : NpFailover) : NpFailover :=
  npf_set (notify_active_consumer_change id <$> npf_consumers d) (npf_active d) d.

Definition npf_pick_and_schedule (d : NpFailover) : bool * NpFailover :=
  let selected := npf_select_active_consumer_id d in
  if bool_decide (selected = npf_active d) then (false, d)
  else
    let d := npf_set (npf_consumers d) selected d in
    (true, match selected with Some id => npf_notify id d | None => d end).

Definition npf_add_consumer (c : Consumer) (d : NpFailover) : result unit NpFailover :=
  if existsb (fun x => consumer_id x =? consumer_id c) (npf_consumers d) then Err tt
  else
    match npf_pick_and_schedule (npf_sort_consumers (npf_set (npf_consumers d ++ [c]) (npf_active d) d)) with
    | (true, d) => Ok d
    | (false, d) =>
        match npf_active d with
        | Some active =>
            Ok (npf_set ((fun x => if consumer_id x =? consumer_id c then notify_active_consumer_change active x else x)
                           <$> npf_consumers d) (npf_active d) d)
        | None => Ok d
        end
    end.

Fixpoint npf_take (id : Z) (cs : list Consumer) : option (Consumer * list Consumer) :=
  match cs with
  | [] => None
  | c :: cs =>
      if consumer_id c =? id then Some (c, cs) else (fun r => (r.1, c :: r.2)) <$> npf_take id cs
  end.

Definition npf_remove_consumer (id : Z) (d : NpFailover) : option Consumer * NpFailover :=
  match npf_take id (npf_consumers d) with
  | None => (None, d)
  | Some (c, rest) =>
      let d := npf_sort_consumers (npf_set rest (npf_active d) d) in
      match rest with
      | [] => (Some c, npf_set [] None d)
      | _ => (Some c, (npf_pick_and_schedule d).2)
      end
  end.

Definition npf_send_messages (es : list NonPersistentEntry) (d : NpFailover) : NpFailover :=
  let k := record_received (Z.of_nat (length es)) (npf_counters d) in
  match npf_get_active_consumer d with
  | None => mkNpFailover (npf_topic_name d) (npf_partition_index d) (npf_consumers d) (npf_active d) (np_drop_all k es)
  | Some c =>
      let '(c', k) := np_send_to c k es in
      mkNpFailover (npf_topic_name d) (npf_partition_index d)
        ((fun x => if consumer_id x =? consumer_id c then c' else x) <$> npf_consumers d) (npf_active d) k
  end.

(** ** Shared *)

Record NpShared := mkNpShared {
  nps_consumers : gmap Z Consumer;
  nps_ordered : list Z;
  nps_next_index : Z;
  nps_total_permits : Z;
  nps_counters : NpCounters;
}.

Definition nps_new : NpShared := mkNpShared ∅ [] 0 0 no_counts.

(** [sort_by_key(|consumer| (consumer.get_priority_level(), consumer.consumer_id))] *)
Definition nps_before (a b : Consumer) : Prop :=
  priority_level a < priority_level b \/ priority_level a = priority_level b /\ consumer_id a <= consumer_id b.

#[global] Instance nps_before_dec : RelDecision nps_before.
Proof. intros a b; unfold nps_before; apply _. Defined.

Definition rebuild_ordered_consumers (cs : gmap Z Consumer) : list Z :=
  consumer_id <$> stable_sort nps_before (map_to_list cs).*2.

Definition nps_add_consumer (c : Consumer) (d : NpShared) : result unit NpShared :=
  match nps_consumers d !! consumer_id c with
  | Some _ => Err tt
  | None =>
      let cs := <[consumer_id c := c]> (nps_consumers d) in
      Ok (mkNpShared cs (rebuild_ordered_consumers cs) (nps_next_index d) (nps_total_permits d) (nps_counters d))
  end.

Definition nps_remove_consumer (id : Z) (d : NpShared) : option Consumer * NpShared :=
  let c := nps_consumers d !! id in
  let cs := delete id (nps_consumers d) in
  let total := match c with
               | Some c => np_sub_permits (nps_total_permits d) (available_permits_now c)
               | None => nps_total_permits d
               end in
  (c, mkNpShared cs (rebuild_ordered_consumers cs) (nps_next_index d) total (nps_counters d)).

Definition nps_consumer_flow (n : Z) (d : NpShared) : NpShared :=
  mkNpShared (nps_consumers d) (nps_ordered d) (nps_next_index d) (np_add_permits (nps_total_permits d) n)
    (nps_counters d).

(** The consumers from the start index on, until one takes the entry. *)
Fixpoint nps_try (e : NonPersistentEntry) (ids : list Z) (cs : gmap Z Consumer) : option Z * gmap Z Consumer :=
  match ids with
  | [] => (None, cs)
  | id :: ids =>
      match cs !! id with
      | None => nps_try e ids cs
      | Some c =>
          match np_offer e c with
          | (true, c) => (Some id, <[id := c]> cs)
          | (false, c) => nps_try e ids (<[id := c]> cs)
          end
      end
  end.

Definition nps_send_one (e : NonPersistentEntry) (d : NpShared) : NpShared :=
  match nps_ordered d with
  | [] =>
      mkNpShared (nps_consumers d) [] (nps_next_index d) (nps_total_permits d)
        (record_drop (np_batch e) (nps_counters d))
  | _ =>
      let start := Z.to_nat (nps_next_index d mod Z.of_nat (length (nps_ordered d))) in
      let next := wrap_u64 (nps_next_index d + 1) in
      match nps_try e (drop start (nps_ordered d) ++ take start (nps_ordered d)) (nps_consumers d) with
      | (Some _, cs) =>
          mkNpShared cs (nps_ordered d) next (np_sub_permits (nps_total_permits d) (np_batch e))
            (record_dispatched (np_batch e) (nps_counters d))
      | (None, cs) =>
          mkNpShared cs (nps_ordered d) next (nps_total_permits d) (record_drop (np_batch e) (nps_counters d))
      end
  end.

Definition nps_send_messages (es : list NonPersistentEntry) (d : NpShared) : NpShared :=
  foldl (fun d e => nps_send_one e d)
    (mkNpShared (nps_consumers d) (nps_ordered d) (nps_next_index d) (nps_total_permits d)
       (record_received (Z.of_nat (length es)) (nps_counters d))) es.

(** ** Key-shared *)

Record NpSticky := mkNpSticky {
  npk_consumers : gmap Z Consumer;
  npk_auto_split : list KeyShared.assignment;
  npk_sticky : list KeyShared.assignment;
  npk_policy : KeySharedPolicy;
  npk_total_permits : Z;
  npk_counters : NpCounters;
}.

Definition npk_new (policy : option KeySharedPolicy) : NpSticky :=
  mkNpSticky ∅ [] [] (default (mkPolicy AutoSplit [] false) policy) 0 no_counts.

Definition npk_has_same_key_shared_policy (policy : option KeySharedPolicy) (d : NpSticky) : bool :=
  match policy with
  | None => bool_decide (policy_mode (npk_policy d) = AutoSplit)
  | Some policy => bool_decide (policy_mode policy = policy_mode (npk_policy d))
  end.

Definition npk_active_assignments (d : NpSticky) : list KeyShared.assignment :=
  match policy_mode (npk_policy d) with
  | AutoSplit => npk_auto_split d
  | Sticky => npk_sticky d
  end.

(** The ranges are computed as in the persistent key-shared dispatcher. *)
Definition npk_rebuild (cs : gmap Z Consumer) (total : Z) (d : NpSticky) : NpSticky :=
  mkNpSticky cs (KeyShared.rebuild_auto_split_assignments cs) (KeyShared.rebuild_sticky_assignments cs)
    (npk_policy d) total (npk_counters d).

Definition npk_add_consumer (c : Consumer) (d : NpSticky) : result unit NpSticky :=
  match npk_consumers d !! consumer_id c with
  | Some _ => Err tt
  | None =>
      if npk_has_same_key_shared_policy (key_shared_policy c) d
      then Ok (npk_rebuild (<[consumer_id c := c]> (npk_consumers d)) (npk_total_permits d) d)
      else Err tt
  end.

Definition npk_remove_consumer (id : Z) (d : NpSticky) : option Consumer * NpSticky :=
  let c := npk_consumers d !! id in
  let total := match c with
               | Some c => np_sub_permits (npk_total_permits d) (available_permits_now c)
               | None => npk_total_permits d
               end in
  (c, npk_rebuild (delete id (npk_consumers d)) total d).

Definition npk_set (cs : gmap Z Consumer) (total : Z) (k : NpCounters) (d : NpSticky) : NpSticky :=
  mkNpSticky cs (npk_auto_split d) (npk_sticky d) (npk_policy d) total k.

Definition npk_consumer_flow (n : Z) (d : NpSticky) : NpSticky :=
  npk_set (npk_consumers d) (np_add_permits (npk_total_permits d) n) (npk_counters d) d.

Definition npk_select_consumer (e : NonPersistentEntry) (d : NpSticky) : option Consumer :=
  KeyShared.select_from (npk_consumers d) (sticky_key_hash_from_metadata (np_metadata e)) (npk_active_assignments d).

Definition npk_send_one (e : NonPersistentEntry) (d : NpSticky) : NpSticky :=
  match npk_select_consumer e d with
  | None => npk_set (npk_consumers d) (npk_total_permits d) (record_drop (np_batch e) (npk_counters d)) d
  | Some c =>
      match np_offer e c with
      | (true, c) =>
          npk_set (<[consumer_id c := c]> (npk_consumers d)) (np_sub_permits (npk_total_permits d) (np_batch e))
            (record_dispatched (np_batch e) (npk_counters d)) d
      | (false, c) =>
          npk_set (<[consumer_id c := c]> (npk_consumers d)) (npk_total_permits d)
            (record_drop (np_batch e) (npk_counters d)) d
      end
  end.

(** Without permits the entries are dropped and counted one each. *)
Definition npk_send_messages (es : list NonPersistentEntry) (d : NpSticky) : NpSticky :=
  let k := record_received (Z.of_nat (length es)) (npk_counters d) in
  if npk_total_permits d =? 0
  then npk_set (npk_consumers d) (npk_total_permits d) (record_drop (Z.of_nat (length es)) k) d
  else foldl (fun d e => npk_send_one e d) (npk_set (npk_consumers d) (npk_total_permits d) k d) es.

(** ** The dispatcher of a subscription *)

Inductive NonPersistentDispatcher :=
| NExclusive (d : NpExclusive)
| NFailover (d : NpFailover)
| NMultipleConsumers (d : NpShared)
| NStickyKey (d : NpSticky).

Definition np_new (t : SubscriptionType) (topic : string) (partition_index : Z) (policy : option KeySharedPolicy)
  : NonPersistentDispatcher :=
  match t with
  | Exclusive => NExclusive npx_new
  | Failover => NFailover (npf_new topic partition_index)
  | Shared => NMultipleConsumers nps_new
  | KeyShared => NStickyKey (npk_new policy)
  end.

Definition np_get_type (d : NonPersistentDispatcher) : SubscriptionType :=
  match d with
  | NExclusive _ => Exclusive
  | NFailover _ => Failover
  | NMultipleConsumers _ => Shared
  | NStickyKey _ => KeyShared
  end.

Definition np_get_consumers (d : NonPersistentDispatcher) : list Consumer :=
  match d with
  | NExclusive d => option_list (npx_consumer d)
  | NFailover d => npf_consumers d
  | NMultipleConsumers d => (map_to_list (nps_consumers d)).*2
  | NStickyKey d => (map_to_list (npk_consumers d)).*2
  end.

Definition np_is_consumer_connected (d : NonPersistentDispatcher) : bool :=
  match d with
  | NExclusive d => bool_decide (npx_consumer d <> None)
  | NFailover d => bool_decide (npf_consumers d <> [])
  | NMultipleConsumers d => bool_decide (nps_consumers d <> ∅)
  | NStickyKey d => bool_decide (npk_consumers d <> ∅)
  end.

Definition np_get_consumer (id : Z) (d : NonPersistentDispatcher) : option Consumer :=
  List.find (fun c => consumer_id c =? id) (np_get_consumers d).

Definition np_get_active_consumer (d : NonPersistentDispatcher) : option Consumer :=
  match d with
  | NExclusive d => npx_consumer d
  | NFailover d => npf_get_active_consumer d
  | NMultipleConsumers _ | NStickyKey _ => None
  end.

Definition np_add_consumer (c : Consumer) (d : NonPersistentDispatcher) : result unit unit * NonPersistentDispatcher :=
  match d with
  | NExclusive x => match npx_add_consumer c x with Ok x => (Ok tt, NExclusive x) | Err e => (Err e, d) end
  | NFailover x => match npf_add_consumer c x with Ok x => (Ok tt, NFailover x) | Err e => (Err e, d) end
  | NMultipleConsumers x =>
      match nps_add_consumer c x with Ok x => (Ok tt, NMultipleConsumers x) | Err e => (Err e, d) end
  | NStickyKey x => match npk_add_consumer c x with Ok x => (Ok tt, NStickyKey x) | Err e => (Err e, d) end
  end.

Definition np_remove_consumer (id : Z) (d : NonPersistentDispatcher) : option Consumer * NonPersistentDispatcher :=
  match d with
  | NExclusive x => let '(c, x) := npx_remove_consumer id x in (c, NExclusive x)
  | NFailover x => let '(c, x) := npf_remove_consumer id x in (c, NFailover x)
  | NMultipleConsumers x => let '(c, x) := nps_remove_consumer id x in (c, NMultipleConsumers x)
  | NStickyKey x => let '(c, x) := npk_remove_consumer id x in (c, NStickyKey x)
  end.

(** The exclusive and failover dispatchers only log a flow. *)
Definition np_consumer_flow (n : Z) (d : NonPersistentDispatcher) : NonPersistentDispatcher :=
  match d with
  | NMultipleConsumers x => NMultipleConsumers (nps_consumer_flow n x)
  | NStickyKey x => NStickyKey (npk_consumer_flow n x)
  | NExclusive _ | NFailover _ => d
  end.

Definition np_counters (d : NonPersistentDispatcher) : NpCounters :=
  match d with
  | NExclusive d => npx_counters d
  | NFailover d => npf_counters d
  | NMultipleConsumers d => nps_counters d
  | NStickyKey d => npk_counters d
  end.

Definition np_has_same_key_shared_policy (policy : option KeySharedPolicy) (d : NonPersistentDispatcher) : bool :=
  match d with
  | NStickyKey d => npk_has_same_key_shared_policy policy d
  | _ => bool_decide (policy = None)
  end.

Definition np_send_messages (es : list NonPersistentEntry) (d : NonPersistentDispatcher) : NonPersistentDispatcher :=
  match d with
  | NExclusive d => NExclusive (npx_send_messages es d)
  | NFailover d => NFailover (npf_send_messages es d)
  | NMultipleConsumers d => NMultipleConsumers (nps_send_messages es d)
  | NStickyKey d => NStickyKey (npk_send_messages es d)
  end.

(** ** The runtime of a subscription *)

Record NonPersistentSubscriptionRuntime := mkNpRuntime {
  npr_topic_name : string;
  npr_partition_index : Z;
  npr_sub_type : SubscriptionType;
  npr_policy : option KeySharedPolicy;
  npr_is_fenced : bool;
  npr_dispatcher : option NonPersistentDispatcher;
}.

Implicit Types r : NonPersistentSubscriptionRuntime.

Definition npr_new (topic : string) (partition_index : Z) (t : SubscriptionType) (policy : option KeySharedPolicy)
  : NonPersistentSubscriptionRuntime := mkNpRuntime topic partition_index t policy false None.

Definition npr_set (d : option NonPersistentDispatcher) r : NonPersistentSubscriptionRuntime :=
  mkNpRuntime (npr_topic_name r) (npr_partition_index r) (npr_sub_type r) (npr_policy r) (npr_is_fenced r) d.

Definition npr_fence r : NonPersistentSubscriptionRuntime :=
  mkNpRuntime (npr_topic_name r) (npr_partition_index r) (npr_sub_type r) (npr_policy r) true (npr_dispatcher r).

(** The dispatcher differs from what the consumer or the runtime asks for. *)
Definition np_incompatible r (policy : option KeySharedPolicy) (d : NonPersistentDispatcher) : bool :=
  negb (bool_decide (np_get_type d = npr_sub_type r)) || negb (np_has_same_key_shared_policy policy d).

Definition npr_reuse_or_create_dispatcher r : NonPersistentDispatcher :=
  let fresh := np_new (npr_sub_type r) (npr_topic_name r) (npr_partition_index r) (npr_policy r) in
  match npr_dispatcher r with
  | Some d => if negb (np_is_consumer_connected d) && np_incompatible r (npr_policy r) d then fresh else d
  | None => fresh
  end.

Definition npr_add_consumer (c : Consumer) r : result unit unit * NonPersistentSubscriptionRuntime :=
  if npr_is_fenced r then (Err tt, r)
  else
    let d := npr_reuse_or_create_dispatcher r in
    if np_is_consumer_connected d && np_incompatible r (key_shared_policy c) d
    then (Err tt, npr_set (Some d) r)
    else let '(res, d) := np_add_consumer c d in (res, npr_set (Some d) r).

Definition npr_remove_consumer (id : Z) r : option Consumer * NonPersistentSubscriptionRuntime :=
  match npr_dispatcher r with
  | None => (None, r)
  | Some d =>
      let '(c, d) := np_remove_consumer id d in
      (c, npr_set (if np_is_consumer_connected d then Some d else None) r)
  end.

Definition npr_get_consumers r : list Consumer := from_option np_get_consumers [] (npr_dispatcher r).

Definition npr_has_consumers r : bool := from_option np_is_consumer_connected false (npr_dispatcher r).

Definition npr_consumer_flow (n : Z) r : NonPersistentSubscriptionRuntime :=
  npr_set (np_consumer_flow n <$> npr_dispatcher r) r.

Definition npr_send_messages (es : list NonPersistentEntry) r : NonPersistentSubscriptionRuntime :=
  npr_set (np_send_messages es <$> npr_dispatcher r) r.

(** ** Every entry is delivered once or dropped *)

(** The entry as its consumer receives it. *)
Definition np_pending (e : NonPersistentEntry) : PendingMessage :=
  mkPending (np_message_id e) (np_metadata e) (np_payload e) 0.

(** The entries that went to the consumer [id], when [outs] says where each went. *)
Fixpoint assigned (id : Z) (es : list NonPersistentEntry) (outs : list (option Z)) : list PendingMessage :=
  match es, outs with
  | e :: es, o :: outs => (if bool_decide (o = Some id) then [np_pending e] else []) ++ assigned id es outs
  | _, _ => []
  end.

Fixpoint total_batch (sent : bool) (es : list NonPersistentEntry) (outs : list (option Z)) : Z :=
  match es, outs with
  | e :: es, o :: outs => (if eqb sent (bool_decide (o <> None)) then np_batch e else 0) + total_batch sent es outs
  | _, _ => 0
  end.

(** What the consumer with this id has been sent. *)
Definition np_log (id : Z) (cs : gmap Z Consumer) : option (list PendingMessage) := delivered <$> cs !! id.

Definition by_id (cs : list Consumer) : gmap Z Consumer := list_to_map ((fun c => (consumer_id c, c)) <$> cs).

(** The consumers of a dispatcher by their ids. *)
Definition np_consumer_map (d : NonPersistentDispatcher) : gmap Z Consumer :=
  match d with
  | NMultipleConsumers d => nps_consumers d
  | NStickyKey d => npk_consumers d
  | _ => by_id (np_get_consumers d)
  end.

Definition keyed (cs : gmap Z Consumer) : Prop := map_Forall (fun id c => consumer_id c = id) cs.

(** The ids of the consumers are distinct, and the order of a shared dispatcher
    names its consumers. *)
Definition np_wf (d : NonPersistentDispatcher) : Prop :=
  match d with
  | NExclusive _ => True
  | NFailover d => NoDup (consumer_id <$> npf_consumers d)
  | NMultipleConsumers d =>
      keyed (nps_consumers d) /\ forall id, id ∈ nps_ordered d <-> is_Some (nps_consumers d !! id)
  | NStickyKey d => keyed (npk_consumers d)
  end.

Lemma np_offer_spec e c :
  info (np_offer e c).2 = info c /\
  delivered (np_offer e c).2 = delivered c ++ (if (np_offer e c).1 then [np_pending e] else []).
Proof.
  unfold np_offer, try_reserve_dispatch, try_use_permits; destruct (0 <? available_permits c); cbn;
    [|by rewrite app_nil_r].
  destruct (default NoSlot (head (link c))); cbn; try by rewrite app_nil_r.
  destruct (add_pending_ack _ _ _ _) as [[] p]; cbn; [done | by rewrite app_nil_r].
Qed.

Definition count_out (e : NonPersistentEntry) (o : option Z) (k : NpCounters) : NpCounters :=
  match o with Some _ => record_dispatched (np_batch e) k | None => record_drop (np_batch e) k end.

(** One entry: where it goes, what the consumers see and what is counted. *)
Definition np_moves (e : NonPersistentEntry) (o : option Z) (cs : gmap Z Consumer) (k : NpCounters)
    (cs' : gmap Z Consumer) (k' : NpCounters) : Prop :=
  (forall id, np_log id cs' = (fun l => l ++ assigned id [e] [o]) <$> np_log id cs) /\ k' = count_out e o k.

Fixpoint count_all (es : list NonPersistentEntry) (outs : list (option Z)) (k : NpCounters) : NpCounters :=
  match es, outs with
  | e :: es, o :: outs => count_all es outs (count_out e o k)
  | _, _ => k
  end.

Lemma count_all_spec es outs k :
  let k' := count_all es outs k in
  np_received k' = np_received k /\
  wrap_u64 (np_dispatched k') = wrap_u64 (np_dispatched k + total_batch true es outs) /\
  wrap_u64 (np_dropped k') = wrap_u64 (np_dropped k + total_batch false es outs).
Proof.
  revert outs k; induction es as [|e es IH]; intros [|o outs] k; cbn [count_all total_batch]; try by rewrite !Z.add_0_r.
  destruct (IH outs (count_out e o k)) as (-> & -> & ->); destruct o; cbn; split_and!; try done;
    unfold wrap_u64; rewrite ?Z.add_0_l; rewrite ?Zplus_mod_idemp_l; f_equal; lia.
Qed.

(** A list of entries, the consumers and counters before and after. *)
Definition np_run (es : list NonPersistentEntry) (outs : list (option Z)) (cs : gmap Z Consumer) (k : NpCounters)
    (cs' : gmap Z Consumer) (k' : NpCounters) : Prop :=
  length outs = length es /\
  (forall id, np_log id cs' = (fun l => l ++ assigned id es outs) <$> np_log id cs) /\
  (forall id, Some id ∈ outs -> is_Some (cs !! id)) /\ k' = count_all es outs k.

Lemma np_run_nil cs k : np_run [] [] cs k cs k.
Proof.
  split_and!; [done | | by intros id ?%elem_of_nil | done].
  intros id; cbn; destruct (np_log id cs); cbn; by rewrite ?app_nil_r.
Qed.

Lemma np_log_dom id cs : is_Some (np_log id cs) <-> is_Some (cs !! id).
Proof. unfold np_log; by rewrite fmap_is_Some. Qed.

Lemma np_run_cons e o es outs cs k cs1 k1 cs' k' :
  np_moves e o cs k cs1 k1 -> (forall id, o = Some id -> is_Some (cs !! id)) -> np_run es outs cs1 k1 cs' k' ->
  np_run (e :: es) (o :: outs) cs k cs' k'.
Proof.
  intros [Hm ->] Ho (Hl & Hr & Hin & ->); split_and!; [by cbn; rewrite Hl | | | done].
  - intros id; rewrite Hr, Hm; cbn; destruct (np_log id cs); cbn; [|done]; by rewrite app_nil_r, <- app_assoc.
  - intros id [Heq|Hid]%elem_of_cons; [by apply Ho |].
    apply Hin, np_log_dom in Hid; rewrite Hm, fmap_is_Some in Hid; by apply np_log_dom.
Qed.

Lemma np_log_insert id c c' cs j :
  cs !! id = Some c -> np_log j (<[id := c']> cs) = if decide (j = id) then Some (delivered c') else np_log j cs.
Proof.
  intros Hc; unfold np_log; destruct (decide (j = id)) as [->|?]; by simplify_map_eq.
Qed.

(** An entry offered to a consumer of the map. *)
Lemma np_offer_moves e id c cs k :
  cs !! id = Some c ->
  let '(b, c') := np_offer e c in
  np_moves e (if b then Some id else None) cs k (<[id := c']> cs) (count_out e (if b then Some id else None) k) /\
  (keyed cs -> keyed (<[id := c']> cs)).
Proof.
  intros Hc; destruct (np_offer e c) as [b c'] eqn:Eo; pose proof (np_offer_spec e c) as [Hi Hd]; rewrite Eo in Hi, Hd; cbn in *.
  split; [split; [|done] |].
  - intros j; rewrite (np_log_insert id c) by done; cbn; rewrite app_nil_r.
    destruct (decide (j = id)) as [->|Hne].
    + unfold np_log; rewrite Hc; cbn; rewrite Hd; destruct b; cbn; [by rewrite bool_decide_true | by rewrite bool_decide_false].
    + destruct (np_log j cs); [|done]; destruct b; cbn; rewrite bool_decide_false by congruence; by rewrite app_nil_r.
  - intros Hk; apply map_Forall_insert_2; [|done]; unfold consumer_id; rewrite Hi; exact (Hk id c Hc).
Qed.

Lemma np_moves_none e cs k : np_moves e None cs k cs (record_drop (np_batch e) k).
Proof.
  split; [|done]; intros id; cbn; destruct (np_log id cs); cbn; by rewrite ?app_nil_r.
Qed.

(** *** Exclusive and failover *)

Lemma np_send_to_spec es c k :
  let '(c', k') := np_send_to c k es in
  info c' = info c /\ exists outs,
    length outs = length es /\ Forall (fun o => o = None \/ o = Some (consumer_id c)) outs /\
    delivered c' = delivered c ++ assigned (consumer_id c) es outs /\ k' = count_all es outs k.
Proof.
  revert c k; induction es as [|e es IH]; intros c k; cbn [np_send_to].
  { split; [done |]; exists []; split_and!; [done | constructor | by rewrite app_nil_r | done]. }
  pose proof (np_offer_spec e c) as [Hi Hd]; destruct (np_offer e c) as [b c1]; cbn in Hi, Hd.
  assert (consumer_id c1 = consumer_id c) as Hid by (unfold consumer_id; by rewrite Hi).
  destruct b.
  - specialize (IH c1 (record_dispatched (np_batch e) k)); destruct (np_send_to c1 _ es) as [c' k'].
    destruct IH as (Hi' & outs & Hl & Ho & Hd' & ->); split; [congruence |]; rewrite Hid in Hd', Ho.
    exists (Some (consumer_id c) :: outs); split_and!; [by cbn; rewrite Hl | constructor; auto | | done].
    rewrite Hd', Hd; cbn; rewrite bool_decide_true by done; by rewrite <- app_assoc.
  - specialize (IH c1 (record_drop (np_batch e) k)); destruct (np_send_to c1 _ es) as [c' k'].
    destruct IH as (Hi' & outs & Hl & Ho & Hd' & ->); split; [congruence |]; rewrite Hid in Hd', Ho.
    exists (None :: outs); split_and!; [by cbn; rewrite Hl | constructor; auto | | done].
    rewrite Hd', Hd; cbn; by rewrite app_nil_r.
Qed.

Lemma np_drop_all_spec es cs k : np_run es (replicate (length es) None) cs k cs (np_drop_all k es).
Proof.
  revert k; induction es as [|e es IH]; intros k; [apply np_run_nil |].
  eapply np_run_cons; [apply np_moves_none | done | apply IH].
Qed.

Lemma assigned_other id j es outs :
  id <> j -> Forall (fun o => o = None \/ o = Some id) outs -> assigned j es outs = [].
Proof.
  intros Hne Ho; revert es; induction Ho as [|o outs Ho _ IH]; intros [|e es]; cbn; try done.
  rewrite bool_decide_false by (destruct Ho; congruence); apply IH.
Qed.

(** The consumer [c] of the map is sent the entries. *)
Lemma np_send_to_run es c k cs :
  cs !! consumer_id c = Some c ->
  let '(c', k') := np_send_to c k es in
  info c' = info c /\ exists outs, np_run es outs cs k (<[consumer_id c := c']> cs) k'.
Proof.
  intros Hc; pose proof (np_send_to_spec es c k) as Hs; destruct (np_send_to c k es) as [c' k'].
  destruct Hs as (Hi & outs & Hl & Ho & Hd & ->); split; [done |]; exists outs; split_and!; [done | | | done].
  - intros j; rewrite (np_log_insert (consumer_id c) c) by done; destruct (decide (j = consumer_id c)) as [->|Hne].
    + unfold np_log; rewrite Hc; cbn; by rewrite Hd.
    + rewrite (assigned_other (consumer_id c)) by done; destruct (np_log j cs); cbn; by rewrite ?app_nil_r.
  - intros id Hid; rewrite Forall_forall in Ho; destruct (Ho _ Hid) as [|[= ->]]; [done | by exists c].
Qed.

(** *** Shared and key-shared *)

Lemma np_moves_dom e o cs k cs' k' id : np_moves e o cs k cs' k' -> is_Some (cs' !! id) <-> is_Some (cs !! id).
Proof. intros [Hm _]; rewrite <- !np_log_dom, Hm; apply fmap_is_Some. Qed.

Lemma nps_try_spec e ids cs k :
  keyed cs ->
  let '(o, cs') := nps_try e ids cs in
  keyed cs' /\ np_moves e o cs k cs' (count_out e o k) /\ forall id, o = Some id -> is_Some (cs !! id).
Proof.
  revert cs; induction ids as [|id ids IH]; intros cs Hk; cbn [nps_try].
  { split_and!; [done | apply np_moves_none | done]. }
  destruct (cs !! id) as [c|] eqn:Ec; [|by apply IH].
  pose proof (np_offer_moves e id c cs k Ec) as Hm; destruct (np_offer e c) as [[] c'], Hm as [Hm Hk'].
  - split_and!; [by apply Hk' | done |]; intros j [= <-]; by exists c.
  - specialize (IH (<[id := c']> cs) (Hk' Hk)); destruct (nps_try e ids _) as [o cs'], IH as (Hk1 & [Hl _] & Ho).
    destruct Hm as [Hm _]; split_and!; [done | split; [|done] |].
    + intros j; rewrite Hl, Hm; cbn; destruct (np_log j cs); cbn; by rewrite ?app_nil_r.
    + intros j Hj; apply Ho in Hj; apply np_log_dom; apply np_log_dom in Hj; rewrite Hm, fmap_is_Some in Hj; done.
Qed.

Lemma nps_send_one_spec e d :
  np_wf (NMultipleConsumers d) ->
  np_wf (NMultipleConsumers (nps_send_one e d)) /\ exists o,
    np_moves e o (nps_consumers d) (nps_counters d) (nps_consumers (nps_send_one e d)) (nps_counters (nps_send_one e d)) /\
    forall id, o = Some id -> is_Some (nps_consumers d !! id).
Proof.
  intros [Hk Ho]; unfold nps_send_one; destruct (nps_ordered d) as [|i0 rest] eqn:Eo.
  { split; [split; cbn; [done | exact Ho] |]; exists None; split; [apply np_moves_none | done]. }
  rewrite <- Eo in Ho |- *; set (ids := drop _ _ ++ take _ _).
  pose proof (nps_try_spec e ids (nps_consumers d) (nps_counters d) Hk) as Ht.
  destruct (nps_try e ids (nps_consumers d)) as [[id|] cs'], Ht as (Hk' & Hm & Hin); cbn.
  - split; [split; cbn; [done |]; intros j; rewrite (np_moves_dom _ _ _ _ _ _ _ Hm); apply Ho |].
    exists (Some id); by split.
  - split; [split; cbn; [done |]; intros j; rewrite (np_moves_dom _ _ _ _ _ _ _ Hm); apply Ho |].
    exists None; by split.
Qed.

Lemma nps_send_all es d :
  np_wf (NMultipleConsumers d) ->
  let d' := foldl (fun d e => nps_send_one e d) d es in
  np_wf (NMultipleConsumers d') /\
  exists outs, np_run es outs (nps_consumers d) (nps_counters d) (nps_consumers d') (nps_counters d').
Proof.
  revert d; induction es as [|e es IH]; intros d Hw; cbn [foldl]; [split; [done |]; exists []; apply np_run_nil |].
  destruct (nps_send_one_spec e d Hw) as (Hw1 & o & Hm & Ho), (IH _ Hw1) as (Hw' & outs & Hr).
  split; [done |]; exists (o :: outs); by eapply np_run_cons.
Qed.

Lemma select_from_lookup cs h l c : keyed cs -> KeyShared.select_from cs h l = Some c -> cs !! consumer_id c = Some c.
Proof.
  intros Hk; induction l as [|[r id] l IH]; cbn; [done |].
  destruct (cs !! id) as [c0|] eqn:Ec; [|done]; destruct (_ && _ && _); [|done].
  intros [= <-]; by rewrite (Hk id c0 Ec).
Qed.

Lemma npk_send_one_spec e d :
  keyed (npk_consumers d) ->
  keyed (npk_consumers (npk_send_one e d)) /\ exists o,
    np_moves e o (npk_consumers d) (npk_counters d) (npk_consumers (npk_send_one e d)) (npk_counters (npk_send_one e d)) /\
    forall id, o = Some id -> is_Some (npk_consumers d !! id).
Proof.
  intros Hk; unfold npk_send_one; destruct (npk_select_consumer e d) as [c|] eqn:Es.
  2:{ split; [done |]; exists None; split; [apply np_moves_none | done]. }
  apply select_from_lookup in Es; [|done].
  pose proof (np_offer_moves e _ c _ (npk_counters d) Es) as Hm; pose proof (np_offer_spec e c) as [Hi _].
  destruct (np_offer e c) as [b c'], Hm as [Hm Hk']; cbn in Hi.
  assert (consumer_id c' = consumer_id c) as Hid by (unfold consumer_id; by rewrite Hi).
  destruct b; cbn; rewrite Hid; (split; [by apply Hk' |]); eexists; (split; [exact Hm |]); intros j; [intros [= <-]; by exists c | done].
Qed.

Lemma npk_send_all es d :
  keyed (npk_consumers d) ->
  let d' := foldl (fun d e => npk_send_one e d) d es in
  keyed (npk_consumers d') /\
  exists outs, np_run es outs (npk_consumers d) (npk_counters d) (npk_consumers d') (npk_counters d').
Proof.
  revert d; induction es as [|e es IH]; intros d Hw; cbn [foldl]; [split; [done |]; exists []; apply np_run_nil |].
  destruct (npk_send_one_spec e d Hw) as (Hw1 & o & Hm & Ho), (IH _ Hw1) as (Hw' & outs & Hr).
  split; [done |]; exists (o :: outs); by eapply np_run_cons.
Qed.

(** *** The failover map *)

Lemma by_id_lookup cs c : NoDup (consumer_id <$> cs) -> c ∈ cs -> by_id cs !! consumer_id c = Some c.
Proof.
  intros Hn Hc; apply elem_of_list_to_map_1; [by rewrite <- list_fmap_compose |].
  by apply (list_elem_of_fmap_2 (fun c => (consumer_id c, c))).
Qed.

Lemma by_id_update cs c c' :
  NoDup (consumer_id <$> cs) -> c ∈ cs -> consumer_id c' = consumer_id c ->
  by_id ((fun x => if consumer_id x =? consumer_id c then c' else x) <$> cs) = <[consumer_id c := c']> (by_id cs).
Proof.
  intros Hn Hc Hid; unfold by_id; induction cs as [|x cs IH]; [by apply elem_of_nil in Hc |].
  rewrite !fmap_cons in *; apply NoDup_cons in Hn as [Hx Hn]; rewrite !list_to_map_cons.
  destruct (Z.eqb_spec (consumer_id x) (consumer_id c)) as [Heq|Hne].
  - rewrite Hid, Heq, insert_insert_eq; do 3 f_equal.
    rewrite <- (list_fmap_id cs) at 2; apply list_fmap_ext; intros i y Hy.
    destruct (Z.eqb_spec (consumer_id y) (consumer_id c)) as [Hy'|]; [|done].
    exfalso; apply Hx; rewrite Heq, <- Hy'; apply list_elem_of_fmap_2; by apply list_elem_of_lookup_2 with i.
  - apply elem_of_cons in Hc as [->|Hc]; [done |].
    rewrite insert_insert_ne by congruence; f_equal; by apply IH.
Qed.

Lemma find_consumer_elem id cs c : List.find (fun c => consumer_id c =? id) cs = Some c -> c ∈ cs /\ consumer_id c = id.
Proof.
  intros Hf; pose proof (List.find_some _ _ Hf) as [Hin He]; split; [by apply list_elem_of_In | lia].
Qed.

(** The key-shared dispatcher drops everything while its total of permits is 0. *)
Definition np_gate_closed (d : NonPersistentDispatcher) : bool :=
  match d with NStickyKey d => npk_total_permits d =? 0 | _ => false end.

Lemma np_send_run d es :
  np_wf d -> np_gate_closed d = false ->
  np_wf (np_send_messages es d) /\ exists outs,
    np_run es outs (np_consumer_map d) (record_received (Z.of_nat (length es)) (np_counters d))
      (np_consumer_map (np_send_messages es d)) (np_counters (np_send_messages es d)).
Proof.
  intros Hw Hg; destruct d as [d|d|d|d]; cbn in Hw, Hg.
  - cbn; unfold npx_send_messages; destruct (npx_consumer d) as [c|] eqn:Ec; [|split; [done |]; eexists; apply np_drop_all_spec].
    pose proof (np_send_to_run es c (record_received (Z.of_nat (length es)) (npx_counters d)) (by_id [c])) as Hs.
    destruct (np_send_to c _ es) as [c' k'], Hs as (Hi & outs & Hr); [by apply lookup_insert_eq |].
    split; [done |]; exists outs; cbn; unfold by_id in *; cbn in *; rewrite insert_insert_eq in Hr.
    replace (consumer_id c') with (consumer_id c) by (unfold consumer_id; by rewrite Hi); exact Hr.
  - cbn -[by_id]; unfold npf_send_messages; destruct (npf_get_active_consumer d) as [c|] eqn:Ea; [|split; [done |]; eexists; apply np_drop_all_spec].
    assert (c ∈ npf_consumers d) as Hc.
    { unfold npf_get_active_consumer in Ea; destruct (npf_active d); [|done]; by eapply find_consumer_elem. }
    pose proof (np_send_to_run es c (record_received (Z.of_nat (length es)) (npf_counters d)) (by_id (npf_consumers d))
      (by_id_lookup _ _ Hw Hc)) as Hs.
    destruct (np_send_to c _ es) as [c' k'], Hs as (Hi & outs & Hr).
    assert (consumer_id c' = consumer_id c) as Hid by (unfold consumer_id; by rewrite Hi).
    cbn -[by_id]; split; [|exists outs; by rewrite by_id_update].
    rewrite <- list_fmap_compose; erewrite list_fmap_ext; [exact Hw |].
    intros i x Hx; cbn; by destruct (Z.eqb_spec (consumer_id x) (consumer_id c)); [congruence |].
  - apply (nps_send_all es (mkNpShared (nps_consumers d) (nps_ordered d) (nps_next_index d) (nps_total_permits d) _)); done.
  - cbn; unfold npk_send_messages; rewrite Hg.
    apply (npk_send_all es (npk_set (npk_consumers d) (npk_total_permits d) _ d)); done.
Qed.

(** *** Membership *)

Lemma np_wf_new t topic i policy : np_wf (np_new t topic i policy).
Proof.
  destruct t; cbn; [done | | by constructor | by intros ? ? ?%lookup_empty_Some].
  split; [by intros ? ? ?%lookup_empty_Some |]; intros id; rewrite lookup_empty; split; [by intros ?%elem_of_nil | by intros []].
Qed.

Lemma keyed_insert cs c : keyed cs -> keyed (<[consumer_id c := c]> cs).
Proof. intros; by apply map_Forall_insert_2. Qed.

Lemma rebuild_ordered_elem cs id : keyed cs -> id ∈ rebuild_ordered_consumers cs <-> is_Some (cs !! id).
Proof.
  intros Hk; unfold rebuild_ordered_consumers; rewrite stable_sort_perm, list_elem_of_fmap; split.
  - intros (c & -> & ([i x] & -> & Hi%elem_of_map_to_list)%list_elem_of_fmap); cbn; rewrite (Hk i x Hi); by exists x.
  - intros [c Hc]; exists c; rewrite (Hk id c Hc); split; [done |]; apply list_elem_of_fmap.
    exists (id, c); split; [done |]; by apply elem_of_map_to_list.
Qed.

Lemma npf_pick_ids d : consumer_id <$> npf_consumers (npf_pick_and_schedule d).2 = consumer_id <$> npf_consumers d.
Proof.
  unfold npf_pick_and_schedule; destruct (bool_decide _); [done |].
  destruct (npf_select_active_consumer_id d); cbn; [|done]; by rewrite <- list_fmap_compose.
Qed.

Lemma np_wf_add c d : np_wf d -> np_wf (np_add_consumer c d).2.
Proof.
  intros Hw; destruct d as [d|d|d|d]; cbn in Hw |- *.
  - by destruct (npx_add_consumer c d).
  - unfold npf_add_consumer; destruct (existsb _ _) eqn:Ee; [done |].
    set (d1 := npf_sort_consumers _); pose proof (npf_pick_ids d1) as Hids.
    assert (NoDup (consumer_id <$> npf_consumers d1)) as Hn.
    { subst d1; cbn; rewrite stable_sort_perm, fmap_app; apply NoDup_app; split_and!; [done | | apply NoDup_singleton].
      intros id Hin ->%list_elem_of_singleton; apply list_elem_of_fmap in Hin as (x & Heq & Hx).
      apply not_true_iff_false in Ee; apply Ee, existsb_exists; exists x; split; [by apply list_elem_of_In | lia]. }
    destruct (npf_pick_and_schedule d1) as [[] d2]; cbn in *; [by rewrite Hids |].
    destruct (npf_active d2); cbn; [|by rewrite Hids].
    rewrite <- list_fmap_compose; erewrite list_fmap_ext; [rewrite Hids; exact Hn |].
    intros i x _; cbn; by destruct (_ =? _).
  - destruct Hw as [Hk Ho]; unfold nps_add_consumer; destruct (nps_consumers d !! consumer_id c); [done |]; cbn.
    split; [by apply keyed_insert |]; intros id; apply rebuild_ordered_elem; by apply keyed_insert.
  - unfold npk_add_consumer; destruct (npk_consumers d !! consumer_id c); [done |].
    destruct (npk_has_same_key_shared_policy _ d); [by apply keyed_insert | done].
Qed.

Lemma npf_take_perm id cs c rest : npf_take id cs = Some (c, rest) -> cs ≡ₚ c :: rest.
Proof.
  revert rest; induction cs as [|x cs IH]; intros rest; cbn; [done |].
  destruct (consumer_id x =? id); [by intros [= -> ->] |].
  destruct (npf_take id cs) as [[y ys]|]; [|done]; intros [= -> <-]; rewrite (IH ys) by done; apply Permutation_swap.
Qed.

Lemma np_wf_remove id d : np_wf d -> np_wf (np_remove_consumer id d).2.
Proof.
  intros Hw; destruct d as [d|d|d|d]; cbn in Hw |- *.
  - by destruct (npx_remove_consumer id d).
  - unfold npf_remove_consumer; destruct (npf_take id _) as [[c rest]|] eqn:Et; [|done].
    apply npf_take_perm in Et; rewrite Et in Hw; apply NoDup_cons in Hw as [_ Hw].
    destruct rest as [|x rest]; cbn; [constructor |]; rewrite npf_pick_ids; cbn [npf_sort_consumers npf_set npf_consumers].
    by rewrite stable_sort_perm.
  - destruct Hw as [Hk _]; split; [by apply map_Forall_delete |].
    intros i; apply rebuild_ordered_elem; by apply map_Forall_delete.
  - by apply map_Forall_delete.
Qed.

(** ** The active consumer of a failover subscription *)

(** Names and priorities decide, and they do not change. *)
Lemma npf_sort_total x y : npf_before x y \/ npf_before y x.
Proof.
  unfold npf_before; rewrite (String.compare_antisym (consumer_name y)).
  destruct (Z.lt_total (priority_level x) (priority_level y)) as [?|[?|?]]; [by left; left | | by right; left].
  destruct (String.compare (consumer_name x) (consumer_name y)); cbn; [left | left | right]; right; done.
Qed.

(** The points of the ring, with their consumers. *)
Definition point_hash (c : Consumer) (replica : nat) : Z :=
  murmur3_32 (string_bytes (consumer_name c +:+ show (Z.of_nat replica))) 0.

Definition points (c : Consumer) : list (Z * Consumer) := (fun replica => (point_hash c replica, c)) <$> seq 0 100.

Lemma first_point c : (point_hash c 0, c) ∈ points c.
Proof. apply list_elem_of_fmap; exists 0%nat; split; [done |]; apply elem_of_seq; lia. Qed.

Definition point_le (a b : Z * Consumer) : Prop := a.1 <= b.1.

#[global] Instance point_le_dec : RelDecision point_le.
Proof. intros a b; unfold point_le; apply _. Defined.

#[global] Instance point_le_trans : Transitive point_le.
Proof. intros a b c; unfold point_le; lia. Qed.

#[global] Instance ring_le_trans : Transitive ring_le.
Proof. intros a b c; unfold ring_le; lia. Qed.

Lemma point_le_total a b : point_le a b \/ point_le b a.
Proof. unfold point_le; lia. Qed.

Lemma ring_le_total a b : ring_le a b \/ ring_le b a.
Proof. unfold ring_le; lia. Qed.

(** The choice on a ring of consumers: the first point from the hash on, around. *)
Definition ring_choice (t : Z) (cs : list Consumer) : option Consumer :=
  let l := mjoin (points <$> cs) in
  snd <$> match first_least point_le (fun x => t <=? x.1) l with
          | Some x => Some x
          | None => first_least point_le (fun _ => true) l
          end.

Lemma join_cons {A} (x : list A) (l : list (list A)) : mjoin (x :: l) = x ++ mjoin l.
Proof. done. Qed.

Lemma ring_points_consumers pre cs :
  (fun x => (x.1, (pre ++ cs) !! x.2)) <$> mjoin (imap (fun i c => consumer_points (length pre + i) c) cs) =
  (fun x => (x.1, Some x.2)) <$> mjoin (points <$> cs).
Proof.
  revert pre; induction cs as [|c cs IH]; intros pre; [done |].
  rewrite imap_cons, fmap_cons, !join_cons, !fmap_app; f_equal.
  - unfold consumer_points, points; rewrite <- !list_fmap_compose; apply list_fmap_ext; intros i r _; cbn.
    by rewrite Nat.add_0_r, list_lookup_middle.
  - specialize (IH (pre ++ [c])); rewrite <- app_assoc in IH; rewrite <- IH; do 2 f_equal.
    apply imap_ext; intros i x _; unfold compose; rewrite length_app; f_equal; cbn [length]; lia.
Qed.

Lemma ring_select_choice t cs :
  cs !! ring_select t (hash_ring cs) = ring_choice t cs \/ cs = [].
Proof.
  destruct cs as [|c cs]; [by right | left].
  set (all := c :: cs); set (get := fun x : Z * nat => (x.1, all !! x.2)); set (lbl := fun x : Z * Consumer => (x.1, Some x.2)).
  assert (forall P : Z -> bool, (forall a b, a <= b -> P a = true -> P b = true) ->
    get <$> List.find (fun x => P x.1) (hash_ring all) =
    lbl <$> first_least point_le (fun x => P x.1) (mjoin (points <$> all))) as Hsel.
  { intros P Hup; unfold hash_ring; rewrite (find_stable_sort ring_le ring_le_total) by (intros a b; apply Hup).
    pose (le' := fun a b : Z * option Consumer => a.1 <= b.1).
    assert (RelDecision le') as Hdec by (intros a b; unfold le'; apply _).
    rewrite <- (first_least_fmap ring_le le' get (fun x => P x.1) (fun x => P x.1)) by done.
    rewrite <- (first_least_fmap point_le le' lbl (fun x => P x.1) (fun x => P x.1)) by done.
    f_equal; exact (ring_points_consumers [] all). }
  unfold ring_select, ring_choice; pose proof (Hsel (fun h => t <=? h) ltac:(cbv beta; intros ? ?; rewrite !Z.leb_le; lia)) as H1; cbv beta in H1.
  destruct (List.find _ (hash_ring all)) as [[h i]|].
  - destruct (first_least _ _ _) as [[h' c']|]; [|discriminate]; injection H1 as _ Hi; exact Hi.
  - destruct (first_least _ _ _) as [[h' c']|]; [discriminate |].
    pose proof (Hsel (fun _ => true) ltac:(done)) as H2; cbv beta in H2.
    assert (first_least point_le (fun _ => true) (mjoin (points <$> all)) <> None) as Hne.
    { intros Hn%first_least_none; unfold all in Hn; rewrite fmap_cons, join_cons, Forall_app in Hn.
      destruct Hn as [Hn _]; rewrite Forall_forall in Hn; by specialize (Hn _ (first_point c)). }
    destruct (first_least _ _ _) as [[h' c']|]; [|done].
    destruct (hash_ring all) as [|[h i] ring]; [discriminate |]; injection H2 as _ Hi; exact Hi.
Qed.

(** One more consumer on the ring: the choice stays, or is the new one. *)
Lemma ring_choice_join t l1 c l2 :
  ring_choice t (l1 ++ c :: l2) = ring_choice t (l1 ++ l2) \/ ring_choice t (l1 ++ c :: l2) = Some c.
Proof.
  unfold ring_choice; rewrite !fmap_app, !join_app, fmap_cons, join_cons.
  assert (forall x, x ∈ points c -> x.2 = c) as Hc.
  { intros x (r & -> & _)%list_elem_of_fmap; done. }
  set (a := mjoin (points <$> l1)); set (d := mjoin (points <$> l2)).
  destruct (first_least_mid point_le point_le_total (fun x => t <=? x.1) a (points c) d) as [->|(x & Hx & ->)].
  - destruct (first_least point_le (fun x => t <=? x.1) (a ++ d)); [by left |].
    destruct (first_least_mid point_le point_le_total (fun _ => true) a (points c) d) as [->|(x & Hx & ->)]; [by left |].
    right; cbn; by rewrite (Hc x Hx).
  - right; cbn; by rewrite (Hc x Hx).
Qed.

#[global] Instance npf_before_trans : Transitive npf_before.
Proof.
  intros a b c; unfold npf_before; intros [?|[E1 H1]] [?|[E2 H2]]; try lia; right; split; [lia |].
  destruct (String.compare (consumer_name a) (consumer_name b)) eqn:C1,
    (String.compare (consumer_name b) (consumer_name c)) eqn:C2; try done.
  - apply String.compare_eq_iff in C1, C2; rewrite C1, C2, string_compare_refl; done.
  - apply String.compare_eq_iff in C1; by rewrite C1, C2.
  - apply String.compare_eq_iff in C2; by rewrite <- C2, C1.
  - by rewrite (string_compare_lt_trans _ _ _ C1 C2).
Qed.

(** The consumers are sorted and the active one is the one selected. *)
Definition npf_ok (d : NpFailover) : Prop :=
  StronglySorted npf_before (npf_consumers d) /\ npf_active d = npf_select_active_consumer_id d.

(** The consumers with the best priority. *)
Definition best (cs : list Consumer) : list Consumer :=
  match cs with
  | [] => []
  | c0 :: _ => filter (fun c => priority_level c = priority_level c0) cs
  end.

Lemma select_ring d :
  npf_partition_index d < 0 ->
  npf_select_active_consumer_id d =
  consumer_id <$> ring_choice (murmur3_32 (string_bytes (npf_topic_name d)) 0) (best (npf_consumers d)).
Proof.
  intros Hp; unfold npf_select_active_consumer_id, best; destruct (npf_consumers d) as [|c0 cs]; [done |].
  destruct (Z.leb_spec 0 (npf_partition_index d)); [lia |].
  destruct (ring_select_choice (murmur3_32 (string_bytes (npf_topic_name d)) 0)
    (filter (fun c => priority_level c = priority_level c0) (c0 :: cs))) as [->|He]; [done |].
  rewrite filter_cons_True in He by done; discriminate.
Qed.

Lemma best_le cs c : StronglySorted npf_before cs -> c ∈ cs ->
  match cs with [] => True | c0 :: _ => priority_level c0 <= priority_level c end.
Proof.
  intros Hs Hc; destruct cs as [|c0 cs]; [done |]; apply elem_of_cons in Hc as [->|Hc]; [lia |].
  apply StronglySorted_inv in Hs as [_ Hs]; rewrite Forall_forall in Hs; destruct (Hs c Hc); lia.
Qed.

Lemma filter_none {A} (P : A -> Prop) `{!forall x, Decision (P x)} l : (forall x, x ∈ l -> ~ P x) -> filter P l = [].
Proof.
  induction l as [|x l IH]; intros Hl; [done |]; rewrite filter_cons_False by (apply Hl; by left).
  apply IH; intros y Hy; apply Hl; by right.
Qed.

(** Where a consumer that joins stands among the best. *)
Lemma best_join l1 c l2 :
  StronglySorted npf_before (l1 ++ c :: l2) ->
  best (l1 ++ c :: l2) = best (l1 ++ l2) \/ best (l1 ++ c :: l2) = [c] \/
  exists h1 h2, best (l1 ++ l2) = h1 ++ h2 /\ best (l1 ++ c :: l2) = h1 ++ c :: h2.
Proof.
  intros Hs; destruct l1 as [|c0 l1]; cbn [app] in *.
  - destruct l2 as [|x l2]; [right; left; cbn; by rewrite decide_True |].
    pose proof (best_le _ x Hs ltac:(set_solver)) as Hx; cbn in Hx.
    destruct (decide (priority_level x = priority_level c)) as [Heq|Hne].
    + right; right; exists [], (best (x :: l2)); split; [done |].
      unfold best at 1; rewrite filter_cons_True by done; cbn [app]; f_equal; unfold best; by rewrite Heq.
    + right; left; unfold best; rewrite filter_cons_True by done; f_equal; apply filter_none.
      intros y Hy; apply StronglySorted_inv in Hs as [Hs Hc].
      pose proof (best_le _ y Hs Hy) as Hxy; cbn in Hxy; lia.
  - unfold best; rewrite !app_comm_cons, !filter_app.
    destruct (decide (priority_level c = priority_level c0)) as [Heq|Hne].
    + right; right; eexists _, _; split; [reflexivity |]; by rewrite (filter_cons_True _ c).
    + left; by rewrite (filter_cons_False _ c).
Qed.

Lemma consumer_points_name i c c' : consumer_name c = consumer_name c' -> consumer_points i c = consumer_points i c'.
Proof. unfold consumer_points; by intros ->. Qed.

#[local] Opaque points consumer_points.

Lemma npf_join_select d c :
  npf_partition_index d < 0 -> npf_ok d ->
  let d' := npf_sort_consumers (npf_set (npf_consumers d ++ [c]) (npf_active d) d) in
  npf_select_active_consumer_id d' = npf_active d \/ npf_select_active_consumer_id d' = Some (consumer_id c).
Proof.
  intros Hp [Hs Ha] d'; rewrite Ha, !select_ring by done; subst d'; cbn [npf_sort_consumers npf_set npf_consumers npf_topic_name].
  pose proof (stable_sort_sorted npf_before npf_sort_total (npf_consumers d ++ [c])) as Hs'.
  destruct (stable_sort_snoc npf_before (npf_consumers d) c Hs) as (l1 & l2 & El & E); rewrite E in Hs' |- *; rewrite El.
  set (t := murmur3_32 _ _); destruct (best_join l1 c l2 Hs') as [->|[->|(h1 & h2 & -> & ->)]]; [by left | |].
  - destruct (ring_choice_join t [] c []) as [Hr|Hr]; cbn [app] in Hr; rewrite Hr; [|by right].
    exfalso; unfold ring_choice in Hr; rewrite fmap_cons, join_cons in Hr; cbn [fmap list_fmap] in Hr.
    change (mjoin []) with (@nil (Z * Consumer)) in Hr; rewrite app_nil_r in Hr.
    assert (first_least point_le (fun _ => true) (points c) <> None) as Hne.
    { intros Hn%first_least_none; rewrite Forall_forall in Hn; by specialize (Hn _ (first_point c)). }
    destruct (first_least point_le (fun x => t <=? x.1) (points c)); [done |].
    by destruct (first_least point_le (fun _ => true) (points c)).
  - destruct (ring_choice_join t h1 c h2) as [-> | ->]; [by left | by right].
Qed.

(** *** The invariant *)

Lemma best_fmap (f : Consumer -> Consumer) cs :
  (forall x, info (f x) = info x) -> best (f <$> cs) = f <$> best cs.
Proof.
  intros Hf; assert (forall x, priority_level (f x) = priority_level x) as Hp by (intros; unfold priority_level; by rewrite Hf).
  destruct cs as [|c0 cs]; [done |]; unfold best; rewrite fmap_cons, Hp, <- fmap_cons.
  induction (c0 :: cs) as [|x l IH]; [done |]; rewrite fmap_cons.
  destruct (decide (priority_level x = priority_level c0)).
  - rewrite !filter_cons_True by (rewrite ?Hp; done); by rewrite IH.
  - rewrite !filter_cons_False by (rewrite ?Hp; done); by rewrite IH.
Qed.

(** The selection looks at the names, priorities and ids only. *)
Lemma npf_select_fmap (f : Consumer -> Consumer) active d :
  (forall x, info (f x) = info x) ->
  npf_select_active_consumer_id (npf_set (f <$> npf_consumers d) active d) = npf_select_active_consumer_id d.
Proof.
  intros Hf; assert (forall x, consumer_id (f x) = consumer_id x) as Hid by (intros; unfold consumer_id; by rewrite Hf).
  assert (forall d, npf_select_active_consumer_id d =
    consumer_id <$> best (npf_consumers d) !! (if 0 <=? npf_partition_index d
      then Z.to_nat (npf_partition_index d mod Z.of_nat (length (best (npf_consumers d))))
      else ring_select (murmur3_32 (string_bytes (npf_topic_name d)) 0) (hash_ring (best (npf_consumers d))))) as Hsel.
  { intros [? ? [|c0 cs] ? ?]; [done | reflexivity]. }
  rewrite !Hsel; cbn [npf_set npf_consumers npf_partition_index npf_topic_name]; rewrite best_fmap by done.
  rewrite length_fmap, list_lookup_fmap.
  assert (hash_ring (f <$> best (npf_consumers d)) = hash_ring (best (npf_consumers d))) as ->.
  { unfold hash_ring, ring_points; rewrite imap_fmap; do 2 f_equal; apply imap_ext; intros i x _.
    apply consumer_points_name; unfold compose, consumer_name; by rewrite Hf. }
  destruct (_ !! _); cbn; by rewrite ?Hid.
Qed.

Lemma sorted_fmap (f : Consumer -> Consumer) cs :
  (forall x, info (f x) = info x) -> StronglySorted npf_before cs -> StronglySorted npf_before (f <$> cs).
Proof.
  intros Hf; induction 1 as [|x cs _ IH Hx]; [constructor |]; rewrite fmap_cons; constructor; [done |].
  apply Forall_fmap; eapply Forall_impl; [exact Hx |]; intros y; unfold compose, npf_before, priority_level, consumer_name.
  by rewrite !Hf.
Qed.

Lemma npf_pick_ok d :
  StronglySorted npf_before (npf_consumers d) ->
  npf_ok (npf_pick_and_schedule d).2 /\ npf_active (npf_pick_and_schedule d).2 = npf_select_active_consumer_id d /\
  npf_select_active_consumer_id (npf_pick_and_schedule d).2 = npf_select_active_consumer_id d.
Proof.
  intros Hs; unfold npf_pick_and_schedule; case_bool_decide as Heq; [by cbn; split_and!; [split| |] |].
  destruct (npf_select_active_consumer_id d) as [id|] eqn:Es; cbn [snd].
  - assert (npf_select_active_consumer_id (npf_notify id (npf_set (npf_consumers d) (Some id) d)) = Some id) as E.
    { unfold npf_notify; rewrite npf_select_fmap by done; rewrite <- Es; by destruct d. }
    split_and!; [split; [by apply sorted_fmap | by rewrite E] | done | done].
  - assert (npf_select_active_consumer_id (npf_set (npf_consumers d) None d) = None) as E by (rewrite <- Es; by destruct d).
    split_and!; [split; [done | by rewrite E] | done | done].
Qed.
End dispatch.

Lemma np_wf_flow n d : np_wf d -> np_wf (np_consumer_flow n d).
Proof. by destruct d. Qed.

Lemma npf_ok_new topic i : npf_ok (npf_new topic i).
Proof. split; [constructor | done]. Qed.

Lemma npf_add_spec d d' c :
  npf_add_consumer c d = Ok d' ->
  npf_ok d' /\ npf_active d' =
    npf_select_active_consumer_id (npf_sort_consumers (npf_set (npf_consumers d ++ [c]) (npf_active d) d)).
Proof.
  unfold npf_add_consumer; intros Ha; destruct (existsb _ _); [done |]; set (d1 := npf_sort_consumers _) in *.
  destruct (npf_pick_ok d1) as (Hok & Hact & Hsel); [apply stable_sort_sorted; [apply _ | apply npf_sort_total] |].
  destruct (npf_pick_and_schedule d1) as [[] d2]; cbn [snd] in *; [by simplify_eq |].
  destruct (npf_active d2) as [active|] eqn:Ea; simplify_eq; [|by rewrite Ea].
  assert (forall x, info (if consumer_id x =? consumer_id c then notify_active_consumer_change active x else x) = info x)
    as Hf by (intros x; by destruct (_ =? _)).
  split; [|exact Hact].
  split; [apply sorted_fmap; [done | apply Hok] |]; rewrite npf_select_fmap by done; cbn [npf_set npf_active].
  destruct Hok as [_ Hok]; congruence.
Qed.

Lemma npf_remove_ok id d : npf_ok d -> npf_ok (npf_remove_consumer id d).2.
Proof.
  intros Hd; unfold npf_remove_consumer; destruct (npf_take id (npf_consumers d)) as [[c rest]|]; [|done].
  destruct rest as [|x rest]; [by split; [constructor |] |]; apply npf_pick_ok, stable_sort_sorted; [apply _ | apply npf_sort_total].
Qed.

(** A consumer that can take an entry. *)
Definition can_take (c : Consumer) : Prop :=
  0 < available_permits c /\ head (link c) = Some Slot /\ closed (pending_acks c) = false.

Lemma np_offer_can_take `{MetadataDecoder} e c : can_take c -> (np_offer e c).1 = true.
Proof.
  intros (Hp & Hl & Hc); unfold np_offer, try_reserve_dispatch, try_use_permits; apply Z.ltb_lt in Hp; rewrite Hp; cbn.
  rewrite Hl; cbn; unfold add_pending_ack; by rewrite Hc.
Qed.

(** A consumer that is not asked keeps its state. *)
Lemma nps_try_ready `{MetadataDecoder} e ids cs id c :
  NoDup ids -> id ∈ ids -> cs !! id = Some c -> can_take c -> exists j cs', nps_try e ids cs = (Some j, cs').
Proof.
  revert cs; induction ids as [|i ids IH]; intros cs Hn Hin Hc Hr; [by apply elem_of_nil in Hin |]; cbn.
  apply NoDup_cons in Hn as [Hi Hn]; apply elem_of_cons in Hin as [->|Hin].
  - rewrite Hc; pose proof (np_offer_can_take e c Hr) as Ho; destruct (np_offer e c) as [b c']; cbn in Ho; subst b; by eexists _, _.
  - destruct (cs !! i) as [x|]; [|by eapply IH]; destruct (np_offer e x) as [[] x']; [by eexists _, _ |].
    apply IH; [done | done | | done]; rewrite lookup_insert_ne by (intros ->; done); done.
Qed.

(** ** Sending in one batch or one by one *)

Section batches.
Context `{MetadataDecoder}.

Lemma record_received_twice m n k : record_received m (record_received n k) = record_received (n + m) k.
Proof.
  unfold record_received, wrap_u64; cbn; f_equal; rewrite Zplus_mod_idemp_l; f_equal; lia.
Qed.

Lemma np_send_to_received n es c k :
  np_send_to c (record_received n k) es = ((np_send_to c k es).1, record_received n (np_send_to c k es).2).
Proof.
  revert c k; induction es as [|e es IH]; intros c k; cbn; [done |].
  by destruct (np_offer e c) as [[] c1]; rewrite <- IH.
Qed.

Lemma np_send_to_app es es' c k :
  np_send_to c k (es ++ es') = np_send_to (np_send_to c k es).1 (np_send_to c k es).2 es'.
Proof.
  revert c k; induction es as [|e es IH]; intros c k; cbn; [done |].
  by destruct (np_offer e c) as [[] c1]; rewrite <- IH.
Qed.

Lemma np_drop_all_received n es k : np_drop_all (record_received n k) es = record_received n (np_drop_all k es).
Proof. revert k; induction es as [|e es IH]; intros k; cbn; [done |]; by rewrite <- IH. Qed.

Lemma np_drop_all_app es es' k : np_drop_all k (es ++ es') = np_drop_all (np_drop_all k es) es'.
Proof. revert k; induction es as [|e es IH]; intros k; cbn; [done | by rewrite IH]. Qed.

Lemma np_send_to_info es c k : info (np_send_to c k es).1 = info c.
Proof.
  revert c k; induction es as [|e es IH]; intros c k; cbn; [done |].
  destruct (np_offer_spec e c) as [Hi _]; destruct (np_offer e c) as [[] c1]; cbn in *; by rewrite IH.
Qed.

Lemma npx_send_app es es' d : npx_send_messages (es ++ es') d = npx_send_messages es' (npx_send_messages es d).
Proof.
  unfold npx_send_messages; rewrite length_app, Nat2Z.inj_add; destruct (npx_consumer d) as [c|]; cbn.
  - rewrite !np_send_to_received, np_send_to_app; cbn; rewrite !np_send_to_received; cbn; by rewrite record_received_twice.
  - by rewrite !np_drop_all_received, np_drop_all_app, record_received_twice.
Qed.

Lemma npf_send_app es es' d : npf_send_messages (es ++ es') d = npf_send_messages es' (npf_send_messages es d).
Proof.
  unfold npf_send_messages at 1 3; rewrite length_app, Nat2Z.inj_add.
  destruct (npf_get_active_consumer d) as [c|] eqn:Ea; cbn.
  - rewrite !np_send_to_received, np_send_to_app; cbn; set (c1 := (np_send_to c (npf_counters d) es).1).
    assert (info c1 = info c) as Hi by apply np_send_to_info.
    set (cs := (fun x => if consumer_id x =? consumer_id c then c1 else x) <$> npf_consumers d).
    assert (npf_get_active_consumer (mkNpFailover (npf_topic_name d) (npf_partition_index d) cs (npf_active d)
      (record_received (Z.of_nat (length es)) (np_send_to c (npf_counters d) es).2)) = Some c1) as Ea'.
    { unfold npf_get_active_consumer in *; cbn; destruct (npf_active d) as [a|]; [|done]; subst cs.
      clearbody c1; revert Ea; clear -Hi; induction (npf_consumers d) as [|x l IH]; cbn; [done |].
      destruct (Z.eqb_spec (consumer_id x) a) as [<-|Hx].
      - intros [= ->]; rewrite Z.eqb_refl; cbn.
        replace (consumer_id c1) with (consumer_id c) by (unfold consumer_id; by rewrite Hi); by rewrite Z.eqb_refl.
      - intros Hf; pose proof (find_consumer_elem _ _ _ Hf) as [_ <-]; apply Z.eqb_neq in Hx; rewrite Hx, Hx; auto. }
    unfold npf_send_messages; rewrite Ea'; cbn.
    rewrite !np_send_to_received; cbn; rewrite record_received_twice; f_equal; subst cs.
    rewrite <- list_fmap_compose; apply list_fmap_ext; intros _ x _; cbn.
    destruct (Z.eqb_spec (consumer_id x) (consumer_id c)) as [E|E].
    + by replace (consumer_id c1) with (consumer_id c) by (unfold consumer_id; by rewrite Hi); rewrite Z.eqb_refl.
    + replace (consumer_id c1) with (consumer_id c) by (unfold consumer_id; by rewrite Hi).
      apply Z.eqb_neq in E; by rewrite E.
  - unfold npf_send_messages, npf_get_active_consumer in *; cbn; rewrite Ea; cbn.
    by rewrite !np_drop_all_received, np_drop_all_app, record_received_twice.
Qed.

(** The counter of received entries has no part in a delivery. *)
Definition nps_received (n : Z) (d : NpShared) : NpShared :=
  mkNpShared (nps_consumers d) (nps_ordered d) (nps_next_index d) (nps_total_permits d)
    (record_received n (nps_counters d)).

Lemma nps_send_one_received n e d : nps_send_one e (nps_received n d) = nps_received n (nps_send_one e d).
Proof.
  unfold nps_send_one; cbn; destruct (nps_ordered d) eqn:Eo; [by unfold nps_received; cbn; rewrite ?Eo |].
  by destruct (nps_try _ _ _) as [[] ?]; unfold nps_received; cbn; rewrite ?Eo.
Qed.

Lemma nps_fold_received n es d :
  foldl (fun d e => nps_send_one e d) (nps_received n d) es = nps_received n (foldl (fun d e => nps_send_one e d) d es).
Proof. revert d; induction es as [|e es IH]; intros d; cbn; [done | by rewrite nps_send_one_received, IH]. Qed.

Lemma nps_send_app es es' d : nps_send_messages (es ++ es') d = nps_send_messages es' (nps_send_messages es d).
Proof.
  unfold nps_send_messages; fold (nps_received (Z.of_nat (length (es ++ es'))) d).
  fold (nps_received (Z.of_nat (length es)) d); rewrite foldl_app, !nps_fold_received.
  set (d1 := foldl _ d es); fold (nps_received (Z.of_nat (length es')) (nps_received (Z.of_nat (length es)) d1)).
  rewrite !nps_fold_received, length_app, Nat2Z.inj_add; unfold nps_received; cbn; by rewrite record_received_twice.
Qed.

(** The dispatchers but the key-shared one, whose test of the total permits is made
    once for a batch. *)
Definition batchable (d : NonPersistentDispatcher) : Prop :=
  match d with NStickyKey _ => False | _ => True end.

Lemma np_send_app es es' d :
  batchable d -> np_send_messages (es ++ es') d = np_send_messages es' (np_send_messages es d).
Proof.
  destruct d as [d|d|d|d]; cbn; [intros _; f_equal .. | done]; [apply npx_send_app | apply npf_send_app | apply nps_send_app].
Qed.
End batches.

(** ** Properties *)

(** What a closed gate counts as dropped: the entries, not the messages in them. *)
Definition np_dropped_by `{MetadataDecoder} (d : NonPersistentDispatcher) (es : list NonPersistentEntry)
    (outs : list (option Z)) : Z :=
  if np_gate_closed d then Z.of_nat (length es) else total_batch false es outs.

Lemma assigned_none id es : assigned id es (replicate (length es) None) = [].
Proof. induction es as [|e es IH]; [done |]; cbn [length replicate assigned]; by rewrite bool_decide_false. Qed.

Lemma total_batch_none `{MetadataDecoder} es : total_batch true es (replicate (length es) None) = 0.
Proof. induction es as [|e es IH]; [done |]; cbn [length replicate total_batch]; by rewrite bool_decide_false by auto. Qed.

(** C15: Every entry of a non-persistent publication is delivered once or dropped.
    For each of the four dispatchers there is, for every entry, the consumer that got
    it or none: a consumer's deliveries grow by exactly the entries that went to it,
    in the order of publication; the counter of messages received grows by the number
    of entries, and the two others by the messages in the batches delivered and
    dropped.  The exception is the key-shared dispatcher while its total of permits is
    0: it drops every entry and counts each as one. *)
Theorem np_send_accounts `{MetadataDecoder} (d : NonPersistentDispatcher) (es : list NonPersistentEntry) :
  np_wf d ->
  let d' := np_send_messages es d in
  np_wf d' /\ exists outs, length outs = length es /\
    (np_gate_closed d = true -> outs = replicate (length es) None) /\
    (forall id, delivered <$> np_consumer_map d' !! id =
      (fun l => l ++ assigned id es outs) <$> (delivered <$> np_consumer_map d !! id)) /\
    (forall id, Some id ∈ outs -> is_Some (np_consumer_map d !! id)) /\
    np_received (np_counters d') = wrap_u64 (np_received (np_counters d) + Z.of_nat (length es)) /\
    wrap_u64 (np_dispatched (np_counters d')) = wrap_u64 (np_dispatched (np_counters d) + total_batch true es outs) /\
    wrap_u64 (np_dropped (np_counters d')) = wrap_u64 (np_dropped (np_counters d) + np_dropped_by d es outs).
Proof.
  intros Hw d'; unfold np_dropped_by; destruct (np_gate_closed d) eqn:Hg.
  - destruct d as [d|d|d|d]; [done .. |]; cbn in Hg; unfold d'; cbn; unfold npk_send_messages; rewrite Hg.
    split; [done |]; exists (replicate (length es) None); rewrite total_batch_none, Z.add_0_r.
    split_and!; [by rewrite length_replicate | done | | | done | done | apply wrap_u64_id, wrap_u64_ok].
    + intros id; rewrite assigned_none; cbn; destruct (npk_consumers d !! id); cbn; [by rewrite app_nil_r | done].
    + intros id [? _]%elem_of_replicate; done.
  - destruct (np_send_run d es Hw Hg) as (Hw' & outs & Hl & Hlog & Hin & Hk).
    split; [done |]; exists outs; unfold d'; rewrite Hk.
    destruct (count_all_spec es outs (record_received (Z.of_nat (length es)) (np_counters d))) as (-> & -> & ->).
    split_and!; [done | done | exact Hlog | done | done | done | done].
Qed.

(** Once an entry with at least as many messages as the total of permits is
    delivered, a non-persistent key-shared subscription drops everything that is
    published, whatever permits its consumers have, until one of them asks for more;
    and it counts a dropped batch as one message. *)
Theorem np_key_gate_drops_deliverable `{MetadataDecoder} (d : NpSticky) (e : NonPersistentEntry) (c : Consumer)
    (es : list NonPersistentEntry) :
  npk_select_consumer e d = Some c -> can_take c -> 0 < npk_total_permits d <= np_batch e ->
  let d1 := npk_send_messages [e] d in
  let d2 := npk_send_messages es d1 in
  (forall id, id <> consumer_id c -> npk_consumers d1 !! id = npk_consumers d !! id) /\
  npk_consumers d2 = npk_consumers d1 /\
  np_dropped (npk_counters d2) = wrap_u64 (np_dropped (npk_counters d1) + Z.of_nat (length es)).
Proof.
  intros Hs Hc Ht d1 d2; assert (npk_total_permits d1 = 0 /\
    forall id, id <> consumer_id c -> npk_consumers d1 !! id = npk_consumers d !! id) as [H0 Hids].
  { unfold d1, npk_send_messages; destruct (Z.eqb_spec (npk_total_permits d) 0); [lia |].
    cbn [foldl]; set (d0 := npk_set _ _ _ _); assert (npk_select_consumer e d0 = Some c) as Hs0 by exact Hs.
    unfold npk_send_one; rewrite Hs0; pose proof (np_offer_can_take e c Hc) as Ho; pose proof (np_offer_spec e c) as [Hi _].
    destruct (np_offer e c) as [b c']; cbn in Ho, Hi; subst b; cbn; split; [unfold np_sub_permits, sat_sub; lia |].
    intros id Hne; apply lookup_insert_ne; unfold consumer_id in *; rewrite Hi; congruence. }
  split; [done |]; unfold d2; clearbody d1; unfold npk_send_messages; rewrite H0; done.
Qed.

(** C36: A shared non-persistent subscription drops an entry only when no consumer can
    take it: with a consumer that has a permit and a free slot, some consumer gets
    the entry. *)
Theorem np_shared_delivers `{MetadataDecoder} (d : NpShared) (e : NonPersistentEntry) (id : Z) (c : Consumer) :
  np_wf (NMultipleConsumers d) -> NoDup (nps_ordered d) -> nps_consumers d !! id = Some c -> can_take c ->
  exists j, is_Some (nps_consumers d !! j) /\
    delivered <$> nps_consumers (nps_send_one e d) !! j =
      (fun l => l ++ [np_pending e]) <$> (delivered <$> nps_consumers d !! j) /\
    np_dropped (nps_counters (nps_send_one e d)) = np_dropped (nps_counters d).
Proof.
  intros [Hk Ho] Hn Hc Hr; unfold nps_send_one; assert (id ∈ nps_ordered d) as Hid by (apply Ho; by exists c).
  destruct (nps_ordered d) as [|i0 rest] eqn:Eo; [by apply elem_of_nil in Hid |]; rewrite <- Eo in *.
  set (start := Z.to_nat _); set (ids := drop start _ ++ take start _).
  assert (ids ≡ₚ nps_ordered d) as Hp by (unfold ids; rewrite Permutation_app_comm, take_drop; done).
  destruct (nps_try_ready e ids (nps_consumers d) id c) as (j & cs' & Et); [by rewrite Hp | by rewrite Hp | done | done |].
  pose proof (nps_try_spec e ids (nps_consumers d) (nps_counters d) Hk) as Hs; rewrite Et in Hs |- *.
  destruct Hs as (_ & [Hm _] & Hin); exists j; split_and!; [by apply Hin | | done].
  specialize (Hm j); unfold np_log in Hm; cbn in Hm |- *; by rewrite bool_decide_true in Hm.
Qed.

(** The active consumer of a non-persistent failover subscription on a topic that
    is not partitioned is chosen on a ring of hashes.  When a consumer joins, the
    active consumer stays or the new one becomes active: a join never moves the topic
    between the consumers that were there. *)
Theorem np_failover_join_stable (d d' : NpFailover) (c : Consumer) :
  npf_partition_index d < 0 -> npf_ok d -> npf_add_consumer c d = Ok d' ->
  npf_ok d' /\ (npf_active d' = npf_active d \/ npf_active d' = Some (consumer_id c)).
Proof.
  intros Hp Hd Ha; destruct (npf_add_spec _ _ _ Ha) as [Hok ->]; split; [done | by apply npf_join_select].
Qed.

(** *** A concrete subscription *)

(** The first byte is the size of the batch, the rest the ordering key. *)
#[local] Instance batch_metadata : MetadataDecoder := fun meta =>
  match meta with
  | n :: key => Some (mkMetadata "" 0 0 None (Some key) (Some n))
  | [] => None
  end.

Definition example_np_consumer (id : Z) (name : string) : Consumer :=
  set_permits 5 (consumer_new (Consumer.mkInfo id name "conn" 0 None) [Slot; Slot; Slot]).

Definition example_np_entry (batch key : Z) : NonPersistentEntry := np_create 0 0 0 [batch; key] [0].

Definition example_np (t : SubscriptionType) : NonPersistentDispatcher :=
  np_consumer_flow 10 (np_add_consumer (example_np_consumer 2 "b")
    (np_add_consumer (example_np_consumer 1 "a") (np_new t "topic" (-1) None)).2).2.

Lemma example_np_wf t : np_wf (example_np t).
Proof. apply np_wf_flow, np_wf_add, np_wf_add, np_wf_new. Qed.

Definition example_key_shared : NpSticky :=
  match example_np KeyShared with NStickyKey d => d | _ => npk_new None end.
Definition example_shared : NpShared :=
  match example_np Shared with NMultipleConsumers d => d | _ => nps_new end.
Definition example_failover : NpFailover :=
  match example_np Failover with NFailover d => d | _ => npf_new "topic" (-1) end.

Lemma np_send_accounts_witness :
  let d := example_np Shared in
  let es := [example_np_entry 2 0; example_np_entry 3 0; example_np_entry 7 0] in
  np_wf (np_send_messages es d) /\ exists outs,
    delivered <$> np_consumer_map (np_send_messages es d) !! 1 = Some (assigned 1 es outs).
Proof.
  destruct (np_send_accounts (example_np Shared) [example_np_entry 2 0; example_np_entry 3 0; example_np_entry 7 0])
    as (Hw & outs & _ & _ & Hl & _); [apply example_np_wf |].
  split; [exact Hw | exists outs; exact (Hl 1)].
Defined.

Lemma np_key_gate_drops_deliverable_witness :
  let d1 := npk_send_messages [example_np_entry 10 6] example_key_shared in
  let d2 := npk_send_messages [example_np_entry 2 1] d1 in
  available_permits <$> npk_consumers d1 !! 2 = Some 5 /\ npk_consumers d2 = npk_consumers d1.
Proof.
  destruct (np_key_gate_drops_deliverable example_key_shared (example_np_entry 10 6) (example_np_consumer 1 "a")
    [example_np_entry 2 1]) as (Hk & Hc & _).
  - vm_compute; reflexivity.
  - split_and!; reflexivity.
  - split; vm_compute; congruence.
  - cbv zeta; split; [|exact Hc]; rewrite (Hk 2) by discriminate; vm_compute; reflexivity.
Defined.

Lemma np_shared_delivers_witness :
  exists j, is_Some (nps_consumers example_shared !! j) /\
    np_dropped (nps_counters (nps_send_one (example_np_entry 2 0) example_shared)) = 0.
Proof.
  destruct (np_shared_delivers example_shared (example_np_entry 2 0) 2 (example_np_consumer 2 "b")) as (j & Hj & _ & Hd).
  - exact (example_np_wf Shared).
  - apply (bool_decide_unpack (NoDup (nps_ordered example_shared))); vm_compute; exact I.
  - vm_compute; reflexivity.
  - split_and!; reflexivity.
  - exists j; split; [exact Hj | rewrite Hd; vm_compute; reflexivity].
Defined.

Definition example_joined : NpFailover :=
  match npf_add_consumer (example_np_consumer 3 "c") example_failover with Ok d => d | Err _ => example_failover end.

Lemma np_failover_join_stable_witness :
  npf_add_consumer (example_np_consumer 3 "c") example_failover = Ok example_joined /\
    (npf_active example_joined = npf_active example_failover \/ npf_active example_joined = Some 3).
Proof.
  assert (npf_add_consumer (example_np_consumer 3 "c") example_failover = Ok example_joined) as Ha
    by (vm_compute; reflexivity).
  split; [exact Ha |].
  refine (proj2 (np_failover_join_stable example_failover example_joined (example_np_consumer 3 "c") _ _ Ha)).
  - vm_compute; reflexivity.
  - eapply (npf_add_spec _ _ (example_np_consumer 2 "b")); unfold example_failover, example_np.
    instantiate (1 := match (np_add_consumer (example_np_consumer 1 "a") (np_new Failover "topic" (-1) None)).2 with
                      | NFailover d => d | _ => npf_new "topic" (-1) end).
    vm_compute; reflexivity.
Defined.
