(* ===== verification/PublishRate.v ===== *)
(** * Publish rates

    [TopicPublishRateLimiter] of [service/topic/topic.rs]: a fixed window of one
    second with a count of messages and of bytes.  Times are in nanoseconds; an
    attempt reads the clock, and once more when it begins a new window. *)

From S2P Require Import Prelude.

Definition NANOS_PER_SEC : Z := 1000000000.

Record TopicPublishRate := mkRate {
  messages_per_sec : Z;
  bytes_per_sec : Z;
}.

Definition no_rate : TopicPublishRate := mkRate 0 0.

Record TopicPublishRateLimiter := mkLimiter {
  limits : TopicPublishRate;
  window_started_at : Z;
  messages_in_window : Z;
  bytes_in_window : Z;
}.

Definition limiter_new (now : Z) : TopicPublishRateLimiter := mkLimiter no_rate now 0 0.

Definition set_limits (now : Z) (rate : TopicPublishRate) (l : TopicPublishRateLimiter) : TopicPublishRateLimiter :=
  mkLimiter rate now 0 0.

Definition u64_saturating_add (a b : Z) : Z := Z.min U64_MAX (a + b).

Definition within (limit n : Z) : bool := (limit =? 0) || (n <=? limit).

(** The window at this time: when a second has passed since it began, a new one, which
    begins at the second reading [restart] of the clock. *)
Definition roll_window (now restart : Z) (l : TopicPublishRateLimiter) : TopicPublishRateLimiter :=
  if NANOS_PER_SEC <=? now - window_started_at l then mkLimiter (limits l) restart 0 0 else l.

Definition allow_publish (now restart message_count bytes : Z) (l : TopicPublishRateLimiter)
  : bool * TopicPublishRateLimiter :=
  if (messages_per_sec (limits l) =? 0) && (bytes_per_sec (limits l) =? 0) then (true, l)
  else
    let l := roll_window now restart l in
    let next_messages := u64_saturating_add (messages_in_window l) message_count in
    let next_bytes := u64_saturating_add (bytes_in_window l) bytes in
    if within (messages_per_sec (limits l)) next_messages && within (bytes_per_sec (limits l)) next_bytes
    then (true, mkLimiter (limits l) (window_started_at l) next_messages next_bytes)
    else (false, l).

(** ** Attempts to publish *)

(** The two readings of the clock, and what is published. *)
Record attempt := mkAttempt { at_time : Z; at_restart : Z; at_messages : Z; at_bytes : Z }.

Definition attempt_publish (x : attempt) : TopicPublishRateLimiter -> bool * TopicPublishRateLimiter :=
  allow_publish (at_time x) (at_restart x) (at_messages x) (at_bytes x).

(** The accepted ones of a sequence of attempts, and the limiter afterwards. *)
Fixpoint accepted (l : TopicPublishRateLimiter) (xs : list attempt) : list attempt :=
  match xs with
  | [] => []
  | x :: xs => let '(ok, l) := attempt_publish x l in if ok then x :: accepted l xs else accepted l xs
  end.

Definition limiter_after (l : TopicPublishRateLimiter) (xs : list attempt) : TopicPublishRateLimiter :=
  foldl (fun l x => (attempt_publish x l).2) l xs.

Definition total (w : attempt -> Z) (xs : list attempt) : Z := foldr (fun x n => w x + n) 0 xs.

(** What was accepted in a span of time. *)
Definition accepted_in (w : attempt -> Z) (from till : Z) (xs : list attempt) : Z :=
  total w (filter (fun x => from <= at_time x < till) xs).

(** The attempts come in the order of time. *)
Fixpoint in_order (now : Z) (xs : list attempt) : Prop :=
  match xs with
  | [] => True
  | x :: xs =>
      now <= at_time x /\ at_time x <= at_restart x /\ 0 <= at_messages x /\ 0 <= at_bytes x /\
      in_order (at_restart x) xs
  end.

Lemma accepted_in_snoc w from till xs x :
  accepted_in w from till (xs ++ [x]) =
  accepted_in w from till xs + if bool_decide (from <= at_time x < till) then w x else 0.
Proof.
  unfold accepted_in; rewrite filter_app, filter_cons, filter_nil.
  assert (forall a b, total w (a ++ b) = total w a + total w b) as Happ.
  { induction a as [|y a IH]; intros b; cbn; [done | unfold total in *; rewrite IH; lia]. }
  rewrite Happ; case_bool_decide; cbn; [rewrite decide_True by done | rewrite decide_False by done]; cbn; lia.
Qed.

Lemma accepted_in_none w from till xs :
  (forall x, x ∈ xs -> ~ (from <= at_time x < till)) -> accepted_in w from till xs = 0.
Proof.
  intros Hx; unfold accepted_in; replace (filter _ xs) with (@nil attempt); [done |].
  symmetry; induction xs as [|y xs IH]; [done |]; rewrite filter_cons, decide_False by (apply Hx; by left).
  apply IH; intros z Hz; apply Hx; by right.
Qed.

Lemma accepted_in_split w a b c xs :
  a <= b -> b <= c -> accepted_in w a c xs = accepted_in w a b xs + accepted_in w b c xs.
Proof.
  intros Hab Hbc; unfold accepted_in; induction xs as [|x xs IH]; [done |]; rewrite !filter_cons.
  destruct (decide (a <= at_time x < c)), (decide (a <= at_time x < b)), (decide (b <= at_time x < c));
    cbn; unfold total in *; lia.
Qed.

Lemma accepted_in_le w a a' b b' xs :
  (forall x, x ∈ xs -> 0 <= w x) -> a' <= a -> b <= b' -> accepted_in w a b xs <= accepted_in w a' b' xs.
Proof.
  intros Hw Ha Hb; unfold accepted_in; induction xs as [|x xs IH]; [done |]; rewrite !filter_cons.
  specialize (IH ltac:(intros y Hy; apply Hw; by right)); pose proof (Hw x ltac:(by left)).
  destruct (decide (a <= at_time x < b)), (decide (a' <= at_time x < b')); cbn; unfold total in *; lia.
Qed.

Lemma accepted_in_beyond w a b b' xs :
  (forall x, x ∈ xs -> at_time x < b) -> b <= b' -> accepted_in w a b' xs = accepted_in w a b xs.
Proof.
  intros Hx Hb; unfold accepted_in; f_equal; apply list_filter_ext; intros x Hin; specialize (Hx x Hin); lia.
Qed.

Lemma accepted_in_upto w a b c xs :
  (forall x, x ∈ xs -> at_time x < b /\ 0 <= w x) -> accepted_in w a c xs <= accepted_in w a b xs.
Proof.
  intros Hx; destruct (decide (c <= b)).
  - apply accepted_in_le; [intros x Hin; by apply Hx | lia | lia].
  - rewrite (accepted_in_beyond w a b) by (try lia; intros x Hin; by apply Hx); lia.
Qed.

(** ** One window after another

    [w] is the weight that is limited, [count] the counter of the window.  The log
    is what was accepted so far.  The first attempt of the window was at [start], the
    limiter has it begin at [opened]. *)
Section window.
Context (w : attempt -> Z) (limit : Z).

Record window_ok (start opened now count : Z) (log : list attempt) : Prop := {
  wo_start : start <= opened <= now;
  wo_past : forall x, x ∈ log -> at_time x < now + 1 /\ 0 <= w x;
  wo_fresh : forall x, x ∈ log -> at_time x < opened + NANOS_PER_SEC;
  (** the counter of the current window *)
  wo_count : accepted_in w start (now + 1) log = count;
  wo_limit : 0 <= count <= limit;
  (** the second before the current window *)
  wo_before : accepted_in w (start - NANOS_PER_SEC + 1) start log <= limit;
  wo_any : forall t, accepted_in w t (t + NANOS_PER_SEC) log <= 2 * limit;
}.

Lemma window_wait start opened now now' count log :
  window_ok start opened now count log -> now <= now' -> window_ok start opened now' count log.
Proof.
  intros [H1 H2 Hf H3 H4 H5 H6] Hn; split; [lia | | done | | done | done | done].
  - intros x Hx; destruct (H2 x Hx); lia.
  - rewrite <- H3; apply accepted_in_beyond; [|lia]; intros x Hx; destruct (H2 x Hx); lia.
Qed.

Lemma window_roll start opened now restart count log :
  window_ok start opened now count log -> NANOS_PER_SEC <= now - opened -> now <= restart ->
  window_ok now restart restart 0 log.
Proof.
  intros [H1 H2 Hx H3 H4 H5 H6] Hn Hr; split; [lia | | | | lia | | done].
  - intros x Hin; destruct (H2 x Hin); lia.
  - intros x Hin; destruct (H2 x Hin); unfold NANOS_PER_SEC; lia.
  - apply accepted_in_none; intros x Hin; specialize (Hx x Hin); lia.
  - transitivity count; [|lia]; rewrite <- H3; apply accepted_in_le; [intros x Hin; by apply H2 | lia | lia].
Qed.

Lemma window_add start opened now count log x :
  window_ok start opened now count log -> start <= at_time x <= now -> at_time x < opened + NANOS_PER_SEC ->
  0 <= w x -> count + w x <= limit -> window_ok start opened now (count + w x) (log ++ [x]).
Proof.
  intros [H1 H2 Hf H3 H4 H5 H6] Hs Ht Hw Hl.
  assert (accepted_in w start (now + 1) (log ++ [x]) = count + w x) as Hc.
  { rewrite accepted_in_snoc, H3, bool_decide_true by lia; done. }
  assert (accepted_in w (start - NANOS_PER_SEC + 1) start (log ++ [x]) <= limit) as Hb.
  { rewrite accepted_in_snoc, bool_decide_false by lia; lia. }
  assert (forall y, y ∈ log ++ [x] -> at_time y < now + 1 /\ 0 <= w y) as Hp.
  { intros y [Hy | ->%list_elem_of_singleton]%elem_of_app; [by apply H2 | lia]. }
  split; try done; [|lia |].
  { intros y [Hy | ->%list_elem_of_singleton]%elem_of_app; [by apply Hf | done]. }
  intros t; destruct (decide (t <= at_time x < t + NANOS_PER_SEC)) as [Hin|Hout].
  - assert (forall c, accepted_in w start c (log ++ [x]) <= count + w x) as Hup.
    { intros c; rewrite <- Hc; by apply accepted_in_upto. }
    destruct (decide (start <= t)).
    + transitivity (accepted_in w start (t + NANOS_PER_SEC) (log ++ [x])); [|specialize (Hup (t + NANOS_PER_SEC)); lia].
      apply accepted_in_le; [intros y Hy; by apply Hp | lia | lia].
    + rewrite (accepted_in_split w t start) by lia.
      assert (accepted_in w t start (log ++ [x]) <= limit).
      { etransitivity; [|exact Hb]; apply accepted_in_le; [intros y Hy; by apply Hp | lia | lia]. }
      specialize (Hup (t + NANOS_PER_SEC)); lia.
  - rewrite accepted_in_snoc, bool_decide_false by lia; specialize (H6 t); lia.
Qed.
End window.

(** The two weights, their limits and their counters. *)
Inductive measure := Messages | Bytes.

Definition weight (k : measure) : attempt -> Z := match k with Messages => at_messages | Bytes => at_bytes end.
Definition limit_of (k : measure) (r : TopicPublishRate) : Z :=
  match k with Messages => messages_per_sec r | Bytes => bytes_per_sec r end.
Definition counted (k : measure) (l : TopicPublishRateLimiter) : Z :=
  match k with Messages => messages_in_window l | Bytes => bytes_in_window l end.

Definition limiter_ok (k : measure) (now : Z) (l : TopicPublishRateLimiter) (log : list attempt) : Prop :=
  0 < limit_of k (limits l) < U64_MAX /\
  exists start, window_ok (weight k) (limit_of k (limits l)) start (window_started_at l) now (counted k l) log.

Lemma within_add limit a b : 0 < limit < U64_MAX -> within limit (u64_saturating_add a b) = true ->
  u64_saturating_add a b = a + b /\ a + b <= limit.
Proof. unfold within, u64_saturating_add; intros Hl [H|H]%orb_prop; [lia |]; apply Z.leb_le in H; lia. Qed.

(** The window in which an attempt is judged. *)
Lemma roll_window_ok k now l log x :
  limiter_ok k now l log -> now <= at_time x -> at_time x <= at_restart x ->
  let r := roll_window (at_time x) (at_restart x) l in
  limits r = limits l /\ exists start, start <= at_time x < window_started_at r + NANOS_PER_SEC /\
    window_ok (weight k) (limit_of k (limits l)) start (window_started_at r) (at_restart x) (counted k r) log.
Proof.
  intros [Hl [start Hw]] Hn Hx; apply window_wait with (now' := at_time x) in Hw; [|done].
  unfold roll_window; case_bool; cbn; (split; [done |]).
  - exists (at_time x); split; [unfold NANOS_PER_SEC; lia |].
    replace (counted k (mkLimiter (limits l) (at_restart x) 0 0)) with 0 by (by destruct k).
    eapply window_roll; [exact Hw | lia | done].
  - exists start; pose proof (wo_start _ _ _ _ _ _ _ Hw); split; [lia |].
    eapply window_wait; [exact Hw | done].
Qed.

Lemma allow_publish_ok k now l log x :
  limiter_ok k now l log -> now <= at_time x -> at_time x <= at_restart x -> 0 <= at_messages x -> 0 <= at_bytes x ->
  let '(ok, l') := attempt_publish x l in
  limits l' = limits l /\ limiter_ok k (at_restart x) l' (if ok : bool then log ++ [x] else log).
Proof.
  intros Hok Hn Hx Hm Hb; destruct (roll_window_ok k now l log x Hok Hn Hx) as (Er & start & Ht & Hr).
  destruct Hok as [Hl _]; unfold attempt_publish, allow_publish.
  destruct ((_ =? 0) && (_ =? 0)) eqn:E0; [destruct k; cbn in Hl; lia |].
  set (r := roll_window _ _ l) in *; rewrite Er.
  destruct (within _ _ && within _ _) eqn:E; [|split; [exact Er | unfold limiter_ok; rewrite Er; eauto]].
  cbn [limits]; split; [done |]; split; [done |]; exists start; cbn [limits window_started_at].
  apply andb_prop in E as [Em Eb].
  assert (counted k (mkLimiter (limits l) (window_started_at r) (u64_saturating_add (messages_in_window r) (at_messages x))
    (u64_saturating_add (bytes_in_window r) (at_bytes x))) = counted k r + weight k x /\
    counted k r + weight k x <= limit_of k (limits l)) as [-> Hle].
  { destruct k; cbn in Hl |- *; [apply within_add in Em | apply within_add in Eb]; tauto. }
  apply window_add; [done | lia | lia | by destruct k | done].
Qed.

Lemma accepted_bounded k now l log xs :
  limiter_ok k now l log -> in_order now xs ->
  let l' := limiter_after l xs in
  limits l' = limits l /\ exists now', limiter_ok k now' l' (log ++ accepted l xs).
Proof.
  revert now l log; induction xs as [|x xs IH]; intros now l log Hl Ho; cbn [accepted limiter_after foldl].
  { split; [done |]; exists now; by rewrite app_nil_r. }
  destruct Ho as (Hn & Hx & Hm & Hb & Ho); pose proof (allow_publish_ok k now l log x Hl Hn Hx Hm Hb) as Hp.
  destruct (attempt_publish x l) as [ok l1], Hp as [El Hp]; cbn [snd].
  destruct (IH _ _ _ Hp Ho) as (E & now' & Hl'); fold (limiter_after l1 xs) in *; split; [congruence |]; exists now'.
  destruct ok; [by rewrite <- app_assoc in Hl' | done].
Qed.

Lemma set_limits_ok k now rate l :
  0 < limit_of k rate < U64_MAX -> limiter_ok k now (set_limits now rate l) [].
Proof.
  intros Hl; split; [done |]; cbn; assert (counted k (set_limits now rate l) = 0) as E by (by destruct k).
  cbn in E; rewrite E; exists now; split; try done; try (intros x Hx; by apply elem_of_nil in Hx); try lia.
  - unfold accepted_in; cbn; lia.
  - intros t; unfold accepted_in; cbn; lia.
Qed.

(** C33: The publish rate of a topic bounds the load over every second, not only over
    the limiter's own windows: whatever publishers attempt after the limits are set,
    the messages (and the bytes) accepted in any span of one second are at most twice
    the limit; and at any time, those accepted since the limiter's current window began
    are at most the limit. *)
Theorem publish_rate_bound (k : measure) (rate : TopicPublishRate) (l : TopicPublishRateLimiter) (now t : Z)
    (xs : list attempt) :
  0 < limit_of k rate < U64_MAX -> in_order now xs ->
  let log := accepted (set_limits now rate l) xs in
  let window := window_started_at (limiter_after (set_limits now rate l) xs) in
  accepted_in (weight k) t (t + NANOS_PER_SEC) log <= 2 * limit_of k rate /\
  accepted_in (weight k) window (window + NANOS_PER_SEC) log <= limit_of k rate.
Proof.
  intros Hl Ho log window; destruct (accepted_bounded k now (set_limits now rate l) [] xs) as (E & n & _ & start & Hw);
    [by apply set_limits_ok | done |].
  rewrite E in Hw; split; [apply (wo_any _ _ _ _ _ _ _ Hw) |].
  destruct Hw as [Hs Hp _ Hc Hlim _ _]; cbn [app] in Hp, Hc; fold log in Hp, Hc; fold window in Hs.
  transitivity (accepted_in (weight k) start (n + 1) log); [|cbn in Hlim; lia].
  etransitivity; [by apply accepted_in_upto |]; apply accepted_in_le; [intros x Hx; by apply Hp | lia | lia].
Qed.

Lemma publish_rate_bound_witness :
  let xs := (fun n => mkAttempt (n * 300000000) (n * 300000000 + 5) 1 10) <$> [1; 2; 3; 4; 5; 6; 7] in
  let l := set_limits 0 (mkRate 2 0) (limiter_new 0) in
  at_time <$> accepted l xs = [300000000; 600000000; 1200000000; 1500000000] /\
  window_started_at (limiter_after l xs) = 1200000005 /\
  accepted_in at_messages 600000000 1600000000 (accepted l xs) <= 4 /\
  accepted_in at_messages 1200000005 2200000005 (accepted l xs) <= 2.
Proof.
  split; [vm_compute; reflexivity |]; split; [vm_compute; reflexivity |].
  apply (publish_rate_bound Messages (mkRate 2 0) (limiter_new 0) 0 600000000); [vm_compute; split; reflexivity |].
  cbn; lia.
Defined.
