(* ===== verification/Effects.v ===== *)
(** * Effects

    Code that works on a state and can fail: [async fn] bodies with [&mut self] and
    [?].  A computation takes the state and returns a result and the new state;
    [None] is a loop that ran out of fuel.  The state survives an error, as in the
    code. *)

From S2P Require Import Prelude.

Definition M (W E A : Type) : Type := W -> option (result E A * W).

Section monad.
Context {W E : Type}.

#[global] Instance M_ret : MRet (M W E) := fun A a w => Some (Ok a, w).
#[global] Instance M_bind : MBind (M W E) := fun A B f m w =>
  match m w with
  | Some (Ok a, w) => f a w
  | Some (Err e, w) => Some (Err e, w)
  | None => None
  end.

Definition ret {A} (a : A) : M W E A := mret a.
Definition skip : M W E unit := ret tt.
Definition throw {A} (e : E) : M W E A := fun w => Some (Err e, w).
Definition gets {A} (f : W -> A) : M W E A := fun w => Some (Ok (f w), w).
Definition modify (f : W -> W) : M W E unit := fun w => Some (Ok tt, f w).

(** [option.ok_or(e)?] *)
Definition unwrap_or_throw {A} (e : E) (o : option A) : M W E A :=
  match o with Some a => mret a | None => throw e end.

Definition guard (b : bool) (e : E) : M W E unit := if b then mret tt else throw e.

(** The body of an [if] without an [else]. *)
Definition when (b : bool) (m : M W E unit) : M W E unit := if b then m else mret tt.

(** An [Err] that is only logged. *)
Definition ignore (m : M W E unit) : M W E unit := fun w =>
  match m w with Some (_, w) => Some (Ok tt, w) | None => None end.

(** [m], then [last] whether [m] failed or not, with the result of [m]. *)
Definition finally (m last : M W E unit) : M W E unit := fun w =>
  match m w with
  | Some (r, w) => match last w with Some (_, w) => Some (r, w) | None => None end
  | None => None
  end.

(** [m.map_err(|e| { last; e })] *)
Definition on_error (m last : M W E unit) : M W E unit := fun w =>
  match m w with
  | Some (Err e, w) => match last w with Some (_, w) => Some (Err e, w) | None => None end
  | r => r
  end.

(** [for x in xs { .. }] *)
Fixpoint for_each {A} (xs : list A) (f : A -> M W E unit) : M W E unit :=
  match xs with
  | [] => mret tt
  | x :: xs => f x ≫= fun _ => for_each xs f
  end.
End monad.

(** What a computation does on the states it ends in. *)
Lemma bind_inv {W E A B} (m : M W E A) (f : A -> M W E B) w r :
  (m ≫= f) w = Some r ->
  (exists a w1, m w = Some (Ok a, w1) /\ f a w1 = Some r) \/
  (exists e w1, m w = Some (Err e, w1) /\ r = (Err e, w1)).
Proof.
  unfold mbind, M_bind; destruct (m w) as [[[a|e] w1]|]; [| |done]; intros Hr; [left | right].
  - by exists a, w1.
  - injection Hr as <-; by exists e, w1.
Qed.

(** A relation between the states before and after that holds whatever the result. *)
Definition keeps {W E A} (R : W -> W -> Prop) (m : M W E A) : Prop :=
  forall w r w', m w = Some (r, w') -> R w w'.

Section keeps.
Context {W E : Type} (R : W -> W -> Prop) `{!PreOrder R}.

Lemma keeps_ret {A} (a : A) : keeps R (mret (M := M W E) a).
Proof. intros w r w' [= _ <-]; done. Qed.

Lemma keeps_return {A} (a : A) : keeps R (ret (E := E) a).
Proof. apply keeps_ret. Qed.

Lemma keeps_skip : keeps R (skip (E := E)).
Proof. apply keeps_ret. Qed.

Lemma keeps_throw {A} (e : E) : keeps R (throw (A := A) e).
Proof. intros w r w' [= _ <-]; done. Qed.

Lemma keeps_gets {A} (f : W -> A) : keeps R (gets (E := E) f).
Proof. intros w r w' [= _ <-]; done. Qed.

Lemma keeps_bind {A B} (m : M W E A) (f : A -> M W E B) :
  keeps R m -> (forall a, keeps R (f a)) -> keeps R (m ≫= f).
Proof.
  intros Hm Hf w r w' [(a & w1 & E1 & E2)|(e & w1 & E1 & [= -> ->])]%bind_inv; [|by eapply Hm].
  etransitivity; [by eapply Hm | by eapply Hf].
Qed.

Lemma keeps_unwrap {A} (e : E) (o : option A) : keeps R (unwrap_or_throw e o).
Proof. destruct o; [apply keeps_ret | apply keeps_throw]. Qed.

Lemma keeps_guard b (e : E) : keeps R (guard b e).
Proof. destruct b; [apply keeps_ret | apply keeps_throw]. Qed.

Lemma keeps_when b (m : M W E unit) : keeps R m -> keeps R (when b m).
Proof. destruct b; [done | intros _; apply keeps_ret]. Qed.

Lemma keeps_ignore (m : M W E unit) : keeps R m -> keeps R (ignore m).
Proof. intros Hm w r w'; unfold ignore; destruct (m w) as [[r1 w1]|] eqn:E1; [|done]; intros [= _ <-]; by eapply Hm. Qed.

Lemma keeps_finally (m last : M W E unit) : keeps R m -> keeps R last -> keeps R (finally m last).
Proof.
  intros Hm Hl w r w'; unfold finally; destruct (m w) as [[r1 w1]|] eqn:E1; [|done].
  destruct (last w1) as [[r2 w2]|] eqn:E2; [|done]; intros [= _ <-]; etransitivity; [by eapply Hm | by eapply Hl].
Qed.

Lemma keeps_on_error (m last : M W E unit) : keeps R m -> keeps R last -> keeps R (on_error m last).
Proof.
  intros Hm Hl w r w'; unfold on_error; destruct (m w) as [[[a|e] w1]|] eqn:E1; [| |done].
  - intros [= _ <-]; by eapply Hm.
  - destruct (last w1) as [[r2 w2]|] eqn:E2; [|done]; intros [= _ <-]; etransitivity; [by eapply Hm | by eapply Hl].
Qed.

Lemma keeps_for_each {A} (xs : list A) (f : A -> M W E unit) :
  (forall x, x ∈ xs -> keeps R (f x)) -> keeps R (for_each xs f).
Proof.
  induction xs as [|x xs IH]; intros Hf; [apply keeps_ret |].
  apply keeps_bind; [apply Hf; by left |]; intros _; apply IH; intros y Hy; apply Hf; by right.
Qed.
End keeps.

Lemma keeps_modify {W E} (R : W -> W -> Prop) (f : W -> W) : (forall w, R w (f w)) -> keeps R (modify (E := E) f).
Proof. intros Hf w r w' [= _ <-]; apply Hf. Qed.

(** A computation that only reads, first. *)
Lemma reads_bind {W E A B} (m : M W E A) (k : A -> M W E B) w r w' :
  keeps eq m -> (m ≫= k) w = Some (r, w') -> w' = w \/ exists a, m w = Some (Ok a, w) /\ k a w = Some (r, w').
Proof.
  intros Hm [(a & w1 & E1 & E2)|(e & w1 & E1 & [= -> ->])]%bind_inv; pose proof (Hm _ _ _ E1) as <-; eauto.
Qed.

Create HintDb keeps.
#[export] Hint Extern 1 (keeps ?R (mret _)) => apply (keeps_ret R) : keeps.
#[export] Hint Extern 1 (keeps ?R (ret _)) => apply (keeps_return R) : keeps.
#[export] Hint Extern 1 (keeps ?R skip) => apply (keeps_skip R) : keeps.
#[export] Hint Extern 1 (keeps ?R (throw _)) => apply (keeps_throw R) : keeps.
#[export] Hint Extern 1 (keeps ?R (gets _)) => apply (keeps_gets R) : keeps.
#[export] Hint Extern 1 (keeps ?R (unwrap_or_throw _ _)) => apply (keeps_unwrap R) : keeps.
#[export] Hint Extern 1 (keeps ?R (guard _ _)) => apply (keeps_guard R) : keeps.
#[export] Hint Extern 1 (keeps ?R (_ ≫= _)) => apply (keeps_bind R) : keeps.
#[export] Hint Extern 1 (keeps ?R (when _ _)) => apply (keeps_when R) : keeps.
#[export] Hint Extern 1 (keeps ?R (ignore _)) => apply (keeps_ignore R) : keeps.
#[export] Hint Extern 1 (keeps ?R (finally _ _)) => apply (keeps_finally R) : keeps.
#[export] Hint Extern 1 (keeps ?R (on_error _ _)) => apply (keeps_on_error R) : keeps.
