(* ===== verification/TopicSubscription.v ===== *)
(** * The subscriptions of a topic

    [Subscription] of [service/topic/subscription.rs] as the topics and connections
    use it: a name, a type and one of two runtimes.  The operations of a persistent
    subscription are those of [Subscription.v] on the cursor of the shared store;
    those of a non-persistent one are in [NonPersistent.v].  The properties given by
    the client are stored and never read, so they are left out. *)

From Stdlib Require Import Ascii.
From S2P Require Import Prelude Position Text LedgerInfo MetadataCodec RocksLedger StickyKey Consumer.
From S2P Require Import NonPersistent Subscription StorageService DurableCursor Effects.

(** [str::parse::<i32>] *)
Definition parse_i32 (s : string) : option Z :=
  let signed k r := match r with
                    | EmptyString => None
                    | _ => parse_digits r 0 ≫= fun n => if (I32_MIN <=? k * n) && (k * n <=? I32_MAX)
                                                       then Some (k * n) else None
                    end in
  match s with
  | EmptyString => None
  | String c r =>
      if Ascii.eqb c "-"%char then signed (-1) r
      else if Ascii.eqb c "+"%char then signed 1 r
      else signed 1 s
  end.

Definition PARTITION_INFIX : string := "-partition-".

(** The index in the name of a partition, or -1. *)
Definition extract_partition_from_name (name : string) : Z :=
  match rsplit_once PARTITION_INFIX name with
  | Some (_, suffix) => default (-1) (parse_i32 suffix)
  | None => -1
  end.

Inductive RuntimeMode := Persistent | NonPersistent.

#[global] Instance runtime_mode_eq_dec : EqDecision RuntimeMode.
Proof. solve_decision. Defined.

Record SubscriptionObject := mkSub {
  so_name : string;
  so_topic : string;
  so_type : SubscriptionType;
  so_mode : RuntimeMode;
  so_policy : option KeySharedPolicy;
  so_np : option NonPersistentSubscriptionRuntime;
  so_rt : option PersistentSubscriptionRuntime;
}.

Definition new_with_options (name topic : string) (t : SubscriptionType) (mode : RuntimeMode)
    (policy : option KeySharedPolicy) : SubscriptionObject :=
  mkSub name topic t mode policy None
    (match mode with Persistent => Some (runtime_new t policy) | NonPersistent => None end).

Definition set_np (r : option NonPersistentSubscriptionRuntime) (o : SubscriptionObject) : SubscriptionObject :=
  mkSub (so_name o) (so_topic o) (so_type o) (so_mode o) (so_policy o) r (so_rt o).
Definition set_rt (r : option PersistentSubscriptionRuntime) (o : SubscriptionObject) : SubscriptionObject :=
  mkSub (so_name o) (so_topic o) (so_type o) (so_mode o) (so_policy o) (so_np o) r.

Definition is_persistent (o : SubscriptionObject) : bool := bool_decide (so_mode o = Persistent).

Definition so_set_pending_first_unacked (pos : option ManagedLedgerPosition) (o : SubscriptionObject) : SubscriptionObject :=
  set_rt (set_pending_first_unacked pos <$> so_rt o) o.

Definition is_fenced (o : SubscriptionObject) : bool :=
  match so_mode o with
  | Persistent => false
  | NonPersistent => from_option npr_is_fenced false (so_np o)
  end.

Definition reuse_or_create_non_persistent_runtime (o : SubscriptionObject) : NonPersistentSubscriptionRuntime :=
  match so_np o with
  | Some r => r
  | None => npr_new (so_topic o) (extract_partition_from_name (so_topic o)) (so_type o) (so_policy o)
  end.

Definition fence (o : SubscriptionObject) : SubscriptionObject :=
  match so_mode o with
  | Persistent => o
  | NonPersistent => set_np (Some (npr_fence (reuse_or_create_non_persistent_runtime o))) o
  end.

(** *** The consumers of the non-persistent runtime *)

Definition np_update_consumer (id : Z) (f : Consumer -> Consumer) (d : NonPersistentDispatcher) : NonPersistentDispatcher :=
  match d with
  | NExclusive d =>
      NExclusive (mkNpExclusive ((fun c => if consumer_id c =? id then f c else c) <$> npx_consumer d) (npx_counters d))
  | NFailover d => NFailover (npf_set (update_list id f (npf_consumers d)) (npf_active d) d)
  | NMultipleConsumers d =>
      NMultipleConsumers (mkNpShared (alter f id (nps_consumers d)) (nps_ordered d) (nps_next_index d)
        (nps_total_permits d) (nps_counters d))
  | NStickyKey d => NStickyKey (npk_set (alter f id (npk_consumers d)) (npk_total_permits d) (npk_counters d) d)
  end.

#[global] Instance np_runtime_home : ConsumerHome NonPersistentSubscriptionRuntime := {|
  home_consumer id r := npr_dispatcher r ≫= np_get_consumer id;
  home_consumers := npr_get_consumers;
  home_update id f r := npr_set (np_update_consumer id f <$> npr_dispatcher r) r;
|}.

(** *** Consumers *)

Definition so_get_consumers (o : SubscriptionObject) : list Consumer :=
  match so_mode o with
  | Persistent => from_option runtime_get_consumers [] (so_rt o)
  | NonPersistent => from_option npr_get_consumers [] (so_np o)
  end.

Definition so_get_consumer (id : Z) (o : SubscriptionObject) : option Consumer :=
  match so_mode o with
  | Persistent => so_rt o ≫= runtime_get_consumer id
  | NonPersistent => so_np o ≫= fun r => npr_dispatcher r ≫= np_get_consumer id
  end.

Definition so_get_consumer_count (o : SubscriptionObject) : nat := length (so_get_consumers o).

Definition so_has_consumers (o : SubscriptionObject) : bool :=
  match so_mode o with
  | Persistent => from_option (fun rt => from_option is_consumer_connected false (dispatcher rt)) false (so_rt o)
  | NonPersistent => from_option npr_has_consumers false (so_np o)
  end.

Definition get_active_consumers (o : SubscriptionObject) : list Consumer :=
  match so_type o with
  | Failover =>
      match so_mode o with
      | Persistent => option_list (so_rt o ≫= fun rt => dispatcher rt ≫= enum_active_consumer)
      | NonPersistent => option_list (so_np o ≫= fun r => npr_dispatcher r ≫= np_get_active_consumer)
      end
  | _ => so_get_consumers o
  end.

(** The sum is an [i32]. *)
Definition get_total_permits (o : SubscriptionObject) : Z :=
  Z.max 0 (foldl (fun n c => wrap_i32 (n + available_permits c)) 0 (so_get_consumers o)).

Inductive sub_failure :=
| NoRuntime
| Rejected
| Unsupported
| OperationFailed (e : sub_error ledger_error).

Definition so_add_consumer (c : Consumer) (o : SubscriptionObject) : result sub_failure unit * SubscriptionObject :=
  let rejected (r : result unit unit) := match r with Ok _ => Ok tt | Err _ => Err Rejected end in
  match so_mode o with
  | Persistent =>
      match so_rt o with
      | None => (Err NoRuntime, o)
      | Some rt => let '(r, rt) := runtime_add_consumer c rt in (rejected r, set_rt (Some rt) o)
      end
  | NonPersistent =>
      let '(r, np) := npr_add_consumer c (reuse_or_create_non_persistent_runtime o) in (rejected r, set_np (Some np) o)
  end.

(** The last consumer of a non-persistent subscription takes the runtime along. *)
Definition so_remove_consumer (id : Z) (o : SubscriptionObject) : option Consumer * SubscriptionObject :=
  match so_mode o with
  | Persistent =>
      match so_rt o with
      | None => (None, o)
      | Some rt => let '(c, rt) := runtime_remove_consumer id rt in (c, set_rt (Some rt) o)
      end
  | NonPersistent =>
      match so_np o with
      | None => (None, o)
      | Some np =>
          let '(c, np) := npr_remove_consumer id np in (c, set_np (if npr_has_consumers np then Some np else None) o)
      end
  end.

(** *** Operations on the store *)

Section operations.
Context {bytes : Type} `{DbCodec bytes} `{MetadataDecoder}.
Context (clock : Z -> Z).

Definition sub_op (A : Type) : Type := M (SubscriptionObject * ManagedLedgerStore bytes) sub_failure A.

(** An operation of the persistent runtime, on the cursor of the subscription. *)
Definition with_cursor {A}
    (f : Subscription (S := SubscriptionView bytes) -> option (result sub_failure A * Subscription (S := SubscriptionView bytes)))
    (absent : A) : sub_op A := fun w =>
  match so_rt w.1 with
  | None => Some (Ok absent, w)
  | Some rt =>
      match f (mkSubscription (mkView clock w.2 (so_topic w.1) (so_name w.1)) rt) with
      | Some (r, sub) => Some (r, (set_rt (Some (runtime sub)) w.1, sv_store (sub_store sub)))
      | None => None
      end
  end.

Definition op_result {A} (r : sub_result (E := ledger_error) A) : result sub_failure A :=
  match r with Ok a => Ok a | Err e => Err (OperationFailed e) end.

Definition so_remove_with_recovery (id : Z) : sub_op unit := fun w =>
  match so_mode w.1 with
  | Persistent => with_cursor (fun sub => pair (Ok tt) <$> sub_remove_with_recovery id sub) tt w
  | NonPersistent => Some (Ok tt, ((so_remove_consumer id w.1).2, w.2))
  end.

(** The cursor is deleted by the names, whether there is a runtime or not. *)
Definition so_delete_cursor : sub_op unit := fun w =>
  let '(r, st) := delete_cursor (so_topic w.1) (so_name w.1) w.2 in
  Some (match r with Ok _ => Ok tt | Err e => Err (OperationFailed (StorageError e)) end, (w.1, st)).

Definition so_unsubscribe_consumer (id : Z) : sub_op unit :=
  so_remove_with_recovery id ≫= fun _ =>
  gets (fun w => is_persistent w.1) ≫= fun p =>
  when p so_delete_cursor.

Definition so_seek_to_message_id (m : MessageId) : sub_op unit :=
  gets (fun w => is_persistent w.1) ≫= fun p =>
  if p : bool
  then with_cursor (fun sub => let '(r, sub) := seek_to_message_id m sub in Some (op_result r, sub)) tt
  else throw Unsupported.

Definition so_seek_by_publish_time (t : Z) : sub_op unit :=
  gets (fun w => is_persistent w.1) ≫= fun p =>
  if p : bool
  then with_cursor (fun sub => let '(r, sub) := seek_by_publish_time t sub in Some (op_result r, sub)) tt
  else throw Unsupported.

Definition so_get_last_message_id : sub_op (option MessageId) := fun w =>
  match so_mode w.1 with
  | NonPersistent => Some (Err Unsupported, w)
  | Persistent =>
      let '(r, st) := get_last_position clock (so_topic w.1) w.2 in
      Some (match r with
            | Ok p => Ok (message_id_of_position <$> p)
            | Err e => Err (OperationFailed (StorageError e))
            end, (w.1, st))
  end.

(** [Consumer::message_acked] for the consumer [id]: a non-persistent subscription
    only keeps the accounts of its consumers. *)
Definition np_message_acked (id : Z) (ack_type : AckCommandType) (ids : list MessageId)
    (t : SubscriptionType) (np : NonPersistentSubscriptionRuntime) : NonPersistentSubscriptionRuntime :=
  match ids with
  | [] => np
  | _ :: _ =>
      if is_shared_type t
      then match ack_type with Cumulative => np | Individual => (take_owned id ids np).2 end
      else (take_own id ack_type ids np).2
  end.

Definition so_message_acked (id : Z) (ack_type : AckCommandType) (ids : list MessageId) : sub_op unit := fun w =>
  match so_mode w.1 with
  | Persistent =>
      with_cursor (fun sub => let '(r, sub) := message_acked id ack_type ids sub in Some (op_result r, sub)) tt w
  | NonPersistent =>
      Some (Ok tt, (set_np (np_message_acked id ack_type ids (so_type w.1) <$> so_np w.1) w.1, w.2))
  end.

Definition so_redeliver (id : Z) (ids : list MessageId) : sub_op unit := fun w =>
  match so_mode w.1 with
  | NonPersistent => Some (Ok tt, w)
  | Persistent =>
      with_cursor (fun sub => (fun p => (op_result p.1, p.2)) <$> redeliver_unacknowledged_messages id ids sub) tt w
  end.

(** The permits of a flow command, for the consumer and for its dispatcher. *)
Definition so_apply_flow_permits (id n : Z) (o : SubscriptionObject) : SubscriptionObject :=
  match so_mode o with
  | Persistent =>
      set_rt ((fun rt => apply_flow_permits id n (runtime_update_consumer id (add_permits n) rt)) <$> so_rt o) o
  | NonPersistent => set_np ((fun np => npr_consumer_flow n (home_update id (add_permits n) np)) <$> so_np o) o
  end.

Definition so_dispatch_messages : sub_op unit := fun w =>
  match so_mode w.1 with
  | NonPersistent => Some (Ok tt, w)
  | Persistent =>
      with_cursor (fun sub => (fun p => (match p.1 with Ok _ => Ok tt | Err e => Err (OperationFailed (StorageError e)) end, p.2))
                     <$> sub_dispatch_messages sub) tt w
  end.

Definition so_drain_pending_acks (id : Z) (o : SubscriptionObject) : SubscriptionObject :=
  match so_mode o with
  | Persistent => set_rt (home_update id drop_pending <$> so_rt o) o
  | NonPersistent => set_np (home_update id drop_pending <$> so_np o) o
  end.
End operations.

Definition send_non_persistent_entries `{MetadataDecoder} (es : list NonPersistentEntry) (o : SubscriptionObject)
  : SubscriptionObject :=
  match so_mode o with
  | Persistent => o
  | NonPersistent => set_np (npr_send_messages es <$> so_np o) o
  end.
