(* ===== verification/SharedStore.v ===== *)
(** * One store under all subscriptions

    Every subscription of every topic works on the same RocksDB store.  Here the
    operations that change it - appending a group of publications, opening a
    ledger, writing a cursor - are shown to be harmless to all the others: for
    the topics with flat names, each of them is a publication, possibly of
    nothing, as the subscriptions understand it ([publishes]). *)

From Stdlib Require Import Ascii.
From S2P Require Import Prelude Position RangeSet Cursor CursorRead LedgerInfo MetadataCodec Text Keys EntryLog RocksLedger StickyKey ReadPosition.
From S2P Require Import Dispatch StorageService Subscription DurableCursor SubscriptionDelivery TopicSubscription.
From S2P Require RocksStore WriteQueue.
Import RocksStore (Rocks, mkRocks, storage, ledgers, topic_holds, cursor_stored, unacked).
Import WriteQueue (WriteReq, req_ledger, req_item, run_group, run_groups, confirmed, world_wf, world_grows, reqs_served).

(** ** Flat topic names

    A domain, a tenant, a namespace and a local name, none with a further slash:
    their ledgers and cursors have keys of their own. *)

Record flat_name (t domain tenant namespace local : string) : Prop := {
  fn_domain : domain = "persistent" \/ domain = "non-persistent";
  fn_tenant : has_char "/" tenant = false;
  fn_namespace : has_char "/" namespace = false;
  fn_local : has_char "/" local = false;
  fn_name : t = topic_string domain tenant namespace local;
}.

Definition flat_topic (t : string) : Prop := exists domain tenant namespace local, flat_name t domain tenant namespace local.

Lemma flat_ledger_name t domain tenant namespace local :
  flat_name t domain tenant namespace local ->
  managed_ledger_name t = tenant +:+ "/" +:+ namespace +:+ "/" +:+ domain +:+ "/" +:+ local.
Proof.
  intros [Hd Ht Hn Hl ->]; unfold managed_ledger_name, topic_string.
  replace (split_once "://" (domain +:+ "://" +:+ tenant +:+ "/" +:+ namespace +:+ "/" +:+ local))
    with (Some (domain, tenant +:+ "/" +:+ namespace +:+ "/" +:+ local)) by (by destruct Hd as [-> | ->]).
  unfold splitn3; by rewrite !split_once_slash_intro.
Qed.

Lemma domain_no_slash domain : domain = "persistent" \/ domain = "non-persistent" -> has_char "/" domain = false.
Proof. by intros [-> | ->]. Qed.

Lemma flat_ledger_name_inj t1 t2 :
  flat_topic t1 -> flat_topic t2 -> managed_ledger_name t1 = managed_ledger_name t2 -> t1 = t2.
Proof.
  intros (d1 & a1 & n1 & l1 & H1) (d2 & a2 & n2 & l2 & H2).
  rewrite (flat_ledger_name _ _ _ _ _ H1), (flat_ledger_name _ _ _ _ _ H2).
  destruct H1 as [Hd1 Ha1 Hn1 _ ->], H2 as [Hd2 Ha2 Hn2 _ ->]; intros E.
  apply sep_first_inj in E as [-> E]; [|done ..]; apply sep_first_inj in E as [-> E]; [|done ..].
  apply sep_first_inj in E as [-> ->]; [done | by apply domain_no_slash ..].
Qed.

(** No cursor has the key of a ledger, and each cursor has its own. *)
Lemma flat_cursor_not_ledger t1 t2 s :
  flat_topic t1 -> flat_topic t2 ->
  managed_cursor_key (managed_ledger_name t1) (encode_cursor_name s) <> managed_ledger_key (managed_ledger_name t2).
Proof.
  intros (d1 & a1 & n1 & l1 & H1) (d2 & a2 & n2 & l2 & H2) E%append_inj_l; revert E.
  rewrite (flat_ledger_name _ _ _ _ _ H1), (flat_ledger_name _ _ _ _ _ H2).
  destruct H1 as [Hd1 _ _ Hl1 _], H2 as [Hd2 Ha2 Hn2 Hl2 _].
  change ("/" +:+ encode_cursor_name s) with (String "/" (encode_cursor_name s)).
  replace (a2 +:+ "/" +:+ n2 +:+ "/" +:+ d2 +:+ "/" +:+ l2) with ((a2 +:+ "/" +:+ n2 +:+ "/" +:+ d2) +:+ String "/" l2)
    by (by rewrite !append_assoc).
  intros [E _]%sep_last_inj; [|apply encode_cursor_name_no_slash | done]; revert E.
  replace (a1 +:+ "/" +:+ n1 +:+ "/" +:+ d1 +:+ "/" +:+ l1) with ((a1 +:+ "/" +:+ n1 +:+ "/" +:+ d1) +:+ String "/" l1)
    by (by rewrite !append_assoc).
  replace (a2 +:+ "/" +:+ n2 +:+ "/" +:+ d2) with ((a2 +:+ "/" +:+ n2) +:+ String "/" d2) by (by rewrite !append_assoc).
  intros [E _]%sep_last_inj; [|done | by apply domain_no_slash]; revert E.
  replace (a1 +:+ "/" +:+ n1 +:+ "/" +:+ d1) with ((a1 +:+ "/" +:+ n1) +:+ String "/" d1) by (by rewrite !append_assoc).
  intros [E _]%sep_last_inj; [|by apply domain_no_slash | done].
  rewrite <- E, !has_char_app in Ha2; cbn in Ha2; by rewrite orb_true_r in Ha2.
Qed.

Lemma flat_cursor_key_inj t1 t2 s1 s2 :
  flat_topic t1 -> flat_topic t2 ->
  managed_cursor_key (managed_ledger_name t1) (encode_cursor_name s1) =
  managed_cursor_key (managed_ledger_name t2) (encode_cursor_name s2) -> t1 = t2 /\ s1 = s2.
Proof.
  intros H1 H2 E%append_inj_l; apply sep_last_inj in E as [En Es]; [|by apply encode_cursor_name_no_slash ..].
  split; [by apply flat_ledger_name_inj | by apply encode_cursor_name_inj].
Qed.

(** The topic of a ledger's key. *)
Definition ledger_key_topic (key : string) : option string :=
  rest ← strip_prefix "/managed-ledgers/" key;
  '(tenant, rest) ← split_once "/" rest;
  '(namespace, rest) ← split_once "/" rest;
  '(domain, local) ← split_once "/" rest;
  if has_char "/" local then None else Some (topic_string domain tenant namespace local).

Lemma ledger_key_topic_flat t : flat_topic t -> ledger_key_topic (managed_ledger_key (managed_ledger_name t)) = Some t.
Proof.
  intros (d & a & n & l & Hf); rewrite (flat_ledger_name _ _ _ _ _ Hf); destruct Hf as [Hd Ha Hn Hl ->].
  unfold ledger_key_topic, managed_ledger_key.
  replace (strip_prefix "/managed-ledgers/" ("/managed-ledgers/" +:+ a +:+ "/" +:+ n +:+ "/" +:+ d +:+ "/" +:+ l))
    with (Some (a +:+ "/" +:+ n +:+ "/" +:+ d +:+ "/" +:+ l)) by reflexivity.
  cbn [mbind option_bind]; rewrite split_once_slash_intro by done; cbn [mbind option_bind].
  rewrite split_once_slash_intro by done; cbn [mbind option_bind].
  rewrite split_once_slash_intro by (by apply domain_no_slash); cbn [mbind option_bind]; by rewrite Hl.
Qed.

(** The topics the broker serves: flat names, with a partition index or none. *)
Definition served (t : string) : Prop := flat_topic t /\ -1 <= extract_partition_from_name t.
Definition served_ledger (name : string) : Prop := exists t, served t /\ name = managed_ledger_name t.

(** ** A ledger grows *)

(** More entries are visible: the position the frontier waits for is no later. *)
Lemma managed_cursor_wf_grown i i' s :
  info_wf i -> info_wf i' -> (forall p, visible i p -> visible i' p) ->
  managed_cursor_wf i s -> managed_cursor_wf i' s.
Proof.
  intros Hi Hi' Hmono [Hh Hexp]; pose proof Hh as [Hwf Hm Hr].
  assert (managed_holes i' s) as Hh'.
  { split; [done | |].
    - intros m E; destruct (Hm m E); auto.
    - intros x Hx; destruct (Hr x Hx) as (? & ? & ?); auto. }
  split; [done |]; intros q' x Hq' Hx.
  pose proof (expected_position_spec i' s Hi' Hh') as HE'; rewrite Hq' in HE'.
  destruct HE' as (_ & _ & _ & Hmin'); destruct (Hr x Hx) as (Hv & Hsame & Hlt).
  pose proof (range_start_visible i x (rs_wf_ok _ _ Hwf Hx) Hv Hsame) as Hv1.
  pose proof (expected_position_spec i s Hi Hh) as HE.
  destruct (expected_position i s) as [q|] eqn:Hq; [|specialize (HE _ Hv1); lia].
  destruct HE as (Hvq & _ & Hq1 & _); specialize (Hmin' q (Hmono q Hvq) Hq1).
  specialize (Hexp q x eq_refl Hx); lia.
Qed.

Lemma managed_cursor_wf_empty i s : (forall p, ~ visible i p) -> managed_cursor_wf i s -> s = default_cursor_state.
Proof.
  intros Hno [[_ Hm Hr] _]; destruct s as [mark holes]; cbn in *; unfold default_cursor_state; f_equal.
  - destruct mark as [m|]; [|done]; destruct (Hm m eq_refl) as [Hv _]; by apply Hno in Hv.
  - destruct holes as [|x holes]; [done |]; destruct (Hr x ltac:(by left)) as [Hv _]; by apply Hno in Hv.
Qed.

Section store.
Context {bytes : Type} `{DbCodec bytes, !DbCodecLaws bytes} `{MetadataDecoder}.
Implicit Types (s : Storage bytes) (w : Rocks bytes) (logs : string -> list StoredMessage).

Lemma cursor_wf_grown s s' L L' ms new state :
  ledger_holds s L ms -> ledger_holds s' L' (ms ++ new) ->
  managed_cursor_wf (rl_info L) state -> managed_cursor_wf (rl_info L') state.
Proof.
  intros HL HL'; apply managed_cursor_wf_grown; [apply HL | apply HL' |].
  intros p (m & Hm & E)%(lh_visible _ _ _ _ HL); apply (lh_visible _ _ _ _ HL').
  exists m; split; [apply elem_of_app; by left | done].
Qed.

Lemma segment_grown L L' (p : ManagedLedgerPosition) :
  (forall k, k ∈ seg_ids (rl_info L) -> k ∈ seg_ids (rl_info L')) ->
  (exists l, l ∈ info_ledgers (rl_info L) /\ li_ledger_id l = ledger_id p) ->
  exists l, l ∈ info_ledgers (rl_info L') /\ li_ledger_id l = ledger_id p.
Proof.
  intros Hseg (l & Hl & Hid).
  assert (ledger_id p ∈ seg_ids (rl_info L')) as (l' & ? & ?)%list_elem_of_fmap; [|by exists l'].
  apply Hseg, list_elem_of_fmap; by exists l.
Qed.

(** The new messages lie past the old ones. *)
Lemma appended_after s L ms new m x :
  ledger_holds s L (ms ++ new) -> m ∈ ms -> x ∈ new -> msg_rank m < msg_rank x.
Proof.
  intros HL; pose proof (lh_sorted _ _ _ HL) as Hs; clear HL; revert Hs.
  induction ms as [|y ms IH]; cbn [app]; intros Hs Hm Hx; [by apply elem_of_nil in Hm |].
  apply StronglySorted_inv in Hs as [Hs Hall]; rewrite Forall_forall in Hall.
  apply elem_of_cons in Hm as [->|Hm]; [|by apply IH].
  apply Hall, elem_of_app; by right.
Qed.

(** A ledger that gained [new], with a cursor that acknowledges as much as
    before, serves the subscription as before, with the new messages ahead. *)
Lemma rocks_durable_grown w w' topic sub ms new acked readable L L' state' part :
  rocks_durable w topic sub ms acked readable ->
  ledgers w !! managed_ledger_name topic = Some L -> topic_holds w' topic L' (ms ++ new) ->
  (forall k, k ∈ seg_ids (rl_info L) -> k ∈ seg_ids (rl_info L')) ->
  cursor_stored w' topic sub state' -> managed_cursor_wf (rl_info L') state' ->
  (forall state x, cursor_stored w topic sub state -> x ∈ ms -> unacked state' x = true -> unacked state x = true) ->
  (forall m, m ∈ ms ++ new -> msg_partition (message_id m) = part) ->
  exists acked' readable', rocks_durable w' topic sub (ms ++ new) acked' readable' /\
    grown ms acked readable (ms ++ new) acked' readable'.
Proof.
  intros (L0 & state & part0 & Ht & Hc & Hwf & Hp0 & Ha & ->) EL Ht' Hseg Hc' Hwf' Hmono Hp.
  pose proof Ht as [Hc0 Hn0 HL _]; rewrite EL in Hc0; injection Hc0 as <-.
  exists (fun x => negb (unacked state' x)), (fun p => rocks_readable L' (ms ++ new) part p /\ upto (ms ++ new) p).
  split; [by exists L', state', part |]; split.
  - intros x Hx; apply elem_of_app; by left.
  - intros x [?|Hx]%elem_of_app; [by left | right]; intros p [_ (m & Hm & Hle)].
    pose proof (appended_after _ _ _ _ m x (RocksStore.th_ledger _ _ _ _ Ht') Hm Hx); lia.
  - intros x Hx; rewrite (Ha x Hx); specialize (Hmono state x Hc Hx).
    destruct (unacked state' x); [by rewrite Hmono | done].
  - intros p [(He & Hpp & Hs) (m & Hm & Hle)].
    assert (m ∈ ms ++ new) as Hm' by (apply elem_of_app; by left).
    split; [|by exists m]; split; [done |]; split; [|by eapply segment_grown].
    right; destruct Hpp as [->|Hpp]; [by apply elem_of_nil in Hm |].
    by rewrite <- (Hp m Hm'), (Hp0 m Hm).
Qed.

(** ** The store as a whole *)

(** The ledgers hold the messages [logs] says, all messages of a topic carry its
    partition, and every stored cursor fits the ledger of its topic. *)
Record store_ok w logs : Prop := {
  st_world : exists segs n size, world_wf served_ledger w logs segs n size;
  st_partitions : forall t m, served t -> m ∈ logs (managed_ledger_name t) ->
    msg_partition (message_id m) = extract_partition_from_name t;
  st_cursors : forall t sub, served t -> exists state, cursor_stored w t sub state /\
    (state = default_cursor_state \/
     exists L, rl_name L = managed_ledger_name t /\ ledger_holds (storage w) L (logs (managed_ledger_name t)) /\
       managed_cursor_wf (rl_info L) state);
}.

(** Every subscription of a served topic sees a publication, possibly of nothing. *)
Definition harmless w logs w' logs' : Prop :=
  forall clock t sub, served t ->
    publishes (mkView clock (RocksDbBackend w) t sub) (logs (managed_ledger_name t))
      (mkView clock (RocksDbBackend w') t sub) (logs' (managed_ledger_name t)).

Lemma harmless_refl w logs : harmless w logs w logs.
Proof. intros clock t sub _; apply publishes_refl. Qed.

Lemma harmless_trans w1 logs1 w2 logs2 w3 logs3 :
  harmless w1 logs1 w2 logs2 -> harmless w2 logs2 w3 logs3 -> harmless w1 logs1 w3 logs3.
Proof. intros H12 H23 clock t sub Ht; eapply publishes_trans; [by apply H12 | by apply H23]. Qed.

Lemma served_ledger_topic t : served t -> served_ledger (managed_ledger_name t).
Proof. by exists t. Qed.
#[local] Hint Resolve served_ledger_topic : core.

Lemma store_topic_holds w logs t L :
  store_ok w logs -> served t -> ledgers w !! managed_ledger_name t = Some L ->
  topic_holds w t L (logs (managed_ledger_name t)).
Proof.
  intros [(segs & n & size & Hw) Hp _] Ht EL.
  destruct (WriteQueue.ww_ledger _ _ _ _ _ _ Hw _ (served_ledger_topic t Ht))
    as [(_ & ? & _)|(L' & Hn & HL & _ & _ & [?|[EL' _]])]; [congruence .. |].
  rewrite EL in EL'; injection EL' as <-; split; [done | done | done |].
  intros m Hm; rewrite (Hp t m Ht Hm); apply Ht.
Qed.

Lemma store_cursor w logs t sub L :
  store_ok w logs -> served t -> topic_holds w t L (logs (managed_ledger_name t)) ->
  exists state, cursor_stored w t sub state /\ managed_cursor_wf (rl_info L) state.
Proof.
  intros Hok Ht [_ _ HL _]; destruct (st_cursors _ _ Hok t sub Ht) as (state & Hc & [->|(L0 & _ & HL0 & Hwf)]);
    exists state || eexists; (split; [exact Hc |]); [apply default_cursor_state_wf |].
  eapply (cursor_wf_grown _ _ L0 L _ []); [exact HL0 | by rewrite app_nil_r | done].
Qed.

Lemma cursor_stored_same w w' topic sub state :
  let key := managed_cursor_key (managed_ledger_name topic) (encode_cursor_name sub) in
  db (storage w') !! key = db (storage w) !! key ->
  cursor_stored w topic sub state -> cursor_stored w' topic sub state.
Proof.
  cbv zeta; unfold cursor_stored, RocksStore.cursor_open, mbind', mget, mlift; intros ->.
  destruct (db (storage w) !! _) as [b|]; [|by intros [= <-]].
  destruct (ok_value _); [by intros [= <-] | done].
Qed.

Lemma cursor_stored_fun w topic sub state state' :
  cursor_stored w topic sub state -> cursor_stored w topic sub state' -> state = state'.
Proof. unfold cursor_stored; congruence. Qed.

(** An open topic serves any subscription. *)
Lemma store_durable w logs t sub L :
  store_ok w logs -> served t -> topic_holds w t L (logs (managed_ledger_name t)) ->
  exists acked readable, rocks_durable w t sub (logs (managed_ledger_name t)) acked readable.
Proof.
  intros Hok Ht Hh; destruct (store_cursor _ _ t sub L Hok Ht Hh) as (state & Hc & Hwf).
  eexists _, _; exists L, state, (extract_partition_from_name t); split_and!; try done.
  intros m; by apply (st_partitions _ _ Hok).
Qed.

(** *** Ledgers open and grow *)

Lemma grows_cursor w w' t sub :
  world_grows served_ledger w w' -> served t ->
  let key := managed_cursor_key (managed_ledger_name t) (encode_cursor_name sub) in
  db (storage w') !! key = db (storage w) !! key.
Proof.
  intros Hg Ht; apply (WriteQueue.wg_other _ _ _ Hg); [done | |].
  - intros name (t' & Ht' & ->); apply flat_cursor_not_ledger; [apply Ht | apply Ht'].
  - intros l e E; symmetry in E; by apply entry_key_not_managed in E.
Qed.

Lemma grows_store_ok w logs w' logs' new segs' n' size' :
  store_ok w logs -> world_wf served_ledger w' logs' segs' n' size' -> world_grows served_ledger w w' ->
  (forall name, logs' name = logs name ++ new name) ->
  (forall t m, served t -> m ∈ new (managed_ledger_name t) ->
     msg_partition (message_id m) = extract_partition_from_name t) -> store_ok w' logs'.
Proof.
  intros Hok Hw' Hg Hlogs Hnew; pose proof Hok as [(segs & n & size & Hw) Hp Hcs]; split; [by eauto | |].
  - intros t m Ht; rewrite Hlogs; intros [?|?]%elem_of_app; auto.
  - intros t sub Ht; destruct (Hcs t sub Ht) as (state & Hc & Hfit); exists state; split.
    { apply (cursor_stored_same w); [exact (grows_cursor w w' t sub Hg Ht) | done]. }
    destruct Hfit as [->|(L & Hn & HL & Hwf)]; [by left |].
    destruct (WriteQueue.ww_ledger _ _ _ _ _ _ Hw' _ (served_ledger_topic t Ht))
      as [(_ & _ & Hnil & _)|(L' & Hn' & HL' & _)]; rewrite Hlogs in *.
    + apply app_eq_nil in Hnil as [Hnil _]; left; eapply managed_cursor_wf_empty; [|exact Hwf].
      intros p (m & Hm & _)%(lh_visible _ _ _ _ HL); rewrite Hnil in Hm; by apply elem_of_nil in Hm.
    + right; exists L'; split_and!; [done | done | exact (cursor_wf_grown _ _ _ _ _ _ _ HL HL' Hwf)].
Qed.

Lemma grows_harmless w logs w' logs' new :
  store_ok w logs -> store_ok w' logs' -> world_grows served_ledger w w' ->
  (forall name, logs' name = logs name ++ new name) -> harmless w logs w' logs'.
Proof.
  intros Hok Hok' Hg Hlogs clock t sub Ht acked readable Hd; cbn in Hd |- *.
  pose proof Hd as (L & state & _ & Hh & Hc & Hwf & _); pose proof (RocksStore.th_cached _ _ _ _ Hh) as EL.
  destruct (WriteQueue.wg_open _ _ _ Hg _ _ EL) as (L' & EL' & _ & Hseg).
  pose proof (store_topic_holds _ _ _ _ Hok' Ht EL') as Hh'; pose proof (fun m => st_partitions _ _ Hok' t m Ht) as Hp.
  rewrite Hlogs in *; eapply (rocks_durable_grown w w' t sub _ _ _ _ L L' state); try done.
  - apply (cursor_stored_same w); [exact (grows_cursor w w' t sub Hg Ht) | done].
  - eapply cursor_wf_grown; [apply Hh | apply Hh' | done].
  - intros state1 x Hc1 _; by rewrite (cursor_stored_fun _ _ _ _ _ Hc1 Hc).
Qed.

(** Ids for [k] requests and [extra] more bytes fit the signed 64-bit fields. *)
Definition segments_room (extra : Z) (key : string) (v : bytes) : Prop :=
  match ledger_key_topic key, decode_stored_info v with
  | Some _, Some i => Forall (fun l => li_size l + extra <= I64_MAX) (info_ledgers i)
  | _, _ => True
  end.

#[export] Instance segments_room_dec extra key v : Decision (segments_room extra key v).
Proof. unfold segments_room; repeat case_match; apply _. Defined.

Definition store_room w (k extra : Z) : bool :=
  (0 <=? extra) && (extra <=? I64_MAX) &&
  from_option (fun n => n + 3 * k <=? I64_MAX) false (next_ledger_id (storage w)) &&
  bool_decide (map_Forall (segments_room extra) (db (storage w))).

Lemma store_room_mono w k extra k' extra' :
  store_room w k extra = true -> k' <= k -> 0 <= extra' <= extra -> store_room w k' extra' = true.
Proof.
  unfold store_room; intros [[Hx Hn]%andb_prop Hm]%andb_prop Hk He; apply andb_prop in Hx as [? ?].
  rewrite bool_decide_eq_true in Hm; rewrite !andb_true_iff, bool_decide_eq_true; split_and!; [lia | lia | |].
  - destruct (next_ledger_id (storage w)); [cbn in *; lia | done].
  - intros key v Hv; specialize (Hm key v Hv); revert Hm; unfold segments_room.
    destruct (ledger_key_topic key), (decode_stored_info v) as [i|]; try done.
    intros Hf; eapply Forall_impl; [exact Hf |]; cbn; intros l; lia.
Qed.

Lemma room_world w logs k extra :
  store_ok w logs -> store_room w k extra = true ->
  exists segs n, world_wf served_ledger w logs segs n (I64_MAX - extra) /\ n + 3 * k <= I64_MAX.
Proof.
  unfold store_room; intros [(segs & n & size & Hw) _ _] [[Hx Hn]%andb_prop Hsize]%andb_prop; exists segs, n.
  apply andb_prop in Hx as [? ?]; rewrite bool_decide_eq_true in Hsize.
  pose proof Hw as [Hst Hnx Hn0 Hled Hbelow Hdisj Hsz]; rewrite Hnx in Hn; cbn in Hn; split; [|lia].
  split; try done; [|lia]; intros name Hg.
  destruct (Hled name Hg) as [?|(L & Hname & HL & Hs & Hz & Hc)]; [by left | right; exists L; split_and!; try done].
  destruct (lh_current _ _ _ HL) as (pre & l & Hl & _ & _ & Hcs).
  pose proof (lh_durable _ _ _ HL) as Hd; apply Hsize in Hd; unfold segments_room in Hd.
  destruct Hg as (t & [Ht _] & ->); rewrite Hname, ledger_key_topic_flat, decode_encode_info in Hd by (done || apply HL).
  rewrite Forall_forall in Hd; specialize (Hd l); rewrite Hl in Hd.
  specialize (Hd ltac:(apply elem_of_app; right; by left)); lia.
Qed.

(** A request for a served topic, with the partition of the topic. *)
Definition request_ok (r : WriteReq) : Prop :=
  served (WriteQueue.wr_topic r) /\ WriteQueue.wr_partition r = extract_partition_from_name (WriteQueue.wr_topic r) /\
  item_ok (req_item r).

Lemma request_ledger r : request_ok r -> served_ledger (req_ledger r).
Proof. intros [? _]; by exists (WriteQueue.wr_topic r). Qed.

Lemma elem_of_confirmed name cs m :
  m ∈ confirmed name cs ->
  exists r id, (r, Ok id) ∈ cs /\ req_ledger r = name /\ message_id m = id.
Proof.
  unfold confirmed; intros ([r [id|e]] & Hin & E)%list_elem_of_omap; cbn in E; [|done].
  destruct (String.eqb_spec (req_ledger r) name); [|done]; injection E as <-; by exists r, id.
Qed.

Lemma requests_harmless ok w reqs logs n size cs w' :
  store_ok w logs -> Forall request_ok reqs -> reqs_served served_ledger ok w reqs logs n size (cs, w') ->
  let logs' name := logs name ++ confirmed name cs in store_ok w' logs' /\ harmless w logs w' logs'.
Proof.
  intros Hok Hreqs (segs' & n' & _ & _ & Hw' & Hcs & _ & Hg & Hkeep) logs'.
  rewrite Forall_forall in Hreqs; rewrite Forall_forall in Hkeep.
  assert (store_ok w' logs') as Hok'; [|split; [done | by eapply grows_harmless]].
  eapply grows_store_ok; [done | exact Hw' | done | done |].
  intros t m Ht (r & id & Hin & Hr & ->)%elem_of_confirmed.
  assert (r ∈ reqs) as Hin' by (rewrite <- Hcs; apply list_elem_of_fmap; by exists (r, Ok id)).
  destruct (Hreqs r Hin') as ([Hflat _] & Hp & _); rewrite (Hkeep _ Hin id eq_refl); cbn; rewrite Hp; f_equal.
  apply flat_ledger_name_inj; [done | apply Ht | done].
Qed.

(** *** Cursors are written *)

Record cursor_written (t sub : string) w w' : Prop := {
  cw_ledgers : ledgers w' = ledgers w;
  cw_log : log (storage w') = log (storage w);
  cw_fs : fs (storage w') = fs (storage w);
  cw_db : forall k, k <> managed_cursor_key (managed_ledger_name t) (encode_cursor_name sub) ->
    db (storage w') !! k = db (storage w) !! k;
}.

Lemma written_other t sub w w' t' sub' state :
  cursor_written t sub w w' -> served t -> served t' -> (t', sub') <> (t, sub) ->
  cursor_stored w t' sub' state -> cursor_stored w' t' sub' state.
Proof.
  intros Hcw [Ht _] [Ht' _] Hne; apply cursor_stored_same, (cw_db _ _ _ _ Hcw); intros E.
  by apply flat_cursor_key_inj in E as [-> ->].
Qed.

Lemma written_ledger t sub w w' t' L ms :
  cursor_written t sub w w' -> served t -> served t' -> rl_name L = managed_ledger_name t' ->
  ledger_holds (storage w) L ms -> ledger_holds (storage w') L ms.
Proof.
  intros Hcw [Ht _] [Ht' _] Hn; apply ledger_holds_mono.
  - rewrite Hn; apply (cw_db _ _ _ _ Hcw); intros E; symmetry in E; exact (flat_cursor_not_ledger _ _ _ Ht Ht' E).
  - intros m _; apply (cw_db _ _ _ _ Hcw), entry_key_not_managed.
  - by rewrite (cw_fs _ _ _ _ Hcw).
Qed.

Lemma written_world t sub w w' logs segs n size :
  cursor_written t sub w w' -> served t -> world_wf served_ledger w logs segs n size ->
  world_wf served_ledger w' logs segs n size.
Proof.
  intros Hcw Ht [Hst Hn Hn0 Hled Hb Hd Hz]; split; try done.
  - unfold storage_wf; by rewrite (cw_log _ _ _ _ Hcw), (cw_fs _ _ _ _ Hcw).
  - unfold next_ledger_id in *; by rewrite (cw_db _ _ _ _ Hcw).
  - intros name Hg; rewrite (cw_ledgers _ _ _ _ Hcw); pose proof Hg as (t' & Ht' & E).
    destruct (Hled name Hg) as [(Hk & ? & ? & ?)|(L & HnL & HL & Hs & Hc)]; [left; split_and!; try done | right; exists L].
    + rewrite (cw_db _ _ _ _ Hcw); [done |]; rewrite E; intros E'; symmetry in E'.
      revert E'; apply flat_cursor_not_ledger; [apply Ht | apply Ht'].
    + split_and!; try done; [|apply Hc ..]; eapply (written_ledger _ _ _ _ t'); [exact Hcw | done | done | congruence | done].
Qed.

Lemma written_store_ok t sub w w' logs L state' :
  cursor_written t sub w w' -> store_ok w logs -> served t -> topic_holds w t L (logs (managed_ledger_name t)) ->
  cursor_stored w' t sub state' -> managed_cursor_wf (rl_info L) state' -> store_ok w' logs.
Proof.
  intros Hcw Hok Ht Hh Hc' Hwf'; pose proof Hok as [(segs & n & size & Hw) Hp Hcs]; split; [|done |].
  - exists segs, n, size; by eapply written_world.
  - intros t1 sub1 Ht1; destruct (decide ((t1, sub1) = (t, sub))) as [[= -> ->]|Hne].
    + exists state'; split; [done |]; right; exists L; destruct Hh as [_ Hn HL _].
      split_and!; [done | by eapply (written_ledger t sub w w' t) | done].
    + destruct (Hcs t1 sub1 Ht1) as (state & Hc & Hfit); exists state; split; [by eapply written_other |].
      destruct Hfit as [?|(L1 & Hn1 & HL1 & Hwf1)]; [by left | right; exists L1].
      split_and!; [done | by eapply (written_ledger t sub w w' t1) | done].
Qed.

(** A write that acknowledges no less than before. *)
Lemma written_harmless t sub w w' logs L state' :
  cursor_written t sub w w' -> store_ok w logs -> served t -> topic_holds w t L (logs (managed_ledger_name t)) ->
  cursor_stored w' t sub state' -> managed_cursor_wf (rl_info L) state' ->
  (forall state x, cursor_stored w t sub state -> x ∈ logs (managed_ledger_name t) ->
     unacked state' x = true -> unacked state x = true) ->
  store_ok w' logs /\ harmless w logs w' logs.
Proof.
  intros Hcw Hok Ht Hh Hc' Hwf' Hmono; pose proof (written_store_ok _ _ _ _ _ _ _ Hcw Hok Ht Hh Hc' Hwf') as Hok'.
  split; [done |]; intros clk t1 sub1 Ht1 acked readable Hd; cbn in Hd |- *.
  pose proof Hd as (L1 & state1 & _ & Hh1 & Hc1 & Hwf1 & _); pose proof (RocksStore.th_cached _ _ _ _ Hh1) as EL1.
  assert (topic_holds w' t1 L1 (logs (managed_ledger_name t1))) as Hh1'.
  { apply store_topic_holds; [done | done |]; by rewrite (cw_ledgers _ _ _ _ Hcw). }
  pose proof (fun m => st_partitions _ _ Hok t1 m Ht1) as Hp1.
  pose proof (rocks_durable_grown w w' t1 sub1 (logs (managed_ledger_name t1)) [] acked readable L1 L1) as Hgrow; rewrite app_nil_r in Hgrow.
  destruct (decide ((t1, sub1) = (t, sub))) as [[= -> ->]|Hne].
  - pose proof (RocksStore.th_cached _ _ _ _ Hh) as EL; rewrite EL in EL1; injection EL1 as <-.
    by eapply (Hgrow state').
  - eapply (Hgrow state1); try done; [by eapply written_other |].
    intros state2 x Hc2 _; by rewrite (cursor_stored_fun _ _ _ _ _ Hc2 Hc1).
Qed.

Context (clock : Z -> Z) (clock_ok : forall k, i64_range (clock k)).

(** The write queue serves a batch. *)
Lemma batch_harmless env round batch w logs cs w' :
  store_ok w logs -> Forall request_ok batch ->
  store_room w (Z.of_nat (length batch)) (items_size (req_item <$> batch)) = true ->
  (forall k, io_clean (WriteQueue.group_io env round k)) ->
  run_groups clock env round 0 (WriteQueue.group_by_ledger batch) w = (cs, w') ->
  exists logs', store_ok w' logs' /\ harmless w logs w' logs'.
Proof.
  intros Hok Hreqs Hroom Hio E; destruct (room_world _ _ _ _ Hok Hroom) as (segs & n & Hw & Hn).
  pose proof (WriteQueue.for_ledger_perm _ _ (WriteQueue.group_reqs_for_ledger batch)) as Hperm.
  pose proof (WriteQueue.items_size_perm _ _ (fmap_Permutation req_item _ _ Hperm)) as Hsz.
  pose proof (Permutation_length Hperm) as Hlen.
  pose proof (WriteQueue.run_groups_spec served_ledger clock clock_ok env round 0 (WriteQueue.group_by_ledger batch)
    w logs segs n _ Hw) as Hspec; rewrite E, Hsz, Hlen in Hspec.
  eexists; eapply (requests_harmless _ w (WriteQueue.group_reqs (WriteQueue.group_by_ledger batch))); [exact Hok | by rewrite Hperm | apply Hspec]; [done | lia | done | |].
  - rewrite Hperm, Forall_fmap; eapply Forall_impl; [exact Hreqs |]; by intros r (_ & _ & ?).
  - intros name reqs; apply WriteQueue.group_by_ledger_good.
    eapply Forall_impl; [exact Hreqs |]; apply request_ledger.
Qed.

(** A publication of the synchronous path. *)
Lemma submit_harmless io db_ok t meta data w logs r w' :
  let req := WriteQueue.mkReq t (extract_partition_from_name t) meta data WriteQueue.Oneshot in
  store_ok w logs -> request_ok req -> store_room w 1 (items_size [req_item req]) = true -> io_clean io ->
  submit clock io db_ok t (extract_partition_from_name t) meta data w = (r, w') ->
  exists logs', store_ok w' logs' /\ harmless w logs w' logs'.
Proof.
  intros req Hok Hreq Hroom Hio; unfold submit; fold req.
  destruct (room_world _ _ _ _ Hok Hroom) as (segs & n & Hw & Hn).
  pose proof (WriteQueue.run_group_spec served_ledger clock clock_ok io db_ok (req_ledger req) [req] w logs segs n _ Hw
    (request_ledger _ Hreq)) as Hspec.
  destruct (run_group clock io db_ok (req_ledger req) [req] w) as [cs w1] eqn:E.
  assert (reqs_served served_ledger (io.2 = WriteOk /\ db_ok = true) w [req] logs n
            (I64_MAX - items_size [req_item req]) (cs, w1)) as Hs.
  { apply Hspec; [done | cbn; lia | cbn; lia | done | constructor; [apply Hreq | done] |].
    by intros r0 ->%list_elem_of_singleton. }
  destruct (requests_harmless _ _ [req] _ _ _ _ _ Hok ltac:(by apply Forall_singleton) Hs) as [Hok' Hh].
  destruct cs as [|[r0 res] cs]; intros [= _ <-]; by eauto.
Qed.

(** A ledger is opened when it is first used. *)
Lemma open_harmless t w logs :
  store_ok w logs -> served t -> store_room w 1 0 = true ->
  exists L w', RocksStore.topic_ledger clock t w = (Ok L, w') /\ store_ok w' logs /\ harmless w logs w' logs /\
    topic_holds w' t L (logs (managed_ledger_name t)) /\ world_grows served_ledger w w'.
Proof.
  intros Hok Ht Hroom; destruct (room_world _ _ _ _ Hok Hroom) as (segs & n & Hw & Hn).
  destruct (WriteQueue.open_ledger_spec served_ledger clock clock_ok w logs segs n _ _ Hw (served_ledger_topic t Ht) ltac:(lia))
    as (L & w' & segs' & n' & E & _ & Hw' & Hg & EL & _).
  assert (forall name, logs name = logs name ++ []) as Happ by (intros; by rewrite app_nil_r).
  assert (store_ok w' logs) as Hok'.
  { eapply (grows_store_ok _ _ _ _ (fun _ => [])); [done | exact Hw' | done | done |]; by intros ? ? ? ?%elem_of_nil. }
  exists L, w'; split_and!; [done | done | by eapply (grows_harmless _ _ _ _ (fun _ => [])) | | done].
  by apply store_topic_holds.
Qed.

(** *** Acknowledgements *)

Lemma persist_written t sub w L state :
  rl_name L = managed_ledger_name t ->
  cursor_written t sub w (mkRocks (RocksStore.persist L sub state (storage w)).2 (ledgers w)).
Proof. intros Hn; split; [done .. |]; intros k Hk; cbn; rewrite Hn; by rewrite lookup_insert_ne. Qed.

Lemma ack_harmless t sub w logs L x :
  store_ok w logs -> served t -> topic_holds w t L (logs (managed_ledger_name t)) -> x ∈ logs (managed_ledger_name t) ->
  exists w', RocksStore.ack_message_shared clock t sub (message_id x) w = (Ok tt, w') /\
    ledgers w' = ledgers w /\ store_ok w' logs /\ harmless w logs w' logs.
Proof.
  intros Hok Ht Hh Hx; destruct (store_cursor _ _ t sub L Hok Ht Hh) as (state & Hc & Hwf).
  destruct (RocksStore.ack_message_shared_spec clock w t sub L _ state x Hh Hc Hwf Hx)
    as (w' & state' & Hack & Hh' & Hc' & Hwf' & Hiff); exists w'; split; [done |].
  assert (cursor_written t sub w w') as Hcw.
  { unfold RocksStore.ack_message_shared in Hack; rewrite (RocksStore.with_cursor_spec _ _ _ _ _ _ _ _ Hh Hc) in Hack.
    destruct (is_managed_position_acknowledged _ _).
    - injection Hack as <-; split; done.
    - injection Hack as <-; by apply persist_written, Hh. }
  split; [apply Hcw |]; eapply (written_harmless t sub w w' logs L state'); try done.
  intros state1 y Hc1 Hy Hun; specialize (Hiff y Hy); rewrite (cursor_stored_fun _ _ _ _ _ Hc1 Hc) in *.
  rewrite (RocksStore.is_acknowledged_shared_spec _ _ _ _ _ _ _ y Hh' Hc'),
    (RocksStore.is_acknowledged_shared_spec _ _ _ _ _ _ _ y Hh Hc), Hun in Hiff; cbn in Hiff.
  destruct (unacked state y); [done |]; destruct Hiff as [_ Hiff]; discriminate Hiff; by right.
Qed.

Lemma ack_all_harmless t sub w logs L l :
  store_ok w logs -> served t -> topic_holds w t L (logs (managed_ledger_name t)) ->
  Forall (stored_id (logs (managed_ledger_name t))) l ->
  exists w', (ack_all_shared l (mkView clock (RocksDbBackend w) t sub)).2 = mkView clock (RocksDbBackend w') t sub /\
    store_ok w' logs /\ harmless w logs w' logs.
Proof.
  intros Hok Ht Hh Hl; revert w Hok Hh; induction Hl as [|m l (x & Hx & <-) Hl IH]; intros w Hok Hh.
  { exists w; split_and!; [done | done | apply harmless_refl]. }
  destruct (ack_harmless t sub w logs L x Hok Ht Hh Hx) as (w1 & E1 & EL & Hok1 & Hh1).
  destruct (IH w1 Hok1) as (w' & E' & Hok' & Hh').
  { apply store_topic_holds; [done | done |]; rewrite EL; apply Hh. }
  exists w'; split_and!; [|done | by eapply harmless_trans]; cbn.
  unfold StorageService.ack_message_shared, on_backend; cbn; by rewrite E1.
Qed.

(** *** Cursors are opened *)

Lemma on_ledger_opened {A} t w w1 L (k : RocksDBManagedLedger -> storage_op bytes A) :
  RocksStore.topic_ledger clock t w = (Ok L, w1) -> ledgers w1 !! managed_ledger_name t = Some L ->
  RocksStore.on_ledger clock t k w = RocksStore.on_ledger clock t k w1.
Proof.
  intros E EL; unfold RocksStore.on_ledger; rewrite E.
  unfold RocksStore.topic_ledger, RocksStore.open_ledger; by rewrite EL.
Qed.

(** The state a new cursor starts with. *)
Definition new_cursor (options : CursorInitOptions) (L : RocksDBManagedLedger) : ManagedCursorState :=
  match lac L with
  | Some last => if decide (initial_position options = Latest) then cursor_mark_delete default_cursor_state last
                 else default_cursor_state
  | None => default_cursor_state
  end.

Lemma new_cursor_wf s L ms options : ledger_holds s L ms -> managed_cursor_wf (rl_info L) (new_cursor options L).
Proof.
  intros HL; unfold new_cursor; rewrite (lh_lac _ _ _ HL).
  destruct (last ms) as [m|] eqn:El; cbn; [|apply default_cursor_state_wf].
  case_decide; [|apply default_cursor_state_wf]; apply last_Some_elem_of in El.
  destruct (lh_msg_ok _ _ _ _ HL El) as (Hv & _); split; [|set_solver].
  split; cbn; [apply rs_wf_nil | | set_solver]; by intros p [= <-].
Qed.

(** The first unacknowledged message of an open topic. *)
Lemma first_unacked_known t sub w logs L :
  store_ok w logs -> served t -> topic_holds w t L (logs (managed_ledger_name t)) ->
  exists first, RocksStore.first_unacked_position clock t sub w = (Ok first, w).
Proof.
  intros Hok Ht Hh; destruct (store_cursor _ _ t sub L Hok Ht Hh) as (state & Hc & Hwf).
  eexists; apply (RocksStore.first_unacked_position_spec clock w t sub L _ state Hh Hc).
  eapply wf_mark_ok; [apply Hh | done].
Qed.

(** A new cursor is written. *)
Lemma new_cursor_harmless t sub options w logs L :
  store_ok w logs -> served t -> topic_holds w t L (logs (managed_ledger_name t)) ->
  RocksStore.cursor_absent w t sub -> start_message_id options = None ->
  exists w', (match start_message_id options with
              | Some start_id => RocksStore.apply_start_message_id_cursor clock t sub start_id
              | None => if decide (initial_position options = Latest) then RocksStore.apply_latest_cursor clock t sub
                        else RocksStore.persist_empty_cursor clock t sub
              end) w = (Ok tt, w') /\ store_ok w' logs /\ harmless w logs w' logs /\
    topic_holds w' t L (logs (managed_ledger_name t)).
Proof.
  intros Hok Ht Hh Habs ->; pose proof (RocksStore.cursor_absent_default _ _ _ Habs) as Hdef.
  pose proof (RocksStore.th_ledger _ _ _ _ Hh) as HL; pose proof (new_cursor_wf _ L _ options HL) as Hwf.
  pose proof (RocksStore.managed_cursor_storable L _ (lh_info _ _ _ HL) (lh_storable _ _ _ HL) Hwf) as Hst.
  destruct (RocksStore.persist_spec w t sub L _ _ Hh Hst) as (s' & Hp & Hh' & Hc').
  exists (mkRocks s' (ledgers w)); split.
  { unfold new_cursor in Hp; case_decide as Hlat; [unfold RocksStore.apply_latest_cursor | unfold RocksStore.persist_empty_cursor];
      rewrite (RocksStore.with_cursor_spec _ _ _ _ _ _ _ _ Hh Hdef); destruct (lac L); by rewrite Hp. }
  pose proof (persist_written t sub w L (new_cursor options L) (RocksStore.th_name _ _ _ _ Hh)) as Hcw; rewrite Hp in Hcw.
  destruct (written_harmless t sub w _ logs L (new_cursor options L) Hcw Hok Ht Hh Hc' Hwf); [|done].
  intros state x Hc _ _; by rewrite (cursor_stored_fun _ _ _ _ _ Hc Hdef).
Qed.

Lemma initialize_harmless t sub options w logs :
  store_ok w logs -> served t -> store_room w 1 0 = true -> start_message_id options = None ->
  exists res L w', RocksStore.initialize_or_open_cursor clock t sub options w = (Ok res, w') /\
    store_ok w' logs /\ harmless w logs w' logs /\ topic_holds w' t L (logs (managed_ledger_name t)) /\
    RocksStore.first_unacked_position clock t sub w' = (Ok (first_unacked res), w').
Proof.
  intros Hok Ht Hroom Hno; destruct (open_harmless t w logs Hok Ht Hroom) as (L & w1 & E1 & Hok1 & Hh1 & HT1 & Hg).
  pose proof (grows_cursor w w1 t sub Hg Ht) as Hkey; cbv zeta in Hkey.
  pose proof (fun A (k : _ -> storage_op bytes A) => on_ledger_opened t w w1 L k E1 (RocksStore.th_cached _ _ _ _ HT1)) as Hopen.
  unfold RocksStore.initialize_or_open_cursor, RocksStore.sbind.
  set (exists_ := bool_decide (is_Some (db (storage w) !!
    managed_cursor_key (managed_ledger_name t) (encode_cursor_name sub)))).
  assert (RocksStore.cursor_exists t sub w = (Ok exists_, w)) as -> by (by destruct w).
  destruct exists_ eqn:Ex; cbn beta iota.
  - destruct (first_unacked_known t sub w1 logs L Hok1 Ht HT1) as [first Hf].
    assert (RocksStore.first_unacked_position clock t sub w = (Ok first, w1)) as Hf0
      by (unfold RocksStore.first_unacked_position, RocksStore.with_cursor in *; by rewrite Hopen).
    rewrite Hf0; by eexists _, L, w1.
  - assert (RocksStore.cursor_absent w1 t sub) as Habs.
    { unfold RocksStore.cursor_absent; rewrite Hkey; apply bool_decide_eq_false in Ex.
      by apply eq_None_not_Some. }
    destruct (new_cursor_harmless t sub options w1 logs L Hok1 Ht HT1 Habs Hno) as (w2 & E2 & Hok2 & Hh2 & HT2).
    destruct (first_unacked_known t sub w2 logs L Hok2 Ht HT2) as [first Hf].
    rewrite Hno in *; replace ((if decide (initial_position options = Latest) then RocksStore.apply_latest_cursor clock t sub
      else RocksStore.persist_empty_cursor clock t sub) w) with (Ok (E := ledger_error) tt, w2).
    + rewrite Hf; eexists _, L, w2; split_and!; [reflexivity | done | by eapply harmless_trans | done | done].
    + rewrite <- E2; unfold RocksStore.apply_latest_cursor, RocksStore.persist_empty_cursor, RocksStore.with_cursor.
      by destruct (decide _); rewrite Hopen.
Qed.
End store.
