(* ===== verification/Topic.v ===== *)
(** * Topics

    [service/topic/topic.rs] and [service/producer.rs]: the record of a topic with
    its producers, its subscriptions and its publish rate, the names of partitions,
    and the way of a non-persistent message from the publisher to the subscriptions.

    The code shares topics and subscriptions by [Arc]; the model has a heap of each,
    and a reference is its address.  A non-persistent publication is queued for the
    topic's fan-out worker, which takes the queue in batches. *)

From Stdlib Require Import Ascii.
From stdpp Require Import pretty.
From S2P Require Import Prelude Position Text LedgerInfo Keys StickyKey Consumer NonPersistent.
From S2P Require Import PublishRate TopicSubscription.

(** Addresses. *)
Abbreviation topic_ref := nat.
Abbreviation sub_ref := nat.
Abbreviation sub_heap := (gmap sub_ref SubscriptionObject).

Record Producer := mkProducer {
  prod_id : Z;
  prod_name : string;
  prod_topic : topic_ref;
  prod_connection_id : string;
}.

Record NonPersistentPublish := mkPublish {
  publish_message_id : MessageId;
  publish_entry : NonPersistentEntry;
  publish_subscriptions : list sub_ref;
}.

Record Topic := mkTopic {
  topic_name : string;
  topic_partition : Z;
  topic_producers : gmap Z Producer;
  topic_subscriptions : gmap string sub_ref;
  topic_mode : RuntimeMode;
  topic_limiter : TopicPublishRateLimiter;
  (** the queue of the fan-out worker *)
  topic_fanout : list NonPersistentPublish;
}.

Definition runtime_mode_from_topic_name (name : string) : RuntimeMode :=
  match parse_topic_name name with
  | Ok parsed => if String.eqb (tn_domain parsed) "non-persistent" then NonPersistent else Persistent
  | Err _ => Persistent
  end.

Definition topic_new (now : Z) (name : string) : Topic :=
  mkTopic name (extract_partition_from_name name) ∅ ∅ (runtime_mode_from_topic_name name) (limiter_new now) [].

Definition set_producers (ps : gmap Z Producer) (t : Topic) : Topic :=
  mkTopic (topic_name t) (topic_partition t) ps (topic_subscriptions t) (topic_mode t) (topic_limiter t) (topic_fanout t).
Definition set_subscriptions (ss : gmap string sub_ref) (t : Topic) : Topic :=
  mkTopic (topic_name t) (topic_partition t) (topic_producers t) ss (topic_mode t) (topic_limiter t) (topic_fanout t).
Definition set_limiter (l : TopicPublishRateLimiter) (t : Topic) : Topic :=
  mkTopic (topic_name t) (topic_partition t) (topic_producers t) (topic_subscriptions t) (topic_mode t) l (topic_fanout t).
Definition set_fanout (q : list NonPersistentPublish) (t : Topic) : Topic :=
  mkTopic (topic_name t) (topic_partition t) (topic_producers t) (topic_subscriptions t) (topic_mode t) (topic_limiter t) q.

Definition set_publish_rate (now : Z) (rate : TopicPublishRate) (t : Topic) : Topic :=
  set_limiter (set_limits now rate (topic_limiter t)) t.

(** A producer with the same id is evicted. *)
Definition add_producer (p : Producer) (t : Topic) : Topic :=
  set_producers (<[prod_id p := p]> (topic_producers t)) t.

Definition remove_producer (id : Z) (t : Topic) : option Producer * Topic :=
  (topic_producers t !! id, set_producers (delete id (topic_producers t)) t).

Definition remove_subscription (name : string) (t : Topic) : option sub_ref * Topic :=
  (topic_subscriptions t !! name, set_subscriptions (delete name (topic_subscriptions t)) t).

(** ** Publishing *)

Definition message_bytes (meta : option (list Z)) (data : list Z) : Z :=
  u64_saturating_add (from_option (fun m => Z.of_nat (length m)) 0 meta) (Z.of_nat (length data)).

(** [false] is [TopicPublishRateExceeded].  The clock stands still while a handler takes
    its step. *)
Definition validate_publish_rate (now : Z) (meta : option (list Z)) (data : list Z) (t : Topic) : bool * Topic :=
  let '(ok, l) := allow_publish now now 1 (message_bytes meta data) (topic_limiter t) in (ok, set_limiter l t).

(** Non-persistent messages have no position of their own. *)
Definition build_non_persistent_publish (meta : option (list Z)) (data : list Z) (t : Topic) : NonPersistentPublish :=
  let m := mkMsgId 0 0 (topic_partition t) in
  mkPublish m (np_create (ledger m) (entry m) (msg_partition m) (default [] meta) data)
    (map_to_list (topic_subscriptions t)).*2.

Inductive publish_error := WrongMode | PublishRateExceeded (topic : string).

Definition prepare_non_persistent_publish (now : Z) (meta : option (list Z)) (data : list Z) (t : Topic)
  : result publish_error NonPersistentPublish * Topic :=
  match topic_mode t with
  | Persistent => (Err WrongMode, t)
  | NonPersistent =>
      match validate_publish_rate now meta data t with
      | (false, t) => (Err (PublishRateExceeded (topic_name t)), t)
      | (true, t) => (Ok (build_non_persistent_publish meta data t), t)
      end
  end.

(** The publication is accepted when it is in the queue. *)
Definition publish_non_persistent (now : Z) (meta : option (list Z)) (data : list Z) (t : Topic)
  : result publish_error MessageId * Topic :=
  match prepare_non_persistent_publish now meta data t with
  | (Err e, t) => (Err e, t)
  | (Ok p, t) => (Ok (publish_message_id p), set_fanout (topic_fanout t ++ [p]) t)
  end.

(** ** The fan-out worker *)

Section fanout.
Context `{MetadataDecoder}.

(** One publication to its subscriptions, one after the other. *)
Definition dispatch_sequential (h : sub_heap) (p : NonPersistentPublish) : sub_heap :=
  foldl (fun h r => alter (send_non_persistent_entries [retained_duplicate (publish_entry p)]) r h) h
    (publish_subscriptions p).

(** The group of the subscription gets the entry, or a new group is made. *)
Fixpoint group_push (r : sub_ref) (e : NonPersistentEntry) (groups : list (sub_ref * list NonPersistentEntry)) : list (sub_ref * list NonPersistentEntry) :=
  match groups with
  | [] => [(r, [e])]
  | (s, es) :: groups => if decide (s = r) then (s, es ++ [e]) :: groups else (s, es) :: group_push r e groups
  end.

Definition group_jobs (jobs : list NonPersistentPublish) : list (sub_ref * list NonPersistentEntry) :=
  foldl (fun groups p =>
    foldl (fun groups r => group_push r (retained_duplicate (publish_entry p)) groups) groups (publish_subscriptions p))
    [] jobs.

Definition dispatch_fanout_jobs (jobs : list NonPersistentPublish) (h : sub_heap) : sub_heap :=
  foldl (fun h g => alter (send_non_persistent_entries g.2) g.1 h) h (group_jobs jobs).

Definition NON_PERSISTENT_FANOUT_BATCH_MAX : nat := 128.

(** The worker: it takes the first job and those that are there by then, up to the
    size of a batch; [windows] says how many there are each time. *)
Fixpoint fanout_worker (windows : list nat) (queue : list NonPersistentPublish) (h : sub_heap) : list NonPersistentPublish * sub_heap :=
  match windows with
  | [] => (queue, h)
  | n :: windows =>
      let k := Nat.min NON_PERSISTENT_FANOUT_BATCH_MAX (S n) in
      fanout_worker windows (drop k queue) (dispatch_fanout_jobs (take k queue) h)
  end.

(** *** Batches and single publications *)

(** What each publication sends where. *)
Definition fanout_events (jobs : list NonPersistentPublish) : list (sub_ref * NonPersistentEntry) :=
  jobs ≫= fun p => (fun r => (r, retained_duplicate (publish_entry p))) <$> publish_subscriptions p.

Lemma foldl_events {A} (f : A -> sub_ref * NonPersistentEntry -> A) jobs a :
  foldl (fun a p => foldl (fun a r => f a (r, retained_duplicate (publish_entry p))) a (publish_subscriptions p)) a jobs
  = foldl f a (fanout_events jobs).
Proof.
  unfold fanout_events; revert a; induction jobs as [|p jobs IH]; intros a; [done |]; rewrite bind_cons, foldl_app, <- IH.
  cbn [foldl]; f_equal; generalize (publish_subscriptions p) as rs; intros rs; revert a.
  induction rs as [|r rs IHr]; intros a; cbn; [done | apply IHr].
Qed.

Definition sent_to (r : sub_ref) (evs : list (sub_ref * NonPersistentEntry)) : list NonPersistentEntry :=
  (filter (fun ev => ev.1 = r) evs).*2.

Lemma sent_to_snoc r evs ev : sent_to r (evs ++ [ev]) = sent_to r evs ++ (if decide (ev.1 = r) then [ev.2] else []).
Proof. unfold sent_to; rewrite filter_app, filter_cons, filter_nil, fmap_app; by destruct (decide _). Qed.

(** The groups: one for each subscription with its entries in order. *)
Definition groups_ok (evs : list (sub_ref * NonPersistentEntry)) (groups : list (sub_ref * list NonPersistentEntry)) : Prop :=
  NoDup groups.*1 /\ forall r es, (r, es) ∈ groups <-> es = sent_to r evs /\ es <> [].

Lemma group_push_fst r e groups : (group_push r e groups).*1 = if decide (r ∈ groups.*1) then groups.*1 else groups.*1 ++ [r].
Proof.
  induction groups as [|[s es] groups IH]; cbn [group_push]; [done |].
  rewrite fmap_cons; cbn [fst]; destruct (decide (s = r)) as [->|Hne]; cbn [fmap list_fmap fst].
  - rewrite decide_True by (by left); done.
  - rewrite IH; destruct (decide (r ∈ groups.*1)); [rewrite decide_True by (by right) | rewrite decide_False]; try done.
    intros [->|?]%elem_of_cons; done.
Qed.

Lemma group_push_elem r e groups s es :
  NoDup groups.*1 ->
  (s, es) ∈ group_push r e groups <->
  if decide (s = r) then ((exists es0, (r, es0) ∈ groups /\ es = es0 ++ [e]) \/ (r ∉ groups.*1) /\ es = [e])
  else (s, es) ∈ groups.
Proof.
  induction groups as [|[s0 es0] groups IH]; cbn [group_push]; intros Hn.
  - rewrite list_elem_of_singleton; destruct (decide (s = r)); split; intros Hx; try set_solver.
  - rewrite fmap_cons in Hn |- *; cbn [fst] in Hn |- *; apply NoDup_cons in Hn as [Hs Hn]; specialize (IH Hn).
    destruct (decide (s0 = r)) as [->|Hne]; rewrite elem_of_cons.
    + assert (forall es', (r, es') ∉ groups) as Hno by (intros es' Hin; by apply Hs, (list_elem_of_fmap_2 fst _ (r, es'))).
      destruct (decide (s = r)) as [->|]; [|rewrite elem_of_cons; naive_solver].
      split; [intros [[= ->]|Hin]; [left; exists es0; split; [by left | done] | by apply Hno in Hin] |].
      intros [(es1 & [[= ->]|Hin]%elem_of_cons & ->)|[Hc _]]; [by left | by apply Hno in Hin | destruct Hc; by left].
    + rewrite IH; destruct (decide (s = r)) as [->|]; [|rewrite elem_of_cons; done].
      setoid_rewrite elem_of_cons; naive_solver.
Qed.

Lemma groups_ok_push r e evs groups :
  groups_ok evs groups -> groups_ok (evs ++ [(r, e)]) (group_push r e groups).
Proof.
  intros [Hn Hg]; split.
  - rewrite group_push_fst; destruct (decide _) as [|Hr]; [done |]; apply NoDup_app; split_and!; [done | | apply NoDup_singleton].
    intros x Hx ->%list_elem_of_singleton; done.
  - assert (r ∈ groups.*1 <-> sent_to r evs <> []) as Hr.
    { split; [intros ([s es] & -> & Hin)%list_elem_of_fmap; by apply Hg in Hin as [-> ?] |].
      intros Hne; apply (list_elem_of_fmap_2' fst _ (r, sent_to r evs)); [by apply Hg | done]. }
    intros s es; rewrite group_push_elem, sent_to_snoc by done; cbn [fst snd].
    destruct (decide (s = r)) as [->|Hne]; [rewrite decide_True by done | rewrite decide_False by done].
    + split.
      * intros [(es0 & [-> ?]%Hg & ->)|[Hno ->]]; [split; [done | by intros []%app_nil] |].
        destruct (sent_to r evs) eqn:Es; [done |]; by destruct Hno; apply Hr.
      * intros [-> _]; destruct (decide (sent_to r evs = [])) as [E|E]; [right; rewrite Hr, E; split; [intros Hx; by apply Hx | done] |].
        left; exists (sent_to r evs); by rewrite Hg.
    + by rewrite app_nil_r, Hg.
Qed.

Lemma groups_of_events evs groups0 evs0 :
  groups_ok evs0 groups0 ->
  groups_ok (evs0 ++ evs) (foldl (fun groups ev => group_push ev.1 ev.2 groups) groups0 evs).
Proof.
  revert groups0 evs0; induction evs as [|[r e] evs IH]; intros groups0 evs0 Hg; cbn [foldl]; [by rewrite app_nil_r |].
  rewrite (cons_middle (r, e)), app_assoc; by apply IH, groups_ok_push.
Qed.

(** A subscription on which batches make no difference. *)
Definition sub_batchable (o : SubscriptionObject) : Prop :=
  forall np d, so_np o = Some np -> npr_dispatcher np = Some d -> batchable d.

Lemma send_batchable es o : sub_batchable o -> sub_batchable (send_non_persistent_entries es o).
Proof.
  unfold send_non_persistent_entries, sub_batchable; intros Ho; destruct (so_mode o); [done |]; cbn.
  intros np d Hnp Hd; destruct (so_np o) as [np0|]; [|done]; injection Hnp as <-; cbn in Hd.
  destruct (npr_dispatcher np0) as [d0|] eqn:Ed; [|done]; injection Hd as <-; specialize (Ho _ _ eq_refl Ed).
  by destruct d0.
Qed.

Lemma npr_send_app es es' r :
  (forall d, npr_dispatcher r = Some d -> batchable d) ->
  npr_send_messages (es ++ es') r = npr_send_messages es' (npr_send_messages es r).
Proof.
  intros Hb; unfold npr_send_messages, npr_set; cbn; destruct (npr_dispatcher r) as [d|]; [|done]; cbn.
  by rewrite np_send_app by auto.
Qed.

Lemma send_snoc es e o :
  sub_batchable o -> send_non_persistent_entries (es ++ [e]) o
  = send_non_persistent_entries [e] (send_non_persistent_entries es o).
Proof.
  unfold sub_batchable, send_non_persistent_entries; intros Ho; destruct (so_mode o) eqn:Em; [by rewrite Em |].
  cbn; rewrite Em; destruct (so_np o) as [np|]; [|done]; unfold set_np; cbn; rewrite npr_send_app; [done | intros d; by apply Ho].
Qed.

Lemma send_one_by_one es o :
  sub_batchable o -> es <> [] ->
  send_non_persistent_entries es o = foldl (fun o e => send_non_persistent_entries [e] o) o es.
Proof.
  intros Ho; induction es as [|e es IH] using rev_ind; [done |]; intros _; destruct (decide (es = [])) as [->|Hne]; [done |].
  by rewrite send_snoc, foldl_app, IH.
Qed.

Definition batchable_heap (h : sub_heap) : Prop := map_Forall (fun _ o => sub_batchable o) h.

Lemma apply_groups (groups : list (sub_ref * list NonPersistentEntry)) (h : sub_heap) (r : sub_ref) :
  NoDup groups.*1 ->
  foldl (fun h g => alter (send_non_persistent_entries g.2) g.1 h) h groups !! r =
  match list_find (fun g => g.1 = r) groups with
  | Some (_, g) => send_non_persistent_entries g.2 <$> h !! r
  | None => h !! r
  end.
Proof.
  revert h; induction groups as [|[s es] groups IH]; intros h Hn; cbn [foldl list_find]; [done |].
  apply NoDup_cons in Hn as [Hs Hn]; rewrite (IH _ Hn); cbn [fst snd]; destruct (decide (s = r)) as [->|Hne].
  - destruct (list_find _ groups) as [[i [s es']]|] eqn:Ef; [|by rewrite lookup_alter_eq].
    apply list_find_Some in Ef as (Ei & Es & _); cbn in Es; subst s.
    destruct Hs; by apply list_elem_of_lookup_2, (list_elem_of_fmap_2 fst) in Ei.
  - rewrite lookup_alter_ne by done; by destruct (list_find _ groups) as [[]|].
Qed.

Lemma events_one_by_one evs (h : sub_heap) (r : sub_ref) :
  foldl (fun h ev => alter (send_non_persistent_entries [ev.2]) ev.1 h) h evs !! r =
  (fun o => foldl (fun o e => send_non_persistent_entries [e] o) o (sent_to r evs)) <$> h !! r.
Proof.
  induction evs as [|[s e] evs IH] using rev_ind; [by cbn; rewrite option_fmap_id |].
  rewrite foldl_app, sent_to_snoc; cbn; destruct (decide (s = r)) as [->|Hne].
  - rewrite lookup_alter_eq, IH; destruct (h !! r); cbn; [by rewrite foldl_app | done].
  - rewrite lookup_alter_ne, IH, app_nil_r by done; done.
Qed.

Lemma dispatch_batch jobs (h : sub_heap) :
  batchable_heap h -> dispatch_fanout_jobs jobs h = foldl dispatch_sequential h jobs.
Proof.
  intros Hh; apply map_eq; intros r.
  unfold dispatch_fanout_jobs, group_jobs; rewrite (foldl_events (fun gs ev => group_push ev.1 ev.2 gs)).
  unfold dispatch_sequential; rewrite (foldl_events (fun h ev => alter (send_non_persistent_entries [ev.2]) ev.1 h)).
  destruct (groups_of_events (fanout_events jobs) [] []) as [Hn Hg].
  { split; [constructor |]; intros s es; split; [by intros ?%elem_of_nil | by intros []]. }
  rewrite apply_groups, events_one_by_one by done; cbn [app] in Hg.
  destruct (h !! r) as [o|] eqn:Eo; [|by destruct (list_find _ _) as [[]|]]; cbn.
  destruct (list_find _ _) as [[i [s es]]|] eqn:Ef; cbn.
  - apply list_find_Some in Ef as (Ei & Es & _); cbn in Es; subst s.
    apply list_elem_of_lookup_2, Hg in Ei as [-> Hne]; f_equal; by apply send_one_by_one, Hne; eapply Hh.
  - destruct (sent_to r (fanout_events jobs)) as [|e es] eqn:Es; [done |].
    apply list_find_None in Ef; rewrite Forall_forall in Ef; exfalso.
    apply (Ef (r, e :: es)); [|done]; apply Hg; by rewrite Es.
Qed.

Lemma sequential_batchable jobs (h : sub_heap) : batchable_heap h -> batchable_heap (foldl dispatch_sequential h jobs).
Proof.
  intros Hh; unfold dispatch_sequential.
  rewrite (foldl_events (fun h ev => alter (send_non_persistent_entries [ev.2]) ev.1 h)).
  revert h Hh; induction (fanout_events jobs) as [|[s e] evs IH]; intros h Hh; cbn; [done |]; apply IH.
  intros r o; rewrite lookup_alter; case_decide as E; [|apply Hh].
  intros (o0 & Eo & ->)%fmap_Some; apply send_batchable; by eapply Hh.
Qed.
End fanout.

(** ** Properties *)

(** C32: The fan-out worker of a non-persistent topic does for every subscription what
    publishing the messages one by one does, however the queue is cut into batches:
    the same deliveries in the same order, the same drops, the same counters.  (A
    key-shared subscription tests its total of permits once for a batch and can
    deliver more.) *)
Theorem fanout_worker_sequential `{MetadataDecoder} (windows : list nat) (queue : list NonPersistentPublish)
    (h : sub_heap) :
  batchable_heap h ->
  let '(rest, h') := fanout_worker windows queue h in
  exists served, queue = served ++ rest /\ h' = foldl dispatch_sequential h served /\
    (length queue <= length windows -> rest = [])%nat.
Proof.
  revert queue h; induction windows as [|n windows IH]; intros queue h Hh; cbn [fanout_worker].
  { exists []; split_and!; [done | done |]; cbn; intros Hl; destruct queue; [done | cbn in Hl; lia]. }
  set (k := Nat.min _ _); specialize (IH (drop k queue) (dispatch_fanout_jobs (take k queue) h)).
  rewrite dispatch_batch in IH |- * by done; specialize (IH (sequential_batchable _ _ Hh)).
  destruct (fanout_worker windows _ _) as [rest h'], IH as (served & Eq & -> & Hrest).
  exists (take k queue ++ served); split_and!.
  - by rewrite <- app_assoc, <- Eq, take_drop.
  - by rewrite foldl_app.
  - intros Hl; apply Hrest; rewrite length_drop; cbn in Hl; unfold k, NON_PERSISTENT_FANOUT_BATCH_MAX; lia.
Qed.

(** *** A concrete topic *)

#[local] Existing Instance batch_metadata.

Definition example_np_sub (t : SubscriptionType) : SubscriptionObject :=
  set_np (Some (npr_set (Some (example_np t)) (npr_new "topic" (-1) t None)))
    (new_with_options "sub" "topic" t NonPersistent None).

Definition example_heap : sub_heap := {[ 0%nat := example_np_sub Shared; 1%nat := example_np_sub Failover ]}.

Definition example_publish (n : Z) (subs : list sub_ref) : NonPersistentPublish :=
  mkPublish (mkMsgId 0 0 (-1)) (example_np_entry n 0) subs.

Lemma example_np_sub_batchable t : batchable (example_np t) -> sub_batchable (example_np_sub t).
Proof.
  intros Hb np d Hnp Hd; change (Some (npr_set (Some (example_np t)) (npr_new "topic" (-1) t None)) = Some np) in Hnp.
  apply (inj Some) in Hnp; subst np; change (Some (example_np t) = Some d) in Hd; apply (inj Some) in Hd; by subst d.
Qed.

Lemma example_heap_batchable : batchable_heap example_heap.
Proof.
  unfold example_heap; intros r o [[_ <-]|[_ [_ <-]%lookup_singleton_Some]]%lookup_insert_Some;
    apply example_np_sub_batchable; vm_compute; exact I.
Qed.

Lemma fanout_worker_sequential_witness :
  let queue := [example_publish 1 [0%nat; 1%nat]; example_publish 2 [1%nat]; example_publish 3 [1%nat; 0%nat]] in
  (fanout_worker [1%nat; 0%nat; 0%nat] queue example_heap).2 = foldl dispatch_sequential example_heap queue.
Proof.
  intros queue; pose proof (fanout_worker_sequential [1%nat; 0%nat; 0%nat] queue example_heap example_heap_batchable) as Hf.
  destruct (fanout_worker _ queue example_heap) as [rest h']; destruct Hf as (served & Eq & Eh & Hr).
  assert (rest = []) as Er by (apply Hr; cbn; lia); cbn [snd]; rewrite Eh.
  assert (served = queue) as Es by (rewrite Eq, Er, app_nil_r; reflexivity); rewrite Es; reflexivity.
Defined.
