(* ===== verification/BrokerService.v ===== *)
(** * The broker service

    [broker_service.rs], [service/topic/partitioned_topic.rs] and the operations of
    [service/topic/topic.rs] that work on more than the topic: the registry of
    topics, the subscriptions of a topic and the dispatch to them.

    The state of the broker has the store, the heaps of the topics and of the
    subscriptions, the registry, the tasks that were spawned and have not run, and
    the requests in the write queue.  Errors of
    the metadata store are only logged by the code, and what it holds is read at the
    start only; it is not part of this state but beside it in [Restart].  The locks are taken in turn: an
    operation runs on the topic it has locked. *)

From S2P Require Import Prelude Position Text CursorRead LedgerInfo MetadataCodec EntryLog RocksLedger Keys StickyKey.
From S2P Require Import Consumer PublishRate Subscription StorageService DurableCursor Effects TopicSubscription Topic.
From S2P Require WriteQueue.

Record PartitionedTopic := mkPartitioned {
  pt_name : string;
  pt_count : Z;
  pt_partitions : list topic_ref;
}.

Inductive TopicRef :=
| NonPartitioned (t : topic_ref)
| Partitioned (p : PartitionedTopic)
| Partition (t : topic_ref).

(** [tokio::spawn] *)
Inductive Task :=
| DispatchTopic (t : topic_ref)
| DispatchSubscription (s : sub_ref).

Record Broker (bytes : Type) := mkBroker {
  br_store : ManagedLedgerStore bytes;
  br_subs : sub_heap;
  br_heap : gmap topic_ref Topic;
  topics : gmap string topic_ref;
  partitioned_topics : gmap string PartitionedTopic;
  partition_metadata : gmap string Z;
  default_partitions : Z;
  publish_rate : TopicPublishRate;
  tasks : list Task;
  write_queue : list WriteQueue.WriteReq;
}.
Arguments mkBroker {_} _ _ _ _ _ _ _ _ _ _.
Arguments br_store {_} _.
Arguments br_subs {_} _.
Arguments br_heap {_} _.
Arguments topics {_} _.
Arguments partitioned_topics {_} _.
Arguments partition_metadata {_} _.
Arguments default_partitions {_} _.
Arguments publish_rate {_} _.
Arguments tasks {_} _.
Arguments write_queue {_} _.

Section broker.
Context {bytes : Type}.

Implicit Types b : Broker bytes.

Definition broker_with_config (store : ManagedLedgerStore bytes) (partitions : Z) : Broker bytes :=
  mkBroker store ∅ ∅ ∅ ∅ ∅ partitions no_rate [] [].

Definition set_store (s : ManagedLedgerStore bytes) b : Broker bytes :=
  mkBroker s (br_subs b) (br_heap b) (topics b) (partitioned_topics b) (partition_metadata b) (default_partitions b)
    (publish_rate b) (tasks b) (write_queue b).
Definition set_subs (h : sub_heap) b : Broker bytes :=
  mkBroker (br_store b) h (br_heap b) (topics b) (partitioned_topics b) (partition_metadata b) (default_partitions b)
    (publish_rate b) (tasks b) (write_queue b).
Definition set_heap (h : gmap topic_ref Topic) b : Broker bytes :=
  mkBroker (br_store b) (br_subs b) h (topics b) (partitioned_topics b) (partition_metadata b) (default_partitions b)
    (publish_rate b) (tasks b) (write_queue b).
Definition set_topics (ts : gmap string topic_ref) b : Broker bytes :=
  mkBroker (br_store b) (br_subs b) (br_heap b) ts (partitioned_topics b) (partition_metadata b) (default_partitions b)
    (publish_rate b) (tasks b) (write_queue b).
Definition set_partitioned (ps : gmap string PartitionedTopic) (md : gmap string Z) b : Broker bytes :=
  mkBroker (br_store b) (br_subs b) (br_heap b) (topics b) ps md (default_partitions b)
    (publish_rate b) (tasks b) (write_queue b).
Definition set_tasks (l : list Task) b : Broker bytes :=
  mkBroker (br_store b) (br_subs b) (br_heap b) (topics b) (partitioned_topics b) (partition_metadata b)
    (default_partitions b) (publish_rate b) l (write_queue b).
Definition set_write_queue (q : list WriteQueue.WriteReq) b : Broker bytes :=
  mkBroker (br_store b) (br_subs b) (br_heap b) (topics b) (partitioned_topics b) (partition_metadata b)
    (default_partitions b) (publish_rate b) (tasks b) q.

Definition spawn (t : Task) b : Broker bytes := set_tasks (tasks b ++ [t]) b.

(** A change of a topic behind its lock. *)
Definition update_topic (t : topic_ref) (f : Topic -> Topic) b : Broker bytes := set_heap (alter f t (br_heap b)) b.

(** [Arc::new(RwLock::new(topic))] with the broker's publish rate. *)
Definition alloc_topic (now : Z) (name : string) b : topic_ref * Broker bytes :=
  let t := fresh (dom (br_heap b)) in
  (t, set_heap (<[t := set_publish_rate now (publish_rate b) (topic_new now name)]> (br_heap b)) b).

Definition restore_partition_metadata (md : gmap string Z) b : Broker bytes :=
  set_partitioned (partitioned_topics b) (md ∪ partition_metadata b) b.

(** ** Topics *)

Definition get_or_create_topic (now : Z) (name : string) b : topic_ref * Broker bytes :=
  match topics b !! name with
  | Some t => (t, b)
  | None => let '(t, b) := alloc_topic now name b in (t, set_topics (<[name := t]> (topics b)) b)
  end.

Definition remove_topic (name : string) b : option topic_ref * Broker bytes :=
  (topics b !! name, set_topics (delete name (topics b)) b).

Definition partition_name (base : string) (i : Z) : string := base +:+ PARTITION_INFIX +:+ show i.

Fixpoint alloc_partitions (now : Z) (base : string) (idxs : list nat) b : list topic_ref * Broker bytes :=
  match idxs with
  | [] => ([], b)
  | i :: idxs =>
      let '(t, b) := alloc_topic now (partition_name base (Z.of_nat i)) b in
      let '(ts, b) := alloc_partitions now base idxs b in (t :: ts, b)
  end.

Definition get_or_create_partitioned_topic (now : Z) (name : string) (count : Z) b : PartitionedTopic * Broker bytes :=
  match partitioned_topics b !! name with
  | Some p => (p, b)
  | None =>
      let '(ts, b) := alloc_partitions now name (seq 0 (Z.to_nat count)) b in
      let p := mkPartitioned name count ts in
      (p, set_partitioned (<[name := p]> (partitioned_topics b)) (<[name := count]> (partition_metadata b)) b)
  end.

Definition get_partition (p : PartitionedTopic) (i : Z) : option topic_ref :=
  if i <? pt_count p then pt_partitions p !! Z.to_nat i else None.

Definition remove_partitioned_topic (name : string) b : option PartitionedTopic * Broker bytes :=
  (partitioned_topics b !! name,
   set_partitioned (delete name (partitioned_topics b)) (delete name (partition_metadata b)) b).

(** [as i32] *)
Definition get_partition_metadata_response_count (name : string) b : Z :=
  match partition_metadata b !! name with
  | Some n => wrap_i32 n
  | None =>
      if bool_decide (is_Some (partitioned_topics b !! name)) || (0 <? default_partitions b)
      then wrap_i32 (default_partitions b) else 0
  end.

Definition should_be_partitioned (name : string) b : bool :=
  bool_decide (is_Some (partition_metadata b !! name)) || bool_decide (is_Some (partitioned_topics b !! name))
  || (0 <? default_partitions b).

Definition get_base_topic_name (name : string) : option string :=
  match rsplit_once PARTITION_INFIX name with
  | Some (base, i) => match parse_u64 i with Some _ => Some base | None => None end
  | None => None
  end.

Definition get_partition_index (name : string) : option Z :=
  match rsplit_once PARTITION_INFIX name with
  | Some (_, i) => parse_u64 i
  | None => None
  end.

Definition is_partition_name (name : string) : bool := bool_decide (is_Some (get_partition_index name)).

(** A whole topic, partitioned or not. *)
Definition get_or_create_whole_topic (now : Z) (name : string) b : TopicRef * Broker bytes :=
  if should_be_partitioned name b
  then let '(p, b) := get_or_create_partitioned_topic now name
                        (default (default_partitions b) (partition_metadata b !! name)) b in (Partitioned p, b)
  else let '(t, b) := get_or_create_topic now name b in (NonPartitioned t, b).

Definition get_or_create_topic_auto (now : Z) (name : string) b : TopicRef * Broker bytes :=
  match get_base_topic_name name, get_partition_index name with
  | Some base, Some i =>
      let count := default (default_partitions b) (partition_metadata b !! base) in
      if 0 <? count then
        let '(p, b) := get_or_create_partitioned_topic now base count b in
        match get_partition p i with
        | Some t => (Partition t, b)
        | None => get_or_create_whole_topic now name b
        end
      else get_or_create_whole_topic now name b
  | _, _ => get_or_create_whole_topic now name b
  end.

(** Topics and partitioned topics that someone else has locked are skipped. *)
Definition set_publish_rate_limits (now : Z) (locked : topic_ref -> bool) (partitioned_locked : string -> bool)
    (rate : TopicPublishRate) b : Broker bytes :=
  let limited t h := if locked t : bool then h else alter (set_publish_rate now rate) t h in
  let h := map_fold (fun _ t h => limited t h) (br_heap b) (topics b) in
  let h := map_fold (fun name p h =>
    if partitioned_locked name : bool then h else foldr limited h (pt_partitions p)) h (partitioned_topics b) in
  mkBroker (br_store b) (br_subs b) h (topics b) (partitioned_topics b) (partition_metadata b) (default_partitions b)
    rate (tasks b) (write_queue b).

(** ** Subscriptions of a topic *)

Definition subscriptions_of (t : Topic) b : list SubscriptionObject :=
  omap (fun x => br_subs b !! x.2) (map_to_list (topic_subscriptions t)).

Definition get_total_consumer_count (t : Topic) b : nat := sum_list (so_get_consumer_count <$> subscriptions_of t b).

Definition topic_find_consumer (id : Z) (t : Topic) b : option (string * Consumer) :=
  head (omap (fun o => pair (so_name o) <$> so_get_consumer id o) (subscriptions_of t b)).

Definition topic_is_idle (t : Topic) b : bool :=
  bool_decide (topic_producers t = ∅) && (get_total_consumer_count t b =? 0)%nat.

Definition ref_is_idle b (t : topic_ref) : bool := from_option (fun t => topic_is_idle t b) true (br_heap b !! t).

Definition partitions_of (p : PartitionedTopic) b : list Topic := omap (fun t => br_heap b !! t) (pt_partitions p).

Definition get_total_producer_count (p : PartitionedTopic) b : nat :=
  sum_list ((fun t => size (topic_producers t)) <$> partitions_of p b).

Definition partitioned_consumer_count (p : PartitionedTopic) b : nat :=
  sum_list ((fun t => get_total_consumer_count t b) <$> partitions_of p b).

Definition get_total_subscription_count (p : PartitionedTopic) b : nat :=
  sum_list ((fun t => size (topic_subscriptions t)) <$> partitions_of p b).

Definition partitioned_is_idle (p : PartitionedTopic) b : bool :=
  (get_total_producer_count p b =? 0)%nat && (partitioned_consumer_count p b =? 0)%nat.

Definition cleanup_idle_topics b : nat * Broker bytes :=
  let busy := filter (fun x => ref_is_idle b x.2 = false) (topics b) in
  ((size (topics b) - size busy)%nat, set_topics busy b).

Definition cleanup_idle_partitioned_topics b : nat * Broker bytes :=
  let busy := filter (fun x => partitioned_is_idle x.2 b = false) (partitioned_topics b) in
  let idle := filter (fun x => partitioned_is_idle x.2 b = true) (partitioned_topics b) in
  (size idle, set_partitioned busy (filter (fun x => idle !! x.1 = None) (partition_metadata b)) b).

Definition cleanup_all_idle_topics b : nat * Broker bytes :=
  let '(n, b) := cleanup_idle_topics b in
  let '(m, b) := cleanup_idle_partitioned_topics b in ((n + m)%nat, b).

(** ** Statistics *)

Record TopicStats := mkTopicStats {
  ts_topic : string;
  ts_producers : nat;
  ts_subscriptions : nat;
  ts_consumers : nat;
}.

Definition topic_get_stats (t : Topic) b : TopicStats :=
  mkTopicStats (topic_name t) (size (topic_producers t)) (size (topic_subscriptions t)) (get_total_consumer_count t b).

Record PartitionedTopicStats := mkPartitionedStats {
  ps_topic : string;
  ps_count : Z;
  ps_partitions : list TopicStats;
  ps_producers : nat;
  ps_consumers : nat;
  ps_subscriptions : nat;
}.

Definition partitioned_get_stats (p : PartitionedTopic) b : PartitionedTopicStats :=
  let l := (fun t => topic_get_stats t b) <$> partitions_of p b in
  mkPartitionedStats (pt_name p) (pt_count p) l (sum_list (ts_producers <$> l)) (sum_list (ts_consumers <$> l))
    (sum_list (ts_subscriptions <$> l)).
End broker.

(** ** Work on the store *)

Section store.
Context {bytes : Type} `{DbCodec bytes} `{MetadataDecoder} (clock : Z -> Z).

Implicit Types b : Broker bytes.

(** An operation on a subscription behind its lock. *)
Definition with_sub {A} (r : sub_ref) (op : sub_op (bytes := bytes) A) : M (Broker bytes) sub_failure A := fun b =>
  match br_subs b !! r with
  | None => Some (Err NoRuntime, b)
  | Some o =>
      match op (o, br_store b) with
      | Some (res, (o, st)) => Some (res, set_store st (set_subs (<[r := o]> (br_subs b)) b))
      | None => None
      end
  end.

Definition alloc_subscription (o : SubscriptionObject) b : sub_ref * Broker bytes :=
  let r := fresh (dom (br_subs b)) in (r, set_subs (<[r := o]> (br_subs b)) b).

(** [PersistentTopicRuntime::open_subscription_cursor] *)
Definition open_subscription_cursor (topic name : string) (options : CursorInitOptions) b
  : result ledger_error CursorOpenResult * Broker bytes :=
  let '(r, st) := initialize_or_open_cursor clock topic name options (br_store b) in (r, set_store st b).

(** An existing subscription keeps its type and policy; a new one is registered after
    its cursor is open. *)
Definition get_or_create_subscription_with_options (tr : topic_ref) (name : string) (t : SubscriptionType)
    (policy : option KeySharedPolicy) (options : CursorInitOptions) : M (Broker bytes) sub_failure sub_ref := fun b =>
  match br_heap b !! tr with
  | None => Some (Err NoRuntime, b)
  | Some topic =>
      let register (o : SubscriptionObject) b :=
        let '(r, b) := alloc_subscription o b in
        Some (Ok r, update_topic tr (set_subscriptions (<[name := r]> (topic_subscriptions topic))) b) in
      match topic_subscriptions topic !! name with
      | Some r => Some (Ok r, b)
      | None =>
          let o := new_with_options name (topic_name topic) t (topic_mode topic) policy in
          match topic_mode topic with
          | NonPersistent => register o b
          | Persistent =>
              match open_subscription_cursor (topic_name topic) name options b with
              | (Err e, b) => Some (Err (OperationFailed (StorageError e)), b)
              | (Ok res, b) => register (so_set_pending_first_unacked (first_unacked res) o) b
              end
          end
      end
  end.

(** [Topic::dispatch_to_subscriptions]: an error is logged. *)
Definition dispatch_to_subscriptions (tr : topic_ref) : M (Broker bytes) sub_failure unit := fun b =>
  match br_heap b !! tr with
  | None => Some (Ok tt, b)
  | Some t =>
      match topic_mode t with
      | NonPersistent => Some (Ok tt, b)
      | Persistent =>
          for_each (map_to_list (topic_subscriptions t)).*2
            (fun r => ignore (with_sub r (so_dispatch_messages clock))) b
      end
  end.

Definition run_task (t : Task) : M (Broker bytes) sub_failure unit :=
  match t with
  | DispatchTopic tr => dispatch_to_subscriptions tr
  | DispatchSubscription r => ignore (with_sub r (so_dispatch_messages clock))
  end.

(** A turn of the fan-out worker of a topic. *)
Definition fanout_turn (tr : topic_ref) (window : nat) b : Broker bytes :=
  match br_heap b !! tr with
  | None => b
  | Some t =>
      let '(rest, h) := fanout_worker [window] (topic_fanout t) (br_subs b) in
      update_topic tr (set_fanout rest) (set_subs h b)
  end.

(** [Producer::publish_message] on a persistent topic: the rate, then the append,
    with the answers of the log and the database. *)
Definition publish_persistent (now : Z) (io : bool * write_outcome) (db_ok : bool) (tr : topic_ref)
    (meta : option (list Z)) (data : list Z) b : result (publish_error + ledger_error) MessageId * Broker bytes :=
  match br_heap b !! tr with
  | None => (Err (inl WrongMode), b)
  | Some t =>
      let '(ok, t) := validate_publish_rate now meta data t in
      let b := update_topic tr (fun _ => t) b in
      if ok then
        let '(r, st) := append_message_with_metadata clock io db_ok (topic_name t) (topic_partition t)
                          (default [] meta) data (br_store b) in
        (match r with Ok m => Ok m | Err e => Err (inr e) end, set_store st b)
      else (Err (inl (PublishRateExceeded (topic_name t))), b)
  end.

(** [Topic::get_last_message_id] *)
Definition topic_get_last_message_id (tr : topic_ref) b : result sub_failure (option MessageId) * Broker bytes :=
  match br_heap b !! tr with
  | None => (Err NoRuntime, b)
  | Some t =>
      match topic_mode t with
      | NonPersistent => (Err Unsupported, b)
      | Persistent =>
          let '(r, st) := get_last_position clock (topic_name t) (br_store b) in
          (match r with
           | Ok p => Ok (message_id_of_position <$> p)
           | Err e => Err (OperationFailed (StorageError e))
           end, set_store st b)
      end
  end.
End store.
