(* ===== verification/Connection.v ===== *)
(** * Connections

    [service/server_cnx.rs] and [handler/]: the state of one connection, the
    handlers of the commands a client sends, keep-alive, the accounts of the
    publications in flight and the cleanup when the connection ends.

    A handler is a computation ([Effects.M]) on the connection and the broker.  The
    connection's consumers are the addresses of their subscriptions, where the
    consumers live; its producers are records.  Writing to the socket takes an
    answer from the list [socket] ([true] when the list is used up), [sent] is what
    was written.  [None] is a handler that still waits, or a loop out of fuel.
    The fields of [ServerCnx] that belong together are records of their own.  The
    consumers put their messages into the channel of the connection
    ([Consumer.delivered] logs them); what is in the channel when the connection
    turns to it is an input of that turn.  The metrics are not modelled. *)

From S2P Require Import Prelude Position Text CursorRead LedgerInfo MetadataCodec EntryLog RocksLedger Keys StickyKey.
From S2P Require Import Consumer Commands Codec PublishRate Subscription StorageService DurableCursor.
From S2P Require Import Effects TopicSubscription Topic BrokerService.
From S2P Require WriteQueue.
Import WriteQueue (ConnAppendResult, car_producer_id, car_sequence_id, car_result).

Inductive CnxState := SStart | SConnecting | SConnected | SFailed | SClosing | SClosed.

#[global] Instance cnx_state_eq_dec : EqDecision CnxState.
Proof. solve_decision. Defined.

Inductive cnx_error :=
| MissingField
| BeforeHandshake
| ConnectionClosing
| SocketFailed
| BadFrame
| UnknownProducerId (id : Z)
| UnknownConsumerId (id : Z)
| ProducerExists (id : Z)
| NotConcrete (topic : string)
| SubscriptionFailed (e : sub_failure)
| PublishFailed (e : publish_error)
| AppendFailed (e : ledger_error).

Inductive CloseReasonKind := KeepAliveKind | LivenessCheckKind.

Inductive CloseReason :=
| ClientClosed
| HandshakeTimeout
| KeepAliveTimeout
| LivenessCheckTimeout
| KeepAliveSendFailed
| ProtocolError (e : cnx_error).

Record ConnectionCheck := mkCheck {
  deadline : Z;
  timeout_reason : CloseReasonKind;
}.

(** What a connection is configured with.  [has_appender]: the store has a write
    queue. *)
Record CnxConfig := mkCnxConfig {
  connection_id : string;
  keep_alive_interval : Z;
  handshake_timeout : Z;
  connection_liveness_check_timeout : Z;
  max_concurrent_non_persistent : Z;
  max_pending_publish_requests : Z;
  max_pending_publish_bytes : Z;
  max_persistent_in_flight : Z;
  max_message_size : Z;
  broker_service_url : string;
  (** the build has the RocksDB store; the store of this broker has a write queue *)
  rocksdb_storage : bool;
  has_appender : bool;
}.

Definition DEFAULT_MAX_PERSISTENT_IN_FLIGHT : Z := 1000.

(** Capacity of the channel the write queue completes to. *)
Definition append_channel_capacity (k : CnxConfig) : Z :=
  Z.max (max_pending_publish_requests k) DEFAULT_MAX_PERSISTENT_IN_FLIGHT.

Definition resume_threshold (k : CnxConfig) : Z := max_pending_publish_requests k / 2.
Definition resume_bytes_threshold (k : CnxConfig) : Z := max_pending_publish_bytes k / 2.

(** The handshake and keep-alive. *)
Record Liveness := mkLiveness {
  state : CnxState;
  handshake_completed : bool;
  last_activity : Z;
  waiting_for_pong : bool;
  remote_protocol_version : Z;
  connection_check_in_progress : option ConnectionCheck;
  close_reason : option CloseReason;
}.

(** The publications in flight. *)
Record SendAccounts := mkAccounts {
  pending_send_requests : Z;
  pending_send_bytes : Z;
  pending_send_sizes : list Z;
  read_paused : bool;
}.

Record ServerCnx := mkCnx {
  config : CnxConfig;
  liveness : Liveness;
  producers : gmap Z Producer;
  consumers : gmap Z sub_ref;
  accounts : SendAccounts;
  conn_append_rx : list ConnAppendResult;
  socket : list bool;
  sent : list outgoing;
}.

Definition cnx_new (now : Z) (k : CnxConfig) (answers : list bool) : ServerCnx :=
  mkCnx k (mkLiveness SStart false now false 0 None None) ∅ ∅ (mkAccounts 0 0 [] false) [] answers [].

Definition set_liveness (l : Liveness) (c : ServerCnx) : ServerCnx :=
  mkCnx (config c) l (producers c) (consumers c) (accounts c) (conn_append_rx c) (socket c) (sent c).
Definition set_cnx_producers (m : gmap Z Producer) (c : ServerCnx) : ServerCnx :=
  mkCnx (config c) (liveness c) m (consumers c) (accounts c) (conn_append_rx c) (socket c) (sent c).
Definition set_cnx_consumers (m : gmap Z sub_ref) (c : ServerCnx) : ServerCnx :=
  mkCnx (config c) (liveness c) (producers c) m (accounts c) (conn_append_rx c) (socket c) (sent c).
Definition set_accounts (a : SendAccounts) (c : ServerCnx) : ServerCnx :=
  mkCnx (config c) (liveness c) (producers c) (consumers c) a (conn_append_rx c) (socket c) (sent c).
Definition set_append_rx (l : list ConnAppendResult) (c : ServerCnx) : ServerCnx :=
  mkCnx (config c) (liveness c) (producers c) (consumers c) (accounts c) l (socket c) (sent c).

(** ** Keep-alive *)

Definition PROTOCOL_V1 : Z := 1.

Definition supports_keep_alive (c : ServerCnx) : bool := PROTOCOL_V1 <=? remote_protocol_version (liveness c).

Definition set_check (waiting : bool) (check : option ConnectionCheck) (l : Liveness) : Liveness :=
  mkLiveness (state l) (handshake_completed l) (last_activity l) waiting (remote_protocol_version l) check (close_reason l).

Definition mark_inbound_activity (now : Z) (c : ServerCnx) : ServerCnx :=
  let l := liveness c in
  set_liveness (mkLiveness (state l) (handshake_completed l) now false (remote_protocol_version l) None (close_reason l)) c.

Definition set_state (s : CnxState) (r : option CloseReason) (c : ServerCnx) : ServerCnx :=
  let l := liveness c in
  set_liveness (mkLiveness s (handshake_completed l) (last_activity l) (waiting_for_pong l) (remote_protocol_version l)
    (connection_check_in_progress l) r) c.

Definition set_failed (r : CloseReason) (c : ServerCnx) : ServerCnx := set_state SFailed (Some r) c.

Definition handle_connection_check_timeout (c : ServerCnx) : bool * ServerCnx :=
  match connection_check_in_progress (liveness c) with
  | None => (false, c)
  | Some check =>
      (true, set_failed (match timeout_reason check with
                         | KeepAliveKind => KeepAliveTimeout
                         | LivenessCheckKind => LivenessCheckTimeout
                         end) c)
  end.

(** ** Publications in flight *)

Definition maybe_pause_read (k : CnxConfig) (a : SendAccounts) : SendAccounts :=
  if (max_pending_publish_requests k <=? pending_send_requests a) || (max_pending_publish_bytes k <=? pending_send_bytes a)
  then mkAccounts (pending_send_requests a) (pending_send_bytes a) (pending_send_sizes a) true
  else a.

Definition maybe_resume_read_after_send (k : CnxConfig) (a : SendAccounts) : SendAccounts :=
  if read_paused a && (pending_send_requests a <=? resume_threshold k)
     && (pending_send_bytes a <=? resume_bytes_threshold k)
  then mkAccounts (pending_send_requests a) (pending_send_bytes a) (pending_send_sizes a) false
  else a.

(** A publication goes into the queue, or is published right away. *)
Definition account_queued (k : CnxConfig) (size : Z) (a : SendAccounts) : SendAccounts :=
  maybe_pause_read k (mkAccounts (pending_send_requests a + 1) (pending_send_bytes a + size)
    (pending_send_sizes a ++ [size]) (read_paused a)).

(** Its completion: the sizes are taken first in, first out. *)
Definition account_completed (k : CnxConfig) (a : SendAccounts) : SendAccounts :=
  maybe_resume_read_after_send k
    (mkAccounts (sat_sub (pending_send_requests a) 1)
       (match pending_send_sizes a with size :: _ => sat_sub (pending_send_bytes a) size | [] => pending_send_bytes a end)
       (tail (pending_send_sizes a)) (read_paused a)).

(** The same for a non-persistent publication, which is not queued. *)
Definition account_started (k : CnxConfig) (size : Z) (a : SendAccounts) : SendAccounts :=
  maybe_pause_read k (mkAccounts (pending_send_requests a + 1) (pending_send_bytes a + size)
    (pending_send_sizes a) (read_paused a)).

Definition account_finished (k : CnxConfig) (size : Z) (a : SendAccounts) : SendAccounts :=
  maybe_resume_read_after_send k (mkAccounts (sat_sub (pending_send_requests a) 1)
    (sat_sub (pending_send_bytes a) size) (pending_send_sizes a) (read_paused a)).

(** ** Handlers *)

(** A field of a command. *)
Definition get_field {A} (f : command_field -> option A) (cmd : BaseCommand) : option A :=
  head (omap f (command_fields cmd)).

Definition message_id_of_data (d : MessageIdData) : MessageId :=
  mkMsgId (id_ledger d) (id_entry d) (default (-1) (id_partition d)).

Definition ack_type_from_proto (n : Z) : AckCommandType := if n =? 1 then Cumulative else Individual.

Definition PULSAR_EARLIEST_MESSAGE_ID : Z := U64_MAX.
Definition PULSAR_LATEST_MESSAGE_ID : Z := I64_MAX.

Definition subscribe_type (n : Z) : SubscriptionType :=
  if n =? 1 then Shared else if n =? 2 then Failover else if n =? 3 then KeyShared else Exclusive.

Definition subscribe_policy (cmd : CommandSubscribe) : option KeySharedPolicy :=
  (fun '(mode, ranges, out_of_order) =>
     mkPolicy (if mode =? 1 then Sticky else AutoSplit) ((fun r => mkRange r.1 r.2) <$> ranges) (default false out_of_order))
  <$> subscribe_key_shared_meta cmd.

(** The two reserved message ids stand for an initial position. *)
Definition cursor_options (cmd : CommandSubscribe) : CursorInitOptions :=
  let asked := if default 0 (subscribe_initial_position cmd) =? 1 then Earliest else Latest in
  match subscribe_start_message_id cmd with
  | None => mkCursorInit asked None
  | Some d =>
      if (id_ledger d =? PULSAR_EARLIEST_MESSAGE_ID) && (id_entry d =? PULSAR_EARLIEST_MESSAGE_ID)
      then mkCursorInit Earliest None
      else if (id_ledger d =? PULSAR_LATEST_MESSAGE_ID) && (id_entry d =? PULSAR_LATEST_MESSAGE_ID)
      then mkCursorInit Latest None
      else mkCursorInit asked (Some (message_id_of_data d))
  end.

Definition subscribe_info (connection : string) (cmd : CommandSubscribe) : ConsumerInfo :=
  Consumer.mkInfo (subscribe_consumer_id cmd)
    (default ("consumer-" +:+ show (subscribe_consumer_id cmd)) (subscribe_consumer_name cmd)) connection
    (default 0 (subscribe_priority_level cmd)) (subscribe_policy cmd).

(** What the world decides while a command is handled: the time, the answers of the
    channel of a new consumer, and those of the log and the database for a
    publication that does not go through the write queue. *)
Record Inputs := mkInputs {
  in_now : Z;
  in_channel : list send_answer;
  in_log : bool * write_outcome;
  in_db : bool;
}.

Section handlers.
Context {bytes : Type} `{DbCodec bytes} `{MetadataDecoder} (clock : Z -> Z).

Definition World : Type := (ServerCnx * Broker bytes)%type.
Abbreviation handler := (M World cnx_error).

Definition get_cnx {A} (f : ServerCnx -> A) : handler A := gets (fun w => f w.1).
Definition get_broker {A} (f : Broker bytes -> A) : handler A := gets (fun w => f w.2).
Definition change_cnx (f : ServerCnx -> ServerCnx) : handler unit := modify (fun w => (f w.1, w.2)).
Definition change_broker (f : Broker bytes -> Broker bytes) : handler unit := modify (fun w => (w.1, f w.2)).
Definition run_broker {A} (f : Broker bytes -> A * Broker bytes) : handler A := fun w =>
  let '(a, b) := f w.2 in Some (Ok a, (w.1, b)).

(** An operation of the broker that can fail. *)
Definition on_broker {A} (m : M (Broker bytes) sub_failure A) : handler A := fun w =>
  match m w.2 with
  | Some (Ok a, b) => Some (Ok a, (w.1, b))
  | Some (Err e, b) => Some (Err (SubscriptionFailed e), (w.1, b))
  | None => None
  end.

(** [framed.send(cmd)] and [framed.feed(cmd)] *)
Definition feed (o : outgoing) : handler unit := fun w =>
  let c := w.1 in
  let write out := mkCnx (config c) (liveness c) (producers c) (consumers c) (accounts c) (conn_append_rx c)
                     (tail (socket c)) out in
  if default true (head (socket c))
  then Some (Ok tt, (write (sent c ++ [o]), w.2))
  else Some (Err SocketFailed, (write (sent c), w.2)).

Definition send (cmd : ServerCommand) : handler unit := feed (OutCommand cmd).

Definition flush : handler unit := fun w =>
  let c := w.1 in
  let c' := mkCnx (config c) (liveness c) (producers c) (consumers c) (accounts c) (conn_append_rx c)
              (tail (socket c)) (sent c) in
  Some (if default true (head (socket c)) then Ok tt else Err SocketFailed, (c', w.2)).

Definition write_message_batch (batch : list outgoing) : handler unit :=
  for_each batch feed ≫= fun _ => flush.

(** *** Connection and lookup *)

Definition SERVER_VERSION : string := "Pulsar-Lite-0.1.0".

Definition connected (now version : Z) (c : ServerCnx) : ServerCnx :=
  set_liveness (mkLiveness SConnected true now false version None (close_reason (liveness c))) c.

Definition handle_connect (i : Inputs) (cmd : BaseCommand) : handler unit :=
  change_cnx (fun c => set_state SConnecting (close_reason (liveness c)) c) ≫= fun _ =>
  let version := default 0 (mjoin (get_field (fun f => match f with FConnect v => Some v | _ => None end) cmd)) in
  send (Connected SERVER_VERSION version) ≫= fun _ =>
  change_cnx (connected (in_now i) version).

Definition handle_ping : handler unit := send Pong.

Definition handle_pong (cmd : BaseCommand) : handler unit :=
  unwrap_or_throw MissingField (get_field (fun f => match f with FPong => Some tt | _ => None end) cmd).

Definition handle_partition_metadata (cmd : BaseCommand) : handler unit :=
  unwrap_or_throw MissingField
    (get_field (fun f => match f with FPartitionMetadata topic r => Some (topic, r) | _ => None end) cmd)
  ≫= fun '(topic, request) =>
  get_broker (get_partition_metadata_response_count topic) ≫= fun n =>
  send (PartitionMetadataResponse request n).

Definition handle_lookup (cmd : BaseCommand) : handler unit :=
  unwrap_or_throw MissingField
    (get_field (fun f => match f with FLookupTopic _ r => Some r | _ => None end) cmd) ≫= fun request =>
  get_cnx (fun c => broker_service_url (config c)) ≫= fun url =>
  send (LookupResponse request url).

(** A client works on a topic that is not partitioned, or on one partition. *)
Definition concrete_topic (i : Inputs) (name : string) : handler topic_ref :=
  run_broker (get_or_create_topic_auto (in_now i) name) ≫= fun t =>
  match t with
  | NonPartitioned t | Partition t => ret t
  | Partitioned _ => throw (NotConcrete name)
  end.

(** *** Producers *)

Definition handle_producer (i : Inputs) (cmd : BaseCommand) : handler unit :=
  unwrap_or_throw MissingField
    (get_field (fun f => match f with FProducer t p r n => Some (t, p, r, n) | _ => None end) cmd)
  ≫= fun '(topic, id, request, asked) =>
  get_cnx (fun c => bool_decide (producers c !! id = None)) ≫= fun free =>
  guard free (ProducerExists id) ≫= fun _ =>
  let name := default ("producer-" +:+ show id) asked in
  concrete_topic i topic ≫= fun t =>
  let p := mkProducer id name t ("conn-" +:+ show id) in
  change_broker (update_topic t (add_producer p)) ≫= fun _ =>
  change_cnx (fun c => set_cnx_producers (<[id := p]> (producers c)) c) ≫= fun _ =>
  send (ProducerSuccess request name id).

Definition release_producer (id : Z) (p : Producer) : handler unit :=
  change_broker (update_topic (prod_topic p) (fun t => (remove_producer id t).2)).

Definition handle_close_producer (cmd : BaseCommand) : handler unit :=
  unwrap_or_throw MissingField
    (get_field (fun f => match f with FCloseProducer p r => Some (p, r) | _ => None end) cmd) ≫= fun '(id, request) =>
  get_cnx (fun c => producers c !! id) ≫= fun p =>
  change_cnx (fun c => set_cnx_producers (delete id (producers c)) c) ≫= fun _ =>
  match p with Some p => release_producer (prod_id p) p | None => skip end ≫= fun _ =>
  send (Success request).

(** *** Consumers *)

Definition handle_subscribe (i : Inputs) (cmd : BaseCommand) : handler unit :=
  unwrap_or_throw MissingField
    (get_field (fun f => match f with FSubscribe s => Some s | _ => None end) cmd) ≫= fun cmd =>
  concrete_topic i (subscribe_topic cmd) ≫= fun t =>
  on_broker (get_or_create_subscription_with_options clock t (subscribe_subscription cmd)
    (subscribe_type (subscribe_sub_type cmd)) (subscribe_policy cmd) (cursor_options cmd)) ≫= fun r =>
  get_cnx (fun c => connection_id (config c)) ≫= fun connection =>
  let consumer := consumer_new (subscribe_info connection cmd) (in_channel i) in
  on_broker (with_sub r (fun w => let '(res, o) := so_add_consumer consumer w.1 in Some (res, (o, w.2)))) ≫= fun _ =>
  change_cnx (fun c => set_cnx_consumers (<[subscribe_consumer_id cmd := r]> (consumers c)) c) ≫= fun _ =>
  send (Success (subscribe_request_id cmd)).

Definition known_consumer (id : Z) : handler sub_ref :=
  get_cnx (fun c => consumers c !! id) ≫= unwrap_or_throw (UnknownConsumerId id).

(** The permits are applied now, the dispatch of a persistent subscription is a task. *)
Definition handle_flow (cmd : BaseCommand) : handler unit :=
  unwrap_or_throw MissingField
    (get_field (fun f => match f with FFlow c n => Some (c, n) | _ => None end) cmd) ≫= fun '(id, permits) =>
  known_consumer id ≫= fun r =>
  on_broker (with_sub r (fun w => Some (Ok (is_persistent w.1), (so_apply_flow_permits id permits w.1, w.2))))
  ≫= fun persistent =>
  when persistent (change_broker (spawn (DispatchSubscription r))).

Definition handle_ack (cmd : BaseCommand) : handler unit :=
  unwrap_or_throw MissingField
    (get_field (fun f => match f with FAck c t ids r => Some (c, t, ids, r) | _ => None end) cmd)
  ≫= fun '(id, ack_type, ids, request) =>
  known_consumer id ≫= fun r =>
  match message_id_of_data <$> ids with
  | [] => skip
  | ids =>
      on_broker (with_sub r (so_message_acked clock id (ack_type_from_proto ack_type) ids)) ≫= fun _ =>
      match request with Some request => send (AckResponse id request) | None => skip end
  end.

Definition handle_redeliver_unacknowledged_messages (cmd : BaseCommand) : handler unit :=
  unwrap_or_throw MissingField
    (get_field (fun f => match f with FRedeliverUnacknowledgedMessages c ids => Some (c, ids) | _ => None end) cmd)
  ≫= fun '(id, ids) =>
  known_consumer id ≫= fun r =>
  on_broker (with_sub r (so_redeliver clock id (message_id_of_data <$> ids))).

(** The subscription is removed from the topic of that name among the topics that
    are not partitioned. *)
Definition unregister_subscription (topic name : string) (b : Broker bytes) : Broker bytes :=
  match topics b !! topic with
  | Some t => update_topic t (fun t => (remove_subscription name t).2) b
  | None => b
  end.

Definition handle_unsubscribe (cmd : BaseCommand) : handler unit :=
  unwrap_or_throw MissingField
    (get_field (fun f => match f with FUnsubscribe c r => Some (c, r) | _ => None end) cmd) ≫= fun '(id, request) =>
  get_cnx (fun c => consumers c !! id) ≫= fun sub =>
  change_cnx (fun c => set_cnx_consumers (delete id (consumers c)) c) ≫= fun _ =>
  match sub with
  | None => skip
  | Some r =>
      on_broker (with_sub r (gets (fun w => (so_topic w.1, so_name w.1)))) ≫= fun '(topic, name) =>
      on_broker (with_sub r (so_unsubscribe_consumer clock id)) ≫= fun _ =>
      change_broker (unregister_subscription topic name)
  end ≫= fun _ =>
  send (Success request).

Definition handle_seek (cmd : BaseCommand) : handler unit :=
  unwrap_or_throw MissingField
    (get_field (fun f => match f with FSeek c r m t => Some (c, r, m, t) | _ => None end) cmd)
  ≫= fun '(id, request, target, publish_time) =>
  get_cnx (fun c => consumers c !! id) ≫= fun sub =>
  match sub, message_id_of_data <$> target, publish_time with
  | None, _, _ => send (Error request ("Unknown consumer ID: " +:+ show id))
  | Some _, None, None => send (Error request "seek requires either message_id or message_publish_time")
  | Some r, target, publish_time =>
      on_broker (with_sub r (match target with
                             | Some m => so_seek_to_message_id clock m
                             | None => so_seek_by_publish_time clock (default 0 publish_time)
                             end)) ≫= fun _ =>
      on_broker (with_sub r (fun w => Some (Ok tt, (so_drain_pending_acks id w.1, w.2)))) ≫= fun _ =>
      send (Success request)
  end.

Definition handle_get_last_message_id (cmd : BaseCommand) : handler unit :=
  unwrap_or_throw MissingField
    (get_field (fun f => match f with FGetLastMessageId c r => Some (c, r) | _ => None end) cmd) ≫= fun '(id, request) =>
  get_cnx (fun c => consumers c !! id) ≫= fun sub =>
  match sub with
  | None => send (Error request ("Unknown consumer ID: " +:+ show id))
  | Some r =>
      on_broker (with_sub r (so_get_last_message_id clock)) ≫= fun last =>
      match last with
      | None => send (Error request "Topic has no messages")
      | Some m => send (LastMessageIdResponse request (ledger m) (entry m) (msg_partition m))
      end
  end.

Definition handle_close_consumer (cmd : BaseCommand) : handler unit :=
  unwrap_or_throw MissingField
    (get_field (fun f => match f with FCloseConsumer c r => Some (c, r) | _ => None end) cmd) ≫= fun '(id, request) =>
  get_cnx (fun c => consumers c !! id) ≫= fun sub =>
  change_cnx (fun c => set_cnx_consumers (delete id (consumers c)) c) ≫= fun _ =>
  match sub with
  | Some r => on_broker (with_sub r (so_remove_with_recovery clock id))
  | None => skip
  end ≫= fun _ =>
  send (Success request).

(** *** Publishing *)

(** A completion from the write queue: the receipt, and a task that dispatches. *)
Definition complete_persistent_send (producer_id sequence_id : Z) (r : result ledger_error MessageId) : handler unit :=
  change_cnx (fun c => set_accounts (account_completed (config c) (accounts c)) c) ≫= fun _ =>
  match r with
  | Err e => throw (AppendFailed e)
  | Ok m =>
      send (SendReceipt producer_id sequence_id (ledger m) (entry m) (msg_partition m)) ≫= fun _ =>
      get_cnx (fun c => producers c !! producer_id) ≫= fun p =>
      match p with
      | Some p => change_broker (spawn (DispatchTopic (prod_topic p)))
      | None => skip
      end
  end.

Definition complete_append (a : ConnAppendResult) : handler unit :=
  change_cnx (fun c => set_append_rx (tail (conn_append_rx c)) c) ≫= fun _ =>
  complete_persistent_send (car_producer_id a) (car_sequence_id a) (car_result a).

(** While too many publications are in flight the handler waits for completions. *)
Definition while_full (m : handler unit) : handler unit :=
  get_cnx (fun c => max_persistent_in_flight (config c) <=? pending_send_requests (accounts c)) ≫= fun full => when full m.

Fixpoint drain_in_flight (rx : list ConnAppendResult) : handler unit :=
  while_full (match rx with
              | [] => fun _ => None
              | a :: rx => complete_append a ≫= fun _ => drain_in_flight rx
              end).

Definition send_rate_error (producer_id sequence_id : Z) (topic : string) : handler unit :=
  send (SendError producer_id sequence_id ServiceNotReady ("Topic publish rate exceeded for '" +:+ topic +:+ "'")).

(** [publish_send] and the receipt, on a non-persistent topic. *)
Definition send_non_persistent (i : Inputs) (p : Producer) (producer_id sequence_id size : Z) (frame : PulsarFrame)
  : handler unit :=
  get_cnx (fun c => max_concurrent_non_persistent (config c) <=? pending_send_requests (accounts c)) ≫= fun full =>
  if full : bool then send (SendReceipt producer_id sequence_id U64_MAX U64_MAX (-1))
  else
    change_cnx (fun c => set_accounts (account_started (config c) size (accounts c)) c) ≫= fun _ =>
    let finish := change_cnx (fun c => set_accounts (account_finished (config c) size (accounts c)) c) in
    run_broker (fun b =>
      match br_heap b !! prod_topic p with
      | None => (Err WrongMode, b)
      | Some t =>
          let '(r, t) := publish_non_persistent (in_now i) (frame_metadata frame) (frame_payload frame) t in
          (r, update_topic (prod_topic p) (fun _ => t) b)
      end) ≫= fun r =>
    match r with
    | Ok m =>
        finally (send (SendReceipt producer_id sequence_id (ledger m) (entry m) (msg_partition m))) finish
    | Err (PublishRateExceeded topic) => finish ≫= fun _ => send_rate_error producer_id sequence_id topic
    | Err e => finish ≫= fun _ => throw (PublishFailed e)
    end.

(** The publication is appended right away: a store without a write queue. *)
Definition send_direct (i : Inputs) (p : Producer) (producer_id sequence_id size : Z) (frame : PulsarFrame) : handler unit :=
  change_cnx (fun c => set_accounts (account_queued (config c) size (accounts c)) c) ≫= fun _ =>
  run_broker (publish_persistent clock (in_now i) (in_log i) (in_db i) (prod_topic p)
    (frame_metadata frame) (frame_payload frame)) ≫= fun r =>
  match r with
  | Ok m =>
      change_broker (spawn (DispatchTopic (prod_topic p))) ≫= fun _ =>
      complete_persistent_send producer_id sequence_id (Ok m)
  | Err e =>
      change_cnx (fun c => set_accounts (account_completed (config c) (accounts c)) c) ≫= fun _ =>
      match e with
      | inl (PublishRateExceeded topic) => send_rate_error producer_id sequence_id topic
      | inl e => throw (PublishFailed e)
      | inr e => throw (AppendFailed e)
      end
  end.

(** The publication goes into the write queue, if there is one. *)
Definition send_queued (i : Inputs) (p : Producer) (producer_id sequence_id size : Z) (frame : PulsarFrame) : handler unit :=
  get_cnx conn_append_rx ≫= fun rx =>
  drain_in_flight rx ≫= fun _ =>
  flush ≫= fun _ =>
  run_broker (fun b =>
    match br_heap b !! prod_topic p with
    | None => (None, b)
    | Some t =>
        let '(ok, t') := validate_publish_rate (in_now i) (frame_metadata frame) (frame_payload frame) t in
        (Some (ok, topic_name t', topic_partition t'), update_topic (prod_topic p) (fun _ => t') b)
    end) ≫= fun checked =>
  match checked with
  | None => throw (PublishFailed WrongMode)
  | Some (false, name, _) => send_rate_error producer_id sequence_id name
  | Some (true, name, partition) =>
      get_cnx config ≫= fun k =>
      if has_appender k then
        let req := WriteQueue.mkReq name partition (default [] (frame_metadata frame)) (frame_payload frame)
                     (WriteQueue.Conn producer_id sequence_id (connection_id k)) in
        change_broker (fun b => set_write_queue (write_queue b ++ [req]) b) ≫= fun _ =>
        change_cnx (fun c => set_accounts (account_queued (config c)
          (Z.of_nat (length (frame_payload frame)) + Z.of_nat (length (default [] (frame_metadata frame)))) (accounts c)) c)
      else send_direct i p producer_id sequence_id size frame
  end.

Definition known_producer (id : Z) : handler Producer :=
  get_cnx (fun c => producers c !! id) ≫= unwrap_or_throw (UnknownProducerId id).

Definition handle_send (i : Inputs) (cmd : BaseCommand) (frame : PulsarFrame) : handler unit :=
  unwrap_or_throw MissingField
    (get_field (fun f => match f with FSend p s => Some (p, s) | _ => None end) cmd) ≫= fun '(producer_id, sequence_id) =>
  known_producer producer_id ≫= fun p =>
  get_broker (fun b => from_option topic_mode Persistent (br_heap b !! prod_topic p)) ≫= fun mode =>
  let size := Z.of_nat (length (default [] (frame_metadata frame))) + Z.of_nat (length (frame_payload frame)) in
  get_cnx config ≫= fun k =>
  if max_message_size k <? size then
    send (SendError producer_id sequence_id NotAllowedError
      ("Exceed maximum message size: " +:+ show size +:+ " > " +:+ show (max_message_size k)))
  else
    match mode with
    | NonPersistent => send_non_persistent i p producer_id sequence_id size frame
    | Persistent =>
        if rocksdb_storage k then send_queued i p producer_id sequence_id size frame
        else send_direct i p producer_id sequence_id size frame
    end.

(** *** Commands *)

Definition before_handshake_ok (t : Z) : bool := (t =? T_CONNECT) || (t =? T_PING) || (t =? T_PONG).

Definition closing (c : ServerCnx) : bool :=
  match state (liveness c) with SFailed | SClosing | SClosed => true | _ => false end.

Definition handle_command (i : Inputs) (cmd : BaseCommand) (frame : PulsarFrame) : handler unit :=
  let t := command_type cmd in
  get_cnx (fun c => handshake_completed (liveness c)) ≫= fun shaken =>
  guard (shaken || before_handshake_ok t) BeforeHandshake ≫= fun _ =>
  get_cnx closing ≫= fun gone =>
  guard (negb gone) ConnectionClosing ≫= fun _ =>
  if t =? T_CONNECT then handle_connect i cmd
  else if t =? T_PARTITIONED_METADATA then handle_partition_metadata cmd
  else if t =? T_LOOKUP then handle_lookup cmd
  else if t =? T_PRODUCER then handle_producer i cmd
  else if t =? T_SEND then handle_send i cmd frame
  else if t =? T_SUBSCRIBE then handle_subscribe i cmd
  else if t =? T_FLOW then handle_flow cmd
  else if t =? T_ACK then handle_ack cmd
  else if t =? T_UNSUBSCRIBE then handle_unsubscribe cmd
  else if t =? T_SEEK then handle_seek cmd
  else if t =? T_GET_LAST_MESSAGE_ID then handle_get_last_message_id cmd
  else if t =? T_REDELIVER then handle_redeliver_unacknowledged_messages cmd
  else if t =? T_PING then handle_ping
  else if t =? T_PONG then handle_pong cmd
  else if t =? T_CLOSE_PRODUCER then handle_close_producer cmd
  else if t =? T_CLOSE_CONSUMER then handle_close_consumer cmd
  else skip.

(** *** Keep-alive *)

Definition start_connection_liveness_check (now : Z) (kind : CloseReasonKind) : handler unit :=
  on_error (send Ping) (change_cnx (set_failed KeepAliveSendFailed)) ≫= fun _ =>
  change_cnx (fun c => set_liveness
    (set_check true (Some (mkCheck (now + connection_liveness_check_timeout (config c)) kind)) (liveness c)) c).

Definition start_explicit_liveness_check (now : Z) : handler unit :=
  get_cnx (fun c => handshake_completed (liveness c) && supports_keep_alive c) ≫= fun alive =>
  when alive (start_connection_liveness_check now LivenessCheckKind).

(** [true] ends the connection. *)
Definition handle_keep_alive_tick (now : Z) : handler bool :=
  get_cnx id ≫= fun c =>
  let l := liveness c in
  match state l with
  | SStart | SConnecting =>
      if negb (handshake_completed l) && (handshake_timeout (config c) <=? now - last_activity l)
      then change_cnx (set_failed HandshakeTimeout) ≫= fun _ => ret true
      else ret false
  | SConnected =>
      if negb (supports_keep_alive c) then ret false
      else if waiting_for_pong l then
        match connection_check_in_progress l with
        | Some _ => ret false
        | None =>
            change_cnx (fun c => set_liveness (set_check (waiting_for_pong (liveness c))
              (Some (mkCheck (now + connection_liveness_check_timeout (config c)) KeepAliveKind)) (liveness c)) c)
            ≫= fun _ => ret false
        end
      else start_connection_liveness_check now KeepAliveKind ≫= fun _ => ret false
  | SFailed | SClosing | SClosed => ret true
  end.

(** *** The end of a connection *)

Definition cleanup : handler unit :=
  get_cnx id ≫= fun c =>
  change_cnx (fun c => mkCnx (config c) (liveness c) ∅ ∅
    (mkAccounts 0 (pending_send_bytes (accounts c)) (pending_send_sizes (accounts c)) false) [] (socket c) (sent c))
  ≫= fun _ =>
  for_each (map_to_list (producers c)) (fun '(id, p) => release_producer id p) ≫= fun _ =>
  for_each (map_to_list (consumers c)) (fun '(id, r) => on_broker (with_sub r (so_remove_with_recovery clock id))).

(** ** The loop

    One turn of the connection's [select!] loop. *)

Context `{CommandCodec}.

Inductive event :=
| EFrame (i : Inputs) (frame : PulsarFrame)
| EFrameError
| EEndOfStream
| ECompletions (n : nat)
| EOutbound (queued : list (Z * PendingMessage))
| ETick (now : Z)
| ECheckTimeout (now : Z).

(** What follows a turn: the next one, the end of the loop with its result, or the
    return of [run] in the middle of the loop. *)
Inductive turn :=
| Continue
| Break (r : result cnx_error unit)
| Return (e : cnx_error).

Definition COMPLETION_BATCH : nat := 128.
Definition OUTBOUND_BATCH : nat := 128.

(** A failed turn: the connection is marked and the loop is left. *)
Definition or_fail (m : handler unit) (w : World) : option (turn * World) :=
  match m w with
  | Some (Ok _, w) => Some (Continue, w)
  | Some (Err e, w) => Some (Break (Err e), (set_failed (ProtocolError e) w.1, w.2))
  | None => None
  end.

Definition run_turn (e : event) (w : World) : option (turn * World) :=
  match e with
  | EFrame i frame =>
      if read_paused (accounts w.1) then None
      else match decode_command (frame_command frame) with
           | None => Some (Return BadFrame, w)
           | Some cmd => or_fail (handle_command i cmd frame) (mark_inbound_activity (in_now i) w.1, w.2)
           end
  | EFrameError => if read_paused (accounts w.1) then None else Some (Return BadFrame, w)
  | EEndOfStream =>
      if read_paused (accounts w.1) then None
      else Some (Break (Ok tt), (set_state (state (liveness w.1))
                   (Some (default ClientClosed (close_reason (liveness w.1)))) w.1, w.2))
  | ECompletions n =>
      match take (Nat.min COMPLETION_BATCH (S n)) (conn_append_rx w.1) with
      | [] => None
      | batch => or_fail (for_each batch complete_append ≫= fun _ => flush) w
      end
  | EOutbound queued =>
      match take OUTBOUND_BATCH queued with
      | [] => None
      | batch => or_fail (write_message_batch ((fun x => ConsumerMessage x.1 x.2) <$> batch)) w
      end
  | ETick now =>
      match handle_keep_alive_tick now w with
      | Some (Ok true, w) => Some (Break (Ok tt), w)
      | Some (Ok false, w) => Some (Continue, w)
      | Some (Err e, w) => Some (Break (Err e), (set_failed (ProtocolError e) w.1, w.2))
      | None => None
      end
  | ECheckTimeout now =>
      match connection_check_in_progress (liveness w.1) with
      | None => None
      | Some check =>
          if deadline check <=? now then
            match handle_connection_check_timeout w.1 with
            | (true, c) => Some (Break (Ok tt), (c, w.2))
            | (false, c) => Some (Continue, (c, w.2))
            end
          else None
      end
  end.

(** After the loop. *)
Definition finish_run (r : result cnx_error unit) (w : World) : option (result cnx_error unit * World) :=
  let c := if decide (state (liveness w.1) = SFailed) then w.1
           else set_state SClosing (close_reason (liveness w.1)) w.1 in
  match cleanup (c, w.2) with
  | None => None
  | Some (r', w) =>
      Some (match r with Err e => Err e | Ok _ => r' end, (set_state SClosed (close_reason (liveness w.1)) w.1, w.2))
  end.
End handlers.
