(* ===== verification/System.v ===== *)
(** * The running broker

    The connections, the spawned tasks, the fan-out workers and the write queue
    together, as a step relation: one step is a turn of the loop of one connection,
    the run of one task, a batch of one fan-out worker, or a round of the write
    queue.  Connection ids are never used twice. *)

From S2P Require Import Prelude Position Text LedgerInfo MetadataCodec EntryLog RocksLedger Keys StickyKey Consumer.
From S2P Require Import Commands Codec StorageService Effects TopicSubscription Topic BrokerService Connection.
From S2P Require RocksStore WriteQueue.
Import RocksStore (Rocks).
Import WriteQueue (WriteReq, ConnAppendResult, worker_env, batch_window, take_batch, run_groups, group_by_ledger, complete).

Section system.
Context {bytes : Type} `{DbCodec bytes} `{MetadataDecoder} `{CommandCodec} (clock : Z -> Z).

Record Sys := mkSys {
  sys_broker : Broker bytes;
  sys_cnxs : gmap string ServerCnx;
  (** ids of connections that have ended *)
  sys_gone : gset string;
}.

Definition sys_start (b : Broker bytes) : Sys := mkSys b ∅ ∅.

Definition push_completion (cnxs : gmap string ServerCnx) (x : string * ConnAppendResult) : gmap string ServerCnx :=
  alter (fun c => set_append_rx (conn_append_rx c ++ [x.2]) c) x.1 cnxs.

(** A round of the write queue: a batch is appended ledger by ledger, and the
    completions go to the connections that are still there. *)
Definition serve_queue (env : worker_env) (round : nat) (b : Broker bytes)
  : list (string * ConnAppendResult) * Broker bytes :=
  match br_store b with
  | MemoryBackend _ => ([], b)
  | RocksDbBackend w =>
      let '(batch, rest) := take_batch (batch_window env round) (write_queue b) in
      let '(results, w) := run_groups clock env round 0 (group_by_ledger batch) w in
      (omap (fun x => complete x.1 x.2) results, set_store (RocksDbBackend w) (set_write_queue rest b))
  end.

Definition write_round (env : worker_env) (round : nat) (s : Sys) : Sys :=
  let '(completions, b) := serve_queue env round (sys_broker s) in
  mkSys b (foldl push_completion (sys_cnxs s) completions) (sys_gone s).

(** What a connection may be configured with. *)
Definition config_ok (k : CnxConfig) : Prop :=
  0 < max_pending_publish_requests k /\ 0 < max_pending_publish_bytes k /\ 0 <= max_message_size k.

#[export] Instance config_ok_dec k : Decision (config_ok k).
Proof. unfold config_ok; apply _. Defined.

(** The commands that clients send. *)
Context (clients : BaseCommand -> bool).

Definition event_ok (e : event) : bool :=
  match e with
  | EFrame _ frame => from_option clients true (decode_command (frame_command frame))
  | _ => true
  end.

Inductive sys_step : Sys -> Sys -> Prop :=
| step_accept s now k answers :
    config_ok k -> sys_cnxs s !! connection_id k = None -> connection_id k ∉ sys_gone s ->
    sys_step s (mkSys (sys_broker s) (<[connection_id k := cnx_new now k answers]> (sys_cnxs s)) (sys_gone s))
| step_turn s id c e c' b' :
    event_ok e = true -> sys_cnxs s !! id = Some c -> run_turn clock e (c, sys_broker s) = Some (Continue, (c', b')) ->
    sys_step s (mkSys b' (<[id := c']> (sys_cnxs s)) (sys_gone s))
| step_break s id c e r w r' c' b' :
    event_ok e = true -> sys_cnxs s !! id = Some c -> run_turn clock e (c, sys_broker s) = Some (Break r, w) ->
    finish_run clock r w = Some (r', (c', b')) ->
    sys_step s (mkSys b' (delete id (sys_cnxs s)) ({[id]} ∪ sys_gone s))
| step_return s id c e err c' b' :
    event_ok e = true -> sys_cnxs s !! id = Some c -> run_turn clock e (c, sys_broker s) = Some (Return err, (c', b')) ->
    sys_step s (mkSys b' (delete id (sys_cnxs s)) ({[id]} ∪ sys_gone s))
| step_task s l1 t l2 r b' :
    tasks (sys_broker s) = l1 ++ t :: l2 ->
    run_task clock t (set_tasks (l1 ++ l2) (sys_broker s)) = Some (r, b') ->
    sys_step s (mkSys b' (sys_cnxs s) (sys_gone s))
| step_fanout s tr window :
    sys_step s (mkSys (fanout_turn tr window (sys_broker s)) (sys_cnxs s) (sys_gone s))
| step_write s env round : sys_step s (write_round env round s).

(** The steps as a function of what happens next. *)
Inductive action :=
| AAccept (now : Z) (k : CnxConfig) (answers : list bool)
| ATurn (id : string) (e : event)
| ATask (n : nat)
| AFanout (tr : topic_ref) (window : nat)
| AWrite (env : worker_env) (round : nat).

Definition perform (a : action) (s : Sys) : option Sys :=
  match a with
  | AAccept now k answers =>
      if decide (config_ok k /\ sys_cnxs s !! connection_id k = None /\ connection_id k ∉ sys_gone s)
      then Some (mkSys (sys_broker s) (<[connection_id k := cnx_new now k answers]> (sys_cnxs s)) (sys_gone s))
      else None
  | ATurn id e =>
      if event_ok e then
        c ← sys_cnxs s !! id;
        '(t, w) ← run_turn clock e (c, sys_broker s);
        match t with
        | Continue => Some (mkSys w.2 (<[id := w.1]> (sys_cnxs s)) (sys_gone s))
        | Break r =>
            '(_, w) ← finish_run clock r w;
            Some (mkSys w.2 (delete id (sys_cnxs s)) ({[id]} ∪ sys_gone s))
        | Return _ => Some (mkSys w.2 (delete id (sys_cnxs s)) ({[id]} ∪ sys_gone s))
        end
      else None
  | ATask n =>
      t ← tasks (sys_broker s) !! n;
      '(_, b) ← run_task clock t (set_tasks (delete n (tasks (sys_broker s))) (sys_broker s));
      Some (mkSys b (sys_cnxs s) (sys_gone s))
  | AFanout tr window => Some (mkSys (fanout_turn tr window (sys_broker s)) (sys_cnxs s) (sys_gone s))
  | AWrite env round => Some (write_round env round s)
  end.

Lemma perform_step a s s' : perform a s = Some s' -> sys_step s s'.
Proof.
  destruct a as [now k answers|id e|n|tr window|env round]; cbn [perform].
  - case_decide as Hd; [|done]; intros [= <-]; destruct Hd as (? & ? & ?); by apply step_accept.
  - destruct (event_ok e) eqn:He; [|done]; intros (c & Hc & ([t [c1 b1]] & Ht & Hs)%bind_Some)%bind_Some; destruct t as [|r|err].
    + injection Hs as <-; by eapply step_turn.
    + apply bind_Some in Hs as ([r' [c2 b2]] & Hf & [= <-]); by eapply step_break.
    + injection Hs as <-; by eapply step_return.
  - intros (t & Ht & ([r b] & Hr & [= <-])%bind_Some)%bind_Some.
    rewrite delete_take_drop in Hr; eapply step_task; [|exact Hr]; symmetry; by apply take_drop_middle.
  - intros [= <-]; apply step_fanout.
  - intros [= <-]; apply step_write.
Qed.

Fixpoint perform_all (l : list action) (s : Sys) : option Sys :=
  match l with
  | [] => Some s
  | a :: l => perform a s ≫= perform_all l
  end.

Lemma perform_all_reachable l s s' : perform_all l s = Some s' -> rtc sys_step s s'.
Proof.
  revert s; induction l as [|a l IH]; cbn [perform_all]; intros s; [intros [= <-]; done |].
  intros (s1 & Hs1%perform_step & Hs2%IH)%bind_Some; by eapply rtc_l.
Qed.

Lemma perform_all_default l s :
  match perform_all l s with Some _ => true | None => false end = true -> rtc sys_step s (default s (perform_all l s)).
Proof. destruct (perform_all l s) as [s'|] eqn:E; [|done]; intros _; by apply (perform_all_reachable l). Qed.
End system.
Arguments mkSys {_} _ _ _.
Arguments sys_broker {_} _.
Arguments sys_cnxs {_} _.
Arguments sys_gone {_} _.

(** A concrete command codec for examples: a command is its place in a list. *)
Definition script_codec (script : list BaseCommand) : CommandCodec := {|
  encode_command c := [command_type c];
  decode_command bs := match bs with [n] => script !! Z.to_nat n | _ => None end;
  encode_metadata m := [sequence_id m];
|}.
