(* ===== verification/FlowControl.v ===== *)
(** * Flow control

    How a connection limits the publications in flight: it stops reading commands
    when there are too many, and reads again when enough completions have come back
    from the write queue. *)

From S2P Require Import Prelude Position Text LedgerInfo MetadataCodec EntryLog RocksLedger Keys StickyKey Consumer.
From S2P Require Import Commands Codec StorageService Subscription Effects TopicSubscription Topic BrokerService.
From S2P Require Import PublishRate Connection System.
From S2P Require WriteQueue.
Import WriteQueue (WriteReq, wr_reply, ConnAppendResult, worker_env, batch_window, take_batch, run_group, run_groups,
  group_by_ledger, complete, batch_completed).

(** ** The accounts of a connection *)

Definition total_size (sizes : list Z) : Z := foldr Z.add 0 sizes.

(** The accounts with [n] publications in flight. *)
Record accounts_ok (k : CnxConfig) (n : nat) (a : SendAccounts) : Prop := {
  ao_requests : pending_send_requests a = Z.of_nat n;
  ao_length : length (pending_send_sizes a) = n;
  ao_bytes : pending_send_bytes a = total_size (pending_send_sizes a);
  ao_sizes : Forall (fun size => 0 <= size) (pending_send_sizes a);
  ao_paused : read_paused a = true ->
    resume_threshold k < pending_send_requests a \/ resume_bytes_threshold k < pending_send_bytes a;
  ao_reading : read_paused a = false ->
    pending_send_requests a < max_pending_publish_requests k /\ pending_send_bytes a < max_pending_publish_bytes k;
  ao_limit : pending_send_requests a <= max_pending_publish_requests k /\
    pending_send_bytes a < max_pending_publish_bytes k + max_message_size k + 1;
}.

Lemma total_size_nonneg sizes : Forall (fun size => 0 <= size) sizes -> 0 <= total_size sizes.
Proof. unfold total_size; induction 1; cbn; lia. Qed.

Lemma total_size_snoc sizes size : total_size (sizes ++ [size]) = total_size sizes + size.
Proof. unfold total_size; induction sizes as [|x sizes IH]; cbn; lia. Qed.

Lemma half_below n : 0 < n -> n / 2 < n.
Proof. intros; apply Z.div_lt; lia. Qed.

Lemma accounts_new k : config_ok k -> accounts_ok k 0 (mkAccounts 0 0 [] false).
Proof. intros (? & ? & ?); split; cbn; try done; lia. Qed.

Lemma queued_ok k n size a :
  config_ok k -> accounts_ok k n a -> read_paused a = false -> 0 <= size <= max_message_size k ->
  accounts_ok k (S n) (account_queued k size a).
Proof.
  intros (Hk1 & Hk2 & Hk3) Ha Hp Hs; unfold account_queued, maybe_pause_read; cbn [pending_send_requests pending_send_bytes].
  pose proof (ao_reading _ _ _ Ha Hp) as [Hr Hb]; pose proof (half_below _ Hk1); pose proof (half_below _ Hk2).
  pose proof (ao_requests _ _ _ Ha); pose proof (ao_length _ _ _ Ha) as Hl; pose proof (ao_bytes _ _ _ Ha).
  assert (Forall (fun z => 0 <= z) (pending_send_sizes a ++ [size])).
  { apply Forall_app; split; [apply (ao_sizes _ _ _ Ha) | constructor; [lia | constructor]]. }
  unfold resume_threshold, resume_bytes_threshold in *.
  destruct (_ || _) eqn:E; split; cbn [pending_send_requests pending_send_bytes pending_send_sizes read_paused];
    rewrite ?length_app, ?total_size_snoc, ?Hl, ?Hp; unfold resume_threshold, resume_bytes_threshold; cbn [length];
    try done; lia.
Qed.

Lemma resume_ok k n a :
  config_ok k ->
  (read_paused a = false -> pending_send_requests a < max_pending_publish_requests k /\
     pending_send_bytes a < max_pending_publish_bytes k) ->
  pending_send_requests a = Z.of_nat n -> length (pending_send_sizes a) = n ->
  pending_send_bytes a = total_size (pending_send_sizes a) -> Forall (fun size => 0 <= size) (pending_send_sizes a) ->
  pending_send_requests a <= max_pending_publish_requests k /\
    pending_send_bytes a < max_pending_publish_bytes k + max_message_size k + 1 ->
  accounts_ok k n (maybe_resume_read_after_send k a).
Proof.
  intros (Hk1 & Hk2 & Hk3) Hread Hr Hl Hb Hs Hm; unfold maybe_resume_read_after_send.
  pose proof (half_below _ Hk1); pose proof (half_below _ Hk2); unfold resume_threshold, resume_bytes_threshold.
  destruct (_ && _) eqn:E.
  - apply andb_prop in E as [[Ep E1]%andb_prop E2]; split; cbn; try done; lia.
  - split; try done; unfold resume_threshold, resume_bytes_threshold; intros Hp; rewrite Hp in E; cbn in E.
    apply andb_false_iff in E as [E|E]; lia.
Qed.

Lemma completed_ok k n a : config_ok k -> accounts_ok k (S n) a -> accounts_ok k n (account_completed k a).
Proof.
  intros Hk [Hr Hl Hb Hs Hp Hd Hm]; unfold account_completed; destruct (pending_send_sizes a) as [|z sizes]; [done |].
  apply Forall_cons in Hs as [Hz Hs]; pose proof (total_size_nonneg _ Hs).
  change (total_size (z :: sizes)) with (z + total_size sizes) in Hb; cbn in Hl.
  apply resume_ok; cbn [pending_send_requests pending_send_bytes pending_send_sizes read_paused tail]; try done;
    unfold sat_sub in *; [intros Hf; specialize (Hd Hf) | | ..]; lia.
Qed.

(** A publication that is started and finished in one turn. *)
Lemma started_finished_ok k n size a :
  config_ok k -> accounts_ok k n a -> read_paused a = false -> 0 <= size ->
  accounts_ok k n (account_finished k size (account_started k size a)).
Proof.
  intros Hk [Hr Hl Hb Hs Hp Hd Hm] Hpf Hz; specialize (Hd Hpf); pose proof (total_size_nonneg _ Hs).
  unfold account_finished, account_started, maybe_pause_read; cbn [pending_send_requests pending_send_bytes].
  destruct (_ || _); apply resume_ok; cbn [pending_send_requests pending_send_bytes pending_send_sizes read_paused];
    try done; unfold sat_sub; intros; lia.
Qed.

Lemma completed_reading k a : read_paused a = false -> read_paused (account_completed k a) = false.
Proof. unfold account_completed, maybe_resume_read_after_send; intros ->; done. Qed.

(** ** The publications of a connection in flight *)

Section world.
Context {bytes : Type} `{DbCodec bytes} `{MetadataDecoder} `{CommandCodec} (clock : Z -> Z).

Abbreviation handler := (M (World (bytes := bytes)) cnx_error).

Definition replies_to (id : string) (r : WriteReq) : bool :=
  match wr_reply r with WriteQueue.Conn _ _ c => String.eqb c id | WriteQueue.Oneshot => false end.

Definition queued_for (id : string) (b : Broker bytes) : nat :=
  length (filter (fun r => replies_to id r = true) (write_queue b)).

Definition in_flight (c : ServerCnx) (b : Broker bytes) : nat :=
  (queued_for (connection_id (config c)) b + length (conn_append_rx c))%nat.

Definition flow_ok (w : World) : Prop :=
  config_ok (config w.1) /\ accounts_ok (config w.1) (in_flight w.1 w.2) (accounts w.1).

(** Nothing about publications changes. *)
Record quiet (w w' : World (bytes := bytes)) : Prop := {
  qt_config : config w'.1 = config w.1;
  qt_accounts : accounts w'.1 = accounts w.1;
  qt_rx : conn_append_rx w'.1 = conn_append_rx w.1;
  qt_queue : write_queue w'.2 = write_queue w.2;
}.

#[local] Instance quiet_preorder : PreOrder quiet.
Proof.
  split; [by split |]; intros w1 w2 w3 [A B C D] [A' B' C' D']; split; congruence.
Qed.

(** The same for the broker alone. *)
Definition same_queue (b b' : Broker bytes) : Prop := write_queue b' = write_queue b.

#[local] Instance same_queue_preorder : PreOrder same_queue.
Proof. split; [done |]; unfold same_queue; congruence. Qed.

Lemma quiet_flow w w' : quiet w w' -> flow_ok w -> flow_ok w'.
Proof. intros [A B C D]; unfold flow_ok, in_flight, queued_for; rewrite A, B, C, D; done. Qed.

Lemma quiet_change_cnx f :
  (forall c, config (f c) = config c /\ accounts (f c) = accounts c /\ conn_append_rx (f c) = conn_append_rx c) ->
  keeps quiet (change_cnx (bytes := bytes) f).
Proof. intros Hf; apply keeps_modify; intros w; destruct (Hf w.1) as (A & B & C); by split. Qed.

Lemma quiet_change_broker f : (forall b, same_queue b (f b)) -> keeps quiet (change_broker (bytes := bytes) f).
Proof. intros Hf; apply keeps_modify; intros w; split; try done; apply Hf. Qed.

Lemma quiet_run_broker {A} (f : Broker bytes -> A * Broker bytes) :
  (forall b, same_queue b (f b).2) -> keeps quiet (run_broker f).
Proof.
  intros Hf w r w'; unfold run_broker; specialize (Hf w.2); destruct (f w.2) as [a b]; intros [= _ <-]; by split.
Qed.

Lemma quiet_on_broker {A} (m : M (Broker bytes) sub_failure A) : keeps same_queue m -> keeps quiet (on_broker m).
Proof.
  intros Hm w r w'; unfold on_broker; destruct (m w.2) as [[[a|e] b]|] eqn:E; [| |done]; intros [= _ <-];
    (split; [done | done | done |]); by eapply Hm.
Qed.

Lemma quiet_feed o : keeps quiet (feed (bytes := bytes) o).
Proof. intros w r w'; unfold feed; destruct (default _ _); intros [= _ <-]; by split. Qed.

Lemma quiet_send cmd : keeps quiet (send (bytes := bytes) cmd).
Proof. apply quiet_feed. Qed.

Lemma quiet_flush : keeps quiet (flush (bytes := bytes)).
Proof. intros w r w' [= _ <-]; by split. Qed.

Lemma queue_with_sub {A} r (op : sub_op (bytes := bytes) A) : keeps same_queue (with_sub r op).
Proof.
  intros b res b'; unfold with_sub; destruct (br_subs b !! r) as [o|]; [|by intros [= _ <-]].
  destruct (op _) as [[res' [o' st]]|]; [|done]; by intros [= _ <-].
Qed.

Lemma queue_alloc_topic now name b : same_queue b (alloc_topic now name b).2.
Proof. done. Qed.

Lemma queue_alloc_partitions now base idxs b : same_queue b (alloc_partitions now base idxs b).2.
Proof.
  revert b; induction idxs as [|i idxs IH]; intros b; cbn [alloc_partitions]; [done |].
  destruct (alloc_topic _ _ b) as [t b1] eqn:E1; destruct (alloc_partitions now base idxs b1) as [ts b2] eqn:E2; cbn.
  transitivity b1; [pose proof (queue_alloc_topic now (partition_name base (Z.of_nat i)) b) as Hq; by rewrite E1 in Hq |].
  specialize (IH b1); by rewrite E2 in IH.
Qed.

Lemma queue_whole_topic now name b : same_queue b (get_or_create_whole_topic now name b).2.
Proof.
  unfold get_or_create_whole_topic, get_or_create_partitioned_topic, get_or_create_topic.
  destruct (should_be_partitioned name b); [destruct (partitioned_topics b !! name) | destruct (topics b !! name)]; try done.
  set (idxs := seq _ _); pose proof (queue_alloc_partitions now name idxs b) as Hq.
  by destruct (alloc_partitions now name idxs b).
Qed.

Lemma queue_partitioned_topic now name n b : same_queue b (get_or_create_partitioned_topic now name n b).2.
Proof.
  unfold get_or_create_partitioned_topic; destruct (partitioned_topics b !! name); [done |].
  set (idxs := seq _ _); pose proof (queue_alloc_partitions now name idxs b) as Hq.
  by destruct (alloc_partitions now name idxs b).
Qed.

Lemma queue_topic_auto now name b : same_queue b (get_or_create_topic_auto now name b).2.
Proof.
  unfold get_or_create_topic_auto; destruct (get_base_topic_name name) as [base|]; [|apply queue_whole_topic].
  destruct (get_partition_index name) as [i|]; [|apply queue_whole_topic]; set (n := default _ _).
  destruct (0 <? n); [|apply queue_whole_topic]; pose proof (queue_partitioned_topic now base n b) as Hq.
  destruct (get_or_create_partitioned_topic now base n b) as [p b1]; destruct (get_partition p i); [done |].
  etransitivity; [exact Hq | apply queue_whole_topic].
Qed.

Lemma queue_subscription tr name t policy options :
  keeps same_queue (get_or_create_subscription_with_options clock tr name t policy options).
Proof.
  intros b r b'; unfold get_or_create_subscription_with_options, open_subscription_cursor.
  destruct (br_heap b !! tr) as [topic|]; [|by intros [= _ <-]].
  destruct (topic_subscriptions topic !! name); [by intros [= _ <-] |].
  destruct (topic_mode topic); [|by intros [= _ <-]].
  destruct (initialize_or_open_cursor _ _ _ _ _) as [[res|e] st]; by intros [= _ <-].
Qed.

Lemma queue_publish_persistent now io db_ok tr meta data b :
  same_queue b (publish_persistent clock now io db_ok tr meta data b).2.
Proof.
  unfold publish_persistent; destruct (br_heap b !! tr) as [t|]; [|done].
  destruct (validate_publish_rate _ _ _ _) as [[] t']; [|done]; by destruct (append_message_with_metadata _ _ _ _ _ _ _ _).
Qed.

#[local] Hint Resolve quiet_send quiet_flush queue_with_sub queue_subscription : keeps.
#[local] Hint Resolve quiet_on_broker : keeps.
#[local] Hint Extern 2 (keeps quiet (change_cnx _)) => apply quiet_change_cnx; done : keeps.
#[local] Hint Extern 2 (keeps quiet (change_broker _)) => apply quiet_change_broker; done : keeps.
#[local] Hint Extern 3 (keeps _ (match ?x with _ => _ end)) => destruct x : keeps.
#[local] Hint Extern 1 (keeps ?R (get_cnx _)) => apply (keeps_gets R) : keeps.
#[local] Hint Extern 1 (keeps ?R (get_broker _)) => apply (keeps_gets R) : keeps.

Lemma quiet_concrete_topic i name : keeps quiet (concrete_topic (bytes := bytes) i name).
Proof.
  apply (keeps_bind quiet); [apply quiet_run_broker; intros b; apply queue_topic_auto |]; intros []; eauto with keeps.
Qed.
#[local] Hint Resolve quiet_concrete_topic : keeps.

Lemma quiet_known_consumer id : keeps quiet (known_consumer (bytes := bytes) id).
Proof. unfold known_consumer; eauto with keeps. Qed.
#[local] Hint Resolve quiet_known_consumer : keeps.

Lemma quiet_connect i cmd : keeps quiet (handle_connect (bytes := bytes) i cmd).
Proof. unfold handle_connect; eauto 10 with keeps. Qed.

Lemma quiet_producer i cmd : keeps quiet (handle_producer (bytes := bytes) i cmd).
Proof. unfold handle_producer; eauto 20 with keeps. Qed.

Lemma quiet_subscribe i cmd : keeps quiet (handle_subscribe clock i cmd).
Proof. unfold handle_subscribe; eauto 20 with keeps. Qed.

Lemma quiet_unsubscribe cmd : keeps quiet (handle_unsubscribe clock cmd).
Proof.
  unfold handle_unsubscribe; apply (keeps_bind quiet); [eauto with keeps |]; intros [id request].
  repeat (apply (keeps_bind quiet); [eauto with keeps | intros ?]); [|eauto with keeps].
  destruct a as [r|]; [|eauto with keeps]; apply (keeps_bind quiet); [eauto with keeps |]; intros [topic name].
  apply (keeps_bind quiet); [eauto with keeps |]; intros _; apply quiet_change_broker; intros b; unfold unregister_subscription.
  by destruct (topics b !! topic).
Qed.

Lemma quiet_others cmd :
  keeps quiet (handle_partition_metadata (bytes := bytes) cmd) /\ keeps quiet (handle_lookup (bytes := bytes) cmd) /\
  keeps quiet (handle_flow (bytes := bytes) cmd) /\ keeps quiet (handle_ack clock cmd) /\
  keeps quiet (handle_seek clock cmd) /\ keeps quiet (handle_get_last_message_id clock cmd) /\
  keeps quiet (handle_redeliver_unacknowledged_messages clock cmd) /\ keeps quiet (handle_ping (bytes := bytes)) /\
  keeps quiet (handle_pong (bytes := bytes) cmd) /\ keeps quiet (handle_close_producer (bytes := bytes) cmd) /\
  keeps quiet (handle_close_consumer clock cmd).
Proof.
  unfold handle_partition_metadata, handle_lookup, handle_flow, handle_ack, handle_seek, handle_get_last_message_id,
    handle_redeliver_unacknowledged_messages, handle_ping, handle_pong, handle_close_producer, handle_close_consumer,
    release_producer.
  split_and!; eauto 20 with keeps.
Qed.

(** *** Handlers that change the accounts *)

(** The accounts change by [f], the publications in flight do not. *)
Record acts (f : CnxConfig -> SendAccounts -> SendAccounts) (w w' : World (bytes := bytes)) : Prop := {
  act_config : config w'.1 = config w.1;
  act_accounts : accounts w'.1 = f (config w.1) (accounts w.1);
  act_rx : conn_append_rx w'.1 = conn_append_rx w.1;
  act_queue : write_queue w'.2 = write_queue w.2;
}.

Lemma acts_quiet w w' : acts (fun _ a => a) w w' <-> quiet w w'.
Proof. split; intros []; by split. Qed.

Lemma quiet_acts {A} (m : handler A) : keeps quiet m -> keeps (acts (fun _ a => a)) m.
Proof. intros Hm w r w' E; apply acts_quiet; by eapply Hm. Qed.

Lemma acts_change {A} f g (k : unit -> handler A) :
  keeps (acts g) (k tt) ->
  keeps (acts (fun c a => g c (f c a))) (change_cnx (fun c => set_accounts (f (config c) (accounts c)) c) ≫= k).
Proof. intros Hk w r w' E; destruct (Hk _ _ _ E) as [A1 A2 A3 A4]; by split. Qed.

Lemma acts_run {A B} g (f : Broker bytes -> A * Broker bytes) (k : A -> handler B) :
  (forall b, same_queue b (f b).2) -> (forall a, keeps (acts g) (k a)) -> keeps (acts g) (run_broker f ≫= k).
Proof.
  intros Hf Hk w r w'; unfold run_broker, mbind, M_bind; specialize (Hf w.2); destruct (f w.2) as [a b]; intros E.
  destruct (Hk _ _ _ _ E) as [A1 A2 A3 A4]; split; try done; by rewrite A4.
Qed.

Lemma acts_broker {A} g (f : Broker bytes -> Broker bytes) (k : unit -> handler A) :
  (forall b, same_queue b (f b)) -> keeps (acts g) (k tt) -> keeps (acts g) (change_broker f ≫= k).
Proof. intros Hf Hk w r w' E; destruct (Hk _ _ _ E) as [A1 A2 A3 A4]; split; try done; rewrite A4; apply Hf. Qed.

Lemma acts_finally f (m : handler unit) :
  keeps quiet m ->
  keeps (acts f) (finally m (change_cnx (fun c => set_accounts (f (config c) (accounts c)) c))).
Proof.
  intros Hm w r w'; unfold finally; destruct (m w) as [[r1 w1]|] eqn:E1; [|done]; cbn; intros [= _ <-].
  destruct (Hm _ _ _ E1) as [A1 A2 A3 A4]; split; cbn; congruence.
Qed.

Lemma flow_acts f n w w' :
  acts f w w' -> config_ok (config w.1) -> accounts_ok (config w.1) n (accounts w.1) ->
  (accounts_ok (config w.1) n (accounts w.1) -> accounts_ok (config w.1) (in_flight w.1 w.2) (f (config w.1) (accounts w.1))) ->
  flow_ok w'.
Proof.
  intros [A1 A2 A3 A4] Hk Ha Hf; unfold flow_ok, in_flight, queued_for; rewrite A1, A2, A3, A4; split; [done | by apply Hf].
Qed.

#[local] Hint Extern 1 (keeps quiet (send_rate_error _ _ _)) => apply quiet_send : keeps.

Lemma send_direct_acts i p producer_id sequence_id size frame :
  keeps (acts (fun c a => account_completed c (account_queued c size a)))
    (send_direct clock i p producer_id sequence_id size frame).
Proof.
  unfold send_direct; apply (acts_change (fun c a => account_queued c size a) account_completed).
  apply acts_run; [intros b; apply queue_publish_persistent |]; intros [m|e].
  - apply acts_broker; [done |]; unfold complete_persistent_send.
    apply (acts_change account_completed (fun _ a => a)), quiet_acts; eauto 10 with keeps.
  - apply (acts_change account_completed (fun _ a => a)), quiet_acts; destruct e as [[]|]; eauto with keeps.
Qed.

Lemma send_non_persistent_acts i p producer_id sequence_id size frame w r w' :
  send_non_persistent (bytes := bytes) i p producer_id sequence_id size frame w = Some (r, w') ->
  quiet w w' \/ acts (fun c a => account_finished c size (account_started c size a)) w w'.
Proof.
  unfold send_non_persistent; unfold mbind at 1, M_bind at 1, get_cnx at 1, gets at 1.
  destruct (_ <=? _); intros E; [left; by eapply quiet_send | right].
  revert E; apply (acts_change (fun c a => account_started c size a) (fun c a => account_finished c size a)).
  apply acts_run.
  { intros b; destruct (br_heap b !! prod_topic p) as [t|]; [|done].
    by destruct (publish_non_persistent _ _ _ t). }
  intros [m|[|topic]].
  - apply acts_finally; eauto with keeps.
  - apply (acts_change (fun c a => account_finished c size a) (fun _ a => a)), quiet_acts; eauto with keeps.
  - apply (acts_change (fun c a => account_finished c size a) (fun _ a => a)), quiet_acts; eauto with keeps.
Qed.

(** A completion that is waiting is processed. *)
Record drained (w w' : World (bytes := bytes)) : Prop := {
  dr_config : config w'.1 = config w.1;
  dr_flow : flow_ok w -> flow_ok w';
  dr_reading : read_paused (accounts w.1) = false -> read_paused (accounts w'.1) = false;
  dr_queue : write_queue w'.2 = write_queue w.2;
}.

#[local] Instance drained_preorder : PreOrder drained.
Proof. split; [by split |]; intros w1 w2 w3 [A1 A2 A3 A4] [B1 B2 B3 B4]; split; try congruence; auto. Qed.

Lemma quiet_drained w w' : quiet w w' -> drained w w'.
Proof. intros Hq; pose proof Hq as [A1 A2 A3 A4]; split; try done; [by apply quiet_flow | by rewrite A2]. Qed.

Lemma complete_append_drains a w r w' :
  conn_append_rx w.1 <> [] -> complete_append a w = Some (r, w') ->
  drained w w' /\ conn_append_rx w'.1 = tail (conn_append_rx w.1).
Proof.
  intros Hne E; unfold complete_append in E; cbn in E; unfold complete_persistent_send in E.
  eapply (acts_change account_completed (fun _ a => a)) in E.
  2: { apply quiet_acts; eauto 10 with keeps. }
  destruct E as [A1 A2 A3 A4]; cbn in A1, A2, A3, A4; split; [|done]; split; [done | | |done].
  - intros [Hk Ha]; unfold flow_ok, in_flight, queued_for in *; rewrite A1, A2, A3, A4; split; [done |].
    apply completed_ok; [done |]; destruct (conn_append_rx w.1) as [|x rx]; [done |]; cbn in Ha |- *.
    by rewrite Nat.add_succ_r in Ha.
  - rewrite A2; apply completed_reading.
Qed.

Lemma drain_in_flight_drains rx w r w' :
  conn_append_rx w.1 = rx -> drain_in_flight rx w = Some (r, w') -> drained w w'.
Proof.
  revert w; induction rx as [|a rx IH]; intros w Hrx; cbn [drain_in_flight]; unfold while_full.
  - unfold mbind at 1, M_bind at 1, get_cnx, gets; destruct (_ <=? _); [done |]; by intros [= _ <-].
  - unfold mbind at 1, M_bind at 1, get_cnx, gets; destruct (_ <=? _); [|by intros [= _ <-]].
    intros [(x & w1 & E1 & E2)|(e & w1 & E1 & [= -> ->])]%bind_inv; apply complete_append_drains in E1 as [Hd Hr];
      rewrite ?Hrx; try done.
    etransitivity; [exact Hd |]; eapply IH; [|exact E2]; by rewrite Hr, Hrx.
Qed.

Lemma batch_drains batch rest w r w' :
  conn_append_rx w.1 = batch ++ rest -> for_each batch complete_append w = Some (r, w') -> drained w w'.
Proof.
  revert w; induction batch as [|a batch IH]; intros w Hrx; cbn [for_each]; [by intros [= _ <-] |].
  intros [(x & w1 & E1 & E2)|(e & w1 & E1 & [= -> ->])]%bind_inv; apply complete_append_drains in E1 as [Hd Hr];
    rewrite ?Hrx; try done.
  etransitivity; [exact Hd |]; eapply IH; [|exact E2]; by rewrite Hr, Hrx.
Qed.

(** *** A turn of the loop *)

(** What a turn of a connection leaves: its accounts in order, and the queue as it
    was for the other connections. *)
Record turn_ok (w w' : World (bytes := bytes)) : Prop := {
  tk_config : config w'.1 = config w.1;
  tk_flow : flow_ok w';
  tk_others : forall id, id <> connection_id (config w.1) -> queued_for id w'.2 = queued_for id w.2;
}.

Lemma turn_quiet w w' : flow_ok w -> quiet w w' -> turn_ok w w'.
Proof.
  intros Hf Hq; pose proof Hq as [A1 A2 A3 A4]; split; [done | by eapply quiet_flow |].
  intros; unfold queued_for; by rewrite A4.
Qed.

Lemma turn_drained w w' : flow_ok w -> drained w w' -> turn_ok w w'.
Proof. intros Hf [A1 A2 A3 A4]; split; [done | auto |]; intros; unfold queued_for; by rewrite A4. Qed.

Lemma turn_acts f w w' :
  flow_ok w -> acts f w w' -> accounts_ok (config w.1) (in_flight w.1 w.2) (f (config w.1) (accounts w.1)) -> turn_ok w w'.
Proof.
  intros [Hk Ha] [A1 A2 A3 A4] Hf; split; [done | |].
  - unfold flow_ok, in_flight, queued_for in *; by rewrite A1, A2, A3, A4.
  - intros; unfold queued_for; by rewrite A4.
Qed.

Lemma turn_trans w1 w2 w3 : turn_ok w1 w2 -> turn_ok w2 w3 -> turn_ok w1 w3.
Proof.
  intros [A1 A2 A3] [B1 B2 B3]; split; [congruence | done |]; intros id Hid.
  rewrite B3, A3; by rewrite ?A1.
Qed.

Lemma queued_snoc id req (b : Broker bytes) :
  queued_for id (set_write_queue (write_queue b ++ [req]) b) = (queued_for id b + if replies_to id req then 1 else 0)%nat.
Proof.
  unfold queued_for; change (write_queue (set_write_queue ?q _)) with q; rewrite filter_app, length_app; f_equal.
  rewrite filter_cons, filter_nil; by destruct (replies_to id req).
Qed.

(** Queueing a publication of the connection. *)
Lemma turn_queued req size w :
  flow_ok w -> read_paused (accounts w.1) = false -> 0 <= size <= max_message_size (config w.1) ->
  (exists p s, wr_reply req = WriteQueue.Conn p s (connection_id (config w.1))) ->
  turn_ok w (set_accounts (account_queued (config w.1) size (accounts w.1)) w.1,
             set_write_queue (write_queue w.2 ++ [req]) w.2).
Proof.
  intros [Hk Ha] Hp Hs (p & s & Hr); split; [done | |].
  - split; [done |]; cbn [fst snd config accounts set_accounts].
    replace (in_flight _ _) with (S (in_flight w.1 w.2)); [by apply queued_ok |].
    unfold in_flight; cbn [config conn_append_rx set_accounts]; rewrite queued_snoc; unfold replies_to.
    rewrite Hr, String.eqb_refl; lia.
  - intros id Hid; cbn [snd]; rewrite queued_snoc; unfold replies_to; rewrite Hr.
    destruct (String.eqb_spec (connection_id (config w.1)) id); [congruence | lia].
Qed.

Lemma send_direct_turn i p producer_id sequence_id size frame w r w' :
  flow_ok w -> read_paused (accounts w.1) = false -> 0 <= size <= max_message_size (config w.1) ->
  send_direct clock i p producer_id sequence_id size frame w = Some (r, w') -> turn_ok w w'.
Proof.
  intros Hf Hp Hs Hd%send_direct_acts; pose proof Hf as [Hk Ha]; eapply turn_acts; [done.. |].
  by apply completed_ok, queued_ok.
Qed.

Lemma send_queued_turn i p producer_id sequence_id size frame w r w' :
  flow_ok w -> read_paused (accounts w.1) = false ->
  size = Z.of_nat (length (default [] (frame_metadata frame))) + Z.of_nat (length (frame_payload frame)) ->
  size <= max_message_size (config w.1) ->
  send_queued clock i p producer_id sequence_id size frame w = Some (r, w') -> turn_ok w w'.
Proof.
  intros Hf Hp Hsize Hs; unfold send_queued; unfold mbind at 1, M_bind at 1, get_cnx at 1, gets at 1.
  intros [(x & w1 & E1 & E2)|(e & w1 & E1 & [= -> ->])]%bind_inv; apply drain_in_flight_drains in E1; try done;
    pose proof (turn_drained _ _ Hf E1) as T1; [|exact T1].
  apply bind_inv in E2 as [(y & w2 & E2 & E3)|(e & w2 & E2 & [= -> ->])]; apply quiet_flush in E2;
    pose proof (turn_quiet _ _ (tk_flow _ _ T1) E2) as T2; pose proof (turn_trans _ _ _ T1 T2) as T12; [|exact T12].
  apply (turn_trans _ _ _ T12); apply bind_inv in E3 as [(z & w3 & E3 & E4)|(e & w3 & E3 & [= -> ->])].
  all: apply quiet_run_broker in E3; [|intros b; destruct (br_heap b !! _); [by destruct (validate_publish_rate _ _ _ _) | done]].
  all: pose proof (turn_quiet _ _ (tk_flow _ _ T12) E3) as T3; try exact T3.
  apply (turn_trans _ _ _ T3); pose proof (tk_flow _ _ T3) as Hf3.
  destruct z as [[[[] name] partition]|]; [|by apply quiet_send in E4; apply turn_quiet | by injection E4 as <- <-; apply turn_quiet].
  assert (read_paused (accounts w3.1) = false) as Hp3
    by (by rewrite (qt_accounts _ _ E3), (qt_accounts _ _ E2); apply (dr_reading _ _ E1)).
  assert (config w3.1 = config w.1) as Hk3
    by (by rewrite (qt_config _ _ E3), (qt_config _ _ E2), (dr_config _ _ E1)).
  revert E4; unfold mbind at 1, M_bind at 1, get_cnx at 1, gets at 1; destruct (has_appender _).
  - intros [= <- <-]; apply turn_queued; eauto; rewrite Hk3; lia.
  - intros E4; apply (send_direct_turn _ _ _ _ _ _ _ _ _ Hf3 Hp3) in E4; [done | rewrite Hk3; lia].
Qed.

Lemma known_producer_reads id : keeps eq (known_producer (bytes := bytes) id).
Proof. unfold known_producer; eauto with keeps. Qed.

Lemma handle_send_turn i cmd frame w r w' :
  flow_ok w -> read_paused (accounts w.1) = false -> handle_send clock i cmd frame w = Some (r, w') -> turn_ok w w'.
Proof.
  intros Hf Hp; unfold handle_send; set (size := Z.of_nat _ + Z.of_nat _); assert (0 <= size) by (unfold size; lia).
  intros [->|([pid sid] & _ & E)]%reads_bind; [by apply turn_quiet | | eauto with keeps].
  apply reads_bind in E as [->|(p & _ & E)]; [by apply turn_quiet | | apply known_producer_reads].
  revert E; unfold mbind, M_bind, get_broker, get_cnx, gets; cbv beta iota zeta.
  destruct (Z.ltb_spec (max_message_size (config w.1)) size); [by intros ?%quiet_send; apply turn_quiet |].
  pose proof Hf as [Hk Ha]; destruct (from_option topic_mode Persistent _); [destruct (rocksdb_storage _) |].
  - by apply send_queued_turn.
  - by apply send_direct_turn.
  - intros [Hs|Hs]%send_non_persistent_acts; [by apply turn_quiet |]; eapply turn_acts; [done.. |].
    by apply started_finished_ok.
Qed.

Lemma handle_command_turn i cmd frame w r w' :
  flow_ok w -> read_paused (accounts w.1) = false -> handle_command clock i cmd frame w = Some (r, w') -> turn_ok w w'.
Proof.
  intros Hf Hp; unfold handle_command.
  do 4 (intros [->|(? & _ & E)]%reads_bind; [by apply turn_quiet | revert E | eauto with keeps]).
  pose proof (quiet_others cmd) as (? & ? & ? & ? & ? & ? & ? & ? & ? & ? & ?).
  repeat (destruct (Z.eqb _ _)); intros E; try (by eapply handle_send_turn); apply turn_quiet; try done; revert E;
    try match goal with |- ?m w = _ -> _ => enough (keeps quiet m) by eauto end; try done.
  all: first [apply quiet_connect | apply quiet_producer | apply quiet_subscribe | apply quiet_unsubscribe | eauto with keeps].
Qed.

Lemma quiet_liveness f (w : World (bytes := bytes)) :
  (forall c, config (f c) = config c /\ accounts (f c) = accounts c /\ conn_append_rx (f c) = conn_append_rx c) ->
  quiet w (f w.1, w.2).
Proof. intros Hf; destruct (Hf w.1) as (? & ? & ?); by split. Qed.

Lemma or_fail_turn m w t w' :
  (forall r w1, m w = Some (r, w1) -> turn_ok w w1) -> or_fail m w = Some (t, w') -> turn_ok w w'.
Proof.
  intros Hm; unfold or_fail; destruct (m w) as [[[u|e] w1]|]; [| |done]; intros [= _ <-]; [by eapply Hm |].
  eapply turn_trans; [by eapply Hm |]; apply turn_quiet; [by eapply tk_flow, Hm |]; by apply quiet_liveness.
Qed.

Lemma keep_alive_quiet now : keeps quiet (handle_keep_alive_tick (bytes := bytes) now).
Proof.
  apply (keeps_bind quiet); [eauto with keeps |]; intros c; unfold start_connection_liveness_check.
  repeat case_match; eauto 10 with keeps.
Qed.

Lemma outbound_quiet batch : keeps quiet (write_message_batch (bytes := bytes) batch).
Proof.
  apply (keeps_bind quiet); [|eauto with keeps]; apply (keeps_for_each quiet); intros o _; apply quiet_feed.
Qed.

Lemma run_turn_ok e w t w' : flow_ok w -> run_turn clock e w = Some (t, w') -> turn_ok w w'.
Proof.
  intros Hf; destruct e as [i frame| | |n|queued|now|now]; cbn [run_turn].
  - destruct (read_paused _) eqn:Hp; [done |].
    destruct (decode_command _) as [cmd|]; [|intros [= _ <-]; by apply turn_quiet].
    assert (quiet w (mark_inbound_activity (in_now i) w.1, w.2)) as Hq by by apply quiet_liveness.
    intros E; eapply turn_trans; [by apply turn_quiet |]; revert E; apply or_fail_turn; intros r w1.
    apply handle_command_turn; [by eapply quiet_flow | by rewrite (qt_accounts _ _ Hq)].
  - destruct (read_paused _); intros [= _ <-]; by apply turn_quiet.
  - destruct (read_paused _); intros [= _ <-]; apply turn_quiet; [done |]; by apply quiet_liveness.
  - destruct (take _ _) as [|a batch] eqn:Ht; [done |]; rewrite <- Ht; apply or_fail_turn; intros r w1.
    set (k := Nat.min _ _); assert (conn_append_rx w.1 = take k (conn_append_rx w.1) ++ drop k (conn_append_rx w.1)) as Hrx
      by by rewrite take_drop.
    intros [(x & w2 & E1 & E2)|(e & w2 & E1 & [= -> ->])]%bind_inv; apply (batch_drains _ _ _ _ _ Hrx) in E1;
      pose proof (turn_drained _ _ Hf E1) as T1; [|exact T1].
    apply (turn_trans _ _ _ T1), turn_quiet; [apply T1 | by eapply quiet_flush].
  - destruct (take _ _) as [|x batch]; [done |]; apply or_fail_turn; intros r w1 E.
    apply turn_quiet; [done | by eapply outbound_quiet].
  - destruct (handle_keep_alive_tick now w) as [[[[]|e] w1]|] eqn:E; intros [= _ <-]; apply keep_alive_quiet in E;
      pose proof (turn_quiet _ _ Hf E) as T1; try exact T1.
    apply (turn_trans _ _ _ T1), turn_quiet; [apply T1 | by apply quiet_liveness].
  - destruct (connection_check_in_progress _) as [check|]; [|done]; destruct (_ <=? _); [|done].
    destruct (handle_connection_check_timeout w.1) as [[] c] eqn:E; intros [= _ <-]; apply turn_quiet; try done;
      revert E; unfold handle_connection_check_timeout; repeat case_match; by intros [= <-].
Qed.

Lemma release_quiet id p : keeps quiet (release_producer (bytes := bytes) id p).
Proof. unfold release_producer; eauto with keeps. Qed.

Lemma cleanup_queue w r w' : cleanup clock w = Some (r, w') -> write_queue w'.2 = write_queue w.2.
Proof.
  unfold cleanup; unfold mbind at 1, M_bind at 1, get_cnx at 1, gets at 1; unfold mbind at 1, M_bind at 1, change_cnx, modify.
  intros E; match type of E with ?m _ = _ => enough (keeps quiet m) as Hq by apply (qt_queue _ _ (Hq _ _ _ E)) end.
  apply (keeps_bind quiet); [|intros _]; apply (keeps_for_each quiet); intros [id x] _; [apply release_quiet |].
  eauto with keeps.
Qed.

Lemma finish_run_queue r w r' w' : finish_run clock r w = Some (r', w') -> write_queue w'.2 = write_queue w.2.
Proof.
  unfold finish_run; destruct (cleanup clock _) as [[r1 w1]|] eqn:E; [|done]; intros [= _ <-].
  by apply cleanup_queue in E.
Qed.

Lemma run_task_queue t : keeps same_queue (run_task clock t).
Proof.
  destruct t as [tr|r]; cbn [run_task]; [|eauto with keeps].
  intros b r b'; unfold dispatch_to_subscriptions; destruct (br_heap b !! tr) as [t|]; [|by intros [= _ <-]].
  destruct (topic_mode t); [|by intros [= _ <-]]; apply (keeps_for_each same_queue); intros x _; eauto with keeps.
Qed.

Lemma fanout_queue tr window (b : Broker bytes) : same_queue b (fanout_turn tr window b).
Proof. unfold fanout_turn; destruct (br_heap b !! tr) as [t|]; [|done]; by destruct (fanout_worker _ _ _). Qed.

(** ** The whole broker *)

(** The accounts of every connection are in order, and only connections that were
    accepted have publications in the queue. *)
Record sys_ok (s : Sys (bytes := bytes)) : Prop := {
  so_cnx : forall id c, sys_cnxs s !! id = Some c -> connection_id (config c) = id /\ flow_ok (c, sys_broker s);
  so_fresh : forall id, sys_cnxs s !! id = None -> id ∉ sys_gone s -> queued_for id (sys_broker s) = 0%nat;
}.

(** A connection's accounts depend on its own requests in the queue only. *)
Lemma flow_other c (b b' : Broker bytes) :
  queued_for (connection_id (config c)) b' = queued_for (connection_id (config c)) b -> flow_ok (c, b) -> flow_ok (c, b').
Proof. unfold flow_ok, in_flight; cbn; by intros ->. Qed.

Lemma sys_ok_turn s id c c' b' :
  sys_ok s -> sys_cnxs s !! id = Some c -> turn_ok (c, sys_broker s) (c', b') ->
  sys_ok (mkSys b' (<[id := c']> (sys_cnxs s)) (sys_gone s)).
Proof.
  intros [Hc Hn] Hid [T1 T2 T3]; destruct (Hc _ _ Hid) as [<- Hf]; cbn in T1, T2, T3; split; cbn.
  - intros id2 c2 [[<- <-]|[Hne Hl]]%lookup_insert_Some; [by rewrite T1 |].
    destruct (Hc _ _ Hl) as [E Hf2]; split; [done |]; revert Hf2; apply flow_other; apply T3; congruence.
  - intros id2 [Hl Hne]%lookup_insert_None Hg; rewrite T3 by done; auto.
Qed.

Lemma sys_ok_gone s id b' :
  sys_ok s -> (forall id', id' <> id -> queued_for id' b' = queued_for id' (sys_broker s)) ->
  sys_ok (mkSys b' (delete id (sys_cnxs s)) ({[id]} ∪ sys_gone s)).
Proof.
  intros [Hc Hn] Hq; split; cbn.
  - intros id2 c2 [Hne Hl]%lookup_delete_Some; destruct (Hc _ _ Hl) as [E Hf2]; split; [done |].
    revert Hf2; apply flow_other, Hq; congruence.
  - intros id2 Hl Hg; assert (id2 <> id) by set_solver; rewrite lookup_delete_ne in Hl by done.
    rewrite Hq by done; apply Hn; [done | set_solver].
Qed.

Lemma sys_ok_broker s b' : sys_ok s -> same_queue (sys_broker s) b' -> sys_ok (mkSys b' (sys_cnxs s) (sys_gone s)).
Proof.
  intros [Hc Hn] Hq; assert (forall id, queued_for id b' = queued_for id (sys_broker s)) as Hq'
    by (intros; unfold queued_for; by rewrite Hq).
  split; cbn; [|intros; rewrite Hq'; auto].
  intros id c Hl; destruct (Hc _ _ Hl) as [E Hf]; split; [done |]; by revert Hf; apply flow_other.
Qed.

(** *** A round of the write queue *)

Lemma completions_for id results :
  length (filter (fun x => x.1 = id) (omap (fun x => complete x.1 x.2) results)) =
  length (filter (fun r => replies_to id r = true) results.*1).
Proof.
  induction results as [|[r res] results IH]; [done |]; rewrite fmap_cons, filter_cons; cbn [omap list_omap fst snd].
  unfold complete, replies_to in *; destruct (wr_reply r) as [|p q c]; cbn [fst snd].
  - by rewrite decide_False.
  - rewrite filter_cons; cbn [fst]; destruct (String.eqb_spec c id).
    + rewrite !decide_True by done; cbn; by rewrite IH.
    + by rewrite !decide_False.
Qed.

Lemma push_completions_lookup l cnxs id :
  foldl push_completion cnxs l !! id =
  (fun c => set_append_rx (conn_append_rx c ++ (filter (fun x => x.1 = id) l).*2) c) <$> cnxs !! id.
Proof.
  revert cnxs; induction l as [|[i a] l IH]; intros cnxs; cbn [foldl].
  - rewrite filter_nil, fmap_nil; destruct (cnxs !! id) as [[]|]; cbn; by rewrite ?app_nil_r.
  - rewrite IH; unfold push_completion; cbn [fst snd]; rewrite filter_cons; cbn [fst].
    destruct (decide (i = id)) as [->|Hne].
    + rewrite lookup_alter_eq; destruct (cnxs !! id) as [[]|]; cbn; [|done]; by rewrite <- (assoc_L (++)).
    + by rewrite lookup_alter_ne.
Qed.

Lemma sys_ok_write env round s : sys_ok s -> sys_ok (write_round clock env round s).
Proof.
  intros Hs; unfold write_round, serve_queue; destruct (br_store (sys_broker s)) as [|w]; [by destruct s |].
  unfold take_batch; set (n := Nat.min _ _); set (batch := take n _); set (rest := drop n _).
  pose proof (batch_completed clock env round 0 batch w) as Hb.
  destruct (run_groups clock env round 0 (group_by_ledger batch) w) as [results w']; cbn [fst] in Hb.
  set (l := omap _ results); set (b' := set_store _ _).
  assert (forall id, (queued_for id b' + length (filter (fun x => x.1 = id) l))%nat = queued_for id (sys_broker s)) as Hq.
  { intros id; unfold l; rewrite completions_for, Hb; unfold queued_for.
    rewrite <- (take_drop n (write_queue (sys_broker s))), filter_app, length_app; cbn; fold batch rest; lia. }
  destruct Hs as [Hc Hn]; split; cbn [sys_broker sys_cnxs sys_gone].
  - intros id c; rewrite push_completions_lookup; intros (c0 & Hl & ->)%fmap_Some; destruct (Hc _ _ Hl) as [E [Hk Ha]].
    split; [done |]; split; [done |]; revert Ha; unfold in_flight; cbn; rewrite E, length_app, length_fmap.
    specialize (Hq id); by replace (queued_for id b' + _)%nat with (queued_for id (sys_broker s) + length (conn_append_rx c0))%nat by lia.
  - intros id; rewrite push_completions_lookup; intros Hl%fmap_None Hg; specialize (Hq id); rewrite (Hn id Hl Hg) in Hq; lia.
Qed.

Lemma sys_step_ok clients s s' : sys_step clock clients s s' -> sys_ok s -> sys_ok s'.
Proof.
  intros Hstep Hs; destruct Hstep as [s now k answers Hk Hl Hg|s id c e c' b' _ Hl E|s id c e r [c1 b1] r' c' b' _ Hl E1 E2|
    s id c e err c' b' _ Hl E|s l1 t l2 r b' Ht E|s tr window|s env round].
  - destruct Hs as [Hc Hn]; split; cbn.
    + intros id c [[<- <-]|[Hne Hl2]]%lookup_insert_Some; [|by apply Hc]; split; [done |]; split; [done |].
      unfold in_flight; cbn; rewrite Hn by done; by apply accounts_new.
    + intros id [Hid Hne]%lookup_insert_None; auto.
  - eapply sys_ok_turn; [done.. |]; eapply run_turn_ok; [|done]; by eapply so_cnx.
  - destruct (so_cnx _ Hs _ _ Hl) as [<- Hf]; apply (run_turn_ok _ _ _ _ Hf) in E1; apply finish_run_queue in E2.
    apply sys_ok_gone; [done |]; intros id' Hne; unfold queued_for in *; cbn in E2; rewrite E2; by apply (tk_others _ _ E1).
  - destruct (so_cnx _ Hs _ _ Hl) as [<- Hf]; apply (run_turn_ok _ _ _ _ Hf) in E.
    apply sys_ok_gone; [done |]; intros id' Hne; by apply (tk_others _ _ E).
  - apply sys_ok_broker; [done |]; by apply run_task_queue in E.
  - apply sys_ok_broker; [done | apply fanout_queue].
  - by apply sys_ok_write.
Qed.

Lemma reachable_ok clients b s : write_queue b = [] -> rtc (sys_step clock clients) (sys_start b) s -> sys_ok s.
Proof.
  intros Hb Hr; assert (sys_ok (sys_start b)) as Hs.
  { split; cbn; [by intros ? ? ?%lookup_empty_Some |]; intros; unfold queued_for; by rewrite Hb. }
  revert Hs; clear Hb; induction Hr; eauto using sys_step_ok.
Qed.
End world.

Lemma paused_in_flight k n a : config_ok k -> accounts_ok k n a -> read_paused a = true -> (0 < n)%nat.
Proof.
  intros (Hk1 & Hk2 & _) [Hr Hl Hb Hs Hp _ _] Ht; unfold resume_threshold, resume_bytes_threshold in Hp.
  pose proof (Z.div_pos (max_pending_publish_requests k) 2 ltac:(lia) ltac:(lia)).
  pose proof (Z.div_pos (max_pending_publish_bytes k) 2 ltac:(lia) ltac:(lia)).
  destruct (Hp Ht) as [?|?]; [lia |]; destruct (pending_send_sizes a); cbn in *; lia.
Qed.

(** ** Properties *)

(** C3: Flow control over the whole broker, for connections whose limits are positive:
    however turns of connections, tasks, fan-out workers and rounds of the write queue
    interleave, and whatever fails, every connection's count of pending publications is
    the number of its requests in the write queue plus the completions it has not
    processed.  The count stays within its limit, the bytes exceed theirs by one message
    at most, the channel of completions never holds more than its capacity (so the
    worker of the queue never waits for a connection), a connection reads only below
    both limits, and one that has stopped reading has a publication in flight whose
    completion can wake it. *)
Theorem flow_control {bytes : Type} `{DbCodec bytes} `{MetadataDecoder} `{CommandCodec} (clock : Z -> Z)
    (clients : BaseCommand -> bool) (b : Broker bytes) (s : Sys) (id : string) (c : ServerCnx) :
  write_queue b = [] -> rtc (sys_step clock clients) (sys_start b) s -> sys_cnxs s !! id = Some c ->
  let k := config c in
  let a := accounts c in
  pending_send_requests a = Z.of_nat (in_flight c (sys_broker s)) /\
  pending_send_requests a <= max_pending_publish_requests k /\
  pending_send_bytes a <= max_pending_publish_bytes k + max_message_size k /\
  Z.of_nat (length (conn_append_rx c)) <= append_channel_capacity k /\
  (read_paused a = true -> (0 < in_flight c (sys_broker s))%nat) /\
  (read_paused a = false ->
     pending_send_requests a < max_pending_publish_requests k /\ pending_send_bytes a < max_pending_publish_bytes k).
Proof.
  intros Hb Hr Hc; destruct (so_cnx _ (reachable_ok clock clients b s Hb Hr) _ _ Hc) as [_ [Hk Ha]]; cbn in Hk, Ha |- *.
  pose proof (ao_limit _ _ _ Ha) as [? ?]; pose proof (ao_requests _ _ _ Ha).
  unfold append_channel_capacity, in_flight in *; split_and!; [apply Ha | lia | lia | lia | by eapply paused_in_flight | apply Ha].
Qed.

(** A connection that may have one publication in flight publishes one. *)
Definition limited : CnxConfig := mkCnxConfig "c1" 30 30 10 1 1 1000 10 100 "pulsar://localhost:6650" true true.

Definition publish_script : CommandCodec := script_codec [
  mkCommand T_CONNECT [FConnect (Some 19)];
  mkCommand T_PRODUCER [FProducer "orders" 1 1 None];
  mkCommand T_SEND [FSend 1 0]].

Definition idle_broker (store : ManagedLedgerStore plain) : Broker plain :=
  mkBroker store ∅ ∅ ∅ ∅ ∅ 0 no_rate [] [].

Definition publish_actions : list action :=
  AAccept 0 limited [] :: ((fun n => ATurn "c1" (EFrame (mkInputs 0 [] (true, WriteOk) true)
    (mkFrame [n] (Some [1; 2]) [3; 4; 5] None))) <$> [0; 1; 2]).

#[local] Existing Instance byte_metadata.

Definition publish_start : Sys := sys_start (idle_broker (RocksDbBackend WriteQueue.empty_rocks)).
Definition publish_run : Sys :=
  default publish_start (perform_all (H1 := publish_script) (fun _ => 0) (fun _ => true) publish_actions publish_start).
Definition publishing : ServerCnx := default (cnx_new 0 limited []) (sys_cnxs publish_run !! "c1").

Lemma flow_control_witness :
  pending_send_requests (accounts publishing) = Z.of_nat (in_flight publishing (sys_broker publish_run)) /\
  (read_paused (accounts publishing) = true -> (0 < in_flight publishing (sys_broker publish_run))%nat) /\
  read_paused (accounts publishing) = true.
Proof.
  destruct (flow_control (H1 := publish_script) (fun _ => 0) (fun _ => true) (idle_broker (RocksDbBackend WriteQueue.empty_rocks))
    publish_run "c1" publishing) as (Hn & _ & _ & _ & Hp & _).
  - reflexivity.
  - apply (perform_all_reachable _ _ publish_actions); vm_compute; reflexivity.
  - vm_compute; reflexivity.
  - split; [exact Hn |]; split; [exact Hp |]; vm_compute; reflexivity.
Defined.
