(* ===== verification/Trace.v ===== *)
(** * What handlers do to the broker

    Every command handler, task and turn of a connection changes the broker by a
    sequence of events: a topic is looked up, a consumer joins, messages are
    acknowledged, and so on.  Invariants of the broker are proved for the events,
    and hold for everything that runs. *)

From S2P Require Import Prelude Position Text CursorRead LedgerInfo MetadataCodec EntryLog RocksLedger Keys StickyKey Consumer.
From S2P Require Import Commands Codec StorageService Subscription Effects TopicSubscription Topic BrokerService.
From S2P Require Import Connection System.
From S2P Require WriteQueue.
Import WriteQueue (WriteReply, mkReq, worker_env).

Inductive broker_event :=
| ETopic (now : Z) (name : string)
| EOpen (tr : topic_ref) (name : string) (t : SubscriptionType) (policy : option KeySharedPolicy)
    (options : CursorInitOptions)
| EJoin (r : sub_ref) (c : Consumer)
| ELeave (r : sub_ref) (id : Z)
| EUnsubscribe (r : sub_ref) (id : Z)
| EUnregister (topic name : string)
| EPermits (r : sub_ref) (id n : Z)
| EAck (r : sub_ref) (id : Z) (ack_type : AckCommandType) (ids : list MessageId)
| ERedeliver (r : sub_ref) (id : Z) (ids : list MessageId)
| ESeek (r : sub_ref) (m : MessageId)
| ESeekTime (r : sub_ref) (t : Z)
| EDrain (r : sub_ref) (id : Z)
| ELast (r : sub_ref)
| EDispatch (r : sub_ref)
| EAddProducer (tr : topic_ref) (p : Producer)
| ERemoveProducer (tr : topic_ref) (id : Z)
| ECharge (tr : topic_ref) (now : Z) (meta : option (list Z)) (data : list Z)
| EPublishNp (tr : topic_ref) (now : Z) (meta : option (list Z)) (data : list Z)
| EPublish (tr : topic_ref) (now : Z) (io : bool * write_outcome) (db_ok : bool) (meta : option (list Z)) (data : list Z)
| EEnqueue (tr : topic_ref) (meta : option (list Z)) (data : list Z) (reply : WriteReply)
| ESpawn (t : Task)
| ETasks (l : list Task)
| EFanout (tr : topic_ref) (window : nat)
| EServe (env : worker_env) (round : nat).

Section events.
Context {bytes : Type} `{DbCodec bytes} `{MetadataDecoder} (clock : Z -> Z).

Implicit Types b : Broker bytes.

Abbreviation handler := (M (World (bytes := bytes)) cnx_error).

(** The broker after a computation, whatever its result. *)
Definition after {A} (m : M (Broker bytes) sub_failure A) b : option (Broker bytes) := snd <$> m b.

Definition join (c : Consumer) : sub_op (bytes := bytes) unit := fun w =>
  let '(res, o) := so_add_consumer c w.1 in Some (res, (o, w.2)).

Definition permits (id n : Z) : sub_op (bytes := bytes) bool := fun w =>
  Some (Ok (is_persistent w.1), (so_apply_flow_permits id n w.1, w.2)).

Definition drain (id : Z) : sub_op (bytes := bytes) unit := fun w => Some (Ok tt, (so_drain_pending_acks id w.1, w.2)).

Definition apply_event (e : broker_event) b : option (Broker bytes) :=
  match e with
  | ETopic now name => Some (get_or_create_topic_auto now name b).2
  | EOpen tr name t policy options => after (get_or_create_subscription_with_options clock tr name t policy options) b
  | EJoin r c => after (with_sub r (join c)) b
  | ELeave r id => after (with_sub r (so_remove_with_recovery clock id)) b
  | EUnsubscribe r id => after (with_sub r (so_unsubscribe_consumer clock id)) b
  | EUnregister topic name => Some (unregister_subscription topic name b)
  | EPermits r id n => after (with_sub r (permits id n)) b
  | EAck r id ack_type ids => after (with_sub r (so_message_acked clock id ack_type ids)) b
  | ERedeliver r id ids => after (with_sub r (so_redeliver clock id ids)) b
  | ESeek r m => after (with_sub r (so_seek_to_message_id clock m)) b
  | ESeekTime r t => after (with_sub r (so_seek_by_publish_time clock t)) b
  | EDrain r id => after (with_sub r (drain id)) b
  | ELast r => after (with_sub r (so_get_last_message_id clock)) b
  | EDispatch r => after (with_sub r (so_dispatch_messages clock)) b
  | EAddProducer tr p => Some (update_topic tr (add_producer p) b)
  | ERemoveProducer tr id => Some (update_topic tr (fun t => (remove_producer id t).2) b)
  | ECharge tr now meta data => Some (update_topic tr (fun t => (validate_publish_rate now meta data t).2) b)
  | EPublishNp tr now meta data => Some (update_topic tr (fun t => (publish_non_persistent now meta data t).2) b)
  | EPublish tr now io db_ok meta data => Some (publish_persistent clock now io db_ok tr meta data b).2
  | EEnqueue tr meta data reply =>
      Some match br_heap b !! tr with
           | Some t => set_write_queue (write_queue b ++ [mkReq (topic_name t) (topic_partition t) (default [] meta) data reply]) b
           | None => b
           end
  | ESpawn t => Some (spawn t b)
  | ETasks l => Some (set_tasks l b)
  | EFanout tr window => Some (fanout_turn tr window b)
  | EServe env round => Some (serve_queue clock env round b).2
  end.

Definition apply_events (l : list broker_event) b : option (Broker bytes) :=
  foldl (fun o e => o ≫= apply_event e) (Some b) l.

Lemma apply_events_none l : foldl (fun o e => o ≫= apply_event e) None l = None.
Proof. by induction l. Qed.

Lemma apply_events_app l k b : apply_events (l ++ k) b = apply_events l b ≫= apply_events k.
Proof.
  unfold apply_events; rewrite foldl_app; destruct (foldl _ (Some b) l); [done | apply apply_events_none].
Qed.

Lemma apply_events_cons e l b : apply_events (e :: l) b = apply_event e b ≫= apply_events l.
Proof. apply (apply_events_app [e] l b). Qed.

(** From one broker to another by events of [P]. *)
Definition traced (P : broker_event -> Prop) b b' : Prop := exists l, Forall P l /\ apply_events l b = Some b'.

#[export] Instance traced_preorder P : PreOrder (traced P).
Proof.
  split; [intros b; by exists [] |]; intros b1 b2 b3 (l & Hl & E) (k & Hk & E'); exists (l ++ k).
  split; [by apply Forall_app | by rewrite apply_events_app, E].
Qed.

Lemma traced_event (P : broker_event -> Prop) e b b' : P e -> apply_event e b = Some b' -> traced P b b'.
Proof. intros; exists [e]; split; [by constructor | done]. Qed.

(** An invariant of the events of [P]. *)
Lemma traced_ind (P : broker_event -> Prop) (I : Broker bytes -> Prop) :
  (forall e b b', P e -> apply_event e b = Some b' -> I b -> I b') -> forall b b', traced P b b' -> I b -> I b'.
Proof.
  intros He b b' (l & Hl & E); revert b E; induction Hl as [|e l Hp Hl IH]; intros b; [by intros [= <-] |].
  rewrite apply_events_cons; intros (b1 & E1 & E2)%bind_Some Hb; eauto.
Qed.

(** The same for a relation. *)
Lemma traced_rel (P : broker_event -> Prop) (R : relation (Broker bytes)) `{!PreOrder R} :
  (forall e b b', P e -> apply_event e b = Some b' -> R b b') -> forall b b', traced P b b' -> R b b'.
Proof.
  intros He b b' Ht; apply (traced_ind P (R b)) in Ht; [done | | done].
  intros e b1 b2 Hp E H1; etransitivity; [exact H1 | by eapply He].
Qed.

(** ** The events of a command *)

(** The topic a producer or a consumer asks for. *)
Definition names_topic (cmd : BaseCommand) (name : string) : Prop :=
  (exists id request asked,
     get_field (fun f => match f with FProducer t p r n => Some (t, p, r, n) | _ => None end) cmd
       = Some (name, id, request, asked)) \/
  exists sub, get_field (fun f => match f with FSubscribe s => Some s | _ => None end) cmd = Some sub /\
    subscribe_topic sub = name.

Definition allowed (i : Inputs) (cmd : BaseCommand) (frame : PulsarFrame) (e : broker_event) : Prop :=
  match e with
  | ETopic _ name => names_topic cmd name
  | EOpen _ name t policy options =>
      exists sub, get_field (fun f => match f with FSubscribe s => Some s | _ => None end) cmd = Some sub /\
        name = subscribe_subscription sub /\ t = subscribe_type (subscribe_sub_type sub) /\
        policy = subscribe_policy sub /\ options = cursor_options sub
  | EPublish _ _ io _ meta data => io = in_log i /\ meta = frame_metadata frame /\ data = frame_payload frame
  | EEnqueue _ meta data _ => meta = frame_metadata frame /\ data = frame_payload frame
  | EServe _ _ => False
  | EJoin _ c =>
      exists sub connection answers,
        get_field (fun f => match f with FSubscribe s => Some s | _ => None end) cmd = Some sub /\
        c = consumer_new (subscribe_info connection sub) answers
  | EAck _ _ ack_type _ =>
      exists id t ids request,
        get_field (fun f => match f with FAck c t ids r => Some (c, t, ids, r) | _ => None end) cmd
          = Some (id, t, ids, request) /\ ack_type = ack_type_from_proto t
  | ESeek _ _ | ESeekTime _ _ | EDrain _ _ => command_type cmd = T_SEEK
  | EUnsubscribe _ _ | EUnregister _ _ => command_type cmd = T_UNSUBSCRIBE
  | _ => True
  end.

(** What happens to the broker in a handler. *)
Definition traces (P : broker_event -> Prop) (w w' : World (bytes := bytes)) : Prop := traced P w.2 w'.2.

#[local] Instance traces_preorder P : PreOrder (traces P).
Proof. split; [by intros w; unfold traces |]; intros w1 w2 w3; unfold traces; by etransitivity. Qed.

Section handlers.
Context (P : broker_event -> Prop).

Lemma traces_cnx f : keeps (traces P) (change_cnx (bytes := bytes) f).
Proof. intros w r w' [= _ <-]; by unfold traces. Qed.

Lemma traces_broker e f :
  P e -> (forall b, apply_event e b = Some (f b)) -> keeps (traces P) (change_broker (bytes := bytes) f).
Proof. intros Hp Hf w r w' [= _ <-]; by eapply traced_event. Qed.

Lemma traces_run {A} e (f : Broker bytes -> A * Broker bytes) :
  P e -> (forall b, apply_event e b = Some (f b).2) -> keeps (traces P) (run_broker f).
Proof.
  intros Hp Hf w r w'; unfold run_broker; specialize (Hf w.2); destruct (f w.2) as [a b]; intros [= _ <-].
  by eapply traced_event.
Qed.

Lemma traces_on {A} e (m : M (Broker bytes) sub_failure A) :
  P e -> (forall b, apply_event e b = after m b) -> keeps (traces P) (on_broker m).
Proof.
  intros Hp Hm w r w'; unfold on_broker; specialize (Hm w.2); unfold after in Hm.
  destruct (m w.2) as [[[a|e'] b]|]; [| |done]; intros [= _ <-]; by eapply traced_event.
Qed.

Lemma traces_reads {A} (m : handler A) : keeps eq m -> keeps (traces P) m.
Proof. intros Hm w r w' E; by rewrite (Hm _ _ _ E). Qed.

Lemma traces_feed o : keeps (traces P) (feed (bytes := bytes) o).
Proof. intros w r w'; unfold feed; destruct (default _ _); intros [= _ <-]; by unfold traces. Qed.

Lemma traces_send cmd : keeps (traces P) (send (bytes := bytes) cmd).
Proof. apply traces_feed. Qed.

Lemma traces_flush : keeps (traces P) (flush (bytes := bytes)).
Proof. intros w r w' [= _ <-]; by unfold traces. Qed.
End handlers.

#[local] Hint Resolve traces_cnx traces_send traces_flush : keeps.
#[local] Hint Extern 1 (keeps ?R (get_cnx _)) => apply (keeps_gets R) : keeps.
#[local] Hint Extern 1 (keeps ?R (get_broker _)) => apply (keeps_gets R) : keeps.
#[local] Hint Extern 3 (keeps _ (match ?x with _ => _ end)) => destruct x : keeps.

Ltac event e := eapply (traces_on _ e) || eapply (traces_run _ e) || eapply (traces_broker _ e); [|done].

#[local] Hint Extern 2 (keeps (traces _) (run_broker (get_or_create_topic_auto ?now ?name))) => event (ETopic now name) : keeps.
#[local] Hint Extern 2 (keeps (traces _) (on_broker (get_or_create_subscription_with_options _ ?tr ?name ?t ?p ?o))) =>
  event (EOpen tr name t p o) : keeps.
#[local] Hint Extern 2 (keeps (traces _) (change_broker (spawn ?t))) => event (ESpawn t) : keeps.
#[local] Hint Extern 2 (keeps (traces _) (change_broker (update_topic ?tr (add_producer ?p)))) => event (EAddProducer tr p) : keeps.

Lemma keeps_ret_bind {W E A B} (R : relation W) (a : A) (f : A -> M W E B) : keeps R (f a) -> keeps R (ret a ≫= f).
Proof. intros Hf w r w' E1; by eapply Hf. Qed.

Lemma keeps_throw_bind {W E A B} (R : relation W) `{!PreOrder R} (e : E) (f : A -> M W E B) : keeps R (throw e ≫= f).
Proof. intros w r w' [= _ <-]; done. Qed.

Lemma with_sub_gets {A} r (f : SubscriptionObject * ManagedLedgerStore bytes -> A) : keeps eq (with_sub r (gets f)).
Proof.
  intros b res b'; unfold with_sub; destruct (br_subs b !! r) as [o|] eqn:E; [|by intros [= _ <-]].
  cbn; rewrite (insert_id _ _ _ E); intros [= _ <-]; by destruct b.
Qed.

Lemma reads_on {A} (m : M (Broker bytes) sub_failure A) : keeps eq m -> keeps eq (on_broker m).
Proof.
  intros Hm [c b] r w'; unfold on_broker; cbn [snd]; destruct (m b) as [[[a|e'] b1]|] eqn:E; [| |done];
    intros [= _ <-]; by rewrite (Hm _ _ _ E).
Qed.

Lemma update_topic_at tr (f : Topic -> Topic) b t :
  br_heap b !! tr = Some t -> update_topic tr (fun _ => f t) b = update_topic tr f b.
Proof.
  intros Ht; unfold update_topic; f_equal; apply map_eq; intros j; destruct (decide (j = tr)) as [->|Hne].
  - by rewrite !lookup_alter_eq, Ht.
  - by rewrite !lookup_alter_ne.
Qed.

Lemma update_topic_none tr (f : Topic -> Topic) b : br_heap b !! tr = None -> update_topic tr f b = b.
Proof. intros Ht; unfold update_topic; rewrite alter_id by (intros; congruence); by destruct b. Qed.

Section commands.
Context (P : broker_event -> Prop).

(** Events that every command may cause. *)
Definition basic (e : broker_event) : Prop :=
  match e with
  | ETopic _ _ | EOpen _ _ _ _ _ | EJoin _ _ | EAck _ _ _ _ | ESeek _ _ | ESeekTime _ _ | EDrain _ _
  | EUnsubscribe _ _ | EUnregister _ _ | EPublish _ _ _ _ _ _ | EEnqueue _ _ _ _ | EServe _ _ => False
  | _ => True
  end.

Context (Hbasic : forall e, basic e -> P e).

#[local] Hint Extern 1 (P _) => apply Hbasic; exact I : keeps.

Lemma traces_concrete i name :
  P (ETopic (in_now i) name) -> keeps (traces P) (concrete_topic (bytes := bytes) i name).
Proof. intros Ht; unfold concrete_topic; eauto 10 with keeps. Qed.

Lemma traces_release id p : keeps (traces P) (release_producer (bytes := bytes) id p).
Proof. event (ERemoveProducer (prod_topic p) id); eauto with keeps. Qed.

Lemma traces_known_consumer id : keeps (traces P) (known_consumer (bytes := bytes) id).
Proof. unfold known_consumer; eauto with keeps. Qed.

Lemma traces_known_producer id : keeps (traces P) (known_producer (bytes := bytes) id).
Proof. unfold known_producer; eauto with keeps. Qed.

Lemma traces_leave r id : keeps (traces P) (on_broker (with_sub r (so_remove_with_recovery clock id))).
Proof. event (ELeave r id); eauto with keeps. Qed.
#[local] Hint Resolve traces_release traces_known_consumer traces_known_producer traces_leave : keeps.

Lemma traces_producer i cmd :
  (forall name, names_topic cmd name -> P (ETopic (in_now i) name)) ->
  keeps (traces P) (handle_producer (bytes := bytes) i cmd).
Proof.
  intros Ht; unfold handle_producer; destruct (get_field _ cmd) as [[[[topic id] request] asked]|] eqn:E; [|apply (keeps_throw_bind _)].
  assert (P (ETopic (in_now i) topic)) as Hp by (apply Ht; left; eauto).
  apply keeps_ret_bind; cbv beta iota; eauto 20 using traces_concrete with keeps.
Qed.

Lemma traces_subscribe i cmd :
  (forall name, names_topic cmd name -> P (ETopic (in_now i) name)) ->
  (forall sub tr, get_field (fun f => match f with FSubscribe s => Some s | _ => None end) cmd = Some sub ->
     P (EOpen tr (subscribe_subscription sub) (subscribe_type (subscribe_sub_type sub)) (subscribe_policy sub) (cursor_options sub))) ->
  (forall sub r connection answers,
     get_field (fun f => match f with FSubscribe s => Some s | _ => None end) cmd = Some sub ->
     P (EJoin r (consumer_new (subscribe_info connection sub) answers))) ->
  keeps (traces P) (handle_subscribe clock i cmd).
Proof.
  intros Ht Ho Hj; unfold handle_subscribe; destruct (get_field _ cmd) as [sub|] eqn:E; [|apply (keeps_throw_bind _)].
  assert (P (ETopic (in_now i) (subscribe_topic sub))) as Hp by (apply Ht; right; eauto).
  apply keeps_ret_bind; apply (keeps_bind (traces P)); [by apply traces_concrete |]; intros t.
  apply (keeps_bind (traces P)); [eauto with keeps |]; intros r; apply (keeps_bind (traces P)); [eauto with keeps |]; intros k.
  apply (keeps_bind (traces P)); [|eauto 10 with keeps]; event (EJoin r (consumer_new (subscribe_info k sub) (in_channel i))); auto.
Qed.

Lemma traces_flow cmd : keeps (traces P) (handle_flow (bytes := bytes) cmd).
Proof.
  unfold handle_flow; apply (keeps_bind (traces P)); [eauto with keeps |]; intros [id n].
  apply (keeps_bind (traces P)); [eauto with keeps |]; intros r.
  apply (keeps_bind (traces P)); [event (EPermits r id n) |]; eauto with keeps.
Qed.

Lemma traces_ack cmd :
  (forall r id t ids request ids',
     get_field (fun f => match f with FAck c t ids r => Some (c, t, ids, r) | _ => None end) cmd = Some (id, t, ids, request) ->
     P (EAck r id (ack_type_from_proto t) ids')) ->
  keeps (traces P) (handle_ack clock cmd).
Proof.
  intros Ha; unfold handle_ack; destruct (get_field _ cmd) as [[[[id t] ids] request]|]; [|apply (keeps_throw_bind _)].
  apply keeps_ret_bind; cbv beta iota; apply (keeps_bind (traces P)); [eauto with keeps |]; intros r; destruct (message_id_of_data <$> ids) as [|m ms]; [eauto with keeps |].
  apply (keeps_bind (traces P)); [|eauto with keeps]; event (EAck r id (ack_type_from_proto t) (m :: ms)); eauto.
Qed.

Lemma traces_unsubscribe cmd :
  (forall r id, P (EUnsubscribe r id)) -> (forall topic name, P (EUnregister topic name)) ->
  keeps (traces P) (handle_unsubscribe clock cmd).
Proof.
  intros Hu Hr; unfold handle_unsubscribe; apply (keeps_bind (traces P)); [eauto with keeps |]; intros [id request].
  apply (keeps_bind (traces P)); [eauto with keeps |]; intros sub; apply (keeps_bind (traces P)); [eauto with keeps |]; intros _.
  apply (keeps_bind (traces P)); [|eauto with keeps]; destruct sub as [r|]; [|eauto with keeps].
  apply (keeps_bind (traces P)); [apply traces_reads, reads_on, with_sub_gets |]; intros [topic name].
  apply (keeps_bind (traces P)); [event (EUnsubscribe r id); auto |]; intros _; event (EUnregister topic name); auto.
Qed.

Lemma traces_seek cmd :
  (forall r m, P (ESeek r m)) -> (forall r t, P (ESeekTime r t)) -> (forall r id, P (EDrain r id)) ->
  keeps (traces P) (handle_seek clock cmd).
Proof.
  intros Hs Ht Hd; unfold handle_seek; apply (keeps_bind (traces P)); [eauto with keeps |]; intros [[[id request] target] time].
  apply (keeps_bind (traces P)); [eauto with keeps |]; intros sub.
  assert (forall r m, keeps (traces P) (on_broker (with_sub r (so_seek_to_message_id clock m)))) as H1
    by (intros r m; event (ESeek r m); auto).
  assert (forall r t, keeps (traces P) (on_broker (with_sub r (so_seek_by_publish_time clock t)))) as H2
    by (intros r t; event (ESeekTime r t); auto).
  assert (forall r, keeps (traces P) (on_broker (with_sub r (fun w => Some (Ok tt, (so_drain_pending_acks id w.1, w.2)))))) as H3
    by (intros r; event (EDrain r id); auto).
  destruct sub as [r|], (message_id_of_data <$> target) as [m|], time as [t|]; eauto 10 with keeps.
Qed.

Lemma traces_get_last cmd : keeps (traces P) (handle_get_last_message_id clock cmd).
Proof.
  unfold handle_get_last_message_id; apply (keeps_bind (traces P)); [eauto with keeps |]; intros [id request].
  apply (keeps_bind (traces P)); [eauto with keeps |]; intros [r|]; [|eauto with keeps].
  apply (keeps_bind (traces P)); [event (ELast r) |]; eauto with keeps.
Qed.

Lemma traces_redeliver cmd : keeps (traces P) (handle_redeliver_unacknowledged_messages clock cmd).
Proof.
  unfold handle_redeliver_unacknowledged_messages; apply (keeps_bind (traces P)); [eauto with keeps |]; intros [id ids].
  apply (keeps_bind (traces P)); [eauto with keeps |]; intros r.
  event (ERedeliver r id (message_id_of_data <$> ids)); eauto with keeps.
Qed.

Lemma traces_simple i cmd :
  keeps (traces P) (handle_connect (bytes := bytes) i cmd) /\ keeps (traces P) (handle_partition_metadata (bytes := bytes) cmd) /\
  keeps (traces P) (handle_lookup (bytes := bytes) cmd) /\ keeps (traces P) (handle_ping (bytes := bytes)) /\
  keeps (traces P) (handle_pong (bytes := bytes) cmd) /\ keeps (traces P) (handle_close_producer (bytes := bytes) cmd) /\
  keeps (traces P) (handle_close_consumer clock cmd).
Proof.
  unfold handle_connect, handle_partition_metadata, handle_lookup, handle_ping, handle_pong, handle_close_producer,
    handle_close_consumer; split_and!; eauto 20 with keeps.
Qed.

(** *** Publishing *)

Lemma traces_completion producer_id sequence_id r :
  keeps (traces P) (complete_persistent_send (bytes := bytes) producer_id sequence_id r).
Proof. unfold complete_persistent_send; eauto 20 with keeps. Qed.

Lemma traces_complete_append a : keeps (traces P) (complete_append (bytes := bytes) a).
Proof. unfold complete_append; eauto using traces_completion with keeps. Qed.

Lemma traces_drain rx : keeps (traces P) (drain_in_flight (bytes := bytes) rx).
Proof.
  induction rx as [|a rx IH]; cbn [drain_in_flight]; unfold while_full.
  - apply (keeps_bind (traces P)); [eauto with keeps |]; intros full; apply (keeps_when (traces P)); by intros w r w'.
  - eauto using traces_complete_append with keeps.
Qed.

Context (i : Inputs) (frame : PulsarFrame).
Context (Hpub : forall tr, P (EPublish tr (in_now i) (in_log i) (in_db i) (frame_metadata frame) (frame_payload frame))).
Context (Henq : forall tr reply, P (EEnqueue tr (frame_metadata frame) (frame_payload frame) reply)).

Lemma traces_send_direct p producer_id sequence_id size :
  keeps (traces P) (send_direct clock i p producer_id sequence_id size frame).
Proof.
  unfold send_direct; apply (keeps_bind (traces P)); [eauto with keeps |]; intros _.
  apply (keeps_bind (traces P)).
  - event (EPublish (prod_topic p) (in_now i) (in_log i) (in_db i) (frame_metadata frame) (frame_payload frame)); eauto with keeps.
  - intros [m|[[|topic]|e]]; unfold send_rate_error; eauto 10 using traces_completion with keeps.
Qed.

(** The request carries the name and the partition of the topic that was charged. *)
Lemma traces_send_queued p producer_id sequence_id size :
  keeps (traces P) (send_queued clock i p producer_id sequence_id size frame).
Proof.
  unfold send_queued; do 3 (apply (keeps_bind (traces P)); [eauto using traces_drain with keeps |]; intros ?).
  intros w r w' E; apply bind_inv in E as [(checked & w1 & E1 & E2)|(e & w1 & E1 & _)]; revert E1; unfold run_broker.
  2: { by destruct (br_heap w.2 !! _) as [t|]; [destruct (validate_publish_rate _ _ _ t) |]. }
  destruct (br_heap w.2 !! prod_topic p) as [t|] eqn:Ht; [|intros [= <- <-]; injection E2 as _ <-; by unfold traces].
  destruct (validate_publish_rate (in_now i) (frame_metadata frame) (frame_payload frame) t) as [ok t'] eqn:Ev.
  intros [= <- <-]; set (b1 := update_topic (prod_topic p) (fun _ => t') w.2) in *.
  assert (traced P w.2 b1) as Hcharge.
  { apply (traced_event _ (ECharge (prod_topic p) (in_now i) (frame_metadata frame) (frame_payload frame))); [by apply Hbasic |].
    cbn [apply_event]; f_equal; rewrite <- (update_topic_at _ _ _ _ Ht); by rewrite Ev. }
  unfold traces; etransitivity; [exact Hcharge |]; change b1 with (w.1, b1).2.
  assert (br_heap b1 !! prod_topic p = Some t') as Ht1 by (cbn; by rewrite lookup_alter_eq, Ht).
  revert E2; destruct ok; [|intros E2; unfold send_rate_error in E2; by eapply traces_send in E2].
  intros [(k & w2 & [= <- <-] & E2)|(? & ? & [=] & _)]%bind_inv; cbn [fst] in E2.
  destruct (has_appender (config w.1)); [|by eapply traces_send_direct in E2].
  apply bind_inv in E2 as [([] & w2 & [= <-] & [= _ <-])|(? & ? & [=] & _)]; cbn [fst snd].
  apply (traced_event _ (EEnqueue (prod_topic p) (frame_metadata frame) (frame_payload frame)
    (WriteQueue.Conn producer_id sequence_id (connection_id (config w.1))))); [by apply Henq |].
  cbn [apply_event]; by rewrite Ht1.
Qed.

Lemma traces_send_non_persistent p producer_id sequence_id size :
  keeps (traces P) (send_non_persistent (bytes := bytes) i p producer_id sequence_id size frame).
Proof.
  unfold send_non_persistent, send_rate_error; apply (keeps_bind (traces P)); [eauto with keeps |]; intros []; [eauto with keeps |].
  apply (keeps_bind (traces P)); [eauto with keeps |]; intros _; apply (keeps_bind (traces P)).
  - apply (traces_run _ (EPublishNp (prod_topic p) (in_now i) (frame_metadata frame) (frame_payload frame))); [eauto with keeps |].
    intros b; cbn [apply_event]; f_equal; destruct (br_heap b !! prod_topic p) as [t|] eqn:Ht.
    + rewrite <- (update_topic_at _ _ _ _ Ht); by destruct (publish_non_persistent _ _ _ t).
    + by rewrite update_topic_none.
  - intros [m|[|topic]]; eauto with keeps.
Qed.

Lemma traces_handle_send cmd : keeps (traces P) (handle_send clock i cmd frame).
Proof.
  unfold handle_send; apply (keeps_bind (traces P)); [eauto with keeps |]; intros [pid sid].
  do 3 (apply (keeps_bind (traces P)); [eauto with keeps |]; intros ?); destruct (_ <? _); [eauto with keeps |].
  destruct a0; [destruct (rocksdb_storage a1) |];
    eauto using traces_send_queued, traces_send_direct, traces_send_non_persistent.
Qed.
End commands.

Lemma allowed_basic i cmd frame e : basic e -> allowed i cmd frame e.
Proof. by destruct e. Qed.

(** A command causes the events it allows. *)
Lemma traces_command i cmd frame : keeps (traces (allowed i cmd frame)) (handle_command clock i cmd frame).
Proof.
  pose proof (allowed_basic i cmd frame) as Hb; unfold handle_command; set (P := allowed i cmd frame) in *.
  do 4 (apply (keeps_bind (traces P)); [eauto with keeps | intros ?]).
  destruct (traces_simple P Hb i cmd) as (? & ? & ? & ? & ? & ? & ?).
  repeat lazymatch goal with |- context [Z.eqb ?x ?y] => destruct (Z.eqb_spec x y); [try done | try done] end.
  - by apply traces_producer.
  - by apply traces_handle_send.
  - apply traces_subscribe; [done | intros sub tr Hs; cbn; eauto 10 | intros sub r k answers Hs; cbn; eauto].
  - by apply traces_flow.
  - apply traces_ack; cbn; eauto 10.
  - by apply traces_unsubscribe.
  - by apply traces_seek.
  - by apply traces_get_last.
  - by apply traces_redeliver.
  - eauto with keeps.
Qed.

Section runs.
Context `{CommandCodec} (P : broker_event -> Prop) (clients : BaseCommand -> bool).
Context (Hbasic : forall e, basic e -> P e).

#[local] Hint Extern 1 (P _) => by apply Hbasic : core.

Lemma traced_weaken (Q : broker_event -> Prop) b b' : (forall e, Q e -> P e) -> traced Q b b' -> traced P b b'.
Proof. intros Hq (l & Hl & E); exists l; split; [by eapply Forall_impl | done]. Qed.

Lemma or_fail_traced m w t w' : keeps (traces P) m -> or_fail m w = Some (t, w') -> traced P w.2 w'.2.
Proof.
  intros Hm; unfold or_fail; destruct (m w) as [[[u|e] w1]|] eqn:E; [| |done]; intros [= _ <-]; by apply Hm in E.
Qed.

Lemma run_turn_traced e w t w' :
  (forall i frame cmd ev, e = EFrame i frame -> decode_command (frame_command frame) = Some cmd ->
     allowed i cmd frame ev -> P ev) ->
  run_turn clock e w = Some (t, w') -> traced P w.2 w'.2.
Proof.
  intros He; destruct e as [i frame| | |n|queued|now|now]; cbn [run_turn].
  - destruct (read_paused _); [done |]; destruct (decode_command _) as [cmd|] eqn:Ec; [|by intros [= _ <-]].
    intros E; apply or_fail_traced in E; [done |]; intros w1 r w2 E1.
    apply traces_command in E1; revert E1; apply traced_weaken; intros ev; by apply He.
  - destruct (read_paused _); [done |]; by intros [= _ <-].
  - destruct (read_paused _); [done |]; by intros [= _ <-].
  - destruct (take _ _) as [|a batch]; [done |]; apply or_fail_traced; apply (keeps_bind (traces P)); [|eauto with keeps].
    apply (keeps_for_each (traces P)); intros x _; by apply traces_complete_append.
  - destruct (take _ _) as [|x batch]; [done |]; apply or_fail_traced; apply (keeps_bind (traces P)); [|eauto with keeps].
    apply (keeps_for_each (traces P)); intros o _; apply traces_feed.
  - destruct (handle_keep_alive_tick now w) as [[[[]|e] w1]|] eqn:E; [| | |done]; intros [= _ <-]; cbn [snd];
      enough (keeps (traces P) (handle_keep_alive_tick now)) as Hk by (by apply Hk in E);
      (apply (keeps_bind (traces P)); [eauto with keeps |]; intros c; unfold start_connection_liveness_check;
       repeat case_match; eauto 10 with keeps).
  - destruct (connection_check_in_progress _) as [check|]; [|done]; destruct (_ <=? _); [|done].
    by destruct (handle_connection_check_timeout w.1) as [[] c1]; intros [= _ <-].
Qed.

Lemma finish_run_traced r w r' w' : finish_run clock r w = Some (r', w') -> traced P w.2 w'.2.
Proof.
  unfold finish_run; destruct (cleanup clock _) as [[r1 w1]|] eqn:E; [|done]; intros [= _ <-].
  enough (keeps (traces P) (cleanup clock)) as Hk by (by apply Hk in E).
  unfold cleanup; apply (keeps_bind (traces P)); [eauto with keeps |]; intros c.
  apply (keeps_bind (traces P)); [eauto with keeps |]; intros _.
  apply (keeps_bind (traces P)); [|intros _]; apply (keeps_for_each (traces P)); intros [id x] _;
    [by apply traces_release | by apply traces_leave].
Qed.

Lemma run_task_traced t b r b' : run_task clock t b = Some (r, b') -> traced P b b'.
Proof.
  assert (forall s, keeps (traced P) (ignore (with_sub s (so_dispatch_messages clock)))) as Hd.
  { intros s; apply (keeps_ignore (traced P)); intros b1 r1 b2 E; apply (traced_event _ (EDispatch s)); [auto |].
    exact (f_equal (fmap (M := option) snd) E). }
  destruct t as [tr|s]; cbn [run_task]; [|apply Hd].
  unfold dispatch_to_subscriptions; destruct (br_heap b !! tr) as [t|]; [|by intros [= _ <-]].
  destruct (topic_mode t); [|by intros [= _ <-]]; apply (keeps_for_each (traced P)); auto.
Qed.

Context (Hclients : forall i cmd frame e, clients cmd = true -> allowed i cmd frame e -> P e).
Context (Hserve : forall env round, P (EServe env round)).

Lemma event_ok_traced e w t w' : event_ok clients e = true -> run_turn clock e w = Some (t, w') -> traced P w.2 w'.2.
Proof.
  intros He; apply run_turn_traced; intros i frame cmd ev -> Hd; cbn in He; rewrite Hd in He; by apply Hclients.
Qed.

(** A step of the system is a sequence of events. *)
Lemma sys_step_traced s s' : sys_step clock clients s s' -> traced P (sys_broker s) (sys_broker s').
Proof.
  destruct 1 as [s now k answers _ _ _|s id c e c' b' He Hl E|s id c e r w r' c' b' He Hl E1 E2|
    s id c e err c' b' He Hl E|s l1 t l2 r b' Ht E|s tr window|s env round]; cbn [sys_broker].
  - done.
  - by apply event_ok_traced in E.
  - apply event_ok_traced in E1; [|done]; apply finish_run_traced in E2; by etransitivity.
  - by apply event_ok_traced in E.
  - apply run_task_traced in E; etransitivity; [|exact E]; apply (traced_event _ (ETasks (l1 ++ l2))); auto.
  - apply (traced_event _ (EFanout tr window)); auto.
  - unfold write_round; pose proof (traced_event P (EServe env round) (sys_broker s)) as Ht; cbn in Ht.
    destruct (serve_queue clock env round (sys_broker s)) as [completions b]; apply Ht; auto.
Qed.

Lemma sys_run_traced s s' : rtc (sys_step clock clients) s s' -> traced P (sys_broker s) (sys_broker s').
Proof. induction 1 as [|s1 s2 s3 Hs _ IH]; [done |]; etransitivity; [by apply sys_step_traced | exact IH]. Qed.
End runs.
End events.
