(* ===== verification/Registry.v ===== *)
(** * The registry of topics

    A name stands for one topic: whoever asks for it, at whatever time, gets the same
    topic, and no other topic has that name.  The same for the partitions of a topic
    and for the subscriptions of a topic. *)

From Stdlib Require Import Ascii.
From S2P Require Import Prelude Position Text CursorRead LedgerInfo MetadataCodec EntryLog RocksLedger Keys StickyKey Consumer NonPersistent.
From S2P Require Import PublishRate Commands Codec StorageService Subscription Effects TopicSubscription Topic BrokerService.
From S2P Require Import Connection System Trace.

(** ** Names of partitions *)

Lemma partition_name_parts base i :
  u64_ok i -> rsplit_once PARTITION_INFIX (partition_name base i) = Some (base, show i).
Proof.
  intros Hi; unfold partition_name; rewrite (rsplit_once_app _ base _ "" (show i)); [by rewrite append_nil_r |].
  eapply rsplit_partition_suffix; by apply parse_show.
Qed.

Lemma partition_name_index base i : u64_ok i -> get_partition_index (partition_name base i) = Some i.
Proof. intros Hi; unfold get_partition_index; by rewrite partition_name_parts, parse_show. Qed.

Lemma partition_name_base base i : u64_ok i -> get_base_topic_name (partition_name base i) = Some base.
Proof. intros Hi; unfold get_base_topic_name; by rewrite partition_name_parts, parse_show. Qed.

Lemma parse_i32_show i : 0 <= i <= I32_MAX -> parse_i32 (show i) = Some i.
Proof.
  intros Hi; assert (u64_ok i) as H64 by mlia; pose proof (parse_show i H64) as Hp.
  destruct (show i) as [|c s] eqn:E; [done |]; unfold parse_i32, parse_u64 in *.
  assert (Ascii.eqb c "-"%char = false) as ->.
  { destruct (Ascii.eqb_spec c "-"%char) as [->|]; [|done]; by apply parse_digits_no_dash in Hp. }
  destruct (Ascii.eqb_spec c "+"%char) as [->|].
  - destruct s; [done |]; rewrite Hp; cbn [mbind option_bind]; case_bool; [f_equal; lia | mlia].
  - rewrite Hp; cbn [mbind option_bind]; case_bool; [f_equal; lia | mlia].
Qed.

Lemma partition_name_partition base i :
  0 <= i <= I32_MAX -> extract_partition_from_name (partition_name base i) = i.
Proof.
  intros Hi; unfold extract_partition_from_name; rewrite partition_name_parts by mlia; by rewrite parse_i32_show.
Qed.

Lemma partition_name_inj base base' i j :
  u64_ok i -> u64_ok j -> partition_name base i = partition_name base' j -> base = base' /\ i = j.
Proof.
  intros Hi Hj E; pose proof (partition_name_base base i Hi) as H1; pose proof (partition_name_index base i Hi) as H2.
  rewrite E, partition_name_base in H1 by done; rewrite E, partition_name_index in H2 by done; split; congruence.
Qed.

Lemma partition_index_nonneg name i : get_partition_index name = Some i -> 0 <= i.
Proof.
  unfold get_partition_index; destruct (rsplit_once _ _) as [[a s]|]; [|done]; unfold parse_u64.
  assert (forall s acc n, 0 <= acc -> parse_digits s acc = Some n -> 0 <= n) as Hd.
  { induction s0 as [|c s0 IH]; intros acc n Hacc; cbn; [by intros [= <-] |].
    destruct (digit_value c) as [d|] eqn:E; [|done]; case_bool; [|done]; apply IH.
    revert E; unfold digit_value; case_bool; [intros [= <-]; lia | done]. }
  destruct s as [|c s]; [done |]; destruct (Ascii.eqb c _); [destruct s |]; try done; by apply Hd.
Qed.

Section registry.
Context {bytes : Type}.

Implicit Types b : Broker bytes.

(** ** Looking a name up *)

Definition partition_count (name : string) b : Z := default (default_partitions b) (partition_metadata b !! name).

Definition lookup_whole (name : string) b : option TopicRef :=
  if should_be_partitioned name b then Partitioned <$> partitioned_topics b !! name
  else NonPartitioned <$> topics b !! name.

(** What [get_or_create_topic_auto] returns without creating anything. *)
Definition lookup_auto (name : string) b : option TopicRef :=
  match get_base_topic_name name, get_partition_index name with
  | Some base, Some i =>
      if 0 <? partition_count base b then
        p ← partitioned_topics b !! base;
        match get_partition p i with
        | Some t => Some (Partition t)
        | None => lookup_whole name b
        end
      else lookup_whole name b
  | _, _ => lookup_whole name b
  end.

(** The registry only grows, and nothing changes its kind. *)
Record registry_ext b b' : Prop := {
  re_default : default_partitions b' = default_partitions b;
  re_count : forall name, partition_count name b' = partition_count name b;
  re_kind : forall name, should_be_partitioned name b' = should_be_partitioned name b;
  re_topics : topics b ⊆ topics b';
  re_partitioned : partitioned_topics b ⊆ partitioned_topics b';
}.

#[export] Instance registry_ext_preorder : PreOrder registry_ext.
Proof.
  split; [by split |]; intros b1 b2 b3 [A1 A2 A3 A4 A5] [B1 B2 B3 B4 B5]; split; try congruence;
    try (intros; by rewrite ?B2, ?B3); by etransitivity.
Qed.

Lemma lookup_whole_ext b b' name r : registry_ext b b' -> lookup_whole name b = Some r -> lookup_whole name b' = Some r.
Proof.
  intros [A1 A2 A3 A4 A5]; unfold lookup_whole; rewrite A3; destruct (should_be_partitioned name b);
    intros (x & Hx & ->)%fmap_Some; by erewrite lookup_weaken.
Qed.

Lemma lookup_auto_ext b b' name r : registry_ext b b' -> lookup_auto name b = Some r -> lookup_auto name b' = Some r.
Proof.
  intros He; pose proof He as [A1 A2 A3 A4 A5]; unfold lookup_auto; pose proof (lookup_whole_ext b b' name r He).
  destruct (get_base_topic_name name) as [base|], (get_partition_index name) as [i|]; try done.
  rewrite A2; destruct (0 <? _); [|done]; intros (p & Hp & Hr)%bind_Some.
  erewrite lookup_weaken by done; cbn; destruct (get_partition p i); auto.
Qed.

(** *** Creating *)

Lemma alloc_partitions_registry now base idxs b :
  let b' := (alloc_partitions now base idxs b).2 in
  topics b' = topics b /\ partitioned_topics b' = partitioned_topics b /\ partition_metadata b' = partition_metadata b /\
  default_partitions b' = default_partitions b.
Proof.
  revert b; induction idxs as [|i idxs IH]; intros b; [done |]; cbn [alloc_partitions].
  destruct (alloc_topic now _ b) as [t b1] eqn:E; injection E as <- <-.
  specialize (IH (set_heap (<[fresh (dom (br_heap b)) := set_publish_rate now (publish_rate b)
    (topic_new now (partition_name base (Z.of_nat i)))]> (br_heap b)) b)).
  by destruct (alloc_partitions now base idxs _) as [ts b2].
Qed.

Lemma partitioned_ext now name b p b' :
  0 < partition_count name b \/ should_be_partitioned name b = true ->
  get_or_create_partitioned_topic now name (partition_count name b) b = (p, b') ->
  registry_ext b b' /\ partitioned_topics b' !! name = Some p.
Proof.
  intros Hk; unfold get_or_create_partitioned_topic; destruct (partitioned_topics b !! name) as [q|] eqn:Hq.
  { by intros [= -> ->]. }
  pose proof (alloc_partitions_registry now name (seq 0 (Z.to_nat (partition_count name b))) b) as (Ht & Hp & Hm & Hd).
  destruct (alloc_partitions now name _ b) as [ts b1]; cbn in Ht, Hp, Hm, Hd; intros [= <- <-].
  assert (should_be_partitioned name b = true) as Hs.
  { destruct Hk as [Hk|Hk]; [|done]; unfold should_be_partitioned, partition_count in *.
    destruct (partition_metadata b !! name); cbn in *; [done |].
    rewrite (proj2 (Z.ltb_lt _ _)) by lia; by rewrite orb_true_r. }
  split; [split |]; cbn; rewrite ?Hd; try done.
  - intros name'; unfold partition_count at 1; cbn; rewrite Hm, Hd; destruct (decide (name' = name)) as [->|Hne].
    + by rewrite lookup_insert_eq.
    + by rewrite lookup_insert_ne.
  - intros name'; destruct (decide (name' = name)) as [->|Hne]; unfold should_be_partitioned at 1; cbn.
    + by rewrite lookup_insert_eq, bool_decide_eq_true_2.
    + by rewrite Hm, Hp, Hd, !lookup_insert_ne.
  - by rewrite Ht.
  - rewrite Hp; by apply insert_subseteq.
  - by rewrite lookup_insert_eq.
Qed.

Lemma whole_ext now name b r b' :
  get_or_create_whole_topic now name b = (r, b') -> registry_ext b b' /\ lookup_whole name b' = Some r.
Proof.
  unfold get_or_create_whole_topic; destruct (should_be_partitioned name b) eqn:Hs.
  - fold (partition_count name b); destruct (get_or_create_partitioned_topic now name _ b) as [p b1] eqn:E; intros [= <- <-].
    apply partitioned_ext in E as [He Hp]; [|by right]; split; [done |].
    unfold lookup_whole; by rewrite (re_kind _ _ He), Hs, Hp.
  - unfold get_or_create_topic; destruct (topics b !! name) as [t|] eqn:Ht.
    + intros [= <- <-]; split; [done |]; unfold lookup_whole; by rewrite Hs, Ht.
    + cbn; intros [= <- <-]; assert (registry_ext b (set_topics (<[name := fresh (dom (br_heap b))]> (topics b))
        (set_heap (<[fresh (dom (br_heap b)) := set_publish_rate now (publish_rate b) (topic_new now name)]> (br_heap b)) b))) as He.
      { split; try done; cbn; by apply insert_subseteq. }
      split; [done |]; unfold lookup_whole; rewrite (re_kind _ _ He), Hs; cbn; by rewrite lookup_insert_eq.
Qed.

Lemma auto_ext now name b r b' :
  get_or_create_topic_auto now name b = (r, b') -> registry_ext b b' /\ lookup_auto name b' = Some r.
Proof.
  unfold get_or_create_topic_auto, lookup_auto.
  destruct (get_base_topic_name name) as [base|]; [|apply whole_ext].
  destruct (get_partition_index name) as [i|]; [|apply whole_ext]; fold (partition_count base b).
  destruct (Z.ltb_spec 0 (partition_count base b)) as [Hc|Hc].
  - destruct (get_or_create_partitioned_topic now base _ b) as [p b1] eqn:E; apply partitioned_ext in E as [He Hp]; [|by left].
    destruct (get_partition p i) as [t|] eqn:Hi.
    + intros [= <- <-]; split; [done |]; rewrite (re_count _ _ He), (proj2 (Z.ltb_lt _ _)) by lia; by rewrite Hp; cbn; rewrite Hi.
    + intros [He' Hl]%whole_ext; split; [by etransitivity |]; pose proof (transitivity He He') as He2.
      rewrite (re_count _ _ He2), (proj2 (Z.ltb_lt _ _)) by lia.
      erewrite lookup_weaken by (done || apply He'); cbn; by rewrite Hi.
  - intros [He Hl]%whole_ext; split; [done |]; by rewrite (re_count _ _ He), (proj2 (Z.ltb_ge _ _)) by lia.
Qed.

Lemma lookup_whole_done now name b r : lookup_whole name b = Some r -> get_or_create_whole_topic now name b = (r, b).
Proof.
  unfold lookup_whole, get_or_create_whole_topic, get_or_create_partitioned_topic, get_or_create_topic.
  destruct (should_be_partitioned name b); by intros (x & -> & ->)%fmap_Some.
Qed.

Lemma lookup_auto_done now name b r : lookup_auto name b = Some r -> get_or_create_topic_auto now name b = (r, b).
Proof.
  unfold lookup_auto, get_or_create_topic_auto; pose proof (lookup_whole_done now name b r).
  destruct (get_base_topic_name name) as [base|]; [|done]; destruct (get_partition_index name) as [i|]; [|done].
  fold (partition_count base b); destruct (0 <? _); [|done]; intros (p & Hp & Hr)%bind_Some.
  unfold get_or_create_partitioned_topic; rewrite Hp; destruct (get_partition p i); [congruence | auto].
Qed.
(** ** Names are unique *)

(** What never changes of a topic. *)
Definition topic_identity_of (t : Topic) : string * Z * RuntimeMode := (topic_name t, topic_partition t, topic_mode t).

Record registry_wf b : Prop := {
  rw_topics : forall name tr, topics b !! name = Some tr ->
    topic_name <$> br_heap b !! tr = Some name /\ should_be_partitioned name b = false /\
    forall base i, get_base_topic_name name = Some base -> get_partition_index name = Some i -> partition_count base b <= i;
  rw_partitioned : forall name p, partitioned_topics b !! name = Some p ->
    pt_name p = name /\ partition_count name b = pt_count p /\ length (pt_partitions p) = Z.to_nat (pt_count p) /\
    forall i tr, pt_partitions p !! i = Some tr -> topic_name <$> br_heap b !! tr = Some (partition_name name (Z.of_nat i));
  rw_heap : forall tr t, br_heap b !! tr = Some t ->
    topics b !! topic_name t = Some tr \/
    exists base p i, partitioned_topics b !! base = Some p /\ pt_partitions p !! i = Some tr /\
      topic_name t = partition_name base (Z.of_nat i);
  rw_new : forall tr t, br_heap b !! tr = Some t ->
    topic_partition t = extract_partition_from_name (topic_name t) /\
    topic_mode t = runtime_mode_from_topic_name (topic_name t);
  rw_count : forall name, partition_count name b <= U64_MAX;
}.

Lemma partition_in_range b name p i tr :
  registry_wf b -> partitioned_topics b !! name = Some p -> pt_partitions p !! i = Some tr ->
  u64_ok (Z.of_nat i) /\ Z.of_nat i < partition_count name b.
Proof.
  intros Hw Hp Hi%lookup_lt_Some; destruct (rw_partitioned _ Hw _ _ Hp) as (_ & Hc & Hl & _); pose proof (rw_count _ Hw name).
  unfold u64_ok; lia.
Qed.

Lemma topic_not_partition b name tr base p i tr' :
  registry_wf b -> topics b !! name = Some tr -> partitioned_topics b !! base = Some p -> pt_partitions p !! i = Some tr' ->
  name <> partition_name base (Z.of_nat i).
Proof.
  intros Hw Hn Hp Hi ->; destruct (partition_in_range _ _ _ _ _ Hw Hp Hi) as [H64 Hlt].
  destruct (rw_topics _ Hw _ _ Hn) as (_ & _ & Hge).
  specialize (Hge base _ (partition_name_base _ _ H64) (partition_name_index _ _ H64)); lia.
Qed.

Lemma names_unique b tr tr' t t' :
  registry_wf b -> br_heap b !! tr = Some t -> br_heap b !! tr' = Some t' -> topic_name t = topic_name t' -> tr = tr'.
Proof.
  intros Hw Ht Ht' Hn; destruct (rw_heap _ Hw _ _ Ht) as [H1|(base & p & i & Hp & Hi & E)],
    (rw_heap _ Hw _ _ Ht') as [H2|(base' & p' & j & Hp' & Hj & E')].
  - congruence.
  - exfalso; eapply topic_not_partition; [exact Hw | exact H1 | exact Hp' | exact Hj |]; congruence.
  - exfalso; eapply topic_not_partition; [exact Hw | exact H2 | exact Hp | exact Hi |]; congruence.
  - rewrite E, E' in Hn; destruct (partition_in_range _ _ _ _ _ Hw Hp Hi) as [H1 _], (partition_in_range _ _ _ _ _ Hw Hp' Hj) as [H2 _].
    apply partition_name_inj in Hn as [<- Hij]; [|done..]; assert (i = j) as -> by lia; congruence.
Qed.

(** *** Creation keeps the names unique *)

Lemma alloc_partitions_spec now base idxs b ts b' :
  alloc_partitions now base idxs b = (ts, b') ->
  length ts = length idxs /\ br_heap b ⊆ br_heap b' /\
  (forall k i tr, idxs !! k = Some i -> ts !! k = Some tr ->
     exists t, br_heap b' !! tr = Some t /\ topic_identity_of t = topic_identity_of (topic_new now (partition_name base (Z.of_nat i)))) /\
  (forall tr t, br_heap b' !! tr = Some t -> br_heap b !! tr = Some t \/
     exists k i, idxs !! k = Some i /\ ts !! k = Some tr).
Proof.
  revert b ts; induction idxs as [|i idxs IH]; intros b ts; cbn [alloc_partitions].
  { intros [= <- <-]; split_and!; [done | done | by intros [] | by left]. }
  unfold alloc_topic; set (tr0 := fresh _); set (t0 := set_publish_rate _ _ _); set (b1 := set_heap _ _).
  destruct (alloc_partitions now base idxs b1) as [ts1 b2] eqn:E; intros [= <- <-].
  destruct (IH _ _ E) as (Hl & Hsub & Hnew & Hold).
  assert (br_heap b !! tr0 = None) as Hfresh by (apply not_elem_of_dom, is_fresh).
  assert (br_heap b1 !! tr0 = Some t0) as H0 by apply lookup_insert_eq.
  split_and!; [by cbn; rewrite Hl | | |].
  - etransitivity; [|exact Hsub]; by apply insert_subseteq.
  - intros [|k] j tr; cbn; [intros [= <-] [= <-]; exists t0; split; [by eapply lookup_weaken | done] | apply Hnew].
  - intros tr t Ht; destruct (Hold _ _ Ht) as [H1|(k & j & ? & ?)]; [|right; by exists (S k), j].
    unfold b1 in H1; cbn in H1; apply lookup_insert_Some in H1 as [[<- _]|[_ ?]]; [right; by exists 0%nat, i | by left].
Qed.

Lemma heap_weaken b b' tr (name : string) :
  br_heap b ⊆ br_heap b' -> topic_name <$> br_heap b !! tr = Some name -> topic_name <$> br_heap b' !! tr = Some name.
Proof. intros Hs (t & Ht & ->)%fmap_Some; by erewrite lookup_weaken. Qed.

(** Nothing that was registered is touched. *)
Lemma registry_wf_grow b b' :
  registry_wf b -> registry_ext b b' -> br_heap b ⊆ br_heap b' ->
  (forall name tr, topics b' !! name = Some tr -> topics b !! name = Some tr \/
     (topic_name <$> br_heap b' !! tr = Some name /\ should_be_partitioned name b = false /\
      forall base i, get_base_topic_name name = Some base -> get_partition_index name = Some i -> partition_count base b <= i)) ->
  (forall name p, partitioned_topics b' !! name = Some p -> partitioned_topics b !! name = Some p \/
     (pt_name p = name /\ partition_count name b = pt_count p /\ length (pt_partitions p) = Z.to_nat (pt_count p) /\
      forall i tr, pt_partitions p !! i = Some tr -> topic_name <$> br_heap b' !! tr = Some (partition_name name (Z.of_nat i)))) ->
  (forall tr t, br_heap b' !! tr = Some t -> br_heap b !! tr = Some t \/
     ((topics b' !! topic_name t = Some tr \/ exists base p i, partitioned_topics b' !! base = Some p /\
         pt_partitions p !! i = Some tr /\ topic_name t = partition_name base (Z.of_nat i)) /\
      exists now, topic_identity_of t = topic_identity_of (topic_new now (topic_name t)))) ->
  registry_wf b'.
Proof.
  intros [W1 W2 W3 W4 W5] He Hsub Ht Hp Hh; pose proof He as [E1 E2 E3 E4 E5]; split.
  - intros name tr Hn; rewrite E3; destruct (Ht _ _ Hn) as [Hold|(? & ? & Hc)].
    + destruct (W1 _ _ Hold) as (? & ? & Hc); split_and!; [by eapply heap_weaken | done |].
      intros base i Hb Hi; rewrite E2; by eapply Hc.
    + split_and!; [done | done |]; intros base i Hb Hi; rewrite E2; by eapply Hc.
  - intros name p Hn; rewrite E2; destruct (Hp _ _ Hn) as [Hold|?]; [|done].
    destruct (W2 _ _ Hold) as (? & ? & ? & Hi); split_and!; [done.. |]; intros i tr Htr; by eapply heap_weaken, Hi.
  - intros tr t Htr; destruct (Hh _ _ Htr) as [Hold|[Hreg _]]; [|done].
    destruct (W3 _ _ Hold) as [?|(base & p & i & ? & ? & ?)]; [left; by eapply lookup_weaken |].
    right; exists base, p, i; split_and!; [by eapply lookup_weaken | done | done].
  - intros tr t Htr; destruct (Hh _ _ Htr) as [Hold|[_ [now Hid]]]; [by eapply W4 |].
    by injection Hid as -> ->.
  - intros name; rewrite E2; apply W5.
Qed.

Lemma partitioned_wf now name b p b' :
  registry_wf b -> 0 < partition_count name b \/ should_be_partitioned name b = true ->
  get_or_create_partitioned_topic now name (partition_count name b) b = (p, b') -> registry_wf b'.
Proof.
  intros Hw Hk E; pose proof (partitioned_ext _ _ _ _ _ Hk E) as [He _].
  revert E; unfold get_or_create_partitioned_topic; destruct (partitioned_topics b !! name) as [q|] eqn:Hq; [by intros [= _ <-] |].
  pose proof (alloc_partitions_registry now name (seq 0 (Z.to_nat (partition_count name b))) b) as (Ht & Hp & _ & _).
  destruct (alloc_partitions now name _ b) as [ts b1] eqn:Ea; cbn in Ht, Hp; intros [= <- <-].
  apply alloc_partitions_spec in Ea as (Hl & Hsub & Hnew & Hold); rewrite length_seq in Hl.
  assert (forall i tr, ts !! i = Some tr -> seq 0 (Z.to_nat (partition_count name b)) !! i = Some i) as Hseq.
  { intros i tr Hi%lookup_lt_Some; rewrite Hl in Hi; rewrite lookup_seq_lt; [done | lia]. }
  eapply registry_wf_grow; [done | exact He | done | ..]; cbn.
  - intros n tr; rewrite Ht; by left.
  - intros n q [[<- <-]|[_ Hn]]%lookup_insert_Some; [right | rewrite Hp in Hn; by left].
    split_and!; [done | done | done |]; cbn; intros i tr Hi; destruct (Hnew i i tr (Hseq _ _ Hi) Hi) as (t & -> & Hid).
    cbn; by injection Hid as -> _ _.
  - intros tr t Htr; destruct (Hold _ _ Htr) as [?|(k & i & Hi & Hk')]; [by left | right].
    pose proof (Hseq _ _ Hk') as Hs; rewrite Hs in Hi; injection Hi as <-; destruct (Hnew _ _ _ Hs Hk') as (t' & Ht' & Hid).
    assert (t' = t) as -> by congruence; pose proof Hid as Hn; injection Hn as Hn _ _; split; [|exists now; by rewrite Hn].
    right; exists name; eexists; exists k; split_and!; [apply lookup_insert_eq | done | done].
Qed.

Lemma whole_wf now name b r b' :
  registry_wf b ->
  (forall base i, get_base_topic_name name = Some base -> get_partition_index name = Some i -> partition_count base b <= i) ->
  get_or_create_whole_topic now name b = (r, b') -> registry_wf b'.
Proof.
  intros Hw Hc E; pose proof (whole_ext _ _ _ _ _ E) as [He _]; revert E.
  unfold get_or_create_whole_topic; destruct (should_be_partitioned name b) eqn:Hs.
  - fold (partition_count name b); destruct (get_or_create_partitioned_topic now name _ b) as [p b1] eqn:E; intros [= _ <-].
    eapply partitioned_wf; [done | by right | exact E].
  - unfold get_or_create_topic; destruct (topics b !! name) as [t|] eqn:Ht; [by intros [= _ <-] |].
    unfold alloc_topic; set (tr0 := fresh _); set (t0 := set_publish_rate _ _ _); intros [= _ <-].
    assert (br_heap b !! tr0 = None) as Hfresh by (apply not_elem_of_dom, is_fresh).
    eapply registry_wf_grow; [done | exact He | by apply insert_subseteq | ..]; cbn.
    + intros n tr [[<- <-]|[_ Hn]]%lookup_insert_Some; [right | by left]; by rewrite lookup_insert_eq.
    + by left.
    + intros tr t [[<- <-]|[_ Hn]]%lookup_insert_Some; [right | by left]; split; [left; by rewrite lookup_insert_eq |].
      by exists now.
Qed.

Lemma auto_wf now name b r b' : registry_wf b -> get_or_create_topic_auto now name b = (r, b') -> registry_wf b'.
Proof.
  intros Hw; unfold get_or_create_topic_auto.
  destruct (get_base_topic_name name) as [base|] eqn:Hbase; [|apply whole_wf; [done | congruence]].
  destruct (get_partition_index name) as [i|] eqn:Hi; [|apply whole_wf; [done | congruence]]; fold (partition_count base b).
  assert (0 <= i) as H0 by (by eapply partition_index_nonneg).
  destruct (Z.ltb_spec 0 (partition_count base b)) as [Hc|Hc].
  - destruct (get_or_create_partitioned_topic now base _ b) as [p b1] eqn:E.
    pose proof (partitioned_wf _ _ _ _ _ Hw (or_introl Hc) E) as Hw1; apply partitioned_ext in E as [He Hp]; [|by left].
    destruct (get_partition p i) as [t|] eqn:Hg; [by intros [= _ <-] |]; apply whole_wf; [done |].
    intros base' i' Hb' Hi'; assert (base' = base /\ i' = i) as [-> ->] by (split; congruence).
    destruct (rw_partitioned _ Hw1 _ _ Hp) as (_ & -> & Hl & _); unfold get_partition in Hg.
    destruct (Z.ltb_spec i (pt_count p)); [|lia]; apply lookup_ge_None in Hg; lia.
  - apply whole_wf; [done |]; intros base' i' Hb' Hi'; assert (base' = base /\ i' = i) as [-> ->] by (split; congruence); lia.
Qed.

(** Creation only adds topics, which have no subscriptions yet. *)
Record grew b b' : Prop := {
  gw_subs : br_subs b' = br_subs b;
  gw_store : br_store b' = br_store b;
  gw_queue : write_queue b' = write_queue b;
  gw_heap : br_heap b ⊆ br_heap b';
  gw_new : forall tr t, br_heap b' !! tr = Some t -> br_heap b !! tr = Some t \/ topic_subscriptions t = ∅;
}.

#[local] Instance grew_preorder : PreOrder grew.
Proof.
  split; [split; by auto |]; intros b1 b2 b3 [A1 A2 A3 A4 A5] [B1 B2 B3 B4 B5]; split; [congruence.. | by etransitivity |].
  intros tr t Ht; destruct (B5 _ _ Ht) as [H2|]; [|by right]; by apply A5 in H2.
Qed.

Lemma alloc_grew now name b : grew b (alloc_topic now name b).2.
Proof.
  split; cbn; try done.
  - apply insert_subseteq, not_elem_of_dom, is_fresh.
  - intros tr t [[<- <-]|[_ ?]]%lookup_insert_Some; [by right | by left].
Qed.

Lemma alloc_partitions_grew now base idxs b : grew b (alloc_partitions now base idxs b).2.
Proof.
  revert b; induction idxs as [|i idxs IH]; intros b; [done |]; cbn [alloc_partitions].
  pose proof (alloc_grew now (partition_name base (Z.of_nat i)) b) as H1; destruct (alloc_topic _ _ b) as [t b1].
  specialize (IH b1); destruct (alloc_partitions now base idxs b1) as [ts b2]; by etransitivity.
Qed.

Lemma partitioned_grew now name n b : grew b (get_or_create_partitioned_topic now name n b).2.
Proof.
  unfold get_or_create_partitioned_topic; destruct (partitioned_topics b !! name); [done |].
  pose proof (alloc_partitions_grew now name (seq 0 (Z.to_nat n)) b) as [A1 A2 A3 A4 A5].
  by destruct (alloc_partitions now name _ b) as [ts b1].
Qed.

Lemma whole_grew now name b : grew b (get_or_create_whole_topic now name b).2.
Proof.
  unfold get_or_create_whole_topic, get_or_create_topic; destruct (should_be_partitioned name b).
  - pose proof (partitioned_grew now name (default (default_partitions b) (partition_metadata b !! name)) b) as Hg.
    by destruct (get_or_create_partitioned_topic _ _ _ b).
  - destruct (topics b !! name); [done |]; pose proof (alloc_grew now name b) as [A1 A2 A3 A4 A5]; by destruct (alloc_topic now name b).
Qed.

Lemma auto_grew now name b : grew b (get_or_create_topic_auto now name b).2.
Proof.
  unfold get_or_create_topic_auto; destruct (get_base_topic_name name) as [base|]; [|apply whole_grew].
  destruct (get_partition_index name) as [i|]; [|apply whole_grew]; destruct (0 <? _); [|apply whole_grew].
  set (n := default _ _); pose proof (partitioned_grew now base n b) as Hg; destruct (get_or_create_partitioned_topic _ _ _ b) as [p b1].
  destruct (get_partition p i); [done |]; etransitivity; [exact Hg | apply whole_grew].
Qed.
End registry.

(** ** Events *)

Section events.
Context {bytes : Type} `{DbCodec bytes} `{MetadataDecoder} (clock : Z -> Z).

Implicit Types b : Broker bytes.

(** What is registered under which name. *)
Definition same_registry b b' : Prop :=
  topics b' = topics b /\ partitioned_topics b' = partitioned_topics b /\ partition_metadata b' = partition_metadata b /\
  default_partitions b' = default_partitions b.

#[local] Instance same_registry_preorder : PreOrder same_registry.
Proof. split; [by intros b |]; intros b1 b2 b3 (? & ? & ? & ?) (? & ? & ? & ?); split_and!; congruence. Qed.

Lemma same_registry_ext b b' : same_registry b b' -> registry_ext b b'.
Proof.
  intros (Ht & Hp & Hm & Hd); split; [done | | | by rewrite Ht | by rewrite Hp];
    intros name; unfold partition_count, should_be_partitioned; by rewrite ?Hp, ?Hm, ?Hd.
Qed.

Lemma with_sub_shape {A} r (op : sub_op (bytes := bytes) A) b b' :
  after (with_sub r op) b = Some b' ->
  b' = b \/ exists o o' st' res, br_subs b !! r = Some o /\ op (o, br_store b) = Some (res, (o', st')) /\
    b' = set_store st' (set_subs (<[r := o']> (br_subs b)) b).
Proof.
  unfold after, with_sub; destruct (br_subs b !! r) as [o|]; [|intros [= <-]; by left].
  destruct (op _) as [[res [o' st']]|] eqn:E; [|done]; cbn; intros [= <-]; right; by exists o, o', st', res.
Qed.

Lemma with_sub_registry {A} r (op : sub_op (bytes := bytes) A) b b' :
  after (with_sub r op) b = Some b' -> same_registry b b' /\ br_heap b' = br_heap b.
Proof. by intros [->|(o & o' & st' & res & _ & _ & ->)]%with_sub_shape. Qed.

Lemma open_shape tr name t policy options b b' :
  after (get_or_create_subscription_with_options clock tr name t policy options) b = Some b' ->
  (same_registry b b' /\ br_heap b' = br_heap b /\ br_subs b' = br_subs b) \/
  exists topic o, br_heap b !! tr = Some topic /\ topic_subscriptions topic !! name = None /\
    so_name o = name /\ so_topic o = topic_name topic /\ so_mode o = topic_mode topic /\ so_type o = t /\
    same_registry b b' /\ br_subs b' = <[fresh (dom (br_subs b)) := o]> (br_subs b) /\
    br_heap b' = alter (set_subscriptions (<[name := fresh (dom (br_subs b))]> (topic_subscriptions topic))) tr (br_heap b).
Proof.
  unfold after, get_or_create_subscription_with_options; destruct (br_heap b !! tr) as [topic|]; [|intros [= <-]; by left].
  destruct (topic_subscriptions topic !! name) eqn:Hn; [intros [= <-]; by left |].
  destruct (topic_mode topic) eqn:Hm.
  - unfold open_subscription_cursor; destruct (initialize_or_open_cursor _ _ _ _ _) as [[res|e] st]; intros [= <-]; [right | by left].
    exists topic; eexists; split_and!; try done; cbn; by rewrite ?Hm.
  - intros [= <-]; right; exists topic; eexists; split_and!; try done; cbn; by rewrite ?Hm.
Qed.

(** Only the lookup of a topic changes the registry. *)
Lemma event_same_registry e b b' :
  apply_event clock e b = Some b' -> (forall now name, e <> ETopic now name) -> same_registry b b'.
Proof.
  intros E He; revert E.
  destruct e; cbn [apply_event]; try (by intros [? _]%with_sub_registry); try (by intros [= <-]).
  - by destruct (He now name).
  - by intros [(Hs & _)|(? & ? & ? & ? & ? & ? & ? & ? & ? & ?)]%open_shape.
  - intros [= <-]; unfold unregister_subscription; by destruct (topics b !! topic).
  - intros [= <-]; unfold publish_persistent; destruct (br_heap b !! tr) as [t|]; [|done].
    destruct (validate_publish_rate _ _ _ t) as [[] t']; [|done]; by destruct (append_message_with_metadata _ _ _ _ _ _ _ _).
  - intros [= <-]; by destruct (br_heap b !! tr).
  - intros [= <-]; unfold fanout_turn; destruct (br_heap b !! tr) as [t|]; [|done]; by destruct (fanout_worker _ _ _).
  - intros [= <-]; unfold serve_queue; destruct (br_store b) as [|w]; [done |].
    destruct (WriteQueue.take_batch _ _) as [batch rest]; by destruct (WriteQueue.run_groups _ _ _ _ _ _).
Qed.

Lemma event_registry e b b' : apply_event clock e b = Some b' -> registry_ext b b'.
Proof.
  intros E; destruct e; try (by eapply same_registry_ext, event_same_registry).
  cbn [apply_event] in E; destruct (get_or_create_topic_auto now name b) as [r b1] eqn:Er; injection E as <-.
  by apply auto_ext in Er as [? _].
Qed.

(** A part of a topic that publications and producers do not change. *)
Record stable_part {A} (g : Topic -> A) : Prop := {
  sp_producers : forall ps t, g (set_producers ps t) = g t;
  sp_limiter : forall l t, g (set_limiter l t) = g t;
  sp_fanout : forall q t, g (set_fanout q t) = g t;
}.

Definition same_part {A} (g : Topic -> A) b b' : Prop := forall tr, g <$> br_heap b' !! tr = g <$> br_heap b !! tr.

(** The topics are who they were. *)
Definition same_topics b b' : Prop := same_part topic_identity_of b b'.

Lemma update_topic_same {A} (g : Topic -> A) tr f b : (forall t, g (f t) = g t) -> same_part g b (update_topic tr f b).
Proof.
  intros Hf tr'; cbn; destruct (decide (tr' = tr)) as [->|Hne]; [|by rewrite lookup_alter_ne].
  rewrite lookup_alter_eq; destruct (br_heap b !! tr); cbn; by rewrite ?Hf.
Qed.

Lemma charge_same {A} (g : Topic -> A) now meta data t : stable_part g -> g (validate_publish_rate now meta data t).2 = g t.
Proof. intros [_ Hl _]; unfold validate_publish_rate; destruct (allow_publish _ _ _ _ _); apply Hl. Qed.

Lemma publish_np_same {A} (g : Topic -> A) now meta data t : stable_part g -> g (publish_non_persistent now meta data t).2 = g t.
Proof.
  intros Hg; unfold publish_non_persistent, prepare_non_persistent_publish; destruct (topic_mode t); [done |].
  pose proof (charge_same g now meta data t Hg) as Hc; destruct (validate_publish_rate now meta data t) as [[] t']; [|done].
  cbn; by rewrite (sp_fanout _ Hg).
Qed.

Lemma registry_wf_same b b' : same_registry b b' -> same_topics b b' -> registry_wf b -> registry_wf b'.
Proof.
  intros Hr Hh [W1 W2 W3 W4 W5]; pose proof (same_registry_ext _ _ Hr) as [E1 E2 E3 _ _]; destruct Hr as (Ht & Hp & _ & _).
  assert (forall tr, topic_name <$> br_heap b' !! tr = topic_name <$> br_heap b !! tr) as Hn.
  { intros tr; specialize (Hh tr); destruct (br_heap b' !! tr), (br_heap b !! tr); try done.
    injection Hh as E _ _; cbn; by rewrite E. }
  assert (forall tr t', br_heap b' !! tr = Some t' -> exists t, br_heap b !! tr = Some t /\ topic_identity_of t' = topic_identity_of t)
    as Hold.
  { intros tr t' E; specialize (Hh tr); rewrite E in Hh; destruct (br_heap b !! tr) as [t|]; [|done]; exists t.
    split; [done |]; cbn in Hh; congruence. }
  split.
  - intros name tr; rewrite Ht, Hn, E3; intros (? & ? & Hc)%W1; split_and!; [done.. |]; intros base i; rewrite E2; apply Hc.
  - intros name p; rewrite Hp, E2; intros (? & ? & ? & Hc)%W2; split_and!; [done.. |]; intros i tr; rewrite Hn; apply Hc.
  - intros tr t' (t & Htr & Hid)%Hold; injection Hid as N1 _ _; rewrite N1, Ht, Hp; by apply W3.
  - intros tr t' (t & Htr & Hid)%Hold; injection Hid as N1 N2 N3; rewrite N1, N2, N3; by apply W4 in Htr.
  - intros name; rewrite E2; apply W5.
Qed.

(** Events that change neither the registry nor the subscriptions of a topic. *)
Lemma event_part {A} (g : Topic -> A) e b b' :
  stable_part g -> match e with ETopic _ _ | EOpen _ _ _ _ _ | EUnregister _ _ => False | _ => True end ->
  apply_event clock e b = Some b' -> same_registry b b' /\ same_part g b b'.
Proof.
  intros Hg; destruct e; try done; intros _; cbn [apply_event];
    try (intros [? Hh]%with_sub_registry; split; [done |]; intros tr'; by rewrite Hh);
    try (by intros [= <-]).
  - intros [= <-]; split; [done |]; apply update_topic_same; intros; apply Hg.
  - intros [= <-]; split; [done |]; apply update_topic_same; intros; apply Hg.
  - intros [= <-]; split; [done |]; apply update_topic_same; intros; by apply charge_same.
  - intros [= <-]; split; [done |]; apply update_topic_same; intros; by apply publish_np_same.
  - intros [= <-]; unfold publish_persistent; destruct (br_heap b !! tr) as [t|] eqn:Ht; [|done].
    assert (same_part g b (update_topic tr (fun _ => (validate_publish_rate now meta data t).2) b)) as Hs
      by (rewrite (update_topic_at tr (fun t => (validate_publish_rate now meta data t).2) b t Ht);
          apply update_topic_same; intros; by apply charge_same).
    destruct (validate_publish_rate now meta data t) as [[] t']; [|done]; by destruct (append_message_with_metadata _ _ _ _ _ _ _ _).
  - intros [= <-]; by destruct (br_heap b !! tr).
  - intros [= <-]; unfold fanout_turn; destruct (br_heap b !! tr) as [t|]; [|done].
    destruct (fanout_worker _ _ _) as [rest h]; split; [done |]; apply (update_topic_same g tr (set_fanout rest) (set_subs h b)).
    intros; apply Hg.
  - intros [= <-]; unfold serve_queue; destruct (br_store b) as [|w]; [done |].
    destruct (WriteQueue.take_batch _ _) as [batch rest]; by destruct (WriteQueue.run_groups _ _ _ _ _ _).
Qed.

Lemma identity_stable : stable_part topic_identity_of.
Proof. by split. Qed.

Lemma subscriptions_stable : stable_part topic_subscriptions.
Proof. by split. Qed.

Lemma event_topics e b b' :
  (forall now name, e <> ETopic now name) -> apply_event clock e b = Some b' -> same_registry b b' /\ same_topics b b'.
Proof.
  intros Hne; destruct e; try (by apply event_part; [apply identity_stable |]); cbn [apply_event].
  - by destruct (Hne now name).
  - intros [(? & Hh & _)|(topic & o & Ht & _ & _ & _ & _ & _ & Hr & _ & Hh)]%open_shape; (split; [done |]); intros tr'; rewrite Hh; [done |].
    apply (update_topic_same _ tr _ b); done.
  - intros [= <-]; unfold unregister_subscription; destruct (topics b !! topic); [|done]; split; [done | by apply update_topic_same].
Qed.

Lemma event_wf e b b' : apply_event clock e b = Some b' -> registry_wf b -> registry_wf b'.
Proof.
  intros E Hw; destruct e; try (apply event_topics in E as [Hr Ht]; [by eapply registry_wf_same | done]).
  cbn in E; destruct (get_or_create_topic_auto now name b) as [r b1] eqn:Ea; injection E as <-; by eapply auto_wf.
Qed.

(** ** Subscriptions *)

(** Who a subscription is. *)
Definition sub_identity_of (o : SubscriptionObject) : string * string * RuntimeMode * SubscriptionType :=
  (so_name o, so_topic o, so_mode o, so_type o).

(** Every name a topic knows is that of an existing subscription of the topic. *)
Definition subs_wf b : Prop :=
  forall tr t name r, br_heap b !! tr = Some t -> topic_subscriptions t !! name = Some r ->
    exists o, br_subs b !! r = Some o /\ so_name o = name /\ so_topic o = topic_name t /\ so_mode o = topic_mode t.

(** Two names do not share a subscription. *)
Lemma subs_unique b tr tr' t t' name name' r :
  registry_wf b -> subs_wf b -> br_heap b !! tr = Some t -> br_heap b !! tr' = Some t' ->
  topic_subscriptions t !! name = Some r -> topic_subscriptions t' !! name' = Some r -> tr = tr' /\ name = name'.
Proof.
  intros Hw Hs Ht Ht' Hn Hn'; destruct (Hs _ _ _ _ Ht Hn) as (o & Ho & E1 & E2 & _), (Hs _ _ _ _ Ht' Hn') as (o' & Ho' & E3 & E4 & _).
  assert (o' = o) as -> by congruence; split; [eapply names_unique; eauto; congruence | congruence].
Qed.

(** The operations of a subscription leave its identity. *)
Definition keeps_identity {A} (op : sub_op (bytes := bytes) A) : Prop :=
  keeps (fun w w' => sub_identity_of w'.1 = sub_identity_of w.1) op.

Lemma identity_with_cursor {A} f (absent : A) : keeps_identity (with_cursor clock f absent).
Proof.
  intros w r w'; unfold with_cursor; destruct (so_rt w.1) as [rt|]; [|by intros [= _ <-]].
  destruct (f _) as [[res sub]|]; [|done]; by intros [= _ <-].
Qed.

Lemma identity_remove id o : sub_identity_of (so_remove_consumer id o).2 = sub_identity_of o.
Proof.
  unfold so_remove_consumer; destruct (so_mode o) eqn:Hm.
  - destruct (so_rt o) as [rt|]; [|done]; by destruct (runtime_remove_consumer id rt).
  - destruct (so_np o) as [np|]; [|done]; by destruct (npr_remove_consumer id np).
Qed.

Lemma identity_join c o : sub_identity_of (so_add_consumer c o).2 = sub_identity_of o.
Proof.
  unfold so_add_consumer; destruct (so_mode o) eqn:Hm.
  - destruct (so_rt o) as [rt|]; [|done]; by destruct (runtime_add_consumer c rt).
  - by destruct (npr_add_consumer c _).
Qed.

#[local] Instance identity_preorder :
  PreOrder (fun w w' : SubscriptionObject * ManagedLedgerStore bytes => sub_identity_of w'.1 = sub_identity_of w.1).
Proof. split; [done |]; intros w1 w2 w3 ? ?; congruence. Qed.

Lemma identity_leave id : keeps_identity (so_remove_with_recovery clock id).
Proof.
  intros w r w'; unfold so_remove_with_recovery; destruct (so_mode w.1); [apply identity_with_cursor |].
  intros [= _ <-]; apply identity_remove.
Qed.

Lemma identity_unsubscribe id : keeps_identity (so_unsubscribe_consumer clock id).
Proof.
  apply keeps_bind; [apply _ | apply identity_leave |]; intros _; apply keeps_bind; [apply _ | by intros w r w' [= _ <-] |].
  intros p; apply keeps_when; [apply _ |]; intros w r w'; unfold so_delete_cursor; destruct (delete_cursor _ _ _); by intros [= _ <-].
Qed.

Lemma identity_seek m : keeps_identity (so_seek_to_message_id clock m).
Proof.
  apply keeps_bind; [apply _ | by intros w r w' [= _ <-] |]; intros []; [apply identity_with_cursor | by intros w r w' [= _ <-]].
Qed.

Lemma identity_seek_time t : keeps_identity (so_seek_by_publish_time clock t).
Proof.
  apply keeps_bind; [apply _ | by intros w r w' [= _ <-] |]; intros []; [apply identity_with_cursor | by intros w r w' [= _ <-]].
Qed.

(** *** The subscriptions after an event *)

Definition same_subs b b' : Prop := forall r, sub_identity_of <$> br_subs b' !! r = sub_identity_of <$> br_subs b !! r.

Lemma with_sub_same {A} r (op : sub_op (bytes := bytes) A) b b' :
  keeps_identity op -> after (with_sub r op) b = Some b' -> same_subs b b'.
Proof.
  intros Hop [->|(o & o' & st' & res & Ho & E & ->)]%with_sub_shape; [done |]; intros r'; cbn.
  destruct (decide (r' = r)) as [->|Hne]; [|by rewrite lookup_insert_ne].
  rewrite lookup_insert_eq, Ho; apply Hop in E; cbn in *; by rewrite E.
Qed.

Lemma send_np_same es o : sub_identity_of (send_non_persistent_entries es o) = sub_identity_of o.
Proof. unfold send_non_persistent_entries; by destruct (so_mode o). Qed.

Lemma fanout_same jobs (h : sub_heap) r :
  sub_identity_of <$> dispatch_fanout_jobs jobs h !! r = sub_identity_of <$> h !! r.
Proof.
  unfold dispatch_fanout_jobs; generalize (group_jobs jobs) as groups; intros groups; revert h.
  induction groups as [|[r0 es] groups IH]; intros h; [done |]; cbn [foldl fst snd]; rewrite IH.
  destruct (decide (r0 = r)) as [->|Hne]; [|by rewrite lookup_alter_ne].
  rewrite lookup_alter_eq; destruct (h !! r); cbn; by rewrite ?send_np_same.
Qed.

Lemma event_subs e b b' :
  (forall tr name t policy options, e <> EOpen tr name t policy options) -> apply_event clock e b = Some b' -> same_subs b b'.
Proof.
  intros Hne; destruct e; cbn [apply_event]; try (by intros [= <-]).
  - intros [= <-] r; by rewrite (gw_subs _ _ (auto_grew now name b)).
  - by destruct (Hne tr name t policy options).
  - apply with_sub_same; intros w res w'; unfold join; pose proof (identity_join c w.1); destruct (so_add_consumer c w.1).
    by intros [= _ <-].
  - apply with_sub_same, identity_leave.
  - apply with_sub_same, identity_unsubscribe.
  - intros [= <-]; unfold unregister_subscription; by destruct (topics b !! topic).
  - apply with_sub_same; intros w res w' [= _ <-]; cbn; unfold so_apply_flow_permits; by destruct (so_mode w.1).
  - apply with_sub_same; intros w res w'; unfold so_message_acked; destruct (so_mode w.1); [apply identity_with_cursor |].
    by intros [= _ <-].
  - apply with_sub_same; intros w res w'; unfold so_redeliver; destruct (so_mode w.1); [apply identity_with_cursor |].
    by intros [= _ <-].
  - apply with_sub_same, identity_seek.
  - apply with_sub_same, identity_seek_time.
  - apply with_sub_same; intros w res w' [= _ <-]; cbn; unfold so_drain_pending_acks; by destruct (so_mode w.1).
  - apply with_sub_same; intros w res w'; unfold so_get_last_message_id; destruct (so_mode w.1); [|by intros [= _ <-]].
    destruct (get_last_position _ _ _); by intros [= _ <-].
  - apply with_sub_same; intros w res w'; unfold so_dispatch_messages; destruct (so_mode w.1); [apply identity_with_cursor |].
    by intros [= _ <-].
  - intros [= <-]; unfold publish_persistent; destruct (br_heap b !! tr) as [t|]; [|done].
    destruct (validate_publish_rate now meta data t) as [[] t']; [|done]; by destruct (append_message_with_metadata _ _ _ _ _ _ _ _).
  - intros [= <-]; by destruct (br_heap b !! tr).
  - intros [= <-]; unfold fanout_turn; destruct (br_heap b !! tr) as [t|]; [|done]; cbn [fanout_worker].
    intros r; cbn; apply fanout_same.
  - intros [= <-]; unfold serve_queue; destruct (br_store b) as [|w]; [done |].
    destruct (WriteQueue.take_batch _ _) as [batch rest]; by destruct (WriteQueue.run_groups _ _ _ _ _ _).
Qed.

Lemma subs_wf_same b b' :
  same_topics b b' -> same_part topic_subscriptions b b' -> same_subs b b' -> subs_wf b -> subs_wf b'.
Proof.
  intros Ht Hp Hs Hw tr t' name r Htr Hr; specialize (Ht tr); specialize (Hp tr); rewrite Htr in Ht, Hp.
  destruct (br_heap b !! tr) as [t|] eqn:E; [|done]; injection Hp as Hp; cbn in Ht; assert (topic_identity_of t' = topic_identity_of t)
    as Hid by congruence; injection Hid as N1 _ N3; rewrite Hp in Hr; destruct (Hw _ _ _ _ E Hr) as (o & Ho & E1 & E2 & E3).
  specialize (Hs r); rewrite Ho in Hs; destruct (br_subs b' !! r) as [o'|]; [|done].
  assert (sub_identity_of o' = sub_identity_of o) as Hid by (cbn in Hs; congruence); injection Hid as M1 M2 M3 M4.
  exists o'; split_and!; congruence.
Qed.

Lemma event_same e b b' :
  match e with ETopic _ _ | EOpen _ _ _ _ _ | EUnregister _ _ => False | _ => True end ->
  apply_event clock e b = Some b' -> same_topics b b' /\ same_part topic_subscriptions b b' /\ same_subs b b'.
Proof.
  intros He E; split_and!.
  - by apply (event_part _ _ _ _ identity_stable He E).
  - by apply (event_part _ _ _ _ subscriptions_stable He E).
  - eapply event_subs; [|exact E]; by destruct e.
Qed.

Lemma event_subs_wf e b b' : apply_event clock e b = Some b' -> subs_wf b -> subs_wf b'.
Proof.
  intros E Hw; destruct e; try (apply event_same in E as (? & ? & ?); [by eapply subs_wf_same | exact I]).
  - injection E as <-; destruct (auto_grew now name b) as [A1 _ _ _ A4]; intros tr t n r Ht Hn; rewrite A1.
    destruct (A4 _ _ Ht) as [Hold|Hnew]; [by eapply Hw | by rewrite Hnew in Hn].
  - apply open_shape in E as [(_ & Hh & Hs)|(topic & o & Ht & Hn & E1 & E2 & E3 & _ & _ & Hs & Hh)].
    { intros tr' t' n r; rewrite Hh, Hs; apply Hw. }
    assert (br_subs b !! fresh (dom (br_subs b)) = None) as Hfresh by (apply not_elem_of_dom, is_fresh).
    intros tr' t' n r; rewrite Hh, Hs; destruct (decide (tr' = tr)) as [->|Hne].
    + rewrite lookup_alter_eq, Ht; intros [= <-]; cbn; intros [[<- <-]|[_ Hr]]%lookup_insert_Some.
      * exists o; by rewrite lookup_insert_eq.
      * destruct (Hw _ _ _ _ Ht Hr) as (o' & Ho' & ?); exists o'; rewrite lookup_insert_ne; [done | congruence].
    + rewrite lookup_alter_ne by done; intros Ht' Hr; destruct (Hw _ _ _ _ Ht' Hr) as (o' & Ho' & ?); exists o'.
      rewrite lookup_insert_ne; [done | congruence].
  - revert E; cbn [apply_event]; intros [= <-]; unfold unregister_subscription; destruct (topics b !! topic) as [tr|]; [|done].
    intros tr' t' n r; cbn; destruct (decide (tr' = tr)) as [->|Hne]; [|rewrite lookup_alter_ne by done; apply Hw].
    rewrite lookup_alter_eq; intros (t & Ht & ->)%fmap_Some; cbn; intros [_ Hr]%lookup_delete_Some; by eapply Hw in Hr.
Qed.
End events.

(** ** The whole broker *)

Section system.
Context {bytes : Type} `{DbCodec bytes} `{MetadataDecoder} `{CommandCodec} (clock : Z -> Z) (clients : BaseCommand -> bool).

Lemma run_traced s s' :
  rtc (sys_step clock clients) s s' -> traced (bytes := bytes) clock (fun _ => True) (sys_broker s) (sys_broker s').
Proof. by apply sys_run_traced. Qed.

Lemma run_registry s s' : rtc (sys_step clock clients) s s' -> registry_ext (bytes := bytes) (sys_broker s) (sys_broker s').
Proof.
  intros Hr%run_traced; eapply (traced_rel _ _ registry_ext); [|exact Hr]; intros e b b' _; apply event_registry.
Qed.

Lemma run_wf s s' :
  rtc (sys_step clock clients) s s' -> registry_wf (sys_broker s) /\ subs_wf (bytes := bytes) (sys_broker s) ->
  registry_wf (sys_broker s') /\ subs_wf (sys_broker s').
Proof.
  intros Hr%run_traced; revert Hr; apply (traced_ind clock _ (fun b => registry_wf b /\ subs_wf b)).
  intros e b b' _ E [? ?]; split; [by eapply event_wf | by eapply event_subs_wf].
Qed.
End system.

(** A broker before its first connection. *)
Lemma registry_wf_start {bytes} (b : Broker bytes) :
  br_heap b = ∅ -> topics b = ∅ -> partitioned_topics b = ∅ -> (forall name, partition_count name b <= U64_MAX) ->
  registry_wf b /\ subs_wf b.
Proof.
  intros Hh Ht Hp Hc; split; [split; rewrite ?Hh, ?Ht, ?Hp; try done; intros ? ? ?%lookup_empty_Some; done |].
  intros tr t name r; by rewrite Hh.
Qed.

(** ** Properties *)

(** C4: A name stands for one topic: from the moment it was looked up first, every
    client that asks for it gets the same topic, partitioned topic or partition,
    whatever else the clients, tasks and workers do.  Two topics never have the same
    name, and two subscription names never stand for the same subscription. *)
Theorem one_topic_per_name {bytes : Type} `{DbCodec bytes} `{MetadataDecoder} `{CommandCodec} (clock : Z -> Z)
    (clients : BaseCommand -> bool) (b : Broker bytes) (s s' : Sys) (now now' : Z) (name : string) (r : TopicRef) :
  registry_wf b -> subs_wf b -> rtc (sys_step clock clients) (sys_start b) s ->
  get_or_create_topic_auto now name (sys_broker s) = (r, sys_broker s) -> rtc (sys_step clock clients) s s' ->
  let b' := sys_broker s' in
  get_or_create_topic_auto now' name b' = (r, b') /\
  (forall tr tr' t t', br_heap b' !! tr = Some t -> br_heap b' !! tr' = Some t' -> topic_name t = topic_name t' -> tr = tr') /\
  (forall tr tr' t t' sub sub' x, br_heap b' !! tr = Some t -> br_heap b' !! tr' = Some t' ->
     topic_subscriptions t !! sub = Some x -> topic_subscriptions t' !! sub' = Some x -> tr = tr' /\ sub = sub').
Proof.
  intros Hw Hs R1 E R2; destruct (run_wf clock clients _ _ R1 (conj Hw Hs)) as [Hw1 Hs1].
  destruct (run_wf clock clients _ _ R2 (conj Hw1 Hs1)) as [Hw2 Hs2]; split_and!.
  - apply lookup_auto_done; eapply lookup_auto_ext; [by eapply run_registry |]; by apply auto_ext in E as [_ ?].
  - intros; by eapply names_unique.
  - intros; by eapply subs_unique.
Qed.

(** C34: Partition [i] of a partitioned topic is reached by its name, and only it: the
    name resolves without creating anything, to the topic that carries that name and
    the partition number [i]; different partitions are different topics. *)
Theorem partition_lookup {bytes : Type} (b : Broker bytes) (base : string) (p : PartitionedTopic) (i j now : Z) :
  registry_wf b -> partitioned_topics b !! base = Some p -> 0 <= i < pt_count p -> 0 <= j < pt_count p -> pt_count p <= I32_MAX ->
  exists tr t, get_or_create_topic_auto now (partition_name base i) b = (Partition tr, b) /\ br_heap b !! tr = Some t /\
    topic_name t = partition_name base i /\ topic_partition t = i /\
    ((get_or_create_topic_auto now (partition_name base j) b).1 = Partition tr -> i = j).
Proof.
  intros Hw Hp Hi Hj Hmax; destruct (rw_partitioned _ Hw _ _ Hp) as (_ & Hc & Hl & Hn).
  assert (forall k, 0 <= k < pt_count p -> exists tr t, get_or_create_topic_auto now (partition_name base k) b = (Partition tr, b) /\
    br_heap b !! tr = Some t /\ topic_name t = partition_name base k) as Hget.
  { intros k Hk; destruct (lookup_lt_is_Some_2 (pt_partitions p) (Z.to_nat k) ltac:(lia)) as [tr Htr].
    pose proof (Hn _ _ Htr) as (t & Ht & E)%fmap_Some; rewrite Z2Nat.id in E by lia; exists tr, t; split_and!; [|done | done].
    apply lookup_auto_done; unfold lookup_auto; rewrite partition_name_base, partition_name_index, Hc by mlia.
    rewrite (proj2 (Z.ltb_lt _ _)) by lia; rewrite Hp; cbn; unfold get_partition.
    rewrite (proj2 (Z.ltb_lt _ _)) by lia; by rewrite Htr. }
  destruct (Hget i Hi) as (tr & t & E & Ht & Hnm); exists tr, t; split_and!; [done.. | |].
  - destruct (rw_new _ Hw _ _ Ht) as [-> _]; rewrite Hnm; apply partition_name_partition; lia.
  - destruct (Hget j Hj) as (tr' & t' & -> & Ht' & Hnm'); cbn; intros [= ->]; assert (t' = t) as -> by congruence.
    rewrite Hnm in Hnm'; apply partition_name_inj in Hnm' as [_ ?]; [done | mlia | mlia].
Qed.

(** *** An example: two clients and one partition *)

Definition meeting_script : CommandCodec := script_codec [
  mkCommand T_CONNECT [FConnect (Some 19)];
  mkCommand T_PRODUCER [FProducer "orders-partition-1" 1 1 None];
  mkCommand T_SUBSCRIBE [FSubscribe (mkSubscribe "orders-partition-1" "billing" 1 7 2 None None None None None [])]].

Definition client (id : string) : CnxConfig := mkCnxConfig id 30 30 10 1 100 1000 10 100 "pulsar://localhost:6650" false false.

Definition frame_of (id : string) (n : Z) : action :=
  ATurn id (EFrame (mkInputs 0 [] (true, WriteOk) true) (mkFrame [n] None [] None)).

#[local] Existing Instance byte_metadata.

Definition meeting_broker : Broker plain := broker_with_config (MemoryBackend MemoryStore.mem_new) 3.

Definition run_meeting (l : list action) (s : Sys) : Sys :=
  default s (perform_all (H1 := meeting_script) (fun _ => 0) (fun _ => true) l s).

Definition first_client : list action := [AAccept 0 (client "c1") []; frame_of "c1" 0; frame_of "c1" 1].
Definition second_client : list action := [AAccept 0 (client "c2") []; frame_of "c2" 0; frame_of "c2" 2].

Definition met_first : Sys := run_meeting first_client (sys_start meeting_broker).
Definition met_both : Sys := run_meeting second_client met_first.

Lemma meeting_wf : registry_wf meeting_broker /\ subs_wf meeting_broker.
Proof. apply registry_wf_start; try done; intros name; unfold partition_count; cbn; rewrite lookup_empty; vm_compute; discriminate. Qed.

Lemma one_topic_per_name_witness :
  get_or_create_topic_auto 9 "orders-partition-1" (sys_broker met_both) =
    ((get_or_create_topic_auto 5 "orders-partition-1" (sys_broker met_first)).1, sys_broker met_both).
Proof.
  apply (one_topic_per_name (H1 := meeting_script) (fun _ => 0) (fun _ => true) meeting_broker met_first met_both 5 9).
  - apply meeting_wf.
  - apply meeting_wf.
  - apply (perform_all_default _ _ first_client); vm_compute; reflexivity.
  - vm_compute; reflexivity.
  - apply (perform_all_default _ _ second_client); vm_compute; reflexivity.
Defined.

Lemma meeting_run_wf : registry_wf (sys_broker met_first).
Proof.
  apply (run_wf (H1 := meeting_script) (fun _ => 0) (fun _ => true) (sys_start meeting_broker) met_first); [|apply meeting_wf].
  apply (perform_all_default _ _ first_client); vm_compute; reflexivity.
Qed.

Lemma partition_lookup_witness :
  exists tr t, get_or_create_topic_auto 5 (partition_name "orders" 1) (sys_broker met_first) = (Partition tr, sys_broker met_first) /\
    br_heap (sys_broker met_first) !! tr = Some t /\ topic_name t = partition_name "orders" 1 /\ topic_partition t = 1 /\
    ((get_or_create_topic_auto 5 (partition_name "orders" 2) (sys_broker met_first)).1 = Partition tr -> 1 = 2).
Proof.
  apply (partition_lookup (sys_broker met_first) "orders" (mkPartitioned "orders" 3 [0; 1; 2]%nat) 1 2 5).
  - apply meeting_run_wf.
  - vm_compute; reflexivity.
  - vm_compute; split; congruence.
  - vm_compute; split; congruence.
  - vm_compute; congruence.
Defined.
