(* ===== verification/Conservation.v ===== *)
(** * No message is lost

    The whole broker over a RocksDB store: clients connect, produce, subscribe,
    acknowledge and ask for redelivery, tasks dispatch, the write queue appends
    batches for all topics, in any order.  All subscriptions share the store, and
    each keeps track of every message of its topic. *)

From Stdlib Require Import Ascii.
From S2P Require Import Prelude Position Text RangeSet Cursor CursorRead LedgerInfo MetadataCodec EntryLog Keys RocksLedger.
From S2P Require Import StickyKey Consumer ReadPosition Dispatch StorageService Subscription DurableCursor SubscriptionDelivery.
From S2P Require Import NonPersistent Commands Codec Effects TopicSubscription SharedStore Topic BrokerService Connection System Trace Registry.
From S2P Require RocksStore WriteQueue.
Import RocksStore (Rocks, mkRocks, storage, ledgers, topic_holds, cursor_stored, unacked).
Import WriteQueue (WriteReq, req_item).

(** ** Names *)

Lemma last_char c s : has_char c s = true -> exists s1 s2, s = s1 +:+ String c s2 /\ has_char c s2 = false.
Proof.
  induction s as [|a s IH]; [done |]; cbn [has_char]; destruct (has_char c s) eqn:Es.
  - intros _; destruct (IH eq_refl) as (s1 & s2 & -> & ?); by exists (String a s1), s2.
  - rewrite orb_false_r; intros ->%Ascii.eqb_eq; by exists "", s.
Qed.

Lemma parse_u64_no_slash s n : parse_u64 s = Some n -> has_char "/" s = false.
Proof.
  assert (forall s acc n, parse_digits s acc = Some n -> has_char "/" s = false) as Hd.
  { clear; induction s as [|c s IH]; intros acc n; cbn; [done |].
    destruct (digit_value c) as [d|] eqn:E; [|done]; case_bool; [|done]; intros H%IH; rewrite H, orb_false_r.
    by destruct (Ascii.eqb_spec c "/"%char) as [->|]. }
  destruct s as [|c s]; [done |]; unfold parse_u64; destruct (Ascii.eqb_spec c "+"%char) as [->|]; [|apply Hd].
  destruct s; [done |]; by intros H%Hd.
Qed.

Lemma flat_partition base i : flat_topic base -> u64_ok i -> flat_topic (partition_name base i).
Proof.
  intros (d & a & n & l & [Hd Ha Hn Hl ->]) Hi; exists d, a, n, (l +:+ PARTITION_INFIX +:+ show i); split; try done.
  - rewrite !has_char_app, Hl; cbn; by apply parse_show, parse_u64_no_slash in Hi.
  - unfold partition_name, topic_string; by rewrite !append_assoc.
Qed.

Lemma flat_base name base : flat_topic name -> get_base_topic_name name = Some base -> flat_topic base.
Proof.
  intros (d & a & n & l & [Hd Ha Hn Hl ->]); unfold get_base_topic_name.
  destruct (rsplit_once _ _) as [[b i]|] eqn:E; [|done]; destruct (parse_u64 i) eqn:Ei; [|done]; intros [= <-].
  apply rsplit_once_spec in E; apply parse_u64_no_slash in Ei.
  replace (topic_string d a n l) with ((d +:+ "://" +:+ a +:+ "/" +:+ n) +:+ String "/" l) in E
    by (unfold topic_string; by rewrite !append_assoc).
  destruct (has_char "/" b) eqn:Eb.
  - destruct (last_char _ _ Eb) as (b1 & b2 & -> & Hb2); rewrite (append_assoc b1) in E.
    change (String "/" b2 +:+ PARTITION_INFIX +:+ i) with (String "/" (b2 +:+ PARTITION_INFIX +:+ i)) in E.
    apply sep_last_inj in E as [E1 E2]; [|done | by rewrite !has_char_app, Hb2].
    exists d, a, n, b2; split; try done; unfold topic_string; rewrite <- E1; by rewrite !append_assoc.
  - apply (f_equal (has_char "/")) in E; rewrite !has_char_app, Eb, Ei in E; cbn in E; by rewrite orb_true_r in E.
Qed.

Lemma parse_i32_range s n : parse_i32 s = Some n -> i32_ok n.
Proof.
  assert (forall k r, match r with
                      | EmptyString => None
                      | _ => parse_digits r 0 ≫= fun m => if (I32_MIN <=? k * m) && (k * m <=? I32_MAX) then Some (k * m) else None
                      end = Some n -> i32_ok n) as Hs.
  { intros k [|c r]; [done |]; intros (m & _ & Hm)%bind_Some; revert Hm; case_bool; [|done]; intros [= <-]; unfold i32_ok; lia. }
  unfold parse_i32; destruct s as [|c s]; [done |].
  destruct (Ascii.eqb c "-"); [apply Hs |]; destruct (Ascii.eqb c "+"); [apply Hs | apply (Hs 1 (String c s))].
Qed.

Lemma partition_range name : i32_ok (extract_partition_from_name name).
Proof.
  unfold extract_partition_from_name; destruct (rsplit_once _ _) as [[b i]|]; [|done].
  destruct (parse_i32 i) eqn:E; [by apply parse_i32_range in E | done].
Qed.

Lemma partition_name_served base i : flat_topic base -> u64_ok i -> served (partition_name base i).
Proof.
  intros Hb Hi; split; [by apply flat_partition |].
  destruct (Z.leb_spec i I32_MAX) as [Hle|Hgt]; [rewrite partition_name_partition by mlia; mlia |].
  unfold extract_partition_from_name; rewrite partition_name_parts by done.
  pose proof (parse_show i Hi) as Hp; destruct (show i) as [|c s]; [done |]; unfold parse_i32, parse_u64 in *.
  assert (Ascii.eqb c "-"%char = false) as ->.
  { destruct (Ascii.eqb_spec c "-"%char) as [->|]; [|done]; by apply parse_digits_no_dash in Hp. }
  destruct (Ascii.eqb c "+"%char); [destruct s; [done |] |]; rewrite Hp; cbn [mbind option_bind];
    (case_bool; [mlia | done]).
Qed.

(** ** The type of a subscription stays *)

Section types.
Context {S E : Type} `{CursorStore S E} `{MetadataDecoder}.
Implicit Types (s : S) (rt : PersistentSubscriptionRuntime) (sub : Subscription (S := S)).

Lemma dispatch_type s rt r rt' : runtime_dispatch_messages s rt = Some (r, rt') -> rt_sub_type rt' = rt_sub_type rt.
Proof.
  unfold runtime_dispatch_messages; destruct (dispatcher rt) as [d|]; [|by intros [= _ <-]].
  destruct (dispatch_messages s d) as [[r1 d1]|]; [|done]; by intros [= _ <-].
Qed.

Lemma dispatch_and_log_type s rt rt' : dispatch_and_log s rt = Some rt' -> rt_sub_type rt' = rt_sub_type rt.
Proof. unfold dispatch_and_log; intros ([r rt1] & E1 & ->)%fmap_Some; by apply dispatch_type in E1. Qed.

Lemma add_type c rt : rt_sub_type (runtime_add_consumer c rt).2 = rt_sub_type rt.
Proof.
  assert (rt_sub_type (reuse_or_create_dispatcher rt) = rt_sub_type rt) as Hr
    by (unfold reuse_or_create_dispatcher; repeat case_match; done).
  unfold runtime_add_consumer; cbn zeta; repeat case_match; cbn; done.
Qed.

Lemma leave_type id sub sub' :
  sub_remove_with_recovery id sub = Some sub' -> sub_store sub' = sub_store sub /\ sub_type sub' = sub_type sub.
Proof.
  unfold sub_remove_with_recovery; intros ([c rt] & E1 & ->)%fmap_Some; split; [done |]; revert E1.
  unfold runtime_remove_with_recovery, sub_type; cbn [runtime snd]; destruct (dispatcher (runtime sub)) as [d|]; [|by intros [= _ <-]].
  destruct (enum_remove_with_recovery _ _ _) as [c1 d1]; destruct (dispatch_and_log (sub_store sub) _) as [rt1|] eqn:E1; [|done].
  apply dispatch_and_log_type in E1; cbn in E1; intros [= _ <-]; repeat case_match; done.
Qed.

Lemma sub_dispatch_type r sub sub' :
  sub_dispatch_messages sub = Some (r, sub') -> sub_store sub' = sub_store sub /\ sub_type sub' = sub_type sub.
Proof.
  unfold sub_dispatch_messages; intros ([r1 rt] & E1 & [= _ ->])%fmap_Some; split; [done |]; by apply dispatch_type in E1.
Qed.

Lemma redeliver_type id ids r sub sub' :
  redeliver_unacknowledged_messages id ids sub = Some (r, sub') -> sub_store sub' = sub_store sub /\ sub_type sub' = sub_type sub.
Proof.
  unfold redeliver_unacknowledged_messages; destruct (negb _); [by intros [= _ <-] |].
  destruct (runtime_get_consumer _ _) as [c|]; [|by intros [= _ <-]]; destruct (take_for_redelivery ids c) as [[|e es] c'];
    [by intros [= _ <-] |]; destruct (unacked_entries _ _) as [[|e0 l]|]; [by intros [= _ <-] | | by intros [= _ <-]].
  destruct (runtime_redeliver_messages _ _ _) as [rt|] eqn:E1; [|done]; intros [= _ <-]; split; [done |]; revert E1.
  unfold runtime_redeliver_messages; destruct (dispatcher _) as [d|]; [|by intros [= <-]].
  by intros E1%dispatch_and_log_type.
Qed.

Lemma take_owned_type self ids rt l rt' : take_owned self ids rt = (l, rt') -> rt_sub_type rt' = rt_sub_type rt.
Proof.
  revert rt l; induction ids as [|m ids IH]; intros rt l; cbn; [by intros [= _ <-] |].
  destruct (resolve_ack_owner self m rt) as [[owner tracked]|]; [|apply IH].
  destruct (take_owned _ _ _) as [l1 rt1] eqn:E1; intros [= _ <-]; by apply IH in E1.
Qed.

Lemma take_own_type self ids rt l rt' : take_own self Individual ids rt = (l, rt') -> rt_sub_type rt' = rt_sub_type rt.
Proof.
  revert rt l; induction ids as [|m ids IH]; intros rt l; cbn; [by intros [= _ <-] |].
  destruct (from_option _ _ _); [|apply IH].
  destruct (take_own _ _ _ _) as [l1 rt1] eqn:E1; intros [= _ <-]; by apply IH in E1.
Qed.

Lemma notify_type l rt : rt_sub_type (notify_acked l rt) = rt_sub_type rt.
Proof. unfold notify_acked; revert rt; induction l as [|m l IH]; intros rt; [done |]; cbn; by rewrite IH. Qed.

Lemma acknowledge_type l r s rt sub' :
  acknowledge_message l Individual (mkSubscription s rt) = (r, sub') -> sub_type sub' = rt_sub_type rt.
Proof.
  unfold acknowledge_message, sub_type; destruct l as [|m l]; [by intros [= _ <-] |]; cbn [sub_store runtime].
  assert (forall s', rt_sub_type (runtime_ack_state_updated s' (notify_acked (m :: l) rt)).2 = rt_sub_type rt) as Hu.
  { intros s'; unfold runtime_ack_state_updated; rewrite <- (notify_type (m :: l) rt); repeat case_match; done. }
  destruct (is_shared_type (rt_sub_type rt)); destruct (ack_all_shared (m :: l) s) as [[[]|e] s']; try (by intros [= _ <-]).
  - cbn [with_runtime with_store runtime sub_store]; specialize (Hu s').
    destruct (runtime_ack_state_updated s' _) as [[[]|e] rt1]; by intros [= _ <-].
  - intros [= _ <-]; apply (notify_type (m :: l)).
Qed.

Lemma message_acked_type self ids r sub sub' :
  message_acked self Individual ids sub = (r, sub') -> sub_type sub' = sub_type sub.
Proof.
  unfold message_acked; destruct ids as [|i ids]; [by intros [= _ <-] |].
  destruct (is_shared_type (sub_type sub)).
  - destruct (take_owned self (i :: ids) (runtime sub)) as [l rt] eqn:E1; apply take_owned_type in E1; unfold sub_type.
    rewrite <- E1; destruct l; [by intros [= _ <-] | by intros E2%acknowledge_type].
  - destruct (take_own self Individual (i :: ids) (runtime sub)) as [l rt] eqn:E1; apply take_own_type in E1; unfold sub_type.
    rewrite <- E1; destruct l; [by intros [= _ <-] | by intros E2%acknowledge_type].
Qed.
End types.

(** ** The invariant *)

Section broker.
Context {bytes : Type} `{DbCodec bytes, !DbCodecLaws bytes} `{MetadataDecoder}.
Context (clock : Z -> Z) (clock_ok : forall k, i64_range (clock k)).
Implicit Types (b : Broker bytes) (w : Rocks bytes) (logs : string -> list StoredMessage) (o : SubscriptionObject).

Definition view_of w o : SubscriptionView bytes := mkView clock (RocksDbBackend w) (so_topic o) (so_name o).

(** A persistent subscription keeps track of the messages of its topic. *)
Definition object_ok w logs o : Prop :=
  so_mode o = Persistent ->
  served (so_topic o) /\ exists rt, so_rt o = Some rt /\ rt_sub_type rt <> Failover /\
    sub_inv (mkSubscription (view_of w o) rt) (logs (managed_ledger_name (so_topic o))).

Record names_ok b : Prop := {
  no_topics : forall name tr, topics b !! name = Some tr -> served name;
  no_partitioned : forall base p, partitioned_topics b !! base = Some p -> flat_topic base;
}.

Record broker_ok b : Prop := {
  bk_registry : registry_wf b;
  bk_names : names_ok b;
  bk_queue : Forall request_ok (write_queue b);
  bk_store : exists w logs, br_store b = RocksDbBackend w /\ store_ok w logs /\
    forall r o, br_subs b !! r = Some o -> object_ok w logs o;
}.

(** Every topic is served, under its partition. *)
Lemma topic_served b tr t :
  registry_wf b -> names_ok b -> br_heap b !! tr = Some t ->
  served (topic_name t) /\ topic_partition t = extract_partition_from_name (topic_name t).
Proof.
  intros Hw Hn Ht; split; [|by apply (rw_new _ Hw tr t)].
  destruct (rw_heap _ Hw _ _ Ht) as [Hr|(base & p & i & Hp & Hi & ->)]; [by eapply no_topics |].
  apply partition_name_served; [by eapply no_partitioned |]; by eapply partition_in_range.
Qed.

Lemma object_harmless w logs w' logs' o : harmless w logs w' logs' -> object_ok w logs o -> object_ok w' logs' o.
Proof.
  intros Hh Ho Hm; destruct (Ho Hm) as (Ht & rt & Hrt & Hty & Hi); split; [done |]; exists rt; split_and!; try done.
  eapply (publishes_inv _ (mkSubscription (view_of w o) rt)); [by apply Hh | done].
Qed.

(** The store changes, and with it at most the subscription [r]. *)
Lemma broker_ok_store b b' w logs w' logs' :
  broker_ok b -> registry_wf b' -> names_ok b' -> Forall request_ok (write_queue b') ->
  br_store b = RocksDbBackend w -> store_ok w logs -> (forall r o, br_subs b !! r = Some o -> object_ok w logs o) ->
  br_store b' = RocksDbBackend w' -> store_ok w' logs' -> harmless w logs w' logs' ->
  (forall r o, br_subs b' !! r = Some o -> br_subs b !! r = Some o \/ object_ok w' logs' o) -> broker_ok b'.
Proof.
  intros Hb Hr Hn Hq Es Hok Hos Es' Hok' Hh Hsubs; split; [done .. |]; exists w', logs'; split_and!; [done | done |].
  intros r o Ho; destruct (Hsubs r o Ho) as [Hold|?]; [|done]; eapply object_harmless; [done | by eapply Hos].
Qed.

(** ** Operations on one subscription *)

Definition op_safe {A} (op : sub_op (bytes := bytes) A) : Prop :=
  forall w logs o res o' st', store_ok w logs -> object_ok w logs o -> op (o, RocksDbBackend w) = Some (res, (o', st')) ->
    exists w', st' = RocksDbBackend w' /\ store_ok w' logs /\ harmless w logs w' logs /\ object_ok w' logs o'.

Lemma with_sub_ok {A} r (op : sub_op (bytes := bytes) A) b b' :
  op_safe op -> broker_ok b -> registry_wf b' -> after (with_sub r op) b = Some b' -> broker_ok b'.
Proof.
  intros Hop Hb Hr' E; pose proof (with_sub_registry _ _ _ _ E) as [(Ht & Hp & _) _].
  apply with_sub_shape in E as [->|(o & o' & st' & res & Ho & E & ->)]; [done |].
  pose proof Hb as [_ [Hn1 Hn2] Hq (w & logs & Es & Hok & Hos)]; rewrite Es in E.
  destruct (Hop _ _ _ _ _ _ Hok (Hos _ _ Ho) E) as (w' & -> & Hok' & Hh & Ho').
  eapply (broker_ok_store b _ w logs w' logs); try done.
  intros r1 o1; cbn; intros [[<- <-]|[_ ?]]%lookup_insert_Some; [by right | by left].
Qed.

(** An operation on the runtime that reads the store at most. *)
Lemma reading_safe {A} (f : Subscription (S := SubscriptionView bytes) -> option (result sub_failure A * Subscription)) absent :
  (forall sub ms res sub', sub_inv sub ms -> sub_type sub <> Failover -> f sub = Some (res, sub') ->
     sub_store sub' = sub_store sub /\ sub_type sub' = sub_type sub /\ sub_inv sub' ms) ->
  forall w logs o res o' st', store_ok w logs -> object_ok w logs o -> so_mode o = Persistent ->
    with_cursor clock f absent (o, RocksDbBackend w) = Some (res, (o', st')) ->
    exists w', st' = RocksDbBackend w' /\ store_ok w' logs /\ harmless w logs w' logs /\ object_ok w' logs o'.
Proof.
  intros Hf w logs o res o' st' Hok Ho Hm; destruct (Ho Hm) as (Ht & rt & Hrt & Hty & Hi).
  unfold with_cursor; cbn [fst snd]; rewrite Hrt; fold (view_of w o).
  destruct (f _) as [[r sub']|] eqn:E; [|done]; intros [= _ <- <-].
  destruct (Hf _ _ _ _ Hi Hty E) as (Es & Et & Hi'); rewrite Es; exists w.
  split_and!; [done | done | apply harmless_refl |]; intros _; split; [done |]; exists (runtime sub'); split_and!; [done | |].
  - unfold sub_type in Et; by rewrite Et.
  - destruct sub' as [s' rt']; cbn in *; by subst s'.
Qed.

(** An operation on a non-persistent subscription leaves the store alone. *)
Lemma np_safe w logs o' :
  store_ok w logs -> so_mode o' = NonPersistent ->
  exists w', RocksDbBackend w = RocksDbBackend w' /\ store_ok w' logs /\ harmless w logs w' logs /\ object_ok w' logs o'.
Proof. intros Hok Hm; exists w; split_and!; [done | done | apply harmless_refl |]; intros ?; congruence. Qed.

Lemma join_safe c : (forall m, ~ holds c m) -> 0 <= priority_level c -> op_safe (join c).
Proof.
  intros Hno Hp w logs o res o' st' Hok Ho; unfold join; cbn [fst snd].
  destruct (so_add_consumer c o) as [r1 o1] eqn:E; intros [= _ <- <-]; revert E; unfold so_add_consumer.
  destruct (so_mode o) eqn:Hm.
  - destruct (Ho Hm) as (Ht & rt & Hrt & Hty & (acked & readable & [Hd Hw])); rewrite Hrt.
    pose proof (runtime_add_wf _ _ _ c rt Hw Hno Hp) as Hw'; pose proof (add_type c rt) as Ha.
    destruct (runtime_add_consumer c rt) as [r2 rt']; cbn in *; intros [= _ <-]; exists w.
    split_and!; [done | done | apply harmless_refl |]; intros _; split; [done |]; exists rt'; split_and!; [done | congruence |].
    exists acked, readable; by split.
  - destruct (npr_add_consumer _ _) as [r2 np]; intros [= _ <-]; by apply np_safe.
Qed.

Lemma permits_safe id n : op_safe (permits id n).
Proof.
  intros w logs o res o' st' Hok Ho; unfold permits; cbn [fst snd]; intros [= _ <- <-]; unfold so_apply_flow_permits.
  destruct (so_mode o) eqn:Hm; [|by apply np_safe].
  destruct (Ho Hm) as (Ht & rt & Hrt & Hty & Hi); exists w; split_and!; [done | done | apply harmless_refl |].
  intros _; split; [done |]; eexists; split; [cbn; by rewrite Hrt |]; split; [done |]; by apply (permits_wf id n) in Hi.
Qed.

Lemma leave_safe id : op_safe (so_remove_with_recovery clock id).
Proof.
  intros w logs o res o' st' Hok Ho; unfold so_remove_with_recovery; cbn [fst snd]; destruct (so_mode o) eqn:Hm.
  - eapply reading_safe; [|done | done | done]; clear; intros sub ms res sub' Hi Hty (sub1 & E1 & [= _ ->])%fmap_Some.
    pose proof (leave_type _ _ _ E1) as [? ?]; split_and!; [done | done |].
    destruct (leave_wf id sub ms Hi) as (sub2 & E2 & Hi'); [|congruence].
    intros d Hd; destruct Hi as (acked & readable & [_ Hw]); destruct (rw_dispatcher _ _ _ _ Hw d Hd) as [_ Hg].
    unfold sub_type in Hty; rewrite <- Hg in Hty; by destruct d.
  - intros [= _ <- <-]; apply np_safe; [done |]; pose proof (identity_remove id o) as Hid; by injection Hid as _ _ -> _.
Qed.

Lemma redeliver_safe id ids : op_safe (so_redeliver clock id ids).
Proof.
  intros w logs o res o' st' Hok Ho; unfold so_redeliver; cbn [fst snd]; destruct (so_mode o) eqn:Hm.
  - eapply reading_safe; [|done | done | done]; clear; intros sub ms res sub' Hi Hty ([r1 sub1] & E1 & [= _ ->])%fmap_Some.
    pose proof (redeliver_type _ _ _ _ _ E1) as [? ?]; split_and!; [done | done |].
    destruct (redeliver_wf id ids sub ms Hi) as (r2 & sub2 & E2 & Hi'); cbn; congruence.
  - intros [= _ <- <-]; by apply np_safe.
Qed.

Lemma dispatch_safe : op_safe (so_dispatch_messages clock).
Proof.
  intros w logs o res o' st' Hok Ho; unfold so_dispatch_messages; cbn [fst snd]; destruct (so_mode o) eqn:Hm.
  - eapply reading_safe; [|done | done | done]; clear; intros sub ms res sub' Hi Hty ([r1 sub1] & E1 & [= _ ->])%fmap_Some.
    pose proof (sub_dispatch_type _ _ _ E1) as [? ?]; split_and!; [done | done |].
    destruct (dispatch_wf sub ms Hi) as (sub2 & E2 & Hi'); cbn; congruence.
  - intros [= _ <- <-]; by apply np_safe.
Qed.

(** The topic of a subscription is open. *)
Lemma object_topic w logs o :
  object_ok w logs o -> so_mode o = Persistent ->
  exists L, topic_holds w (so_topic o) L (logs (managed_ledger_name (so_topic o))).
Proof.
  intros Ho Hm; destruct (Ho Hm) as (_ & rt & _ & _ & (acked & readable & [Hd _])).
  cbn in Hd; destruct Hd as (L & state & part & Hh & _); by exists L.
Qed.

Lemma last_safe : op_safe (so_get_last_message_id clock).
Proof.
  intros w logs o res o' st' Hok Ho; unfold so_get_last_message_id; cbn [fst snd]; destruct (so_mode o) eqn:Hm.
  - destruct (object_topic _ _ _ Ho Hm) as [L Hh]; unfold get_last_position, on_backend, RocksStore.get_last_position.
    rewrite (on_ledger_open clock w (so_topic o) L _ Hh); cbn; intros [= _ <- <-]; exists w; split_and!; [by destruct w | done | | done].
    apply harmless_refl.
  - intros [= _ <- <-]; by apply np_safe.
Qed.

Lemma acked_safe id ids : op_safe (so_message_acked clock id Individual ids).
Proof.
  intros w logs o res o' st' Hok Ho; unfold so_message_acked; cbn [fst snd]; destruct (so_mode o) eqn:Hm.
  - destruct (Ho Hm) as (Ht & rt & Hrt & Hty & Hi); destruct (object_topic _ _ _ Ho Hm) as [L Hh].
    unfold with_cursor; cbn [fst snd]; rewrite Hrt; fold (view_of w o).
    destruct (message_acked_wf id ids _ _ Hi) as (sub' & E & Hi' & l & Hl & Es); rewrite E.
    apply message_acked_type in E; unfold sub_type in E; cbn in E, Es; intros [= _ <- <-].
    destruct (ack_all_harmless clock (so_topic o) (so_name o) w logs L l Hok Ht Hh Hl) as (w' & Ev & Hok' & Hh').
    fold (view_of w o) in Ev; rewrite Ev in Es; rewrite Es; exists w'; split_and!; [done | done | done |].
    intros _; split; [done |]; exists (runtime sub'); split_and!; [done | congruence |].
    destruct sub' as [s' rt']; cbn in *; by subst s'.
  - intros [= _ <- <-]; by apply np_safe.
Qed.

(** ** Topics are created *)

Lemma partitioned_names now base n b :
  names_ok b -> flat_topic base -> names_ok (get_or_create_partitioned_topic now base n b).2.
Proof.
  intros [Ht Hp] Hb; unfold get_or_create_partitioned_topic; destruct (partitioned_topics b !! base); [done |].
  pose proof (alloc_partitions_registry now base (seq 0 (Z.to_nat n)) b) as (Et & Ep & _).
  destruct (alloc_partitions now base _ b) as [ts b1]; cbn in Et, Ep |- *; split; cbn; [by rewrite Et |].
  intros name p [[<- _]|[_ Hn]]%lookup_insert_Some; [done |]; rewrite Ep in Hn; by eapply Hp.
Qed.

Lemma whole_names now name b : names_ok b -> served name -> names_ok (get_or_create_whole_topic now name b).2.
Proof.
  intros Hn Hs; unfold get_or_create_whole_topic; destruct (should_be_partitioned name b).
  - pose proof (partitioned_names now name (default (default_partitions b) (partition_metadata b !! name)) b Hn (proj1 Hs)) as Hp.
    by destruct (get_or_create_partitioned_topic _ _ _ b).
  - unfold get_or_create_topic; destruct (topics b !! name); [done |]; destruct Hn as [Ht Hp]; split; cbn; [|done].
    intros name' tr [[<- _]|[_ ?]]%lookup_insert_Some; [done | by eapply Ht].
Qed.

Lemma auto_names now name b : names_ok b -> served name -> names_ok (get_or_create_topic_auto now name b).2.
Proof.
  intros Hn Hs; unfold get_or_create_topic_auto; destruct (get_base_topic_name name) as [base|] eqn:Eb; [|by apply whole_names].
  destruct (get_partition_index name) as [i|]; [|by apply whole_names]; destruct (0 <? _); [|by apply whole_names].
  set (n := default _ _); pose proof (partitioned_names now base n b Hn (flat_base _ _ (proj1 Hs) Eb)) as Hp.
  destruct (get_or_create_partitioned_topic _ _ _ b) as [p b1]; destruct (get_partition p i); [done | by apply whole_names].
Qed.

Lemma topic_ok now name b :
  broker_ok b -> served name -> registry_wf (get_or_create_topic_auto now name b).2 ->
  broker_ok (get_or_create_topic_auto now name b).2.
Proof.
  intros [_ Hn Hq (w & logs & Es & Hok & Hos)] Hs Hr; destruct (auto_grew now name b) as [G1 G2 G3 _ _].
  split; [done | by apply auto_names | by rewrite G3 |]; exists w, logs; rewrite G1, G2; done.
Qed.

(** ** Subscriptions are created *)

(** A new subscription starts at the first unacknowledged message. *)
Lemma new_object_ok w logs L name t policy topic first :
  store_ok w logs -> served topic -> topic_holds w topic L (logs (managed_ledger_name topic)) -> t <> Failover ->
  RocksStore.first_unacked_position clock topic name w = (Ok first, w) ->
  object_ok w logs (so_set_pending_first_unacked first (new_with_options name topic t Persistent policy)).
Proof.
  intros Hok Ht Hh Hty Hf _; split; [done |]; eexists; split; [reflexivity |]; split; [done |].
  destruct (store_durable w logs topic name L Hok Ht Hh) as (acked & readable & Hd).
  exists acked, readable; split; [exact Hd |]; split; cbn; [done |]; intros pos [= <-].
  set (v := mkView clock (RocksDbBackend w) topic name).
  assert (durable v (logs (managed_ledger_name topic)) acked readable) as Hd' by exact Hd.
  destruct (first_unacked_start v _ _ _ (durable_presents _ _ _ _ Hd')) as (first' & E & Hr & Hb).
  assert (first' = first) as -> by (cbn in E; unfold first_unacked_position, on_backend in E; rewrite Hf in E; by injection E).
  by split_and!.
Qed.

Lemma open_ok tr name t policy options b b' :
  broker_ok b -> registry_wf b' -> t <> Failover -> start_message_id options = None ->
  (forall w, br_store b = RocksDbBackend w -> store_room w 1 0 = true) ->
  after (get_or_create_subscription_with_options clock tr name t policy options) b = Some b' -> broker_ok b'.
Proof.
  intros Hb Hr' Hty Hno Hroom; pose proof Hb as [Hr [Hn1 Hn2] Hq (w & logs & Es & Hok & Hos)].
  unfold after, get_or_create_subscription_with_options; destruct (br_heap b !! tr) as [topic|] eqn:Etr; [|by intros [= <-]].
  destruct (topic_subscriptions topic !! name); [by intros [= <-] |]; destruct (topic_mode topic).
  - destruct (topic_served b tr topic Hr (Build_names_ok _ Hn1 Hn2) Etr) as [Ht _].
    destruct (initialize_harmless clock clock_ok (topic_name topic) name options w logs Hok Ht (Hroom w Es) Hno)
      as (res & L & w' & E & Hok' & Hh & HT & Hf).
    unfold open_subscription_cursor, initialize_or_open_cursor, on_backend; rewrite Es, E; intros [= <-].
    eapply (broker_ok_store b _ w logs w' logs); try done.
    intros r o; cbn; intros [[_ <-]|[_ ?]]%lookup_insert_Some; [right | by left]; by eapply new_object_ok.
  - intros [= <-]; eapply (broker_ok_store b _ w logs w logs); try done; [apply harmless_refl |].
    intros r o; cbn; intros [[_ <-]|[_ ?]]%lookup_insert_Some; [right | by left]; done.
Qed.

(** ** Publications *)

Definition data_fits (meta : option (list Z)) (data : list Z) : Prop :=
  Z.of_nat (length (default [] meta)) <= U32_MAX /\ Z.of_nat (length data) <= U32_MAX.

Lemma topic_request_ok b tr t meta data reply :
  registry_wf b -> names_ok b -> br_heap b !! tr = Some t -> data_fits meta data ->
  request_ok (WriteQueue.mkReq (topic_name t) (topic_partition t) (default [] meta) data reply).
Proof.
  intros Hr Hn Ht [Hm Hd]; destruct (topic_served b tr t Hr Hn Ht) as [Hs Hp]; split; [done |]; split; [done |].
  split; cbn; [|done]; rewrite Hp; apply partition_range.
Qed.

Lemma item_size_bound meta data p :
  data_fits meta data -> 0 <= items_size [(p, default [] meta, data)] <= 2 * U32_MAX.
Proof. intros [Hm Hd]; cbn; unfold item_size; cbn; lia. Qed.

Lemma publish_ok now io db_ok tr meta data b :
  broker_ok b -> registry_wf (publish_persistent clock now io db_ok tr meta data b).2 -> io_clean io -> data_fits meta data ->
  (forall w, br_store b = RocksDbBackend w -> store_room w 1 (2 * U32_MAX) = true) ->
  broker_ok (publish_persistent clock now io db_ok tr meta data b).2.
Proof.
  intros Hb; pose proof Hb as [Hr [Hn1 Hn2] Hq (w & logs & Es & Hok & Hos)]; intros Hr' Hio Hd Hroom; revert Hr'.
  unfold publish_persistent; destruct (br_heap b !! tr) as [t|] eqn:Etr; [|done].
  pose proof (charge_same topic_identity_of now meta data t identity_stable) as Hid.
  destruct (validate_publish_rate now meta data t) as [[] t'].
  - cbn in Hid; injection Hid as Ename Epart _.
    destruct (append_message_with_metadata clock io db_ok (topic_name t') _ _ _ _) as [r st] eqn:E; intros Hr'.
    destruct (topic_request_ok b tr t meta data WriteQueue.Oneshot Hr (Build_names_ok _ Hn1 Hn2) Etr Hd) as (Hs & Hp & Hi).
    cbn in Hs, Hp; unfold append_message_with_metadata, on_backend in E; cbn in E; rewrite Es, Ename, Epart, Hp in E.
    destruct (submit clock io db_ok (topic_name t) _ _ _ w) as [r1 w'] eqn:E1; injection E as _ <-.
    destruct (submit_harmless clock clock_ok io db_ok (topic_name t) (default [] meta) data w logs r1 w' Hok) as (logs' & Hok' & Hh);
      [by split_and!; [| |rewrite Hp in Hi] | | done | done |].
    { eapply store_room_mono; [by apply Hroom | done |]; by apply item_size_bound. }
    by eapply (broker_ok_store b _ w logs w' logs'); try done; intros r2 o Ho; left.
  - intros Hr'; by eapply (broker_ok_store b _ w logs w logs); try done; [apply harmless_refl |]; intros r2 o Ho; left.
Qed.

Lemma enqueue_ok tr t meta data reply b :
  broker_ok b -> br_heap b !! tr = Some t -> data_fits meta data ->
  let r := WriteQueue.mkReq (topic_name t) (topic_partition t) (default [] meta) data reply in
  registry_wf (set_write_queue (write_queue b ++ [r]) b) -> broker_ok (set_write_queue (write_queue b ++ [r]) b).
Proof.
  intros [Hr Hn Hq Hst] Ht Hd r Hr'; split; [done | by destruct Hn | | done].
  apply Forall_app; split; [done |]; apply Forall_singleton; exact (topic_request_ok b tr t meta data reply Hr Hn Ht Hd).
Qed.

Lemma serve_ok env round b :
  broker_ok b -> registry_wf (serve_queue clock env round b).2 -> (forall k, io_clean (WriteQueue.group_io env round k)) ->
  (forall w, br_store b = RocksDbBackend w ->
     store_room w (Z.of_nat (length (write_queue b))) (items_size (req_item <$> write_queue b)) = true) ->
  broker_ok (serve_queue clock env round b).2.
Proof.
  intros Hb; pose proof Hb as [Hr [Hn1 Hn2] Hq (w & logs & Es & Hok & Hos)]; intros Hr' Hio Hroom; revert Hr'.
  unfold serve_queue; rewrite Es; unfold WriteQueue.take_batch; set (n := Nat.min _ _).
  destruct (WriteQueue.run_groups clock env round 0 _ w) as [cs w'] eqn:E; intros Hr'.
  rewrite <- (take_drop n (write_queue b)) in Hq; apply Forall_app in Hq as [Hq1 Hq2].
  destruct (batch_harmless clock clock_ok env round (take n (write_queue b)) w logs cs w' Hok Hq1) as (logs' & Hok' & Hh); [|done | done |].
  { eapply store_room_mono; [by apply Hroom | rewrite length_take; lia |].
    pose proof (items_size_nonneg (req_item <$> take n (write_queue b))).
    pose proof (items_size_nonneg (req_item <$> drop n (write_queue b))).
    assert (items_size (req_item <$> write_queue b) = items_size (req_item <$> take n (write_queue b)) +
      items_size (req_item <$> drop n (write_queue b))) as ->; [|lia].
    by rewrite <- WriteQueue.items_size_app, <- fmap_app, take_drop. }
  by eapply (broker_ok_store b _ w logs w' logs'); try done; intros r o Ho; left.
Qed.

(** The fan-out worker touches non-persistent subscriptions only. *)
Lemma fanout_persistent jobs (h : sub_heap) r o :
  dispatch_fanout_jobs jobs h !! r = Some o -> so_mode o = Persistent -> h !! r = Some o.
Proof.
  unfold dispatch_fanout_jobs; generalize (group_jobs jobs) as groups; intros groups; revert h.
  induction groups as [|[r0 es] groups IH]; intros h; [done |]; cbn [foldl fst snd]; intros Ho Hm; apply IH in Ho; [|done].
  destruct (decide (r0 = r)) as [->|Hne]; [|by rewrite lookup_alter_ne in Ho].
  rewrite lookup_alter_eq in Ho; apply fmap_Some in Ho as (o1 & Ho1 & ->); revert Hm; unfold send_non_persistent_entries.
  destruct (so_mode o1) eqn:E; [done | cbn; congruence].
Qed.

Lemma fanout_ok tr window b : broker_ok b -> registry_wf (fanout_turn tr window b) -> broker_ok (fanout_turn tr window b).
Proof.
  intros Hb; pose proof Hb as [Hr [Hn1 Hn2] Hq (w & logs & Es & Hok & Hos)]; unfold fanout_turn.
  destruct (br_heap b !! tr) as [t|]; [|done]; cbn [fanout_worker]; intros Hr'.
  eapply (broker_ok_store b _ w logs w logs); try done; [apply harmless_refl |].
  intros r o; cbn; intros Ho; destruct (so_mode o) eqn:Hm; [left; by eapply fanout_persistent | right; intros ?; congruence].
Qed.

(** ** Every event keeps the invariant *)

(** What clients and the disk may do: topics have flat names, subscriptions are not of
    the failover type and start at one end of the topic, acknowledgements are individual,
    nobody seeks or unsubscribes, and a write to the log fails as a whole. *)
Definition fits (e : broker_event) : Prop :=
  match e with
  | ETopic _ name => served name
  | EOpen _ _ t _ options => t <> Failover /\ start_message_id options = None
  | EJoin _ c => (forall m, ~ holds c m) /\ 0 <= priority_level c
  | EAck _ _ ack_type _ => ack_type = Individual
  | ESeek _ _ | ESeekTime _ _ | EDrain _ _ | EUnsubscribe _ _ | EUnregister _ _ => False
  | EPublish _ _ io _ meta data => io_clean io /\ data_fits meta data
  | EEnqueue _ meta data _ => data_fits meta data
  | EServe env _ => forall round k, io_clean (WriteQueue.group_io env round k)
  | _ => True
  end.

(** The ids and sizes that the next event may need fit the 64-bit fields. *)
Definition broker_room b : bool :=
  match br_store b with
  | RocksDbBackend w =>
      store_room w (1 + Z.of_nat (length (write_queue b))) (items_size (req_item <$> write_queue b) + 2 * U32_MAX)
  | MemoryBackend _ => true
  end.

Lemma room_at b w k extra :
  broker_room b = true -> br_store b = RocksDbBackend w -> k <= 1 + Z.of_nat (length (write_queue b)) ->
  0 <= extra <= items_size (req_item <$> write_queue b) + 2 * U32_MAX -> store_room w k extra = true.
Proof. unfold broker_room; intros Hr Es ? ?; rewrite Es in Hr; by eapply store_room_mono. Qed.

Lemma broker_ok_same b b' :
  broker_ok b -> registry_wf b' -> topics b' = topics b -> partitioned_topics b' = partitioned_topics b ->
  write_queue b' = write_queue b -> br_store b' = br_store b -> br_subs b' = br_subs b -> broker_ok b'.
Proof.
  intros [_ [Hn1 Hn2] Hq (w & logs & Es & Hok & Hos)] Hr Et Ep Eq Est Esub; split; [done | | by rewrite Eq |].
  - split; [by rewrite Et | by rewrite Ep].
  - exists w, logs; by rewrite Est, Esub.
Qed.

Lemma event_keeps e b b' :
  fits e -> broker_room b = true -> broker_ok b -> apply_event clock e b = Some b' -> broker_ok b'.
Proof.
  intros Hf Hroom Hb E; pose proof (event_wf clock _ _ _ E (bk_registry _ Hb)) as Hr'; revert E.
  pose proof (items_size_nonneg (req_item <$> write_queue b)).
  assert (forall w, br_store b = RocksDbBackend w -> store_room w 1 0 = true) as Hr0
    by (intros w Es; apply (room_at b); [done | done | lia | mlia]).
  destruct e; cbn [apply_event] in *; try done;
    try (by intros [= <-]; eapply (broker_ok_same b)).
  - intros [= <-]; by apply topic_ok.
  - destruct Hf; by apply open_ok.
  - destruct Hf; apply with_sub_ok; [by apply join_safe | done | done].
  - apply with_sub_ok; [apply leave_safe | done | done].
  - apply with_sub_ok; [apply permits_safe | done | done].
  - cbn in Hf; subst ack_type; apply with_sub_ok; [apply acked_safe | done | done].
  - apply with_sub_ok; [apply redeliver_safe | done | done].
  - apply with_sub_ok; [apply last_safe | done | done].
  - apply with_sub_ok; [apply dispatch_safe | done | done].
  - intros [= <-]; destruct Hf; apply publish_ok; try done.
    intros w Es; apply (room_at b); [done | done | lia | mlia].
  - intros [= <-]; destruct (br_heap b !! tr) as [t|] eqn:Et; [by apply (enqueue_ok tr) | done].
  - intros [= <-]; by apply fanout_ok.
  - intros [= <-]; apply serve_ok; try done.
    intros w Es; apply (room_at b); [done | done | lia | mlia].
Qed.

(** A list of events with room before each of them. *)
Fixpoint room_along (l : list broker_event) b : bool :=
  broker_room b && match l with
                   | [] => true
                   | e :: l => from_option (room_along l) false (apply_event clock e b)
                   end.

Lemma events_keep l b b' :
  broker_ok b -> Forall fits l -> room_along l b = true -> apply_events clock l b = Some b' -> broker_ok b'.
Proof.
  intros Hb Hl; revert b Hb; induction Hl as [|e l He Hl IH]; intros b Hb; [by intros _ [= <-] |].
  rewrite apply_events_cons; cbn [room_along]; intros [Hr Hrest]%andb_prop (b1 & E1 & E2)%bind_Some.
  rewrite E1 in Hrest; apply (IH b1); [by eapply event_keeps | done | done].
Qed.

Lemma events_keep_default l b :
  broker_ok b -> Forall fits l -> room_along l b = true -> broker_ok (default b (apply_events clock l b)).
Proof.
  intros Hb Hl Hr; destruct (apply_events clock l b) as [b'|] eqn:E; [|done]; by apply (events_keep l b).
Qed.

(** As long as there is room, the invariant holds; the broker that ran out of it is
    on the way. *)
Lemma traced_keeps b b' :
  broker_ok b -> traced clock fits b b' ->
  broker_ok b' \/ exists b1, traced clock fits b b1 /\ traced clock fits b1 b' /\ broker_room b1 = false.
Proof.
  intros Hb (l & Hl & E); revert b Hb E; induction Hl as [|e l He Hl IH]; intros b Hb; [intros [= <-]; by left |].
  rewrite apply_events_cons; intros (b1 & E1 & E2)%bind_Some; destruct (broker_room b) eqn:Hroom.
  - destruct (IH b1 (event_keeps _ _ _ He Hroom Hb E1) E2) as [?|(b2 & Ht1 & Ht2 & ?)]; [by left | right].
    exists b2; split_and!; [|done | done]; etransitivity; [by eapply traced_event | done].
  - right; exists b; split_and!; [done | | done]; etransitivity; [by eapply traced_event |]; by exists l.
Qed.
End broker.

(** ** The running broker *)

Definition served_topic (t : string) : bool :=
  match parse_topic_name t with
  | Ok p => negb (has_char "/" (tn_local_name p)) && (-1 <=? extract_partition_from_name t)
  | Err _ => false
  end.

Lemma served_topic_spec t : served_topic t = true -> served t.
Proof.
  unfold served_topic; destruct (parse_topic_name t) as [p|] eqn:E; [|done]; intros [Hl Hp]%andb_prop.
  apply parse_topic_name_spec in E as (Ht & Ha & Hn & Hd & _); split; [|lia].
  exists (tn_domain p), (tn_tenant p), (tn_namespace p), (tn_local_name p); split; try done; by apply negb_true_iff.
Qed.

Definition well_behaved (cmd : BaseCommand) : bool :=
  negb (command_type cmd =? T_SEEK) && negb (command_type cmd =? T_UNSUBSCRIBE) &&
  from_option (fun x : string * Z * Z * option string => served_topic x.1.1.1) true
    (get_field (fun f => match f with FProducer t p r n => Some (t, p, r, n) | _ => None end) cmd) &&
  from_option (fun sub =>
      served_topic (subscribe_topic sub) && negb (bool_decide (subscribe_type (subscribe_sub_type sub) = Failover)) &&
      match start_message_id (cursor_options sub) with None => true | Some _ => false end &&
      (0 <=? default 0 (subscribe_priority_level sub))) true
    (get_field (fun f => match f with FSubscribe s => Some s | _ => None end) cmd) &&
  from_option (fun x : Z * Z * list MessageIdData * option Z =>
      match ack_type_from_proto x.1.1.2 with Individual => true | Cumulative => false end) true
    (get_field (fun f => match f with FAck c t ids r => Some (c, t, ids, r) | _ => None end) cmd).

Lemma allowed_fits i cmd frame e :
  well_behaved cmd = true -> io_clean (in_log i) -> data_fits (frame_metadata frame) (frame_payload frame) ->
  allowed i cmd frame e -> fits e.
Proof.
  unfold well_behaved; intros [[[[Hs Hu]%andb_prop Hpr]%andb_prop Hsub]%andb_prop Hack]%andb_prop Hio Hd.
  apply negb_true_iff, Z.eqb_neq in Hs; apply negb_true_iff, Z.eqb_neq in Hu.
  assert (forall sub, get_field (fun f => match f with FSubscribe s => Some s | _ => None end) cmd = Some sub ->
    served (subscribe_topic sub) /\ subscribe_type (subscribe_sub_type sub) <> Failover /\
    start_message_id (cursor_options sub) = None /\ 0 <= default 0 (subscribe_priority_level sub)) as Hsub'.
  { intros sub E; rewrite E in Hsub; cbn in Hsub; apply andb_prop in Hsub as [[[H1 H2]%andb_prop H3]%andb_prop H4].
    split_and!; [by apply served_topic_spec | by apply negb_true_iff, bool_decide_eq_false in H2 | | lia].
    by destruct (start_message_id (cursor_options sub)). }
  destruct e; cbn [allowed fits]; try done.
  - intros [(id & request & asked & E)|(sub & E & <-)]; [|by apply Hsub'].
    rewrite E in Hpr; by apply served_topic_spec.
  - intros (sub & E & _ & -> & _ & ->); by destruct (Hsub' sub E) as (_ & ? & ? & _).
  - intros (sub & connection & answers & E & ->); destruct (Hsub' sub E) as (_ & _ & _ & Hp); split; [|done].
    intros m [x Hx]; cbn in Hx; by rewrite lookup_empty in Hx.
  - intros (id0 & t & ids0 & request & E & ->); rewrite E in Hack; cbn in Hack; by destruct (ack_type_from_proto t).
  - by intros (-> & -> & ->).
  - by intros (-> & ->).
Qed.

Section system.
Context {bytes : Type} `{DbCodec bytes, !DbCodecLaws bytes} `{MetadataDecoder} `{CommandCodec}.
Context (clock : Z -> Z) (clock_ok : forall k, i64_range (clock k)).

(** Publications fit their fields and the writes of the log fail as a whole. *)
Definition action_fits (a : action) : Prop :=
  match a with
  | ATurn _ (EFrame i frame) => io_clean (in_log i) /\ data_fits (frame_metadata frame) (frame_payload frame)
  | AWrite env _ => forall round k, io_clean (WriteQueue.group_io env round k)
  | _ => True
  end.

Definition clean_step (s s' : Sys (bytes := bytes)) : Prop :=
  exists a, action_fits a /\ perform clock well_behaved a s = Some s'.

Lemma basic_fits e : basic e -> fits e.
Proof. by destruct e. Qed.

Lemma turn_fits id e (w w' : World (bytes := bytes)) t :
  action_fits (ATurn id e) -> event_ok well_behaved e = true -> run_turn clock e w = Some (t, w') -> traced clock fits w.2 w'.2.
Proof.
  intros Ha He; apply (run_turn_traced clock fits basic_fits); intros i frame cmd ev -> Hd; cbn in He, Ha; rewrite Hd in He.
  destruct Ha; by apply allowed_fits.
Qed.

Lemma clean_step_traced s s' : clean_step s s' -> traced clock fits (sys_broker s) (sys_broker s').
Proof.
  intros (a & Ha & E); destruct a as [now k answers|id e|n|tr window|env round]; cbn [perform] in E.
  - case_decide; [|done]; by injection E as <-.
  - destruct (event_ok well_behaved e) eqn:He; [|done]; apply bind_Some in E as (c & Hc & E).
    apply bind_Some in E as ([t w] & Et & E); pose proof (turn_fits id e _ _ _ Ha He Et) as Ht.
    destruct t as [|r0|e0]; [by injection E as <- | | by injection E as <-].
    apply bind_Some in E as ([r w1] & Ef & E); injection E as <-; cbn.
    etransitivity; [exact Ht |]; by apply (finish_run_traced clock fits basic_fits) in Ef.
  - apply bind_Some in E as (t & Et & E); apply bind_Some in E as ([r b] & Er & E); injection E as <-; cbn.
    apply (run_task_traced clock fits basic_fits) in Er; etransitivity; [|exact Er].
    by apply (traced_event _ _ (ETasks (delete n (tasks (sys_broker s))))).
  - injection E as <-; by apply (traced_event _ _ (EFanout tr window)).
  - injection E as <-; unfold write_round; pose proof (traced_event clock fits (EServe env round) (sys_broker s)) as Ht.
    cbn in Ht; destruct (serve_queue clock env round (sys_broker s)) as [completions b]; by apply Ht.
Qed.

Lemma clean_all l s s' : Forall action_fits l -> perform_all clock well_behaved l s = Some s' -> rtc clean_step s s'.
Proof.
  intros Hl; revert s; induction Hl as [|a l Ha Hl IH]; cbn [perform_all]; intros s; [intros [= <-]; done |].
  intros (s1 & E1 & E2)%bind_Some; eapply rtc_l; [by exists a | by apply IH].
Qed.

Lemma clean_all_default l s :
  Forall action_fits l -> match perform_all clock well_behaved l s with Some _ => true | None => false end = true ->
  rtc clean_step s (default s (perform_all clock well_behaved l s)).
Proof. intros Hl; destruct (perform_all clock well_behaved l s) as [s'|] eqn:E; [|done]; intros _; by apply (clean_all l). Qed.

Lemma clean_run_traced s s' : rtc clean_step s s' -> traced clock fits (sys_broker s) (sys_broker s').
Proof. induction 1 as [|s1 s2 s3 Hs _ IH]; [done |]; etransitivity; [by apply clean_step_traced | exact IH]. Qed.

(** A broker before its first connection, on a store left by earlier runs. *)
Record starts_on (b : Broker bytes) (w : Rocks bytes) : Prop := {
  so_store : br_store b = RocksDbBackend w;
  so_heap : br_heap b = ∅;
  so_topics : topics b = ∅;
  so_partitioned : partitioned_topics b = ∅;
  so_subs : br_subs b = ∅;
  so_queue : write_queue b = [];
  so_counts : forall name, partition_count name b <= U64_MAX;
}.

Lemma starts_ok b w logs : starts_on b w -> store_ok w logs -> broker_ok clock b.
Proof.
  intros [Hst Hh Ht Hp Hs Hq Hc] Hok; split.
  - by apply registry_wf_start.
  - split; rewrite ?Ht, ?Hp; intros ? ? ?%lookup_empty_Some; done.
  - by rewrite Hq.
  - exists w, logs; split_and!; [done | done |]; rewrite Hs; by intros r o ?%lookup_empty_Some.
Qed.

(** The messages of the topic are in the log, and the subscription knows of every one it
    has passed: the stored cursor has it acknowledged, a consumer holds it, or it waits
    for redelivery.  The next dispatch succeeds. *)
Definition keeps_messages (w : Rocks bytes) (o : SubscriptionObject) : Prop :=
  exists rt L ms state, so_rt o = Some rt /\ topic_holds w (so_topic o) L ms /\
    cursor_stored w (so_topic o) (so_name o) state /\
    (forall d, dispatcher rt = Some d -> nothing_lost ms (fun x => negb (unacked state x)) d) /\
    exists sub', sub_dispatch_messages (mkSubscription (view_of clock w o) rt) = Some (Ok tt, sub').

Lemma object_keeps w logs o : so_mode o = Persistent -> object_ok clock w logs o -> keeps_messages w o.
Proof.
  intros Hm Ho; destruct (Ho Hm) as (_ & rt & Hrt & _ & Hi); destruct (dispatch_wf _ _ Hi) as (sub' & Hd & _).
  destruct Hi as (acked & readable & [Hdur Hw]); cbn in Hdur, Hw; destruct Hdur as (L & state & part & Hh & Hc & _ & _ & Ha & _).
  exists rt, L, (logs (managed_ledger_name (so_topic o))), state; split_and!; [done | done | done | | by exists sub'].
  intros d Hd' x Hx Hb; destruct (rw_dispatcher _ _ _ _ Hw d Hd') as [Hwd _].
  rewrite <- (Ha x Hx); by apply (enum_nothing_lost _ _ _ _ Hwd).
Qed.

Lemma broker_keeps b :
  broker_ok clock b -> exists w, br_store b = RocksDbBackend w /\
    forall r o, br_subs b !! r = Some o -> so_mode o = Persistent -> keeps_messages w o.
Proof.
  intros [_ _ _ (w & logs & Es & _ & Hos)]; exists w; split; [done |]; intros r o Ho Hm.
  eapply object_keeps; [done | by eapply Hos].
Qed.
End system.

(** ** Properties *)

(** C2: No message is lost by the broker.  It starts on any consistent RocksDB store;
    then connections, tasks, fan-out workers and the write queue run in any order.
    Every message of the topic of a persistent subscription is in the log, and every one
    the subscription has passed is acknowledged in its stored cursor, held by one of its
    consumers, or queued for redelivery; the next dispatch succeeds - or at some point
    the ids or sizes had outgrown their 64-bit fields.  What is assumed of the clients
    ([well_behaved]): topic names of three parts that do not end in a partition index
    below -1, individual acknowledgements, no failover subscriptions, no start at a
    given message id, priority levels that are not negative, neither seek nor
    unsubscribe; and of the rest ([action_fits]): a write to the log succeeds or fails
    as a whole, and metadata and payloads have lengths of 32 bits. *)
Theorem broker_keeps_messages {bytes : Type} `{DbCodec bytes, !DbCodecLaws bytes} `{MetadataDecoder} `{CommandCodec}
    (clock : Z -> Z) (b : Broker bytes) (w0 : Rocks bytes) (logs : string -> list StoredMessage) (s : Sys) :
  (forall k, i64_range (clock k)) -> starts_on b w0 -> store_ok w0 logs -> rtc (clean_step clock) (sys_start b) s ->
  (exists w, br_store (sys_broker s) = RocksDbBackend w /\
     forall r o, br_subs (sys_broker s) !! r = Some o -> so_mode o = Persistent -> keeps_messages clock w o) \/
  exists b1, traced clock fits b b1 /\ traced clock fits b1 (sys_broker s) /\ broker_room b1 = false.
Proof.
  intros Hclock Hs Hok Hrun%clean_run_traced; cbn in Hrun.
  destruct (traced_keeps clock Hclock b (sys_broker s) (starts_ok clock b w0 logs Hs Hok) Hrun) as [Hb|?]; [left | by right].
  by apply broker_keeps.
Qed.

(** *** An example: one publication on its way to a consumer *)

Definition courier_script : CommandCodec := script_codec [
  mkCommand T_CONNECT [FConnect (Some 19)];
  mkCommand T_PRODUCER [FProducer "persistent://t/n/orders" 1 1 None];
  mkCommand T_SUBSCRIBE [FSubscribe (mkSubscribe "persistent://t/n/orders" "billing" 1 7 2 None None None (Some 1) None [])];
  mkCommand T_SEND [FSend 1 0];
  mkCommand T_FLOW [FFlow 7 10]].

Definition courier : CnxConfig := mkCnxConfig "c1" 30 30 10 1 100 1000 10 100 "pulsar://localhost:6650" true true.

Definition courier_frame (n : Z) : action :=
  ATurn "c1" (EFrame (mkInputs 0 [Slot; Slot] (true, WriteOk) true) (mkFrame [n] (Some [1; 2]) [3; 4; 5] None)).

(** The write queue appends, the completion comes back, and the tasks dispatch. *)
Definition courier_actions : list action :=
  AAccept 0 courier [] :: (courier_frame <$> [0; 1; 2; 3]) ++
  [AWrite WriteQueue.calm_env 0; ATurn "c1" (ECompletions 1); courier_frame 4; ATask 0; ATask 0].

#[local] Existing Instance byte_metadata.

Definition courier_broker : Broker plain := broker_with_config (RocksDbBackend WriteQueue.empty_rocks) 0.
Definition courier_run : Sys :=
  default (sys_start courier_broker)
    (perform_all (H1 := courier_script) (fun _ => 0) well_behaved courier_actions (sys_start courier_broker)).

(** The consumers that hold a message. *)
Definition holders (b : Broker plain) : list Z :=
  consumer_id <$> filter (fun c => inner (pending_acks c) <> ∅) ((map_to_list (br_subs b)).*2 ≫= so_get_consumers).

Lemma empty_store_ok : store_ok WriteQueue.empty_rocks (fun _ => []).
Proof.
  split.
  - exists (fun _ => []), 0, 0; apply WriteQueue.empty_rocks_wf.
  - by intros t m _ ?%elem_of_nil.
  - intros t sub _; exists default_cursor_state; split; [reflexivity | by left].
Qed.

Lemma courier_starts : starts_on courier_broker WriteQueue.empty_rocks.
Proof. split; try done; intros name; unfold partition_count; cbn; rewrite lookup_empty; vm_compute; discriminate. Qed.

Lemma broker_keeps_messages_witness :
  holders (sys_broker courier_run) = [7] /\
  ((exists w, br_store (sys_broker courier_run) = RocksDbBackend w /\
      forall r o, br_subs (sys_broker courier_run) !! r = Some o -> so_mode o = Persistent -> keeps_messages (fun _ => 0) w o) \/
   exists b1, traced (fun _ => 0) fits courier_broker b1 /\ traced (fun _ => 0) fits b1 (sys_broker courier_run) /\
     broker_room b1 = false).
Proof.
  split; [vm_compute; reflexivity |].
  apply (broker_keeps_messages (H1 := courier_script) (fun _ => 0) courier_broker WriteQueue.empty_rocks (fun _ => []) courier_run).
  - intros k; vm_compute; split; congruence.
  - exact courier_starts.
  - exact empty_store_ok.
  - apply (clean_all_default (H1 := courier_script) (fun _ => 0) courier_actions).
    + repeat constructor; cbn; first [done | left; reflexivity | vm_compute; discriminate | intros; split; [reflexivity | left; reflexivity]].
    + vm_compute; reflexivity.
Defined.

(** The events of such a run: there was room before each of them, so the subscription
    does keep track of its messages. *)
Definition courier_events : list broker_event :=
  let topic := ETopic 0 "persistent://t/n/orders" in
  let consumer := Consumer.mkInfo 7 "consumer-7" "c1" 0 None in
  [topic; EAddProducer 0 (mkProducer 1 "producer-1" 0 "conn-1"); topic;
   EOpen 0 "billing" Shared None (mkCursorInit Earliest None); EJoin 0 (consumer_new consumer [Slot; Slot]);
   ECharge 0 0 (Some [1; 2]) [3; 4; 5]; EEnqueue 0 (Some [1; 2]) [3; 4; 5] (WriteQueue.Conn 1 0 "c1");
   EServe WriteQueue.calm_env 0; ESpawn (DispatchTopic 0); EPermits 0 7 10; ESpawn (DispatchSubscription 0);
   ETasks [DispatchSubscription 0]; EDispatch 0; ETasks []; EDispatch 0].

Definition courier_after : Broker plain :=
  default courier_broker (apply_events (fun _ => 0) courier_events courier_broker).

Lemma courier_keeps :
  holders courier_after = [7] /\
  exists w, br_store courier_after = RocksDbBackend w /\
    forall r o, br_subs courier_after !! r = Some o -> so_mode o = Persistent -> keeps_messages (fun _ => 0) w o.
Proof.
  split; [vm_compute; reflexivity |].
  apply broker_keeps, (events_keep_default (fun _ => 0) ltac:(intros k; vm_compute; split; congruence) courier_events).
  - eapply starts_ok; [exact courier_starts | exact empty_store_ok].
  - repeat constructor; cbn; try done; try (by apply served_topic_spec); try (by vm_compute).
    intros m [x Hx]; cbn in Hx; by rewrite lookup_empty in Hx.
  - vm_compute; reflexivity.
Qed.
