(* ===== verification/Handshake.v ===== *)
(** * Handshake

    Before a connection has completed its handshake it can do nothing to the broker:
    it owns no producers and consumers, has nothing in flight, and a command other
    than those of the handshake and the keep-alive ends it. *)

From S2P Require Import Prelude Position Text LedgerInfo MetadataCodec EntryLog RocksLedger Keys StickyKey Consumer.
From S2P Require Import Commands Codec StorageService Subscription Effects TopicSubscription Topic BrokerService.
From S2P Require Import PublishRate Connection System FlowControl.

Section handshake.
Context {bytes : Type} `{DbCodec bytes} `{MetadataDecoder} `{CommandCodec} (clock : Z -> Z).

Abbreviation handler := (M (World (bytes := bytes)) cnx_error).

(** ** A handshake is never undone *)

Definition shaken (w : World (bytes := bytes)) : bool := handshake_completed (liveness w.1).

Definition shakes (w w' : World (bytes := bytes)) : Prop := shaken w = true -> shaken w' = true.

#[local] Instance shakes_preorder : PreOrder shakes.
Proof. split; unfold shakes; [intros w; done | intros w1 w2 w3; auto]. Qed.

Lemma shakes_cnx f :
  (forall c, handshake_completed (liveness c) = true -> handshake_completed (liveness (f c)) = true) ->
  keeps shakes (change_cnx (bytes := bytes) f).
Proof. intros Hf w r w' [= _ <-]; exact (Hf w.1). Qed.

Lemma shakes_broker f : keeps shakes (change_broker (bytes := bytes) f).
Proof. intros w r w' [= _ <-]; exact (fun x => x). Qed.

Lemma shakes_run {A} (f : Broker bytes -> A * Broker bytes) : keeps shakes (run_broker f).
Proof. intros w r w'; unfold run_broker; destruct (f w.2); intros [= _ <-]; exact (fun x => x). Qed.

Lemma shakes_on {A} (m : M (Broker bytes) sub_failure A) : keeps shakes (on_broker m).
Proof. intros w r w'; unfold on_broker; destruct (m w.2) as [[[a|e] b]|]; [| |done]; intros [= _ <-]; exact (fun x => x). Qed.

Lemma shakes_feed o : keeps shakes (feed (bytes := bytes) o).
Proof. intros w r w'; unfold feed; destruct (default _ _); intros [= _ <-]; exact (fun x => x). Qed.

Lemma shakes_send cmd : keeps shakes (send (bytes := bytes) cmd).
Proof. apply shakes_feed. Qed.

Lemma shakes_flush : keeps shakes (flush (bytes := bytes)).
Proof. intros w r w' [= _ <-]; exact (fun x => x). Qed.

Lemma shakes_none {A} : keeps shakes ((fun _ => None) : handler A).
Proof. by intros w r w'. Qed.

#[local] Hint Resolve shakes_broker shakes_run shakes_on shakes_send shakes_flush shakes_none : keeps.
#[local] Hint Extern 2 (keeps shakes (change_cnx _)) => apply shakes_cnx; done : keeps.
#[local] Hint Extern 1 (keeps ?R (get_cnx _)) => apply (keeps_gets R) : keeps.
#[local] Hint Extern 1 (keeps ?R (get_broker _)) => apply (keeps_gets R) : keeps.
#[local] Hint Extern 3 (keeps _ (match ?x with _ => _ end)) => destruct x : keeps.

Lemma shakes_parts :
  (forall i name, keeps shakes (concrete_topic (bytes := bytes) i name)) /\
  (forall id, keeps shakes (known_consumer (bytes := bytes) id)) /\ (forall id, keeps shakes (known_producer (bytes := bytes) id)) /\
  (forall id p, keeps shakes (release_producer (bytes := bytes) id p)) /\
  (forall p q topic, keeps shakes (send_rate_error (bytes := bytes) p q topic)) /\
  (forall p q res, keeps shakes (complete_persistent_send (bytes := bytes) p q res)).
Proof.
  unfold concrete_topic, known_consumer, known_producer, release_producer, send_rate_error, complete_persistent_send.
  split_and!; intros; eauto 20 with keeps.
Qed.

#[local] Hint Extern 1 (keeps shakes _) => apply shakes_parts : keeps.

Lemma shakes_complete_append a : keeps shakes (complete_append (bytes := bytes) a).
Proof. unfold complete_append; eauto with keeps. Qed.
#[local] Hint Resolve shakes_complete_append : keeps.

Lemma shakes_drain rx : keeps shakes (drain_in_flight (bytes := bytes) rx).
Proof. induction rx as [|a rx IH]; cbn [drain_in_flight]; unfold while_full; eauto 20 with keeps. Qed.

Lemma shakes_handle_send i cmd frame : keeps shakes (handle_send clock i cmd frame).
Proof.
  assert (forall p producer_id sequence_id size, keeps shakes (send_direct clock i p producer_id sequence_id size frame)) as Hd
    by (intros; unfold send_direct; eauto 20 with keeps).
  assert (forall p producer_id sequence_id size, keeps shakes (send_queued clock i p producer_id sequence_id size frame)) as Hq
    by (intros; unfold send_queued; eauto 20 using shakes_drain with keeps).
  assert (forall p producer_id sequence_id size, keeps shakes (send_non_persistent i p producer_id sequence_id size frame)) as Hn
    by (intros; unfold send_non_persistent; eauto 20 with keeps).
  unfold handle_send; eauto 20 with keeps.
Qed.

Lemma shakes_command i cmd frame : keeps shakes (handle_command clock i cmd frame).
Proof.
  assert (keeps shakes (handle_producer i cmd) /\ keeps shakes (handle_subscribe clock i cmd) /\ keeps shakes (handle_flow cmd) /\
    keeps shakes (handle_ack clock cmd) /\ keeps shakes (handle_unsubscribe clock cmd) /\ keeps shakes (handle_seek clock cmd) /\
    keeps shakes (handle_get_last_message_id clock cmd) /\ keeps shakes (handle_redeliver_unacknowledged_messages clock cmd) /\
    keeps shakes (handle_connect i cmd) /\ keeps shakes (handle_partition_metadata cmd) /\ keeps shakes (handle_lookup cmd) /\
    keeps shakes (handle_ping (bytes := bytes)) /\ keeps shakes (handle_pong cmd) /\ keeps shakes (handle_close_producer cmd) /\
    keeps shakes (handle_close_consumer clock cmd)) as Hall.
  { unfold handle_producer, handle_subscribe, handle_flow, handle_ack, handle_unsubscribe, handle_seek, handle_get_last_message_id,
      handle_redeliver_unacknowledged_messages, handle_connect, handle_partition_metadata, handle_lookup, handle_ping, handle_pong,
      handle_close_producer, handle_close_consumer; split_and!; eauto 20 with keeps. }
  destruct_and!; unfold handle_command; do 4 (apply (keeps_bind shakes); [eauto with keeps | intros ?]).
  repeat (destruct (Z.eqb _ _); [by auto using shakes_handle_send |]); eauto with keeps.
Qed.

Lemma or_fail_shakes m w t w' : keeps shakes m -> or_fail m w = Some (t, w') -> shakes w w'.
Proof.
  intros Hm; unfold or_fail; destruct (m w) as [[[u|e] w1]|] eqn:E; [| |done]; intros [= _ <-]; apply Hm in E; exact E.
Qed.

Lemma shakes_tick now : keeps shakes (handle_keep_alive_tick (bytes := bytes) now).
Proof.
  apply (keeps_bind shakes); [eauto with keeps |]; intros c; unfold start_connection_liveness_check; repeat case_match; eauto 10 with keeps.
Qed.

Lemma run_turn_shakes e w t w' : run_turn clock e w = Some (t, w') -> shakes w w'.
Proof.
  destruct e as [i frame| | |n|queued|now|now]; cbn [run_turn].
  - destruct (read_paused _); [done |]; destruct (decode_command _) as [cmd|]; [|by intros [= _ <-]].
    intros E; apply or_fail_shakes in E; [exact E | apply shakes_command].
  - destruct (read_paused _); [done |]; by intros [= _ <-].
  - destruct (read_paused _); [done |]; intros [= _ <-]; exact (fun x => x).
  - destruct (take _ _) as [|a batch]; [done |]; apply or_fail_shakes; apply (keeps_bind shakes); [|eauto with keeps].
    apply (keeps_for_each shakes); eauto with keeps.
  - destruct (take _ _) as [|x batch]; [done |]; apply or_fail_shakes; apply (keeps_bind shakes); [|eauto with keeps].
    apply (keeps_for_each shakes); intros o _; apply shakes_feed.
  - destruct (handle_keep_alive_tick now w) as [[[[]|e] w1]|] eqn:E; [| | |done]; intros [= _ <-]; by apply shakes_tick in E.
  - destruct (connection_check_in_progress _) as [check|] eqn:Ec; [|done]; destruct (_ <=? _); [|done].
    unfold handle_connection_check_timeout; rewrite Ec; intros [= _ <-]; exact (fun x => x).
Qed.

(** ** Before the handshake *)

(** The broker and what the connection owns are as they were. *)
Record untouched (w w' : World (bytes := bytes)) : Prop := {
  un_broker : w'.2 = w.2;
  un_config : config w'.1 = config w.1;
  un_producers : producers w'.1 = producers w.1;
  un_consumers : consumers w'.1 = consumers w.1;
  un_accounts : accounts w'.1 = accounts w.1;
  un_rx : conn_append_rx w'.1 = conn_append_rx w.1;
}.

#[local] Instance untouched_preorder : PreOrder untouched.
Proof. split; [by split |]; intros w1 w2 w3 [] []; split; congruence. Qed.

Lemma untouched_cnx f : (forall w, untouched w (f w.1, w.2)) -> keeps untouched (change_cnx (bytes := bytes) f).
Proof. intros Hf w r w' [= _ <-]; apply Hf. Qed.

Lemma untouched_feed o : keeps untouched (feed (bytes := bytes) o).
Proof. intros w r w'; unfold feed; destruct (default _ _); intros [= _ <-]; by split. Qed.

Lemma untouched_send cmd : keeps untouched (send (bytes := bytes) cmd).
Proof. apply untouched_feed. Qed.

Lemma untouched_outbound batch : keeps untouched (write_message_batch (bytes := bytes) batch).
Proof.
  apply (keeps_bind untouched); [apply (keeps_for_each untouched); intros o _; apply untouched_feed |].
  intros _ w r w' [= _ <-]; by split.
Qed.

#[local] Hint Resolve untouched_send : keeps.
#[local] Hint Extern 2 (keeps untouched (change_cnx _)) => apply untouched_cnx; intros ?; by split : keeps.

Lemma untouched_early i cmd :
  keeps untouched (handle_connect (bytes := bytes) i cmd) /\ keeps untouched (handle_ping (bytes := bytes)) /\
  keeps untouched (handle_pong (bytes := bytes) cmd).
Proof. unfold handle_connect, handle_ping, handle_pong; split_and!; eauto 10 with keeps. Qed.

Lemma untouched_tick now : keeps untouched (handle_keep_alive_tick (bytes := bytes) now).
Proof.
  apply (keeps_bind untouched); [eauto with keeps |]; intros c; unfold start_connection_liveness_check; repeat case_match;
    eauto 10 with keeps.
Qed.

Lemma unshaken_command i cmd frame w r w' :
  shaken w = false -> handle_command clock i cmd frame w = Some (r, w') ->
  untouched w w' /\ (before_handshake_ok (command_type cmd) = false -> r = Err BeforeHandshake /\ w' = w).
Proof.
  intros Hs; unfold handle_command; unfold mbind at 1, M_bind at 1, get_cnx at 1, gets at 1; fold (shaken w); rewrite Hs.
  cbn [orb]; destruct (before_handshake_ok (command_type cmd)) eqn:Hb; [|intros [= <- <-]; split; [reflexivity | done]].
  intros E; split; [|done]; revert E; destruct (untouched_early i cmd) as (Hc & Hpi & Hpo).
  do 3 (intros [->|(? & _ & E)]%reads_bind; [done | revert E | eauto with keeps]).
  unfold before_handshake_ok in Hb; apply orb_true_iff in Hb as [[Hb|Hb]%orb_true_iff|Hb]; apply Z.eqb_eq in Hb; rewrite Hb; cbn;
    [apply Hc | apply Hpi | apply Hpo].
Qed.

Lemma or_fail_untouched m w t w' :
  (forall r w1, m w = Some (r, w1) -> untouched w w1) -> or_fail m w = Some (t, w') -> untouched w w'.
Proof.
  intros Hm; unfold or_fail; destruct (m w) as [[[u|e] w1]|] eqn:E; [| |done]; intros [= _ <-]; specialize (Hm _ _ eq_refl);
    [done |]; destruct Hm; by split.
Qed.

Lemma run_turn_untouched e w t w' :
  shaken w = false -> conn_append_rx w.1 = [] -> run_turn clock e w = Some (t, w') ->
  untouched w w' /\
  (forall i frame cmd, e = EFrame i frame -> decode_command (frame_command frame) = Some cmd ->
     before_handshake_ok (command_type cmd) = false -> t = Break (Err BeforeHandshake)).
Proof.
  intros Hs Hrx; destruct e as [i frame| | |n|queued|now|now]; cbn [run_turn].
  - destruct (read_paused _); [done |]; destruct (decode_command _) as [cmd|] eqn:Ed; [|intros [= _ <-]; split; [done | naive_solver]].
    intros E; split.
    + assert (untouched w (mark_inbound_activity (in_now i) w.1, w.2)) as Hm by by split.
      etransitivity; [exact Hm |]; revert E; apply or_fail_untouched; intros r w1 E; by eapply unshaken_command.
    + intros i' frame' cmd' [= <- <-] Ed' Hb; assert (cmd' = cmd) as -> by congruence; revert E; unfold or_fail.
      destruct (handle_command _ _ _ _ _) as [[r w1]|] eqn:E; [|done].
      apply unshaken_command in E as [_ Hr]; [|exact Hs]; destruct (Hr Hb) as [-> _]; by intros [= <- _].
  - destruct (read_paused _); [done |]; intros [= _ <-]; split; [done | naive_solver].
  - destruct (read_paused _); [done |]; intros [= _ <-]; split; [by split | naive_solver].
  - by rewrite Hrx, take_nil.
  - destruct (take _ _) as [|x batch]; [done |]; intros E; split; [|naive_solver]; revert E.
    apply or_fail_untouched; intros r w1; apply untouched_outbound.
  - intros E; split; [|naive_solver]; revert E.
    destruct (handle_keep_alive_tick now w) as [[[[]|e] w1]|] eqn:E; [| | |done]; intros [= _ <-]; apply untouched_tick in E; [done.. |].
    destruct E; by split.
  - destruct (connection_check_in_progress _) as [check|] eqn:Ec; [|done]; destruct (_ <=? _); [|done].
    unfold handle_connection_check_timeout; rewrite Ec; intros [= _ <-]; split; [by split | naive_solver].
Qed.

(** ** The whole broker *)

(** A connection without handshake owns nothing. *)
Definition early_ok (c : ServerCnx) : Prop :=
  handshake_completed (liveness c) = false -> producers c = ∅ /\ consumers c = ∅ /\ pending_send_requests (accounts c) = 0.

Lemma flow_empty c (b : Broker bytes) :
  flow_ok (c, b) -> pending_send_requests (accounts c) = 0 -> in_flight c b = 0%nat /\ conn_append_rx c = [].
Proof.
  intros [_ Ha] Hz; cbn in Ha; pose proof (ao_requests _ _ _ Ha); unfold in_flight in *; split; [lia |].
  destruct (conn_append_rx c); [done | cbn in *; lia].
Qed.

Lemma early_turn e c (b : Broker bytes) t c' b' :
  early_ok c -> flow_ok (c, b) -> run_turn clock e (c, b) = Some (t, (c', b')) -> early_ok c'.
Proof.
  intros He Hf E Hs'; pose proof (run_turn_shakes _ _ _ _ E) as Hs; unfold shakes, shaken in Hs; cbn in Hs.
  destruct (handshake_completed (liveness c)) eqn:Hc; [by rewrite Hs in Hs' |]; destruct (He Hc) as (Hp & Hk & Hz).
  destruct (flow_empty _ _ Hf Hz) as [_ Hrx]; apply run_turn_untouched in E as [[] _]; [|done..]; cbn in *.
  split_and!; congruence.
Qed.

Lemma early_push l (cnxs : gmap string ServerCnx) id c :
  (forall id c, cnxs !! id = Some c -> early_ok c) -> foldl push_completion cnxs l !! id = Some c -> early_ok c.
Proof.
  intros He; rewrite push_completions_lookup; intros (c0 & Hc & ->)%fmap_Some; exact (He _ _ Hc).
Qed.

Lemma early_step clients s s' :
  sys_step clock clients s s' -> sys_ok s -> (forall id c, sys_cnxs s !! id = Some c -> early_ok c) ->
  forall id c, sys_cnxs s' !! id = Some c -> early_ok c.
Proof.
  destruct 1 as [s now k answers|s id c e c' b' _ Hl E|s id c e r w r' c' b' _ Hl E1 E2|s id c e err c' b' _ Hl E|
    s l1 t l2 r b' Ht E|s tr window|s env round]; intros Hok He; cbn; try done.
  - intros id c [[<- <-]|[_ Hc]]%lookup_insert_Some; [|by eapply He]; by intros _.
  - intros id2 c2 [[<- <-]|[_ Hc]]%lookup_insert_Some; [|by eapply He]; eapply early_turn; [| |exact E]; [by eapply He | by eapply so_cnx].
  - intros id2 c2 [_ Hc]%lookup_delete_Some; by eapply He.
  - intros id2 c2 [_ Hc]%lookup_delete_Some; by eapply He.
  - intros id c; unfold write_round; destruct (serve_queue _ _ _ _) as [l b']; cbn; by apply early_push.
Qed.

Lemma early_reachable clients b s :
  write_queue b = [] -> rtc (sys_step clock clients) (sys_start b) s ->
  sys_ok s /\ forall id c, sys_cnxs s !! id = Some c -> early_ok c.
Proof.
  intros Hb Hr; assert (sys_ok (sys_start b) /\ forall id c, sys_cnxs (sys_start b) !! id = Some c -> early_ok c) as Hs.
  { split; [by apply (reachable_ok clock clients b) | cbn; by intros ? ? ?%lookup_empty_Some]. }
  clear Hb; revert Hs; induction Hr as [|s1 s2 s3 Hs _ IH]; [done |]; intros [Ho He]; apply IH; split.
  - by eapply sys_step_ok.
  - by eapply early_step.
Qed.
End handshake.

(** ** Properties *)

(** C5: Nothing reaches the broker before the handshake: in every state of the
    system a connection that has not completed it owns no producer and no consumer
    and has no publication in flight, no turn of its loop changes the broker or gives
    it one, and a command other than connect, ping and pong ends it with an error. *)
Theorem handshake_first {bytes : Type} `{DbCodec bytes} `{MetadataDecoder} `{CommandCodec} (clock : Z -> Z)
    (clients : BaseCommand -> bool) (b : Broker bytes) (s : Sys) (id : string) (c : ServerCnx) :
  write_queue b = [] -> rtc (sys_step clock clients) (sys_start b) s -> sys_cnxs s !! id = Some c ->
  handshake_completed (liveness c) = false ->
  producers c = ∅ /\ consumers c = ∅ /\ in_flight c (sys_broker s) = 0%nat /\
  forall e t c' b', run_turn clock e (c, sys_broker s) = Some (t, (c', b')) ->
    b' = sys_broker s /\ producers c' = ∅ /\ consumers c' = ∅ /\
    (forall i frame cmd, e = EFrame i frame -> decode_command (frame_command frame) = Some cmd ->
       before_handshake_ok (command_type cmd) = false -> t = Break (Err BeforeHandshake)).
Proof.
  intros Hb Hr Hc Hs; destruct (early_reachable clock clients b s Hb Hr) as [Hok He]; destruct (He _ _ Hc Hs) as (Hp & Hk & Hz).
  destruct (so_cnx _ Hok _ _ Hc) as [_ Hf]; destruct (flow_empty _ _ Hf Hz) as [Hn Hrx]; split_and!; [done.. |].
  intros e t c' b' E; apply run_turn_untouched in E as [[Ub _ Up Uk _ _] Herr]; [|done..]; cbn in *.
  split_and!; [done | congruence | congruence | done].
Qed.

(** A client that sends before it connects. *)
Definition early_actions : list action := [AAccept 0 limited []].

#[local] Existing Instance byte_metadata.

Definition early_start : Broker plain := idle_broker (RocksDbBackend WriteQueue.empty_rocks).
Definition early_run : Sys :=
  default (sys_start early_start) (perform_all (H1 := publish_script) (fun _ => 0) (fun _ => true) early_actions (sys_start early_start)).

Lemma handshake_first_witness :
  exists t w, run_turn (H1 := publish_script) (fun _ => 0) (EFrame (mkInputs 0 [] (true, WriteOk) true) (mkFrame [1] None [] None))
    (cnx_new 0 limited [], sys_broker early_run) = Some (t, w) /\ w.2 = sys_broker early_run /\ t = Break (Err BeforeHandshake).
Proof.
  destruct (run_turn (H1 := publish_script) (fun _ => 0) (EFrame (mkInputs 0 [] (true, WriteOk) true) (mkFrame [1] None [] None))
    (cnx_new 0 limited [], sys_broker early_run)) as [[t [c' b']]|] eqn:E; [|vm_compute in E; discriminate].
  exists t, (c', b'); split; [reflexivity |].
  destruct (handshake_first (H1 := publish_script) (fun _ => 0) (fun _ => true) early_start early_run "c1" (cnx_new 0 limited []))
    as (_ & _ & _ & Hturn).
  - reflexivity.
  - apply (perform_all_default _ _ early_actions); vm_compute; reflexivity.
  - vm_compute; reflexivity.
  - reflexivity.
  - destruct (Hturn _ _ _ _ E) as (Hb & _ & _ & Ht); split; [exact Hb |]; eapply Ht; vm_compute; reflexivity.
Defined.
