(* ===== verification/ConnectionLimiter.v ===== *)
(** * The connection limit

    [connection_limiter.rs]: how many connections the broker takes, in all and from
    one address.  A connection holds a permit, which gives its place back when it is
    dropped. *)

From S2P Require Import Prelude.

Section limiter.
Context {Ip : Type} `{Countable Ip}.

Record ConnectionLimiterState := mkLimiterState {
  max_connections : Z;
  max_connections_per_ip : Z;
  total_connections : Z;
  connections_per_ip : gmap Ip Z;
}.

Record ConnectionPermit := mkPermit {
  permit_ip : Ip;
  permit_released : bool;
}.

Inductive limit_error := TooManyConnections | TooManyFromAddress (ip : Ip).

Implicit Types st : ConnectionLimiterState.

Definition new (max per_ip : Z) : ConnectionLimiterState := mkLimiterState max per_ip 0 ∅.

Definition try_acquire (ip : Ip) st : result limit_error ConnectionPermit * ConnectionLimiterState :=
  if (0 <? max_connections st) && (max_connections st <=? total_connections st) then (Err TooManyConnections, st)
  else
    let per_ip := default 0 (connections_per_ip st !! ip) in
    if (0 <? max_connections_per_ip st) && (max_connections_per_ip st <=? per_ip) then (Err (TooManyFromAddress ip), st)
    else (Ok (mkPermit ip false),
          mkLimiterState (max_connections st) (max_connections_per_ip st) (total_connections st + 1)
            (<[ip := per_ip + 1]> (connections_per_ip st))).

Definition sat_dec (n : Z) : Z := Z.max 0 (n - 1).

Definition release (ip : Ip) st : ConnectionLimiterState :=
  mkLimiterState (max_connections st) (max_connections_per_ip st) (sat_dec (total_connections st))
    (match connections_per_ip st !! ip with
     | Some count => if sat_dec count =? 0 then delete ip (connections_per_ip st)
                     else <[ip := sat_dec count]> (connections_per_ip st)
     | None => connections_per_ip st
     end).

(** [Drop]: a permit gives its place back once. *)
Definition drop_permit (p : ConnectionPermit) st : ConnectionPermit * ConnectionLimiterState :=
  if permit_released p then (p, st) else (mkPermit (permit_ip p) true, release (permit_ip p) st).

(** ** The permits that are held *)

(** Connections come and go; [permits] are the permits of all connections so far. *)
Inductive limiter_step : ConnectionLimiterState * list ConnectionPermit -> ConnectionLimiterState * list ConnectionPermit -> Prop :=
| step_acquire ip p st st' permits :
    try_acquire ip st = (Ok p, st') -> limiter_step (st, permits) (st', p :: permits)
| step_reject ip e st st' permits : try_acquire ip st = (Err e, st') -> limiter_step (st, permits) (st', permits)
| step_drop p p' st st' l1 l2 :
    drop_permit p st = (p', st') -> limiter_step (st, l1 ++ p :: l2) (st', l1 ++ p' :: l2).

Definition live (permits : list ConnectionPermit) : list Ip :=
  omap (fun p => if permit_released p then None else Some (permit_ip p)) permits.

Definition from (ip : Ip) (ips : list Ip) : Z := Z.of_nat (length (filter (fun x => x = ip) ips)).

Definition within_limit (max n : Z) : Prop := 0 < max -> n <= max.

(** The state counts the permits that are held. *)
Record counts (max per_ip : Z) (st : ConnectionLimiterState) (ips : list Ip) : Prop := {
  ct_max : max_connections st = max;
  ct_per_ip : max_connections_per_ip st = per_ip;
  ct_total : total_connections st = Z.of_nat (length ips);
  ct_count : forall ip, connections_per_ip st !! ip = if from ip ips =? 0 then None else Some (from ip ips);
  ct_limit : within_limit max (Z.of_nat (length ips));
  ct_ip_limit : forall ip, within_limit per_ip (from ip ips);
}.

Lemma from_nonneg ip ips : 0 <= from ip ips.
Proof. unfold from; lia. Qed.

Lemma from_cons ip x ips : from ip (x :: ips) = from ip ips + if decide (x = ip) then 1 else 0.
Proof. unfold from; rewrite filter_cons; case_decide; cbn [length]; lia. Qed.

Lemma from_app ip l1 l2 : from ip (l1 ++ l2) = from ip l1 + from ip l2.
Proof. unfold from; rewrite filter_app, length_app; lia. Qed.

Lemma count_default ip st ips max per_ip :
  counts max per_ip st ips -> default 0 (connections_per_ip st !! ip) = from ip ips.
Proof. intros Hc; rewrite (ct_count _ _ _ _ Hc); destruct (Z.eqb_spec (from ip ips) 0); cbn; lia. Qed.

Lemma acquire_counts max per_ip ip st p st' ips :
  counts max per_ip st ips -> try_acquire ip st = (Ok p, st') -> p = mkPermit ip false /\ counts max per_ip st' (ip :: ips).
Proof.
  intros Hc; pose proof (count_default ip _ _ _ _ Hc) as Hd; pose proof Hc as [E1 E2 E3 E4 E5 E6]; unfold try_acquire.
  rewrite Hd, E1, E2, E3; destruct (_ && _) eqn:Hmax; [done |]; destruct ((0 <? per_ip) && _) eqn:Hip; [done |]; intros [= <- <-].
  split; [done |]; split; cbn [max_connections max_connections_per_ip total_connections connections_per_ip]; try done.
  - cbn [length]; lia.
  - intros ip'; rewrite from_cons; destruct (decide (ip = ip')) as [<-|Hne].
    + rewrite lookup_insert_eq; pose proof (from_nonneg ip ips); destruct (Z.eqb_spec (from ip ips + 1) 0); [lia | done].
    + by rewrite lookup_insert_ne, Z.add_0_r.
  - unfold within_limit; cbn [length]; lia.
  - intros ip'; rewrite from_cons; specialize (E6 ip'); unfold within_limit in *; destruct (decide (ip = ip')) as [<-|]; lia.
Qed.

Lemma release_counts max per_ip ip st l1 l2 :
  counts max per_ip st (l1 ++ ip :: l2) -> counts max per_ip (release ip st) (l1 ++ l2).
Proof.
  intros [E1 E2 E3 E4 E5 E6].
  assert (forall x, from x (l1 ++ ip :: l2) = from x (l1 ++ l2) + if decide (ip = x) then 1 else 0) as Hf
    by (intros x; rewrite !from_app, from_cons; lia).
  unfold release; split; cbn; try done.
  - rewrite E3; unfold sat_dec; rewrite !length_app; cbn [length]; lia.
  - intros x; pose proof (from_nonneg ip (l1 ++ l2)); rewrite (E4 ip), (Hf ip), decide_True by done.
    destruct (Z.eqb_spec (from ip (l1 ++ l2) + 1) 0); [lia |].
    replace (sat_dec (from ip (l1 ++ l2) + 1)) with (from ip (l1 ++ l2)) by (unfold sat_dec; lia).
    destruct (decide (ip = x)) as [<-|Hne].
    + destruct (Z.eqb_spec (from ip (l1 ++ l2)) 0); [by rewrite lookup_delete_eq | by rewrite lookup_insert_eq].
    + destruct (Z.eqb_spec (from ip (l1 ++ l2)) 0); [rewrite lookup_delete_ne by done | rewrite lookup_insert_ne by done];
        by rewrite E4, Hf, decide_False, Z.add_0_r.
  - unfold within_limit in *; rewrite length_app in *; cbn [length] in *; lia.
  - intros x; specialize (E6 x); rewrite Hf in E6; unfold within_limit in *; case_decide; lia.
Qed.

Lemma step_counts max per_ip x y :
  limiter_step x y -> counts max per_ip x.1 (live x.2) -> counts max per_ip y.1 (live y.2).
Proof.
  intros Hs Hc; destruct Hs as [ip p s s' ps E|ip e s s' ps E|p p' s s' l1 l2 E]; cbn [fst snd] in *.
  - destruct (acquire_counts _ _ _ _ _ _ _ Hc E) as [-> ?]; done.
  - revert E; unfold try_acquire; repeat (destruct (_ && _); [by intros [= _ <-] |]); done.
  - unfold live in *; rewrite omap_app in *; revert E; unfold drop_permit; destruct (permit_released p) eqn:Hr.
    + by intros [= <- <-].
    + intros [= <- <-]; cbn in *; rewrite Hr in Hc; cbn in Hc; by apply release_counts.
Qed.

Lemma new_counts max per_ip : counts max per_ip (new max per_ip) [].
Proof. split; try done; unfold within_limit, from; [cbn; lia |]; intros ip; rewrite filter_nil; cbn; lia. Qed.

Lemma run_counts max per_ip x y :
  rtc limiter_step x y -> counts max per_ip x.1 (live x.2) -> counts max per_ip y.1 (live y.2).
Proof. induction 1; eauto using step_counts. Qed.
End limiter.
Arguments ConnectionLimiterState _ {_ _}.

(** ** Properties *)

(** C35: However connections come and go, the limiter's counters are exactly the
    permits that are held, in all and per address, without leftovers; neither limit
    is ever exceeded, and a connection is refused only when its limit is reached. *)
Theorem connection_limits {Ip : Type} `{Countable Ip} (max per_ip : Z) (st : ConnectionLimiterState Ip)
    (permits : list (ConnectionPermit (Ip := Ip))) (ip : Ip) :
  rtc limiter_step (new max per_ip, []) (st, permits) ->
  total_connections st = Z.of_nat (length (live permits)) /\
  connections_per_ip st !! ip = (if from ip (live permits) =? 0 then None else Some (from ip (live permits))) /\
  within_limit max (total_connections st) /\ within_limit per_ip (from ip (live permits)) /\
  ((exists p st', try_acquire ip st = (Ok p, st')) <->
   ~ (0 < max <= Z.of_nat (length (live permits))) /\ ~ (0 < per_ip <= from ip (live permits))).
Proof.
  intros Hr; pose proof (run_counts max per_ip _ _ Hr (new_counts max per_ip)) as Hc; cbn [fst snd] in Hc.
  pose proof (count_default ip _ _ _ _ Hc) as Hd; pose proof Hc as [E1 E2 E3 E4 E5 E6]; split_and!; [done | done | by rewrite E3 | done |].
  unfold try_acquire; rewrite Hd, E1, E2, E3; split.
  - intros (p & st' & E); destruct (_ && _) eqn:Hmax in E; [done |]; destruct ((0 <? per_ip) && _) eqn:Hip in E; [done |]; lia.
  - intros [Hm Hi]; destruct (_ && _) eqn:Hmax; [lia |]; destruct ((0 <? per_ip) && _) eqn:Hip; [lia |]; by eexists _, _.
Qed.

(** Two connections from one address, of which one has ended. *)
Lemma connection_limits_witness :
  let st := (drop_permit (mkPermit 1%nat false) (try_acquire 1%nat (try_acquire 1%nat (new 0 2)).2).2).2 in
  total_connections st = 1 /\ connections_per_ip st !! 1%nat = Some 1.
Proof.
  set (st1 := (try_acquire 1%nat (new 0 2)).2); set (st2 := (try_acquire 1%nat st1).2).
  destruct (connection_limits 0 2 (drop_permit (mkPermit 1%nat false) st2).2 [mkPermit 1%nat true; mkPermit 1%nat false] 1%nat)
    as (Ht & Hp & _).
  - apply (rtc_l _ _ (st1, [mkPermit 1%nat false])); [apply (step_acquire 1%nat); vm_compute; reflexivity |].
    apply (rtc_l _ _ (st2, [mkPermit 1%nat false; mkPermit 1%nat false])); [apply (step_acquire 1%nat); vm_compute; reflexivity |].
    apply (rtc_l _ _ ((drop_permit (mkPermit 1%nat false) st2).2, [mkPermit 1%nat true; mkPermit 1%nat false])); [|apply rtc_refl].
    apply (step_drop (mkPermit 1%nat false) (mkPermit 1%nat true) _ _ []); reflexivity.
  - split; [exact Ht | exact Hp].
Defined.
