(* ===== verification/Config.v ===== *)
(** * Configuration

    [src/config.rs]: the settings of the broker, their defaults, and how the
    configuration file and the command line determine them.  TOML is an input: a file
    parses to the settings it has, and what it lacks is filled with the defaults
    ([serde(default)]). *)

From S2P Require Import Prelude.

Record MetricsConfig := mkMetricsConfig {
  mc_enabled : bool;
  mc_addr : string;
  mc_cluster : string;
  mc_rate_window_secs : Z;
}.

Record Config := mkConfig {
  cf_addr : string;
  cf_db_path : string;
  cf_default_partitions : Z;
  cf_log_level : string;
  cf_keep_alive_interval_secs : Z;
  cf_handshake_timeout_secs : Z;
  cf_connection_liveness_check_timeout_secs : Z;
  cf_max_connections : Z;
  cf_max_connections_per_ip : Z;
  cf_max_concurrent_non_persistent_messages_per_connection : Z;
  cf_max_pending_publish_requests_per_connection : Z;
  cf_max_pending_publish_bytes_per_connection : Z;
  cf_max_message_size_bytes : Z;
  cf_publish_rate_messages_per_sec : Z;
  cf_publish_rate_bytes_per_sec : Z;
  cf_high_water_mark_bytes : Z;
  cf_low_water_mark_bytes : Z;
  cf_metrics : MetricsConfig;
}.

Definition default_metrics_config : MetricsConfig := mkMetricsConfig true "0.0.0.0:8080" "pulsar-lite" 60.

Definition default_config : Config :=
  mkConfig "0.0.0.0:6650" "./pulsar-lite.db" 0 "info" 30 30 10 0 0 1000 1000 (256 * 1024 * 1024) (5 * 1024 * 1024) 0 0
    (64 * 1024) (32 * 1024) default_metrics_config.

(** ** Configuration files *)

(** The settings of a file; a setting may be missing. *)
Record MetricsFile := mkMetricsFile {
  mf_enabled : option bool;
  mf_addr : option string;
  mf_cluster : option string;
  mf_rate_window_secs : option Z;
}.

Record ConfigFile := mkConfigFile {
  ff_addr : option string;
  ff_db_path : option string;
  ff_default_partitions : option Z;
  ff_log_level : option string;
  ff_keep_alive_interval_secs : option Z;
  ff_handshake_timeout_secs : option Z;
  ff_connection_liveness_check_timeout_secs : option Z;
  ff_max_connections : option Z;
  ff_max_connections_per_ip : option Z;
  ff_max_concurrent_non_persistent_messages_per_connection : option Z;
  ff_max_pending_publish_requests_per_connection : option Z;
  ff_max_pending_publish_bytes_per_connection : option Z;
  ff_max_message_size_bytes : option Z;
  ff_publish_rate_messages_per_sec : option Z;
  ff_publish_rate_bytes_per_sec : option Z;
  ff_high_water_mark_bytes : option Z;
  ff_low_water_mark_bytes : option Z;
  ff_metrics : option MetricsFile;
}.

Definition fill_metrics (f : MetricsFile) : MetricsConfig :=
  let d := default_metrics_config in
  mkMetricsConfig (default (mc_enabled d) (mf_enabled f)) (default (mc_addr d) (mf_addr f))
    (default (mc_cluster d) (mf_cluster f)) (default (mc_rate_window_secs d) (mf_rate_window_secs f)).

Definition fill_config (f : ConfigFile) : Config :=
  let d := default_config in
  mkConfig (default (cf_addr d) (ff_addr f)) (default (cf_db_path d) (ff_db_path f))
    (default 0 (ff_default_partitions f)) (default (cf_log_level d) (ff_log_level f))
    (default (cf_keep_alive_interval_secs d) (ff_keep_alive_interval_secs f))
    (default (cf_handshake_timeout_secs d) (ff_handshake_timeout_secs f))
    (default (cf_connection_liveness_check_timeout_secs d) (ff_connection_liveness_check_timeout_secs f))
    (default 0 (ff_max_connections f)) (default 0 (ff_max_connections_per_ip f))
    (default (cf_max_concurrent_non_persistent_messages_per_connection d)
       (ff_max_concurrent_non_persistent_messages_per_connection f))
    (default (cf_max_pending_publish_requests_per_connection d) (ff_max_pending_publish_requests_per_connection f))
    (default (cf_max_pending_publish_bytes_per_connection d) (ff_max_pending_publish_bytes_per_connection f))
    (default (cf_max_message_size_bytes d) (ff_max_message_size_bytes f))
    (default 0 (ff_publish_rate_messages_per_sec f)) (default 0 (ff_publish_rate_bytes_per_sec f))
    (default (cf_high_water_mark_bytes d) (ff_high_water_mark_bytes f))
    (default (cf_low_water_mark_bytes d) (ff_low_water_mark_bytes f))
    (default default_metrics_config (fill_metrics <$> ff_metrics f)).

(** A file with every setting. *)
Definition whole_metrics (c : MetricsConfig) : MetricsFile :=
  mkMetricsFile (Some (mc_enabled c)) (Some (mc_addr c)) (Some (mc_cluster c)) (Some (mc_rate_window_secs c)).

Definition whole_file (c : Config) : ConfigFile :=
  mkConfigFile (Some (cf_addr c)) (Some (cf_db_path c)) (Some (cf_default_partitions c)) (Some (cf_log_level c))
    (Some (cf_keep_alive_interval_secs c)) (Some (cf_handshake_timeout_secs c))
    (Some (cf_connection_liveness_check_timeout_secs c)) (Some (cf_max_connections c))
    (Some (cf_max_connections_per_ip c)) (Some (cf_max_concurrent_non_persistent_messages_per_connection c))
    (Some (cf_max_pending_publish_requests_per_connection c))
    (Some (cf_max_pending_publish_bytes_per_connection c)) (Some (cf_max_message_size_bytes c))
    (Some (cf_publish_rate_messages_per_sec c)) (Some (cf_publish_rate_bytes_per_sec c))
    (Some (cf_high_water_mark_bytes c)) (Some (cf_low_water_mark_bytes c)) (Some (whole_metrics (cf_metrics c))).

(** [toml]: a configuration is written with every setting; an empty text has none. *)
Class TomlCodec (text : Type) := {
  toml_from_str : text -> option ConfigFile;
  toml_to_string : Config -> option text;
  toml_roundtrip c s : toml_to_string c = Some s -> toml_from_str s = Some (whole_file c);
}.

Inductive config_error := ConfigUnreadable | ConfigMalformed | ConfigUnwritable | ConfigNotSerializable.

Section config_files.
Context {text : Type} `{!TomlCodec text}.

(** [file] is what reading gives, if anything. *)
Definition from_file (file : option text) : result config_error Config :=
  match file with
  | None => Err ConfigUnreadable
  | Some content =>
      match toml_from_str content with
      | None => Err ConfigMalformed
      | Some f => Ok (fill_config f)
      end
  end.

Definition from_file_or_default (file : option text) : Config :=
  match from_file file with
  | Ok c => c
  | Err _ => default_config
  end.

(** The file after saving. *)
Definition save_to_file (writable : bool) (file : option text) (c : Config) : result config_error unit * option text :=
  match toml_to_string c with
  | None => (Err ConfigNotSerializable, file)
  | Some s => if writable then (Ok tt, Some s) else (Err ConfigUnwritable, file)
  end.
End config_files.

Definition with_cli_overrides (addr db_path log_level : option string) (c : Config) : Config :=
  mkConfig (default (cf_addr c) addr) (default (cf_db_path c) db_path) (cf_default_partitions c)
    (default (cf_log_level c) log_level) (cf_keep_alive_interval_secs c) (cf_handshake_timeout_secs c)
    (cf_connection_liveness_check_timeout_secs c) (cf_max_connections c) (cf_max_connections_per_ip c)
    (cf_max_concurrent_non_persistent_messages_per_connection c) (cf_max_pending_publish_requests_per_connection c)
    (cf_max_pending_publish_bytes_per_connection c) (cf_max_message_size_bytes c) (cf_publish_rate_messages_per_sec c)
    (cf_publish_rate_bytes_per_sec c) (cf_high_water_mark_bytes c) (cf_low_water_mark_bytes c) (cf_metrics c).

(** ** What files determine *)

Lemma fill_whole c : fill_config (whole_file c) = c.
Proof. by destruct c as [? ? ? ? ? ? ? ? ? ? ? ? ? ? ? ? ? []]. Qed.

(** A saved configuration loads; one that cannot be loaded leaves the defaults. *)
Lemma save_load {text : Type} `{!TomlCodec text} writable (file : option text) c r file' :
  save_to_file writable file c = (r, file') ->
  match r with
  | Ok _ => from_file file' = Ok c
  | Err _ => file' = file
  end.
Proof.
  unfold save_to_file; destruct (toml_to_string c) as [s|] eqn:E; [destruct writable |]; intros [= <- <-]; [|done ..].
  unfold from_file; by rewrite (toml_roundtrip _ _ E), fill_whole.
Qed.
