(* ===== verification/Server.v ===== *)
(** * The server

    The accept loop of [main.rs] and [handle_connection] of [server_cnx.rs] around the
    running broker: connections are admitted by the limiter, numbered by a counter, and
    run with the settings of the configuration; a connection holds its permit until it
    has ended. *)

From S2P Require Import Prelude Text Config ConnectionLimiter.
From S2P Require Import LedgerInfo MetadataCodec EntryLog RocksLedger StickyKey Consumer Commands Codec.
From S2P Require Import StorageService Topic BrokerService Connection System.

Section server.
Context {bytes : Type} `{DbCodec bytes} `{MetadataDecoder} `{CommandCodec} (clock : Z -> Z) (clients : BaseCommand -> bool).
Context {Ip : Type} `{Countable Ip}.

Record Server := mkServer {
  sv_limiter : ConnectionLimiterState Ip;
  sv_counter : Z;
  sv_permits : gmap string (ConnectionPermit (Ip := Ip));
  sv_sys : Sys (bytes := bytes);
}.

Definition server_start (c : Config) (b : Broker bytes) : Server :=
  mkServer (new (cf_max_connections c) (cf_max_connections_per_ip c)) 0 ∅ (sys_start b).

Definition connection_name (n : Z) : string := "conn-" +:+ show n.

(** What a connection runs with; [url] is the advertised address. *)
Definition connection_config (c : Config) (url : string) (rocksdb appender : bool) (n : Z) : CnxConfig :=
  mkCnxConfig (connection_name n) (cf_keep_alive_interval_secs c) (cf_handshake_timeout_secs c)
    (cf_connection_liveness_check_timeout_secs c) (cf_max_concurrent_non_persistent_messages_per_connection c)
    (cf_max_pending_publish_requests_per_connection c) (cf_max_pending_publish_bytes_per_connection c)
    DEFAULT_MAX_PERSISTENT_IN_FLIGHT (cf_max_message_size_bytes c) url rocksdb appender.

(** A connection from [ip]: it is told and closed when there is no place. *)
Definition accept (c : Config) (url : string) (rocksdb appender : bool) (now : Z) (answers : list bool) (ip : Ip)
    (sv : Server) : Server :=
  match try_acquire ip (sv_limiter sv) with
  | (Err _, l) => mkServer l (sv_counter sv) (sv_permits sv) (sv_sys sv)
  | (Ok permit, l) =>
      let k := connection_config c url rocksdb appender (sv_counter sv) in
      let s := sv_sys sv in
      mkServer l (wrap_u64 (sv_counter sv + 1)) (<[connection_id k := permit]> (sv_permits sv))
        (mkSys (sys_broker s) (<[connection_id k := cnx_new now k answers]> (sys_cnxs s)) (sys_gone s))
  end.

(** The task of connection [id] is over: its permit is dropped. *)
Definition ended (id : string) (s : Sys) (sv : Server) : Server :=
  match sv_permits sv !! id with
  | Some permit =>
      mkServer (drop_permit permit (sv_limiter sv)).2 (sv_counter sv) (delete id (sv_permits sv)) s
  | None => mkServer (sv_limiter sv) (sv_counter sv) (sv_permits sv) s
  end.

Inductive server_step (c : Config) (url : string) (rocksdb appender : bool) : Server -> Server -> Prop :=
| server_accept now answers ip sv : server_step c url rocksdb appender sv (accept c url rocksdb appender now answers ip sv)
| server_run sv s :
    sys_step clock clients (sv_sys sv) s -> dom (sys_cnxs s) = dom (sys_cnxs (sv_sys sv)) ->
    server_step c url rocksdb appender sv (mkServer (sv_limiter sv) (sv_counter sv) (sv_permits sv) s)
| server_end id sv s :
    sys_step clock clients (sv_sys sv) s -> dom (sys_cnxs s) = dom (sys_cnxs (sv_sys sv)) ∖ {[id]} ->
    id ∈ dom (sys_cnxs (sv_sys sv)) ->
    server_step c url rocksdb appender sv (ended id s sv).

(** ** What the limiter counts *)

Definition addresses (sv : Server) : list Ip := (fun x => permit_ip x.2) <$> map_to_list (sv_permits sv).

Lemma counts_perm max per_ip (st : ConnectionLimiterState Ip) ips ips' :
  ips ≡ₚ ips' -> counts max per_ip st ips -> counts max per_ip st ips'.
Proof.
  intros Hp [E1 E2 E3 E4 E5 E6].
  assert (forall ip, from ip ips' = from ip ips) as Hf by (intros ip; unfold from; by rewrite Hp).
  split; [done | done | by rewrite <- Hp | | by rewrite <- Hp |]; intros ip; by rewrite Hf.
Qed.

(** *** The invariant *)

Record server_ok (c : Config) (b : Broker bytes) (sv : Server) : Prop := {
  so_reach : rtc (sys_step clock clients) (sys_start b) (sv_sys sv);
  so_holders : dom (sv_permits sv) = dom (sys_cnxs (sv_sys sv));
  so_held : forall id p, sv_permits sv !! id = Some p -> permit_released p = false;
  so_counts : counts (cf_max_connections c) (cf_max_connections_per_ip c) (sv_limiter sv) (addresses sv);
  so_numbers : forall id, id ∈ dom (sys_cnxs (sv_sys sv)) ∪ sys_gone (sv_sys sv) ->
    exists i, 0 <= i < sv_counter sv /\ id = connection_name i;
}.

(** The connections that have ended were there. *)
Lemma sys_step_gone s s' : sys_step clock clients s s' -> sys_gone s' ⊆ sys_gone s ∪ dom (sys_cnxs s).
Proof.
  assert (forall id c, sys_cnxs s !! id = Some c -> {[id]} ∪ sys_gone s ⊆ sys_gone s ∪ dom (sys_cnxs s)) as Hend.
  { intros id c Hc; apply elem_of_dom_2 in Hc; set_solver. }
  destruct 1; cbn [sys_gone]; try set_solver; [by eapply Hend .. |].
  unfold write_round; destruct (serve_queue _ _ _ _); cbn; set_solver.
Qed.

Lemma connection_name_inj i j : u64_ok i -> u64_ok j -> connection_name i = connection_name j -> i = j.
Proof. intros Hi Hj [= E]; by apply show_inj. Qed.

Lemma start_ok c b : server_ok c b (server_start c b).
Proof.
  split; cbn; [done | by rewrite !dom_empty_L | done | | set_solver].
  unfold addresses; cbn; rewrite map_to_list_empty; apply new_counts.
Qed.

Definition config_positive (c : Config) : Prop :=
  0 < cf_max_pending_publish_requests_per_connection c /\ 0 < cf_max_pending_publish_bytes_per_connection c /\
  0 <= cf_max_message_size_bytes c.

Lemma accept_ok c b url rocksdb appender now answers ip sv :
  config_positive c -> 0 <= sv_counter sv < U64_MAX -> server_ok c b sv ->
  server_ok c b (accept c url rocksdb appender now answers ip sv).
Proof.
  intros Hc Hn [Hr Hd Hh Hco Hid]; unfold accept; destruct (try_acquire ip (sv_limiter sv)) as [[p|e] l] eqn:E.
  2:{ assert (l = sv_limiter sv) as -> by (revert E; unfold try_acquire; repeat (destruct (_ && _); [by intros [= _ <-] |]); done).
      by split. }
  destruct (acquire_counts _ _ _ _ _ _ _ Hco E) as [-> Hco'].
  set (k := connection_config c url rocksdb appender (sv_counter sv)).
  assert (connection_id k ∉ dom (sys_cnxs (sv_sys sv)) ∪ sys_gone (sv_sys sv)) as Hnew.
  { intros (i & Hi & Ei)%Hid; apply connection_name_inj in Ei; unfold u64_ok in *; lia. }
  apply not_elem_of_union in Hnew as [Hnew Hgone].
  split; cbn [sv_sys sv_permits sv_limiter sv_counter sys_cnxs sys_gone sys_broker].
  - eapply rtc_r; [exact Hr |]; apply step_accept; [exact Hc | by apply not_elem_of_dom | done].
  - by rewrite !dom_insert_L, Hd.
  - intros id p [[_ <-]|[_ Hp]]%lookup_insert_Some; [done | by eapply Hh].
  - eapply counts_perm; [|exact Hco']; unfold addresses; cbn [sv_permits].
    rewrite map_to_list_insert by (apply not_elem_of_dom; by rewrite Hd); done.
  - rewrite wrap_u64_id by (unfold u64_ok; lia); intros id; rewrite dom_insert_L; intros Hin.
    destruct (decide (id = connection_id k)) as [->|Hne]; [exists (sv_counter sv); split; [lia | done] |].
    destruct (Hid id) as (i & Hi & ->); [set_solver |]; exists i; split; [lia | done].
Qed.

Lemma ended_ok c b id s sv :
  sys_step clock clients (sv_sys sv) s -> dom (sys_cnxs s) = dom (sys_cnxs (sv_sys sv)) ∖ {[id]} ->
  id ∈ dom (sys_cnxs (sv_sys sv)) -> server_ok c b sv -> server_ok c b (ended id s sv).
Proof.
  intros Hs Hdom Hin [Hr Hd Hh Hco Hid]; unfold ended.
  rewrite <- Hd in Hin; apply elem_of_dom in Hin as [p Hp]; rewrite Hp.
  split; cbn [sv_sys sv_permits sv_limiter sv_counter].
  - by eapply rtc_r.
  - by rewrite dom_delete_L, Hd, Hdom.
  - intros id' p' [_ Hp']%lookup_delete_Some; by eapply Hh.
  - unfold drop_permit; rewrite (Hh _ _ Hp); cbn [snd]; apply (release_counts _ _ _ _ []); cbn [app].
    eapply counts_perm; [|exact Hco]; unfold addresses; cbn [sv_permits].
    by rewrite <- (map_to_list_delete _ _ _ Hp).
  - intros id' Hin'; apply Hid; apply sys_step_gone in Hs; rewrite Hdom in Hin'; set_solver.
Qed.

Lemma run_ok c b s sv :
  sys_step clock clients (sv_sys sv) s -> dom (sys_cnxs s) = dom (sys_cnxs (sv_sys sv)) -> server_ok c b sv ->
  server_ok c b (mkServer (sv_limiter sv) (sv_counter sv) (sv_permits sv) s).
Proof.
  intros Hs Hdom [Hr Hd Hh Hco Hid]; split; cbn [sv_sys sv_permits sv_limiter sv_counter].
  - by eapply rtc_r.
  - by rewrite Hdom.
  - done.
  - done.
  - intros id' Hin'; apply Hid; apply sys_step_gone in Hs; rewrite Hdom in Hin'; set_solver.
Qed.

Lemma server_steps_ok c url rocksdb appender b n sv :
  config_positive c -> nsteps (server_step c url rocksdb appender) n (server_start c b) sv -> Z.of_nat n <= U64_MAX ->
  server_ok c b sv /\ 0 <= sv_counter sv <= Z.of_nat n.
Proof.
  intros Hc; revert sv; induction n as [|n IH]; intros sv Hsteps Hn.
  - inversion Hsteps; subst; split; [apply start_ok | cbn; lia].
  - apply nsteps_inv_r in Hsteps as (sv1 & Hfirst & Hlast); destruct (IH sv1 Hfirst) as [Hok Hcnt]; [lia |].
    destruct Hlast as [now answers ip sv1|sv1 s Hs Hdom|id sv1 s Hs Hdom Hin].
    + split; [apply accept_ok; [done | lia | done] |]; unfold accept.
      destruct (try_acquire _ _) as [[] ?]; cbn; [rewrite wrap_u64_id by (unfold u64_ok; lia) |]; lia.
    + split; [by apply run_ok | cbn; lia].
    + split; [by apply ended_ok |]; unfold ended; destruct (sv_permits sv1 !! id); cbn; lia.
Qed.

(** C8: The server runs the broker of [System] within its limits.  With positive limits
    for the publications in flight, and for as long as the counter of connections does
    not wrap around, whatever clients connect and do: every state of the server is a
    state the broker can reach, so no two connections ever share an id; the permits
    are those of the connections that are there, the limiter counts them, and the
    limits on connections, in all and from one address, hold. *)
Theorem server_refines_system c url rocksdb appender b n sv :
  config_positive c -> nsteps (server_step c url rocksdb appender) n (server_start c b) sv -> Z.of_nat n <= U64_MAX ->
  rtc (sys_step clock clients) (sys_start b) (sv_sys sv) /\
  dom (sv_permits sv) = dom (sys_cnxs (sv_sys sv)) /\
  total_connections (sv_limiter sv) = Z.of_nat (size (sys_cnxs (sv_sys sv))) /\
  within_limit (cf_max_connections c) (Z.of_nat (size (sys_cnxs (sv_sys sv)))) /\
  forall ip, within_limit (cf_max_connections_per_ip c) (from ip (addresses sv)).
Proof.
  intros Hc Hsteps Hn; destruct (server_steps_ok _ _ _ _ _ _ _ Hc Hsteps Hn) as [[Hr Hd _ [_ _ Ht _ Hl Hip] _] _].
  assert (length (addresses sv) = size (sys_cnxs (sv_sys sv))) as Hs.
  { unfold addresses; rewrite length_fmap, length_map_to_list, <- !size_dom; by rewrite Hd. }
  rewrite Hs in *; by split_and!.
Qed.
End server.

(** ** Example: a server with one place, which two clients ask for *)

Definition one_place : Config :=
  mkConfig "0.0.0.0:6650" "./pulsar-lite.db" 0 "info" 30 30 10 1 0 1000 1000 1000000 1000 0 0 65536 32768
    default_metrics_config.

#[local] Existing Instance byte_metadata.

Definition no_commands : CommandCodec := script_codec [].


Definition asked_twice : Server (bytes := plain) (Ip := nat) :=
  let ask ip := accept one_place "pulsar://localhost:6650" true true 0 [] ip in
  ask 2%nat (ask 1%nat (server_start one_place (broker_with_config (MemoryBackend MemoryStore.mem_new) 0))).

Lemma server_refines_system_witness :
  total_connections (sv_limiter asked_twice) = Z.of_nat (size (sys_cnxs (sv_sys asked_twice))) /\
  Z.of_nat (size (sys_cnxs (sv_sys asked_twice))) = 1.
Proof.
  destruct (server_refines_system (H1 := no_commands) (fun _ => 0) (fun _ => true) one_place "pulsar://localhost:6650" true true
    (broker_with_config (MemoryBackend MemoryStore.mem_new) 0) 2 asked_twice) as (_ & _ & Ht & _).
  - split_and!; vm_compute; try reflexivity; discriminate.
  - eapply nsteps_l; [apply (server_accept _ _ _ _ _ _ 0 [] 1%nat) |].
    eapply nsteps_l; [apply (server_accept _ _ _ _ _ _ 0 [] 2%nat) |]; apply nsteps_O.
  - vm_compute; discriminate.
  - split; [exact Ht | vm_compute; reflexivity].
Defined.
