(* ===== verification/MetadataStore.v ===== *)
(** * The metadata store

    [storage/metadata/src/*.rs] and [storage/resources/src/*.rs]: what the broker
    remembers of its tenants, namespaces, topics and subscriptions, the document in
    which it is saved, and the operations that extend it.

    A Rust [HashMap] is a [gmap]; the order in which its values are visited is
    arbitrary and may differ from one call to the next, so the code that iterates
    takes an [Iteration].  A [BTreeMap] is visited in the order of its keys.  JSON
    ([serde_json]) and what the file system answers are inputs. *)

From Stdlib Require Import Ascii.
From S2P Require Import Prelude Text Keys StableSort.

Local Open Scope result_scope.

(** ** Model *)

Record TenantMetadata := mkTenantMetadata { tm_name : string }.

Record NamespaceMetadata := mkNamespaceMetadata {
  nm_tenant : string;
  nm_name : string;
}.

Record TopicMetadata := mkTopicMetadata {
  full_name : string;
  tm_domain : string;
  tm_tenant : string;
  tm_namespace : string;
  tm_local_name : string;
  partitioned : bool;
  partition_count : Z;
}.

Record SubscriptionMetadata := mkSubscriptionMetadata {
  sm_topic : string;
  sm_name : string;
}.

Record MetadataState := mkMetadataState {
  metadata_path : string;
  tenants : gmap string TenantMetadata;
  namespaces : gmap string NamespaceMetadata;
  topics_meta : gmap string TopicMetadata;
  subscriptions : gmap string SubscriptionMetadata;
}.

Definition metadata_state_new (path : string) : MetadataState := mkMetadataState path ∅ ∅ ∅ ∅.

(** A node of the document is the map it consists of; a subscription has no
    contents. *)
Abbreviation TopicNode := (gmap string unit).
Abbreviation DomainNode := (gmap string TopicNode).
Abbreviation NamespaceNode := (gmap string DomainNode).
Abbreviation TenantNode := (gmap string NamespaceNode).
Abbreviation MetadataFileNode := (gmap string TenantNode).

Record MetadataDocument := mkMetadataDocument {
  version : Z;
  resource_files : gmap string MetadataFileNode;
  doc_partitioned_topics : gmap string Z;
}.

Definition namespace_key (tenant namespace : string) : string := tenant +:+ "/" +:+ namespace.

Definition subscription_key (topic subscription : string) : string := topic +:+ ":" +:+ subscription.

(** ** Iteration *)

Record Iteration := {
  values :> forall A : Type, gmap string A -> list A;
  values_perm (A : Type) (m : gmap string A) : values A m ≡ₚ (map_to_list m).*2;
}.

Definition key_le {A : Type} (x y : string * A) : Prop := String.leb x.1 y.1 = true.

#[global] Instance key_le_dec {A : Type} : RelDecision (@key_le A).
Proof. intros x y; unfold key_le; apply _. Defined.

(** A [BTreeMap] in the order of its keys. *)
Definition btree_iter {A : Type} (m : gmap string A) : list (string * A) := stable_sort key_le (map_to_list m).

(** [for x in l { … }] with [?] in the body. *)
Fixpoint for_each {E A B : Type} (f : A -> B -> result E B) (l : list A) (b : B) : result E B :=
  match l with
  | [] => Ok b
  | x :: l => let? b := f x b in for_each f l b
  end.

(** [m.entry(k).or_default()], changed by [f]. *)
Definition entry {A : Type} `{Empty A} (k : string) (f : A -> A) (m : gmap string A) : gmap string A :=
  partial_alter (fun o => Some (f (default ∅ o))) k m.

(** ** Errors *)

Inductive metadata_error :=
| BadName (e : name_error)
| ReadFailed | ParseFailed | OldFormat
| MkdirFailed | SerializeFailed | WriteFailed | RenameFailed.

Definition checked_name (topic : string) : result metadata_error ParsedTopicName :=
  match parse_topic_name topic with
  | Ok p => Ok p
  | Err e => Err (BadName e)
  end.

(** ** Reading a document *)

Definition put_tenant (t : string) (st : MetadataState) : MetadataState :=
  mkMetadataState (metadata_path st) (<[t := mkTenantMetadata t]> (tenants st)) (namespaces st) (topics_meta st)
    (subscriptions st).
Definition put_namespace (t n : string) (st : MetadataState) : MetadataState :=
  mkMetadataState (metadata_path st) (tenants st)
    (<[namespace_key t n := mkNamespaceMetadata t n]> (namespaces st)) (topics_meta st) (subscriptions st).
Definition put_topic (k : string) (t : TopicMetadata) (st : MetadataState) : MetadataState :=
  mkMetadataState (metadata_path st) (tenants st) (namespaces st) (<[k := t]> (topics_meta st)) (subscriptions st).
Definition put_subscription (topic s : string) (st : MetadataState) : MetadataState :=
  mkMetadataState (metadata_path st) (tenants st) (namespaces st) (topics_meta st)
    (<[subscription_key topic s := mkSubscriptionMetadata topic s]> (subscriptions st)).

Definition topic_metadata (name : string) (p : ParsedTopicName) (part : bool) (count : Z) : TopicMetadata :=
  mkTopicMetadata name (tn_domain p) (tn_tenant p) (tn_namespace p) (tn_local_name p) part count.

(** The maps are built beside the state and replace it at the end. *)
Definition apply_metadata_document (doc : MetadataDocument) (st : MetadataState) : result metadata_error MetadataState :=
  let? maps :=
    for_each (fun file =>
      for_each (fun '(tenant_name, tenant_node) maps =>
        for_each (fun '(namespace_name, namespace_node) maps =>
          for_each (fun '(domain_name, domain_node) =>
            for_each (fun '(topic_name, topic_node) maps =>
              let name := topic_string domain_name tenant_name namespace_name topic_name in
              let? parsed := checked_name name in
              for_each (fun s maps => Ok (put_subscription name s.1 maps)) (btree_iter topic_node)
                (put_topic name (topic_metadata name parsed false 0) maps))
              (btree_iter domain_node))
            (btree_iter namespace_node) (put_namespace tenant_name namespace_name maps))
          (btree_iter tenant_node) (put_tenant tenant_name maps))
        (btree_iter file.2))
      (btree_iter (resource_files doc)) (metadata_state_new (metadata_path st)) in
  for_each (fun '(topic_name, partitions) maps =>
    let? parsed := checked_name topic_name in
    Ok (put_topic topic_name (topic_metadata topic_name parsed true (Z.max partitions 1)) maps))
    (btree_iter (doc_partitioned_topics doc)) maps.

(** ** Changing the state: [true] when something was added or changed *)

Definition insert_tenant_metadata (tenant : string) (st : MetadataState) : bool * MetadataState :=
  match tenants st !! tenant with
  | Some _ => (false, st)
  | None => (true, put_tenant tenant st)
  end.

Definition insert_namespace_metadata (tenant namespace : string) (st : MetadataState) : bool * MetadataState :=
  match namespaces st !! namespace_key tenant namespace with
  | Some _ => (false, st)
  | None => (true, put_namespace tenant namespace st)
  end.

Definition with_partitions (part : bool) (count : Z) (t : TopicMetadata) : TopicMetadata :=
  mkTopicMetadata (full_name t) (tm_domain t) (tm_tenant t) (tm_namespace t) (tm_local_name t) part count.

Definition upsert_topic_metadata (t : TopicMetadata) (st : MetadataState) : bool * MetadataState :=
  let '(changed, e) :=
    match topics_meta st !! full_name t with
    | Some e => (false, e)
    | None => (true, t)
    end in
  let '(changed, e) :=
    if partitioned t then
      let desired := Z.max (partition_count t) 1 in
      if negb (partitioned e) || negb (partition_count e =? desired)
      then (true, with_partitions true desired e)
      else (changed, e)
    else if negb (partitioned e) && negb (partition_count e =? 0)
    then (true, with_partitions (partitioned e) 0 e)
    else (changed, e) in
  (changed, put_topic (full_name t) e st).

Definition insert_subscription_metadata (topic subscription : string) (st : MetadataState) : bool * MetadataState :=
  match subscriptions st !! subscription_key topic subscription with
  | Some _ => (false, st)
  | None => (true, put_subscription topic subscription st)
  end.

(** ** Queries *)

Definition has_tenant_metadata (tenant : string) (st : MetadataState) : bool :=
  bool_decide (is_Some (tenants st !! tenant)).
Definition has_namespace_metadata (tenant namespace : string) (st : MetadataState) : bool :=
  bool_decide (is_Some (namespaces st !! namespace_key tenant namespace)).
Definition has_subscription_metadata (topic subscription : string) (st : MetadataState) : bool :=
  bool_decide (is_Some (subscriptions st !! subscription_key topic subscription)).
Definition get_topic_metadata (topic : string) (st : MetadataState) : option TopicMetadata := topics_meta st !! topic.

Definition get_partitioned_topic_metadata (st : MetadataState) : gmap string Z :=
  omap (fun t => if partitioned t then Some (partition_count t) else None) (topics_meta st).

(** ** Building the document *)

(** A place in the tree of tenants, namespaces, topics and subscriptions. *)
Inductive place :=
| PTenant (t : string)
| PNamespace (t n : string)
| PTopic (t n d l : string)
| PSubscription (t n d l s : string).

(** The chain of [.entry(…).or_default()] that leads to a place. *)
Definition touch (p : place) (f : MetadataFileNode) : MetadataFileNode :=
  match p with
  | PTenant t => entry t id f
  | PNamespace t n => entry t (entry n id) f
  | PTopic t n d l => entry t (entry n (entry d (entry l id))) f
  | PSubscription t n d l s => entry t (entry n (entry d (entry l (<[s := tt]>)))) f
  end.

Definition build_document_from_state (iter : Iteration) (st : MetadataState) (version : Z) : MetadataDocument :=
  let file := foldl (fun file t => touch (PTenant (tm_name t)) file) ∅ (iter _ (tenants st)) in
  let file := foldl (fun file n => touch (PNamespace (nm_tenant n) (nm_name n)) file) file (iter _ (namespaces st)) in
  let file :=
    foldl (fun file t =>
      if partitioned t then file
      else match parse_topic_name (full_name t) with
           | Ok p => touch (PTopic (tn_tenant p) (tn_namespace p) (tn_domain p) (tn_local_name p)) file
           | Err _ => file
           end) file (iter _ (topics_meta st)) in
  let file :=
    foldl (fun file s =>
      match parse_topic_name (sm_topic s) with
      | Ok p => touch (PSubscription (tn_tenant p) (tn_namespace p) (tn_domain p) (tn_local_name p) (sm_name s)) file
      | Err _ => file
      end) file (iter _ (subscriptions st)) in
  let parts :=
    foldl (fun parts t =>
      if partitioned t then
        let name := logical_topic_name (full_name t) in
        match parts !! name with
        | Some _ => parts
        | None => <[name := Z.max (partition_count t) 1]> parts
        end
      else parts) ∅ (iter _ (topics_meta st)) in
  mkMetadataDocument version {[ metadata_path st := file ]} parts.

(** ** Stores *)

(** What the file system does when the document is saved; a failed write may leave
    any text in the temporary file. *)
Inductive save_outcome (text : Type) :=
| Saved
| NoDirectory
| NoWrite (partial : option text)
| NoRename.
Arguments Saved {_}.
Arguments NoDirectory {_}.
Arguments NoWrite {_} _.
Arguments NoRename {_}.

(** One call of an operation: how it visits the maps and what saving does. *)
Record Io (text : Type) := mkIo {
  io_iteration : Iteration;
  io_save : save_outcome text;
}.
Arguments mkIo {_} _ _.
Arguments io_iteration {_} _.
Arguments io_save {_} _.

(** [trait MetadataStore] *)
Class MetadataStore (text S : Type) := {
  state : S -> MetadataState;
  set_state : MetadataState -> S -> S;
  persist_document : Io text -> Z -> S -> result metadata_error unit * S;
}.

(** [serde_json], with the JSON text and its parsed form left abstract.  A document
    whose files are not called like its other members is written as an object with
    these members and the files, and reads back as it was. *)
Class JsonCodec (text value : Type) := {
  to_string_pretty : MetadataDocument -> option text;
  from_str : text -> option value;
  has_member : string -> value -> bool;
  from_value : value -> option MetadataDocument;
  json_roundtrip (doc : MetadataDocument) :
    resource_files doc !! "version" = None -> resource_files doc !! "partitioned_topics" = None ->
    exists s v, to_string_pretty doc = Some s /\ from_str s = Some v /\ from_value v = Some doc /\
      forall k, has_member k v = true <->
        k = "version" \/ k = "partitioned_topics" \/ is_Some (resource_files doc !! k);
}.

Record InMemoryMetadataStore := mkInMemory { im_state : MetadataState }.

Definition in_memory_new : InMemoryMetadataStore := mkInMemory (metadata_state_new "").

#[global] Instance in_memory_store (text : Type) : MetadataStore text InMemoryMetadataStore := {|
  state := im_state;
  set_state st _ := mkInMemory st;
  persist_document _ _ m := (Ok tt, m);
|}.

(** The state with the metadata file and the temporary file beside it. *)
Record FileMetadataStore (text : Type) := mkFileStore {
  fm_state : MetadataState;
  fm_file : option text;
  fm_temporary : option text;
}.
Arguments mkFileStore {_} _ _ _.
Arguments fm_state {_} _.
Arguments fm_file {_} _.
Arguments fm_temporary {_} _.

Section file_store.
Context {text value : Type} `{!JsonCodec text value}.

Definition load_document (readable : bool) (m : FileMetadataStore text) : result metadata_error (option MetadataDocument) :=
  match fm_file m with
  | None => Ok None
  | Some content =>
      if negb readable then Err ReadFailed else
      let? raw := ok_or (from_str content) ParseFailed in
      if has_member "tenants" raw || has_member "namespaces" raw || has_member "topics" raw
         || has_member "subscriptions" raw
      then Err OldFormat
      else let? doc := ok_or (from_value raw) ParseFailed in Ok (Some doc)
  end.

Definition save_document (outcome : save_outcome text) (doc : MetadataDocument) (m : FileMetadataStore text)
    : result metadata_error unit * FileMetadataStore text :=
  match outcome with
  | NoDirectory => (Err MkdirFailed, m)
  | _ =>
      match to_string_pretty doc with
      | None => (Err SerializeFailed, m)
      | Some serialized =>
          match outcome with
          | NoWrite partial => (Err WriteFailed, mkFileStore (fm_state m) (fm_file m) partial)
          | NoRename => (Err RenameFailed, mkFileStore (fm_state m) (fm_file m) (Some serialized))
          | _ => (Ok tt, mkFileStore (fm_state m) (Some serialized) None)
          end
      end
  end.

Definition load (readable : bool) (m : FileMetadataStore text) : result metadata_error (FileMetadataStore text) :=
  let? doc := load_document readable m in
  match doc with
  | Some doc =>
      let? st := apply_metadata_document doc (fm_state m) in Ok (mkFileStore st (fm_file m) (fm_temporary m))
  | None => Ok m
  end.

(** The store is opened on the files that are there. *)
Definition file_store_new (readable : bool) (path : string) (file temporary : option text)
    : result metadata_error (FileMetadataStore text) :=
  load readable (mkFileStore (metadata_state_new path) file temporary).

Definition file_persist_document (io : Io text) (version : Z) (m : FileMetadataStore text)
    : result metadata_error unit * FileMetadataStore text :=
  save_document (io_save io) (build_document_from_state (io_iteration io) (fm_state m) version) m.

#[global] Instance file_store : MetadataStore text (FileMetadataStore text) := {|
  state := fm_state;
  set_state st m := mkFileStore st (fm_file m) (fm_temporary m);
  persist_document := file_persist_document;
|}.
End file_store.

(** ** Resources *)

Section resources.
Context {text S : Type} `{!MetadataStore text S}.

Definition ensure_tenant (io : Io text) (tenant : string) (version : Z) (m : S) : result metadata_error unit * S :=
  let '(changed, st) := insert_tenant_metadata tenant (state m) in
  let m := set_state st m in
  if changed then persist_document io version m else (Ok tt, m).

Definition ensure_namespace (io : Io text) (tenant namespace : string) (version : Z) (m : S)
    : result metadata_error unit * S :=
  let '(changed, st) := insert_tenant_metadata tenant (state m) in
  let '(changed', st) := insert_namespace_metadata tenant namespace st in
  let m := set_state st m in
  if changed || changed' then persist_document io version m else (Ok tt, m).

Definition ensure_topic (io : Io text) (topic : string) (part : bool) (count version : Z) (m : S)
    : result metadata_error unit * S :=
  match checked_name topic with
  | Err e => (Err e, m)
  | Ok parsed =>
      let '(changed, st) := insert_tenant_metadata (tn_tenant parsed) (state m) in
      let '(changed', st) := insert_namespace_metadata (tn_tenant parsed) (tn_namespace parsed) st in
      let '(changed'', st) :=
        upsert_topic_metadata (topic_metadata topic parsed part (if part then Z.max count 1 else 0)) st in
      let m := set_state st m in
      if changed || changed' || changed'' then persist_document io version m else (Ok tt, m)
  end.

Definition ensure_subscription (io : Io text) (topic subscription : string) (version : Z) (m : S)
    : result metadata_error unit * S :=
  match checked_name topic with
  | Err e => (Err e, m)
  | Ok parsed =>
      let '(changed, st) := insert_tenant_metadata (tn_tenant parsed) (state m) in
      let '(changed', st) := insert_namespace_metadata (tn_tenant parsed) (tn_namespace parsed) st in
      let '(changed'', st) := upsert_topic_metadata (topic_metadata topic parsed false 0) st in
      let '(changed''', st) := insert_subscription_metadata topic subscription st in
      let m := set_state st m in
      if changed || changed' || changed'' || changed''' then persist_document io version m else (Ok tt, m)
  end.

End resources.

Definition METADATA_VERSION : Z := 2.

(** The operations of [PulsarResources] that change the metadata. *)
Inductive resource_op :=
| EnsureTenant (tenant : string)
| EnsureNamespace (tenant namespace : string)
| EnsureTopic (topic : string) (part : bool) (count : Z)
| EnsureSubscription (topic subscription : string).

Definition ensure {text S : Type} `{!MetadataStore text S} (io : Io text) (op : resource_op) (m : S)
    : result metadata_error unit * S :=
  match op with
  | EnsureTenant t => ensure_tenant io t METADATA_VERSION m
  | EnsureNamespace t n => ensure_namespace io t n METADATA_VERSION m
  | EnsureTopic topic part count => ensure_topic io topic part count METADATA_VERSION m
  | EnsureSubscription topic s => ensure_subscription io topic s METADATA_VERSION m
  end.

(** ** Iteration: what the loops visit *)

Lemma btree_iter_elem {A : Type} (m : gmap string A) k v : (k, v) ∈ btree_iter m <-> m !! k = Some v.
Proof. unfold btree_iter; by rewrite stable_sort_perm, elem_of_map_to_list. Qed.

Lemma values_elem (iter : Iteration) {A : Type} (m : gmap string A) v :
  v ∈ iter A m <-> exists k, m !! k = Some v.
Proof.
  rewrite values_perm, list_elem_of_fmap; split.
  - intros ([k x] & -> & Hx); exists k; by apply elem_of_map_to_list.
  - intros [k Hk]; exists (k, v); split; [done |]; by apply elem_of_map_to_list.
Qed.

Section loops.
Context {E A B C : Type}.

Lemma for_each_app (f : A -> B -> result E B) l1 l2 b :
  for_each f (l1 ++ l2) b = let? b := for_each f l1 b in for_each f l2 b.
Proof. revert b; induction l1 as [|x l1 IH]; intros b; cbn; [done |]; by destruct (f x b); cbn. Qed.

Lemma for_each_ext (f g : A -> B -> result E B) l b : (forall x b, f x b = g x b) -> for_each f l b = for_each g l b.
Proof. intros H; revert b; induction l as [|x l IH]; intros b; cbn; [done |]; rewrite H; by destruct (g x b); cbn. Qed.

Lemma for_each_bind (f : A -> B -> result E B) (g : C -> list A) l b :
  for_each f (l ≫= g) b = for_each (fun x => for_each f (g x)) l b.
Proof.
  revert b; induction l as [|x l IH]; intros b; [done |].
  rewrite bind_cons, for_each_app; cbn; by destruct (for_each f (g x) b); cbn.
Qed.

Lemma for_each_fmap (f : A -> B -> result E B) (g : C -> A) l b :
  for_each f (g <$> l) b = for_each (fun x => f (g x)) l b.
Proof. revert b; induction l as [|x l IH]; intros b; cbn; [done |]; by destruct (f (g x) b); cbn. Qed.
End loops.

(** ** The tree of a document *)

Definition at_key {A : Type} `{Empty A} (m : gmap string A) (k : string) : A := default ∅ (m !! k).

Lemma at_entry {A : Type} `{Empty A} k k' f (m : gmap string A) :
  at_key (entry k f m) k' = if decide (k = k') then f (at_key m k) else at_key m k'.
Proof.
  unfold at_key, entry; destruct (decide (k = k')) as [<-|Hne].
  - by rewrite lookup_partial_alter_eq.
  - by rewrite lookup_partial_alter_ne.
Qed.

Lemma lookup_entry {A : Type} `{Empty A} k k' f (m : gmap string A) :
  is_Some (entry k f m !! k') <-> k = k' \/ is_Some (m !! k').
Proof.
  unfold entry; destruct (decide (k = k')) as [<-|Hne].
  - rewrite lookup_partial_alter_eq; naive_solver.
  - rewrite lookup_partial_alter_ne by done; naive_solver.
Qed.

Definition in_tree (p : place) (f : MetadataFileNode) : Prop :=
  match p with
  | PTenant t => is_Some (f !! t)
  | PNamespace t n => is_Some (at_key f t !! n)
  | PTopic t n d l => is_Some (at_key (at_key (at_key f t) n) d !! l)
  | PSubscription t n d l s => is_Some (at_key (at_key (at_key (at_key f t) n) d) l !! s)
  end.

(** A place and the places above it. *)
Definition places_to (p : place) : list place :=
  match p with
  | PTenant t => [p]
  | PNamespace t n => [PTenant t; p]
  | PTopic t n d l => [PTenant t; PNamespace t n; p]
  | PSubscription t n d l s => [PTenant t; PNamespace t n; PTopic t n d l; p]
  end.

Lemma touch_spec p q f : in_tree q (touch p f) <-> in_tree q f \/ q ∈ places_to p.
Proof.
  destruct p, q; cbn -[entry at_key];
    rewrite ?at_entry, ?lookup_entry; repeat case_decide; subst;
    rewrite ?at_entry, ?lookup_entry; repeat case_decide; subst;
    rewrite ?at_entry, ?lookup_entry; repeat case_decide; subst;
    rewrite ?at_entry, ?lookup_entry; repeat case_decide; subst;
    rewrite ?lookup_insert_is_Some'; unfold id; rewrite ?list_elem_of_In; cbn; intuition (congruence || eauto).
Qed.

(** The places of a tree in the order in which [apply_metadata_document] visits them. *)
Definition tree_places (f : MetadataFileNode) : list place :=
  btree_iter f ≫= fun '(t, tenant_node) => PTenant t ::
    (btree_iter tenant_node ≫= fun '(n, namespace_node) => PNamespace t n ::
      (btree_iter namespace_node ≫= fun '(d, domain_node) =>
        btree_iter domain_node ≫= fun '(l, topic_node) => PTopic t n d l ::
          ((fun s => PSubscription t n d l s.1) <$> btree_iter topic_node))).

Lemma at_key_Some {A : Type} (m : gmap string (gmap string A)) k k' v :
  at_key m k !! k' = Some v <-> exists x, m !! k = Some x /\ x !! k' = Some v.
Proof.
  unfold at_key; destruct (m !! k) as [x|]; cbn; [naive_solver |].
  rewrite lookup_empty; naive_solver.
Qed.

Lemma elem_of_iter_bind {A B : Type} (m : gmap string A) (g : string * A -> list B) p :
  p ∈ btree_iter m ≫= g <-> exists k v, m !! k = Some v /\ p ∈ g (k, v).
Proof.
  rewrite list_elem_of_bind; split.
  - intros ([k v] & Hp & Hk%btree_iter_elem); by exists k, v.
  - intros (k & v & Hk%btree_iter_elem & Hp); by exists (k, v).
Qed.

Lemma elem_of_iter_fmap {A B : Type} (m : gmap string A) (g : string -> B) p :
  p ∈ (fun x => g x.1) <$> btree_iter m <-> exists k v, m !! k = Some v /\ p = g k.
Proof.
  rewrite list_elem_of_fmap; split.
  - intros ([k v] & -> & Hk%btree_iter_elem); by exists k, v.
  - intros (k & v & Hk%btree_iter_elem & ->); by exists (k, v).
Qed.

Lemma tree_places_spec p f : p ∈ tree_places f <-> in_tree p f.
Proof.
  unfold tree_places, in_tree, is_Some; rewrite elem_of_iter_bind; setoid_rewrite elem_of_cons.
  setoid_rewrite elem_of_iter_bind; setoid_rewrite elem_of_cons.
  do 2 setoid_rewrite elem_of_iter_bind; setoid_rewrite elem_of_cons.
  setoid_rewrite (elem_of_iter_fmap _ (PSubscription _ _ _ _)).
  destruct p; repeat setoid_rewrite at_key_Some; naive_solver.
Qed.

(** *** The places of a saved state *)

Definition tenant_place (t : TenantMetadata) : option place := Some (PTenant (tm_name t)).
Definition namespace_place (n : NamespaceMetadata) : option place := Some (PNamespace (nm_tenant n) (nm_name n)).
Definition topic_place (t : TopicMetadata) : option place :=
  if partitioned t then None else
  match parse_topic_name (full_name t) with
  | Ok p => Some (PTopic (tn_tenant p) (tn_namespace p) (tn_domain p) (tn_local_name p))
  | Err _ => None
  end.
Definition subscription_place (s : SubscriptionMetadata) : option place :=
  match parse_topic_name (sm_topic s) with
  | Ok p => Some (PSubscription (tn_tenant p) (tn_namespace p) (tn_domain p) (tn_local_name p) (sm_name s))
  | Err _ => None
  end.

Lemma touch_all_spec {A : Type} (g : A -> option place) (step : MetadataFileNode -> A -> MetadataFileNode) q l f :
  (forall f x, step f x = from_option (fun p => touch p f) f (g x)) ->
  in_tree q (foldl step f l) <-> in_tree q f \/ exists x p, x ∈ l /\ g x = Some p /\ q ∈ places_to p.
Proof.
  intros Hstep; revert f; induction l as [|x l IH]; intros f; cbn.
  - split; [by left | intros [?|(x & p & Hx & _)]; [done |]; by apply not_elem_of_nil in Hx].
  - rewrite IH, Hstep; setoid_rewrite elem_of_cons; destruct (g x) as [p|] eqn:E; cbn; [rewrite touch_spec |];
      naive_solver.
Qed.

(** The place of something in a state. *)
Definition place_of (st : MetadataState) (p : place) : Prop :=
  (exists k t, tenants st !! k = Some t /\ tenant_place t = Some p) \/
  (exists k n, namespaces st !! k = Some n /\ namespace_place n = Some p) \/
  (exists k t, topics_meta st !! k = Some t /\ topic_place t = Some p) \/
  (exists k s, subscriptions st !! k = Some s /\ subscription_place s = Some p).

Lemma in_tree_empty q : ~ in_tree q ∅.
Proof. destruct q; cbn -[at_key]; rewrite ?lookup_empty; try by intros [? ?]. Qed.

(** The tree built has the places of what is in the state, and those above them. *)
Lemma build_places (iter : Iteration) (st : MetadataState) (v : Z) :
  exists file, resource_files (build_document_from_state iter st v) = {[ metadata_path st := file ]} /\
  forall q, in_tree q file <-> exists p, q ∈ places_to p /\ place_of st p.
Proof.
  eexists; split; [reflexivity |]; intros q; unfold place_of.
  rewrite (touch_all_spec subscription_place), (touch_all_spec topic_place), (touch_all_spec namespace_place),
    (touch_all_spec tenant_place); [| try done ..].
  - setoid_rewrite values_elem; pose proof (in_tree_empty q); naive_solver.
  - intros f t; unfold topic_place; destruct (partitioned t); [done |]; by destruct (parse_topic_name _).
  - intros f s; unfold subscription_place; by destruct (parse_topic_name _).
Qed.

(** ** Well-formed states *)

(** What [ensure_topic] and [ensure_subscription] record of a topic: its parsed name,
    its namespace and its tenant, and a partition count exactly when it is
    partitioned; a partitioned topic is stored under its logical name. *)
Definition topic_wf (st : MetadataState) (k : string) (t : TopicMetadata) : Prop :=
  exists p, parse_topic_name k = Ok p /\ t = topic_metadata k p (partitioned t) (partition_count t) /\
    tenants st !! tn_tenant p = Some (mkTenantMetadata (tn_tenant p)) /\
    namespaces st !! namespace_key (tn_tenant p) (tn_namespace p)
      = Some (mkNamespaceMetadata (tn_tenant p) (tn_namespace p)) /\
    if partitioned t then 1 <= partition_count t /\ logical_topic_name k = k else partition_count t = 0.

Record state_wf (st : MetadataState) : Prop := mkStateWf {
  wf_tenants k t : tenants st !! k = Some t -> t = mkTenantMetadata k;
  wf_namespaces k n : namespaces st !! k = Some n ->
    k = namespace_key (nm_tenant n) (nm_name n) /\
    tenants st !! nm_tenant n = Some (mkTenantMetadata (nm_tenant n));
  wf_topics k t : topics_meta st !! k = Some t -> topic_wf st k t;
  wf_subscriptions k s : subscriptions st !! k = Some s ->
    k = subscription_key (sm_topic s) (sm_name s) /\ is_Some (topics_meta st !! sm_topic s);
}.

Lemma state_wf_new path : state_wf (metadata_state_new path).
Proof. by split. Qed.

Lemma topic_wf_name st k t : topic_wf st k t -> full_name t = k.
Proof. by intros (p & _ & -> & _). Qed.

(** *** The partitioned topics of a document *)

Definition add_partitioned (parts : gmap string Z) (t : TopicMetadata) : gmap string Z :=
  if partitioned t then
    match parts !! logical_topic_name (full_name t) with
    | Some _ => parts
    | None => <[logical_topic_name (full_name t) := Z.max (partition_count t) 1]> parts
    end
  else parts.

Lemma add_partitioned_all st (Hwf : state_wf st) k c l (m : gmap string Z) :
  NoDup (full_name <$> l) ->
  Forall (fun t => topics_meta st !! full_name t = Some t /\ m !! full_name t = None) l ->
  foldl add_partitioned m l !! k = Some c <->
  m !! k = Some c \/ exists t, t ∈ l /\ full_name t = k /\ partitioned t = true /\ partition_count t = c.
Proof.
  revert m; induction l as [|t l IH]; intros m Hnd HF; cbn [foldl].
  - split; [by left | intros [?|(t & Ht & _)]; [done |]; by apply not_elem_of_nil in Ht].
  - apply NoDup_cons in Hnd as [Hnew Hnd]; apply Forall_cons in HF as [[Ht Hm] HF].
    pose proof (wf_topics _ Hwf _ _ Ht) as (p & Hp & _ & _ & _ & Hc).
    setoid_rewrite elem_of_cons; unfold add_partitioned at 2; destruct (partitioned t) eqn:Ep.
    + destruct Hc as [Hc ->]; rewrite Hm, (Z.max_l _ _ Hc), IH; [| done |].
      * rewrite lookup_insert_Some; split; [naive_solver |].
        intros [Hk|(t' & [-> | Ht'] & Hk & Hp' & Hc')]; [|naive_solver | naive_solver].
        left; right; split; [|done]; intros <-; congruence.
      * apply Forall_forall; intros t' Ht'; destruct (proj1 (Forall_forall _ _) HF t' Ht') as [? ?]; split; [done |].
        rewrite lookup_insert_ne; [done |]; intros E; apply Hnew; rewrite E; by apply list_elem_of_fmap_2.
    + rewrite IH by done; split; [intros [?|(t' & ? & ?)]; [by left | right; exists t'; by auto] |].
      intros [?|(t' & [-> | ?] & ? & ? & ?)]; [by left | congruence | right; by exists t'].
Qed.

Lemma topic_names_nodup (iter : Iteration) st : state_wf st -> NoDup (full_name <$> iter _ (topics_meta st)).
Proof.
  intros Hwf; rewrite values_perm, <- list_fmap_compose.
  erewrite list_fmap_ext; [apply NoDup_fst_map_to_list |].
  intros i [k t] Hi; cbn; apply list_elem_of_lookup_2, elem_of_map_to_list in Hi.
  by eapply topic_wf_name, wf_topics.
Qed.

Lemma build_partitioned iter st v k c :
  state_wf st ->
  doc_partitioned_topics (build_document_from_state iter st v) !! k = Some c <->
  exists t, topics_meta st !! k = Some t /\ partitioned t = true /\ partition_count t = c.
Proof.
  intros Hwf; transitivity (foldl add_partitioned ∅ (iter _ (topics_meta st)) !! k = Some c); [done |].
  assert (forall t, t ∈ iter _ (topics_meta st) -> topics_meta st !! full_name t = Some t) as Hin.
  { intros t (k' & Ht)%values_elem; by rewrite (topic_wf_name _ _ _ (wf_topics _ Hwf _ _ Ht)). }
  rewrite (add_partitioned_all st Hwf).
  - rewrite lookup_empty; split; [intros [?|(t & Ht%Hin & <- & ?)]; [done | by exists t] |].
    intros (t & Ht & Hpc); right; exists t; split; [apply values_elem; by exists k |]; split; [|done].
    by eapply topic_wf_name, wf_topics.
  - by apply topic_names_nodup.
  - apply Forall_forall; intros t Ht; split; [by apply Hin | apply lookup_empty].
Qed.

(** ** Reading a document back *)

Definition apply_place (p : place) (maps : MetadataState) : result metadata_error MetadataState :=
  match p with
  | PTenant t => Ok (put_tenant t maps)
  | PNamespace t n => Ok (put_namespace t n maps)
  | PTopic t n d l =>
      let name := topic_string d t n l in
      let? parsed := checked_name name in Ok (put_topic name (topic_metadata name parsed false 0) maps)
  | PSubscription t n d l s => Ok (put_subscription (topic_string d t n l) s maps)
  end.

Definition apply_partitioned (x : string * Z) (maps : MetadataState) : result metadata_error MetadataState :=
  let? parsed := checked_name x.1 in
  Ok (put_topic x.1 (topic_metadata x.1 parsed true (Z.max x.2 1)) maps).

(** The nested loops visit the places of the trees one after the other. *)
Lemma apply_by_places doc st :
  apply_metadata_document doc st =
  let? maps := for_each apply_place (btree_iter (resource_files doc) ≫= fun file => tree_places file.2)
                 (metadata_state_new (metadata_path st)) in
  for_each apply_partitioned (btree_iter (doc_partitioned_topics doc)) maps.
Proof.
  unfold apply_metadata_document; rewrite for_each_bind.
  match goal with |- result_bind ?a _ = result_bind ?b _ => assert (a = b) as -> end.
  - apply for_each_ext; intros [k f] maps; unfold tree_places; cbn [snd]; rewrite for_each_bind.
    apply for_each_ext; intros [t tn] m1; cbn [for_each apply_place result_bind]; rewrite for_each_bind.
    apply for_each_ext; intros [n nn] m2; cbn [for_each apply_place result_bind]; rewrite for_each_bind.
    apply for_each_ext; intros [d dn] m3; rewrite for_each_bind.
    apply for_each_ext; intros [l tp] m4; cbn [for_each apply_place].
    destruct (checked_name _) as [p|e]; cbn [result_bind]; [|done]; by rewrite for_each_fmap.
  - destruct (for_each _ _ _) as [maps|e]; cbn [result_bind]; [|done]; by apply for_each_ext; intros [].
Qed.

(** The part of a state that the trees of a document carry: a partitioned topic is
    recorded there without its partitions. *)
Definition unpartitioned (st : MetadataState) : MetadataState :=
  mkMetadataState (metadata_path st) (tenants st) (namespaces st) (with_partitions false 0 <$> topics_meta st)
    (subscriptions st).

Record state_sub (st st' : MetadataState) : Prop := mkStateSub {
  ss_path : metadata_path st = metadata_path st';
  ss_tenants : tenants st ⊆ tenants st';
  ss_namespaces : namespaces st ⊆ namespaces st';
  ss_topics : topics_meta st ⊆ topics_meta st';
  ss_subscriptions : subscriptions st ⊆ subscriptions st';
}.

#[global] Instance state_sub_preorder : PreOrder state_sub.
Proof.
  split; [by split |]; intros x y z [? ? ? ? ?] [? ? ? ? ?]; split; by etrans.
Qed.

Definition recorded (p : place) (st : MetadataState) : Prop :=
  match p with
  | PTenant t => tenants st !! t = Some (mkTenantMetadata t)
  | PNamespace t n => namespaces st !! namespace_key t n = Some (mkNamespaceMetadata t n)
  | PTopic t n d l =>
      let name := topic_string d t n l in
      exists parsed, parse_topic_name name = Ok parsed /\
        topics_meta st !! name = Some (topic_metadata name parsed false 0)
  | PSubscription t n d l s =>
      let name := topic_string d t n l in
      subscriptions st !! subscription_key name s = Some (mkSubscriptionMetadata name s)
  end.

Lemma recorded_sub p st st' : state_sub st st' -> recorded p st -> recorded p st'.
Proof.
  intros []; destruct p; cbn; [intros; by eapply lookup_weaken .. | | intros; by eapply lookup_weaken].
  intros (q & Hq & Ht); exists q; split; [done | by eapply lookup_weaken].
Qed.

(** Adding a binding that the larger map has. *)
Lemma insert_between {A : Type} (k : string) (x : A) (m m' : gmap string A) :
  m' !! k = Some x -> m ⊆ m' -> m ⊆ <[k := x]> m /\ <[k := x]> m ⊆ m'.
Proof.
  intros Hk Hm; split; [|by apply insert_subseteq_l].
  destruct (m !! k) as [y|] eqn:E; [|by apply insert_subseteq].
  pose proof (lookup_weaken _ _ _ _ E Hm); by rewrite insert_id by congruence.
Qed.

Lemma apply_place_sub p goal maps :
  recorded p goal -> state_sub maps goal ->
  exists maps', apply_place p maps = Ok maps' /\ state_sub maps maps' /\ state_sub maps' goal /\ recorded p maps'.
Proof.
  intros Hp [Hpath Ht Hn Hto Hs].
  destruct p as [| |t n d l|]; cbn in Hp |- *;
    [| | destruct Hp as (q & Hq & Hp); unfold checked_name; rewrite Hq; cbn [result_bind] |];
    destruct (insert_between _ _ _ _ Hp ltac:(eassumption)) as [? ?];
    (eexists; split; [reflexivity |]; split; [by split |]; split; [by split |]; cbn).
  3: exists q; split; [done |].
  all: by rewrite lookup_insert_eq.
Qed.

Lemma apply_places_sub goal ps maps :
  (forall p, p ∈ ps -> recorded p goal) -> state_sub maps goal ->
  exists maps', for_each apply_place ps maps = Ok maps' /\ state_sub maps maps' /\ state_sub maps' goal /\
    forall p, p ∈ ps -> recorded p maps'.
Proof.
  revert maps; induction ps as [|p ps IH]; intros maps Hps Hsub; cbn [for_each].
  - exists maps; split_and!; [done | done | done |]; by intros p ?%not_elem_of_nil.
  - destruct (apply_place_sub p goal maps) as (m1 & -> & H1 & H2 & H3); [apply Hps; by left | done |].
    cbn [result_bind]; destruct (IH m1) as (m2 & -> & H4 & H5 & H6); [intros q Hq; apply Hps; by right | done |].
    exists m2; split_and!; [done | by etrans | done |]; intros q [-> | Hq]%elem_of_cons; [|by apply H6].
    by eapply recorded_sub.
Qed.

Lemma apply_partitioned_all goal l maps :
  (forall k c, (k, c) ∈ l -> exists p, parse_topic_name k = Ok p /\
     topics_meta goal !! k = Some (topic_metadata k p true (Z.max c 1))) ->
  exists ts, for_each apply_partitioned l maps
    = Ok (mkMetadataState (metadata_path maps) (tenants maps) (namespaces maps) ts (subscriptions maps)) /\
    forall k, ts !! k = if decide (k ∈ l.*1) then topics_meta goal !! k else topics_meta maps !! k.
Proof.
  revert maps; induction l as [|[k c] l IH]; intros maps Hl; cbn [for_each].
  - exists (topics_meta maps); split; [by destruct maps |]; intros k; by rewrite decide_False by apply not_elem_of_nil.
  - destruct (Hl k c) as (p & Hp & Hk); [by left |].
    unfold apply_partitioned at 1, checked_name; cbn [fst snd]; rewrite Hp; cbn [result_bind].
    edestruct IH as (ts & -> & Hts); [intros; apply Hl; by right |].
    exists ts; split; [done |]; intros k'; rewrite Hts; cbn [put_topic topics_meta fmap list_fmap fst].
    destruct (decide (k' ∈ l.*1)) as [Hin|Hnin]; [by rewrite decide_True by (by right) |].
    destruct (decide (k = k')) as [<-|Hne].
    + rewrite lookup_insert_eq, decide_True by (by left); by rewrite Hk.
    + rewrite lookup_insert_ne, decide_False by (done || by intros [?|?]%elem_of_cons); done.
Qed.

(** *** A well-formed state comes back *)

Section roundtrip.
Context (st : MetadataState) (Hwf : state_wf st).

Lemma recorded_topic k t p q :
  topics_meta st !! k = Some t -> parse_topic_name k = Ok p ->
  q ∈ places_to (PTopic (tn_tenant p) (tn_namespace p) (tn_domain p) (tn_local_name p)) ->
  recorded q (unpartitioned st).
Proof.
  intros Ht Hp; pose proof (parse_topic_name_spec _ _ Hp) as (Hk & _).
  pose proof (wf_topics _ Hwf _ _ Ht) as (p' & Hp' & E & Hten & Hns & _).
  rewrite Hp in Hp'; injection Hp' as <-.
  cbn [places_to]; intros [-> | [-> | [-> | []%not_elem_of_nil]%elem_of_cons]%elem_of_cons]%elem_of_cons;
    [done | done |].
  cbn [recorded]; rewrite <- Hk; exists p; split; [done |]; cbn; rewrite lookup_fmap, Ht, E; done.
Qed.

Lemma recorded_places p q : place_of st p -> q ∈ places_to p -> recorded q (unpartitioned st).
Proof.
  intros [(k & t & Ht & [= <-])|[(k & n & Hn & [= <-])|[(k & t & Ht & Hp)|(k & s & Hs & Hp)]]].
  - cbn; intros [-> | []%not_elem_of_nil]%elem_of_cons; cbn.
    rewrite (wf_tenants _ Hwf _ _ Ht) in Ht |- *; done.
  - destruct (wf_namespaces _ Hwf _ _ Hn) as [-> Hten].
    cbn; intros [-> | [-> | []%not_elem_of_nil]%elem_of_cons]%elem_of_cons; cbn; [done |]; by destruct n.
  - unfold topic_place in Hp; destruct (partitioned t) eqn:Ep; [done |].
    rewrite (topic_wf_name _ _ _ (wf_topics _ Hwf _ _ Ht)) in Hp.
    destruct (parse_topic_name k) as [x|] eqn:Hx; [|done]; injection Hp as <-.
    by eapply recorded_topic.
  - unfold subscription_place in Hp; destruct (wf_subscriptions _ Hwf _ _ Hs) as [-> [t Ht]].
    destruct (parse_topic_name (sm_topic s)) as [x|] eqn:Hx; [|done]; injection Hp as <-.
    intros Hq; assert (q ∈ places_to (PTopic (tn_tenant x) (tn_namespace x) (tn_domain x) (tn_local_name x)) \/
      q = PSubscription (tn_tenant x) (tn_namespace x) (tn_domain x) (tn_local_name x) (sm_name s)) as [Hq'| ->].
    { revert Hq; rewrite !list_elem_of_In; cbn; intuition. }
    { by eapply recorded_topic. }
    destruct (parse_topic_name_spec _ _ Hx) as [Hk _]; cbn; rewrite <- Hk; by destruct s.
Qed.

Lemma build_recorded iter v :
  exists maps, for_each apply_place
    (btree_iter (resource_files (build_document_from_state iter st v)) ≫= fun file => tree_places file.2)
    (metadata_state_new (metadata_path st)) = Ok maps /\
  state_sub maps (unpartitioned st) /\
  forall p, place_of st p -> recorded p maps.
Proof.
  destruct (build_places iter st v) as (file & -> & Hfile).
  destruct (apply_places_sub (unpartitioned st)
    (btree_iter {[ metadata_path st := file ]} ≫= fun f => tree_places f.2)
    (metadata_state_new (metadata_path st))) as (maps & Hrun & _ & Hsub & Hrec).
  - intros q (k & f & [<- <-]%lookup_singleton_Some & Hq)%elem_of_iter_bind.
    cbn in Hq; apply tree_places_spec, Hfile in Hq as (p & Hq & Hp); by eapply recorded_places.
  - split; cbn; [done | apply map_empty_subseteq ..].
  - exists maps; split; [done |]; split; [done |]; intros p Hp; apply Hrec, elem_of_iter_bind.
    exists (metadata_path st), file; split; [by apply lookup_singleton_Some |].
    apply tree_places_spec, Hfile; exists p; split; [|done]; destruct p; cbn; set_solver.
Qed.

Lemma recorded_topics maps k :
  state_sub maps (unpartitioned st) -> (forall p, place_of st p -> recorded p maps) ->
  match topics_meta st !! k with
  | Some t => partitioned t = false -> topics_meta maps !! k = Some t
  | None => topics_meta maps !! k = None
  end.
Proof.
  intros Hsub Hrec; destruct (topics_meta st !! k) as [t|] eqn:Ht.
  - intros Ep; destruct (wf_topics _ Hwf _ _ Ht) as (p & Hp & E & _ & _ & Hc); rewrite Ep in Hc, E.
    pose proof (parse_topic_name_spec _ _ Hp) as [Hk _].
    assert (recorded (PTopic (tn_tenant p) (tn_namespace p) (tn_domain p) (tn_local_name p)) maps) as Hr.
    { apply Hrec; right; right; left; exists k, t; split; [done |].
      unfold topic_place; by rewrite Ep, (topic_wf_name _ _ _ (wf_topics _ Hwf _ _ Ht)), Hp. }
    cbn in Hr; rewrite <- Hk in Hr; destruct Hr as (p' & Hp' & ->).
    rewrite Hp in Hp'; injection Hp' as <-; by rewrite E, Hc.
  - eapply lookup_weaken_None; [|apply (ss_topics _ _ Hsub)]; cbn; by rewrite lookup_fmap, Ht.
Qed.

(** What was built from a well-formed state, in whatever order the maps were visited,
    reads back as that state. *)
Lemma apply_build iter v st0 :
  metadata_path st0 = metadata_path st ->
  apply_metadata_document (build_document_from_state iter st v) st0 = Ok st.
Proof.
  intros Hpath; rewrite apply_by_places, Hpath.
  destruct (build_recorded iter v) as (maps & -> & Hsub & Hrec); cbn [result_bind].
  edestruct (apply_partitioned_all st) as (ts & -> & Hts).
  { intros k c (t & Ht & Hp & <-)%btree_iter_elem%build_partitioned; [|done].
    destruct (wf_topics _ Hwf _ _ Ht) as (p & Hk & E & _ & _ & Hc); rewrite Hp in E, Hc.
    exists p; split; [done |]; by rewrite Ht, E, Z.max_l by apply Hc. }
  assert (tenants maps = tenants st) as ->.
  { apply (anti_symm (⊆)); [apply Hsub |]; apply map_subseteq_spec; intros k t Ht.
    pose proof (wf_tenants _ Hwf _ _ Ht) as ->; apply (Hrec (PTenant k)); left; by eexists _, _. }
  assert (namespaces maps = namespaces st) as ->.
  { apply (anti_symm (⊆)); [apply Hsub |]; apply map_subseteq_spec; intros k n Hn.
    destruct (wf_namespaces _ Hwf _ _ Hn) as [-> _]; destruct n as [t n].
    apply (Hrec (PNamespace t n)); right; left; by eexists _, _. }
  assert (subscriptions maps = subscriptions st) as ->.
  { apply (anti_symm (⊆)); [apply Hsub |]; apply map_subseteq_spec; intros k s Hs.
    destruct (wf_subscriptions _ Hwf _ _ Hs) as [-> [t Ht]].
    destruct (wf_topics _ Hwf _ _ Ht) as (p & Hp & _); pose proof (parse_topic_name_spec _ _ Hp) as [Hk _].
    pose proof (Hrec (PSubscription (tn_tenant p) (tn_namespace p) (tn_domain p) (tn_local_name p) (sm_name s))) as Hr.
    cbn in Hr; rewrite <- Hk in Hr; rewrite Hr; [by destruct s |]; right; right; right.
    exists (subscription_key (sm_topic s) (sm_name s)), s; split; [done |]; unfold subscription_place; by rewrite Hp. }
  assert (ts = topics_meta st) as ->.
  { apply map_eq; intros k; rewrite Hts; case_decide as Hk; [done |].
    pose proof (recorded_topics maps k Hsub Hrec) as Hm; destruct (topics_meta st !! k) as [t|] eqn:Ht; [|done].
    destruct (partitioned t) eqn:Ep; [|by apply Hm]; destruct Hk; apply list_elem_of_fmap.
    exists (k, partition_count t); split; [done |]; by apply btree_iter_elem, build_partitioned; [|exists t]. }
  rewrite (ss_path _ _ Hsub); by destruct st.
Qed.
End roundtrip.

(** ** The operations keep the state well-formed *)

(** A key made of a tenant and a namespace without slashes is made of no others. *)
Lemma namespace_key_inj t n t' n' :
  has_char "/" t = false -> has_char "/" n = false -> namespace_key t' n' = namespace_key t n -> t' = t /\ n' = n.
Proof.
  unfold namespace_key; intros Ht Hn; revert t Ht; induction t' as [|c t' IH]; intros [|a t] Ht H; string_cons.
  - by injection H as ->.
  - injection H as <- _; by cbn in Ht.
  - injection H as -> <-; by rewrite has_char_app, orb_true_r in Hn.
  - cbn in Ht; apply orb_false_iff in Ht as [_ Ht]; injection H as -> H; by destruct (IH t Ht H) as [-> ->].
Qed.

(** One change: the state stays well-formed, nothing is forgotten, and [false] means
    that nothing changed. *)
Record changes (st : MetadataState) (r : bool * MetadataState) : Prop := mkChanges {
  ch_wf : state_wf r.2;
  ch_path : metadata_path r.2 = metadata_path st;
  ch_tenants : tenants st ⊆ tenants r.2;
  ch_namespaces : namespaces st ⊆ namespaces r.2;
  ch_topics k t : topics_meta st !! k = Some t -> is_Some (topics_meta r.2 !! k);
  ch_subscriptions : subscriptions st ⊆ subscriptions r.2;
  ch_same : r.1 = false -> r.2 = st;
}.

Lemma changes_refl st : state_wf st -> changes st (false, st).
Proof. by split. Qed.

Lemma changes_trans st b1 st1 b2 st2 : changes st (b1, st1) -> changes st1 (b2, st2) -> changes st (b1 || b2, st2).
Proof.
  intros [? Hp1 Ht1 Hn1 Hk1 Hs1 Hsame1] [? Hp2 Ht2 Hn2 Hk2 Hs2 Hsame2]; cbn in *.
  split; cbn; [done | congruence | by etrans | by etrans | | by etrans |].
  - intros k t Hk; destruct (Hk1 _ _ Hk) as [t1 Ht]; by eapply Hk2.
  - intros [-> ->]%orb_false_iff; by rewrite Hsame2, Hsame1.
Qed.

Lemma topic_wf_mono st st' k t :
  tenants st ⊆ tenants st' -> namespaces st ⊆ namespaces st' -> topic_wf st k t -> topic_wf st' k t.
Proof.
  intros Hten Hns (p & Hp & E & Ht & Hn & Hc); exists p; split_and!; [done | done | | | done]; by eapply lookup_weaken.
Qed.

Lemma insert_tenant_changes t st :
  state_wf st ->
  changes st (insert_tenant_metadata t st) /\
  tenants (insert_tenant_metadata t st).2 !! t = Some (mkTenantMetadata t).
Proof.
  intros Hwf; unfold insert_tenant_metadata; destruct (tenants st !! t) as [x|] eqn:E.
  - split; [by apply changes_refl |]; cbn; by rewrite E, (wf_tenants _ Hwf _ _ E).
  - assert (tenants st ⊆ <[t := mkTenantMetadata t]> (tenants st)) as Hsub by by apply insert_subseteq.
    split; [|cbn; by rewrite lookup_insert_eq].
    split; cbn; [| done | done | done | by eexists | done | done].
    split; cbn; [| |by intros; apply (topic_wf_mono st); [| |apply wf_topics] |apply Hwf].
    + intros k x [[<- <-]|[_ Hx]]%lookup_insert_Some; [done |]; by apply Hwf.
    + intros k n Hn; destruct (wf_namespaces _ Hwf _ _ Hn) as [? ?]; split; [done |]; by eapply lookup_weaken.
Qed.

Lemma insert_namespace_changes t n st :
  state_wf st -> tenants st !! t = Some (mkTenantMetadata t) ->
  changes st (insert_namespace_metadata t n st) /\
  (has_char "/" t = false -> has_char "/" n = false ->
   namespaces (insert_namespace_metadata t n st).2 !! namespace_key t n = Some (mkNamespaceMetadata t n)).
Proof.
  intros Hwf Ht; unfold insert_namespace_metadata; destruct (namespaces st !! namespace_key t n) as [x|] eqn:E.
  - split; [by apply changes_refl |]; cbn; intros Hst Hsn; rewrite E.
    destruct (wf_namespaces _ Hwf _ _ E) as [Hk _]; destruct x as [t' n']; cbn in Hk.
    by destruct (namespace_key_inj _ _ _ _ Hst Hsn (eq_sym Hk)) as [-> ->].
  - assert (namespaces st ⊆ <[namespace_key t n := mkNamespaceMetadata t n]> (namespaces st)) as Hsub
      by by apply insert_subseteq.
    split; [|cbn; by rewrite lookup_insert_eq].
    split; cbn; [| done | done | done | by eexists | done | done].
    split; cbn; [apply Hwf | |by intros; apply (topic_wf_mono st); [| |apply wf_topics] |apply Hwf].
    intros k x [[<- <-]|[_ Hx]]%lookup_insert_Some; [done |]; by apply Hwf.
Qed.

(** What is recorded of topic [k] after an [upsert]: the partitions asked for, and
    otherwise what was there. *)
Definition upserted (st : MetadataState) (k : string) (p : ParsedTopicName) (part : bool) (count : Z) : TopicMetadata :=
  if part then topic_metadata k p true count else default (topic_metadata k p false 0) (topics_meta st !! k).

Lemma upsert_spec st k p (part : bool) count :
  state_wf st -> parse_topic_name k = Ok p -> (if part then 1 <= count else count = 0) ->
  exists b, upsert_topic_metadata (topic_metadata k p part count) st = (b, put_topic k (upserted st k p part count) st) /\
    (b = false -> topics_meta st !! k = Some (upserted st k p part count)).
Proof.
  intros Hwf Hp Hc; unfold upsert_topic_metadata, upserted; cbn [full_name topic_metadata partitioned partition_count].
  destruct (topics_meta st !! k) as [t|] eqn:Ht.
  - destruct (wf_topics _ Hwf _ _ Ht) as (p' & Hp' & E & _ & _ & Hct).
    rewrite Hp in Hp'; injection Hp' as <-; destruct part; cbn [default] in Hc |- *.
    + rewrite Z.max_l by done; destruct (negb _ || negb _) eqn:Eb.
      * exists true; split; [|done]; by rewrite E.
      * apply orb_false_iff in Eb as [Ep%negb_false_iff Ec%negb_false_iff%Z.eqb_eq].
        rewrite Ep, Ec in E; eexists; split; [by rewrite <- E |]; by rewrite <- E.
    + destruct (partitioned t); [by eexists |]; rewrite Hct; by eexists.
  - destruct part; cbn [partitioned partition_count negb andb orb topic_metadata default] in Hc |- *.
    + rewrite Z.max_l, Z.eqb_refl by done; by eexists.
    + rewrite Hc; by eexists.
Qed.

Lemma upsert_changes st k p (part : bool) count :
  state_wf st -> parse_topic_name k = Ok p -> (if part then 1 <= count /\ logical_topic_name k = k else count = 0) ->
  tenants st !! tn_tenant p = Some (mkTenantMetadata (tn_tenant p)) ->
  namespaces st !! namespace_key (tn_tenant p) (tn_namespace p)
    = Some (mkNamespaceMetadata (tn_tenant p) (tn_namespace p)) ->
  changes st (upsert_topic_metadata (topic_metadata k p part count) st).
Proof.
  intros Hwf Hp Hc Hten Hns.
  destruct (upsert_spec st k p part count) as (b & -> & Hb); [done | done | by destruct part, Hc |].
  split; cbn; [| done | done | done | | done |].
  - split; cbn; [apply Hwf | apply Hwf | |].
    + intros k' t [[<- <-]|[_ Ht]]%lookup_insert_Some; [|by apply Hwf].
      unfold upserted; destruct part; [by exists p |].
      destruct (topics_meta st !! k) as [t|] eqn:Ht; [by apply Hwf | by exists p].
    + intros k' s Hs; destruct (wf_subscriptions _ Hwf _ _ Hs) as [? ?]; split; [done |].
      rewrite lookup_insert_is_Some'; by right.
  - intros k' t Ht; rewrite lookup_insert_is_Some'; right; by exists t.
  - intros ->; unfold put_topic; rewrite insert_id by (by apply Hb); by destruct st.
Qed.

Lemma insert_subscription_changes topic s st :
  state_wf st -> is_Some (topics_meta st !! topic) -> changes st (insert_subscription_metadata topic s st).
Proof.
  intros Hwf Ht; unfold insert_subscription_metadata.
  destruct (subscriptions st !! subscription_key topic s) as [x|] eqn:E; [by apply changes_refl |].
  split; cbn; [| done | done | done | by eexists | by apply insert_subseteq | done].
  split; cbn; [apply Hwf .. |]; intros k x [[<- <-]|[_ Hx]]%lookup_insert_Some; [done |]; by apply Hwf.
Qed.

(** ** The operations as changes of the state *)

Section change.
Local Notation "st >>= f" := (let '(b, st1) := st in let '(b', st2) := f st1 in (b || b', st2))
  (at level 50, left associativity).

Definition change_names (p : ParsedTopicName) (st : MetadataState) : bool * MetadataState :=
  insert_tenant_metadata (tn_tenant p) st >>= insert_namespace_metadata (tn_tenant p) (tn_namespace p).

(** What an operation does to the state. *)
Definition change (op : resource_op) (st : MetadataState) : result metadata_error (bool * MetadataState) :=
  match op with
  | EnsureTenant t => Ok (insert_tenant_metadata t st)
  | EnsureNamespace t n => Ok (insert_tenant_metadata t st >>= insert_namespace_metadata t n)
  | EnsureTopic k part count =>
      let? p := checked_name k in
      Ok (change_names p st
            >>= upsert_topic_metadata (topic_metadata k p part (if part then Z.max count 1 else 0)))
  | EnsureSubscription k s =>
      let? p := checked_name k in
      Ok (change_names p st >>= upsert_topic_metadata (topic_metadata k p false 0)
            >>= insert_subscription_metadata k s)
  end.
End change.

Lemma ensure_change {text S : Type} `{!MetadataStore text S} (io : Io text) (op : resource_op) (m : S) :
  ensure io op m =
  match change op (state m) with
  | Err e => (Err e, m)
  | Ok (changed, st) =>
      if changed then persist_document io METADATA_VERSION (set_state st m) else (Ok tt, set_state st m)
  end.
Proof.
  destruct op as [t|t n|k part count|k s]; cbn [ensure change].
  - unfold ensure_tenant; by destruct (insert_tenant_metadata _ _).
  - unfold ensure_namespace; destruct (insert_tenant_metadata _ _); by destruct (insert_namespace_metadata _ _ _).
  - unfold ensure_topic, change_names; destruct (checked_name k); cbn [result_bind]; [|done].
    destruct (insert_tenant_metadata _ _); destruct (insert_namespace_metadata _ _ _).
    by destruct (upsert_topic_metadata _ _).
  - unfold ensure_subscription, change_names; destruct (checked_name k); cbn [result_bind]; [|done].
    destruct (insert_tenant_metadata _ _); destruct (insert_namespace_metadata _ _ _).
    destruct (upsert_topic_metadata _ _); by destruct (insert_subscription_metadata _ _ _).
Qed.

(** A topic is partitioned under the name of which the partitions are numbered. *)
Definition op_ok (op : resource_op) : Prop :=
  match op with
  | EnsureTopic k true _ => logical_topic_name k = k
  | _ => True
  end.

#[global] Instance op_ok_dec op : Decision (op_ok op).
Proof. destruct op as [| |k [] c|]; apply _. Defined.

Lemma change_names_changes p k st :
  state_wf st -> parse_topic_name k = Ok p ->
  changes st (change_names p st) /\
  tenants (change_names p st).2 !! tn_tenant p = Some (mkTenantMetadata (tn_tenant p)) /\
  namespaces (change_names p st).2 !! namespace_key (tn_tenant p) (tn_namespace p)
    = Some (mkNamespaceMetadata (tn_tenant p) (tn_namespace p)).
Proof.
  intros Hwf (_ & Ht & Hn & _)%parse_topic_name_spec; unfold change_names.
  destruct (insert_tenant_changes (tn_tenant p) st Hwf) as [C1 Ht1].
  destruct (insert_tenant_metadata _ _) as [b1 st1]; cbn in Ht1.
  destruct (insert_namespace_changes (tn_tenant p) (tn_namespace p) st1) as [C2 Hn2]; [by apply C1 | done |].
  destruct (insert_namespace_metadata _ _ _) as [b2 st2]; cbn in Hn2 |- *.
  split; [by eapply changes_trans |]; split; [|by apply Hn2].
  eapply lookup_weaken; [done | apply C2].
Qed.

Lemma change_changes op st r : state_wf st -> op_ok op -> change op st = Ok r -> changes st r.
Proof.
  intros Hwf Hop; destruct op as [t|t n|k part count|k s]; cbn [change].
  - intros [= <-]; by apply insert_tenant_changes.
  - destruct (insert_tenant_changes t st Hwf) as [C1 Ht1]; destruct (insert_tenant_metadata _ _) as [b1 st1].
    destruct (insert_namespace_changes t n st1) as [C2 _]; [by apply C1 | done |].
    destruct (insert_namespace_metadata _ _ _) as [b2 st2]; intros [= <-]; by eapply changes_trans.
  - unfold checked_name; destruct (parse_topic_name k) as [p|] eqn:Hp; [|done]; cbn [result_bind].
    destruct (change_names_changes p k st Hwf Hp) as (C1 & Ht & Hn); destruct (change_names _ _) as [b1 st1].
    pose proof (upsert_changes st1 k p part (if part then Z.max count 1 else 0)) as C2.
    destruct (upsert_topic_metadata _ _) as [b2 st2]; intros [= <-]; eapply changes_trans; [done |].
    apply C2; [apply C1 | done | | done | done]; destruct part; [split; [lia | done] | done].
  - unfold checked_name; destruct (parse_topic_name k) as [p|] eqn:Hp; [|done]; cbn [result_bind].
    destruct (change_names_changes p k st Hwf Hp) as (C1 & Ht & Hn); destruct (change_names _ _) as [b1 st1].
    pose proof (upsert_changes st1 k p false 0 (ch_wf _ _ C1) Hp eq_refl Ht Hn) as C2.
    destruct (upsert_spec st1 k p false 0 (ch_wf _ _ C1) Hp eq_refl) as (b2 & E & _); rewrite E in C2 |- *.
    pose proof (insert_subscription_changes k s _ (ch_wf _ _ C2)) as C3; cbn [snd] in C3.
    destruct (insert_subscription_metadata _ _ _) as [b3 st3]; intros [= <-].
    eapply changes_trans; [by eapply changes_trans |]; apply C3; cbn; rewrite lookup_insert_eq; by eexists.
Qed.

(** *** Partition counts *)

Lemma lookup_partitioned st name :
  get_partitioned_topic_metadata st !! name
  = (topics_meta st !! name) ≫= fun t => if partitioned t then Some (partition_count t) else None.
Proof. apply lookup_omap. Qed.

Lemma change_names_topics p st : topics_meta (change_names p st).2 = topics_meta st.
Proof.
  unfold change_names, insert_tenant_metadata, insert_namespace_metadata.
  destruct (tenants st !! _); by destruct (namespaces _ !! _).
Qed.

Lemma put_topic_partitioned st k t name :
  get_partitioned_topic_metadata (put_topic k t st) !! name
  = if decide (k = name) then if partitioned t then Some (partition_count t) else None
    else get_partitioned_topic_metadata st !! name.
Proof.
  rewrite !lookup_partitioned; cbn; case_decide as Hk; [subst; by rewrite lookup_insert_eq | by rewrite lookup_insert_ne].
Qed.

Lemma upserted_plain_partitioned st k p name :
  get_partitioned_topic_metadata (put_topic k (upserted st k p false 0) st) !! name
  = get_partitioned_topic_metadata st !! name.
Proof.
  rewrite put_topic_partitioned; case_decide as Hk; [subst | done].
  rewrite lookup_partitioned; unfold upserted; by destruct (topics_meta st !! name).
Qed.

(** Only a request for partitions changes a partition count. *)
Lemma change_partitions op st r name :
  state_wf st -> change op st = Ok r ->
  get_partitioned_topic_metadata r.2 !! name =
  match op with
  | EnsureTopic k true count =>
      if decide (k = name) then Some (Z.max count 1) else get_partitioned_topic_metadata st !! name
  | _ => get_partitioned_topic_metadata st !! name
  end.
Proof.
  intros Hwf; rewrite !(lookup_partitioned st).
  destruct op as [t|t n|k part count|k s]; cbn [change].
  - unfold insert_tenant_metadata; rewrite lookup_partitioned; by destruct (tenants st !! t); intros [= <-].
  - unfold insert_tenant_metadata, insert_namespace_metadata; rewrite lookup_partitioned.
    destruct (tenants st !! t), (namespaces _ !! _); by intros [= <-].
  - unfold checked_name; destruct (parse_topic_name k) as [p|] eqn:Hp; [|done]; cbn [result_bind].
    destruct (change_names_changes p k st Hwf Hp) as (C1 & _); pose proof (change_names_topics p st) as Et.
    destruct (change_names _ _) as [b1 st1]; cbn [snd] in Et; rewrite <- Et.
    destruct (upsert_spec st1 k p part (if part then Z.max count 1 else 0)) as (b2 & E & _);
      [apply C1 | done | destruct part; [lia | done] |].
    rewrite E; intros [= <-]; cbn [snd]; destruct part.
    + rewrite put_topic_partitioned, lookup_partitioned; by case_decide.
    + by rewrite upserted_plain_partitioned, lookup_partitioned.
  - unfold checked_name; destruct (parse_topic_name k) as [p|] eqn:Hp; [|done]; cbn [result_bind].
    destruct (change_names_changes p k st Hwf Hp) as (C1 & _); pose proof (change_names_topics p st) as Et.
    destruct (change_names _ _) as [b1 st1]; cbn [snd] in Et; rewrite <- Et.
    destruct (upsert_spec st1 k p false 0 (ch_wf _ _ C1) Hp eq_refl) as (b2 & -> & _).
    rewrite <- lookup_partitioned, <- (upserted_plain_partitioned st1 k p name), !lookup_partitioned.
    unfold insert_subscription_metadata; by destruct (subscriptions _ !! _); intros [= <-].
Qed.
