(* ===== verification/MetadataRestart.v ===== *)
(** * The metadata across restarts

    The metadata store with its file: whatever operations run and whichever of their
    writes fail, the file is a complete snapshot that loads, and after successful
    writes it is the present state.  In the end: what the broker reads from it when it
    starts ([main.rs]), and the partitioned topics it knows then. *)

From S2P Require Import Prelude Text Keys MetadataStore.

Section restart.
Context {text value : Type} `{!JsonCodec text value}.

Implicit Types m : FileMetadataStore text.

(** [db_path.with_extension("metadata.json")] ends so. *)
Definition metadata_file_path (path : string) : Prop := is_Some (strip_suffix path ".metadata.json").

#[global] Instance metadata_file_path_dec path : Decision (metadata_file_path path).
Proof. unfold metadata_file_path; apply _. Defined.

(** A saved state loads. *)
Lemma load_saved path iter st v s temporary :
  metadata_file_path path -> state_wf st -> metadata_path st = path ->
  to_string_pretty (build_document_from_state iter st v) = Some s ->
  file_store_new true path (Some s) temporary = Ok (mkFileStore st (Some s) temporary).
Proof.
  intros Hpath Hwf Hst Hs; set (doc := build_document_from_state iter st v) in *.
  assert (forall k, strip_suffix k ".metadata.json" = None -> resource_files doc !! k = None) as Hfiles.
  { intros k Hk; destruct (build_places iter st v) as (file & E & _); unfold doc; rewrite E; apply lookup_singleton_ne.
    intros <-; rewrite Hst in Hk; destruct Hpath; congruence. }
  destruct (json_roundtrip doc) as (s' & raw & Hs' & Hraw & Hdoc & Hmem); [by apply Hfiles .. |].
  rewrite Hs in Hs'; injection Hs' as <-.
  assert (forall k, k ∈ ["tenants"; "namespaces"; "topics"; "subscriptions"] -> has_member k raw = false) as Hold.
  { intros k Hk; apply not_true_iff_false; rewrite Hmem.
    repeat (apply elem_of_cons in Hk as [-> | Hk]; [rewrite Hfiles by done; by intros [?|[?|[? ?]]] |]).
    by apply not_elem_of_nil in Hk. }
  unfold file_store_new, load, load_document; cbn [fm_file negb]; rewrite Hraw; cbn [ok_or result_bind].
  rewrite !Hold by set_solver; cbn [orb]; rewrite Hdoc; cbn [ok_or result_bind].
  unfold doc; by rewrite (apply_build st Hwf) by done.
Qed.

(** ** One operation *)

Definition store_ok (path : string) m : Prop := state_wf (fm_state m) /\ metadata_path (fm_state m) = path.

(** An operation either leaves the file as it is, and then also the state when the
    write would have succeeded, or puts a snapshot of the new state there. *)
Lemma ensure_step path io op m :
  metadata_file_path path -> store_ok path m -> op_ok op ->
  store_ok path (ensure io op m).2 /\
  (fm_file (ensure io op m).2 = fm_file m /\
     (io_save io = Saved -> fm_state (ensure io op m).2 = fm_state m) \/
   exists s, fm_file (ensure io op m).2 = Some s /\
     to_string_pretty (build_document_from_state (io_iteration io) (fm_state (ensure io op m).2) METADATA_VERSION)
       = Some s).
Proof.
  intros Hpath [Hwf Hst] Hop; rewrite ensure_change; cbn [state file_store].
  destruct (change op (fm_state m)) as [[changed st]|e] eqn:Ec; [|split; [by split | by left]].
  apply change_changes in Ec as [Hwf' Hp _ _ _ _ Hsame]; [|done ..]; cbn [fst snd] in *.
  destruct changed; [|rewrite (Hsame eq_refl) in *; split; [by split | by left]].
  cbn [persist_document set_state file_store]; unfold file_persist_document, save_document; cbn [fm_state fm_file].
  set (doc := build_document_from_state _ _ _); assert (is_Some (to_string_pretty doc)) as [s Es].
  { destruct (json_roundtrip doc) as (s & raw & Hs & _); [..| by exists s];
      destruct (build_places (io_iteration io) st METADATA_VERSION) as (file & E & _);
      unfold doc; rewrite E; apply lookup_singleton_ne; rewrite Hp, Hst; intros ->; by destruct Hpath. }
  rewrite Es; destruct (io_save io) eqn:Eio; (split; [by split; cbn; [|rewrite Hp] |]); cbn;
    [right; by exists s | left; by split ..].
Qed.

(** The file holds the present state. *)
Definition loads (path : string) m : Prop :=
  forall temporary, file_store_new true path (fm_file m) temporary = Ok (mkFileStore (fm_state m) (fm_file m) temporary).

Lemma ensure_loads path io op m :
  metadata_file_path path -> store_ok path m -> op_ok op -> io_save io = Saved -> loads path m ->
  loads path (ensure io op m).2.
Proof.
  intros Hpath Hok Hop Hio Hl temporary.
  destruct (ensure_step path io op m Hpath Hok Hop) as [[Hwf Hst] [[-> ->]|(s & -> & Hs)]];
    [by apply Hl | done | by eapply load_saved].
Qed.

Lemma ensure_partitions io op m name :
  state_wf (fm_state m) ->
  get_partitioned_topic_metadata (fm_state (ensure io op m).2) !! name =
  match op with
  | EnsureTopic k true count =>
      if decide (k = name) then
        match parse_topic_name k with
        | Ok _ => Some (Z.max count 1)
        | Err _ => get_partitioned_topic_metadata (fm_state m) !! name
        end
      else get_partitioned_topic_metadata (fm_state m) !! name
  | _ => get_partitioned_topic_metadata (fm_state m) !! name
  end.
Proof.
  intros Hwf; rewrite ensure_change; cbn [state file_store].
  destruct (change op (fm_state m)) as [[changed st]|e] eqn:Ec.
  - assert (fm_state (if changed then persist_document io METADATA_VERSION (set_state st m) else (Ok tt, set_state st m)).2
      = st) as ->.
    { destruct changed; [|done]; cbn; unfold file_persist_document, save_document.
      by repeat case_match. }
    pose proof (change_partitions _ _ _ name Hwf Ec) as E; cbn [snd] in E; rewrite E; destruct op as [| |k [] c|]; try done.
    case_decide; [|done]; cbn in Ec; unfold checked_name in Ec; by destruct (parse_topic_name k).
  - destruct op as [| |k [] c|]; try done; case_decide; [|done]; cbn in Ec; unfold checked_name in Ec.
    by destruct (parse_topic_name k).
Qed.

(** ** Runs *)

Definition run_ops (ops : list (Io text * resource_op)) m : FileMetadataStore text :=
  foldl (fun m x => (ensure x.1 x.2 m).2) m ops.

Definition no_files (path : string) : FileMetadataStore text := mkFileStore (metadata_state_new path) None None.

Lemma run_ops_ok path ops :
  metadata_file_path path -> Forall (fun x => op_ok x.2) ops -> store_ok path (run_ops ops (no_files path)).
Proof.
  intros Hpath; induction ops as [|[io op] ops IH] using rev_ind; intros Hops.
  - split; [apply state_wf_new | done].
  - apply Forall_app in Hops as [Hops [Hop _]%Forall_cons].
    unfold run_ops; rewrite foldl_app; by apply ensure_step; [|apply IH |].
Qed.

Lemma run_snapshot path ops :
  metadata_file_path path -> Forall (fun x => op_ok x.2) ops ->
  exists ops1 ops2, ops = ops1 ++ ops2 /\
    (forall temporary, file_store_new true path (fm_file (run_ops ops (no_files path))) temporary
       = Ok (mkFileStore (fm_state (run_ops ops1 (no_files path))) (fm_file (run_ops ops (no_files path))) temporary)) /\
    (Forall (fun x => io_save x.1 = Saved) ops ->
     fm_state (run_ops ops1 (no_files path)) = fm_state (run_ops ops (no_files path))).
Proof.
  intros Hpath; induction ops as [|[io op] ops IH] using rev_ind; intros Hops.
  { by exists [], []. }
  apply Forall_app in Hops as [Hops [Hop _]%Forall_cons]; pose proof (run_ops_ok path ops Hpath Hops) as Hok.
  destruct (IH Hops) as (ops1 & ops2 & Eops & Hload & Hsame).
  destruct (ensure_step path io op _ Hpath Hok Hop) as [[Hwf Hst] [[Hf Hs]|(s & Hf & Hs)]].
  - exists ops1, (ops2 ++ [(io, op)]); split; [by rewrite Eops, <- app_assoc |].
    unfold run_ops at 1 3 5; rewrite foldl_app; cbn [foldl fst snd]; fold (run_ops ops (no_files path)); rewrite Hf.
    split; [done |]; intros [Hsv [Hio _]%Forall_cons]%Forall_app; by rewrite Hs, Hsame.
  - exists (ops ++ [(io, op)]), []; split; [by rewrite app_nil_r |]; split; [|done].
    unfold run_ops; rewrite foldl_app; cbn [foldl fst snd]; fold (run_ops ops (no_files path)); rewrite Hf.
    intros temporary; by eapply load_saved.
Qed.

(** C6: The metadata survives a restart.  Take any operations on tenants, namespaces,
    topics and subscriptions that begin without a metadata file and record partitioned
    topics under logical names only (names that are not those of partitions), any order
    in which their maps are visited, and any failures while the file is written.
    Opening the store on the file they leave succeeds, and gives the state as it was
    after some first part of the operations, completely; when no write failed, the state
    they end in. *)
Theorem metadata_restart path ops :
  metadata_file_path path -> Forall (fun x => op_ok x.2) ops ->
  let m := run_ops ops (no_files path) in
  exists ops1 ops2 m', ops = ops1 ++ ops2 /\
    file_store_new true path (fm_file m) (fm_temporary m) = Ok m' /\
    fm_state m' = fm_state (run_ops ops1 (no_files path)) /\
    (Forall (fun x => io_save x.1 = Saved) ops -> fm_state m' = fm_state m).
Proof.
  intros Hpath Hops; destruct (run_snapshot path ops Hpath Hops) as (ops1 & ops2 & Eops & Hload & Hsame).
  exists ops1, ops2; eexists; split; [exact Eops |]; split; [apply Hload |]; by split.
Qed.
End restart.

(** ** Examples *)

(** A codec that keeps the document as it is. *)
#[global] Program Instance plain_json : JsonCodec MetadataDocument MetadataDocument := {|
  to_string_pretty doc := Some doc;
  from_str doc := Some doc;
  from_value doc := Some doc;
  has_member k doc :=
    bool_decide (k = "version" \/ k = "partitioned_topics" \/ is_Some (resource_files doc !! k));
|}.
Next Obligation.
  intros doc Hv Hp; exists doc, doc; split_and!; [done | done | done |]; intros k; apply bool_decide_eq_true.
Qed.

Definition in_map_order : Iteration.
Proof. refine {| values A m := (map_to_list m).*2 |}; done. Defined.

Definition in_reverse_order : Iteration.
Proof. refine {| values A m := reverse (map_to_list m).*2 |}; intros; apply reverse_Permutation. Defined.

Definition good_write : Io MetadataDocument := mkIo in_map_order Saved.
Definition failed_write : Io MetadataDocument := mkIo in_reverse_order NoRename.

Definition example_path : string := "pulsar.metadata.json".

(** A partitioned topic with a subscription, and a namespace whose write fails. *)
Definition example_ops : list (Io MetadataDocument * resource_op) :=
  [(good_write, EnsureTopic "persistent://public/default/orders" true 3);
   (good_write, EnsureSubscription "persistent://public/default/orders-partition-1" "billing");
   (good_write, EnsureSubscription "persistent://public/default/orders" "audit");
   (failed_write, EnsureNamespace "public" "archive")].

Lemma metadata_restart_witness :
  let m := run_ops example_ops (no_files example_path) in
  exists ops1 ops2 m', example_ops = ops1 ++ ops2 /\
    file_store_new true example_path (fm_file m) (fm_temporary m) = Ok m' /\
    fm_state m' = fm_state (run_ops ops1 (no_files example_path)) /\
    (Forall (fun x => io_save x.1 = Saved) example_ops -> fm_state m' = fm_state m).
Proof.
  apply (metadata_restart example_path example_ops); [by eexists | by repeat constructor].
Defined.

(** The subscription of another topic is found under the same key. *)
Example subscription_keys_collide :
  has_subscription_metadata "persistent://public/default/a" "b:c"
    (fm_state (run_ops [(good_write, EnsureSubscription "persistent://public/default/a:b" "c")] (no_files example_path)))
  = true.
Proof. by vm_compute. Qed.

(** A failed write is not made up for by the same operation, which then reports
    success. *)
Example failed_write_not_repeated :
  let op := EnsureTopic "persistent://public/default/orders" true 3 in
  let m := run_ops [(failed_write, op)] (no_files example_path) in
  (ensure good_write op m).1 = Ok tt /\ fm_file (ensure good_write op m).2 = None.
Proof. by vm_compute. Qed.

(** A partitioned topic called like a partition is saved under the name of the other
    one: which count is written depends on the order in which the map is visited. *)
Example saved_count_depends_on_order :
  let ops := [(good_write, EnsureTopic "persistent://public/default/orders" true 5);
              (good_write, EnsureTopic "persistent://public/default/orders-partition-7" true 3)] in
  let st := fm_state (run_ops ops (no_files example_path)) in
  doc_partitioned_topics (build_document_from_state in_map_order st 2) <>
  doc_partitioned_topics (build_document_from_state in_reverse_order st 2).
Proof. vm_compute; discriminate. Qed.
