(* ===== verification/Restart.v ===== *)
(** * The broker across restarts

    [main.rs] opens the metadata store, makes a broker and gives it the partition
    counts the store has.  [broker_service.rs] and [persistent_topic.rs] record the
    topics they create and the subscriptions they open.  Here both run together:
    every event of the broker with the requests it makes to the metadata store. *)

From S2P Require Import Prelude Text Keys MetadataStore MetadataRestart.
From S2P Require Import CursorRead LedgerInfo MetadataCodec EntryLog RocksLedger StickyKey Consumer PublishRate StorageService.
From S2P Require Import DurableCursor Effects TopicSubscription Topic BrokerService Trace Registry.

Local Open Scope result_scope.

Section broker_restart.
Context {bytes : Type} `{DbCodec bytes} `{MetadataDecoder} (clock : Z -> Z).
Context {text value : Type} `{!JsonCodec text value}.

Implicit Types b : Broker bytes.
Implicit Types m : FileMetadataStore text.

(** ** Start

    Nothing else has a handle on the broker yet: no topic is locked. *)

Definition start_broker (now : Z) (readable : bool) (path : string) (file temporary : option text)
    (store : ManagedLedgerStore bytes) (partitions : Z) (rate : TopicPublishRate)
    : result metadata_error (Broker bytes * FileMetadataStore text) :=
  let? m := file_store_new readable path file temporary in
  let restored := get_partitioned_topic_metadata (fm_state m) in
  let b := broker_with_config store partitions in
  let b := set_publish_rate_limits now (fun _ => false) (fun _ => false) rate b in
  Ok (restore_partition_metadata restored b, m).

(** ** What the broker asks the metadata store to record *)

Definition topic_requests (name : string) b : list resource_op :=
  match topics b !! name with
  | Some _ => []
  | None => [EnsureTopic name false 0]
  end.

Definition partitioned_requests (name : string) (count : Z) b : list resource_op :=
  match partitioned_topics b !! name with
  | Some _ => []
  | None => [EnsureTopic name true count]
  end.

Definition whole_requests (name : string) b : list resource_op :=
  if should_be_partitioned name b
  then partitioned_requests name (default (default_partitions b) (partition_metadata b !! name)) b
  else topic_requests name b.

Definition auto_requests (now : Z) (name : string) b : list resource_op :=
  match get_base_topic_name name, get_partition_index name with
  | Some base, Some i =>
      let count := default (default_partitions b) (partition_metadata b !! base) in
      if 0 <? count then
        let '(p, b') := get_or_create_partitioned_topic now base count b in
        partitioned_requests base count b ++
          match get_partition p i with
          | Some _ => []
          | None => whole_requests name b'
          end
      else whole_requests name b
  | _, _ => whole_requests name b
  end.

Definition subscription_requests (tr : topic_ref) (name : string) b : list resource_op :=
  match br_heap b !! tr with
  | Some t =>
      match topic_subscriptions t !! name, topic_mode t with
      | None, Persistent => [EnsureSubscription (topic_name t) name]
      | _, _ => []
      end
  | None => []
  end.

Definition event_requests (e : broker_event) b : list resource_op :=
  match e with
  | ETopic now name => auto_requests now name b
  | EOpen tr name _ _ _ => subscription_requests tr name b
  | _ => []
  end.

(** ** A broker and its metadata, over any number of restarts *)

Inductive lives (path : string) : Broker bytes -> FileMetadataStore text -> Prop :=
| lives_first now store partitions rate b m :
    start_broker now true path None None store partitions rate = Ok (b, m) -> lives path b m
| lives_event e io b b' m :
    lives path b m -> io_save io = Saved -> Forall op_ok (event_requests e b) -> apply_event clock e b = Some b' ->
    lives path b' (run_ops (pair io <$> event_requests e b) m)
| lives_restart now store partitions rate b m b' m' :
    lives path b m -> start_broker now true path (fm_file m) (fm_temporary m) store partitions rate = Ok (b', m') ->
    lives path b' m'.

(** ** What is recorded of a partition count *)

Definition counts_positive (pm : gmap string Z) : Prop := forall name n, pm !! name = Some n -> 1 <= n.

(** The store has the count of every topic with a valid name. *)
Definition counts_recorded (pm : gmap string Z) (st : MetadataState) : Prop :=
  forall name n p, pm !! name = Some n -> parse_topic_name name = Ok p -> get_partitioned_topic_metadata st !! name = Some n.

Definition counts_known b : Prop :=
  forall name, is_Some (partitioned_topics b !! name) -> is_Some (partition_metadata b !! name).

(** The partition counts that requests introduce. *)
Definition add_count (pm : gmap string Z) (op : resource_op) : gmap string Z :=
  match op with
  | EnsureTopic k true count => <[k := count]> pm
  | _ => pm
  end.

Definition request_positive (op : resource_op) : Prop :=
  match op with
  | EnsureTopic _ true count => 1 <= count
  | _ => True
  end.

Lemma add_count_positive pm op : counts_positive pm -> request_positive op -> counts_positive (add_count pm op).
Proof.
  intros Hpm Hop; destruct op as [| |k [] c|]; cbn [add_count]; try done.
  intros name n [[_ <-]|[_ Hn]]%lookup_insert_Some; [done |].
  by eapply Hpm.
Qed.

Lemma ensure_counts io op m pm :
  state_wf (fm_state m) -> request_positive op -> counts_recorded pm (fm_state m) ->
  counts_recorded (add_count pm op) (fm_state (ensure io op m).2).
Proof.
  intros Hwf Hop Hpm name n p Hn Hp; rewrite ensure_partitions by done.
  destruct op as [| |k [] c|]; cbn in Hn; try (by eapply Hpm).
  apply lookup_insert_Some in Hn as [[-> ->]|[Hne Hn]].
  - rewrite decide_True, Hp by done; cbn in Hop; by rewrite Z.max_l.
  - rewrite decide_False by done; by eapply Hpm.
Qed.

(** *** The requests of an event are the counts it introduces *)

Definition requested b b' (ops : list resource_op) : Prop :=
  partition_metadata b' = foldl add_count (partition_metadata b) ops /\
  Forall request_positive ops /\ counts_known b'.

Lemma requested_trans b b1 b2 l1 l2 : requested b b1 l1 -> requested b1 b2 l2 -> requested b b2 (l1 ++ l2).
Proof.
  intros (E1 & P1 & _) (E2 & P2 & K2); split; [by rewrite foldl_app, <- E1 |]; split; [by apply Forall_app | done].
Qed.

Lemma partitioned_requested now name count b :
  1 <= count -> counts_known b ->
  requested b (get_or_create_partitioned_topic now name count b).2 (partitioned_requests name count b).
Proof.
  intros Hc Hk; unfold get_or_create_partitioned_topic, partitioned_requests.
  destruct (partitioned_topics b !! name) as [p|]; [by split_and! |].
  pose proof (alloc_partitions_registry now name (seq 0 (Z.to_nat count)) b) as (_ & Hp & Hm & _).
  destruct (alloc_partitions now name _ b) as [ts b1]; cbn in Hp, Hm |- *.
  split; [cbn; by rewrite Hm |]; split; [by repeat constructor |].
  intros name'; cbn; rewrite Hp, Hm, !lookup_insert_is_Some'; intros [?|?]; [by left | right; by apply Hk].
Qed.

Lemma whole_requested now name b :
  counts_positive (partition_metadata b) -> counts_known b ->
  requested b (get_or_create_whole_topic now name b).2 (whole_requests name b).
Proof.
  intros Hpos Hk; unfold get_or_create_whole_topic, whole_requests.
  destruct (should_be_partitioned name b) eqn:Hs.
  - pose proof (partitioned_requested now name (default (default_partitions b) (partition_metadata b !! name)) b) as Hr.
    destruct (get_or_create_partitioned_topic _ _ _ b) as [p b1]; apply Hr; [|done].
    unfold should_be_partitioned in Hs; destruct (partition_metadata b !! name) as [n|] eqn:En; cbn in Hs |- *;
      [by eapply Hpos |].
    rewrite bool_decide_eq_false_2 in Hs; [cbn in Hs; apply Z.ltb_lt in Hs; lia |].
    intros [? ?]%Hk; congruence.
  - unfold get_or_create_topic, topic_requests; destruct (topics b !! name); [by split_and! |].
    cbn; split_and!; [done | by repeat constructor | done].
Qed.

Lemma auto_requested now name b :
  counts_positive (partition_metadata b) -> counts_known b ->
  requested b (get_or_create_topic_auto now name b).2 (auto_requests now name b).
Proof.
  intros Hpos Hk; unfold get_or_create_topic_auto, auto_requests; pose proof (whole_requested now name b Hpos Hk) as Hw.
  destruct (get_base_topic_name name) as [base|]; [|done]; destruct (get_partition_index name) as [i|]; [|done].
  set (count := default _ _); destruct (Z.ltb_spec 0 count) as [Hc|]; [|done].
  pose proof (partitioned_requested now base count b ltac:(lia) Hk) as Hr.
  destruct (get_or_create_partitioned_topic now base count b) as [p b1]; cbn [snd] in Hr.
  destruct (get_partition p i) as [t|]; [by rewrite app_nil_r |].
  eapply requested_trans; [done |]; destruct Hr as (Em & HP & Hk1); apply whole_requested; [|done].
  rewrite Em; clear -Hpos HP; revert Hpos; generalize (partition_metadata b).
  induction HP as [|op l Hop _ IH]; intros pm Hpm; [done |]; by apply IH, add_count_positive.
Qed.

Lemma event_requested e b b' :
  counts_positive (partition_metadata b) -> counts_known b -> apply_event clock e b = Some b' ->
  requested b b' (event_requests e b).
Proof.
  intros Hpos Hk He.
  assert ((forall now name, e <> ETopic now name) -> requested b b' []) as Hsame.
  { intros Hne; destruct (event_same_registry clock e b b' He Hne) as (_ & Hp & Hm & _).
    split_and!; [done | done |]; intros name; rewrite Hp, Hm; apply Hk. }
  destruct e; try (by apply Hsame).
  - cbn in He; injection He as <-; by apply auto_requested.
  - destruct Hsame as (Hm & _ & Hk'); [done |]; cbn in Hm |- *; unfold subscription_requests.
    destruct (br_heap b !! tr) as [topic|]; [|done]; destruct (topic_subscriptions topic !! name); [done |].
    destruct (topic_mode topic); [|done]; split_and!; [done | by repeat constructor | done].
Qed.

(** *** The invariant *)

Record lives_inv (path : string) b m : Prop := {
  li_store : store_ok path m;
  li_loads : loads path m;
  li_positive : counts_positive (partition_metadata b);
  li_recorded : counts_recorded (partition_metadata b) (fm_state m);
  li_known : counts_known b;
}.

Lemma start_inv path now file temporary store partitions rate m0 :
  file_store_new true path file temporary = Ok m0 -> store_ok path m0 -> loads path m0 ->
  exists b m, start_broker now true path file temporary store partitions rate = Ok (b, m) /\
    lives_inv path b m /\ m = m0 /\ partition_metadata b = get_partitioned_topic_metadata (fm_state m0).
Proof.
  intros E Hok Hl; unfold start_broker; rewrite E; cbn [result_bind]; eexists _, _; split; [reflexivity |].
  assert (forall x : gmap string Z, x ∪ ∅ = x) as Hu by (intros; apply map_union_empty).
  split; [|split; [done |]; cbn; by rewrite Hu].
  split; [done | done | | |]; cbn; rewrite ?Hu.
  - intros name n; rewrite lookup_partitioned; intros (t & Ht & Hn)%bind_Some; destruct Hok as [Hwf _].
    destruct (wf_topics _ Hwf _ _ Ht) as (p & _ & _ & _ & _ & Hc); destruct (partitioned t); [|done].
    injection Hn as <-; apply Hc.
  - by intros name n p Hn _.
  - intros name [? Hn]; cbn in Hn; by rewrite lookup_empty in Hn.
Qed.

Lemma requests_inv path io ops b b' m :
  metadata_file_path path -> io_save io = Saved -> Forall op_ok ops -> requested b b' ops -> lives_inv path b m ->
  lives_inv path b' (run_ops (pair io <$> ops) m).
Proof.
  intros Hpath Hio Hops (Em & HP & Hk) [Hs Hl Hpos Hrec _].
  assert (store_ok path (run_ops (pair io <$> ops) m) /\ loads path (run_ops (pair io <$> ops) m) /\
    counts_positive (foldl add_count (partition_metadata b) ops) /\
    counts_recorded (foldl add_count (partition_metadata b) ops) (fm_state (run_ops (pair io <$> ops) m)))
    as (? & ? & ? & ?); [|split; by rewrite ?Em].
  clear Em Hk b'; revert Hs Hl Hpos Hrec; generalize (partition_metadata b); intros pm; revert pm m HP.
  induction Hops as [|op ops Hop _ IH]; intros pm m HP Hs Hl Hpos Hrec; [done |]; cbn [fmap list_fmap run_ops foldl].
  apply Forall_cons in HP as [Hp HP]; apply IH; [done | by apply ensure_step | by apply ensure_loads
    | by apply add_count_positive | apply ensure_counts; [apply Hs | done | done]].
Qed.

Lemma lives_ok path b m : metadata_file_path path -> lives path b m -> lives_inv path b m.
Proof.
  intros Hpath; induction 1 as [now store parts rate b m E|e io b b' m _ IH Hio Hops He|now store parts rate b m b' m' _ IH E].
  - destruct (start_inv path now None None store parts rate (no_files path)) as (b0 & m0 & E0 & Hi & _);
      [done | by split; [apply state_wf_new |] | done |].
    rewrite E in E0; by injection E0 as <- <-.
  - eapply requests_inv; [done | done | done | | done]; eapply event_requested; [apply IH | apply IH | done].
  - destruct IH as [Hs Hl _ _ _].
    destruct (start_inv path now (fm_file m) (fm_temporary m) store parts rate
      (mkFileStore (fm_state m) (fm_file m) (fm_temporary m))) as (b0 & m0 & E0 & Hi & _); [apply Hl | done | done |].
    rewrite E in E0; by injection E0 as <- <-.
Qed.

(** C7: A restart keeps the partitions.  Take a broker that was started without a
    metadata file, or started again any number of times, whose metadata writes
    succeed, and which partitions topics under their logical names only.  When it is
    started once more, with whatever store, default and rate, the start succeeds, and
    the new broker answers the partition-metadata request of a client for every
    partitioned topic with a valid name as the old one did. *)
Theorem restart_keeps_partitions path b m name n p now store partitions rate :
  metadata_file_path path -> lives path b m ->
  partition_metadata b !! name = Some n -> parse_topic_name name = Ok p ->
  exists b' m', start_broker now true path (fm_file m) (fm_temporary m) store partitions rate = Ok (b', m') /\
    fm_state m' = fm_state m /\ should_be_partitioned name b' = true /\
    get_partition_metadata_response_count name b' = get_partition_metadata_response_count name b.
Proof.
  intros Hpath [Hs Hl Hpos Hrec Hk]%lives_ok Hn Hp; [|done].
  destruct (start_inv path now (fm_file m) (fm_temporary m) store partitions rate
    (mkFileStore (fm_state m) (fm_file m) (fm_temporary m))) as (b' & m' & E & _ & -> & Hm); [apply Hl | done | done |].
  exists b'; eexists; split; [exact E |]; cbn [fm_state] in Hm.
  pose proof (Hrec _ _ _ Hn Hp) as Hr; rewrite <- Hm in Hr; split; [done |].
  unfold should_be_partitioned, get_partition_metadata_response_count; by rewrite Hr, Hn.
Qed.
End broker_restart.

(** ** Example: a broker with three partitions by default, started again with none *)

#[local] Existing Instance byte_metadata.

Definition example_topic : string := "persistent://public/default/orders".

Definition first_broker : Broker plain := broker_with_config (MemoryBackend MemoryStore.mem_new) 3.

Definition used_broker : Broker plain := (get_or_create_topic_auto 1 example_topic first_broker).2.

Definition used_store : FileMetadataStore MetadataDocument :=
  run_ops (pair good_write <$> event_requests (ETopic 1 example_topic) first_broker) (no_files example_path).

Lemma restart_keeps_partitions_witness :
  exists (b' : Broker plain) m',
    start_broker 5 true example_path (fm_file used_store) (fm_temporary used_store) (MemoryBackend MemoryStore.mem_new) 0
      no_rate = Ok (b', m') /\
    fm_state m' = fm_state used_store /\ should_be_partitioned example_topic b' = true /\
    get_partition_metadata_response_count example_topic b' = get_partition_metadata_response_count example_topic used_broker.
Proof.
  apply (restart_keeps_partitions (fun _ => 0) example_path used_broker used_store example_topic 3
           (mkTopicName "persistent" "public" "default" "orders")).
  - exists "pulsar"; vm_compute; reflexivity.
  - apply (lives_event _ _ (ETopic 1 example_topic) good_write first_broker).
    + apply (lives_first _ _ 0 (MemoryBackend MemoryStore.mem_new) 3 no_rate); vm_compute; reflexivity.
    + reflexivity.
    + apply (bool_decide_eq_true_1 (Forall op_ok _)); vm_compute; reflexivity.
    + unfold used_broker; reflexivity.
  - vm_compute; reflexivity.
  - vm_compute; reflexivity.
Defined.
